(* ===== verification/_CoqProject ===== *)
-Q . S2P
Prelude.v
F64.v
Rounding.v
Csv.v
Text.v
Network.v
Config.v
Cli.v
Event.v
Parse.v
ParseOrder.v
ParseDevFee.v
ParseDispute.v
ParseInfo.v
ParseRelayList.v
ParseRates.v
Db.v
Versioned.v
Samples.v
RepoOrders.v
RepoDisputes.v
RepoDevFees.v
RepoInstances.v
RepoInfo.v
RepoRates.v
RepoRelays.v
RepoEvents.v
Heartbeats.v
Pipeline.v
PipelineFacts.v
Rebuild.v
Range.v
Filters.v
Backfill.v
StatsPrelude.v
Percentile.v
Metric.v
Calendar.v
Window.v
Address.v
Bucket.v
Activity.v
Timing.v
Document.v
Restatement.v
Index.v
Published.v
Disputes.v
Rates.v
Feeds.v
Volume.v
Converted.v
DevFees.v
Implied.v
Ranking.v
Market.v
MarketFiat.v
Instances.v
Summary.v
Compare.v
LoadActivity.v
LoadDevFees.v
LoadDisputes.v
LoadInstances.v
LoadRates.v
Growth.v
Series.v
Snapshot.v
SnapshotFacts.v
SnapshotRows.v
Signer.v
Client.v
Discovery.v
Sync.v
Report.v
Reports.v
ReportsFacts.v
Publish.v
PublishFacts.v
Commands.v
