(* ===== verification/Prelude.v ===== *)
(** * bestiario

    bestiario indexes what Mostro instances publish on Nostr relays, keeps the
    events and what follows from them in SQLite, computes figures over that
    archive, prints them as reports and publishes them back as Nostr documents.
    This library models the program from its settings and the tags of an
    incoming event to the text of a report and the documents a relay accepts,
    and proves what the parts promise to one another.

    ** The parts and their files

    - Shared: [Prelude] (results, strings, sorting, integer widths, tables),
      [F64] and [Rounding] ([f64] as binary64 of [SpecFloat], its printing),
      [Text] (characters, case, decimals), [Event] (what the nostr, serde_json
      and url crates are to the code: class [External], with a concrete instance
      in [Event.Demo]).
    - Settings, [src/config/] and [src/cli.rs]: [Config] (defaults, canonical
      forms, every check), [Cli] (what an invocation asks for).
    - Reading events, [src/ingest/parse/]: [Parse] (the tag readers, [y] tag,
      errors), [ParseOrder], [ParseDevFee], [ParseDispute], [ParseInfo],
      [ParseRelayList], [ParseRates]; [Network] is [src/network.rs].
    - The archive, [migrations/] and [src/db/repo/]: [Db] has the tables as finite
      maps, a row type a table; [Csv] the list columns; [Versioned] what orders
      and disputes share (append-only versions, recomputed projection);
      [RepoOrders], [RepoDisputes], [RepoDevFees], [RepoInstances], [RepoInfo],
      [RepoRates], [RepoRelays], [RepoEvents], [Heartbeats] one file a
      repository. A statement is a function on [Db] that can fail.
    - Ingest, [src/ingest/pipeline.rs] and [src/commands/]: [Pipeline] (admission,
      parsing, the transaction), [PipelineFacts] (ingest as a step relation,
      reachable archives), [Rebuild], [Range], [Filters], [Backfill] (the walk of
      one relay), [Discovery] (a whole backfill, with the rounds that follow the
      relays it finds), [Sync] (the loop of [follow] as a state machine),
      [Growth] (what any of these does to an archive, under any policy, and
      [Growth.Retention], the cleanup of migration 5).
    - Figures, [crates/stats/src/]: [StatsPrelude] (grouping and counting),
      [Percentile], [Metric], [Calendar] (chrono: class [Calendar] with laws, and
      the Gregorian instance), [Window], [Bucket], [Activity], [Timing],
      [Disputes], [Rates], [Feeds], [Volume], [Converted], [DevFees], [Implied],
      [Ranking], [Market], [MarketFiat], [Instances] (with the lifecycle of an
      order), [Summary], [Compare], [Series].
    - Between the two, [src/db/load/]: [LoadActivity], [LoadDevFees],
      [LoadDisputes], [LoadInstances], [LoadRates] read the tables into what the
      figures take.
    - Reports, [src/report/] and [src/commands/]: [Report] (the report, its table,
      its grid), [Reports] (the query the flags resolve to and every report
      command, from its flags to the text it prints), [ReportsFacts].
    - Publication, [crates/stats/src/publish/], [src/nostr/] and
      [src/commands/publish.rs]: [Address] (the [d] tag), [Document], [Restatement]
      (revisions), [Index] (with the size gate), [Published] (the two tables),
      [Snapshot], [SnapshotFacts], [SnapshotRows], [Signer], [Client] (with
      [nip11]), [Publish], [PublishFacts].
    - The program, [src/commands/mod.rs], [src/db/mod.rs], [main.rs]: [Commands]
      (settings, pool, dispatch, and sessions of many invocations).

    ** How they interact

    An event goes [Pipeline.admits] → [Parse*] → [Repo*] inside one transaction:
    [Pipeline.ingest] is the composition, and an error leaves the archive as it
    was. [Discovery.run] and [Sync.step] feed it what relays answer; [Rebuild]
    replays the archived events through the same [persist]. A report resolves a
    [Query], reads the archive through the [Load*] files into the [Order],
    [Dispute] and [Fee] of the figure files and renders what they say; [Series]
    and [Snapshot] call every family. [Publish.run] reads the archive the same
    way, computes a [Snapshot], meets it with the last publication
    ([Restatement.restated]), signs and sends, and records ([Published]).
    [Commands.dispatch] is one invocation over the archive and the publication
    tables, and [Commands.session] any number of them.

    ** What the theorems show

    - The whole: whatever is run, in whatever order and under whatever settings,
      the session ends where its relays and signals let it, no archived event is
      gone, versions, projections, fees, profiles and rates stay a function of
      the archived events, every report command answers, and what relays
      accepted stays in order ([sessions_keep_the_archive]). What is printed and published depends on
      the events, the bestiary and the kinds requested, not on how the events
      came by ([figures_follow_events]).
    - Ingest: an accepted event has exactly the effect its kind calls for
      ([ingest_is_effect]); reachable archives stay well formed and hold only
      wanted events; a stored event that comes again, whenever it does, moves a
      cursor and at most a sighting; a rebuild restores versions, projections,
      fees, profiles and rates, leaves cursors and requests alone, and makes the
      bestiary anew from the archived events, which forgets what only a redundant
      heartbeat told; from raw events it repairs whatever the tables held; the
      projections do not depend on arrival order; the cleanup of an older archive
      drops repetition and nothing else.
    - Settings: settings that load are canonical and ones a run can act on;
      those that do not load name a setting and the rule it breaks.
    - Parsing: an accepted order is well formed; stored rows read back.
    - Relays: a backfill over honest relays ends and leaves none of the orders,
      fees and disputes of the range behind, where no second holds more than a
      relay's page; a follower does to the archive what ingesting its deliveries
      in order does, whatever the relays do, asks untagged kinds only after the
      tagged ones and of vouched publishers, misses nothing of the tagged kinds
      across a reconnection, and follows again once the relays take its requests;
      the relays attached are those configured that answer, in that order.
    - Loading: the orders read are those the archive was told, each once.
    - Figures: counts of periods, slices and places of a histogram are counts of
      named orders and add up to the window's, a slice by payment method counting
      an order once per method; fees, disputes and priced orders are counted, and
      their shares and totals are, as the theorems spell out, quotients and sums
      of those counts; completion, abandonment, coverage, initiator and outcome
      shares lie between nought and one; windows tile their range; a series is
      refused for the reasons listed and no other.
    - Reports: a report is refused exactly for what was asked, never for the
      database ([report_commands_answer]); under [--network] no figure depends
      on a dispute ([network_excludes_disputes]); the grid shows each figure
      in its own cell.
    - Publication: addresses read back; revisions count changes of figures; a
      snapshot has exactly the documents it should; an accepted index names
      only documents that relays accepted before it, after any runs and
      whatever the relays answer; the record's clock and revisions only move
      forward; and a run that nothing stands in the way of ends well.

    ** Parameters

    The nostr, chrono, sqlx, serde_json, sha2, clap, config and comfy_table crates
    are interfaces: [External], [Calendar], [Serialize], [Digest], [Nostr],
    [PublicKeys] and [Npub] (keys in hex and bech32), [CaseMapping] (Unicode case
    beyond ASCII), [RatesJson] (reading back a printed rate table), [Renderer] (a
    drawn table, a spelled report), [Pool.Driver] (SQLite), or arguments:
    [fetch] and [dial] are the relays, [Signal] what a sync awaits. Laws are
    separate classes, each with an instance the witnesses run on.

    ** Bounds and fuel

    [i64], [u64], [u32] and [usize] arithmetic keeps its width: [i64_add] and the
    like saturate or wrap as the source's operators do, sums of [i128] are
    unbounded where no input can reach the width. Loops that are not structural
    carry fuel computed from their input ([Backfill.walk] with [enough range],
    [Window.buckets], [Snapshot.weeks_of], [Client.Subscription.next_event]), and
    each has a theorem that the fuel suffices; for a backfill that theorem
    supposes relays that honour the bounds they are asked, without which the
    loop of the source need not end either. The calendar's laws hold between
    years 0 and 9999.

    ** Not modelled

    Starting the runtime and installing the log subscriber ([main.rs],
    [logging.rs], of which only the exit code and the filter are here);
    recognising the words of the command line; layering the settings file under
    the environment, which is the config crate's; the indexes the migrations
    make, which show in no result, and archives between two migrations: [Db]
    has the columns of the last, and a column an upgrade leaves empty is what
    [rebuild --from-raw] fills ([rebuild_restores]); sockets, timers and the
    order in which they fire, which a [Signal] stands for. Log lines are left
    out, and error texts where nothing prints them but an error itself. *)

From Stdlib Require Export ZArith Lia Ascii.
From stdpp Require Export base gmap strings list sorting option pretty.

#[local] Open Scope Z_scope.

(** The rewriting database of string concatenation. *)
Create Rewrite HintDb str.

(** ** Fallible code: Rust's [Result]

    [Ok]/[Err] with the monad operations of stdpp, so that the [?] of the
    source reads as [x ← m; k]. *)

Inductive Result (E A : Type) : Type :=
| Ok (a : A)
| Err (e : E).
Arguments Ok {E A} a.
Arguments Err {E A} e.

#[export] Instance Result_ret {E} : MRet (Result E) := λ A a, Ok a.
#[export] Instance Result_bind {E} : MBind (Result E) := λ A B f m,
  match m with Ok a => f a | Err e => Err e end.
#[export] Instance Result_fmap {E} : FMap (Result E) := λ A B f m,
  match m with Ok a => Ok (f a) | Err e => Err e end.
#[export] Instance Result_eq_dec {E A} `{!EqDecision E, !EqDecision A} :
  EqDecision (Result E A).
Proof. solve_decision. Defined.

(** [Result::map_err], [Option::ok_or], [Result::ok]. *)
Definition map_err {E E' A} (f : E → E') (m : Result E A) : Result E' A :=
  match m with Ok a => Ok a | Err e => Err (f e) end.
Definition ok_or {E A} (o : option A) (e : E) : Result E A :=
  match o with Some a => Ok a | None => Err e end.
Definition ok {E A} (m : Result E A) : option A :=
  match m with Ok a => Some a | Err _ => None end.

(** [Option<Result<_>>::transpose], and collecting an iterator of results. *)
Definition transpose {E A} (o : option (Result E A)) : Result E (option A) :=
  match o with None => Ok None | Some (Ok a) => Ok (Some a) | Some (Err e) => Err e end.
Fixpoint collect {E A} (l : list (Result E A)) : Result E (list A) :=
  match l with
  | [] => Ok []
  | m :: l => x ← m; xs ← collect l; Ok (x :: xs)
  end.

Lemma bind_Ok {E A B} (m : Result E A) (f : A → Result E B) b :
  m ≫= f = Ok b ↔ ∃ a, m = Ok a ∧ f a = Ok b.
Proof. destruct m; naive_solver. Qed.

Lemma collect_map_Ok {E A B} (f : A → Result E B) (g : A → B) l :
  (∀ x, x ∈ l → f x = Ok (g x)) → collect (f <$> l) = Ok (g <$> l).
Proof.
  induction l as [|x l IH]; intros H; [done|].
  rewrite !fmap_cons. cbn [collect]. rewrite (H x) by constructor.
  cbn [mbind Result_bind].
  rewrite IH; [done|]. intros y Hy. apply H. by constructor.
Qed.

(** Collecting what may fail, element by element. *)
Lemma collect_Forall2 {A B E} (f : A → Result E B) l r :
  collect (f <$> l) = Ok r ↔ Forall2 (λ x y, f x = Ok y) l r.
Proof.
  revert r. induction l as [|x l IH]; intros r.
  - cbn. split; [intros [= <-]; constructor|by inversion 1].
  - rewrite fmap_cons. cbn [collect]. rewrite bind_Ok. setoid_rewrite bind_Ok. setoid_rewrite IH. split.
    + intros (y & Hy & ys & Hys & [= <-]). by constructor.
    + inversion 1; subst. eauto.
Qed.
Lemma collect_total {A B E} (f : A → Result E B) l :
  (∀ x, x ∈ l → ∃ y, f x = Ok y) → ∃ r, collect (f <$> l) = Ok r ∧ Forall2 (λ x y, f x = Ok y) l r.
Proof.
  intros Hf. assert (∃ r, Forall2 (λ x y, f x = Ok y) l r) as [r Hr].
  - induction l as [|x l IH]; [by exists []|]. destruct (Hf x) as [y Hy]; [by left|].
    destruct IH as [r Hr]; [intros z Hz; apply Hf; by right|]. exists (y :: r). by constructor.
  - exists r. by rewrite collect_Forall2.
Qed.

(** Lists side by side. *)
Lemma Forall2_impl_in {A B} (P Q : A → B → Prop) l k :
  Forall2 P l k → (∀ x y, x ∈ l → y ∈ k → P x y → Q x y) → Forall2 Q l k.
Proof.
  induction 1 as [|x y l k Hxy _ IH]; intros Himpl; constructor.
  - apply Himpl; [by left|by left|done].
  - apply IH. intros x' y' ??. apply Himpl; by right.
Qed.
Lemma StronglySorted_Forall2 {A B} (R : A → A → Prop) (S : B → B → Prop) (P : A → B → Prop) l k :
  (∀ x x' y y', P x y → P x' y' → R x x' → S y y') →
  StronglySorted R l → Forall2 P l k → StronglySorted S k.
Proof.
  intros Himpl Hs Hp. induction Hp as [|x y l k Hxy Hlk IH]; [constructor|]. inversion Hs as [|?? Hl Hall]; subst.
  constructor; [by apply IH|]. clear -Himpl Hxy Hlk Hall. induction Hlk; inversion Hall; subst; constructor; eauto.
Qed.
Lemma NoDup_fmap_filter {A B} (f : A → B) (P : A → Prop) `{!∀ x, Decision (P x)} l :
  NoDup (f <$> l) → NoDup (f <$> filter P l).
Proof. intros Hnd. eapply sublist_NoDup; [exact Hnd|]. apply fmap_sublist, sublist_filter. Qed.

Lemma ok_or_Ok {E A} (o : option A) (e : E) a : ok_or o e = Ok a ↔ o = Some a.
Proof. destruct o; naive_solver. Qed.

Lemma fmap_Ok {E A B} (m : Result E A) (f : A → B) b :
  f <$> m = Ok b ↔ ∃ a, m = Ok a ∧ b = f a.
Proof. destruct m; naive_solver. Qed.

(** Peel every successful bind and map of the hypotheses. *)
Ltac inv_ok :=
  repeat match goal with
  | H : _ ≫= _ = Ok _ |- _ => apply bind_Ok in H as (? & ? & ?)
  | H : _ <$> _ = Ok _ |- _ => apply fmap_Ok in H as (? & ? & ?)
  | H : Ok _ = Ok _ |- _ => injection H as ?; subst
  | H : Err _ = Ok _ |- _ => discriminate H
  end.

(** ** Machine integers

    Rust's [i64] and [u64] are [Z]; the widths are written out where the code
    narrows. *)

Definition i64_min : Z := - 2 ^ 63.
Definition i64_max : Z := 2 ^ 63 - 1.
Definition u64_max : Z := 2 ^ 64 - 1.
Definition u32_max : Z := 2 ^ 32 - 1.
Definition is_i64 (z : Z) : Prop := i64_min ≤ z ≤ i64_max.
Definition is_u64 (z : Z) : Prop := 0 ≤ z ≤ u64_max.

(** [u as i64]: the two's-complement reading of a [u64]. *)
Definition as_i64 (u : Z) : Z := if decide (u ≤ i64_max) then u else u - 2 ^ 64.
(** [a - b] on [i64], wrapping as release builds do. *)
Definition i64_sub (a b : Z) : Z := as_i64 ((a - b) mod 2 ^ 64).
Lemma i64_sub_small a b : is_i64 (a - b) → i64_sub a b = a - b.
Proof.
  unfold is_i64, i64_sub, as_i64, i64_min, i64_max. change (2 ^ 64) with 18446744073709551616.
  change (2 ^ 63) with 9223372036854775808. intros H.
  case_decide; Z.to_euclidean_division_equations; lia.
Qed.

(** [i64::try_from(u)]. *)
Definition i64_try_from (u : Z) : option Z := if decide (u ≤ i64_max) then Some u else None.
(** [i64::saturating_sub] and [u32::saturating_add]. *)
Definition i64_saturating_sub (a b : Z) : Z := Z.max i64_min (Z.min i64_max (a - b)).
Definition i64_saturating_add (a b : Z) : Z := Z.max i64_min (Z.min i64_max (a + b)).
Definition u32_saturating_add (a b : Z) : Z := Z.min u32_max (a + b).

Lemma as_i64_small u : u ≤ i64_max → as_i64 u = u.
Proof. intros. unfold as_i64. by rewrite decide_True. Qed.

Lemma as_i64_range u : is_u64 u → is_i64 (as_i64 u).
Proof.
  unfold is_u64, is_i64, as_i64, i64_min, i64_max, u64_max. intros ?.
  case_decide; lia.
Qed.

(** ** Rust strings

    A [&str] is its UTF-8 bytes. [str::trim] removes the code points of
    Unicode's [White_Space], so the tokens it strips are their encodings. *)

Definition byte_string (bs : list N) : string :=
  foldr (λ b s, String (ascii_of_N b) s) "" bs.

Definition white_space : list string := byte_string <$>
  [[9]; [10]; [11]; [12]; [13]; [32]; [194; 133]; [194; 160]; [225; 154; 128];
   [226; 128; 128]; [226; 128; 129]; [226; 128; 130]; [226; 128; 131];
   [226; 128; 132]; [226; 128; 133]; [226; 128; 134]; [226; 128; 135];
   [226; 128; 136]; [226; 128; 137]; [226; 128; 138]; [226; 128; 168];
   [226; 128; 169]; [226; 128; 175]; [226; 129; 159]; [227; 128; 128]]%N.

Fixpoint strip_prefix (p s : string) : option string :=
  match p, s with
  | "", s => Some s
  | String a p, String b s => if decide (a = b) then strip_prefix p s else None
  | _, "" => None
  end.

Definition starts_with (p s : string) : bool := bool_decide (is_Some (strip_prefix p s)).

Fixpoint strip_first (ts : list string) (s : string) : option string :=
  match ts with
  | [] => None
  | t :: ts => match strip_prefix t s with Some r => Some r | None => strip_first ts s end
  end.

(** Every token is non-empty, so [length s] steps always suffice. *)
Fixpoint strip_all (fuel : nat) (ts : list string) (s : string) : string :=
  match fuel with
  | O => s
  | S fuel => match strip_first ts s with Some r => strip_all fuel ts r | None => s end
  end.

Definition trim_start (s : string) : string := strip_all (String.length s) white_space s.
Definition trim_end (s : string) : string :=
  String.rev (strip_all (String.length s) (String.rev <$> white_space) (String.rev s)).
Definition trim (s : string) : string := trim_end (trim_start s).

(** [value.trim().is_empty()] *)
Definition blank (s : string) : bool := bool_decide (trim s = "").

(** [str::contains(char)], [str::split(char)], [str::split_once(char)]. *)
Fixpoint contains_char (c : ascii) (s : string) : bool :=
  match s with "" => false | String a s => bool_decide (a = c) || contains_char c s end.

Fixpoint split_char (c : ascii) (s : string) : list string :=
  match s with
  | "" => [""]
  | String a s =>
      if decide (a = c) then "" :: split_char c s
      else match split_char c s with
           | [] => [String a ""]
           | w :: ws => String a w :: ws
           end
  end.

Fixpoint split_once (c : ascii) (s : string) : option (string * string) :=
  match s with
  | "" => None
  | String a s =>
      if decide (a = c) then Some ("", s)
      else match split_once c s with
           | Some (l, r) => Some (String a l, r)
           | None => None
           end
  end.

(** [[T]::join(&str)]. *)
Fixpoint join (sep : string) (l : list string) : string :=
  match l with
  | [] => ""
  | [s] => s
  | s :: l => s +:+ sep +:+ join sep l
  end.

(** [str::to_lowercase] on the ASCII range, which is where every string the
    code lowers lives (hex pubkeys and needles compared with them). *)
Definition lower_ascii (a : ascii) : ascii :=
  let n := N_of_ascii a in
  if decide (65 ≤ n ≤ 90)%N then ascii_of_N (n + 32) else a.
Fixpoint to_lowercase (s : string) : string :=
  match s with "" => "" | String a s => String (lower_ascii a) (to_lowercase s) end.
Definition eq_ignore_ascii_case (s t : string) : bool :=
  bool_decide (to_lowercase s = to_lowercase t).

Fixpoint forall_char (p : ascii → bool) (s : string) : bool :=
  match s with "" => true | String a s => p a && forall_char p s end.

Definition is_ascii_digit (a : ascii) : bool :=
  bool_decide (48 ≤ N_of_ascii a ≤ 57)%N.
Definition digit_value (a : ascii) : Z := Z.of_N (N_of_ascii a) - 48.

(** The number a run of decimal digits spells, and [i64::from_str]. *)
Fixpoint digits_from (acc : Z) (s : string) : option Z :=
  match s with
  | "" => Some acc
  | String a s => if is_ascii_digit a then digits_from (10 * acc + digit_value a) s else None
  end.
Definition digits (s : string) : option Z :=
  match s with "" => None | _ => digits_from 0 s end.

Definition in_i64 (z : Z) : option Z := if decide (is_i64 z) then Some z else None.
Definition i64_from_str (s : string) : option Z :=
  match s with
  | String "+" s => digits s ≫= in_i64
  | String "-" s => digits s ≫= λ n, in_i64 (- n)
  | s => digits s ≫= in_i64
  end.

(** Concatenation, as rewriting sees it. *)
Lemma string_app_nil_l s : "" +:+ s = s.
Proof. done. Qed.
Lemma string_app_cons a s t : String a s +:+ t = String a (s +:+ t).
Proof. done. Qed.
Lemma string_app_nil_r s : s +:+ "" = s.
Proof. induction s as [|a s IH]; [done|]. by rewrite string_app_cons, IH. Qed.
Lemma string_app_assoc s t u : (s +:+ t) +:+ u = s +:+ t +:+ u.
Proof. induction s as [|a s IH]; [done|]. by rewrite !string_app_cons, IH. Qed.

#[export] Hint Rewrite string_app_nil_l string_app_cons string_app_nil_r string_app_assoc : str.

(** ** Lists and options *)

Definition option_is_some {A} (o : option A) : bool := match o with Some _ => true | None => false end.
(** [Option::is_some_and], [Option::is_none_or], [Option::zip]. *)
Definition is_some_and {A} (f : A → bool) (o : option A) : bool :=
  match o with Some a => f a | None => false end.
Definition is_none_or {A} (f : A → bool) (o : option A) : bool :=
  match o with Some a => f a | None => true end.
Definition option_zip {A B} (a : option A) (b : option B) : option (A * B) :=
  match a, b with Some a, Some b => Some (a, b) | _, _ => None end.
Definition or_else {A} (a b : option A) : option A :=
  match a with Some a => Some a | None => b end.

Lemma NoDup_fmap_inj {A B} (f : A → B) l x y :
  NoDup (f <$> l) → x ∈ l → y ∈ l → f x = f y → x = y.
Proof.
  intros Hnd [i Hi]%list_elem_of_lookup [j Hj]%list_elem_of_lookup Heq.
  assert (i = j); [|naive_solver].
  eapply NoDup_lookup; [exact Hnd| |]; rewrite list_lookup_fmap; [by rewrite Hi|].
  rewrite Hj, Heq. done.
Qed.

(** A fold whose steps commute, from states an invariant describes, does not
    depend on the order of the list. *)
Lemma foldl_perm {S A} (I : S → Prop) (f : S → A → S) l l' s :
  (∀ s a, a ∈ l → I s → I (f s a)) →
  (∀ s a b, I s → a ∈ l → b ∈ l → f (f s a) b = f (f s b) a) →
  l ≡ₚ l' → I s → foldl f s l = foldl f s l'.
Proof.
  intros HI Hcomm Hp. revert s HI Hcomm.
  induction Hp as [|x l l' Hp IH|x y l|l1 l2 l3 H1 IH1 H2 IH2]; intros s HI Hcomm Hs; cbn.
  - done.
  - apply IH; [intros; apply HI; [by right|done]| |apply HI; [by left|done]].
    intros. apply Hcomm; [done|by right..].
  - rewrite Hcomm; [done|done|by left|by right; left].
  - rewrite IH1 by done. apply IH2; [| |done]; setoid_rewrite <- H1; done.
Qed.

(** SQL's [MIN] and [MAX] over a nullable column: NULLs are ignored, and the
    aggregate of nothing is NULL. *)
Definition opt_min (a b : option Z) : option Z :=
  match a, b with Some x, Some y => Some (Z.min x y) | Some x, None => Some x | None, b => b end.
Definition opt_max (a b : option Z) : option Z :=
  match a, b with Some x, Some y => Some (Z.max x y) | Some x, None => Some x | None, b => b end.
Definition sql_min (l : list (option Z)) : option Z := foldr opt_min None l.
Definition sql_max (l : list (option Z)) : option Z := foldr opt_max None l.

Lemma sql_min_elem l m : sql_min l = Some m → Some m ∈ l.
Proof.
  revert m. induction l as [|o l IH]; intros m; [done|].
  cbn [sql_min foldr]; fold (sql_min l).
  destruct o as [k|], (sql_min l) as [n|]; cbn; intros [= <-]; try (by constructor); auto.
  - destruct (Z.min_spec k n) as [[? ->]|[? ->]]; constructor; auto.
  - constructor. auto.
Qed.

Lemma sql_min_le l x : Some x ∈ l → ∃ m, sql_min l = Some m ∧ m ≤ x.
Proof.
  induction l as [|o l IH]; [by intros ?%elem_of_nil|].
  intros [<-|H]%elem_of_cons; cbn [sql_min foldr]; fold (sql_min l).
  - destruct (sql_min l); cbn; eexists; split; eauto; lia.
  - destruct (IH H) as (m & -> & ?). destruct o; cbn; eexists; split; eauto; lia.
Qed.

Lemma sql_min_Some l m :
  sql_min l = Some m ↔ Some m ∈ l ∧ ∀ x, Some x ∈ l → m ≤ x.
Proof.
  split.
  - intros H. split; [by apply sql_min_elem|]. intros x Hx.
    destruct (sql_min_le _ _ Hx) as (m' & ? & ?). naive_solver.
  - intros [Hm Hle]. destruct (sql_min_le _ _ Hm) as (m' & Hm' & ?).
    rewrite Hm'. f_equal. apply sql_min_elem, Hle in Hm'. lia.
Qed.

Lemma sql_max_min l : sql_max l = option_map Z.opp (sql_min (option_map Z.opp <$> l)).
Proof.
  induction l as [|o l IH]; [done|]. cbn.
  fold (sql_max l). fold (sql_min (option_map Z.opp <$> l)). rewrite IH.
  destruct o as [k|], (sql_min _) as [n|]; cbn; f_equal; lia.
Qed.

Lemma sql_max_ge l x : Some x ∈ l → ∃ m, sql_max l = Some m ∧ x ≤ m.
Proof.
  intros Hx. rewrite sql_max_min.
  destruct (sql_min_le (option_map Z.opp <$> l) (- x)) as (m & -> & ?).
  { apply list_elem_of_fmap. by exists (Some x). }
  eexists. split; [done|]. lia.
Qed.

Lemma sql_max_Some l m :
  sql_max l = Some m ↔ Some m ∈ l ∧ ∀ x, Some x ∈ l → x ≤ m.
Proof.
  assert (∀ x, Some (- x) ∈ option_map Z.opp <$> l ↔ Some x ∈ l) as Hopp.
  { intros x. rewrite list_elem_of_fmap. split.
    - intros ([y|] & [= ->%Z.opp_inj] & ?). done.
    - intros. by exists (Some x). }
  rewrite sql_max_min. split.
  - destruct (sql_min _) as [n|] eqn:E; [|done]. cbn. intros [= <-].
    apply sql_min_Some in E as [Hn Hle]. split.
    + apply Hopp. by rewrite Z.opp_involutive.
    + intros x Hx%Hopp%Hle. lia.
  - intros [Hm Hle]. assert (sql_min (option_map Z.opp <$> l) = Some (- m)) as ->; [|cbn; f_equal; lia].
    apply sql_min_Some. split; [by apply Hopp|]. intros x Hx.
    assert (- x ≤ m); [|lia]. apply Hle, Hopp. by rewrite Z.opp_involutive.
Qed.

#[export] Instance sql_min_proper : Proper ((≡ₚ) ==> (=)) sql_min.
Proof.
  intros l l' Hp. apply option_eq. intros m.
  rewrite !sql_min_Some. by setoid_rewrite Hp.
Qed.
#[export] Instance sql_max_proper : Proper ((≡ₚ) ==> (=)) sql_max.
Proof.
  intros l l' Hp. apply option_eq. intros m.
  rewrite !sql_max_Some. by setoid_rewrite Hp.
Qed.

(** ** [ORDER BY]

    Every ordered read of the archive sorts by a clock and breaks ties on an
    id: a [Z * string] key, compared lexicographically ([BINARY] collation is
    the byte order of stdpp's [String.le]). [DESC] on the clock negates it. *)

Definition key_le (a b : Z * string) : Prop := a.1 < b.1 ∨ (a.1 = b.1 ∧ String.le a.2 b.2).

#[export] Instance key_le_dec : RelDecision key_le.
Proof. unfold RelDecision, key_le. intros a b. apply _. Defined.
#[export] Instance key_le_trans : Transitive key_le.
Proof.
  intros a b c [?|[??]] [?|[??]]; unfold key_le; try (left; lia).
  right. split; [lia|]. by etrans.
Qed.
#[export] Instance key_le_antisymm : AntiSymm (=) key_le.
Proof.
  intros [a s] [b t] [?|[? H1]] [?|[? H2]]; cbn in *; try lia.
  f_equal; [done|]. by apply (anti_symm String.le).
Qed.
#[export] Instance key_le_total : Total key_le.
Proof.
  intros [a s] [b t]. unfold key_le; cbn.
  destruct (Z.lt_trichotomy a b) as [?|[->|?]]; [auto| |auto].
  destruct (total String.le s t); auto.
Qed.

Section order_by.
Context {A : Type} (key : A → Z * string).

Definition by_key (x y : A) : Prop := key_le (key x) (key y).
#[export] Instance by_key_dec : RelDecision by_key.
Proof. unfold RelDecision, by_key. intros x y. apply _. Defined.
#[export] Instance by_key_trans : Transitive by_key.
Proof. intros x y z Hxy Hyz. exact (key_le_trans _ _ _ Hxy Hyz). Qed.
#[export] Instance by_key_total : Total by_key.
Proof. intros x y. exact (key_le_total (key x) (key y)). Qed.

(** [SELECT … ORDER BY key], and the same with [LIMIT 1]. *)
Definition order_by (l : list A) : list A := merge_sort by_key l.
Definition first_by (l : list A) : option A := head (order_by l).

Lemma order_by_Permutation l : order_by l ≡ₚ l.
Proof. apply merge_sort_Permutation. Qed.

Lemma elem_of_order_by x l : x ∈ order_by l ↔ x ∈ l.
Proof. by rewrite order_by_Permutation. Qed.

Lemma order_by_sorted l : StronglySorted by_key (order_by l).
Proof. apply StronglySorted_merge_sort; apply _. Qed.

(** The sort does not depend on the order the rows are scanned in, as long
    as the key tells the rows apart. *)
Lemma order_by_canonical l l' :
  (∀ x y, x ∈ l → y ∈ l → key x = key y → x = y) →
  l ≡ₚ l' → order_by l = order_by l'.
Proof.
  intros Hinj Hp. apply (StronglySorted_unique_strong by_key).
  - intros x y Hx Hy Hxy Hyx. apply Hinj.
    + by apply elem_of_order_by.
    + rewrite Hp. by apply elem_of_order_by.
    + exact (key_le_antisymm _ _ Hxy Hyx).
  - apply order_by_sorted.
  - apply order_by_sorted.
  - by rewrite !order_by_Permutation.
Qed.

Lemma first_by_Some l x :
  first_by l = Some x → x ∈ l ∧ ∀ y, y ∈ l → by_key x y.
Proof.
  unfold first_by. intros H. pose proof (order_by_sorted l) as Hs.
  destruct (order_by l) as [|z zs] eqn:E; [done|]. injection H as ->.
  split.
  - apply elem_of_order_by. rewrite E. by constructor.
  - intros y Hy%elem_of_order_by. rewrite E in Hy.
    inversion Hs as [|?? _ Hall]; subst.
    apply elem_of_cons in Hy as [->|Hy].
    + destruct (total by_key x x); done.
    + rewrite Forall_forall in Hall. auto.
Qed.

Lemma first_by_None l : first_by l = None ↔ l = [].
Proof.
  unfold first_by. split.
  - intros H. apply Permutation_nil_r. rewrite <- (order_by_Permutation l).
    by destruct (order_by l).
  - by intros ->.
Qed.

Lemma first_by_canonical l l' :
  (∀ x y, x ∈ l → y ∈ l → key x = key y → x = y) →
  l ≡ₚ l' → first_by l = first_by l'.
Proof. intros. unfold first_by. by rewrite (order_by_canonical l l'). Qed.

Lemma first_by_intro l x :
  (∀ x y, x ∈ l → y ∈ l → key x = key y → x = y) →
  x ∈ l → (∀ y, y ∈ l → by_key x y) → first_by l = Some x.
Proof.
  intros Hinj Hx Hmin. destruct (first_by l) as [z|] eqn:E.
  - apply first_by_Some in E as [Hz Hle]. f_equal. apply Hinj; [done..|].
    exact (key_le_antisymm _ _ (Hle _ Hx) (Hmin _ Hz)).
  - apply first_by_None in E as ->. by apply elem_of_nil in Hx.
Qed.

(** [ORDER BY key DESC LIMIT 1] over rows the key tells apart. *)
Lemma last_by_Some l x : last (order_by l) = Some x → x ∈ l ∧ ∀ y, y ∈ l → by_key y x.
Proof.
  intros [l' E]%last_Some. pose proof (order_by_sorted l) as Hs. rewrite E in Hs. split.
  - apply elem_of_order_by. rewrite E. apply elem_of_app. right. by apply list_elem_of_singleton.
  - intros y Hy%elem_of_order_by. rewrite E in Hy. apply elem_of_app in Hy as [Hy | ->%list_elem_of_singleton].
    + eapply StronglySorted_app_1_elem_of; [exact Hs|done|]. by apply list_elem_of_singleton.
    + by destruct (total by_key x x).
Qed.
Lemma last_by_is_Some l x : x ∈ l → ∃ y, last (order_by l) = Some y.
Proof.
  intros Hx%elem_of_order_by. destruct (last (order_by l)) as [y|] eqn:E; [by exists y|].
  apply last_None in E. rewrite E in Hx. by apply elem_of_nil in Hx.
Qed.
End order_by.

(** [SELECT DISTINCT col … ORDER BY col] over a text column. *)
Definition distinct (l : list string) : list string :=
  merge_sort String.le (elements (list_to_set (C := gset string) l)).

Lemma elem_of_distinct l s : s ∈ distinct l ↔ s ∈ l.
Proof.
  unfold distinct. rewrite merge_sort_Permutation, elem_of_elements. apply elem_of_list_to_set.
Qed.

(** ** Tables

    A table is a finite map from its primary key to its row; a query reads
    the rows in no particular order. *)

Section table.
Context {K R : Type} `{Countable K}.

Definition rows (t : gmap K R) : list R := (map_to_list t).*2.

Lemma elem_of_rows t r : r ∈ rows t ↔ ∃ k, t !! k = Some r.
Proof.
  unfold rows. rewrite list_elem_of_fmap. split.
  - intros ([k r'] & -> & ?%elem_of_map_to_list). eauto.
  - intros [k ?%elem_of_map_to_list]. by exists (k, r).
Qed.

(** A key column tells the rows apart. *)
Lemma NoDup_rows {B} (f : R → B) t :
  (∀ k k' r r', t !! k = Some r → t !! k' = Some r' → f r = f r' → k = k') → NoDup (f <$> rows t).
Proof.
  intros Hinj. unfold rows. rewrite <- list_fmap_compose. apply NoDup_fmap_2_strong.
  - intros [k r] [k' r'] Hk%elem_of_map_to_list Hk'%elem_of_map_to_list Hf. cbn in Hf.
    assert (k = k') as <- by eauto. congruence.
  - apply NoDup_map_to_list.
Qed.
Lemma rows_insert t k r : t !! k = None → rows (<[k := r]> t) ≡ₚ r :: rows t.
Proof. intros. unfold rows. by rewrite map_to_list_insert. Qed.

(** [INSERT OR IGNORE]: an existing primary key keeps its row. *)
Definition insert_or_ignore (k : K) (r : R) (t : gmap K R) : gmap K R :=
  match t !! k with Some _ => t | None => <[k := r]> t end.

Lemma insert_or_ignore_lookup k r t k' :
  insert_or_ignore k r t !! k' =
    match t !! k' with Some x => Some x | None => if decide (k = k') then Some r else None end.
Proof.
  unfold insert_or_ignore. destruct (t !! k) eqn:E; case_decide; subst;
    rewrite ?E, ?lookup_insert_eq, ?lookup_insert_ne by done; try done; by destruct (t !! k').
Qed.

Lemma insert_or_ignore_idemp k r r' t :
  insert_or_ignore k r (insert_or_ignore k r' t) = insert_or_ignore k r' t.
Proof.
  unfold insert_or_ignore. destruct (t !! k) eqn:E.
  - by rewrite E.
  - by rewrite lookup_insert_eq.
Qed.

Lemma insert_or_ignore_comm k r k' r' t :
  k ≠ k' → insert_or_ignore k r (insert_or_ignore k' r' t) = insert_or_ignore k' r' (insert_or_ignore k r t).
Proof.
  intros Hne. apply map_eq. intros i. rewrite !insert_or_ignore_lookup.
  destruct (t !! i); [done|]. by repeat case_decide; subst.
Qed.
End table.

(** Iterating a [BTreeMap<String, _>]: by key, in byte order. *)
Definition key_first {V} (a b : string * V) : Prop := String.le a.1 b.1.
#[export] Instance key_first_dec {V} : RelDecision (@key_first V).
Proof. unfold RelDecision, key_first. intros a b. apply _. Defined.
Definition btree_iter {V} (m : gmap string V) : list (string * V) :=
  merge_sort key_first (map_to_list m).

Lemma btree_iter_Permutation {V} (m : gmap string V) : btree_iter m ≡ₚ map_to_list m.
Proof. apply merge_sort_Permutation. Qed.

Lemma elem_of_btree_iter {V} (m : gmap string V) k v : (k, v) ∈ btree_iter m ↔ m !! k = Some v.
Proof. by rewrite btree_iter_Permutation, elem_of_map_to_list. Qed.

(** Its keys come in order, each once. *)
#[export] Instance key_first_total {V} : Total (@key_first V).
Proof. intros a b. unfold key_first. apply total, _. Qed.
#[export] Instance key_first_trans {V} : Transitive (@key_first V).
Proof. intros a b c. unfold key_first. apply transitivity. Qed.
Lemma btree_keys_sorted {V} (m : gmap string V) :
  StronglySorted String.le (btree_iter m).*1 ∧ NoDup (btree_iter m).*1.
Proof.
  split.
  - assert (StronglySorted key_first (btree_iter m)) as Hs by (apply StronglySorted_merge_sort; apply _).
    induction Hs as [|x l Hs IH Hx]; constructor; [done|]. by apply Forall_fmap.
  - rewrite btree_iter_Permutation. apply NoDup_fst_map_to_list.
Qed.

Lemma i64_from_str_range s z : i64_from_str s = Some z → is_i64 z.
Proof.
  assert (∀ (f : Z → Z) o, (o ≫= λ n, in_i64 (f n)) = Some z → is_i64 z) as Hin.
  { intros f [n|]; cbn; [|done]. unfold in_i64. case_decide; naive_solver. }
  unfold i64_from_str. intros H.
  repeat case_match; first [by apply (Hin Z.opp) in H|by apply (Hin id) in H].
Qed.

(** ** Segments and digits *)

(** [format!("{n:0width$}")] of a non-negative number. *)
Definition pad (width : nat) (n : Z) : string :=
  let s := pretty n in
  foldr (λ _ s, "0" +:+ s) s (seq 0 (width - String.length s)).

Lemma split_char_cons c s : ∃ w ws, split_char c s = w :: ws.
Proof.
  induction s as [|a s (w & ws & IH)]; cbn; [by do 2 eexists|].
  rewrite IH. case_decide; by do 2 eexists.
Qed.

Lemma split_char_none c s : contains_char c s = false → split_char c s = [s].
Proof.
  induction s as [|a s IH]; cbn; [done|]. rewrite orb_false_iff, bool_decide_eq_false.
  intros [Ha Hs]. by rewrite decide_False, IH.
Qed.

Lemma split_char_app c s t :
  contains_char c s = false → split_char c (s +:+ String c t) = s :: split_char c t.
Proof.
  induction s as [|a s IH].
  - intros _. change ("" +:+ String c t) with (String c t). cbn [split_char]. by rewrite decide_True.
  - change (String a s +:+ String c t) with (String a (s +:+ String c t)).
    cbn [contains_char split_char]. rewrite orb_false_iff, bool_decide_eq_false.
    intros [Ha Hs]. by rewrite decide_False, IH.
Qed.

(** Splitting and joining by one character are inverses. *)
Lemma join_split_char c s : join (String c "") (split_char c s) = s.
Proof.
  induction s as [|a s IH]; cbn; [done|].
  destruct (split_char_cons c s) as (w & ws & E). rewrite E in *. case_decide as Ha.
  - subst a. change (String c (join (String c "") (w :: ws)) = String c s). by rewrite IH.
  - enough (join (String c "") (String a w :: ws) = String a (join (String c "") (w :: ws))) as ->
      by (by rewrite IH). by destruct ws.
Qed.

Lemma split_char_join c l :
  l ≠ [] → Forall (λ s, contains_char c s = false) l → split_char c (join (String c "") l) = l.
Proof.
  intros Hne Hl. induction Hl as [|s l Hs Hl IH]; [done|].
  destruct l as [|t l]; [by apply split_char_none|].
  change (split_char c (s +:+ String c (join (String c "") (t :: l))) = s :: t :: l).
  rewrite split_char_app by done. by rewrite IH.
Qed.

Lemma contains_char_app c s t : contains_char c (s +:+ t) = contains_char c s || contains_char c t.
Proof.
  induction s as [|a s IH]; [done|].
  change (String a s +:+ t) with (String a (s +:+ t)). cbn [contains_char]. by rewrite IH, orb_assoc.
Qed.

Lemma digit_value_inj a b :
  is_ascii_digit a = true → is_ascii_digit b = true → digit_value a = digit_value b → a = b.
Proof.
  intros _ _ H. unfold digit_value in H. rewrite <- (ascii_N_embedding a), <- (ascii_N_embedding b).
  f_equal. lia.
Qed.

Lemma digit_value_range a : is_ascii_digit a = true → 0 ≤ digit_value a ≤ 9.
Proof. unfold is_ascii_digit, digit_value. rewrite bool_decide_eq_true. lia. Qed.

(** As many digits spell a number in one way. *)
Lemma digits_from_inj s t acc acc' n :
  String.length s = String.length t →
  digits_from acc s = Some n → digits_from acc' t = Some n → acc = acc' ∧ s = t.
Proof.
  revert t acc acc'. induction s as [|a s IH]; intros [|b t] acc acc'; cbn; try done.
  - intros _ [= ->] [= ->]. done.
  - intros [= Hlen]. destruct (is_ascii_digit a) eqn:Ha; [|done]. destruct (is_ascii_digit b) eqn:Hb; [|done].
    intros H1 H2. destruct (IH t _ _ Hlen H1 H2) as [E ->].
    pose proof (digit_value_range a Ha). pose proof (digit_value_range b Hb).
    assert (acc = acc') by lia. assert (digit_value a = digit_value b) by lia.
    split; [done|]. f_equal. by apply digit_value_inj.
Qed.

Lemma digits_inj s t n :
  String.length s = String.length t → digits s = Some n → digits t = Some n → s = t.
Proof.
  destruct s as [|a s], t as [|b t]; try done. intros Hlen H1 H2.
  by destruct (digits_from_inj _ _ 0 0 n Hlen H1 H2).
Qed.

Lemma digits_from_range s acc n :
  0 ≤ acc → digits_from acc s = Some n →
  acc * 10 ^ Z.of_nat (String.length s) ≤ n < (acc + 1) * 10 ^ Z.of_nat (String.length s).
Proof.
  revert acc. induction s as [|a s IH]; intros acc Hacc; cbn [digits_from String.length].
  - intros [= ->]. cbn. lia.
  - destruct (is_ascii_digit a) eqn:Ha; [|done]. pose proof (digit_value_range a Ha). intros Hn.
    specialize (IH (10 * acc + digit_value a) ltac:(lia) Hn).
    rewrite Nat2Z.inj_succ, Z.pow_succ_r by lia.
    pose proof (Z.pow_pos_nonneg 10 (Z.of_nat (String.length s)) ltac:(lia) ltac:(lia)). nia.
Qed.

Lemma digits_no_char c s n : digits s = Some n → is_ascii_digit c = false → contains_char c s = false.
Proof.
  intros H Hc. assert (∀ acc, digits_from acc s = Some n → contains_char c s = false) as Hd.
  { clear H. induction s as [|a s IH]; intros acc; cbn; [done|].
    destruct (is_ascii_digit a) eqn:Ha; [|done]. intros H%IH. rewrite H, orb_false_r.
    apply bool_decide_eq_false. congruence. }
  destruct s; [done|]. by apply (Hd 0).
Qed.

(** What [pretty] spells reads back, in as many digits as the number takes. *)
Lemma pretty_char_digit d :
  (d < 10)%N → is_ascii_digit (pretty_N_char d) = true ∧ digit_value (pretty_N_char d) = Z.of_N d.
Proof.
  intros Hd. assert (d = 0 ∨ d = 1 ∨ d = 2 ∨ d = 3 ∨ d = 4 ∨ d = 5 ∨ d = 6 ∨ d = 7 ∨ d = 8 ∨ d = 9)%N as Hd' by lia.
  by repeat (destruct Hd' as [->|Hd']; [done|]); subst.
Qed.
Lemma pretty_go_digits x s : digits_from 0 (pretty_N_go x s) = digits_from (Z.of_N x) s.
Proof.
  revert s. induction (N.lt_wf_0 x) as [x _ IH]; intros s. destruct (decide (x = 0)%N) as [->|Hx].
  { by rewrite pretty_N_go_0. }
  rewrite pretty_N_go_step by lia. rewrite IH by (apply N.div_lt; lia). cbn [digits_from].
  destruct (pretty_char_digit (x `mod` 10)) as [-> ->]; [by apply N.mod_lt|].
  f_equal. rewrite N2Z.inj_div, N2Z.inj_mod. pose proof (Z.div_mod (Z.of_N x) 10). lia.
Qed.
Lemma pretty_go_length k x s :
  (x < 10 ^ N.of_nat k)%N → (String.length (pretty_N_go x s) ≤ k + String.length s)%nat.
Proof.
  revert x s. induction k as [|k IH]; intros x s Hx.
  { assert (x = 0)%N as -> by (cbn in Hx; lia). by rewrite pretty_N_go_0. }
  destruct (decide (x = 0)%N) as [->|Hne]; [rewrite pretty_N_go_0; lia|]. rewrite pretty_N_go_step by lia.
  etrans; [apply IH|cbn; lia]. rewrite Nat2N.inj_succ, N.pow_succ_r' in Hx. by apply N.Div0.div_lt_upper_bound.
Qed.
Lemma pretty_spec width n :
  (0 < width)%nat → 0 ≤ n < 10 ^ Z.of_nat width →
  (String.length (pretty n) ≤ width)%nat ∧ digits_from 0 (pretty n) = Some n.
Proof.
  intros Hw Hn. destruct n as [|p|p]; [by cbn; split; [lia|]| |lia].
  change (pretty (Z.pos p)) with (pretty_N_go (N.pos p) ""). rewrite pretty_go_digits. split; [|done].
  pose proof (pretty_go_length width (N.pos p) "") as Hl. cbn in Hl. rewrite Nat.add_0_r in Hl. apply Hl.
  apply N2Z.inj_lt. rewrite N2Z.inj_pow, nat_N_Z. cbn. lia.
Qed.
(** Zeros in front change the length and not the number. *)
Lemma pad_spec width n :
  (0 < width)%nat → 0 ≤ n < 10 ^ Z.of_nat width → String.length (pad width n) = width ∧ digits (pad width n) = Some n.
Proof.
  intros Hw Hn. destruct (pretty_spec width n Hw Hn) as [Hl Hd]. unfold pad. cbn zeta.
  assert (∀ k s, String.length (foldr (λ _ s, "0" +:+ s) s (seq 0 k)) = (k + String.length s)%nat ∧
    digits_from 0 (foldr (λ _ s, "0" +:+ s) s (seq 0 k)) = digits_from 0 s) as Hz.
  { intros k s. generalize 0%nat. induction k as [|k IH]; intros i; [done|]. destruct (IH (S i)) as [IHl IHd]. split; [exact (f_equal S IHl)|exact IHd]. }
  destruct (Hz (width - String.length (pretty n))%nat (pretty n)) as [Hlen Hdig]. split; [lia|].
  rewrite Hd in Hdig. destruct (foldr _ _ _) as [|a s] eqn:E; [cbn in Hlen; lia|done].
Qed.
Lemma digits_all s n : digits s = Some n → forall_char is_ascii_digit s = true.
Proof.
  intros Hs. assert (∀ acc, digits_from acc s = Some n → forall_char is_ascii_digit s = true) as Hd.
  { clear Hs. induction s as [|a s IH]; intros acc; cbn; [done|]. destruct (is_ascii_digit a); [apply IH|done]. }
  destruct s; [done|]. by apply (Hd 0).
Qed.
