(* ===== verification/F64.v ===== *)
(** * Rust's [f64]

    IEEE 754 binary64 as the [spec_float] of Corelib at precision 53 and
    maximal exponent 1024: the arithmetic, the comparisons and
    [f64::from_str] are executable functions on integers. *)

From Stdlib Require Import SpecFloat.
From S2P Require Import Prelude.

#[local] Open Scope Z_scope.

Abbreviation f64 := spec_float.
#[export] Instance f64_eq_dec : EqDecision f64.
Proof. solve_decision. Defined.

Definition f64_nan : f64 := S754_nan.
(** [i as f64]: round to nearest, ties to even. *)
Definition f64_of_Z (z : Z) : f64 := binary_normalize 53 1024 z 0 false.
Definition f64_add : f64 → f64 → f64 := SFadd 53 1024.
Definition f64_sub : f64 → f64 → f64 := SFsub 53 1024.
Definition f64_mul : f64 → f64 → f64 := SFmul 53 1024.
Definition f64_div : f64 → f64 → f64 := SFdiv 53 1024.

Definition is_finite (x : f64) : bool :=
  match x with S754_zero _ | S754_finite _ _ _ => true | _ => false end.
Definition is_nan (x : f64) : bool := match x with S754_nan => true | _ => false end.

(** [PartialOrd] of [f64]: every comparison with a NaN is false. *)
Definition f64_lt (x y : f64) : bool := SFltb x y.
Definition f64_gt (x y : f64) : bool := SFltb y x.
Definition f64_le (x y : f64) : bool := SFleb x y.
Definition partial_cmp (x y : f64) : option comparison := SFcompare x y.

(** The binary64 nearest to [± m * 10 ^ e]. A non-negative exponent is an
    integer to round; a negative one is a quotient of integers, which
    [SFdiv] rounds once. *)
Definition f64_of_decimal (neg : bool) (m : Z) (e : Z) : f64 :=
  match m with
  | Zpos p =>
      match 10 ^ Z.abs e with
      | Zpos q =>
          if decide (0 ≤ e) then binary_round 53 1024 neg (p * q) 0
          else SFdiv 53 1024 (S754_finite neg p 0) (S754_finite false q 0)
      | _ => S754_nan
      end
  | _ => S754_zero neg
  end.

(** The leading digits of a string: their value continuing [acc], how many,
    and the rest. *)
Fixpoint take_digits (acc : Z) (n : nat) (s : string) : Z * nat * string :=
  match s with
  | String a r => if is_ascii_digit a then take_digits (10 * acc + digit_value a) (S n) r
                  else (acc, n, s)
  | "" => (acc, n, "")
  end.

(** [Exp ::= 'e' Sign? Digit+] and the end of the input, or the end alone. *)
Definition exponent (s : string) : option Z :=
  match s with
  | "" => Some 0
  | String "e" (String "-" r) => Z.opp <$> digits r
  | String "e" (String "+" r) => digits r
  | String "e" r => digits r
  | _ => None
  end.

(** The grammar of [f64::from_str] after its sign, on a lowercased input:
    [inf], [infinity], [nan], or [Digit* ('.' Digit* )? Exp?] with at least
    one digit before the exponent. *)
Definition unsigned_from_str (neg : bool) (s : string) : option f64 :=
  if decide (s = "inf" ∨ s = "infinity") then Some (S754_infinity neg)
  else if decide (s = "nan") then Some S754_nan
  else
    let '(m, n, r) := take_digits 0 0 s in
    let '(m, n, frac, r) :=
      match r with
      | String "." r => let '(m, k, r) := take_digits m 0 r in (m, (n + k)%nat, k, r)
      | r => (m, n, 0%nat, r)
      end in
    if decide (n = 0%nat) then None
    else (λ e, f64_of_decimal neg m (e - Z.of_nat frac)) <$> exponent r.

Definition f64_from_str (s : string) : option f64 :=
  match s with
  | String "-" r => unsigned_from_str true (to_lowercase r)
  | String "+" r => unsigned_from_str false (to_lowercase r)
  | s => unsigned_from_str false (to_lowercase s)
  end.

(** [x.ceil() as usize]: a cast saturates, and sends NaN to zero. *)
Definition ceil_as_usize (x : f64) : Z :=
  match x with
  | S754_infinity false => u64_max
  | S754_finite false m e =>
      Z.min u64_max (if decide (0 ≤ e) then Zpos m * 2 ^ e else - ((- Zpos m) / 2 ^ (- e)))
  | _ => 0
  end.
(** [x.clamp(lo, hi)]: a NaN stays one. *)
Definition f64_clamp (x lo hi : f64) : f64 :=
  if f64_lt x lo then lo else if f64_gt x hi then hi else x.

(** SQLite has no NaN: binding one to a REAL column stores NULL. *)
Definition bind_real (x : f64) : option f64 := if is_nan x then None else Some x.

(** ** Facts *)

Lemma is_finite_not_nan x : is_finite x = true → is_nan x = false.
Proof. by destruct x. Qed.

Lemma bind_real_finite x : is_finite x = true → bind_real x = Some x.
Proof. by destruct x. Qed.

Example from_str_tenth : f64_from_str "0.1" = Some (S754_finite false 7205759403792794 (-56)).
Proof. vm_compute. reflexivity. Qed.

Example from_str_forms :
  f64_from_str "-1.5e2" = Some (f64_of_Z (-150)) ∧ f64_from_str "5." = Some (f64_of_Z 5) ∧
  f64_from_str "NaN" = Some S754_nan ∧ f64_from_str "" = None ∧ f64_from_str "." = None ∧
  f64_from_str "1e400" = Some (S754_infinity false) ∧ f64_from_str "1 " = None.
Proof. vm_compute. repeat split. Qed.
