(* ===== verification/Rounding.v ===== *)
(** * How binary64 rounds

    The facts of [F64]'s operations the figures rest on: rounding is to the
    nearest, so it respects every bound that is itself representable. *)

From Stdlib Require Import SpecFloat.
From S2P Require Import Prelude F64.

#[local] Open Scope Z_scope.

(** ** Digits *)

Lemma digits2_pos_log2 p : Zpos (digits2_pos p) = Z.log2 (Zpos p) + 1.
Proof.
  induction p as [p IH|p IH|]; cbn [digits2_pos]; [| |done].
  - rewrite Pos2Z.inj_succ, IH, Pos2Z.inj_xI, Z.log2_succ_double by lia. lia.
  - rewrite Pos2Z.inj_succ, IH, Pos2Z.inj_xO, Z.log2_double by lia. lia.
Qed.

Lemma Zdigits2_log2 m : 0 < m → Zdigits2 m = Z.log2 m + 1.
Proof. destruct m; [lia| |lia]. intros _. apply digits2_pos_log2. Qed.

Lemma log2_between m k : 0 < m → 2 ^ k ≤ m < 2 ^ (k + 1) → Z.log2 m = k.
Proof.
  intros Hm [H1 H2]. assert (0 ≤ k + 1) by (destruct (decide (0 ≤ k + 1)); [done|];
    rewrite Z.pow_neg_r in H2 by lia; lia).
  destruct (decide (0 ≤ k)).
  - apply Z.log2_unique; [done|]. rewrite <- Z.add_1_r. lia.
  - assert (k = -1) as -> by lia. cbn in H2. lia.
Qed.

(** ** Where a quotient lies between two integers

    [located n d mrs]: [n / d] has integer part [shr_m mrs], and the two
    sticky bits place its fractional part. *)

Definition located (n d : Z) (mrs : shr_record) : Prop :=
  0 < d ∧ shr_m mrs = n / d ∧
  let rem := 2 * (n mod d) in
  match shr_r mrs, shr_s mrs with
  | false, false => rem = 0
  | false, true => 0 < rem < d
  | true, false => rem = d
  | true, true => d < rem
  end.

Lemma located_exact n : located n 1 (Build_shr_record n false false).
Proof. split_and!; cbn; [lia|by rewrite Z.div_1_r|by rewrite Z.mod_1_r]. Qed.

Lemma located_quotient m d :
  0 < d → located m d (shr_record_of_loc (m / d) (new_location d (m mod d))).
Proof.
  intros Hd. pose proof (Z.mod_pos_bound m d Hd). unfold new_location, new_location_even, new_location_odd.
  assert (Hodd : Z.even d = false → 2 * (m mod d) ≠ d).
  { intros He Heq. rewrite <- Heq, Z.even_mul in He. done. }
  destruct (Z.even d) eqn:E; (destruct (Z.eqb_spec (m mod d) 0) as [Hz|Hz];
    [split_and!; cbn; [done|done|lia]|]).
  - destruct (Z.compare_spec (2 * (m mod d)) d); (split_and!; cbn; [done|done|lia]).
  - specialize (Hodd eq_refl).
    destruct (Z.compare_spec (2 * (m mod d) + 1) d); (split_and!; cbn; [done|done|lia]).
Qed.

(** Halving the quotient keeps track of what falls off. *)
Lemma shr_1_spec mrs :
  0 ≤ shr_m mrs →
  shr_m (shr_1 mrs) = shr_m mrs / 2 ∧ shr_r (shr_1 mrs) = Z.odd (shr_m mrs) ∧
  shr_s (shr_1 mrs) = shr_r mrs || shr_s mrs.
Proof.
  destruct mrs as [m r s]. cbn. intros Hm. destruct m as [|[p|p|]|]; [done| | |done|lia];
    (split_and!; cbn; [|done|done]).
  - rewrite Pos2Z.inj_xI. apply Z.div_unique with 1; lia.
  - rewrite Pos2Z.inj_xO. apply Z.div_unique with 0; lia.
Qed.

Lemma located_half n d mrs : 0 ≤ n → located n d mrs → located n (2 * d) (shr_1 mrs).
Proof.
  intros Hn (Hd & Hm & Hl).
  assert (0 ≤ shr_m mrs) as H0 by (rewrite Hm; by apply Z.div_pos).
  destruct (shr_1_spec mrs H0) as (E1 & E2 & E3).
  pose proof (Z.div_mod n d ltac:(lia)). pose proof (Z.mod_pos_bound n d Hd).
  pose proof (Z.div_mod (n / d) 2 ltac:(lia)) as Hq.
  assert (Z.odd (shr_m mrs) = bool_decide ((n / d) mod 2 = 1)) as Ho.
  { rewrite Hm, Zmod_odd. destruct (Z.odd (n / d)); by case_bool_decide. }
  pose proof (Z.mod_pos_bound (n / d) 2 ltac:(lia)).
  assert (n mod (2 * d) = d * ((n / d) mod 2) + n mod d) as Hr.
  { symmetry. apply Z.mod_unique with (n / d / 2); [left; nia|nia]. }
  split_and!; [lia| |].
  - rewrite E1, Hm, Z.mul_comm. apply Z.div_div; lia.
  - rewrite E2, E3, Ho, Hr. cbv zeta in *.
    case_bool_decide as Hb; [rewrite Hb|replace ((n / d) mod 2) with 0 by lia];
      destruct (shr_r mrs), (shr_s mrs); cbn [orb]; lia.
Qed.

Lemma iter_pos_iter {A} (f : A → A) p x : @SpecFloat.iter_pos A f p x = Pos.iter f x p.
Proof.
  revert x. induction p as [p IH|p IH|]; intros x; cbn; [|by rewrite !IH|done].
  by rewrite !IH, !Pos.iter_swap.
Qed.

Lemma located_shift n d p mrs :
  0 ≤ n → located n d mrs → located n (d * 2 ^ Zpos p) (@SpecFloat.iter_pos shr_record shr_1 p mrs).
Proof.
  intros Hn. rewrite iter_pos_iter, Pos2Nat.inj_iter, <- (positive_nat_Z p).
  generalize (Pos.to_nat p). clear p. intros k. induction k as [|k IH]; intros Hl.
  - cbn. by rewrite Z.mul_1_r.
  - cbn [Nat.iter nat_rect]. rewrite Nat2Z.inj_succ, Z.pow_succ_r by lia.
    replace (d * (2 * 2 ^ Z.of_nat k)) with (2 * (d * 2 ^ Z.of_nat k)) by ring.
    apply located_half; auto.
Qed.

(** Rounding to nearest: off by at most half, and exact on integers. *)
Lemma round_located n d mrs :
  located n d mrs →
  let q := round_nearest_even (shr_m mrs) (loc_of_shr_record mrs) in
  2 * Z.abs (q * d - n) ≤ d ∧ n / d ≤ q ≤ n / d + 1.
Proof.
  intros (Hd & Hm & Hl). pose proof (Z.div_mod n d ltac:(lia)) as E.
  pose proof (Z.mod_pos_bound n d Hd).
  assert (n / d * d - n = - (n mod d)) as E1 by lia.
  assert ((n / d + 1) * d - n = d - n mod d) as E2 by lia.
  destruct mrs as [m r s]. cbn [shr_m shr_r shr_s] in *. subst m.
  destruct r, s; cbn [loc_of_shr_record round_nearest_even]; [|destruct (Z.even _)| |];
    rewrite ?E1, ?E2; lia.
Qed.

(** ** Normal positive numbers *)

(** [normal x m e]: [x] is the positive normal number [m * 2 ^ e]. *)
Definition normal (x : f64) (m e : Z) : Prop :=
  ∃ p, x = S754_finite false p e ∧ Zpos p = m ∧ 2 ^ 52 ≤ m < 2 ^ 53 ∧ -1074 ≤ e ≤ 971.

(** What [x] is worth in units of [2 ^ g], for a grid no coarser than its own. *)
Definition on_grid (x : f64) (q g : Z) : Prop := ∃ m e, normal x m e ∧ g ≤ e ∧ q = m * 2 ^ (e - g).

Abbreviation rounded := (binary_round_aux 53 1024 false).

Lemma shr_fexp_shift m e l :
  shr_fexp 53 1024 m e l =
    let k := fexp 53 1024 (Zdigits2 m + e) - e in
    match k with
    | Zpos p => (@SpecFloat.iter_pos shr_record shr_1 p (shr_record_of_loc m l), e + k)
    | _ => (shr_record_of_loc m l, e)
    end.
Proof. done. Qed.

(** Rounding [n / d] in units of [2 ^ e], with a mantissa of at least 53 bits:
    the result is a multiple [q] of the grid it is rounded to. *)
Lemma rounded_spec m e l n d :
  0 ≤ n → 2 ^ 52 ≤ m → located n d (shr_record_of_loc m l) → -1074 ≤ e →
  e + Z.log2 m ≤ 1022 →
  let s := Z.log2 m - 52 in
  ∃ q, 2 * Z.abs (q * (d * 2 ^ s) - n) ≤ d * 2 ^ s ∧ on_grid (rounded m e l) q (e + s).
Proof.
  intros Hn Hm Hl He Hmax s.
  assert (Hs : 52 ≤ Z.log2 m) by (by apply Z.log2_le_pow2; lia).
  assert (Hmrs : ∃ mrs, shr_fexp 53 1024 m e l = (mrs, e + s) ∧ located n (d * 2 ^ s) mrs).
  { rewrite shr_fexp_shift, Zdigits2_log2 by lia. unfold fexp, emin. cbv zeta.
    replace (Z.max _ _ - e) with s by (unfold s; lia).
    destruct s as [|p|p] eqn:Es; [|eexists; split; [done|by apply located_shift]|unfold s in Es; lia].
    eexists. split; [by rewrite Z.add_0_r|]. by rewrite Z.mul_1_r. }
  destruct Hmrs as (mrs & Emrs & Hmrs). unfold binary_round_aux. rewrite Emrs.
  destruct (round_located _ _ _ Hmrs) as [Hq Hqf]. set (q := round_nearest_even _ _) in *.
  assert (Hdm : n / (d * 2 ^ s) = m / 2 ^ s).
  { destruct Hl as (Hd & Hm' & _). rewrite <- Z.div_div by (unfold s; lia).
    f_equal. by destruct l as [|[]]. }
  assert (Hfl : 2 ^ 52 ≤ m / 2 ^ s < 2 ^ 53).
  { pose proof (Z.log2_spec m ltac:(lia)) as [L1 L2]. replace (Z.log2 m) with (s + 52) in L1, L2 by (unfold s; lia).
    rewrite <- Z.add_succ_r in L2. change (Z.succ 52) with 53 in L2. rewrite Z.pow_add_r in L1, L2 by (unfold s; lia). split.
    - apply Z.div_le_lower_bound; lia.
    - apply Z.div_lt_upper_bound; lia. }
  exists q. split; [lia|]. rewrite shr_fexp_shift. cbv zeta. rewrite Zdigits2_log2 by lia. unfold fexp, emin.
  destruct (decide (q = 2 ^ 53)) as [E|E].
  - rewrite E. change (Z.log2 (2 ^ 53)) with 53. replace (Z.max _ _ - _) with 1 by (unfold s; lia).
    cbn -[Z.leb Z.add Z.pow]. rewrite (proj2 (Z.leb_le _ _)) by (unfold s; lia).
    exists (2 ^ 52), (e + s + 1). split; [|split; [lia|by replace (e + s + 1 - (e + s)) with 1 by lia]].
    eexists. split_and!; [done|done|lia|lia|unfold s; lia|unfold s; lia].
  - assert (Hl2 : Z.log2 q = 52) by (apply log2_between; lia).
    rewrite Hl2. replace (Z.max _ _ - _) with 0 by (unfold s; lia).
    cbn [shr_record_of_loc shr_m]. destruct q as [|p|p]; [lia| |lia].
    rewrite (proj2 (Z.leb_le _ _)) by (unfold s; lia).
    exists (Zpos p), (e + s). split; [|split; [lia|by rewrite Z.sub_diag, Z.mul_1_r]].
    eexists. split_and!; [done|done|lia|lia|unfold s; lia|unfold s; lia].
Qed.

(** ** Integers *)

Lemma shl_align_spec m e e' :
  Zpos (shl_align m e e').1 = Zpos m * 2 ^ Z.max 0 (e - e') ∧ (shl_align m e e').2 = Z.min e e' ∨
  (e ≤ e' ∧ shl_align m e e' = (m, e)).
Proof.
  unfold shl_align. destruct (e' - e) as [|p|p] eqn:E; [right; by split; [lia|]|right; by split; [lia|]|].
  left. cbn. split; [|lia]. replace (Z.max 0 (e - e')) with (Zpos p) by lia.
  rewrite Pos2Nat.inj_iter, <- (positive_nat_Z p). generalize (Pos.to_nat p).
  intros k. induction k as [|k IH]; [cbn; lia|].
  cbn [Nat.iter nat_rect]. rewrite Nat2Z.inj_succ, Z.pow_succ_r, Pos2Z.inj_xO, IH by lia. lia.
Qed.

(** Below [2 ^ 53] an integer is converted exactly. *)
Lemma normal_of_Z n :
  0 < n < 2 ^ 53 →
  normal (f64_of_Z n) (n * 2 ^ (52 - Z.log2 n)) (Z.log2 n - 52).
Proof.
  intros Hn. pose proof (Z.log2_spec n ltac:(lia)) as [L1 L2].
  assert (0 ≤ Z.log2 n ≤ 52) as HL by (split; [apply Z.log2_nonneg|]; apply Z.log2_lt_pow2 in L2; [|lia];
    assert (Z.log2 n < 53) by (by apply Z.log2_lt_pow2; lia); lia).
  assert (Hb : 2 ^ 52 ≤ n * 2 ^ (52 - Z.log2 n) < 2 ^ 53).
  { assert (2 ^ Z.log2 n * 2 ^ (52 - Z.log2 n) = 2 ^ 52) as E1
      by (rewrite <- Z.pow_add_r by lia; f_equal; lia).
    assert (2 ^ Z.succ (Z.log2 n) * 2 ^ (52 - Z.log2 n) = 2 ^ 53) as E2
      by (rewrite <- Z.pow_add_r by lia; f_equal; lia).
    pose proof (Z.pow_pos_nonneg 2 (52 - Z.log2 n) ltac:(lia) ltac:(lia)). nia. }
  destruct n as [|n|n]; [lia| |lia]. unfold f64_of_Z. cbn [binary_normalize]. unfold binary_round.
  change (Zpos (digits2_pos n)) with (Zdigits2 (Zpos n)). rewrite Zdigits2_log2 by lia.
  set (t := fexp 53 1024 _).
  assert (t = Z.log2 (Zpos n) - 52) as Et by (unfold t, fexp, emin; lia).
  assert (∃ p, shl_align n 0 t = (p, t) ∧ Zpos p = Zpos n * 2 ^ (52 - Z.log2 (Zpos n))) as (p & -> & Hp).
  { destruct (shl_align_spec n 0 t) as [[E1 E2]|[Hle E]].
    - eexists. rewrite (surjective_pairing (shl_align n 0 t)), E2. replace (Z.min 0 t) with t by lia.
      split; [done|]. rewrite E1. f_equal. f_equal. lia.
    - exists n. assert (t = 0) as -> by lia. split; [done|]. replace (52 - _) with 0 by lia. lia. }
  destruct (rounded_spec (Zpos p) t loc_Exact (Zpos p) 1) as (q & Hq & m & e & Hnorm & Hge & Heq).
  - lia.
  - lia.
  - apply located_exact.
  - lia.
  - assert (Z.log2 (Zpos p) = 52) by (apply log2_between; lia). lia.
  - rewrite (log2_between (Zpos p) 52) in Hq, Hge, Heq by lia.
    change (52 - 52) with 0 in *. rewrite Z.add_0_r in *. rewrite Z.pow_0_r in *.
    assert (q = Zpos p) as -> by lia.
    destruct Hnorm as (p' & E & Hp' & Hm & He).
    assert (e = t) as ->.
    { destruct (decide (e = t)); [done|]. exfalso.
      assert (2 ^ 1 ≤ 2 ^ (e - t)) by (apply Z.pow_le_mono_r; lia). nia. }
    rewrite Z.sub_diag, Z.mul_1_r in Heq. exists p'. rewrite Et in E |- *.
    split_and!; [done|lia|lia|lia|lia|lia].
Qed.

(** ** Products, quotients, ceilings *)

Lemma mul_spec x y mx ex my ey :
  normal x mx ex → normal y my ey → -1074 ≤ ex + ey → ex + ey + 105 ≤ 1022 →
  ∃ s q, (s = 52 ∨ s = 53) ∧ 2 * Z.abs (q * 2 ^ s - mx * my) ≤ 2 ^ s ∧
    on_grid (f64_mul x y) q (ex + ey + s).
Proof.
  intros (px & -> & Hpx & Hx & Hex) (py & -> & Hpy & Hy & Hey) Hlo Hhi.
  assert (Hl : Z.log2 (Zpos (px * py)) = 104 ∨ Z.log2 (Zpos (px * py)) = 105).
  { assert (Z.log2 (Zpos (px * py)) < 106) by (apply Z.log2_lt_pow2; nia).
    assert (104 ≤ Z.log2 (Zpos (px * py))) by (apply Z.log2_le_pow2; nia). lia. }
  destruct (rounded_spec (Zpos (px * py)) (ex + ey) loc_Exact (Zpos (px * py)) 1) as (q & Hq & Hg);
    [lia|nia|apply located_exact|lia|lia|].
  exists (Z.log2 (Zpos (px * py)) - 52), q. split; [lia|]. split; [|exact Hg].
  rewrite Z.mul_1_l in Hq. rewrite <- Hpx, <- Hpy, <- Pos2Z.inj_mul. exact Hq.
Qed.

Lemma ceil_on_grid x q g :
  on_grid x q g → g ≤ 0 → - ((- q) / 2 ^ (- g)) ≤ u64_max → ceil_as_usize x = - ((- q) / 2 ^ (- g)).
Proof.
  intros (m & e & (p & -> & Hp & Hm & He) & Hg & ->) Hg0 Hmax. cbn [ceil_as_usize]. rewrite Hp.
  enough ((if decide (0 ≤ e) then m * 2 ^ e else - ((- m) / 2 ^ (- e))) = - (- (m * 2 ^ (e - g)) / 2 ^ (- g)))
    as -> by lia.
  rewrite <- Z.mul_opp_l. case_decide.
  - replace (e - g) with (e + - g) by lia. rewrite Z.pow_add_r, Z.mul_assoc by lia.
    rewrite Z.div_mul by (apply Z.pow_nonzero; lia). lia.
  - replace (- g) with (- e + (e - g)) by lia. rewrite (Z.pow_add_r 2 (- e)) by lia.
    by rewrite Z.div_mul_cancel_r by (apply Z.pow_nonzero; lia).
Qed.

(** A quotient of integers below [2 ^ 53], the way a share is computed. *)
Lemma div_spec a b :
  0 < a < 2 ^ 53 → 0 < b < 2 ^ 53 →
  ∃ g q, g ≤ 0 ∧ 2 * Z.abs (q * b - a * 2 ^ (- g)) ≤ b ∧
    on_grid (f64_div (f64_of_Z a) (f64_of_Z b)) q g.
Proof.
  intros Ha Hb. pose proof (normal_of_Z a Ha) as (pa & Ea & Hpa & Hma & Hea).
  pose proof (normal_of_Z b Hb) as (pb & Eb & Hpb & Hmb & Heb). rewrite Ea, Eb.
  pose proof (Z.log2_nonneg a). pose proof (Z.log2_nonneg b).
  assert (La : Z.log2 a < 53) by (apply Z.log2_lt_pow2; lia).
  assert (Lb : Z.log2 b < 53) by (apply Z.log2_lt_pow2; lia).
  set (ea := Z.log2 a - 52) in *. set (eb := Z.log2 b - 52) in *.
  cbn [f64_div SFdiv]. unfold f64_div, SFdiv, SFdiv_core_binary.
  rewrite !Zdigits2_log2 by lia.
  rewrite (log2_between (Zpos pa) 52), (log2_between (Zpos pb) 52) by (change (52 + 1) with 53; lia).
  unfold fexp, emin. replace (Z.min _ _) with (ea - eb - 53) by lia.
  replace (ea - eb - (ea - eb - 53)) with 53 by lia. rewrite Z.shiftl_mul_pow2 by lia.
  pose proof (located_quotient (Zpos pa * 2 ^ 53) (Zpos pb) ltac:(lia)) as Hloc.
  unfold Z.div, Z.modulo in Hloc. destruct (Z.div_eucl (Zpos pa * 2 ^ 53) (Zpos pb)) as [q0 r] eqn:E.
  assert (Hq0 : 2 ^ 52 ≤ q0 < 2 ^ 54).
  { assert (q0 = Zpos pa * 2 ^ 53 / Zpos pb) as -> by (unfold Z.div; by rewrite E). split.
    - apply Z.div_le_lower_bound; lia.
    - apply Z.div_lt_upper_bound; lia. }
  assert (Z.log2 q0 = 52 ∨ Z.log2 q0 = 53) as Hs.
  { assert (Z.log2 q0 < 54) by (apply Z.log2_lt_pow2; lia).
    assert (52 ≤ Z.log2 q0) by (apply Z.log2_le_pow2; lia). lia. }
  destruct (rounded_spec q0 (ea - eb - 53) _ (Zpos pa * 2 ^ 53) (Zpos pb) ltac:(lia) ltac:(lia) Hloc)
    as (q & Hq & Hg); [lia|lia|].
  set (s := Z.log2 q0 - 52) in *. exists (ea - eb - 53 + s), q. split; [lia|]. split; [|exact Hg].
  rewrite Hpa, Hpb in Hq. set (F := 2 ^ (- eb + s)).
  assert (0 < F) by (apply Z.pow_pos_nonneg; lia).
  replace (52 - Z.log2 b) with (- eb) in Hq by lia. replace (52 - Z.log2 a) with (- ea) in Hq by lia.
  assert (b * 2 ^ (- eb) * 2 ^ s = b * F) as E1 by (unfold F; rewrite Z.pow_add_r by lia; ring).
  assert (a * 2 ^ (- ea) * 2 ^ 53 = a * 2 ^ (- (ea - eb - 53 + s)) * F) as E2.
  { unfold F. rewrite <- !Z.mul_assoc, <- !Z.pow_add_r by lia. do 2 f_equal. lia. }
  rewrite E1, E2 in Hq. nia.
Qed.

Definition is_share (r : f64) : Prop :=
  is_finite r = true ∧ f64_le (f64_of_Z 0) r = true ∧ f64_le r (f64_of_Z 1) = true.

(** A share of a positive total is a finite number between 0 and 1. *)
Lemma share_bounds a b :
  0 ≤ a ≤ b → 0 < b < 2 ^ 53 → is_share (f64_div (f64_of_Z a) (f64_of_Z b)).
Proof.
  intros Ha Hb. unfold is_share. destruct (decide (a = 0)) as [->|Hne].
  { pose proof (normal_of_Z b Hb) as (p & -> & _). done. }
  destruct (div_spec a b) as (g & q & Hg & Hq & m & e & (p & -> & Hp & Hm & He) & Hge & Heq); [lia|lia|].
  split_and!; [done|done|].
  assert (q ≤ 2 ^ (- g)) as Hle.
  { assert (a * 2 ^ (- g) ≤ b * 2 ^ (- g)) by (apply Z.mul_le_mono_nonneg_r; [apply Z.pow_nonneg|]; lia). nia. }
  assert (∃ one, f64_of_Z 1 = S754_finite false one (-52) ∧ Zpos one = 2 ^ 52) as (one & -> & Hone)
    by (eexists; split; vm_compute; reflexivity).
  unfold f64_le, SFleb. cbn [SFcompare].
  destruct (Z.compare_spec e (-52)) as [->|Hlt|Hgt]; [|done|].
  - assert (Zpos p ≤ Zpos one) as H1.
    { assert (2 ^ (- g) = 2 ^ 52 * 2 ^ (-52 - g)) as E by (rewrite <- Z.pow_add_r by lia; f_equal; lia).
      rewrite E in Hle. subst q m. rewrite Hone. apply Z.mul_le_mono_pos_r in Hle; [done|].
      apply Z.pow_pos_nonneg; lia. }
    pose proof (Pos.compare_spec p one) as Hc. unfold Pos.compare in Hc. destruct Hc; [done|done|lia].
  - exfalso. assert (2 ^ (- g) < 2 ^ (52 + (e - g))) as E by (apply Z.pow_lt_mono_r; lia).
    rewrite Z.pow_add_r in E by lia. assert (0 < 2 ^ (e - g)) by (apply Z.pow_pos_nonneg; lia). nia.
Qed.
