(* ===== verification/Csv.v ===== *)
(** * Lossless csv

    [src/db/repo/csv.rs]: the encoding of the columns that hold a list. A
    comma and a quote are ASCII, so reading bytes and reading characters
    agree on valid UTF-8. *)

From S2P Require Import Prelude.

#[local] Open Scope Z_scope.

(** The quote character, kept apart from the notation for strings. *)
Definition quote : ascii := Ascii.ascii_of_N 34.
Definition quote_str : string := String quote "".

(** The [replace] of [join]: every quote is doubled. *)
Fixpoint double_quotes (s : string) : string :=
  match s with
  | "" => ""
  | String a s =>
      if decide (a = quote) then String quote (String quote (double_quotes s))
      else String a (double_quotes s)
  end.

(** [needs_quoting]: whether writing [value] unquoted would change what
    reading it back yields. *)
Definition needs_quoting (value : string) : bool :=
  contains_char ","%char value || contains_char quote value || negb (bool_decide (trim value = value)).

Definition encode_field (value : string) : string :=
  if needs_quoting value then quote_str +:+ double_quotes value +:+ quote_str else value.

(** [csv::join]. *)
Definition join (values : list string) : string := Prelude.join "," (encode_field <$> values).

(** [push]: one decoded field, unless it carries nothing. *)
Definition push (values : list string) (field : string) (quoted : bool) : list string :=
  let value := if quoted then field else trim field in
  if decide (value = "") then values else values ++ [value].

(** The loop of [csv::split]: [field] is the text read so far, [quoted]
    whether a quote opened it, [inside] whether the reader is between quotes. *)
Fixpoint split_go (cs : string) (values : list string) (field : string)
    (quoted inside : bool) : list string :=
  match cs with
  | "" => push values field quoted
  | String c rest =>
      if bool_decide (c = quote) && inside then
        match rest with
        | String c' rest' =>
            if decide (c' = quote) then split_go rest' values (field +:+ quote_str) quoted true
            else split_go rest values field quoted false
        | "" => split_go rest values field quoted false
        end
      else if bool_decide (c = quote) && bool_decide (field = "") && negb quoted then
        split_go rest values field true true
      else if bool_decide (c = ","%char) && negb inside then
        split_go rest (push values field quoted) "" false inside
      else split_go rest values (field +:+ String c "") quoted inside
  end.

(** [csv::split]. *)
Definition split (csv : string) : list string := split_go csv [] "" false false.

(** ** Lossless *)

Lemma contains_char_cons c a s :
  contains_char c (String a s) = false → a ≠ c ∧ contains_char c s = false.
Proof. cbn. intros [?%bool_decide_eq_false ?]%orb_false_iff. done. Qed.

Lemma needs_quoting_false v :
  needs_quoting v = false →
  contains_char ","%char v = false ∧ contains_char quote v = false ∧ trim v = v.
Proof.
  unfold needs_quoting. intros [[??]%orb_false_iff Ht]%orb_false_iff.
  apply negb_false_iff, bool_decide_eq_true in Ht. done.
Qed.

(** Reading text that holds neither separator nor quote copies it. *)
Lemma split_go_plain v rest vs f :
  contains_char ","%char v = false → contains_char quote v = false →
  split_go (v +:+ rest) vs f false false = split_go rest vs (f +:+ v) false false.
Proof.
  revert f. induction v as [|a v IH]; intros f Hc Hq.
  { by autorewrite with str. }
  apply contains_char_cons in Hc as [Ha Hc]. apply contains_char_cons in Hq as [Hb Hq].
  rewrite string_app_cons. cbn [split_go].
  rewrite (bool_decide_false (a = quote)), (bool_decide_false (a = ","%char)) by done. cbn.
  rewrite IH by done. by autorewrite with str.
Qed.

(** Reading a quoted text undoes the doubling and stops at the lone quote:
    what follows is the end or a separator, never another quote. *)
Definition ends_field (rest : string) : Prop := rest = "" ∨ ∃ r, rest = String "," r.

Lemma split_go_quoted v rest vs f :
  ends_field rest →
  split_go (double_quotes v +:+ quote_str +:+ rest) vs f true true
    = split_go rest vs (f +:+ v) true false.
Proof.
  intros Hrest. revert f. induction v as [|a v IH]; intros f.
  - autorewrite with str. cbn [double_quotes]. unfold quote_str. autorewrite with str.
    cbn [split_go]. rewrite (bool_decide_true (quote = quote)) by done. cbn [andb].
    destruct Hrest as [->|[r ->]]; [done|]. by rewrite decide_False.
  - cbn [double_quotes]. case_decide as Ha.
    + subst a. autorewrite with str. cbn [split_go].
      rewrite (bool_decide_true (quote = quote)) by done. cbn [andb].
      rewrite decide_True by done. rewrite IH. unfold quote_str. by autorewrite with str.
    + autorewrite with str. cbn [split_go].
      rewrite (bool_decide_false (a = quote)) by done. cbn [andb].
      rewrite andb_false_r, IH. by autorewrite with str.
Qed.

Lemma push_encoded v vs : v ≠ "" → push vs v (needs_quoting v) = vs ++ [v].
Proof.
  intros Hv. unfold push. destruct (needs_quoting v) eqn:E; [by rewrite decide_False|].
  apply needs_quoting_false in E as (_ & _ & ->). by rewrite decide_False.
Qed.

(** One encoded field, read up to where it ends. *)
Lemma split_go_field v rest vs :
  ends_field rest →
  split_go (encode_field v +:+ rest) vs "" false false
    = split_go rest vs v (needs_quoting v) false.
Proof.
  intros Hrest. unfold encode_field. destruct (needs_quoting v) eqn:E.
  - unfold quote_str at 1. autorewrite with str.
    cbn [split_go]. rewrite (bool_decide_true (quote = quote)) by done.
    cbn. by rewrite split_go_quoted.
  - apply needs_quoting_false in E as (? & ? & _). by rewrite split_go_plain.
Qed.

Lemma split_go_join vs acc :
  Forall (.≠ "") vs →
  split_go (join vs) acc "" false false = acc ++ vs.
Proof.
  unfold join. intros Hall. revert acc. induction Hall as [|v vs Hv Hall IH]; intros acc.
  { cbn. unfold push. rewrite decide_True by done. by rewrite app_nil_r. }
  destruct vs as [|w vs].
  - cbn. rewrite <- (string_app_nil_r (encode_field v)).
    rewrite split_go_field by (by left). cbn. by apply push_encoded.
  - change (Prelude.join "," (encode_field <$> v :: w :: vs))
      with (encode_field v +:+ "," +:+ Prelude.join "," (encode_field <$> w :: vs)).
    rewrite split_go_field by (right; eauto). rewrite string_app_cons, string_app_nil_l.
    cbn [split_go]. rewrite (bool_decide_false (","%char = quote)) by done. cbn.
    rewrite push_encoded by done. rewrite IH by done. by rewrite <- app_assoc.
Qed.

Lemma split_join_all vs : Forall (.≠ "") vs → split (join vs) = vs.
Proof. intros. unfold split. by rewrite split_go_join. Qed.

(** what [csv::join] writes, [csv::split] reads back: any list of
    non-empty values, with whatever commas, quotes and padding they hold,
    survives the column. *)
Theorem split_join vs : Forall (.≠ "") vs → split (join vs) = vs.
Proof. apply split_join_all. Qed.

Definition method_sample : list string :=
  ["SEPA"; "Cash, in person"; " padded "; quote_str +:+ "quoted" +:+ quote_str; "a" +:+ quote_str +:+ ",b"].

