(* ===== verification/Text.v ===== *)
(** * Text

    What the command line, the configuration and the reports use of Rust's
    strings beyond [Prelude]: characters, case and the spelling of a float. *)

From Stdlib Require Import SpecFloat.
From S2P Require Import Prelude F64.

#[local] Open Scope Z_scope.

(** ** Characters *)

Definition is_ascii (a : ascii) : bool := bool_decide (N_of_ascii a < 128)%N.
Definition is_ascii_lowercase (a : ascii) : bool := bool_decide (97 ≤ N_of_ascii a ≤ 122)%N.
Definition is_ascii_uppercase (a : ascii) : bool := bool_decide (65 ≤ N_of_ascii a ≤ 90)%N.
Definition is_ascii_alphabetic (a : ascii) : bool := is_ascii_lowercase a || is_ascii_uppercase a.
Definition is_ascii_hexdigit (a : ascii) : bool :=
  is_ascii_digit a || bool_decide (97 ≤ N_of_ascii a ≤ 102)%N || bool_decide (65 ≤ N_of_ascii a ≤ 70)%N.

(** [str::to_ascii_uppercase]. *)
Definition upper_ascii (a : ascii) : ascii :=
  if is_ascii_lowercase a then ascii_of_N (N_of_ascii a - 32) else a.
Fixpoint to_ascii_uppercase (s : string) : string :=
  match s with "" => "" | String a s => String (upper_ascii a) (to_ascii_uppercase s) end.

(** The characters of UTF-8 text, each as its bytes: a byte that continues a
    character goes with the one before it. *)
Definition continues (a : ascii) : bool := bool_decide (128 ≤ N_of_ascii a < 192)%N.
Fixpoint chars (s : string) : list string :=
  match s with
  | "" => []
  | String a s =>
      match chars s with
      | String b c :: cs => if continues b then String a (String b c) :: cs else String a "" :: String b c :: cs
      | cs => String a "" :: cs
      end
  end.

(** [chars().take(n).collect()]. *)
Definition take_chars (n : nat) (s : string) : string := foldr String.append "" (take n (chars s)).

(** [chars().find(|c| !test(c))], where only ASCII passes the test. *)
Definition passes (p : ascii → bool) (c : string) : bool := match c with String a "" => p a | _ => false end.
Definition find_not (p : ascii → bool) (s : string) : option string :=
  snd <$> list_find (λ c, passes p c = false) (chars s).

(** [str::to_lowercase] and [str::to_uppercase] follow Unicode's tables; only
    what they do to ASCII is used. *)
Class CaseMapping := { lowercase : string → string; uppercase : string → string }.
Class CaseMappingLaws `{CaseMapping} := {
  lowercase_ascii s : forall_char is_ascii s = true → lowercase s = to_lowercase s;
  uppercase_ascii s : forall_char is_ascii s = true → uppercase s = to_ascii_uppercase s;
  lowercase_no_upper s : forall_char (λ a, negb (is_ascii_uppercase a)) (lowercase s) = true;
  uppercase_no_lower s : forall_char (λ a, negb (is_ascii_lowercase a)) (uppercase s) = true;
}.

(** [format!("{x:.digits$}")]: the exact value of the float, rounded to the
    digit, ties to even; a negative float keeps its sign. *)
Definition round_half_even (n d : Z) : Z :=
  let q := n / d in
  match 2 * (n mod d) ?= d with Lt => q | Gt => q + 1 | Eq => if Z.even q then q else q + 1 end.
Definition fixed (digits : nat) (n : Z) : string :=
  let base := 10 ^ Z.of_nat digits in pretty (n / base) +:+ "." +:+ pad digits (n mod base).
Definition format_fixed (digits : nat) (x : f64) : string :=
  match x with
  | S754_nan => "NaN"
  | S754_infinity negative => if negative then "-inf" else "inf"
  | S754_zero negative => (if negative then "-" else "") +:+ fixed digits 0
  | S754_finite negative m e =>
      let scaled := Zpos m * 10 ^ Z.of_nat digits in
      (if negative then "-" else "") +:+
      fixed digits (if decide (0 ≤ e) then scaled * 2 ^ e else round_half_even scaled (2 ^ (- e)))
  end.

(** [str::strip_suffix]. *)
Definition strip_suffix (p s : string) : option string := String.rev <$> strip_prefix (String.rev p) (String.rev s).

(** ** Lemmas *)

Lemma forall_char_impl (p q : ascii → bool) s :
  (∀ a, p a = true → q a = true) → forall_char p s = true → forall_char q s = true.
Proof.
  intros Hpq. induction s as [|a s IH]; [done|]. cbn. rewrite !andb_true_iff. intros [??]. split; [by apply Hpq|by apply IH].
Qed.

(** Every byte has one of 256 values, so what holds of each holds of all. *)
Lemma every_ascii (p : ascii → bool) : forallb p (ascii_of_nat <$> seq 0 256) = true → ∀ a, p a = true.
Proof.
  intros Hp a. rewrite forallb_forall in Hp. apply Hp. rewrite <- (ascii_nat_embedding a).
  apply list_elem_of_In, list_elem_of_fmap_2, elem_of_seq. pose proof (nat_ascii_bounded a). lia.
Qed.
Ltac every_ascii :=
  match goal with |- ∀ a : ascii, @?p a = true → @?q a = true =>
    let H := fresh in
    assert (∀ a, implb (p a) (q a) = true) as H by (apply every_ascii; vm_compute; reflexivity);
    intros a Ha; specialize (H a); cbv beta in H; rewrite Ha in H; exact H
  end.

Lemma hexdigit_is_ascii : ∀ a, is_ascii_hexdigit a = true → is_ascii a = true.
Proof. every_ascii. Qed.
Lemma alphabetic_is_ascii : ∀ a, is_ascii_alphabetic a = true → is_ascii a = true.
Proof. every_ascii. Qed.
(** No white space opens or closes with one of these. *)
Definition plain (a : ascii) : bool := bool_decide (33 ≤ N_of_ascii a < 127)%N.
Lemma hexdigit_plain : ∀ a, is_ascii_hexdigit a = true → plain a = true.
Proof. every_ascii. Qed.
Lemma alphabetic_plain : ∀ a, is_ascii_alphabetic a = true → plain a = true.
Proof. every_ascii. Qed.

Definition opens_plain (t : string) : bool := match t with String a _ => plain a | "" => true end.
Lemma strip_first_plain ts a s :
  forallb (λ t, negb (opens_plain t)) ts = true → plain a = true → strip_first ts (String a s) = None.
Proof.
  intros Hts Ha. induction ts as [|[|b t] ts IH]; cbn in *; [done|done|].
  apply andb_true_iff in Hts as [Hb Hts]. rewrite decide_False; [by apply IH|].
  intros ->. by rewrite Ha in Hb.
Qed.
Lemma strip_all_plain n ts s :
  forallb (λ t, negb (opens_plain t)) ts = true → forall_char plain s = true → strip_all n ts s = s.
Proof.
  intros Hts Hs. destruct n as [|n], s as [|a s]; try done; cbn [strip_all].
  - assert (strip_first ts "" = None) as ->; [|done].
    clear -Hts. induction ts as [|[|b t] ts IH]; cbn in *; [done|done|]. apply andb_true_iff in Hts as [_ Hts]. by apply IH.
  - cbn in Hs. apply andb_true_iff in Hs as [Ha _]. by rewrite strip_first_plain.
Qed.

Lemma forall_char_app p s t : forall_char p (s +:+ t) = forall_char p s && forall_char p t.
Proof. induction s as [|a s IH]; [done|]. rewrite string_app_cons. cbn. by rewrite IH, andb_assoc. Qed.
Lemma string_rev_app_cons a s acc : String.rev_app (String a s) acc = String.rev_app s (String a acc).
Proof. done. Qed.
Lemma forall_char_rev_app p s acc : forall_char p (String.rev_app s acc) = forall_char p s && forall_char p acc.
Proof.
  revert acc. induction s as [|a s IH]; intros acc; [done|]. rewrite string_rev_app_cons, IH. cbn.
  destruct (p a), (forall_char p s); done.
Qed.
Lemma forall_char_rev p s : forall_char p (String.rev s) = forall_char p s.
Proof. unfold String.rev. rewrite forall_char_rev_app. by rewrite andb_true_r. Qed.

Lemma rev_app_rev s acc : String.rev_app s acc = String.rev s +:+ acc.
Proof.
  unfold String.rev. revert acc. induction s as [|a s IH]; intros acc; [done|].
  rewrite !string_rev_app_cons, IH, (IH (String a "")), string_app_assoc. done.
Qed.
Lemma rev_append s t : String.rev (s +:+ t) = String.rev t +:+ String.rev s.
Proof.
  induction s as [|a s IH]; [by autorewrite with str|]. rewrite string_app_cons. unfold String.rev.
  rewrite !string_rev_app_cons, !rev_app_rev, IH. by autorewrite with str.
Qed.
Lemma rev_involutive s : String.rev (String.rev s) = s.
Proof.
  induction s as [|a s IH]; [done|]. unfold String.rev at 2. rewrite string_rev_app_cons, rev_app_rev, rev_append, IH. done.
Qed.
Lemma rev_length s : String.length (String.rev s) = String.length s.
Proof.
  unfold String.rev. enough (∀ acc, String.length (String.rev_app s acc) = (String.length s + String.length acc)%nat) as ->
    by (cbn; lia).
  induction s as [|a s IH]; intros acc; [done|]. rewrite string_rev_app_cons, IH. cbn. lia.
Qed.
Lemma contains_char_append c s t : contains_char c (s +:+ t) = contains_char c s || contains_char c t.
Proof. induction s as [|a s IH]; [done|]. rewrite string_app_cons. cbn. by rewrite IH, orb_assoc. Qed.
Lemma contains_char_rev c s : contains_char c (String.rev s) = contains_char c s.
Proof.
  induction s as [|a s IH]; [done|]. unfold String.rev. rewrite string_rev_app_cons, rev_app_rev, contains_char_append, IH.
  cbn. destruct (bool_decide _), (contains_char c s); done.
Qed.
Lemma strip_prefix_Some p s r : strip_prefix p s = Some r ↔ s = p +:+ r.
Proof.
  revert s. induction p as [|a p IH]; intros s; [cbn; split; [by intros [= ->]|by intros ->]|].
  rewrite string_app_cons. destruct s as [|b s]; [done|]. cbn. case_decide as Hab; [subst; rewrite IH; split; congruence|].
  split; [done|]. by intros [= ->].
Qed.
Lemma strip_suffix_Some p s r : strip_suffix p s = Some r ↔ s = r +:+ p.
Proof.
  unfold strip_suffix. split.
  - destruct (strip_prefix _ _) as [q|] eqn:E; [|done]. intros [= <-]. apply strip_prefix_Some in E.
    by rewrite <- (rev_involutive s), E, rev_append, rev_involutive.
  - intros ->. rewrite rev_append, (proj2 (strip_prefix_Some _ _ _) eq_refl). cbn. by rewrite rev_involutive.
Qed.

(** Text without white space is its own trimming. *)
Lemma trim_plain s : forall_char plain s = true → trim s = s.
Proof.
  intros Hs. unfold trim, trim_start, trim_end.
  rewrite (strip_all_plain _ white_space s) by done.
  rewrite strip_all_plain; [|done|by rewrite forall_char_rev].
  assert (∀ s acc, String.rev_app (String.rev_app s acc) "" = String.rev_app acc s) as Hrr.
  { clear. induction s as [|a s IH]; intros acc; [done|]. rewrite !string_rev_app_cons. apply IH. }
  unfold String.rev. by rewrite Hrr.
Qed.

Lemma lower_fixed : ∀ a, negb (is_ascii_uppercase a) = true → bool_decide (lower_ascii a = a) = true.
Proof. every_ascii. Qed.
Lemma upper_fixed : ∀ a, negb (is_ascii_lowercase a) = true → bool_decide (upper_ascii a = a) = true.
Proof. every_ascii. Qed.
Lemma to_lowercase_fixed s : forall_char (λ a, negb (is_ascii_uppercase a)) s = true → to_lowercase s = s.
Proof.
  induction s as [|a s IH]; [done|]. cbn. rewrite andb_true_iff. intros [Ha%lower_fixed%bool_decide_eq_true Hs].
  by rewrite Ha, IH.
Qed.
Lemma to_ascii_uppercase_fixed s :
  forall_char (λ a, negb (is_ascii_lowercase a)) s = true → to_ascii_uppercase s = s.
Proof.
  induction s as [|a s IH]; [done|]. cbn. rewrite andb_true_iff. intros [Ha%upper_fixed%bool_decide_eq_true Hs].
  by rewrite Ha, IH.
Qed.

Lemma split_once_forall p c s l r :
  forall_char p s = true → split_once c s = Some (l, r) → forall_char p l = true ∧ forall_char p r = true.
Proof.
  revert l. induction s as [|a s IH]; intros l; [done|]. cbn [forall_char split_once].
  rewrite andb_true_iff. intros [Ha Hs]. case_decide; [by intros [= <- <-]|].
  destruct (split_once c s) as [[l' r']|]; [|done]. intros [= <- <-]. cbn.
  destruct (IH l' Hs eq_refl) as [Hl Hr]. by rewrite Ha.
Qed.

(** What passes only ASCII is found byte by byte. *)
Lemma passes_chars p s :
  (∀ a, p a = true → is_ascii a = true) → forallb (passes p) (chars s) = forall_char p s.
Proof.
  intros Hp. induction s as [|a s IH]; [done|]. cbn [chars forall_char]. rewrite <- IH.
  destruct (chars s) as [|[|b c] cs]; [cbn; done|cbn; done|]. destruct (continues b) eqn:Hb; [|done].
  assert (passes p (String b c) = false) as Hbc.
  { destruct c; [|done]. cbn. destruct (p b) eqn:Eb; [|done]. apply Hp, bool_decide_eq_true in Eb.
    apply bool_decide_eq_true in Hb. lia. }
  cbn [forallb]. rewrite Hbc. cbn. by rewrite andb_false_r.
Qed.
Lemma find_not_spec p s :
  (∀ a, p a = true → is_ascii a = true) →
  match find_not p s with
  | Some c => c ∈ chars s ∧ passes p c = false
  | None => forall_char p s = true
  end.
Proof.
  intros Hp. unfold find_not. destruct (list_find _ _) as [[i c]|] eqn:E; cbn.
  - apply list_find_Some in E as (Hi & Hc & _). split; [|done]. by eapply list_elem_of_lookup_2.
  - rewrite <- passes_chars by done. apply forallb_forall. intros c Hc%list_elem_of_In.
    apply list_find_None in E. rewrite Forall_forall in E. specialize (E c Hc). by destruct (passes p c).
Qed.

(** The mapping that knows ASCII only. *)
Module AsciiCase.
#[export] Instance mapping : CaseMapping := { lowercase := to_lowercase; uppercase := to_ascii_uppercase }.
Lemma lower_not_upper : ∀ a, negb (is_ascii_uppercase (lower_ascii a)) = true.
Proof. apply (every_ascii (λ a, _)). by vm_compute. Qed.
Lemma upper_not_lower : ∀ a, negb (is_ascii_lowercase (upper_ascii a)) = true.
Proof. apply (every_ascii (λ a, _)). by vm_compute. Qed.
#[export] Instance mapping_laws : CaseMappingLaws.
Proof.
  split; [done|done| |]; intros s; induction s as [|a s IH]; try done; cbn in *.
  - by rewrite lower_not_upper, IH.
  - by rewrite upper_not_lower, IH.
Qed.
End AsciiCase.

Example floats_as_text :
  format_fixed 1 (default f64_nan (f64_from_str "0.25")) = "0.2" ∧
  format_fixed 1 (default f64_nan (f64_from_str "-0.04")) = "-0.0" ∧
  format_fixed 2 (default f64_nan (f64_from_str "1234567.895")) = "1234567.90" ∧
  format_fixed 1 (f64_of_Z 99) = "99.0".
Proof. by vm_compute. Qed.
Example chars_of_text :
  chars ("a" +:+ byte_string [195; 169]%N +:+ "b") = ["a"; byte_string [195; 169]%N; "b"] ∧
  find_not is_ascii_hexdigit ("ab" +:+ byte_string [195; 169]%N +:+ "z") = Some (byte_string [195; 169]%N).
Proof. by vm_compute. Qed.
