(* ===== verification/Network.v ===== *)
(** * Networks

    [src/network.rs]: the values the [network] tag of kinds 38383 and 8383
    can carry, and their wire form. *)

From S2P Require Import Prelude.

#[local] Open Scope Z_scope.

Inductive Network : Type := Mainnet | Testnet | Signet | Regtest.

#[export] Instance Network_eq_dec : EqDecision Network.
Proof. solve_decision. Defined.

(** [Network::as_str]. *)
Definition as_str (n : Network) : string :=
  match n with
  | Mainnet => "mainnet" | Testnet => "testnet" | Signet => "signet" | Regtest => "regtest"
  end.

(** [Network::from_wire]. *)
Definition from_wire (wire : string) : option Network :=
  if decide (wire = "mainnet") then Some Mainnet
  else if decide (wire = "testnet") then Some Testnet
  else if decide (wire = "signet") then Some Signet
  else if decide (wire = "regtest") then Some Regtest
  else None.

Lemma from_wire_as_str n : from_wire (as_str n) = Some n.
Proof. by destruct n. Qed.

Lemma from_wire_Some wire n : from_wire wire = Some n → wire = as_str n.
Proof. unfold from_wire. intros. repeat case_decide; naive_solver. Qed.
