(* ===== verification/Config.v ===== *)
(** * Configuration

    [src/config/mod.rs]: what [settings.toml] and the environment say, folded
    to canonical form and checked before anything runs. Reading and layering
    the two is the config crate's and an argument here; bech32 is the nostr
    crate's. *)

From S2P Require Import Prelude F64 Text Network.

#[local] Open Scope Z_scope.

(** ** The settings *)

Record NostrSettings : Type := mkNostrSettings {
  ns_relays : list string; ns_discover_relays : bool; ns_resume_overlap_secs : Z;
}.
Record IndexerSettings : Type := mkIndexerSettings {
  is_instances : list string; is_accept_unknown_instances : bool; is_networks : list Network; is_backfill_from : Z;
}.
Record AssumptionSettings : Type := mkAssumptionSettings {
  as_dev_fee_percentage_default : f64; as_dev_fee_percentage : gmap string f64;
}.
Record DatabaseSettings : Type := mkDatabaseSettings { ds_url : string }.
Record ReportSettings : Type := mkReportSettings { rs_reference_currency : string }.
(** The key is the name of a variable. *)
Record PublishSettings : Type := mkPublishSettings {
  ps_relays : list string; ps_max_content_bytes : Z; ps_nsec : option string;
}.
Record Settings : Type := mkSettings {
  se_nostr : NostrSettings; se_indexer : IndexerSettings; se_assumptions : AssumptionSettings;
  se_database : DatabaseSettings; se_report : ReportSettings; se_publish : PublishSettings;
}.

(** ** Defaults *)

Definition default_resume_overlap_secs : Z := 3600.
Definition default_database_url : string := "sqlite://bestiario.db".
Definition default_networks : list Network := [Mainnet].
Definition default_dev_fee_percentage : f64 := f64_of_decimal false 30 (-2).
Definition default_reference_currency : string := "USD".
(** [bestiario_stats::publish::size::DEFAULT_MAX_CONTENT_BYTES]. *)
Definition default_max_content_bytes : Z := 64 * 1024.

(** The file as serde finds it: every field may be left out, and so may every
    section, which is then as if it were empty. *)
Record Written : Type := mkWritten {
  wr_relays : option (list string); wr_discover_relays : option bool; wr_resume_overlap_secs : option Z;
  wr_instances : option (list string); wr_accept_unknown_instances : option bool;
  wr_networks : option (list Network); wr_backfill_from : option Z;
  wr_dev_fee_percentage_default : option f64; wr_dev_fee_percentage : option (gmap string f64);
  wr_url : option string; wr_reference_currency : option string;
  wr_publish_relays : option (list string); wr_max_content_bytes : option Z; wr_nsec : option string;
}.
Definition nothing_written : Written :=
  mkWritten None None None None None None None None None None None None None None.
Definition deserialized (w : Written) : Settings := {|
  se_nostr := mkNostrSettings (default [] (wr_relays w)) (default false (wr_discover_relays w))
    (default default_resume_overlap_secs (wr_resume_overlap_secs w));
  se_indexer := mkIndexerSettings (default [] (wr_instances w)) (default false (wr_accept_unknown_instances w))
    (default default_networks (wr_networks w)) (default 0 (wr_backfill_from w));
  se_assumptions := mkAssumptionSettings (default default_dev_fee_percentage (wr_dev_fee_percentage_default w))
    (default ∅ (wr_dev_fee_percentage w));
  se_database := mkDatabaseSettings (default default_database_url (wr_url w));
  se_report := mkReportSettings (default default_reference_currency (wr_reference_currency w));
  se_publish := mkPublishSettings (default [] (wr_publish_relays w))
    (default default_max_content_bytes (wr_max_content_bytes w)) (wr_nsec w);
|}.

(** ** What can be wrong with them *)

Inductive ValidationError : Type :=
| NoRelays
| RelayNotWebsocket (url : string)
| PubkeyLength (pubkey : string) (len : Z)
| PubkeyNotHex (pubkey : string) (found : string)
| PubkeyNotNpub (pubkey : string) (reason : string)
| DuplicateDevFeeOverride (pubkey : string) (spellings : list string)
| NothingToIndex
| NoNetworks
| NegativeBackfillFrom (value : Z)
| DevFeePercentageOutOfRange (setting : string) (value : f64)
| DatabaseNotSqlite (url : string)
| ReferenceCurrencyNotIso (code : string)
| PublishRelayNotWebsocket (url : string)
| PublishCeilingIsZero.
#[export] Instance validation_error_eq_dec : EqDecision ValidationError.
Proof. solve_decision. Defined.

(** What the config crate reports, and what the checks do. *)
Inductive ConfigError : Type := Load (message : string) | Invalid (error : ValidationError).

Definition validate_pubkey (pubkey : string) : Result ValidationError () :=
  if decide (String.length pubkey ≠ 64%nat) then
    Err (PubkeyLength pubkey (Z.of_nat (String.length pubkey)))
  else
    match find_not is_ascii_hexdigit pubkey with
    | Some found => Err (PubkeyNotHex pubkey found)
    | None => Ok ()
    end.

Definition validate_fraction (setting : string) (value : f64) : Result ValidationError () :=
  if f64_gt value (f64_of_Z 0) && f64_le value (f64_of_Z 1) then Ok () else Err (DevFeePercentageOutOfRange setting value).

(** A loop that stops at the first element that will not do. *)
Fixpoint for_each {A} (l : list A) (check : A → Result ValidationError ()) : Result ValidationError () :=
  match l with [] => Ok () | a :: l => _ ← check a; for_each l check end.

Definition websocket (url : string) : bool := starts_with "wss://" url || starts_with "ws://" url.
Definition iso_code (code : string) : bool :=
  bool_decide (String.length code = 3%nat) && forall_char is_ascii_alphabetic code.

Definition validate_relays (s : Settings) : Result ValidationError () :=
  match ns_relays (se_nostr s) with
  | [] => Err NoRelays
  | relays => for_each relays (λ url, if websocket url then Ok () else Err (RelayNotWebsocket url))
  end.
Definition validate_indexer (s : Settings) : Result ValidationError () :=
  let indexer := se_indexer s in
  _ ← for_each (is_instances indexer) validate_pubkey;
  _ ← if bool_decide (is_instances indexer = []) && negb (is_accept_unknown_instances indexer)
      then Err NothingToIndex else Ok ();
  _ ← if decide (is_networks indexer = []) then Err NoNetworks else Ok ();
  if decide (is_backfill_from indexer < 0) then Err (NegativeBackfillFrom (is_backfill_from indexer)) else Ok ().
Definition override_setting (pubkey : string) : string :=
  "[assumptions.dev_fee_percentage]." +:+ String "034" pubkey +:+ String "034" "".
Definition validate_assumptions (s : Settings) : Result ValidationError () :=
  let assumptions := se_assumptions s in
  _ ← validate_fraction "[assumptions].dev_fee_percentage_default" (as_dev_fee_percentage_default assumptions);
  for_each (btree_iter (as_dev_fee_percentage assumptions))
    (λ '(pubkey, value), _ ← validate_pubkey pubkey; validate_fraction (override_setting pubkey) value).
Definition validate_database (s : Settings) : Result ValidationError () :=
  let url := ds_url (se_database s) in
  if starts_with "sqlite:" url then Ok () else Err (DatabaseNotSqlite url).
Definition validate_report (s : Settings) : Result ValidationError () :=
  let code := rs_reference_currency (se_report s) in
  if iso_code code then Ok () else Err (ReferenceCurrencyNotIso code).
Definition validate_publish (s : Settings) : Result ValidationError () :=
  let publish := se_publish s in
  _ ← for_each (ps_relays publish) (λ url, if websocket url then Ok () else Err (PublishRelayNotWebsocket url));
  if decide (ps_max_content_bytes publish = 0) then Err PublishCeilingIsZero else Ok ().
Definition validate (s : Settings) : Result ValidationError () :=
  _ ← validate_relays s;
  _ ← validate_indexer s;
  _ ← validate_assumptions s;
  _ ← validate_database s;
  _ ← validate_report s;
  validate_publish s.

(** ** Normalising *)

Definition BECH32_SEPARATOR : ascii := "1".
(** A prefix of lowercase letters that hex could not begin with. *)
Definition looks_like_bech32 (value : string) : bool :=
  is_some_and (λ '(hrp, _),
    negb (bool_decide (hrp = "")) && forall_char is_ascii_lowercase hrp && negb (forall_char is_ascii_hexdigit hrp))
    (split_once BECH32_SEPARATOR value).

(** [PublicKey::from_bech32], to hex or to its error's text. *)
Class Npub := from_bech32 : string → Result string string.

Section normalise.
Context `{CaseMapping} `{Npub}.

Definition canonical_pubkey (raw : string) : Result ValidationError string :=
  let value := lowercase (trim raw) in
  if negb (looks_like_bech32 value) then Ok value
  else map_err (PubkeyNotNpub value) (from_bech32 value).

(** Each override under its canonical key, with the spelling it was found
    under, in the order of the map. *)
Record Override : Type := mkOverride { ov_pubkey : string; ov_spelling : string; ov_value : f64 }.
Definition override (entry : string * f64) : Result ValidationError Override :=
  (λ pubkey, mkOverride pubkey (trim entry.1) entry.2) <$> canonical_pubkey entry.1.
Definition spell (spellings : gmap string (list string)) (o : Override) : gmap string (list string) :=
  <[ov_pubkey o := default [] (spellings !! ov_pubkey o) ++ [ov_spelling o]]> spellings.
Definition fold_in (folded : gmap string f64) (o : Override) : gmap string f64 :=
  <[ov_pubkey o := ov_value o]> folded.
Definition canonical_dev_fee_overrides (raw : gmap string f64) : Result ValidationError (gmap string f64) :=
  overrides ← collect (override <$> btree_iter raw);
  match list_find (λ e, 1 < length e.2)%nat (btree_iter (foldl spell ∅ overrides)) with
  | Some (_, (pubkey, spellings)) => Err (DuplicateDevFeeOverride pubkey spellings)
  | None => Ok (foldl fold_in ∅ overrides)
  end.

Definition normalized (s : Settings) : Result ValidationError Settings :=
  let indexer := se_indexer s in
  let assumptions := se_assumptions s in
  let publish := se_publish s in
  instances ← collect (canonical_pubkey <$> is_instances indexer);
  dev_fee_percentage ← canonical_dev_fee_overrides (as_dev_fee_percentage assumptions);
  Ok {|
    se_nostr := se_nostr s;
    se_indexer := mkIndexerSettings instances (is_accept_unknown_instances indexer) (is_networks indexer)
      (is_backfill_from indexer);
    se_assumptions := mkAssumptionSettings (as_dev_fee_percentage_default assumptions) dev_fee_percentage;
    se_database := se_database s;
    se_report := mkReportSettings (uppercase (trim (rs_reference_currency (se_report s))));
    se_publish := mkPublishSettings
      (match ps_relays publish with [] => ns_relays (se_nostr s) | relays => relays end)
      (ps_max_content_bytes publish) (ps_nsec publish);
  |}.
Definition validated (s : Settings) : Result ConfigError Settings := _ ← map_err Invalid (validate s); Ok s.

(** What follows the reading, in [load_with] and in [from_toml_str]. *)
Definition checked (raw : Settings) : Result ConfigError Settings :=
  s ← map_err Invalid (normalized raw); validated s.

(** [load_with]: [build path required] is the file under the environment, or
    why there is none. *)
Definition load_with (build : string → bool → Result string Written) (path : string) (file_required : bool) :
    Result ConfigError Settings :=
  raw ← map_err Load (build path file_required);
  checked (deserialized raw).
Definition load (build : string → bool → Result string Written) (path : string) : Result ConfigError Settings :=
  load_with build path true.
Definition load_optional (build : string → bool → Result string Written) (path : string) : Result ConfigError Settings :=
  load_with build path false.
Definition from_toml_str (parse : string → Result string Written) (toml : string) : Result ConfigError Settings :=
  raw ← map_err Load (parse toml);
  checked (deserialized raw).

(** [AssumptionSettings::dev_fee_percentage_for]. *)
Definition dev_fee_percentage_for (a : AssumptionSettings) (pubkey : string) : f64 :=
  default (as_dev_fee_percentage_default a) (as_dev_fee_percentage a !! lowercase pubkey).
End normalise.

Definition DEFAULT_CONFIG_PATH : string := "settings.toml".

(** ** Settings a run can act on *)

Definition hex_pubkey (p : string) : Prop :=
  String.length p = 64%nat ∧ forall_char is_ascii_hexdigit p = true.
Definition fraction (x : f64) : Prop := f64_gt x (f64_of_Z 0) = true ∧ f64_le x (f64_of_Z 1) = true.

Record usable (s : Settings) : Prop := {
  us_relays : ns_relays (se_nostr s) ≠ [] ∧ ∀ url, url ∈ ns_relays (se_nostr s) → websocket url = true;
  us_instances : ∀ p, p ∈ is_instances (se_indexer s) → hex_pubkey p;
  us_something : is_instances (se_indexer s) ≠ [] ∨ is_accept_unknown_instances (se_indexer s) = true;
  us_networks : is_networks (se_indexer s) ≠ [];
  us_backfill_from : 0 ≤ is_backfill_from (se_indexer s);
  us_default : fraction (as_dev_fee_percentage_default (se_assumptions s));
  us_overrides : ∀ p x, as_dev_fee_percentage (se_assumptions s) !! p = Some x → hex_pubkey p ∧ fraction x;
  us_database : starts_with "sqlite:" (ds_url (se_database s)) = true;
  us_currency : iso_code (rs_reference_currency (se_report s)) = true;
  us_publish : ∀ url, url ∈ ps_relays (se_publish s) → websocket url = true;
  us_ceiling : ps_max_content_bytes (se_publish s) ≠ 0;
}.

(** ** What is refused, and for what *)

Definition named (s : Settings) (p : string) : Prop :=
  p ∈ is_instances (se_indexer s) ∨ is_Some (as_dev_fee_percentage (se_assumptions s) !! p).
(** The setting an error of the checks points at breaks the rule it names. *)
Definition blames (s : Settings) (e : ValidationError) : Prop :=
  match e with
  | NoRelays => ns_relays (se_nostr s) = []
  | RelayNotWebsocket url => url ∈ ns_relays (se_nostr s) ∧ websocket url = false
  | PubkeyLength p len => named s p ∧ len = Z.of_nat (String.length p) ∧ len ≠ 64
  | PubkeyNotHex p found =>
      named s p ∧ String.length p = 64%nat ∧ found ∈ chars p ∧ passes is_ascii_hexdigit found = false
  | PubkeyNotNpub _ _ | DuplicateDevFeeOverride _ _ => False
  | NothingToIndex => is_instances (se_indexer s) = [] ∧ is_accept_unknown_instances (se_indexer s) = false
  | NoNetworks => is_networks (se_indexer s) = []
  | NegativeBackfillFrom value => value = is_backfill_from (se_indexer s) ∧ value < 0
  | DevFeePercentageOutOfRange setting value =>
      ¬ fraction value ∧ (value = as_dev_fee_percentage_default (se_assumptions s) ∨
        ∃ p, setting = override_setting p ∧ as_dev_fee_percentage (se_assumptions s) !! p = Some value)
  | DatabaseNotSqlite url => url = ds_url (se_database s) ∧ starts_with "sqlite:" url = false
  | ReferenceCurrencyNotIso code => code = rs_reference_currency (se_report s) ∧ iso_code code = false
  | PublishRelayNotWebsocket url => url ∈ ps_relays (se_publish s) ∧ websocket url = false
  | PublishCeilingIsZero => ps_max_content_bytes (se_publish s) = 0
  end.

(** A check's verdict: what holds when it passes, and what its error says. *)
Definition verdict {A} (m : Result ValidationError A) (good : A → Prop) (bad : ValidationError → Prop) : Prop :=
  match m with Ok a => good a | Err e => bad e end.
Lemma verdict_bind {A B} (m : Result ValidationError A) (f : A → Result ValidationError B) good good' bad :
  verdict m good bad → (∀ a, good a → verdict (f a) good' bad) → verdict (m ≫= f) good' bad.
Proof. destruct m; cbn; [intros ? Hf; by apply Hf|done]. Qed.
Lemma verdict_impl {A} (m : Result ValidationError A) (good good' : A → Prop) (bad bad' : ValidationError → Prop) :
  verdict m good bad → (∀ a, good a → good' a) → (∀ e, bad e → bad' e) → verdict m good' bad'.
Proof. destruct m; cbn; auto. Qed.
Lemma for_each_verdict {A} (l : list A) check (good : A → Prop) bad :
  (∀ a, a ∈ l → verdict (check a) (λ _, good a) bad) →
  verdict (for_each l check) (λ _, ∀ a, a ∈ l → good a) bad.
Proof.
  induction l as [|a l IH]; intros Hl; [by intros ??%elem_of_nil|]. cbn [for_each].
  eapply (verdict_bind _ _ (λ _, good a)); [apply Hl; by left|]. intros ? Ha.
  eapply verdict_impl; [apply IH; intros; apply Hl; by right| |done].
  intros ? Hall b [-> | Hb]%elem_of_cons; auto.
Qed.

Lemma pubkey_verdict s p : named s p → verdict (validate_pubkey p) (λ _, hex_pubkey p) (blames s).
Proof.
  intros Hp. unfold validate_pubkey. case_decide as Hl; [split_and!; [done|done|lia]|].
  pose proof (find_not_spec is_ascii_hexdigit p hexdigit_is_ascii) as Hf.
  destruct (find_not _ _); [|done]. destruct Hf. by split_and!.
Qed.
Lemma fraction_verdict s setting x :
  (x = as_dev_fee_percentage_default (se_assumptions s) ∨
     ∃ p, setting = override_setting p ∧ as_dev_fee_percentage (se_assumptions s) !! p = Some x) →
  verdict (validate_fraction setting x) (λ _, fraction x) (blames s).
Proof.
  intros Hx. unfold validate_fraction, fraction. destruct (f64_gt _ _ && _) eqn:E; cbn.
  - by apply andb_true_iff.
  - split; [|done]. unfold fraction. rewrite <- andb_true_iff, E. done.
Qed.

Lemma validate_verdict s : verdict (validate s) (λ _, usable s) (blames s).
Proof.
  unfold validate.
  eapply (verdict_bind _ _ (λ _, ns_relays (se_nostr s) ≠ [] ∧ ∀ url, url ∈ ns_relays (se_nostr s) → websocket url = true)).
  { unfold validate_relays. destruct (ns_relays (se_nostr s)) as [|r rs] eqn:E; [done|]. rewrite <- E.
    eapply verdict_impl;
      [apply (for_each_verdict _ _ (λ url, websocket url = true) (blames s)); intros url Hu| |done].
    - destruct (websocket url) eqn:Ew; [done|]. by split.
    - intros ? Hall. split; [by rewrite E|done]. }
  intros ? Hrelays.
  eapply (verdict_bind _ _ (λ _, (∀ p, p ∈ is_instances (se_indexer s) → hex_pubkey p) ∧
    (is_instances (se_indexer s) ≠ [] ∨ is_accept_unknown_instances (se_indexer s) = true) ∧
    is_networks (se_indexer s) ≠ [] ∧ 0 ≤ is_backfill_from (se_indexer s))).
  { unfold validate_indexer. eapply verdict_bind.
    { apply (for_each_verdict _ _ hex_pubkey). intros p Hp. apply pubkey_verdict. by left. }
    intros ? Hi. eapply (verdict_bind _ _ (λ _, _)).
    { instantiate (1 := is_instances (se_indexer s) ≠ [] ∨ is_accept_unknown_instances (se_indexer s) = true).
      destruct (bool_decide _) eqn:E1; cbn; [apply bool_decide_eq_true in E1|apply bool_decide_eq_false in E1; by left].
      destruct (is_accept_unknown_instances (se_indexer s)) eqn:E2; cbn; [by right|done]. }
    intros ? Hs. eapply (verdict_bind _ _ (λ _, is_networks (se_indexer s) ≠ [])); [by case_decide|].
    intros ? Hn. case_decide; cbn; [by split|]. split_and!; [done..|lia]. }
  intros ? (Hi & Hs & Hn & Hb).
  eapply (verdict_bind _ _ (λ _, fraction (as_dev_fee_percentage_default (se_assumptions s)) ∧
    ∀ e, e ∈ btree_iter (as_dev_fee_percentage (se_assumptions s)) → hex_pubkey e.1 ∧ fraction e.2)).
  { unfold validate_assumptions. eapply verdict_bind; [apply fraction_verdict; by left|]. intros ? Hd.
    eapply verdict_impl; [|intros ? Hall; by split; [|exact Hall]|done].
    apply (for_each_verdict _ _ (λ e, hex_pubkey e.1 ∧ fraction e.2)). intros [p x] He%elem_of_btree_iter.
    eapply verdict_bind; [apply pubkey_verdict; by right|]. intros ? Hp.
    eapply verdict_impl; [apply fraction_verdict; right; by exists p| |done]. by split. }
  intros ? [Hd Ho].
  eapply (verdict_bind _ _ (λ _, starts_with "sqlite:" (ds_url (se_database s)) = true)).
  { unfold validate_database. by destruct (starts_with _ _) eqn:E. }
  intros ? Hdb. eapply (verdict_bind _ _ (λ _, iso_code (rs_reference_currency (se_report s)) = true)).
  { unfold validate_report. by destruct (iso_code _) eqn:E. }
  intros ? Hc. unfold validate_publish. eapply verdict_bind.
  { apply (for_each_verdict _ _ (λ url, websocket url = true) (blames s)). intros url Hu.
    destruct (websocket url) eqn:Ew; [done|]. by split. }
  intros ? Hp. case_decide; cbn; [done|]. split; try done. intros p x Hx. by apply (Ho (p, x)), elem_of_btree_iter.
Qed.

Section facts.
Context `{CaseMappingLaws} `{Npub}.
(** [PublicKey::to_hex] spells lowercase. *)
Class NpubLaws : Prop := from_bech32_hex value p :
  from_bech32 value = Ok p →
  forall_char is_ascii_hexdigit p = true ∧ forall_char (λ a, negb (is_ascii_uppercase a)) p = true.
Context `{!NpubLaws}.

(** What a setting of the file is called, and what is wrong with it. *)
Definition spelled (raw : Settings) (k : string) : Prop :=
  k ∈ is_instances (se_indexer raw) ∨ is_Some (as_dev_fee_percentage (se_assumptions raw) !! k).
Definition not_npub (k : string) (e : ValidationError) : Prop :=
  let value := lowercase (trim k) in
  looks_like_bech32 value = true ∧ ∃ reason, from_bech32 value = Err reason ∧ e = PubkeyNotNpub value reason.
Definition spelled_twice (raw : gmap string f64) (e : ValidationError) : Prop :=
  ∃ p, let spellings := trim <$> filter (λ k, canonical_pubkey k = Ok p) (fst <$> btree_iter raw) in
    (1 < length spellings)%nat ∧ e = DuplicateDevFeeOverride p spellings.

Lemma canonical_verdict k : verdict (canonical_pubkey k) (λ _, True) (not_npub k).
Proof.
  unfold canonical_pubkey, not_npub. destruct (looks_like_bech32 _) eqn:E; [|done]. cbn.
  destruct (from_bech32 _) eqn:Eb; cbn; [done|]. eauto.
Qed.
Lemma collect_verdict {A B} (f : A → Result ValidationError B) l bad :
  (∀ a, a ∈ l → verdict (f a) (λ _, True) bad) → verdict (collect (f <$> l)) (Forall2 (λ a b, f a = Ok b) l) bad.
Proof.
  induction l as [|a l IH]; intros Hl; [by constructor|]. rewrite fmap_cons. cbn [collect].
  pose proof (Hl a (list_elem_of_here _ _)) as Ha. destruct (f a) as [b|e] eqn:E; [|done]. cbn.
  specialize (IH (λ a Ha, Hl a (list_elem_of_further _ _ _ Ha))). destruct (collect _); cbn in *; [by constructor|done].
Qed.

(** The folds over the overrides, key by key. *)
Lemma spell_lookup os p :
  foldl spell ∅ os !! p =
    match ov_spelling <$> filter (λ o, ov_pubkey o = p) os with [] => None | l => Some l end.
Proof.
  induction os as [|o os IH] using rev_ind; [done|]. rewrite foldl_snoc, filter_app, fmap_app. unfold spell at 1.
  destruct (decide (ov_pubkey o = p)) as [<-|Hne].
  - rewrite lookup_insert_eq, IH, filter_cons_True by done. cbn.
    by destruct (ov_spelling <$> _).
  - rewrite lookup_insert_ne, filter_cons_False by done. cbn. by rewrite app_nil_r.
Qed.
Lemma fold_in_lookup os p :
  foldl fold_in ∅ os !! p = ov_value <$> last (filter (λ o, ov_pubkey o = p) os).
Proof.
  induction os as [|o os IH] using rev_ind; [done|]. rewrite foldl_snoc, filter_app. unfold fold_in at 1.
  destruct (decide (ov_pubkey o = p)) as [<-|Hne].
  - rewrite lookup_insert_eq, filter_cons_True by done. cbn. by rewrite last_snoc.
  - rewrite lookup_insert_ne, filter_cons_False by done. cbn. by rewrite app_nil_r.
Qed.

(** An entry of the map, under the key it folds to. *)
Definition folds_to (entry : string * f64) (o : Override) : Prop :=
  canonical_pubkey entry.1 = Ok (ov_pubkey o) ∧ ov_spelling o = trim entry.1 ∧ ov_value o = entry.2.
Lemma override_Ok entry o : override entry = Ok o ↔ folds_to entry o.
Proof.
  unfold override, folds_to. rewrite fmap_Ok. split.
  - intros (p & Hp & ->). by split_and!.
  - intros (Hp & Hs & Hv). exists (ov_pubkey o). split; [done|]. destruct o; cbn in *. by subst.
Qed.
Lemma folds_filter l os p :
  Forall2 (λ e o, override e = Ok o) l os →
  Forall2 folds_to (filter (λ e, canonical_pubkey e.1 = Ok p) l) (filter (λ o, ov_pubkey o = p) os).
Proof.
  induction 1 as [|e o l os Ho _ IH]; [constructor|]. apply override_Ok in Ho. destruct (Ho) as (Hp & _).
  destruct (decide (ov_pubkey o = p)) as [<-|Hne].
  - rewrite !filter_cons_True by done. by constructor.
  - rewrite !filter_cons_False; [done|done|]. rewrite Hp. congruence.
Qed.
Lemma folds_spellings l os : Forall2 folds_to l os → ov_spelling <$> os = (trim ∘ fst) <$> l.
Proof. induction 1 as [|e o l os (_ & Hs & _) _ IH]; [done|]. rewrite !fmap_cons, IH. unfold compose. by rewrite Hs. Qed.
Lemma filter_fst (l : list (string * f64)) p :
  filter (λ k, canonical_pubkey k = Ok p) (fst <$> l) = fst <$> filter (λ e : string * f64, canonical_pubkey e.1 = Ok p) l.
Proof.
  induction l as [|e l IH]; [done|]. rewrite fmap_cons, !filter_cons. case_decide; [|done]. by rewrite IH.
Qed.

Lemma overrides_verdict raw :
  verdict (canonical_dev_fee_overrides raw)
    (λ folded, ∀ p x, folded !! p = Some x ↔ ∃ k, raw !! k = Some x ∧ canonical_pubkey k = Ok p)
    (λ e, spelled_twice raw e ∨ ∃ k, is_Some (raw !! k) ∧ not_npub k e).
Proof.
  unfold canonical_dev_fee_overrides. eapply verdict_bind.
  { apply (collect_verdict override). intros [k x] Hk%elem_of_btree_iter. unfold override. cbn.
    pose proof (canonical_verdict k) as Hc. destruct (canonical_pubkey k); cbn in *; [done|]. eauto. }
  intros os Hos.
  assert (∀ p, Forall2 folds_to (filter (λ e, canonical_pubkey e.1 = Ok p) (btree_iter raw))
    (filter (λ o, ov_pubkey o = p) os)) as Hp by (intros; by apply folds_filter).
  destruct (list_find _ _) as [[i [p spellings]]|] eqn:E; cbn.
  - left. exists p. apply list_find_Some in E as (Hi & Hl & _). apply list_elem_of_lookup_2, elem_of_btree_iter in Hi.
    rewrite spell_lookup in Hi. rewrite filter_fst, <- list_fmap_compose.
    assert (spellings = ov_spelling <$> filter (λ o, ov_pubkey o = p) os) as Hsp
      by (by destruct (ov_spelling <$> _); inversion Hi).
    rewrite <- (folds_spellings _ _ (Hp p)), <- Hsp. by split.
  - intros p x. rewrite fold_in_lookup. apply list_find_None in E. rewrite Forall_forall in E.
    assert (length (filter (λ o, ov_pubkey o = p) os) ≤ 1)%nat as Hlen.
    { destruct (decide (length (filter (λ o, ov_pubkey o = p) os) ≤ 1)%nat); [done|]. exfalso.
      apply (E (p, ov_spelling <$> filter (λ o, ov_pubkey o = p) os)); [|cbn; rewrite length_fmap; lia].
      apply elem_of_btree_iter. rewrite spell_lookup. destruct (filter (λ o, ov_pubkey o = p) os); cbn in *; [lia|done]. }
    assert (∀ k, raw !! k = Some x ∧ canonical_pubkey k = Ok p ↔
      (k, x) ∈ filter (λ e, canonical_pubkey e.1 = Ok p) (btree_iter raw)) as Hk.
    { intros k. rewrite list_elem_of_filter, elem_of_btree_iter. cbn. tauto. }
    setoid_rewrite Hk. specialize (Hp p).
    destruct Hp as [|[k v] o ?? (Hc & Hs & Hv) Hrest]; cbn.
    + split; [done|]. by intros [? ?%elem_of_nil].
    + inversion Hrest; subst; cbn in *; [|lia]. split.
      * intros [= <-]. rewrite Hv. exists k. by left.
      * intros [k' [= <- <-]%list_elem_of_singleton]. by rewrite Hv.
Qed.
Lemma Forall2_in_r {A B} (R : A → B → Prop) l k y : Forall2 R l k → y ∈ k → ∃ x, x ∈ l ∧ R x y.
Proof. induction 1 as [|a b l k Hab _ IH]; [by intros ?%elem_of_nil|]. intros [-> | Hy]%elem_of_cons; [eauto using list_elem_of_here|].
  destruct (IH Hy) as (x & Hx & HR). exists x. split; [by right|done]. Qed.

(** Folding what was folded changes nothing. *)
Lemma canonical_again k p : canonical_pubkey k = Ok p → hex_pubkey p → canonical_pubkey p = Ok p.
Proof.
  intros Hk [_ Hhex].
  assert (forall_char (λ a, negb (is_ascii_uppercase a)) p = true) as Hup.
  { unfold canonical_pubkey in Hk. destruct (looks_like_bech32 _); cbn in Hk.
    - destruct (from_bech32 _) as [q|] eqn:E; [|done]. injection Hk as <-. by apply from_bech32_hex in E as [_ ?].
    - injection Hk as <-. apply lowercase_no_upper. }
  unfold canonical_pubkey. rewrite trim_plain by (eapply forall_char_impl, Hhex; apply hexdigit_plain).
  rewrite lowercase_ascii by (eapply forall_char_impl, Hhex; apply hexdigit_is_ascii).
  rewrite to_lowercase_fixed by done.
  assert (looks_like_bech32 p = false) as ->; [|done]. unfold looks_like_bech32.
  destruct (split_once _ _) as [[hrp rest]|] eqn:E; [|done]. cbn.
  apply (split_once_forall _ _ _ _ _ Hhex) in E as [-> _]. by rewrite andb_false_r.
Qed.
Lemma overrides_again (folded : gmap string f64) :
  (∀ p, is_Some (folded !! p) → canonical_pubkey p = Ok p) → canonical_dev_fee_overrides folded = Ok folded.
Proof.
  intros Hc. pose proof (overrides_verdict folded) as Hv. destruct (canonical_dev_fee_overrides folded) as [m|e]; cbn in Hv.
  - f_equal. apply map_eq. intros p. apply option_eq. intros x. rewrite Hv. split.
    + intros (k & Hk & Hkp). rewrite Hc in Hkp by (by eexists). by injection Hkp as ->.
    + intros Hp. exists p. split; [done|]. apply Hc. by eexists.
  - exfalso. destruct Hv as [(p & Hlen & _) | (k & Hk & Hl & reason & Hb & _)].
    + rewrite length_fmap in Hlen. set (keys := filter _ _) in Hlen.
      assert (NoDup keys) as Hnd.
      { apply NoDup_filter. rewrite btree_iter_Permutation. apply NoDup_fst_map_to_list. }
      assert (∀ k, k ∈ keys → k = p) as Hall.
      { intros k [Hkp ([k' x] & -> & Hx%elem_of_btree_iter)%list_elem_of_fmap]%list_elem_of_filter. cbn in *.
        rewrite Hc in Hkp by (by eexists). by injection Hkp. }
      destruct keys as [|a [|b l]]; cbn in Hlen; try lia.
      rewrite (Hall a) in Hnd by by left. rewrite (Hall b) in Hnd by (right; by left). inversion Hnd as [|?? Hn]; subst.
      apply Hn. by left.
    + apply Hc in Hk. unfold canonical_pubkey in Hk. rewrite Hl, Hb in Hk. done.
Qed.
Lemma currency_again code : iso_code (uppercase code) = true → uppercase (trim (uppercase code)) = uppercase code.
Proof.
  intros [_ Ha]%andb_true_iff. rewrite trim_plain by (eapply forall_char_impl, Ha; apply alphabetic_plain).
  rewrite uppercase_ascii by (eapply forall_char_impl, Ha; apply alphabetic_is_ascii).
  apply to_ascii_uppercase_fixed, uppercase_no_lower.
Qed.

Lemma normalized_verdict raw :
  verdict (normalized raw)
    (λ s, Forall2 (λ k p, canonical_pubkey k = Ok p) (is_instances (se_indexer raw)) (is_instances (se_indexer s)) ∧
      (∀ p x, as_dev_fee_percentage (se_assumptions s) !! p = Some x ↔
        ∃ k, as_dev_fee_percentage (se_assumptions raw) !! k = Some x ∧ canonical_pubkey k = Ok p) ∧
      ps_relays (se_publish s) =
        match ps_relays (se_publish raw) with [] => ns_relays (se_nostr raw) | relays => relays end ∧
      (usable s → normalized s = Ok s))
    (λ e, spelled_twice (as_dev_fee_percentage (se_assumptions raw)) e ∨ ∃ k, spelled raw k ∧ not_npub k e).
Proof.
  unfold normalized at 1. eapply verdict_bind.
  { apply (collect_verdict canonical_pubkey). intros k Hk. eapply verdict_impl; [apply canonical_verdict|done|].
    intros e He. right. exists k. split; [by left|done]. }
  intros instances Hi. eapply verdict_bind.
  { eapply verdict_impl; [apply overrides_verdict|intros ? Ha; exact Ha|].
    intros e [He | (k & Hk & He)]; [by left|]. right. exists k. split; [by right|done]. }
  intros overrides Ho. cbn -[trim]. split_and!; [done|done|done|]. intros Hu. destruct Hu. cbn -[trim] in *. unfold normalized. cbn -[trim].
  rewrite (collect_map_Ok _ id), list_fmap_id.
  2:{ intros p Hp. destruct (Forall2_in_r _ _ _ _ Hi Hp) as (k & _ & Hk). by eapply canonical_again, us_instances0. }
  cbn -[trim]. rewrite overrides_again.
  2:{ intros p [x Hx]. destruct (us_overrides0 p x Hx) as [Hhex _]. apply Ho in Hx as (k & _ & Hk).
      by eapply canonical_again. }
  cbn -[trim]. rewrite currency_again by done. do 2 f_equal. destruct (ps_relays (se_publish raw)); [|done].
  by destruct (ns_relays (se_nostr raw)).
Qed.

(** C38: settings that load are ones a run can act on, and canonical: reading
    them again changes nothing, the instances and the overrides are those of
    the file under their canonical keys, none lost or read twice. Settings
    that do not load name a setting of the file and the rule it breaks. *)
Theorem settings_checked (raw : Settings) :
  match checked raw with
  | Ok s =>
      usable s ∧ normalized s = Ok s ∧
      Forall2 (λ k p, canonical_pubkey k = Ok p) (is_instances (se_indexer raw)) (is_instances (se_indexer s)) ∧
      (∀ p x, as_dev_fee_percentage (se_assumptions s) !! p = Some x ↔
        ∃ k, as_dev_fee_percentage (se_assumptions raw) !! k = Some x ∧ canonical_pubkey k = Ok p) ∧
      ps_relays (se_publish s) =
        match ps_relays (se_publish raw) with [] => ns_relays (se_nostr raw) | relays => relays end
  | Err (Load _) => False
  | Err (Invalid e) =>
      spelled_twice (as_dev_fee_percentage (se_assumptions raw)) e ∨ (∃ k, spelled raw k ∧ not_npub k e) ∨
      ∃ s, normalized raw = Ok s ∧ blames s e
  end.
Proof.
  unfold checked. pose proof (normalized_verdict raw) as Hn. destruct (normalized raw) as [s|e] eqn:En; cbn in *; [|tauto].
  destruct Hn as (Hi & Ho & Hp & Hagain). unfold validated. pose proof (validate_verdict s) as Hv.
  destruct (validate s) as [[]|e]; cbn in *; [by split_and!; auto|]. right. right. eauto.
Qed.
End facts.

(** ** Settings at a concrete input *)

Module sample.
#[export] Existing Instances AsciiCase.mapping AsciiCase.mapping_laws.
Definition hex : string := String.concat "" (replicate 32 "0a").
#[export] Instance npub : Npub := λ value, if decide (value = "npub1a") then Ok hex else Err "invalid checksum".
#[export] Instance npub_laws : NpubLaws.
Proof. intros value p. unfold from_bech32, npub. case_decide; [|done]. intros [= <-]. by vm_compute. Qed.
Definition file : Written := {|
  wr_relays := Some ["wss://relay"]; wr_discover_relays := None; wr_resume_overlap_secs := None;
  wr_instances := Some [" NPUB1A "]; wr_accept_unknown_instances := None; wr_networks := None;
  wr_backfill_from := None; wr_dev_fee_percentage_default := None; wr_dev_fee_percentage := Some {[ hex := f64_of_Z 1 ]};
  wr_url := None; wr_reference_currency := Some "eur "; wr_publish_relays := None; wr_max_content_bytes := None;
  wr_nsec := None;
|}.
Definition build (written : option Written) (path : string) (required : bool) : Result string Written :=
  match written with Some w => Ok w | None => if required then Err "no such file" else Ok nothing_written end.
End sample.
#[local] Existing Instances AsciiCase.mapping AsciiCase.mapping_laws sample.npub sample.npub_laws.

(** An empty environment is refused as an empty file is. *)
Example nothing_to_read :
  load_optional (sample.build None) DEFAULT_CONFIG_PATH = Err (Invalid NoRelays) ∧
  load (sample.build None) DEFAULT_CONFIG_PATH = Err (Load "no such file") ∧
  from_toml_str (λ _, Ok nothing_written) "" = Err (Invalid NoRelays).
Proof. by vm_compute. Qed.
Theorem settings_checked_witness :
  match checked (deserialized sample.file) with
  | Ok s => usable s ∧ is_instances (se_indexer s) = [sample.hex] ∧ rs_reference_currency (se_report s) = "EUR" ∧
      ps_relays (se_publish s) = ["wss://relay"]
  | Err _ => False
  end.
Proof.
  pose proof (settings_checked (deserialized sample.file)) as Hs.
  assert (match checked (deserialized sample.file) with
    | Ok s => bool_decide (is_instances (se_indexer s) = [sample.hex]) &&
        bool_decide (rs_reference_currency (se_report s) = "EUR")
    | Err _ => false end = true) as Ec by (vm_compute; reflexivity).
  destruct (checked (deserialized sample.file)) as [s|e]; [|discriminate].
  destruct Hs as (Hu & _ & _ & _ & Hp). apply andb_true_iff in Ec as [Ei Er].
  apply bool_decide_eq_true in Ei. apply bool_decide_eq_true in Er. split; [exact Hu|]. split; [exact Ei|].
  split; [exact Er|exact Hp].
Defined.
