(* ===== verification/Cli.v ===== *)
(** * Command line

    [src/cli.rs]: what an invocation asks for, as the argument parser hands it
    over. Recognising the words is clap's; the times are parsed here. *)

From S2P Require Import Prelude Network.

#[local] Open Scope Z_scope.

(** The dimensions each family offers. *)
Inductive OrderDimension : Type :=
| OrderStatus | OrderKind | OrderFiat | OrderMethod | OrderInstance | OrderPeriod | OrderDay | OrderHour | OrderWeekday.
Inductive VolumeDimension : Type := VolumeKind | VolumeFiat | VolumeInstance | VolumePeriod | VolumeDay.
Inductive MarketDimension : Type := MarketFiat | MarketKind | MarketInstance.
Inductive TimingDimension : Type := TimingFiat | TimingMethod | TimingKind | TimingInstance.
Inductive InstanceOrPeriod : Type := ByInstance | ByPeriod | ByDay.
Inductive DisputeDimension : Type :=
| DisputeStatus | DisputeInitiator | DisputeInstance | DisputePeriod | DisputeDay.
Inductive Period : Type := Day | Week | Month | Year.
Inductive SeriesSplit : Type := SplitInstance | SplitKind | SplitFiat.

Inductive StatsCommand : Type :=
| StatsOrders (by_ : option OrderDimension)
| StatsVolume (by_ : option VolumeDimension) (convert_to : option string)
| StatsMarket (by_ : option MarketDimension)
| StatsTiming (by_ : option TimingDimension)
| StatsDevFees (by_ : option InstanceOrPeriod)
| StatsDisputes (by_ : option DisputeDimension)
| StatsRates (fiat : option string).

Inductive Command : Type :=
| Backfill (kind : option Z)
| Sync
| Summary
| InstancesList
| InstanceProfile (instance : string)
| Compare
| Series (metric : string) (by_ : Period) (split : option SeriesSplit)
| Market (fiat : string)
| Stats (command : StatsCommand)
| Orders (order_id : string)
| Publish (dry_run : bool) (out : option string) (republish : bool)
| Rebuild (from_raw : bool).

Record Cli : Type := mkCli {
  cl_config : option string;
  cl_json : bool;
  cl_from : option Z;
  cl_until : option Z;
  cl_instance : option string;
  cl_network : option Network;
  cl_verbose : Z;
  cl_command : Command;
}.

Section times.
(** The timestamp of midnight on [NaiveDate::parse_from_str(value, "%Y-%m-%d")]. *)
Context (parse_date : string → option Z).

Definition parse_timestamp (value : string) : Result string Z :=
  match i64_from_str value with
  | Some timestamp =>
      if decide (timestamp < 0) then
        Err ("`" +:+ value +:+ "` is before the unix epoch; expected a unix timestamp or YYYY-MM-DD")
      else Ok timestamp
  | None =>
      ok_or (parse_date value) ("`" +:+ value +:+ "` is neither a unix timestamp nor a YYYY-MM-DD date")
  end.

(** A number is taken as it is when the epoch does not come after it, and any
    other text is a date or nothing. *)
Lemma parse_timestamp_spec value :
  match parse_timestamp value with
  | Ok t => is_i64 t ∧ i64_from_str value = Some t ∧ 0 ≤ t ∨ i64_from_str value = None ∧ parse_date value = Some t
  | Err _ => (∃ t, i64_from_str value = Some t ∧ t < 0) ∨ i64_from_str value = None ∧ parse_date value = None
  end.
Proof.
  unfold parse_timestamp. destruct (i64_from_str value) as [t|] eqn:E.
  - case_decide as Ht; [left; by exists t|]. left. split; [|split; [done|lia]].
    unfold i64_from_str in E.
    assert (∀ (o : option Z) (f : Z → Z), o ≫= (λ n, in_i64 (f n)) = Some t → is_i64 t) as Hin.
    { intros [n|] f; [|done]. cbn. unfold in_i64. case_decide; [|done]. by intros [= <-]. }
    destruct value as [|a value]; [by apply (Hin _ id) in E|].
    repeat match type of E with context [match ?x with _ => _ end] => destruct x end;
      first [by apply (Hin _ id) in E | by apply (Hin _ Z.opp) in E].
  - destruct (parse_date value); cbn; [by right|]. by right.
Qed.
End times.
