(* ===== verification/Event.v ===== *)
(** * Code the repository calls and does not contain

    The crates under [Cargo.toml] are parameters of the model. A Nostr event
    is read only through its accessors, so it is the record of what they
    return; the operations on it, [uuid]'s parser and the printing of floats
    are the fields of [External]. [ExternalLaws] states the documented
    behaviour theorems rely on, and [Demo] is a concrete instance that
    discharges it, which the witnesses run on. *)

From Stdlib Require Import SpecFloat.
From S2P Require Import Prelude F64.

#[local] Open Scope Z_scope.

(** [nostr_sdk::Event]: [id.to_hex()], [pubkey.to_hex()],
    [created_at.as_secs()] (a [u64]), [kind.as_u16()], [tags] as lists of
    strings, [content]. *)
Record Event : Type := mkEvent {
  ev_id : string;
  ev_pubkey : string;
  ev_created_at : Z;
  ev_kind : Z;
  ev_tags : list (list string);
  ev_content : string;
}.

#[export] Instance Event_eq_dec : EqDecision Event.
Proof. solve_decision. Defined.
#[export] Instance Event_countable : Countable Event.
Proof.
  apply (inj_countable' (λ e, (ev_id e, ev_pubkey e, ev_created_at e, ev_kind e, ev_tags e, ev_content e))
    (λ '(i, p, c, k, t, x), mkEvent i p c k t x)).
  by intros [].
Defined.

(** A JSON text as [serde] walks it: objects keep their members in order,
    duplicates included; a number is its [as_f64]. *)
Inductive Json : Type :=
| JNull
| JBool (b : bool)
| JNumber (as_f64 : f64)
| JString (s : string)
| JArray (items : list Json)
| JObject (members : list (string * Json)).

Class External := {
  (** [Event::verify().is_ok()] *)
  verify : Event → bool;
  (** [Event::as_json] and [Event::from_json(..).ok()] *)
  as_json : Event → string;
  from_json : string → option Event;
  (** [Uuid::parse_str(value).ok().map(|uuid| uuid.to_string())] *)
  parse_uuid : string → option string;
  (** [RelayUrl::parse(url).ok()] then [as_str_without_trailing_slash] *)
  relay_url : string → option string;
  (** [f64::to_string], which only error messages print *)
  f64_to_string : f64 → string;
  (** [serde_json]: the text parsed, or the message of its syntax error; the
      compact serialisation of a value *)
  json_parse : string → Result string Json;
  json_print : Json → string;
}.

Class ExternalLaws `{External} := {
  (** Reading back the JSON of an event gives the event. *)
  from_json_as_json e : from_json (as_json e) = Some e;
  (** The canonical form of a UUID is its own canonical form. *)
  parse_uuid_canonical s c : parse_uuid s = Some c → parse_uuid c = Some c;
}.

(** ** A concrete instance *)
Module Demo.

Fixpoint bits (p : positive) : string :=
  match p with
  | xH => "" | xO p => String "0"%char (bits p) | xI p => String "1"%char (bits p)
  end.

Fixpoint unbits (s : string) : option positive :=
  match s with
  | "" => Some xH
  | String "0" s => xO <$> unbits s
  | String "1" s => xI <$> unbits s
  | _ => None
  end.

Lemma unbits_bits p : unbits (bits p) = Some p.
Proof. induction p as [p IH|p IH|]; cbn; [by rewrite IH..|done]. Qed.

#[export] Instance f64_countable : Countable f64.
Proof.
  apply (inj_countable' (λ x, match x with
    | S754_zero s => inl (inl s) | S754_infinity s => inl (inr s)
    | S754_nan => inr None | S754_finite s m e => inr (Some (s, m, e)) end)
   (λ x, match x with
    | inl (inl s) => S754_zero s | inl (inr s) => S754_infinity s
    | inr None => S754_nan | inr (Some (s, m, e)) => S754_finite s m e end)).
  by intros [].
Defined.

(** The two shapes of JSON the archive handles: a table of rates, and an
    object of such tables, each written as the bits of its code. *)
Abbreviation rate_table := (list (string * f64)).
Definition json_table (t : rate_table) : Json := JObject ((λ '(k, x), (k, JNumber x)) <$> t).
Definition json_text (j : rate_table + list (string * rate_table)) : string := bits (encode j).

Definition demo_json_parse (s : string) : Result string Json :=
  match unbits s ≫= decode (A := rate_table + list (string * rate_table)) with
  | Some (inl t) => Ok (json_table t)
  | Some (inr l) => Ok (JObject ((λ '(k, t), (k, json_table t)) <$> l))
  | None => Err "expected value"
  end.

Fixpoint numbers (members : list (string * Json)) : rate_table :=
  match members with
  | (k, JNumber x) :: members => (k, x) :: numbers members
  | _ => []
  end.

Definition demo_json_print (j : Json) : string :=
  match j with JObject members => json_text (inl (numbers members)) | _ => "" end.

(** Every event verifies; JSON is the bits of the event's code; a UUID is 36
    characters, canonical in lowercase; a relay URL starts with [wss://] and
    loses one trailing slash. *)
Definition strip_slash (s : string) : string :=
  match String.rev s with String "/" r => String.rev r | _ => s end.

#[export] Instance demo : External := {|
  verify _ := true;
  as_json e := bits (encode e);
  from_json s := unbits s ≫= decode;
  parse_uuid s := if decide (String.length s = 36%nat) then Some (to_lowercase s) else None;
  relay_url s := if starts_with "wss://" s then Some (strip_slash s) else None;
  f64_to_string _ := "";
  json_parse := demo_json_parse;
  json_print := demo_json_print;
|}.

Lemma lower_ascii_idemp a : lower_ascii (lower_ascii a) = lower_ascii a.
Proof. by destruct a as [[][][][][][][][]]. Qed.

Lemma to_lowercase_idemp s : to_lowercase (to_lowercase s) = to_lowercase s.
Proof. induction s as [|a s IH]; [done|]. cbn. by rewrite lower_ascii_idemp, IH. Qed.

Lemma to_lowercase_length s : String.length (to_lowercase s) = String.length s.
Proof. induction s as [|a s IH]; [done|]. cbn. by rewrite IH. Qed.

#[export] Instance demo_laws : ExternalLaws.
Proof.
  split.
  - intros e. cbn. rewrite unbits_bits. cbn. apply decode_encode.
  - intros s c. cbn. case_decide as Hl; [|done]. intros [= <-].
    rewrite to_lowercase_length, decide_True by done. by rewrite to_lowercase_idemp.
Defined.
End Demo.
