(* ===== verification/Parse.v ===== *)
(** * Tag readers

    [src/ingest/parse/mod.rs] and [identity.rs]: the errors a parser
    returns, the readers every kind shares, and the [y] tag. *)

From S2P Require Import Prelude F64 Network Event.

#[local] Open Scope Z_scope.

(** Why an event could not be turned into a typed value. *)
Inductive ParseError : Type :=
| WrongKind (expected found : Z)
| MissingTag (tag : string)
| EmptyTag (tag : string)
| UnknownValue (tag value expected : string)
| NotANumber (tag value expected : string)
| WrongValueCount (tag : string) (count : nat) (expected : string)
| RepeatedTag (tag : string) (count : nat)
| BlankValue (tag expected : string)
| OutOfRange (tag value expected : string)
| InvertedRange (tag : string) (min max : f64)
| InvalidContent (reason : string).

#[export] Instance ParseError_eq_dec : EqDecision ParseError.
Proof. solve_decision. Defined.

Abbreviation Parsing := (Result ParseError).

(** The values of every occurrence of the [name] tag. *)
Definition repeated_tag_values (event : Event) (name : string) : list (list string) :=
  tail <$> filter (λ values, head values = Some name) (ev_tags event).

(** The values of the [name] tag; a repeated tag is an error. *)
Definition tag_values (event : Event) (name : string) : Parsing (option (list string)) :=
  match repeated_tag_values event name with
  | [] => Ok None
  | [values] => Ok (Some values)
  | occurrences => Err (RepeatedTag name (length occurrences))
  end.

Definition non_blank (tag value expected : string) : Parsing string :=
  if blank value then Err (BlankValue tag expected) else Ok value.

(** The single, non-blank value of a required tag. *)
Definition required (event : Event) (tag : string) : Parsing string :=
  found ← tag_values event tag;
  values ← ok_or found (MissingTag tag);
  match values with
  | [] => Err (EmptyTag tag)
  | [value] => non_blank tag value "a value"
  | _ => Err (WrongValueCount tag (length values) "exactly one value")
  end.

(** The single value of a tag that may be absent; a blank one reads as absent. *)
Definition optional (event : Event) (tag : string) : Parsing (option string) :=
  found ← tag_values event tag;
  match found with
  | None => Ok None
  | Some [] => Ok None
  | Some [value] => Ok (if blank value then None else Some value)
  | Some values => Err (WrongValueCount tag (length values) "exactly one value")
  end.

(** [non_negative], at the type's order against its default and its printer. *)
Definition non_negative {T} (below_zero : T → bool) (to_string : T → string)
    (tag : string) (value : T) (expected : string) : Parsing T :=
  if below_zero value then Err (OutOfRange tag (to_string value) expected) else Ok value.

Definition expect_kind (event : Event) (expected : Z) : Parsing () :=
  let found := ev_kind event in
  if decide (found = expected) then Ok () else Err (WrongKind expected found).

(** [number::<T>], at the type's [from_str]. *)
Definition number {T} (from_str : string → option T) (tag value expected : string) : Parsing T :=
  ok_or (from_str value) (NotANumber tag value expected).

Definition finite (tag value expected : string) : Parsing f64 :=
  parsed ← number f64_from_str tag value expected;
  if is_finite parsed then Ok parsed else Err (NotANumber tag value expected).

Definition expect_discriminator (event : Event) (expected : string) : Parsing () :=
  found ← required event "z";
  if decide (found = expected) then Ok () else Err (UnknownValue "z" found expected).

(** [non_negative] at [i64]. *)
Definition non_negative_i64 : string → Z → string → Parsing Z :=
  non_negative (λ v, bool_decide (v < 0)) pretty.

(** A required [i64] tag, checked for sign, as the parsers write it. *)
Definition published_at_from (event : Event) (tag : string) : Parsing (option Z) :=
  value ← optional event tag;
  match value with
  | None => Ok None
  | Some value =>
      timestamp ← number i64_from_str tag value "a unix timestamp";
      Some <$> non_negative_i64 tag timestamp "a unix timestamp"
  end.

(** [published_at], or the legacy [created_at] tag. *)
Definition published_at (event : Event) : Parsing (option Z) :=
  found ← published_at_from event "published_at";
  match found with
  | Some timestamp => Ok (Some timestamp)
  | None => published_at_from event "created_at"
  end.

(** The [network] tag of orders and dev fees. *)
Definition optional_network (event : Event) : Parsing (option Network) :=
  value ← optional event "network";
  match value with
  | None => Ok None
  | Some value =>
      Some <$> ok_or (from_wire value)
        (UnknownValue "network" value "`mainnet`, `testnet`, `signet` or `regtest`")
  end.

Definition uuid `{External} (tag value : string) : Parsing string :=
  ok_or (parse_uuid value) (UnknownValue tag value "a UUID").

(** ** [identity.rs]: the [y] tag *)

Definition MOSTRO : string := "mostro".

Definition y (event : Event) : option (list string) := ok (tag_values event "y") ≫= id.

(** The first value of [y]: the platform that published the event. *)
Definition platform (event : Event) : option string := y event ≫= head.

Definition is_mostro (event : Event) : bool := bool_decide (platform event = Some MOSTRO).

(** The second value of [y]: the name of the publishing node. *)
Definition instance_name (event : Event) : option string :=
  values ← y event;
  name ← values !! 1%nat;
  let name := trim name in
  if decide (name = "") then None else Some name.

(** ** What a reader's success says *)

Lemma non_blank_Ok tag value expected v :
  non_blank tag value expected = Ok v → v = value ∧ blank v = false.
Proof. unfold non_blank. destruct (blank value) eqn:E; naive_solver. Qed.

Lemma required_Ok event tag v : required event tag = Ok v → blank v = false.
Proof.
  unfold required. intros H. inv_ok. repeat case_match; try done.
  by apply non_blank_Ok in H1 as [_ ?].
Qed.

Lemma optional_Some event tag v : optional event tag = Ok (Some v) → blank v = false.
Proof. unfold optional. intros H. inv_ok. repeat case_match; naive_solver. Qed.

Lemma number_Ok {T} (from_str : string → option T) tag value expected x :
  number from_str tag value expected = Ok x → from_str value = Some x.
Proof. apply ok_or_Ok. Qed.

Lemma non_negative_Ok {T} (neg : T → bool) show tag value expected x :
  non_negative neg show tag value expected = Ok x → x = value ∧ neg x = false.
Proof. unfold non_negative. destruct (neg value) eqn:E; naive_solver. Qed.

Lemma non_negative_i64_Ok tag value expected x :
  non_negative_i64 tag value expected = Ok x → x = value ∧ 0 ≤ x.
Proof. intros [-> ?%bool_decide_eq_false]%non_negative_Ok. lia. Qed.

(** A required or optional [i64] tag that must not be negative is in
    [0, i64::MAX]. *)
Lemma tag_number_Ok tag value expected n z expected' :
  number i64_from_str tag value expected = Ok n →
  non_negative_i64 tag n expected' = Ok z → 0 ≤ z ≤ i64_max.
Proof.
  intros Hn%number_Ok%i64_from_str_range [-> ?]%non_negative_i64_Ok.
  unfold is_i64 in Hn. lia.
Qed.

Lemma finite_Ok tag value expected x : finite tag value expected = Ok x → is_finite x = true.
Proof. unfold finite. intros H. inv_ok. destruct (is_finite _) eqn:?; naive_solver. Qed.

Lemma expect_kind_Ok event k u : expect_kind event k = Ok u → ev_kind event = k.
Proof. unfold expect_kind. case_decide; naive_solver. Qed.

(** Turn every successful reader of the context into what it guarantees. *)
Ltac parsed_step :=
  match goal with
  | H : non_blank _ _ _ = Ok _ |- _ => apply non_blank_Ok in H as [-> ?]
  | H : required _ _ = Ok _ |- _ => apply required_Ok in H
  | H : optional _ _ = Ok (Some _) |- _ => apply optional_Some in H
  | Hn : number i64_from_str _ _ _ = Ok ?n, H : non_negative_i64 _ ?n _ = Ok _ |- _ =>
      pose proof (tag_number_Ok _ _ _ _ _ _ Hn H); clear Hn H
  | H : finite _ _ _ = Ok _ |- _ => apply finite_Ok in H
  | H : ok_or _ _ = Ok _ |- _ => apply ok_or_Ok in H
  | H : expect_kind _ _ = Ok _ |- _ => apply expect_kind_Ok in H
  end.
Ltac parsed := inv_ok; repeat parsed_step.

Lemma published_at_Some event z : published_at event = Ok (Some z) → 0 ≤ z ≤ i64_max.
Proof.
  assert (∀ tag, published_at_from event tag = Ok (Some z) → 0 ≤ z ≤ i64_max) as Hfrom.
  { intros tag. unfold published_at_from. intros H. inv_ok.
    case_match; parsed; [by simplify_eq|done]. }
  unfold published_at. intros H. inv_ok. case_match; simplify_eq; eauto.
Qed.

(** A tag that appears twice is never read: every reader reports it. *)
Lemma repeated_tag_is_error event tag a b l :
  repeated_tag_values event tag = a :: b :: l →
  required event tag = Err (RepeatedTag tag (length (a :: b :: l))) ∧
  optional event tag = Err (RepeatedTag tag (length (a :: b :: l))).
Proof. intros H. unfold required, optional, tag_values. by rewrite H. Qed.
