(* ===== verification/ParseOrder.v ===== *)
(** * Kind 38383: orders

    [src/ingest/parse/order.rs]. *)

From S2P Require Import Prelude F64 Network Event Parse.

#[local] Open Scope Z_scope.

Definition KIND : Z := 38383.
Definition DISCRIMINATOR : string := "order".

Inductive Direction : Type := Buy | Sell.
Inductive Status : Type := Pending | InProgress | Success | Canceled.
Inductive FiatAmount : Type := Fixed (amount : f64) | Range (min max : f64).

#[export] Instance Direction_eq_dec : EqDecision Direction.
Proof. solve_decision. Defined.
#[export] Instance Status_eq_dec : EqDecision Status.
Proof. solve_decision. Defined.
#[export] Instance FiatAmount_eq_dec : EqDecision FiatAmount.
Proof. solve_decision. Defined.

(** One published version of an order. *)
Record OrderVersion : Type := mkOrderVersion {
  ov_event_id : string;
  ov_order_id : string;
  ov_pubkey : string;
  ov_created_at : Z;
  ov_direction : Direction;
  ov_status : Status;
  ov_fiat_code : string;
  ov_amount_sats : Z;
  ov_fiat : FiatAmount;
  ov_payment_methods : list string;
  ov_premium : f64;
  ov_network : option Network;
  ov_expires_at : Z;
  ov_order_created_at : option Z;
}.

Definition direction_as_str (d : Direction) : string :=
  match d with Buy => "buy" | Sell => "sell" end.

Definition direction_parse (value : string) : Parsing Direction :=
  if decide (value = "buy") then Ok Buy
  else if decide (value = "sell") then Ok Sell
  else Err (UnknownValue "k" value "`buy` or `sell`").

Definition status_as_str (s : Status) : string :=
  match s with
  | Pending => "pending" | InProgress => "in-progress"
  | Success => "success" | Canceled => "canceled"
  end.

Definition status_parse (value : string) : Parsing Status :=
  if decide (value = "pending") then Ok Pending
  else if decide (value = "in-progress") then Ok InProgress
  else if decide (value = "success") then Ok Success
  else if decide (value = "canceled") then Ok Canceled
  else Err (UnknownValue "s" value "`pending`, `in-progress`, `success` or `canceled`").

(** [FiatAmount::fixed] and [FiatAmount::bounds]. *)
Definition fixed (f : FiatAmount) : option f64 :=
  match f with Fixed amount => Some amount | Range _ _ => None end.
Definition bounds (f : FiatAmount) : option (f64 * f64) :=
  match f with Fixed _ => None | Range min max => Some (min, max) end.

Section parser.
Context `{External}.

Definition fiat_amount (value expected : string) : Parsing f64 :=
  amount ← finite "fa" value expected;
  non_negative (λ v, f64_lt v (f64_of_Z 0)) f64_to_string "fa" amount expected.

Definition parse_fiat_amount (event : Event) : Parsing FiatAmount :=
  found ← tag_values event "fa";
  values ← ok_or found (MissingTag "fa");
  match values with
  | [] => Err (EmptyTag "fa")
  | [amount] => Fixed <$> fiat_amount amount "a fiat amount"
  | [min; max] =>
      min ← fiat_amount min "the minimum of a range";
      max ← fiat_amount max "the maximum of a range";
      if f64_gt min max then Err (InvertedRange "fa" min max) else Ok (Range min max)
  | values => Err (WrongValueCount "fa" (length values) "one amount, or a `[min, max]` pair")
  end.

Definition parse_payment_methods (event : Event) : Parsing (list string) :=
  found ← tag_values event "pm";
  values ← ok_or found (MissingTag "pm");
  match values with
  | [] => Err (EmptyTag "pm")
  | _ => collect ((λ method, non_blank "pm" method "a payment method") <$> values)
  end.

(** [order::parse]: the fields in the order the struct literal reads them. *)
Definition parse (event : Event) : Parsing OrderVersion :=
  _ ← expect_kind event KIND;
  _ ← expect_discriminator event DISCRIMINATOR;
  d ← required event "d";
  order_id ← uuid "d" d;
  k ← required event "k";
  direction ← direction_parse k;
  s ← required event "s";
  status ← status_parse s;
  fiat_code ← required event "f";
  amt ← required event "amt";
  amt ← number i64_from_str "amt" amt "an amount in sats";
  amount_sats ← non_negative_i64 "amt" amt "an amount in sats";
  fiat ← parse_fiat_amount event;
  payment_methods ← parse_payment_methods event;
  premium ← required event "premium";
  premium ← finite "premium" premium "a percentage";
  network ← optional_network event;
  expires ← required event "expires_at";
  expires ← number i64_from_str "expires_at" expires "a unix timestamp";
  expires_at ← non_negative_i64 "expires_at" expires "a unix timestamp";
  order_created_at ← published_at event;
  Ok {|
    ov_event_id := ev_id event;
    ov_order_id := order_id;
    ov_pubkey := ev_pubkey event;
    ov_created_at := as_i64 (ev_created_at event);
    ov_direction := direction;
    ov_status := status;
    ov_fiat_code := fiat_code;
    ov_amount_sats := amount_sats;
    ov_fiat := fiat;
    ov_payment_methods := payment_methods;
    ov_premium := premium;
    ov_network := network;
    ov_expires_at := expires_at;
    ov_order_created_at := order_created_at;
  |}.
End parser.

(** ** What a parsed order guarantees *)

Lemma status_parse_as_str s : status_parse (status_as_str s) = Ok s.
Proof. by destruct s. Qed.
Lemma direction_parse_as_str d : direction_parse (direction_as_str d) = Ok d.
Proof. by destruct d. Qed.
Lemma status_parse_Ok w s : status_parse w = Ok s → w = status_as_str s.
Proof. unfold status_parse. intros. repeat case_decide; naive_solver. Qed.
Lemma direction_parse_Ok w d : direction_parse w = Ok d → w = direction_as_str d.
Proof. unfold direction_parse. intros. repeat case_decide; naive_solver. Qed.
Lemma status_as_str_inj s t : status_as_str s = status_as_str t → s = t.
Proof. by destruct s, t. Qed.

Definition money (x : f64) : Prop := is_finite x = true ∧ f64_lt x (f64_of_Z 0) = false.

Definition fiat_ok (f : FiatAmount) : Prop :=
  match f with
  | Fixed a => money a
  | Range min max => money min ∧ money max ∧ f64_gt min max = false
  end.

(** The values that reach the archive: nothing that a sum, an average or a
    grouping key could be poisoned by. *)
Record well_formed `{External} (v : OrderVersion) : Prop := {
  wf_order_id : parse_uuid (ov_order_id v) = Some (ov_order_id v);
  wf_fiat_code : blank (ov_fiat_code v) = false;
  wf_amount : 0 ≤ ov_amount_sats v ≤ i64_max;
  wf_fiat : fiat_ok (ov_fiat v);
  wf_methods : ov_payment_methods v ≠ [] ∧ Forall (λ m, blank m = false) (ov_payment_methods v);
  wf_premium : is_finite (ov_premium v) = true;
  wf_expires : 0 ≤ ov_expires_at v ≤ i64_max;
  wf_order_created : ∀ t, ov_order_created_at v = Some t → 0 ≤ t ≤ i64_max;
}.

Section facts.
Context `{External}.

Lemma fiat_amount_Ok value expected x : fiat_amount value expected = Ok x → money x.
Proof.
  unfold fiat_amount. intros Hx. parsed.
  match goal with H : non_negative _ _ _ _ _ = Ok _ |- _ => apply non_negative_Ok in H as [-> ?] end.
  done.
Qed.

Lemma parse_fiat_amount_Ok event f :
  parse_fiat_amount event = Ok f → fiat_ok f.
Proof.
  unfold parse_fiat_amount, fiat_ok. intros Hf. inv_ok.
  repeat case_match; simplify_eq; inv_ok; simplify_eq; eauto using fiat_amount_Ok.
  all: destruct (f64_gt _ _) eqn:?; simplify_eq; eauto using fiat_amount_Ok.
Qed.

Lemma parse_payment_methods_Ok event ms :
  parse_payment_methods event = Ok ms → ms ≠ [] ∧ Forall (λ m, blank m = false) ms.
Proof.
  assert (∀ vs ms, collect ((λ m, non_blank "pm" m "a payment method") <$> vs) = Ok ms →
    length ms = length vs ∧ Forall (λ m, blank m = false) ms) as Hall.
  { induction vs as [|v vs IH]; cbn; intros ms' Hc; [by simplify_eq|].
    parsed. match goal with H : collect _ = Ok _ |- _ => destruct (IH _ H) end.
    cbn. split; [lia|]. by constructor. }
  unfold parse_payment_methods. intros Hp. inv_ok. case_match; [done|].
  match goal with H : collect _ = Ok _ |- _ => apply Hall in H as [Hl ?] end.
  split; [|done]. by intros ->.
Qed.

Lemma parse_wf `{!ExternalLaws} event v :
  parse event = Ok v →
  well_formed v ∧ ev_kind event = KIND ∧
  ov_event_id v = ev_id event ∧ ov_pubkey v = ev_pubkey event ∧
  ov_created_at v = as_i64 (ev_created_at event).
Proof.
  unfold parse. intros Hp. parsed. unfold uuid in *. parsed.
  split; [|done]. split; cbn; eauto using parse_uuid_canonical, parse_fiat_amount_Ok,
    parse_payment_methods_Ok, published_at_Some.
  intros t ->. eauto using published_at_Some.
Qed.

(** C40: an order the parser accepts carries its event's identity, and only
    values that can be counted, summed and grouped: a canonical UUID, finite
    floats, non-negative money and times, bounds in order, no blank text. *)
Theorem order_parse_sound `{!ExternalLaws} event v :
  parse event = Ok v →
  well_formed v ∧ ev_kind event = KIND ∧
  ov_event_id v = ev_id event ∧ ov_pubkey v = ev_pubkey event ∧
  ov_created_at v = as_i64 (ev_created_at event).
Proof. apply parse_wf. Qed.
End facts.

Section sample.
#[local] Existing Instance Demo.demo.
#[local] Existing Instance Demo.demo_laws.

Definition sample_event : Event := {|
  ev_id := "e1"; ev_pubkey := "a11ce"; ev_created_at := 1700000100; ev_kind := KIND;
  ev_tags := [["z"; "order"]; ["d"; "3F2504E0-4F89-41D3-9A0C-0305E82C3301"]; ["k"; "sell"];
    ["s"; "pending"]; ["f"; "EUR"]; ["amt"; "50000"]; ["fa"; "10"; "20.5"]; ["pm"; "SEPA"; "Cash, in person"];
    ["premium"; "-1.5"]; ["network"; "mainnet"]; ["expires_at"; "1700086400"]; ["published_at"; "1700000000"]];
  ev_content := "" |}.

Lemma order_parse_sound_witness : ∃ v, parse sample_event = Ok v ∧ well_formed v.
Proof.
  eexists. split; [vm_compute; reflexivity|].
  refine (proj1 (order_parse_sound sample_event _ _)). vm_compute. reflexivity.
Defined.
End sample.
