(* ===== verification/ParseDevFee.v ===== *)
(** * Kind 8383: dev-fee payments

    [src/ingest/parse/dev_fee.rs]. *)

From S2P Require Import Prelude F64 Network Event Parse.

#[local] Open Scope Z_scope.

Definition KIND : Z := 8383.
Definition DISCRIMINATOR : string := "dev-fee-payment".

Record DevFee : Type := mkDevFee {
  fee_event_id : string;
  fee_pubkey : string;
  fee_order_id : string;
  fee_created_at : Z;
  fee_amount_sats : Z;
  fee_payment_hash : string;
  fee_destination : option string;
  fee_network : option Network;
}.

Definition parse `{External} (event : Event) : Parsing DevFee :=
  _ ← expect_kind event KIND;
  _ ← expect_discriminator event DISCRIMINATOR;
  oid ← required event "order-id";
  order_id ← uuid "order-id" oid;
  amount ← required event "amount";
  amount ← number i64_from_str "amount" amount "an amount in sats";
  amount_sats ← non_negative_i64 "amount" amount "an amount in sats";
  payment_hash ← required event "hash";
  destination ← optional event "destination";
  network ← optional_network event;
  Ok {|
    fee_event_id := ev_id event;
    fee_pubkey := ev_pubkey event;
    fee_order_id := order_id;
    fee_created_at := as_i64 (ev_created_at event);
    fee_amount_sats := amount_sats;
    fee_payment_hash := payment_hash;
    fee_destination := destination;
    fee_network := network;
  |}.
