(* ===== verification/ParseDispute.v ===== *)
(** * Kind 38386: disputes

    [src/ingest/parse/dispute.rs]. *)

From S2P Require Import Prelude Event Parse.

#[local] Open Scope Z_scope.

Definition KIND : Z := 38386.

Inductive Initiator : Type := Buyer | Seller.
Inductive Status : Type :=
| Initiated | InProgress | SellerRefunded | Settled | Released | CooperativelyCanceled.

#[export] Instance Initiator_eq_dec : EqDecision Initiator.
Proof. solve_decision. Defined.
#[export] Instance Status_eq_dec : EqDecision Status.
Proof. solve_decision. Defined.

Record DisputeVersion : Type := mkDisputeVersion {
  dv_event_id : string;
  dv_dispute_id : string;
  dv_pubkey : string;
  dv_created_at : Z;
  dv_status : Status;
  dv_initiator : option Initiator;
  dv_opened_at : option Z;
}.

Definition initiator_as_str (i : Initiator) : string :=
  match i with Buyer => "buyer" | Seller => "seller" end.

Definition initiator_parse (value : string) : Parsing Initiator :=
  if decide (value = "buyer") then Ok Buyer
  else if decide (value = "seller") then Ok Seller
  else Err (UnknownValue "initiator" value "`buyer` or `seller`").

Definition status_as_str (s : Status) : string :=
  match s with
  | Initiated => "initiated" | InProgress => "in-progress"
  | SellerRefunded => "seller-refunded" | Settled => "settled"
  | Released => "released" | CooperativelyCanceled => "cooperatively-canceled"
  end.

Definition status_parse (value : string) : Parsing Status :=
  if decide (value = "initiated") then Ok Initiated
  else if decide (value = "in-progress") then Ok InProgress
  else if decide (value = "seller-refunded") then Ok SellerRefunded
  else if decide (value = "settled") then Ok Settled
  else if decide (value = "released") then Ok Released
  else if decide (value = "cooperatively-canceled") then Ok CooperativelyCanceled
  else Err (UnknownValue "s" value
    "`initiated`, `in-progress`, `seller-refunded`, `settled`, `released` or `cooperatively-canceled`").

Definition parse (event : Event) : Parsing DisputeVersion :=
  _ ← expect_kind event KIND;
  raised ← optional event "initiator";
  initiator ← transpose (initiator_parse <$> raised);
  opened_at ← published_at event;
  dispute_id ← required event "d";
  s ← required event "s";
  status ← status_parse s;
  Ok {|
    dv_event_id := ev_id event;
    dv_dispute_id := dispute_id;
    dv_pubkey := ev_pubkey event;
    dv_created_at := as_i64 (ev_created_at event);
    dv_status := status;
    dv_initiator := initiator;
    dv_opened_at := opened_at;
  |}.
