(* ===== verification/ParseInfo.v ===== *)
(** * Kind 38385: instance info

    [src/ingest/parse/info.rs]. *)

From S2P Require Import Prelude F64 Event Parse.

#[local] Open Scope Z_scope.

Definition KIND : Z := 38385.

Record InstanceInfo : Type := mkInstanceInfo {
  info_event_id : string;
  info_pubkey : string;
  info_created_at : Z;
  info_fee : option f64;
  info_max_order_amount : option Z;
  info_min_order_amount : option Z;
  info_fiat_currencies : option string;
  info_mostro_version : option string;
  info_protocol_version : option string;
  info_ln_networks : option string;
  info_bond_enabled : option bool;
}.

(** [optional_number::<T>], at the type's [from_str]. *)
Definition optional_number {T} (from_str : string → option T) (event : Event)
    (tag expected : string) : Parsing (option T) :=
  value ← optional event tag;
  transpose ((λ value, number from_str tag value expected) <$> value).

Definition optional_bool (event : Event) (tag : string) : Parsing (option bool) :=
  value ← optional event tag;
  match value with
  | None => Ok None
  | Some value =>
      if decide (value = "true") then Ok (Some true)
      else if decide (value = "false") then Ok (Some false)
      else Err (UnknownValue tag value "`true` or `false`")
  end.

Definition parse (event : Event) : Parsing InstanceInfo :=
  _ ← expect_kind event KIND;
  identifier ← required event "d";
  let pubkey := ev_pubkey event in
  if decide (identifier ≠ pubkey) then
    Err (UnknownValue "d" identifier "the publishing instance's own pubkey")
  else
    fee ← optional_number f64_from_str event "fee" "a fraction, e.g. `0.006`";
    max_order_amount ← optional_number i64_from_str event "max_order_amount" "an amount in sats";
    min_order_amount ← optional_number i64_from_str event "min_order_amount" "an amount in sats";
    fiat_currencies ← optional event "fiat_currencies_accepted";
    mostro_version ← optional event "mostro_version";
    protocol_version ← optional event "protocol_version";
    ln_networks ← optional event "lnd_networks";
    bond_enabled ← optional_bool event "bond_enabled";
    Ok {|
      info_event_id := ev_id event;
      info_pubkey := pubkey;
      info_created_at := as_i64 (ev_created_at event);
      info_fee := fee;
      info_max_order_amount := max_order_amount;
      info_min_order_amount := min_order_amount;
      info_fiat_currencies := fiat_currencies;
      info_mostro_version := mostro_version;
      info_protocol_version := protocol_version;
      info_ln_networks := ln_networks;
      info_bond_enabled := bond_enabled;
    |}.
