(* ===== verification/ParseRelayList.v ===== *)
(** * Kind 10002: NIP-65 relay lists

    [src/ingest/parse/relay_list.rs]. *)

From S2P Require Import Prelude Event Parse.

#[local] Open Scope Z_scope.

Definition KIND : Z := 10002.
Definition WRITE : string := "write".

Record RelayList : Type := mkRelayList {
  rl_event_id : string;
  rl_pubkey : string;
  rl_created_at : Z;
  rl_relays : list string;
}.

(** Whether an [r] tag's marker claims the instance publishes there. *)
Definition writes_to (marker : option string) : bool :=
  is_none_or (λ marker, bool_decide (marker = WRITE)) marker.

Section parser.
Context `{External}.

(** One round of the loop over the [r] tags: the relays seen and the relays
    kept. *)
Definition relay_step (st : gset string * list string) (values : list string) :
    gset string * list string :=
  let '(seen, relays) := st in
  match head values with
  | None => (seen, relays)
  | Some url =>
      if negb (writes_to (values !! 1%nat)) then (seen, relays)
      else match relay_url url with
           | None => (seen, relays)
           | Some url =>
               if decide (url ∈ seen) then (seen, relays)
               else ({[url]} ∪ seen, relays ++ [url])
           end
  end.

Definition parse (event : Event) : Parsing RelayList :=
  _ ← expect_kind event KIND;
  let '(_, relays) := foldl relay_step (∅, []) (repeated_tag_values event "r") in
  Ok {|
    rl_event_id := ev_id event;
    rl_pubkey := ev_pubkey event;
    rl_created_at := as_i64 (ev_created_at event);
    rl_relays := relays;
  |}.
End parser.
