(* ===== verification/ParseRates.v ===== *)
(** * Kind 30078: exchange rate snapshots

    [src/ingest/parse/rates.rs]. The content is JSON; the reader walks its
    members and refuses one that appears twice. *)

From S2P Require Import Prelude F64 Event Parse.

#[local] Open Scope Z_scope.

Definition KIND : Z := 30078.
Definition MAX_CLOCK_DIVERGENCE_SECS : Z := 600.
Definition IDENTIFIER : string := "mostro-rates".

(** [rates] is a [BTreeMap<String, f64>]. *)
Record RateSnapshot : Type := mkRateSnapshot {
  rs_event_id : string;
  rs_pubkey : string;
  rs_published_at : Z;
  rs_source : option string;
  rs_rates : gmap string f64;
}.

Definition is_ascii_uppercase (a : ascii) : bool := bool_decide (65 ≤ N_of_ascii a ≤ 90)%N.

Definition canonical_code (code : string) : Parsing string :=
  if bool_decide (String.length code = 3%nat) && forall_char is_ascii_uppercase code then Ok code
  else Err (InvalidContent ("`" +:+ code +:+ "`: expected a three-letter uppercase currency code")).

(** The subtraction is of two non-negative [i64]s; see [near_no_overflow]. *)
Definition near (created_at published_at : Z) : Parsing Z :=
  if decide (Z.abs (published_at - created_at) > MAX_CLOCK_DIVERGENCE_SECS)
  then Err (OutOfRange "published_at" (pretty published_at)
    "a time within ten minutes of the event's own clock")
  else Ok published_at.

Definition signed_at (event : Event) : Parsing Z :=
  ok_or (i64_try_from (ev_created_at event))
    (OutOfRange "created_at" (pretty (ev_created_at event))
      "a unix timestamp that fits a signed 64-bit second count").

(** [UniqueTable::visit_map]: an object in which no member appears twice. *)
Fixpoint unique_table (members : list (string * Json)) (table : gmap string Json) :
    Result string (gmap string Json) :=
  match members with
  | [] => Ok table
  | (code, price) :: members =>
      match table !! code with
      | Some _ => Err ("`" +:+ code +:+ "` appears more than once")
      | None => unique_table members (<[code := price]> table)
      end
  end.

(** [Content::visit_map]: the [BTC] table, every other member skipped. *)
Fixpoint content_members (members : list (string * Json)) (seen : gset string)
    (btc : option (gmap string Json)) : Result string (option (gmap string Json)) :=
  match members with
  | [] => Ok btc
  | (key, value) :: members =>
      if decide (key ∈ seen) then Err ("`" +:+ key +:+ "` appears more than once")
      else
        let seen := {[key]} ∪ seen in
        if decide (key = "BTC") then
          match value with
          | JObject table =>
              table ← unique_table table ∅;
              content_members members seen (Some table)
          | _ => Err "expected `BTC` to be an object of currency → price"
          end
        else content_members members seen btc
  end.

Definition read_content (json : Json) : Result string (option (gmap string Json)) :=
  match json with
  | JObject members => content_members members ∅ None
  | _ => Err "expected an object with a `BTC` table of currency → price"
  end.

Section parser.
Context `{External}.

(** One entry of the loop over the table. *)
Definition rate_entry (rates : gmap string f64) (entry : string * Json) : Parsing (gmap string f64) :=
  let '(code, price) := entry in
  let invalid := InvalidContent ("`" +:+ code +:+ "` = " +:+ json_print price +:+ ": expected a positive number") in
  price ← ok_or (match price with
                 | JNumber x => if is_finite x && f64_gt x (f64_of_Z 0) then Some x else None
                 | _ => None
                 end) invalid;
  code ← canonical_code code;
  Ok (<[code := price]> rates).

Fixpoint rate_entries (rates : gmap string f64) (entries : list (string * Json)) :
    Parsing (gmap string f64) :=
  match entries with
  | [] => Ok rates
  | entry :: entries => rates ← rate_entry rates entry; rate_entries rates entries
  end.

Definition parse_content (content : string) : Parsing (gmap string f64) :=
  json ← map_err (λ e, InvalidContent ("not JSON: " +:+ e)) (json_parse content);
  parsed ← map_err InvalidContent (read_content json);
  table ← ok_or parsed (InvalidContent "no `BTC` object");
  rates ← rate_entries ∅ (btree_iter table);
  if decide (rates = ∅) then Err (InvalidContent "`BTC` names no currency") else Ok rates.

Definition parse (event : Event) : Parsing RateSnapshot :=
  _ ← expect_kind event KIND;
  identifier ← required event "d";
  if decide (identifier ≠ IDENTIFIER) then Err (UnknownValue "d" identifier "`mostro-rates`")
  else
    created_at ← signed_at event;
    claimed ← optional event "published_at";
    published_at ←
      match claimed with
      | Some value =>
          claimed ← number i64_from_str "published_at" value "a unix timestamp";
          claimed ← non_negative_i64 "published_at" claimed "a unix timestamp";
          near created_at claimed
      | None => Ok created_at
      end;
    source ← optional event "source";
    rates ← parse_content (ev_content event);
    Ok {|
      rs_event_id := ev_id event;
      rs_pubkey := ev_pubkey event;
      rs_published_at := published_at;
      rs_source := source;
      rs_rates := rates;
    |}.
End parser.
