(* ===== verification/Db.v ===== *)
(** * The archive

    [migrations/*.sql]: one row type per table, with the columns as SQLite
    holds them before the repositories restore the enums, and the database
    as one finite map per table, keyed by its primary key. [NULL] is [None];
    a column with a [NOT NULL] constraint is not an option.

    [foreign_keys] is on ([db::connect]): a version row whose [event_id] is
    not in [events] is an error, which [INSERT OR IGNORE] does not ignore. *)

From S2P Require Import Prelude F64 Event Parse.

#[local] Open Scope Z_scope.

(** What the database layer can answer besides a value. *)
Inductive SqlError : Type :=
| ForeignKey (table : string)
| ColumnDecode (index : string)
| DecodeError (message : string)
| Protocol (message : string).

Abbreviation Sql := (Result SqlError).

(** [repo::decode]: a stored text that does not convert is a decode error. *)
Definition decode_column {E A} (column : string) (value : Result E A) : Sql A :=
  map_err (λ _, ColumnDecode column) value.

Record EventRecord : Type := mkEventRecord {
  er_id : string; er_pubkey : string; er_kind : Z; er_created_at : Z;
  er_d_tag : option string; er_raw_json : string; er_relay_url : string; er_seen_at : Z;
}.

Record Instance : Type := mkInstance {
  inst_pubkey : string; inst_name : option string; inst_name_seen_at : option Z;
  inst_first_seen_at : Z; inst_last_seen_at : Z;
}.

Record InfoRow : Type := mkInfoRow {
  ir_event_id : string; ir_pubkey : string; ir_created_at : Z; ir_fee : option f64;
  ir_max_order_amount : option Z; ir_min_order_amount : option Z;
  ir_fiat_currencies : option string; ir_mostro_version : option string;
  ir_protocol_version : option string; ir_ln_networks : option string;
  ir_bond_enabled : option Z;
}.

Record VersionRow : Type := mkVersionRow {
  vr_event_id : string; vr_order_id : string; vr_pubkey : string; vr_created_at : Z;
  vr_kind : string; vr_status : string; vr_fiat_code : string; vr_amount_sats : Z;
  vr_fiat_amount : option f64; vr_fiat_min : option f64; vr_fiat_max : option f64;
  vr_payment_methods : string; vr_premium : f64; vr_network : option string;
  vr_expires_at : Z; vr_order_created_at : option Z;
}.

Record OrderRow : Type := mkOrderRow {
  or_order_id : string; or_pubkey : string; or_first_seen_at : Z; or_last_updated_at : Z;
  or_final_status : string; or_kind : string; or_fiat_code : string; or_amount_sats : Z;
  or_fiat_amount : option f64; or_payment_methods : string; or_premium : f64;
  or_network : option string; or_success_at : option Z; or_canceled_at : option Z;
  or_order_created_at : option Z;
}.

Record FeeRow : Type := mkFeeRow {
  fr_event_id : string; fr_pubkey : string; fr_order_id : string; fr_amount_sats : Z;
  fr_payment_hash : string; fr_destination : option string; fr_network : option string;
  fr_created_at : Z; fr_is_duplicate : Z;
}.

Record DisputeVersionRow : Type := mkDisputeVersionRow {
  dvr_event_id : string; dvr_dispute_id : string; dvr_pubkey : string; dvr_created_at : Z;
  dvr_status : string; dvr_initiator : option string; dvr_opened_at : option Z;
}.

Record DisputeRow : Type := mkDisputeRow {
  dr_dispute_id : string; dr_pubkey : string; dr_opened_at : option Z;
  dr_last_updated_at : Z; dr_final_status : string; dr_initiator : option string;
}.

Record RateRow : Type := mkRateRow {
  rr_event_id : string; rr_pubkey : string; rr_published_at : Z;
  rr_source : option string; rr_rates_json : string;
}.

Record RelayRow : Type := mkRelayRow {
  rly_url : string; rly_source : string; rly_first_seen_at : Z;
}.

Record Cursor : Type := mkCursor {
  cur_relay_url : string; cur_kind : Z; cur_last_created_at : Z; cur_updated_at : Z;
}.

Record KindRow : Type := mkKindRow {
  kr_kind : Z; kr_indexed_from : Z; kr_updated_at : Z;
}.

Record Db : Type := mkDb {
  events : gmap string EventRecord;
  instances : gmap string Instance;
  instance_names : gmap (string * string) Z;
  instance_info : gmap string InfoRow;
  order_versions : gmap string VersionRow;
  orders : gmap string OrderRow;
  dev_fees : gmap string FeeRow;
  dispute_versions : gmap string DisputeVersionRow;
  disputes : gmap string DisputeRow;
  rates : gmap string RateRow;
  relays : gmap string RelayRow;
  sync_state : gmap (string * Z) Cursor;
  indexed_kinds : gmap Z KindRow;
}.

Definition empty_db : Db := mkDb ∅ ∅ ∅ ∅ ∅ ∅ ∅ ∅ ∅ ∅ ∅ ∅ ∅.

(** A write touches one table and leaves the others. *)
Definition set_events (f : gmap string EventRecord → gmap string EventRecord) (db : Db) : Db :=
  mkDb (f (db.(events))) db.(instances) db.(instance_names) db.(instance_info) db.(order_versions) db.(orders) db.(dev_fees) db.(dispute_versions) db.(disputes) db.(rates) db.(relays) db.(sync_state) db.(indexed_kinds).
Definition set_instances (f : gmap string Instance → gmap string Instance) (db : Db) : Db :=
  mkDb db.(events) (f (db.(instances))) db.(instance_names) db.(instance_info) db.(order_versions) db.(orders) db.(dev_fees) db.(dispute_versions) db.(disputes) db.(rates) db.(relays) db.(sync_state) db.(indexed_kinds).
Definition set_instance_names (f : gmap (string * string) Z → gmap (string * string) Z) (db : Db) : Db :=
  mkDb db.(events) db.(instances) (f (db.(instance_names))) db.(instance_info) db.(order_versions) db.(orders) db.(dev_fees) db.(dispute_versions) db.(disputes) db.(rates) db.(relays) db.(sync_state) db.(indexed_kinds).
Definition set_instance_info (f : gmap string InfoRow → gmap string InfoRow) (db : Db) : Db :=
  mkDb db.(events) db.(instances) db.(instance_names) (f (db.(instance_info))) db.(order_versions) db.(orders) db.(dev_fees) db.(dispute_versions) db.(disputes) db.(rates) db.(relays) db.(sync_state) db.(indexed_kinds).
Definition set_order_versions (f : gmap string VersionRow → gmap string VersionRow) (db : Db) : Db :=
  mkDb db.(events) db.(instances) db.(instance_names) db.(instance_info) (f (db.(order_versions))) db.(orders) db.(dev_fees) db.(dispute_versions) db.(disputes) db.(rates) db.(relays) db.(sync_state) db.(indexed_kinds).
Definition set_orders (f : gmap string OrderRow → gmap string OrderRow) (db : Db) : Db :=
  mkDb db.(events) db.(instances) db.(instance_names) db.(instance_info) db.(order_versions) (f (db.(orders))) db.(dev_fees) db.(dispute_versions) db.(disputes) db.(rates) db.(relays) db.(sync_state) db.(indexed_kinds).
Definition set_dev_fees (f : gmap string FeeRow → gmap string FeeRow) (db : Db) : Db :=
  mkDb db.(events) db.(instances) db.(instance_names) db.(instance_info) db.(order_versions) db.(orders) (f (db.(dev_fees))) db.(dispute_versions) db.(disputes) db.(rates) db.(relays) db.(sync_state) db.(indexed_kinds).
Definition set_dispute_versions (f : gmap string DisputeVersionRow → gmap string DisputeVersionRow) (db : Db) : Db :=
  mkDb db.(events) db.(instances) db.(instance_names) db.(instance_info) db.(order_versions) db.(orders) db.(dev_fees) (f (db.(dispute_versions))) db.(disputes) db.(rates) db.(relays) db.(sync_state) db.(indexed_kinds).
Definition set_disputes (f : gmap string DisputeRow → gmap string DisputeRow) (db : Db) : Db :=
  mkDb db.(events) db.(instances) db.(instance_names) db.(instance_info) db.(order_versions) db.(orders) db.(dev_fees) db.(dispute_versions) (f (db.(disputes))) db.(rates) db.(relays) db.(sync_state) db.(indexed_kinds).
Definition set_rates (f : gmap string RateRow → gmap string RateRow) (db : Db) : Db :=
  mkDb db.(events) db.(instances) db.(instance_names) db.(instance_info) db.(order_versions) db.(orders) db.(dev_fees) db.(dispute_versions) db.(disputes) (f (db.(rates))) db.(relays) db.(sync_state) db.(indexed_kinds).
Definition set_relays (f : gmap string RelayRow → gmap string RelayRow) (db : Db) : Db :=
  mkDb db.(events) db.(instances) db.(instance_names) db.(instance_info) db.(order_versions) db.(orders) db.(dev_fees) db.(dispute_versions) db.(disputes) db.(rates) (f (db.(relays))) db.(sync_state) db.(indexed_kinds).
Definition set_sync_state (f : gmap (string * Z) Cursor → gmap (string * Z) Cursor) (db : Db) : Db :=
  mkDb db.(events) db.(instances) db.(instance_names) db.(instance_info) db.(order_versions) db.(orders) db.(dev_fees) db.(dispute_versions) db.(disputes) db.(rates) db.(relays) (f (db.(sync_state))) db.(indexed_kinds).
Definition set_indexed_kinds (f : gmap Z KindRow → gmap Z KindRow) (db : Db) : Db :=
  mkDb db.(events) db.(instances) db.(instance_names) db.(instance_info) db.(order_versions) db.(orders) db.(dev_fees) db.(dispute_versions) db.(disputes) db.(rates) db.(relays) db.(sync_state) (f (db.(indexed_kinds))).

(** ** Tables of published versions

    The tables whose primary key is an event id [REFERENCES events(id)]. A
    repository writes one with [INSERT OR IGNORE]: a known key keeps its row,
    a row with a NULL bound to a [NOT NULL] column ([None]) is skipped, and a
    key that names no archived event is the error foreign keys raise. *)

Class EventTable (R : Type) := {
  table : Db → gmap string R;
  set_table : (gmap string R → gmap string R) → Db → Db;
  table_name : string;
}.

Class EventTableLaws (R : Type) `{!EventTable R} := {
  table_set f db : table (set_table f db) = f (table db);
  events_set_table f db : events (set_table f db) = events db;
  set_table_ext f g db : f (table db) = g (table db) → set_table f db = set_table g db;
  set_table_id db : set_table id db = db;
}.

Section event_table.
Context {R : Type} `{!EventTable R}.

Definition insert_row (event_id : string) (row : option R) (db : Db) : Sql Db :=
  match row with
  | None => Ok db
  | Some row =>
      match table db !! event_id with
      | Some _ => Ok db
      | None =>
          match events db !! event_id with
          | None => Err (ForeignKey table_name)
          | Some _ => Ok (set_table (insert event_id row) db)
          end
      end
  end.

(** When the insert succeeds, and the table it leaves. *)
Definition refers (event_id : string) (row : option R) (db : Db) : Prop :=
  row = None ∨ is_Some (table db !! event_id) ∨ is_Some (events db !! event_id).

Definition put (event_id : string) (row : option R) (t : gmap string R) : gmap string R :=
  match row with Some row => insert_or_ignore event_id row t | None => t end.

Lemma set_table_same `{!EventTableLaws R} f db : f (table db) = table db → set_table f db = db.
Proof. intros Hf. rewrite <- (set_table_id db) at 2. by apply set_table_ext. Qed.

Lemma insert_row_Ok `{!EventTableLaws R} event_id row db db' :
  insert_row event_id row db = Ok db' ↔
    refers event_id row db ∧ db' = set_table (put event_id row) db.
Proof.
  assert (Hsame : ∀ (P : Prop), P → set_table (put event_id row) db = db →
    (Ok db : Sql Db) = Ok db' ↔ P ∧ db' = set_table (put event_id row) db).
  { intros P HP ->. naive_solver. }
  unfold insert_row, refers. destruct row as [row|]; [|apply Hsame; [auto|by apply set_table_same]].
  destruct (table db !! event_id) eqn:Ht.
  { apply Hsame; [eauto|]. apply set_table_same. cbn. unfold insert_or_ignore. by rewrite Ht. }
  destruct (events db !! event_id) eqn:He; [|naive_solver].
  assert (set_table (put event_id (Some row)) db = set_table (insert event_id row) db) as ->;
    [|naive_solver].
  apply set_table_ext. cbn. unfold insert_or_ignore. by rewrite Ht.
Qed.
End event_table.

(** The five tables. *)
#[export] Instance order_versions_table : EventTable VersionRow :=
  {| table := order_versions; set_table := set_order_versions; table_name := "order_versions" |}.
#[export] Instance dispute_versions_table : EventTable DisputeVersionRow :=
  {| table := dispute_versions; set_table := set_dispute_versions; table_name := "dispute_versions" |}.
#[export] Instance dev_fees_table : EventTable FeeRow :=
  {| table := dev_fees; set_table := set_dev_fees; table_name := "dev_fees" |}.
#[export] Instance instance_info_table : EventTable InfoRow :=
  {| table := instance_info; set_table := set_instance_info; table_name := "instance_info" |}.
#[export] Instance rates_table : EventTable RateRow :=
  {| table := rates; set_table := set_rates; table_name := "rates" |}.

Ltac table_laws :=
  split; [done|done| |by intros []];
  intros ?? []; cbn; unfold set_order_versions, set_dispute_versions, set_dev_fees,
    set_instance_info, set_rates; cbn; by intros ->.

#[export] Instance order_versions_laws : EventTableLaws VersionRow.
Proof. table_laws. Qed.
#[export] Instance dispute_versions_laws : EventTableLaws DisputeVersionRow.
Proof. table_laws. Qed.
#[export] Instance dev_fees_laws : EventTableLaws FeeRow.
Proof. table_laws. Qed.
#[export] Instance instance_info_laws : EventTableLaws InfoRow.
Proof. table_laws. Qed.
#[export] Instance rates_laws : EventTableLaws RateRow.
Proof. table_laws. Qed.
