(* ===== verification/Versioned.v ===== *)
(** * Append-only versions and the projection recomputed from them

    What [src/db/repo/orders.rs] and [src/db/repo/disputes.rs] share: a table
    of published versions that is only ever inserted into, and a projection
    that is recomputed from every stored version of a group after each
    insert. [Versioned] is the interface, [VersionedLaws] what a repository
    promises, and the section proves what follows for any repository that
    keeps the promise: storing succeeds exactly when the versions' events are
    archived, the projection is always the function of the versions, and the
    archive does not depend on the order versions arrive in. *)

From S2P Require Import Prelude Event Db.

#[local] Open Scope Z_scope.

(** A parsed version [V], its stored row [R], the projected row [P]. *)
Class Versioned (V R P : Type) `{!EventTable R} := {
  version_id : V → string;
  version_group : V → string;
  row_of : V → option R;
  row_id : R → string;
  row_group : R → string;
  (** The SELECT behind the projection, over the versions of one group. *)
  project_rows : list R → option P;
  projection : Db → gmap string P;
  set_projection : (gmap string P → gmap string P) → Db → Db;
  refresh : Db → string → Db;
}.

Section operations.
Context {V R P : Type} `{!EventTable R, !Versioned V R P}.

(** The versions of one group, in no particular order. *)
Definition group_rows (t : gmap string R) (g : string) : list R :=
  filter (λ r, row_group r = g) (rows t).

(** Everything but the two tables. *)
Definition frame (db : Db) : Db := set_projection (λ _, ∅) (set_table (λ _, ∅) db).

(** How the pipeline stores a version: insert, then refresh its group. *)
Definition store (db : Db) (v : V) : Sql Db :=
  db ← insert_row (version_id v) (row_of v) db;
  Ok (refresh db (version_group v)).

Fixpoint store_all (db : Db) (vs : list V) : Sql Db :=
  match vs with
  | [] => Ok db
  | v :: vs => db ← store db v; store_all db vs
  end.

(** Every row is filed under its primary key. *)
Definition keyed (t : gmap string R) : Prop := ∀ k r, t !! k = Some r → row_id r = k.

(** The projection is what its query computes from the versions. *)
Definition projected (db : Db) : Prop :=
  keyed (table db) ∧ ∀ g, projection db !! g = project_rows (group_rows (table db) g).

(** Two versions of one event are one version: the id is a hash of the event. *)
Definition same_id_same_version (vs : list V) : Prop :=
  ∀ v w, v ∈ vs → w ∈ vs → version_id v = version_id w → v = w.
End operations.

Class VersionedLaws (V R P : Type) `{!EventTable R, !Versioned V R P} := {
  versioned_table :: EventTableLaws R;
  row_of_id v r : row_of v = Some r → row_id r = version_id v ∧ row_group r = version_group v;
  project_rows_perm vs vs' :
    (∀ x y, x ∈ vs → y ∈ vs → row_id x = row_id y → x = y) →
    vs ≡ₚ vs' → project_rows vs = project_rows vs';
  project_rows_Some vs : vs ≠ [] → is_Some (project_rows vs);
  project_rows_nil : project_rows [] = None;
  refresh_table db g : table (refresh db g) = table db;
  refresh_projection_lookup db g g' :
    projection (refresh db g) !! g' =
      if decide (g = g') then
        or_else (project_rows (group_rows (table db) g)) (projection db !! g')
      else projection db !! g';
  refresh_frame db g : frame (refresh db g) = frame db;
  projection_set_table f db : projection (set_table f db) = projection db;
  frame_set_table f db : frame (set_table f db) = frame db;
  frame_events db : events (frame db) = events db;
  frame_ext db db' :
    table db = table db' → projection db = projection db' → frame db = frame db' → db = db';
}.

Section theory.
Context {V R P : Type} `{!EventTable R, !Versioned V R P, !VersionedLaws V R P}.
Implicit Types (db : Db) (v w : V) (vs : list V) (t : gmap string R) (g : string).

Lemma elem_of_group_rows t g r : r ∈ group_rows t g ↔ row_group r = g ∧ ∃ k, t !! k = Some r.
Proof. unfold group_rows. by rewrite list_elem_of_filter, elem_of_rows. Qed.

Lemma projected_empty db : table db = ∅ → projection db = ∅ → projected db.
Proof.
  intros Ht Hp. unfold projected. rewrite Ht, Hp. split; [by intros ???|].
  intros g. unfold group_rows, rows. rewrite map_to_list_empty. cbn. by rewrite project_rows_nil.
Qed.

Lemma NoDup_same_id_same_version vs : NoDup (version_id <$> vs) → same_id_same_version vs.
Proof. intros Hnd v w. by apply NoDup_fmap_inj. Qed.

Lemma keyed_inj t g x y :
  keyed t → x ∈ group_rows t g → y ∈ group_rows t g → row_id x = row_id y → x = y.
Proof.
  intros Ht (_ & k & Hk)%elem_of_group_rows (_ & k' & Hk')%elem_of_group_rows Heq.
  rewrite (Ht _ _ Hk), (Ht _ _ Hk') in Heq. naive_solver.
Qed.

Lemma group_rows_insert t k r g :
  t !! k = None →
  group_rows (<[k := r]> t) g ≡ₚ
    if decide (row_group r = g) then r :: group_rows t g else group_rows t g.
Proof.
  intros Hk. unfold group_rows. rewrite rows_insert by done.
  rewrite filter_cons. by case_decide.
Qed.

Lemma project_group_insert_other t k r g :
  keyed t → t !! k = None → row_group r ≠ g →
  project_rows (group_rows (<[k := r]> t) g) = project_rows (group_rows t g).
Proof.
  intros Ht Hk Hne. symmetry. apply project_rows_perm.
  - intros x y. by apply keyed_inj.
  - by rewrite group_rows_insert, decide_False.
Qed.

Lemma keyed_put t v : keyed t → keyed (put (version_id v) (row_of v) t).
Proof.
  intros Ht. unfold put. destruct (row_of v) as [row|] eqn:Hrow; [|done].
  intros k r. rewrite insert_or_ignore_lookup. destruct (t !! k) eqn:E.
  - intros [= <-]. by apply Ht.
  - case_decide; [|done]. intros [= <-]. subst. by apply row_of_id in Hrow as [? _].
Qed.

Lemma refresh_projected db g : projected db → projected (refresh db g).
Proof.
  intros [Hk Hp]. split; [by rewrite refresh_table|].
  intros g'. rewrite refresh_projection_lookup, refresh_table.
  case_decide; subst; [|done]. rewrite Hp. by destruct (project_rows _).
Qed.

Lemma group_rows_put_other t v g :
  keyed t → version_group v ≠ g →
  project_rows (group_rows (put (version_id v) (row_of v) t) g) = project_rows (group_rows t g).
Proof.
  intros Ht Hg. unfold put. destruct (row_of v) as [row|] eqn:Hrow; [|done].
  unfold insert_or_ignore. destruct (t !! version_id v) eqn:E; [done|].
  apply row_of_id in Hrow as [_ Hgr]. apply project_group_insert_other; [done..|congruence].
Qed.

Lemma group_rows_put t v g :
  project_rows (group_rows (put (version_id v) (row_of v) t) g) = None → group_rows t g = [].
Proof.
  intros Hn. destruct (group_rows t g) as [|r l] eqn:E; [done|].
  assert (r ∈ group_rows (put (version_id v) (row_of v) t) g) as Hr.
  { assert (r ∈ group_rows t g) as (Hg & k & Hk)%elem_of_group_rows by (rewrite E; by left).
    apply elem_of_group_rows. split; [done|]. exists k. unfold put.
    destruct (row_of v); [|done]. by rewrite insert_or_ignore_lookup, Hk. }
  destruct (project_rows_Some (group_rows (put (version_id v) (row_of v) t) g)) as [? Hs].
  - intros Hnil. rewrite Hnil in Hr. by apply elem_of_nil in Hr.
  - congruence.
Qed.

(** Storing fails on the foreign key alone, adds at most one row, and
    touches nothing outside the two tables. *)
Lemma store_Ok db v db' :
  store db v = Ok db' ↔
    refers (version_id v) (row_of v) db ∧
    db' = refresh (set_table (put (version_id v) (row_of v)) db) (version_group v).
Proof.
  unfold store. rewrite bind_Ok. setoid_rewrite insert_row_Ok. naive_solver.
Qed.

Lemma store_spec db v db' :
  store db v = Ok db' →
  refers (version_id v) (row_of v) db ∧
  table db' = put (version_id v) (row_of v) (table db) ∧ frame db' = frame db.
Proof.
  intros [? ->]%store_Ok. by rewrite refresh_table, table_set, refresh_frame, frame_set_table.
Qed.

Lemma store_projected db v db' : projected db → store db v = Ok db' → projected db'.
Proof.
  intros [Hk Hp] [_ ->]%store_Ok. split.
  - rewrite refresh_table, table_set. by apply keyed_put.
  - intros g. rewrite refresh_projection_lookup, refresh_table, table_set, projection_set_table, Hp.
    case_decide as Hg; subst; [|by rewrite group_rows_put_other].
    destruct (project_rows (group_rows (put _ _ _) _)) eqn:E; [done|]. cbn.
    by rewrite (group_rows_put _ _ _ E), project_rows_nil.
Qed.

Lemma frame_eq_events db db' : frame db = frame db' → events db = events db'.
Proof. intros Hf. rewrite <- (frame_events db), <- (frame_events db'). by rewrite Hf. Qed.

Lemma refers_put db db' v w :
  refers (version_id v) (row_of v) db →
  table db' = put (version_id v) (row_of v) (table db) → events db' = events db →
  refers (version_id w) (row_of w) db' ↔ refers (version_id w) (row_of w) db.
Proof.
  unfold refers, put. intros Hv -> ->.
  destruct (row_of v) as [row|] eqn:Hr; [|done].
  rewrite insert_or_ignore_lookup. destruct (table db !! version_id w) eqn:Hw; [done|].
  case_decide as He; [|done]. rewrite <- He in *. rewrite Hw in Hv.
  split; [|naive_solver]. intros _. destruct Hv as [|[[? ?]|?]]; naive_solver.
Qed.

Definition put_version v (t : gmap string R) : gmap string R := put (version_id v) (row_of v) t.

Lemma store_all_spec db vs db' :
  store_all db vs = Ok db' →
  Forall (λ v, refers (version_id v) (row_of v) db) vs ∧
  table db' = foldr put_version (table db) (reverse vs) ∧ frame db' = frame db.
Proof.
  revert db. induction vs as [|v vs IH]; intros db Hs; cbn [store_all] in Hs.
  { injection Hs as <-. split; [by apply Forall_nil|done]. }
  inv_ok. apply IH in H0 as (Hfk & Hov & Hfr). apply store_spec in H as (Hv & Ho & Hf).
  rewrite Hov, Ho, Hfr, Hf, reverse_cons, foldr_app. split_and!; [|done..].
  constructor; [done|]. eapply Forall_impl; [exact Hfk|]. intros w Hw.
  apply (proj1 (refers_put _ _ v w Hv Ho (frame_eq_events _ _ Hf))), Hw.
Qed.

Lemma store_all_total db vs :
  Forall (λ v, refers (version_id v) (row_of v) db) vs → ∃ db', store_all db vs = Ok db'.
Proof.
  revert db. induction vs as [|v vs IH]; intros db Hall; [by eexists|].
  inversion Hall as [|?? Hv Hvs]; subst. cbn [store_all].
  destruct (store db v) as [db1|e] eqn:Hs.
  - cbn. apply IH. pose proof (store_spec _ _ _ Hs) as (? & Ho & Hf).
    eapply Forall_impl; [exact Hvs|]. intros w Hw.
    apply (proj2 (refers_put _ _ v w Hv Ho (frame_eq_events _ _ Hf))), Hw.
  - pose proof (proj2 (store_Ok db v _) (conj Hv eq_refl)). congruence.
Qed.

Lemma store_all_projected db vs db' : projected db → store_all db vs = Ok db' → projected db'.
Proof.
  revert db. induction vs as [|v vs IH]; cbn; intros db Hp Hs; [by simplify_eq|].
  inv_ok. eauto using store_projected.
Qed.

(** Two projected archives with the same versions are the same archive. *)
Lemma projected_ext db db' :
  projected db → projected db' → table db = table db' → frame db = frame db' → db = db'.
Proof.
  intros [_ Hp] [_ Hp'] Hv Hf. apply frame_ext; [done| |done].
  apply map_eq. intros g. by rewrite Hp, Hp', Hv.
Qed.

Lemma put_version_comm v w t :
  (version_id v = version_id w → v = w) →
  put_version v (put_version w t) = put_version w (put_version v t).
Proof.
  intros Hvw. unfold put_version, put.
  destruct (row_of v) eqn:Hv, (row_of w) eqn:Hw; try done.
  destruct (decide (version_id v = version_id w)) as [He|?]; [|by apply insert_or_ignore_comm].
  rewrite <- (Hvw He) in *. by simplify_eq.
Qed.

Lemma foldr_put_version_perm vs vs' t :
  same_id_same_version vs → vs ≡ₚ vs' → foldr put_version t vs = foldr put_version t vs'.
Proof.
  intros Hc Hp. induction Hp as [|v vs vs' Hp IH|v w vs|vs1 vs2 vs3 H1 IH1 H2 IH2]; cbn.
  - done.
  - rewrite IH; [done|]. intros ????. apply Hc; by constructor.
  - apply put_version_comm. intros. symmetry. apply Hc; [by do 2 constructor|by constructor|done].
  - rewrite IH1 by done. apply IH2. intros ??. rewrite <- H1. apply Hc.
Qed.

(** Every arrival order of the same versions leaves the same archive. *)
Lemma arrival_order db vs vs' db' :
  projected db → same_id_same_version vs → vs ≡ₚ vs' →
  store_all db vs = Ok db' → store_all db vs' = Ok db' ∧ projected db'.
Proof.
  intros Hdb Hc Hp Hs. pose proof (store_all_projected _ _ _ Hdb Hs) as Hp1.
  split; [|done]. apply store_all_spec in Hs as (Hfk & Ho & Hf).
  destruct (store_all_total db vs') as [db2 Hs2]; [by rewrite <- Hp|].
  rewrite Hs2. f_equal. pose proof (store_all_projected _ _ _ Hdb Hs2).
  apply store_all_spec in Hs2 as (_ & Ho2 & Hf2).
  apply projected_ext; [done..| |by rewrite Hf, Hf2].
  rewrite Ho, Ho2. apply foldr_put_version_perm; [|by rewrite !reverse_Permutation].
  intros v w. rewrite !elem_of_reverse, <- Hp. apply Hc.
Qed.
End theory.
