(* ===== verification/Samples.v ===== *)
(** * Sample events

    Concrete events of every indexed kind, which the witnesses run the model
    on, under the instance of [External] of [Event.Demo]. *)

From S2P Require Import Prelude F64 Network Event Parse.
From S2P Require ParseOrder ParseDevFee ParseDispute ParseInfo ParseRelayList ParseRates.
From S2P Require Import Db.

#[local] Open Scope Z_scope.

#[local] Existing Instance Demo.demo.
#[local] Existing Instance Demo.demo_laws.

Definition alice : string := "a11ce".
Definition order_uuid : string := "3f2504e0-4f89-41d3-9a0c-0305e82c3301".

(** Kind 38383: one version of an order, at a status and a time. *)
Definition order_event (id : string) (at_ts : Z) (status : string) : Event := {|
  ev_id := id; ev_pubkey := alice; ev_created_at := at_ts; ev_kind := ParseOrder.KIND;
  ev_tags := [["z"; "order"]; ["y"; "mostro"; "Alice's node"]; ["d"; order_uuid]; ["k"; "sell"];
    ["s"; status]; ["f"; "EUR"]; ["amt"; "50000"]; ["fa"; "10"; "20.5"]; ["pm"; "SEPA"; "Cash, in person"];
    ["premium"; "-1.5"]; ["network"; "mainnet"]; ["expires_at"; "1700086400"]; ["published_at"; "1700000000"]];
  ev_content := "" |}.

(** Kind 8383: a dev fee paid for that order. *)
Definition fee_event (id : string) (at_ts : Z) (amount : string) : Event := {|
  ev_id := id; ev_pubkey := alice; ev_created_at := at_ts; ev_kind := ParseDevFee.KIND;
  ev_tags := [["z"; "dev-fee-payment"]; ["y"; "mostro"]; ["order-id"; order_uuid];
    ["amount"; amount]; ["hash"; "c0ffee"]; ["network"; "mainnet"]];
  ev_content := "" |}.

(** Kind 38386: a version of a dispute. *)
Definition dispute_event (id : string) (at_ts : Z) (status : string) (initiator : list (list string)) : Event := {|
  ev_id := id; ev_pubkey := alice; ev_created_at := at_ts; ev_kind := ParseDispute.KIND;
  ev_tags := [["y"; "mostro"]; ["d"; "dispute-1"]; ["s"; status]] ++ initiator;
  ev_content := "" |}.

(** Kind 38385: an instance's profile. *)
Definition info_event (id : string) (at_ts : Z) (fee : string) : Event := {|
  ev_id := id; ev_pubkey := alice; ev_created_at := at_ts; ev_kind := ParseInfo.KIND;
  ev_tags := [["y"; "mostro"; "Alice's node"]; ["d"; alice]; ["fee"; fee]; ["max_order_amount"; "1000000"];
    ["bond_enabled"; "true"]];
  ev_content := "" |}.

(** Kind 10002: the relays an instance writes to. *)
Definition relay_list_event (id : string) (at_ts : Z) (urls : list string) : Event := {|
  ev_id := id; ev_pubkey := alice; ev_created_at := at_ts; ev_kind := ParseRelayList.KIND;
  ev_tags := (λ url, ["r"; url]) <$> urls;
  ev_content := "" |}.

(** Kind 30078: a snapshot of exchange rates. *)
Definition rates_event (id : string) (at_ts : Z) (table : Demo.rate_table) : Event := {|
  ev_id := id; ev_pubkey := alice; ev_created_at := at_ts; ev_kind := ParseRates.KIND;
  ev_tags := [["d"; "mostro-rates"]];
  ev_content := Demo.json_text (inr [("BTC", table)]) |}.

(** The archive row of an event. *)
Definition archived (e : Event) : EventRecord := {|
  er_id := ev_id e; er_pubkey := ev_pubkey e; er_kind := ev_kind e;
  er_created_at := as_i64 (ev_created_at e); er_d_tag := None; er_raw_json := "";
  er_relay_url := "wss://relay"; er_seen_at := 0 |}.
Definition archive_of (es : list Event) : Db :=
  set_events (λ _, list_to_map ((λ e, (ev_id e, archived e)) <$> es)) empty_db.

(** The value of a parser that succeeds. *)
Definition parsed_or {A} (default : A) (m : Parsing A) : A :=
  match m with Ok a => a | Err _ => default end.

Example every_sample_parses :
  option_is_some (ok (ParseOrder.parse (order_event "e1" 1700000100 "pending"))) = true ∧
  option_is_some (ok (ParseDevFee.parse (fee_event "f1" 1700000200 "50"))) = true ∧
  option_is_some (ok (ParseDispute.parse (dispute_event "d1" 1700000300 "settled" [["initiator"; "buyer"]]))) = true ∧
  option_is_some (ok (ParseInfo.parse (info_event "i1" 1700000400 "0.006"))) = true ∧
  option_is_some (ok (ParseRelayList.parse (relay_list_event "r1" 1700000500 ["wss://a/"; "ws://b"]))) = true ∧
  option_is_some (ok (ParseRates.parse (rates_event "x1" 1700000600 [("EUR", f64_of_Z 60000)]))) = true.
Proof. vm_compute. repeat split. Qed.
