(* ===== verification/RepoOrders.v ===== *)
(** * The order tables

    [src/db/repo/orders.rs]: the append-only [order_versions], the [orders]
    projection recomputed from it, and the decoding of both. *)

From S2P Require Import Prelude F64 Csv Network Event Parse ParseOrder Db Versioned Samples.

#[local] Open Scope Z_scope.

(** One row of [orders], with its enums restored. *)
Record Order : Type := mkOrder {
  ord_order_id : string;
  ord_pubkey : string;
  ord_first_seen_at : Z;
  ord_last_updated_at : Z;
  ord_final_status : Status;
  ord_direction : Direction;
  ord_fiat_code : string;
  ord_amount_sats : Z;
  ord_fiat_amount : option f64;
  ord_payment_methods : list string;
  ord_premium : f64;
  ord_network : option Network;
  ord_success_at : option Z;
  ord_canceled_at : option Z;
  ord_order_created_at : option Z;
}.

(** The row [insert_version] binds; [None] when a [NOT NULL] column would be
    bound to NULL, which [OR IGNORE] skips. *)
Definition version_row (v : OrderVersion) : option VersionRow :=
  premium ← bind_real (ov_premium v);
  let '(fiat_amount, fiat_min, fiat_max) :=
    match ov_fiat v with
    | Fixed amount => (bind_real amount, None, None)
    | Range min max => (None, bind_real min, bind_real max)
    end in
  Some {|
    vr_event_id := ov_event_id v;
    vr_order_id := ov_order_id v;
    vr_pubkey := ov_pubkey v;
    vr_created_at := ov_created_at v;
    vr_kind := direction_as_str (ov_direction v);
    vr_status := status_as_str (ov_status v);
    vr_fiat_code := ov_fiat_code v;
    vr_amount_sats := ov_amount_sats v;
    vr_fiat_amount := fiat_amount;
    vr_fiat_min := fiat_min;
    vr_fiat_max := fiat_max;
    vr_payment_methods := Csv.join (ov_payment_methods v);
    vr_premium := premium;
    vr_network := as_str <$> ov_network v;
    vr_expires_at := ov_expires_at v;
    vr_order_created_at := ov_order_created_at v;
  |}.

(** [INSERT OR IGNORE INTO order_versions]. *)
Definition insert_version (db : Db) (v : OrderVersion) : Sql Db :=
  insert_row (ov_event_id v) (version_row v) db.

(** [FROM order_versions WHERE order_id = ?1]. *)
Definition versions_of (t : gmap string VersionRow) (order_id : string) : list VersionRow :=
  filter (λ r, vr_order_id r = order_id) (rows t).

(** [ORDER BY created_at, event_id] and [ORDER BY created_at DESC, event_id ASC]. *)
Definition oldest_first (r : VersionRow) : Z * string := (vr_created_at r, vr_event_id r).
Definition newest_first (r : VersionRow) : Z * string := (- vr_created_at r, vr_event_id r).

(** [MIN(CASE WHEN status = s THEN created_at END)]. *)
Definition first_reached (s : string) (vs : list VersionRow) : option Z :=
  sql_min ((λ r, if decide (vr_status r = s) then Some (vr_created_at r) else None) <$> vs).

(** The SELECT of [refresh_projection] over the versions of one order:
    [latest] joined with [span]. *)
Definition project_of (vs : list VersionRow) : option OrderRow :=
  latest ← first_by newest_first vs;
  first_seen_at ← sql_min ((λ r, Some (vr_created_at r)) <$> vs);
  last_updated_at ← sql_max ((λ r, Some (vr_created_at r)) <$> vs);
  Some {|
    or_order_id := vr_order_id latest;
    or_pubkey := vr_pubkey latest;
    or_first_seen_at := first_seen_at;
    or_last_updated_at := last_updated_at;
    or_final_status := vr_status latest;
    or_kind := vr_kind latest;
    or_fiat_code := vr_fiat_code latest;
    or_amount_sats := vr_amount_sats latest;
    or_fiat_amount := vr_fiat_amount latest;
    or_payment_methods := vr_payment_methods latest;
    or_premium := vr_premium latest;
    or_network := vr_network latest;
    or_success_at := first_reached "success" vs;
    or_canceled_at := first_reached "canceled" vs;
    or_order_created_at := sql_min (vr_order_created_at <$> vs);
  |}.

Definition project (t : gmap string VersionRow) (order_id : string) : option OrderRow :=
  project_of (versions_of t order_id).

(** The upsert replaces every column of a row that exists; a SELECT of
    nothing upserts nothing. *)
Definition refresh_projection (db : Db) (order_id : string) : Db :=
  match project (order_versions db) order_id with
  | Some row => set_orders (insert (or_order_id row) row) db
  | None => db
  end.

(** The stored [network], if the column is not NULL. *)
Definition optional_network (stored : option string) : Result string (option Network) :=
  match stored with
  | None => Ok None
  | Some wire => Some <$> ok_or (from_wire wire) ("`" +:+ wire +:+ "` is not a network")
  end.

(** [OrderRow::into_order]. *)
Definition into_order (r : OrderRow) : Sql Order :=
  final_status ← decode_column "final_status" (status_parse (or_final_status r));
  direction ← decode_column "kind" (direction_parse (or_kind r));
  network ← decode_column "network" (optional_network (or_network r));
  Ok {|
    ord_order_id := or_order_id r;
    ord_pubkey := or_pubkey r;
    ord_first_seen_at := or_first_seen_at r;
    ord_last_updated_at := or_last_updated_at r;
    ord_final_status := final_status;
    ord_direction := direction;
    ord_fiat_code := or_fiat_code r;
    ord_amount_sats := or_amount_sats r;
    ord_fiat_amount := or_fiat_amount r;
    ord_payment_methods := Csv.split (or_payment_methods r);
    ord_premium := or_premium r;
    ord_network := network;
    ord_success_at := or_success_at r;
    ord_canceled_at := or_canceled_at r;
    ord_order_created_at := or_order_created_at r;
  |}.

(** [VersionRow::into_version]. *)
Definition into_version (r : VersionRow) : Sql OrderVersion :=
  fiat ←
    match vr_fiat_amount r, vr_fiat_min r, vr_fiat_max r with
    | Some amount, _, _ => Ok (Fixed amount)
    | None, Some min, Some max => Ok (Range min max)
    | None, _, _ => Err (DecodeError "an order version has neither a fiat amount nor a range")
    end;
  direction ← decode_column "kind" (direction_parse (vr_kind r));
  status ← decode_column "status" (status_parse (vr_status r));
  network ← decode_column "network" (optional_network (vr_network r));
  Ok {|
    ov_event_id := vr_event_id r;
    ov_order_id := vr_order_id r;
    ov_pubkey := vr_pubkey r;
    ov_created_at := vr_created_at r;
    ov_direction := direction;
    ov_status := status;
    ov_fiat_code := vr_fiat_code r;
    ov_amount_sats := vr_amount_sats r;
    ov_fiat := fiat;
    ov_payment_methods := Csv.split (vr_payment_methods r);
    ov_premium := vr_premium r;
    ov_network := network;
    ov_expires_at := vr_expires_at r;
    ov_order_created_at := vr_order_created_at r;
  |}.

(** The projected order, if any version of it has been seen. *)
Definition find (db : Db) (order_id : string) : Sql (option Order) :=
  transpose (into_order <$> orders db !! order_id).

(** Every stored version of an order, oldest first. *)
Definition versions (db : Db) (order_id : string) : Sql (list OrderVersion) :=
  collect (into_version <$> order_by oldest_first (versions_of (order_versions db) order_id)).

(** [SELECT DISTINCT order_id FROM order_versions ORDER BY order_id]. *)
Definition ids (db : Db) : list string :=
  distinct (vr_order_id <$> rows (order_versions db)).

Definition clear_projection : Db → Db := set_orders (λ _, ∅).
Definition clear_versions : Db → Db := set_order_versions (λ _, ∅).

(** ** The order tables are versioned *)

#[export] Instance orders_versioned : Versioned OrderVersion VersionRow OrderRow := {|
  version_id := ov_event_id;
  version_group := ov_order_id;
  row_of := version_row;
  row_id := vr_event_id;
  row_group := vr_order_id;
  project_rows := project_of;
  projection := orders;
  set_projection := set_orders;
  refresh := refresh_projection;
|}.

Lemma version_row_Some v row :
  version_row v = Some row → vr_event_id row = ov_event_id v ∧ vr_order_id row = ov_order_id v ∧
    vr_pubkey row = ov_pubkey v ∧ vr_created_at row = ov_created_at v ∧
    vr_status row = status_as_str (ov_status v).
Proof.
  unfold version_row. destruct (bind_real _); cbn; [|done].
  destruct (ov_fiat v); intros [= <-]; done.
Qed.

Lemma order_project_of_perm vs vs' :
  (∀ x y, x ∈ vs → y ∈ vs → vr_event_id x = vr_event_id y → x = y) →
  vs ≡ₚ vs' → project_of vs = project_of vs'.
Proof.
  intros Hinj Hp. unfold project_of, first_reached.
  rewrite (first_by_canonical newest_first vs vs'); [|intros x y ?? [= _ ?]; auto|done].
  assert (∀ f : VersionRow → option Z, sql_min (f <$> vs) = sql_min (f <$> vs')) as Hmin
    by (intros f; by rewrite Hp).
  assert (∀ f : VersionRow → option Z, sql_max (f <$> vs) = sql_max (f <$> vs')) as Hmax
    by (intros f; by rewrite Hp).
  by rewrite !Hmin, !Hmax.
Qed.

Lemma order_project_of_Some vs : vs ≠ [] → is_Some (project_of vs).
Proof.
  destruct vs as [|v vs]; [done|]. intros _. unfold project_of.
  destruct (first_by newest_first (v :: vs)) eqn:E; [|by apply first_by_None in E].
  cbn [mbind option_bind].
  destruct (sql_min_le ((λ r, Some (vr_created_at r)) <$> v :: vs) (vr_created_at v)) as (? & -> & _);
    [by constructor|].
  destruct (sql_max_ge ((λ r, Some (vr_created_at r)) <$> v :: vs) (vr_created_at v)) as (? & -> & _);
    [by constructor|].
  by eexists.
Qed.

Lemma project_order_id t oid row : project t oid = Some row → or_order_id row = oid.
Proof.
  intros (latest & E & (? & _ & (? & _ & [= <-])%bind_Some)%bind_Some)%bind_Some.
  by apply first_by_Some in E as [[Hl _]%list_elem_of_filter _].
Qed.

#[export] Instance orders_versioned_laws : VersionedLaws OrderVersion VersionRow OrderRow.
Proof.
  split; cbn; try done.
  - apply _.
  - intros v r (? & ? & _)%version_row_Some. done.
  - apply order_project_of_perm.
  - apply order_project_of_Some.
  - intros db g. unfold refresh_projection. by case_match.
  - intros db g g'. unfold refresh_projection, project, versions_of, group_rows. cbn.
    destruct (project_of _) as [row|] eqn:E; [|by case_decide].
    cbn. rewrite (project_order_id _ _ _ E), lookup_insert. by case_decide.
  - intros db g. unfold refresh_projection. by case_match.
  - intros [] []. unfold frame, set_orders, set_order_versions. cbn. congruence.
Qed.

(** ** Rows read back *)

Lemma blank_empty s : blank s = false → s ≠ "".
Proof. intros Hb ->. discriminate. Qed.

Lemma order_version_row_round_trip `{External} v :
  well_formed v → ∃ row, version_row v = Some row ∧ into_version row = Ok v.
Proof.
  intros [_ _ _ Hfiat [_ Hms] Hprem _ _]. unfold version_row.
  rewrite (bind_real_finite _ Hprem). cbn [mbind option_bind].
  assert (Csv.split (Csv.join (ov_payment_methods v)) = ov_payment_methods v) as Hcsv.
  { apply Csv.split_join_all. eapply Forall_impl; [exact Hms|]. intros m. apply blank_empty. }
  destruct v as [? ? ? ? dir st ? ? fiat ? ? net ? ?]. cbn in *.
  destruct fiat as [a|mn mx]; cbn in Hfiat.
  - destruct Hfiat as [Ha _]. rewrite (bind_real_finite _ Ha).
    eexists. split; [reflexivity|]. unfold into_version. cbn.
    by destruct dir, st, net as [[]|]; cbn; rewrite Hcsv.
  - destruct Hfiat as ([Ha _] & [Hb _] & _). rewrite (bind_real_finite _ Ha), (bind_real_finite _ Hb).
    eexists. split; [reflexivity|]. unfold into_version. cbn.
    by destruct dir, st, net as [[]|]; cbn; rewrite Hcsv.
Qed.

(** ** What the projection says *)

Lemma first_reached_Some s vs t :
  first_reached s vs = Some t ↔
    (∃ r, r ∈ vs ∧ vr_status r = s ∧ vr_created_at r = t) ∧
    ∀ r, r ∈ vs → vr_status r = s → t ≤ vr_created_at r.
Proof.
  unfold first_reached. rewrite sql_min_Some. setoid_rewrite list_elem_of_fmap. split.
  - intros [(r & Hr & ?) Hmin]. case_decide; simplify_eq. split; [eauto|].
    intros r' ? Hs. apply Hmin. exists r'. by rewrite decide_True.
  - intros [(r & ? & Hs & <-) Hmin]. split; [exists r; by rewrite decide_True|].
    intros x (r' & Hx & ?). case_decide; simplify_eq. by apply Hmin.
Qed.

Lemma order_project_of_spec vs row :
  project_of vs = Some row →
  ∃ latest, first_by newest_first vs = Some latest ∧
    sql_min ((λ r, Some (vr_created_at r)) <$> vs) = Some (or_first_seen_at row) ∧
    sql_max ((λ r, Some (vr_created_at r)) <$> vs) = Some (or_last_updated_at row) ∧
    or_final_status row = vr_status latest ∧ or_amount_sats row = vr_amount_sats latest ∧
    or_pubkey row = vr_pubkey latest ∧
    or_success_at row = first_reached "success" vs ∧ or_canceled_at row = first_reached "canceled" vs ∧
    or_order_created_at row = sql_min (vr_order_created_at <$> vs).
Proof.
  intros (latest & E & (mn & Emn & (mx & Emx & [= <-])%bind_Some)%bind_Some)%bind_Some.
  by exists latest.
Qed.

(** [r] supersedes [r']: newer, or as new with the lower event id (NIP-01). *)
Definition supersedes (r r' : VersionRow) : Prop :=
  vr_created_at r' < vr_created_at r ∨
  (vr_created_at r' = vr_created_at r ∧ String.le (vr_event_id r) (vr_event_id r')).

(** C14: the order a query reads is the one its versions tell: the state of
    the version that supersedes every other, first seen at the earliest
    version and last updated at that one, completed (or canceled) at the
    earliest version that said so and at no moment when none did. *)
Theorem order_projection_spec db oid row :
  projected (V := OrderVersion) db → orders db !! oid = Some row →
  let vs := versions_of (order_versions db) oid in
  (∃ latest, latest ∈ vs ∧ (∀ r, r ∈ vs → supersedes latest r) ∧
    or_final_status row = vr_status latest ∧ or_amount_sats row = vr_amount_sats latest ∧
    or_pubkey row = vr_pubkey latest ∧ or_last_updated_at row = vr_created_at latest) ∧
  (∃ r, r ∈ vs ∧ or_first_seen_at row = vr_created_at r) ∧
  (∀ r, r ∈ vs → or_first_seen_at row ≤ vr_created_at r) ∧
  (∀ t, or_success_at row = Some t ↔
    (∃ r, r ∈ vs ∧ vr_status r = "success" ∧ vr_created_at r = t) ∧
    ∀ r, r ∈ vs → vr_status r = "success" → t ≤ vr_created_at r) ∧
  (∀ t, or_canceled_at row = Some t ↔
    (∃ r, r ∈ vs ∧ vr_status r = "canceled" ∧ vr_created_at r = t) ∧
    ∀ r, r ∈ vs → vr_status r = "canceled" → t ≤ vr_created_at r).
Proof.
  intros [_ Hp] Hrow vs. rewrite Hp in Hrow.
  apply order_project_of_spec in Hrow as (latest & Hf & Hmin & Hmax & ? & ? & ? & -> & -> & _).
  apply first_by_Some in Hf as [Hl Hle].
  apply sql_min_Some in Hmin as [(r & [= Hr] & ?)%list_elem_of_fmap Hmin].
  apply sql_max_Some in Hmax as [(r' & [= Hr'] & Hin)%list_elem_of_fmap Hmax].
  assert (∀ x, x ∈ vs → supersedes latest x) as Hsup.
  { intros x Hx. specialize (Hle x Hx). unfold by_key, key_le, newest_first in Hle. cbn in Hle.
    unfold supersedes. destruct Hle as [?|[? ?]]; [left; lia|right; split; [lia|done]]. }
  split_and!; [|by exists r| |intros t; apply first_reached_Some..].
  - exists latest. split_and!; [done..|]. rewrite Hr'.
    assert (vr_created_at latest ≤ vr_created_at r') as ?.
    { rewrite <- Hr'. apply Hmax. apply list_elem_of_fmap. by exists latest. }
    destruct (Hsup r' Hin) as [?|[? _]]; lia.
  - intros x Hx. apply Hmin. apply list_elem_of_fmap. by exists x.
Qed.

(** Versions arriving one after the other, each stored and its order
    refreshed, as the pipeline does. *)
Fixpoint arrive (db : Db) (vs : list OrderVersion) : Sql Db :=
  match vs with
  | [] => Ok db
  | v :: vs => db ← insert_version db v; arrive (refresh_projection db (ov_order_id v)) vs
  end.

Lemma order_arrive_store_all db vs : arrive db vs = store_all db vs.
Proof.
  revert db. induction vs as [|v vs IH]; intros db; [done|]. cbn. unfold store, insert_version. cbn.
  destruct (insert_row _ _ db); [apply IH|done].
Qed.

(** C15: the archive does not depend on the order versions arrive in: every
    arrival order of the same versions succeeds alike and leaves the same
    database, whose [orders] table is the projection of its versions. *)
Theorem orders_arrival_irrelevant db vs vs' db' :
  projected (V := OrderVersion) db →
  (∀ v w, v ∈ vs → w ∈ vs → ov_event_id v = ov_event_id w → v = w) → vs ≡ₚ vs' →
  arrive db vs = Ok db' → arrive db vs' = Ok db' ∧ projected (V := OrderVersion) db'.
Proof. rewrite !order_arrive_store_all. exact (arrival_order db vs vs' db'). Qed.

(** C16: an order the parser accepted is stored losslessly: once its event is
    archived, [insert_version] adds a row, and decoding the row gives back the
    version, its payment methods, floats, enums and fiat range included. *)
Theorem stored_order_reads_back `{External} `{!ExternalLaws} event v db :
  ParseOrder.parse event = Ok v →
  is_Some (events db !! ev_id event) → order_versions db !! ev_id event = None →
  ∃ db' row, insert_version db v = Ok db' ∧
    order_versions db' = <[ev_id event := row]> (order_versions db) ∧ into_version row = Ok v.
Proof.
  intros Hparse [e He] Hnew.
  destruct (parse_wf _ _ Hparse) as (Hwf & _ & Hid & _).
  destruct (order_version_row_round_trip v Hwf) as (row & Hrow & Hback).
  exists (set_order_versions (insert (ev_id event) row) db), row.
  split; [|done]. unfold insert_version, insert_row. cbn. by rewrite Hrow, Hid, Hnew, He.
Qed.

(** ** Witnesses *)
Section witnesses.
#[local] Existing Instance Demo.demo.
#[local] Existing Instance Demo.demo_laws.

Definition sample_events : list Event :=
  [order_event "e1" 1700000100 "pending"; order_event "e3" 1700000300 "success";
   order_event "e2" 1700000200 "in-progress"; order_event "e0" 1700000300 "canceled"].
Definition sample_versions : list OrderVersion :=
  omap (λ e, ok (ParseOrder.parse e)) sample_events.
Definition sample_db : Db := archive_of sample_events.
Definition stored : Db :=
  match arrive sample_db sample_versions with Ok db => db | Err _ => empty_db end.

Lemma order_stored_Ok : arrive sample_db sample_versions = Ok stored.
Proof. vm_compute. reflexivity. Qed.

Lemma order_sample_projected : projected (V := OrderVersion) sample_db.
Proof. by apply projected_empty. Qed.

Lemma order_stored_projected : projected (V := OrderVersion) stored.
Proof. pose proof order_stored_Ok as H. rewrite order_arrive_store_all in H.
  exact (store_all_projected _ _ _ order_sample_projected H). Qed.

Lemma order_sample_distinct : same_id_same_version sample_versions.
Proof. apply NoDup_same_id_same_version. apply (bool_decide_unpack _). by vm_compute. Qed.

(** Newest and oldest first alike: the lowest id wins the last second. *)
Lemma orders_arrival_irrelevant_witness :
  arrive sample_db (reverse sample_versions) = Ok stored ∧
  or_final_status <$> (orders stored !! order_uuid) = Some "canceled".
Proof.
  split; [|vm_compute; reflexivity].
  refine (proj1 (orders_arrival_irrelevant sample_db sample_versions (reverse sample_versions)
    stored order_sample_projected order_sample_distinct _ order_stored_Ok)).
  symmetry. apply reverse_Permutation.
Defined.

Lemma order_projection_spec_witness :
  ∃ row, orders stored !! order_uuid = Some row ∧ or_success_at row = Some 1700000300 ∧
    ∃ r, r ∈ versions_of (order_versions stored) order_uuid ∧ or_first_seen_at row = vr_created_at r.
Proof.
  destruct (orders stored !! order_uuid) as [row|] eqn:E; [|vm_compute in E; discriminate].
  exists row. split; [reflexivity|].
  pose proof (order_projection_spec stored order_uuid row order_stored_projected E) as (_ & Hfirst & _).
  split; [|exact Hfirst]. clear Hfirst. vm_compute in E. injection E as <-. reflexivity.
Defined.

Lemma stored_order_reads_back_witness :
  ∃ v db' row, ParseOrder.parse (order_event "e1" 1700000100 "pending") = Ok v ∧
    insert_version sample_db v = Ok db' ∧
    order_versions db' !! "e1" = Some row ∧ into_version row = Ok v.
Proof.
  destruct (ParseOrder.parse (order_event "e1" 1700000100 "pending")) as [v|] eqn:E;
    [|vm_compute in E; discriminate].
  destruct (stored_order_reads_back _ v sample_db E) as (db' & row & Hins & Ht & Hback).
  { eexists. vm_compute. reflexivity. }
  { vm_compute. reflexivity. }
  exists v, db', row. split_and!; [reflexivity|exact Hins| |exact Hback].
  rewrite Ht. apply lookup_insert_eq.
Defined.
End witnesses.
