(* ===== verification/RepoDisputes.v ===== *)
(** * The dispute tables

    [src/db/repo/disputes.rs]: the append-only [dispute_versions], the
    [disputes] projection recomputed from it, and the decoding of both. *)

From S2P Require Import Prelude Event Parse ParseDispute Db Versioned Samples.

#[local] Open Scope Z_scope.

(** One row of [disputes]: a dispute as it currently stands. *)
Record Dispute : Type := mkDispute {
  dsp_dispute_id : string;
  dsp_pubkey : string;
  dsp_opened_at : option Z;
  dsp_last_updated_at : Z;
  dsp_final_status : Status;
  dsp_initiator : option Initiator;
}.

(** The row [insert_version] binds: no bound value can be NULL where the
    column is not. *)
Definition version_row (v : DisputeVersion) : DisputeVersionRow := {|
  dvr_event_id := dv_event_id v;
  dvr_dispute_id := dv_dispute_id v;
  dvr_pubkey := dv_pubkey v;
  dvr_created_at := dv_created_at v;
  dvr_status := status_as_str (dv_status v);
  dvr_initiator := initiator_as_str <$> dv_initiator v;
  dvr_opened_at := dv_opened_at v;
|}.

(** [INSERT OR IGNORE INTO dispute_versions]. *)
Definition insert_version (db : Db) (v : DisputeVersion) : Sql Db :=
  insert_row (dv_event_id v) (Some (version_row v)) db.

(** [FROM dispute_versions WHERE dispute_id = ?1]. *)
Definition versions_of (t : gmap string DisputeVersionRow) (dispute_id : string) : list DisputeVersionRow :=
  filter (λ r, dvr_dispute_id r = dispute_id) (rows t).

Definition oldest_first (r : DisputeVersionRow) : Z * string := (dvr_created_at r, dvr_event_id r).
Definition newest_first (r : DisputeVersionRow) : Z * string := (- dvr_created_at r, dvr_event_id r).

(** [SELECT col … WHERE col IS NOT NULL ORDER BY created_at DESC, event_id LIMIT 1]. *)
Definition latest_known {A} (column : DisputeVersionRow → option A) (vs : list DisputeVersionRow) : option A :=
  first_by newest_first (filter (λ r, is_Some (column r)) vs) ≫= column.

(** The SELECT of [refresh_projection] over the versions of one dispute. *)
Definition project_of (vs : list DisputeVersionRow) : option DisputeRow :=
  latest ← first_by newest_first vs;
  last_updated_at ← sql_max ((λ r, Some (dvr_created_at r)) <$> vs);
  Some {|
    dr_dispute_id := dvr_dispute_id latest;
    dr_pubkey := dvr_pubkey latest;
    dr_opened_at := latest_known dvr_opened_at vs;
    dr_last_updated_at := last_updated_at;
    dr_final_status := dvr_status latest;
    dr_initiator := latest_known dvr_initiator vs;
  |}.

Definition project (t : gmap string DisputeVersionRow) (dispute_id : string) : option DisputeRow :=
  project_of (versions_of t dispute_id).

(** The upsert replaces every column of a row that exists; a SELECT of
    nothing upserts nothing. *)
Definition refresh_projection (db : Db) (dispute_id : string) : Db :=
  match project (dispute_versions db) dispute_id with
  | Some row => set_disputes (insert (dr_dispute_id row) row) db
  | None => db
  end.

(** The stored [initiator], if the column is not NULL. *)
Definition optional_initiator (stored : option string) : Sql (option Initiator) :=
  match stored with
  | None => Ok None
  | Some wire => Some <$> decode_column "initiator" (initiator_parse wire)
  end.

(** [DisputeRow::into_dispute]. *)
Definition into_dispute (r : DisputeRow) : Sql Dispute :=
  final_status ← decode_column "final_status" (status_parse (dr_final_status r));
  initiator ← optional_initiator (dr_initiator r);
  Ok {|
    dsp_dispute_id := dr_dispute_id r;
    dsp_pubkey := dr_pubkey r;
    dsp_opened_at := dr_opened_at r;
    dsp_last_updated_at := dr_last_updated_at r;
    dsp_final_status := final_status;
    dsp_initiator := initiator;
  |}.

(** [VersionRow::into_version]. *)
Definition into_version (r : DisputeVersionRow) : Sql DisputeVersion :=
  status ← decode_column "status" (status_parse (dvr_status r));
  initiator ← optional_initiator (dvr_initiator r);
  Ok {|
    dv_event_id := dvr_event_id r;
    dv_dispute_id := dvr_dispute_id r;
    dv_pubkey := dvr_pubkey r;
    dv_created_at := dvr_created_at r;
    dv_status := status;
    dv_initiator := initiator;
    dv_opened_at := dvr_opened_at r;
  |}.

(** The projected dispute, if any version of it has been seen. *)
Definition find (db : Db) (dispute_id : string) : Sql (option Dispute) :=
  transpose (into_dispute <$> disputes db !! dispute_id).

(** Every stored version of a dispute, oldest first. *)
Definition versions (db : Db) (dispute_id : string) : Sql (list DisputeVersion) :=
  collect (into_version <$> order_by oldest_first (versions_of (dispute_versions db) dispute_id)).

(** [SELECT DISTINCT dispute_id FROM dispute_versions ORDER BY dispute_id]. *)
Definition ids (db : Db) : list string := distinct (dvr_dispute_id <$> rows (dispute_versions db)).

Definition clear_projection : Db → Db := set_disputes (λ _, ∅).
Definition clear_versions : Db → Db := set_dispute_versions (λ _, ∅).

(** ** The dispute tables are versioned *)

#[export] Instance disputes_versioned : Versioned DisputeVersion DisputeVersionRow DisputeRow := {|
  version_id := dv_event_id;
  version_group := dv_dispute_id;
  row_of v := Some (version_row v);
  row_id := dvr_event_id;
  row_group := dvr_dispute_id;
  project_rows := project_of;
  projection := disputes;
  set_projection := set_disputes;
  refresh := refresh_projection;
|}.

Lemma newest_first_inj (vs : list DisputeVersionRow) :
  (∀ x y, x ∈ vs → y ∈ vs → dvr_event_id x = dvr_event_id y → x = y) →
  ∀ x y, x ∈ vs → y ∈ vs → newest_first x = newest_first y → x = y.
Proof. intros Hinj x y ?? [= _ ?]. auto. Qed.

Lemma latest_known_perm {A} (column : DisputeVersionRow → option A) (vs vs' : list DisputeVersionRow) :
  (∀ x y, x ∈ vs → y ∈ vs → dvr_event_id x = dvr_event_id y → x = y) →
  vs ≡ₚ vs' → latest_known column vs = latest_known column vs'.
Proof.
  intros Hinj Hp. unfold latest_known. f_equal. apply first_by_canonical.
  - intros x y [_ ?]%list_elem_of_filter [_ ?]%list_elem_of_filter. by apply (newest_first_inj vs).
  - by rewrite Hp.
Qed.

Lemma dispute_project_of_perm (vs vs' : list DisputeVersionRow) :
  (∀ x y, x ∈ vs → y ∈ vs → dvr_event_id x = dvr_event_id y → x = y) →
  vs ≡ₚ vs' → project_of vs = project_of vs'.
Proof.
  intros Hinj Hp. unfold project_of.
  rewrite (first_by_canonical newest_first vs vs'); [|by apply newest_first_inj|done].
  rewrite !(latest_known_perm _ vs vs') by done.
  assert (sql_max ((λ r, Some (dvr_created_at r)) <$> vs) =
    sql_max ((λ r, Some (dvr_created_at r)) <$> vs')) as -> by (by rewrite Hp). done.
Qed.

Lemma dispute_project_of_Some vs : vs ≠ [] → is_Some (project_of vs).
Proof.
  destruct vs as [|v vs]; [done|]. intros _. unfold project_of.
  destruct (first_by newest_first (v :: vs)) eqn:E; [|by apply first_by_None in E].
  cbn [mbind option_bind].
  destruct (sql_max_ge ((λ r, Some (dvr_created_at r)) <$> v :: vs) (dvr_created_at v)) as (? & -> & _);
    [by constructor|]. by eexists.
Qed.

Lemma project_dispute_id t did row : project t did = Some row → dr_dispute_id row = did.
Proof.
  intros (latest & E & (? & _ & [= <-])%bind_Some)%bind_Some.
  by apply first_by_Some in E as [[Hl _]%list_elem_of_filter _].
Qed.

#[export] Instance disputes_versioned_laws : VersionedLaws DisputeVersion DisputeVersionRow DisputeRow.
Proof.
  split; cbn; try done.
  - apply _.
  - by intros v r [= <-].
  - apply dispute_project_of_perm.
  - apply dispute_project_of_Some.
  - intros db g. unfold refresh_projection. by case_match.
  - intros db g g'. unfold refresh_projection, project, versions_of, group_rows. cbn.
    destruct (project_of _) as [row|] eqn:E; [|by case_decide].
    cbn. rewrite (project_dispute_id _ _ _ E), lookup_insert. by case_decide.
  - intros db g. unfold refresh_projection. by case_match.
  - intros [] []. unfold frame, set_disputes, set_dispute_versions. cbn. congruence.
Qed.

(** ** What the projection says *)

Lemma latest_known_Some {A} (column : DisputeVersionRow → option A) vs a :
  latest_known column vs = Some a → ∃ r, r ∈ vs ∧ column r = Some a ∧
    ∀ r', r' ∈ vs → is_Some (column r') → by_key newest_first r r'.
Proof.
  intros (r & [[? ?]%list_elem_of_filter Hle]%first_by_Some & Hr)%bind_Some.
  exists r. split_and!; [done..|]. intros r' ??. apply Hle. by apply list_elem_of_filter.
Qed.

Lemma latest_known_None {A} (column : DisputeVersionRow → option A) vs :
  latest_known column vs = None → ∀ r, r ∈ vs → column r = None.
Proof.
  unfold latest_known. intros Hn r Hr. destruct (column r) eqn:E; [|done].
  destruct (first_by _ _) as [r'|] eqn:Hf.
  - apply first_by_Some in Hf as [[[? Hc] _]%list_elem_of_filter _]. cbn in Hn. congruence.
  - apply first_by_None in Hf. assert (r ∈ filter (λ r, is_Some (column r)) vs) as Hin.
    { apply list_elem_of_filter. eauto. }
    rewrite Hf in Hin. by apply elem_of_nil in Hin.
Qed.

Lemma dispute_project_of_spec vs row :
  project_of vs = Some row →
  ∃ latest, first_by newest_first vs = Some latest ∧
    dr_final_status row = dvr_status latest ∧ dr_pubkey row = dvr_pubkey latest ∧
    sql_max ((λ r, Some (dvr_created_at r)) <$> vs) = Some (dr_last_updated_at row) ∧
    dr_opened_at row = latest_known dvr_opened_at vs ∧
    dr_initiator row = latest_known dvr_initiator vs.
Proof. intros (latest & E & (mx & Emx & [= <-])%bind_Some)%bind_Some. by exists latest. Qed.

(** C17: the dispute a query reads keeps every fact its versions published:
    its status is that of the version no other supersedes, while its
    initiator and its opening time are the last ones any version stated, and
    are unknown only when no version stated one. *)
Theorem dispute_projection_spec db did row :
  projected (V := DisputeVersion) db → disputes db !! did = Some row →
  let vs := versions_of (dispute_versions db) did in
  (∃ latest, latest ∈ vs ∧ (∀ r, r ∈ vs → by_key newest_first latest r) ∧
    dr_final_status row = dvr_status latest ∧ dr_pubkey row = dvr_pubkey latest) ∧
  match dr_initiator row with
  | Some i => ∃ r, r ∈ vs ∧ dvr_initiator r = Some i ∧
      ∀ r', r' ∈ vs → is_Some (dvr_initiator r') → by_key newest_first r r'
  | None => ∀ r, r ∈ vs → dvr_initiator r = None
  end ∧
  match dr_opened_at row with
  | Some t => ∃ r, r ∈ vs ∧ dvr_opened_at r = Some t ∧
      ∀ r', r' ∈ vs → is_Some (dvr_opened_at r') → by_key newest_first r r'
  | None => ∀ r, r ∈ vs → dvr_opened_at r = None
  end.
Proof.
  intros [_ Hp] Hrow vs. rewrite Hp in Hrow.
  apply dispute_project_of_spec in Hrow as (latest & Hf & ? & ? & _ & Ho & Hi).
  apply first_by_Some in Hf as [??].
  split_and!; [by exists latest| |]; case_match eqn:E;
    eauto using latest_known_Some, latest_known_None.
Qed.

(** Versions arriving one after the other, each stored and its dispute
    refreshed, as the pipeline does. *)
Fixpoint arrive (db : Db) (vs : list DisputeVersion) : Sql Db :=
  match vs with
  | [] => Ok db
  | v :: vs => db ← insert_version db v; arrive (refresh_projection db (dv_dispute_id v)) vs
  end.

Lemma dispute_arrive_store_all db vs : arrive db vs = store_all db vs.
Proof.
  revert db. induction vs as [|v vs IH]; intros db; [done|]. cbn [arrive store_all].
  unfold store. cbn [version_id row_of version_group disputes_versioned].
  change (insert_row (dv_event_id v) (Some (version_row v)) db) with (insert_version db v).
  destruct (insert_version db v); [apply IH|done].
Qed.

(** like orders, disputes do not depend on the order their versions
    arrive in, so a backfill that walks backwards ends where a live
    subscription would. *)
Theorem disputes_arrival_irrelevant db vs vs' db' :
  projected (V := DisputeVersion) db →
  (∀ v w, v ∈ vs → w ∈ vs → dv_event_id v = dv_event_id w → v = w) → vs ≡ₚ vs' →
  arrive db vs = Ok db' → arrive db vs' = Ok db' ∧ projected (V := DisputeVersion) db'.
Proof. rewrite !dispute_arrive_store_all. exact (arrival_order db vs vs' db'). Qed.

(** Every stored version decodes to the version that was stored. *)
Lemma dispute_version_row_round_trip v : into_version (version_row v) = Ok v.
Proof. destruct v as [? ? ? ? [] [[]|] ?]; reflexivity. Qed.

(** ** Witnesses *)
Section witnesses.
#[local] Existing Instance Demo.demo.

Definition sample_events : list Event :=
  [dispute_event "d1" 1700000100 "initiated" [["initiator"; "buyer"]];
   dispute_event "d3" 1700000300 "settled" []; dispute_event "d2" 1700000200 "in-progress" [["initiator"; "seller"]]].
Definition sample_versions : list DisputeVersion := omap (λ e, ok (ParseDispute.parse e)) sample_events.
Definition sample_db : Db := archive_of sample_events.
Definition stored : Db :=
  match arrive sample_db sample_versions with Ok db => db | Err _ => empty_db end.

Lemma dispute_stored_Ok : arrive sample_db sample_versions = Ok stored.
Proof. vm_compute. reflexivity. Qed.

Lemma dispute_sample_projected : projected (V := DisputeVersion) sample_db.
Proof. by apply projected_empty. Qed.

Lemma dispute_stored_projected : projected (V := DisputeVersion) stored.
Proof. pose proof dispute_stored_Ok as H. rewrite dispute_arrive_store_all in H.
  exact (store_all_projected _ _ _ dispute_sample_projected H). Qed.

Lemma dispute_sample_distinct : same_id_same_version sample_versions.
Proof. apply NoDup_same_id_same_version. apply (bool_decide_unpack _). by vm_compute. Qed.

(** The last version names no initiator; the one before it does. *)
Lemma dispute_projection_spec_witness :
  ∃ row, disputes stored !! "dispute-1" = Some row ∧ dr_initiator row = Some "seller" ∧
    ∃ latest, latest ∈ versions_of (dispute_versions stored) "dispute-1" ∧
      dr_final_status row = dvr_status latest.
Proof.
  destruct (disputes stored !! "dispute-1") as [row|] eqn:E; [|vm_compute in E; discriminate].
  exists row. split; [reflexivity|].
  pose proof (dispute_projection_spec stored "dispute-1" row dispute_stored_projected E) as [Hlatest _].
  split.
  - clear Hlatest. vm_compute in E. injection E as <-. reflexivity.
  - destruct Hlatest as (latest & ? & _ & ? & _). exists latest. auto.
Defined.
End witnesses.
