(* ===== verification/RepoDevFees.v ===== *)
(** * Dev fees

    [src/db/repo/dev_fees.rs]: every fee is kept, and the duplicate flags of
    an order are recomputed from all its fees on every insert. *)

From S2P Require Import Prelude Network Event Parse ParseDevFee Db Samples.
From S2P Require RepoOrders.

#[local] Open Scope Z_scope.

(** A stored fee, and whether it is the one that counts. *)
Record StoredDevFee : Type := mkStoredDevFee {
  stored_fee : DevFee;
  stored_is_duplicate : bool;
}.

(** The row [insert] binds. *)
Definition fee_row (fee : DevFee) : FeeRow := {|
  fr_event_id := fee_event_id fee;
  fr_pubkey := fee_pubkey fee;
  fr_order_id := fee_order_id fee;
  fr_amount_sats := fee_amount_sats fee;
  fr_payment_hash := fee_payment_hash fee;
  fr_destination := fee_destination fee;
  fr_network := as_str <$> fee_network fee;
  fr_created_at := fee_created_at fee;
  fr_is_duplicate := 0;
|}.

(** [FROM dev_fees WHERE order_id = ?1], and its order. *)
Definition fees_of (t : gmap string FeeRow) (order_id : string) : list FeeRow :=
  filter (λ r, fr_order_id r = order_id) (rows t).
Definition oldest_first (r : FeeRow) : Z * string := (fr_created_at r, fr_event_id r).

Definition set_duplicate (flag : Z) (r : FeeRow) : FeeRow :=
  mkFeeRow (fr_event_id r) (fr_pubkey r) (fr_order_id r) (fr_amount_sats r) (fr_payment_hash r)
    (fr_destination r) (fr_network r) (fr_created_at r) flag.

(** [UPDATE dev_fees SET is_duplicate = CASE … END WHERE order_id = ?1]: the
    earliest fee's event id is the subquery, NULL over no fees. *)
Definition flag (canonical : option string) (order_id : string) (r : FeeRow) : FeeRow :=
  if decide (fr_order_id r = order_id)
  then set_duplicate (if decide (Some (fr_event_id r) = canonical) then 0 else 1) r
  else r.

Definition refresh_flags (order_id : string) (t : gmap string FeeRow) : gmap string FeeRow :=
  let canonical := fr_event_id <$> first_by oldest_first (fees_of t order_id) in
  flag canonical order_id <$> t.

Definition refresh_duplicates (db : Db) (order_id : string) : Db :=
  set_dev_fees (refresh_flags order_id) db.

(** [insert]: the row, then the flags of its order. *)
Definition insert (db : Db) (fee : DevFee) : Sql Db :=
  db ← insert_row (fee_event_id fee) (Some (fee_row fee)) db;
  Ok (refresh_duplicates db (fee_order_id fee)).

(** [FeeRow::into_stored]. *)
Definition into_stored (r : FeeRow) : Sql StoredDevFee :=
  network ←
    match fr_network r with
    | None => Ok None
    | Some wire =>
        Some <$> decode_column "network"
          (ok_or (from_wire wire) ("`" +:+ wire +:+ "` is not a network"))
    end;
  Ok {|
    stored_fee := {|
      fee_event_id := fr_event_id r;
      fee_pubkey := fr_pubkey r;
      fee_order_id := fr_order_id r;
      fee_created_at := fr_created_at r;
      fee_amount_sats := fr_amount_sats r;
      fee_payment_hash := fr_payment_hash r;
      fee_destination := fr_destination r;
      fee_network := network;
    |};
    stored_is_duplicate := bool_decide (fr_is_duplicate r ≠ 0);
  |}.

(** Every fee stored for an order, oldest first — the canonical one leading. *)
Definition for_order (db : Db) (order_id : string) : Sql (list StoredDevFee) :=
  collect (into_stored <$> order_by oldest_first (fees_of (dev_fees db) order_id)).

(** [SELECT DISTINCT order_id FROM dev_fees ORDER BY order_id]. *)
Definition order_ids (db : Db) : list string := distinct (fr_order_id <$> rows (dev_fees db)).

Definition clear : Db → Db := set_dev_fees (λ _, ∅).

(** ** One settlement per order *)

(** Every row is filed under its key, and of the fees of an order exactly the
    earliest (the lowest id in a tied second) is not a duplicate. *)
Definition fees_keyed (t : gmap string FeeRow) : Prop := ∀ k r, t !! k = Some r → fr_event_id r = k.

Definition flagged_order (t : gmap string FeeRow) (order_id : string) : Prop :=
  ∀ k r, t !! k = Some r → fr_order_id r = order_id →
    fr_is_duplicate r = if decide (Some (fr_event_id r) =
      (fr_event_id <$> first_by oldest_first (fees_of t order_id))) then 0 else 1.

Definition flagged (t : gmap string FeeRow) : Prop := fees_keyed t ∧ ∀ oid, flagged_order t oid.

Lemma elem_of_fees_of t oid r : r ∈ fees_of t oid ↔ fr_order_id r = oid ∧ ∃ k, t !! k = Some r.
Proof. unfold fees_of. by rewrite list_elem_of_filter, elem_of_rows. Qed.

Lemma fees_inj t oid x y :
  fees_keyed t → x ∈ fees_of t oid → y ∈ fees_of t oid → oldest_first x = oldest_first y → x = y.
Proof.
  intros Ht (_ & k & Hk)%elem_of_fees_of (_ & k' & Hk')%elem_of_fees_of [= _ Heq].
  rewrite (Ht _ _ Hk), (Ht _ _ Hk') in Heq. naive_solver.
Qed.

(** A fee without its flag: what the flags are a function of. *)
Definition published (t : gmap string FeeRow) : gmap string FeeRow := set_duplicate 0 <$> t.

Lemma set_duplicate_oldest f r : oldest_first (set_duplicate f r) = oldest_first r.
Proof. done. Qed.

Lemma set_duplicate_inj r r' :
  set_duplicate 0 r = set_duplicate 0 r' →
  fr_event_id r = fr_event_id r' ∧ fr_order_id r = fr_order_id r'.
Proof. destruct r, r'. unfold set_duplicate. cbn. by intros [= -> _ ->]. Qed.

Lemma published_flag c oid t : published (flag c oid <$> t) = published t.
Proof.
  unfold published. rewrite <- map_fmap_compose. apply map_fmap_ext. intros k r _. cbn.
  unfold flag. by case_decide.
Qed.

Lemma published_refresh_flags oid t : published (refresh_flags oid t) = published t.
Proof. apply published_flag. Qed.

Lemma published_keyed t : fees_keyed (published t) ↔ fees_keyed t.
Proof.
  unfold fees_keyed, published. split; intros H k r.
  - intros Hk. apply (H k (set_duplicate 0 r)). by rewrite lookup_fmap, Hk.
  - rewrite lookup_fmap. intros (r' & Hk & ->)%fmap_Some. cbn. eauto.
Qed.

(** The canonical fee of an order, read from the flagless table. *)
Lemma canonical_ext t t' oid :
  fees_keyed t → published t = published t' →
  fr_event_id <$> first_by oldest_first (fees_of t oid) =
  fr_event_id <$> first_by oldest_first (fees_of t' oid).
Proof.
  intros Hk Hp.
  assert (Hk' : fees_keyed t') by (apply published_keyed; rewrite <- Hp; by apply published_keyed).
  assert (Hlift : ∀ t1 t2 r, published t1 = published t2 → r ∈ fees_of t1 oid →
    ∃ r', r' ∈ fees_of t2 oid ∧ set_duplicate 0 r' = set_duplicate 0 r).
  { intros t1 t2 r H12 (Ho & k & Hr)%elem_of_fees_of.
    assert (published t2 !! k = Some (set_duplicate 0 r)) as Hl.
    { rewrite <- H12. unfold published. by rewrite lookup_fmap, Hr. }
    unfold published in Hl. rewrite lookup_fmap in Hl. apply fmap_Some in Hl as (r' & Hr' & Heq).
    exists r'. split; [|done]. apply elem_of_fees_of. split; [|eauto].
    apply set_duplicate_inj in Heq as [_ <-]. done. }
  destruct (first_by oldest_first (fees_of t oid)) as [r|] eqn:E.
  - apply first_by_Some in E as [Hr Hle].
    destruct (Hlift _ _ _ Hp Hr) as (r' & Hr' & Heq).
    rewrite (first_by_intro _ (fees_of t' oid) r'); [cbn; by apply set_duplicate_inj in Heq as [-> _]| | |].
    + intros x y. by apply fees_inj.
    + done.
    + intros z Hz. destruct (Hlift _ _ _ (eq_sym Hp) Hz) as (z' & Hz' & Heqz).
      specialize (Hle z' Hz'). unfold by_key in *.
      by rewrite <- (set_duplicate_oldest 0 r'), <- (set_duplicate_oldest 0 z), Heq, <- Heqz.
  - apply first_by_None in E.
    destruct (first_by oldest_first (fees_of t' oid)) as [r'|] eqn:E'; [|done].
    apply first_by_Some in E' as [Hr' _].
    destruct (Hlift _ _ _ (eq_sym Hp) Hr') as (z & Hz & _).
    rewrite E in Hz. by apply elem_of_nil in Hz.
Qed.

Lemma refresh_flags_keyed t oid : fees_keyed t → fees_keyed (refresh_flags oid t).
Proof. intros. apply published_keyed. rewrite published_refresh_flags. by apply published_keyed. Qed.

Lemma refresh_flags_order t oid : fees_keyed t → flagged_order (refresh_flags oid t) oid.
Proof.
  intros Hk k r. rewrite (canonical_ext (refresh_flags oid t) t)
    by (done || by apply refresh_flags_keyed || apply published_refresh_flags).
  unfold refresh_flags. rewrite lookup_fmap. intros (r' & Hr & ->)%fmap_Some.
  unfold flag. by case_decide.
Qed.

Lemma refresh_flags_other t oid oid' :
  fees_keyed t → oid ≠ oid' → flagged_order t oid' → flagged_order (refresh_flags oid t) oid'.
Proof.
  intros Hk Hne Hf k r. rewrite (canonical_ext (refresh_flags oid t) t)
    by (done || by apply refresh_flags_keyed || apply published_refresh_flags).
  unfold refresh_flags. rewrite lookup_fmap. intros (r' & Hr & ->)%fmap_Some Ho.
  unfold flag in *. case_decide; cbn in Ho; [congruence|]. by apply (Hf k).
Qed.

(** ** What an insert does to the table *)

Definition insert_fee (t : gmap string FeeRow) (fee : DevFee) : gmap string FeeRow :=
  refresh_flags (fee_order_id fee) (put (fee_event_id fee) (Some (fee_row fee)) t).

Lemma insert_Ok db fee db' :
  insert db fee = Ok db' ↔
    refers (fee_event_id fee) (Some (fee_row fee)) db ∧
    db' = set_dev_fees (λ t, insert_fee t fee) db.
Proof.
  unfold insert. rewrite bind_Ok. setoid_rewrite insert_row_Ok. unfold refresh_duplicates.
  split.
  - intros (? & [? ->] & [= <-]). split; [done|]. by destruct db.
  - intros [? ->]. eexists. split; [split; [done|reflexivity]|]. by destruct db.
Qed.

Lemma insert_fee_published t fee :
  published (insert_fee t fee) = put (fee_event_id fee) (Some (fee_row fee)) (published t).
Proof.
  unfold insert_fee. rewrite published_refresh_flags. unfold put, insert_or_ignore, published.
  rewrite lookup_fmap. destruct (t !! fee_event_id fee); [done|]. by rewrite fmap_insert.
Qed.

Lemma put_fee_keyed t fee :
  fees_keyed t → fees_keyed (put (fee_event_id fee) (Some (fee_row fee)) t).
Proof.
  intros Ht k r. cbn. rewrite insert_or_ignore_lookup. destruct (t !! k) eqn:E.
  - intros [= <-]. by apply Ht.
  - case_decide; [|done]. intros [= <-]. done.
Qed.

Lemma put_fee_other t fee oid :
  flagged t → fee_order_id fee ≠ oid →
  flagged_order (put (fee_event_id fee) (Some (fee_row fee)) t) oid.
Proof.
  intros [Hk Hf] Hne k r. unfold put. rewrite insert_or_ignore_lookup.
  assert (Hperm : fees_of (insert_or_ignore (fee_event_id fee) (fee_row fee) t) oid ≡ₚ fees_of t oid).
  { unfold insert_or_ignore. destruct (t !! fee_event_id fee) eqn:E; [done|].
    unfold fees_of. rewrite rows_insert by done. by rewrite filter_cons, decide_False. }
  assert (first_by oldest_first (fees_of (insert_or_ignore (fee_event_id fee) (fee_row fee) t) oid)
    = first_by oldest_first (fees_of t oid)) as ->.
  { apply first_by_canonical; [|done]. intros x y. exact (fees_inj _ oid x y (put_fee_keyed t fee Hk)). }
  destruct (t !! k) eqn:E; [intros [= ->]; by apply (Hf oid k)|].
  case_decide; [|done]. intros [= <-] Ho. by destruct Hne.
Qed.

Lemma insert_fee_flagged t fee : flagged t → flagged (insert_fee t fee).
Proof.
  intros Hf. pose proof (put_fee_keyed t fee (proj1 Hf)) as Hk. split.
  - by apply refresh_flags_keyed.
  - intros oid. destruct (decide (fee_order_id fee = oid)) as [<-|Hne].
    + by apply refresh_flags_order.
    + apply refresh_flags_other; [done..|]. by apply put_fee_other.
Qed.

(** The flags add nothing: two flagged tables of the same fees are equal. *)
Lemma flagged_ext t t' : flagged t → flagged t' → published t = published t' → t = t'.
Proof.
  intros [Hk Hf] [_ Hf'] Hp. apply map_eq. intros k.
  assert (Hl : published t !! k = published t' !! k) by (by rewrite Hp).
  unfold published in Hl. rewrite !lookup_fmap in Hl.
  destruct (t !! k) as [r|] eqn:Hr, (t' !! k) as [r'|] eqn:Hr'; [|done..].
  pose proof (Hf _ k r Hr eq_refl) as H1. pose proof (Hf' _ k r' Hr' eq_refl) as H2.
  assert (fr_is_duplicate r = fr_is_duplicate r') as Hd.
  { injection Hl as He _ Ho _. by rewrite H1, H2, <- Ho, <- He, (canonical_ext t t' _ Hk Hp). }
  f_equal. clear H1 H2. destruct r, r'. cbn in *. unfold set_duplicate in Hl. cbn in Hl. congruence.
Qed.

Lemma insert_fee_comm t a b :
  flagged t → (fee_event_id a = fee_event_id b → a = b) →
  insert_fee (insert_fee t a) b = insert_fee (insert_fee t b) a.
Proof.
  intros Hf Hab. apply flagged_ext; [by do 2 apply insert_fee_flagged..|].
  rewrite !insert_fee_published. cbn.
  destruct (decide (fee_event_id a = fee_event_id b)) as [He|?].
  - by rewrite (Hab He).
  - by apply insert_or_ignore_comm.
Qed.

Fixpoint insert_all (db : Db) (fees : list DevFee) : Sql Db :=
  match fees with
  | [] => Ok db
  | fee :: fees => db ← insert db fee; insert_all db fees
  end.

Lemma insert_fee_refers db fee b :
  refers (fee_event_id fee) (Some (fee_row fee)) db →
  refers (fee_event_id b) (Some (fee_row b)) (set_dev_fees (λ t, insert_fee t fee) db) ↔
  refers (fee_event_id b) (Some (fee_row b)) db.
Proof.
  unfold refers. cbn. intros Hfee.
  assert (is_Some (insert_fee (dev_fees db) fee !! fee_event_id b) ↔
    is_Some (dev_fees db !! fee_event_id b) ∨ fee_event_id fee = fee_event_id b) as ->.
  { transitivity (is_Some (published (insert_fee (dev_fees db) fee) !! fee_event_id b)).
    - unfold published. by rewrite lookup_fmap, fmap_is_Some.
    - rewrite insert_fee_published. cbn. rewrite insert_or_ignore_lookup. unfold published.
      rewrite lookup_fmap. destruct (dev_fees db !! fee_event_id b); cbn; [naive_solver|].
      case_decide; naive_solver. }
  split; [|naive_solver]. intros [?|[[?|He]|?]]; [naive_solver..| |naive_solver].
  rewrite <- He. naive_solver.
Qed.

Lemma insert_all_Ok db fees db' :
  insert_all db fees = Ok db' ↔
    Forall (λ fee, refers (fee_event_id fee) (Some (fee_row fee)) db) fees ∧
    db' = set_dev_fees (λ t, foldl insert_fee t fees) db.
Proof.
  revert db. induction fees as [|fee fees IH]; intros db; cbn [insert_all foldl].
  { destruct db; unfold set_dev_fees; cbn. rewrite Forall_nil. naive_solver. }
  rewrite bind_Ok. setoid_rewrite insert_Ok. rewrite Forall_cons. split.
  - intros (? & [Hfee ->] & [Hall ->]%IH). split_and!; [done| |by destruct db].
    eapply Forall_impl; [exact Hall|]. intros b. apply (proj1 (insert_fee_refers db fee b Hfee)).
  - intros [[Hfee Hall] ->]. eexists. split; [done|]. apply IH. split; [|by destruct db].
    eapply Forall_impl; [exact Hall|]. intros b. apply (proj2 (insert_fee_refers db fee b Hfee)).
Qed.

Lemma insert_all_flagged db fees db' :
  flagged (dev_fees db) → insert_all db fees = Ok db' → flagged (dev_fees db').
Proof.
  intros Hf [_ ->]%insert_all_Ok. cbn. revert Hf. generalize (dev_fees db) as t.
  induction fees as [|fee fees IH]; intros t Hf; [done|]. cbn. apply IH. by apply insert_fee_flagged.
Qed.

(** C18: one order, one settlement. Whatever fees have been stored, in
    whatever order, each order that has any has exactly one fee not flagged a
    duplicate: its earliest, the lowest event id in a tied second. *)
Theorem one_settlement_per_order db fees db' oid :
  flagged (dev_fees db) → insert_all db fees = Ok db' → fees_of (dev_fees db') oid ≠ [] →
  ∃ canonical, canonical ∈ fees_of (dev_fees db') oid ∧
    (∀ r, r ∈ fees_of (dev_fees db') oid → by_key oldest_first canonical r) ∧
    (∀ r, r ∈ fees_of (dev_fees db') oid → (fr_is_duplicate r = 0 ↔ r = canonical)).
Proof.
  intros Hf Hi Hne. pose proof (insert_all_flagged _ _ _ Hf Hi) as [Hk Hfl].
  destruct (first_by oldest_first (fees_of (dev_fees db') oid)) as [c|] eqn:E;
    [|by apply first_by_None in E].
  pose proof (first_by_Some _ _ _ E) as [Hc Hle].
  exists c. split_and!; [done..|]. intros r Hr.
  pose proof Hr as (Ho & k & Hkr)%elem_of_fees_of. rewrite (Hfl oid k r Hkr Ho), E. cbn.
  pose proof Hc as (_ & k' & Hkc)%elem_of_fees_of. case_decide as Hid.
  - split; [intros _|done]. injection Hid as Hid. rewrite (Hk _ _ Hkr), (Hk _ _ Hkc) in Hid. naive_solver.
  - split; [done|]. by intros ->.
Qed.

(** the fee table, flags included, does not depend on the order fees
    arrive in: the payment and its duplicate may come either way round. *)
Theorem fees_arrival_irrelevant db fees fees' db' :
  flagged (dev_fees db) →
  (∀ a b, a ∈ fees → b ∈ fees → fee_event_id a = fee_event_id b → a = b) →
  fees ≡ₚ fees' → insert_all db fees = Ok db' → insert_all db fees' = Ok db'.
Proof.
  intros Hf Hinj Hp [Hall ->]%insert_all_Ok. apply insert_all_Ok. split; [by rewrite <- Hp|].
  assert (foldl insert_fee (dev_fees db) fees = foldl insert_fee (dev_fees db) fees') as He.
  { apply (foldl_perm flagged); [|intros; apply insert_fee_comm; auto|done..].
    intros. by apply insert_fee_flagged. }
  destruct db. unfold set_dev_fees. cbn in *. by rewrite He.
Qed.

(** ** Witnesses *)
Section witnesses.
#[local] Existing Instance Demo.demo.

(** The fee, paid twice, and the duplicate listed first. *)
Definition sample_events : list Event :=
  [fee_event "f2" 1700000300 "50"; fee_event "f1" 1700000200 "50"].
Definition sample_fees : list DevFee := omap (λ e, ok (ParseDevFee.parse e)) sample_events.
Definition sample_db : Db := archive_of sample_events.
Definition stored : Db :=
  match insert_all sample_db sample_fees with Ok db => db | Err _ => empty_db end.

Lemma fee_stored_Ok : insert_all sample_db sample_fees = Ok stored.
Proof. vm_compute. reflexivity. Qed.

Lemma empty_flagged : flagged ∅.
Proof. split; [intros k r H|intros oid k r H _]; by rewrite lookup_empty in H. Qed.

Lemma one_settlement_per_order_witness :
  ∃ canonical, canonical ∈ fees_of (dev_fees stored) order_uuid ∧
    ∀ r, r ∈ fees_of (dev_fees stored) order_uuid → (fr_is_duplicate r = 0 ↔ r = canonical).
Proof.
  destruct (one_settlement_per_order sample_db sample_fees stored order_uuid empty_flagged fee_stored_Ok)
    as (c & Hc & _ & Hd); [by vm_compute|]. exists c. split; [exact Hc|exact Hd].
Defined.

End witnesses.
