(* ===== verification/RepoInstances.v ===== *)
(** * The bestiary

    [src/db/repo/instances.rs]: the [instances] projection, the
    [instance_names] history, and the evidence that a publisher is Mostro's. *)

From S2P Require Import Prelude Event Db.

#[local] Open Scope Z_scope.

(** The row [upsert] offers, and what [ON CONFLICT(pubkey) DO UPDATE] makes of
    the row already there: [excluded] is the row offered. *)
Definition offered (pubkey : string) (name : option string) (published_at : Z) : Instance := {|
  inst_pubkey := pubkey;
  inst_name := name;
  inst_name_seen_at := match name with None => None | Some _ => Some published_at end;
  inst_first_seen_at := published_at;
  inst_last_seen_at := published_at;
|}.

(** [excluded.name_seen_at >= instances.name_seen_at], with NULL unknown. *)
Definition seen_ge (excluded current : option Z) : bool :=
  match excluded, current with Some e, Some c => bool_decide (c ≤ e) | _, _ => false end.

Definition merge_name {A} (excluded current : Instance) (column : Instance → option A) : option A :=
  if negb (option_is_some (inst_name excluded)) then column current
  else if negb (option_is_some (inst_name_seen_at current)) then column excluded
  else if seen_ge (inst_name_seen_at excluded) (inst_name_seen_at current) then column excluded
  else column current.

Definition merge (current excluded : Instance) : Instance := {|
  inst_pubkey := inst_pubkey current;
  inst_name := merge_name excluded current inst_name;
  inst_name_seen_at := merge_name excluded current inst_name_seen_at;
  inst_first_seen_at := Z.min (inst_first_seen_at current) (inst_first_seen_at excluded);
  inst_last_seen_at := Z.max (inst_last_seen_at current) (inst_last_seen_at excluded);
|}.

Definition upsert (db : Db) (pubkey : string) (name : option string) (published_at : Z) : Db :=
  let excluded := offered pubkey name published_at in
  set_instances (λ t, <[pubkey := match t !! pubkey with
                                  | Some current => merge current excluded
                                  | None => excluded
                                  end]> t) db.

(** [INSERT … ON CONFLICT(pubkey, name) DO UPDATE SET seen_at = MAX(…)]. *)
Definition record_name (db : Db) (pubkey name : string) (published_at : Z) : Db :=
  set_instance_names (λ t, <[(pubkey, name) := match t !! (pubkey, name) with
                                               | Some seen_at => Z.max seen_at published_at
                                               | None => published_at
                                               end]> t) db.

(** [SELECT EXISTS (… WHERE pubkey = ?1 UNION ALL …)] over the four kinds
    that carry a [y] tag. *)
Definition is_platform_proven (db : Db) (pubkey : string) : bool :=
  bool_decide (pubkey ∈ vr_pubkey <$> rows (order_versions db)) ||
  bool_decide (pubkey ∈ fr_pubkey <$> rows (dev_fees db)) ||
  bool_decide (pubkey ∈ dvr_pubkey <$> rows (dispute_versions db)) ||
  bool_decide (pubkey ∈ ir_pubkey <$> rows (instance_info db)).

(** The same evidence asked of the whole table: [UNION … ORDER BY pubkey]. *)
Definition platform_proven (db : Db) : list string :=
  distinct ((vr_pubkey <$> rows (order_versions db)) ++ (fr_pubkey <$> rows (dev_fees db)) ++
            (dvr_pubkey <$> rows (dispute_versions db)) ++ (ir_pubkey <$> rows (instance_info db))).

Definition find (db : Db) (pubkey : string) : option Instance := instances db !! pubkey.

(** [ORDER BY first_seen_at, pubkey]. *)
Definition all (db : Db) : list Instance :=
  order_by (λ i, (inst_first_seen_at i, inst_pubkey i)) (rows (instances db)).

(** [WHERE pubkey = ? ORDER BY seen_at DESC, name]. *)
Definition names (db : Db) (pubkey : string) : list (string * Z) :=
  order_by (λ '(name, seen_at), (- seen_at, name))
    ((λ '((_, name), seen_at), (name, seen_at)) <$>
       filter (λ '((owner, _), _), owner = pubkey) (map_to_list (instance_names db))).

Definition clear (db : Db) : Db := set_instances (λ _, ∅) (set_instance_names (λ _, ∅) db).

(** asking for every proven publisher and asking about one publisher are
    the same question: a pubkey is in the sorted list exactly when it is
    proven, so a request narrowed to the list loses no proven publisher. *)
Theorem platform_proven_spec db pubkey :
  pubkey ∈ platform_proven db ↔ is_platform_proven db pubkey = true.
Proof.
  unfold platform_proven, is_platform_proven.
  rewrite elem_of_distinct, !elem_of_app, !orb_true_iff, !bool_decide_eq_true. tauto.
Qed.

(** ** Sightings

    One event of an instance: who, the name if it carried one, and when. *)

Definition Sighting : Type := string * option string * Z.
Definition sight (db : Db) (s : Sighting) : Db :=
  let '(pubkey, name, at_ts) := s in upsert db pubkey name at_ts.

(** What one second of a publisher's events can call it, when its events of
    that second agree. *)
Definition agrees (said : string → Z → option string) (s : Sighting) : Prop :=
  let '(pubkey, name, at_ts) := s in ∀ n, name = Some n → said pubkey at_ts = Some n.

Definition row_agrees (said : string → Z → option string) (k : string) (i : Instance) : Prop :=
  inst_pubkey i = k ∧
  match inst_name i, inst_name_seen_at i with
  | Some n, Some t => said k t = Some n
  | None, None => True
  | _, _ => False
  end.

Definition db_agrees (said : string → Z → option string) (db : Db) : Prop :=
  ∀ k i, instances db !! k = Some i → row_agrees said k i.

Lemma offered_agrees said pubkey name at_ts :
  agrees said (pubkey, name, at_ts) → row_agrees said pubkey (offered pubkey name at_ts).
Proof. unfold agrees, row_agrees. destruct name; cbn; auto. Qed.

Lemma merge_agrees said k a b : row_agrees said k a → row_agrees said k b → row_agrees said k (merge a b).
Proof.
  unfold row_agrees, merge, merge_name. cbn. intros [-> Ha] [Hb1 Hb]. split; [done|].
  destruct (inst_name a) eqn:?, (inst_name_seen_at a) eqn:?, (inst_name b) eqn:?,
    (inst_name_seen_at b) eqn:?; cbn; try done.
  case_bool_decide; by rewrite ?Heqo, ?Heqo0, ?Heqo1, ?Heqo2.
Qed.

Lemma sight_agrees said db s : agrees said s → db_agrees said db → db_agrees said (sight db s).
Proof.
  destruct s as [[pubkey name] at_ts]. intros Hs Hdb k i. cbn. rewrite lookup_insert.
  case_decide as Hk; [|by apply Hdb]. subst k. intros [= <-].
  destruct (instances db !! pubkey) eqn:E; [|by apply offered_agrees].
  apply merge_agrees; [by apply Hdb|by apply offered_agrees].
Qed.

(** Merging is commutative and associative on rows that agree. *)
Lemma merge_swap said k i a b :
  row_agrees said k i → row_agrees said k a → row_agrees said k b →
  merge (merge i a) b = merge (merge i b) a.
Proof.
  intros [Hi Hi'] [Ha Ha'] [Hb Hb']. unfold merge, merge_name. cbn.
  destruct i as [? ni ti fi li], a as [? na ta fa la], b as [? nb tb fb lb]. cbn in *.
  destruct ni, ti, na, ta, nb, tb; try done; cbn;
    repeat (case_bool_decide; cbn); f_equal; try lia; f_equal; try lia;
    simplify_eq; match goal with
    | H1 : said _ ?t = Some _, H2 : said _ ?t' = Some _ |- _ = _ =>
        assert (t = t') by lia; congruence
    end.
Qed.

Lemma merge_offers said k a b :
  row_agrees said k a → row_agrees said k b → merge a b = merge b a.
Proof.
  intros [Ha Ha'] [Hb Hb']. unfold merge, merge_name. cbn.
  destruct a as [? na ta fa la], b as [? nb tb fb lb]. cbn in *. subst.
  destruct na, ta, nb, tb; try done; cbn;
    repeat (case_bool_decide; cbn); f_equal; try lia; f_equal; try lia;
    simplify_eq; match goal with
    | H1 : said _ ?t = Some _, H2 : said _ ?t' = Some _ |- _ = _ =>
        assert (t = t') by lia; congruence
    end.
Qed.

Lemma sight_comm said db a b :
  db_agrees said db → agrees said a → agrees said b → sight (sight db a) b = sight (sight db b) a.
Proof.
  destruct a as [[pa na] ta], b as [[pb nb] tb]. intros Hdb Ha Hb.
  pose proof (offered_agrees _ _ _ _ Ha). pose proof (offered_agrees _ _ _ _ Hb).
  cbn. unfold upsert, set_instances. cbn. f_equal. destruct (decide (pa = pb)) as [<-|Hne].
  - rewrite !lookup_insert_eq, !insert_insert_eq. f_equal.
    destruct (instances db !! pa) as [i|] eqn:E.
    + apply (merge_swap said pa); [by apply Hdb|done..].
    + by apply (merge_offers said pa).
  - rewrite !lookup_insert_ne by done. by apply insert_insert_ne.
Qed.


(** without that proviso the order shows: of two names published in the
    same second the one that arrives last is kept. *)
Theorem tied_names_last_arrival_wins db pubkey a b at_ts :
  a ≠ b →
  let first_a := sight (sight db (pubkey, Some a, at_ts)) (pubkey, Some b, at_ts) in
  let first_b := sight (sight db (pubkey, Some b, at_ts)) (pubkey, Some a, at_ts) in
  instances db !! pubkey = None →
  (inst_name <$> instances first_a !! pubkey = Some (Some b)) ∧
  (inst_name <$> instances first_b !! pubkey = Some (Some a)) ∧ first_a ≠ first_b.
Proof.
  intros Hab first_a first_b Hnone.
  assert (Htie : ∀ x y, inst_name <$> instances (sight (sight db (pubkey, Some x, at_ts)) (pubkey, Some y, at_ts)) !! pubkey
    = Some (Some y)).
  { intros x y. cbn. rewrite !lookup_insert_eq, Hnone. cbn. unfold merge_name. cbn.
    by rewrite bool_decide_true. }
  split_and!; [apply Htie..|]. intros Heq. pose proof (Htie a b) as H1. pose proof (Htie b a) as H2.
  fold first_a in H1. fold first_b in H2. rewrite Heq in H1. congruence.
Qed.

(** ** Witnesses *)

(** What the node called itself, by the second. *)
Definition sample_said (pubkey : string) (t : Z) : option string :=
  if decide (t = 100) then Some "old" else if decide (t = 200) then Some "new" else None.
Definition sample_sightings : list Sighting :=
  [("a11ce", Some "new", 200); ("a11ce", None, 300); ("a11ce", Some "old", 100); ("b0b", Some "old", 100)].


