(* ===== verification/RepoInfo.v ===== *)
(** * The fee history

    [src/db/repo/instance_info.rs]: every kind-38385 version an instance has
    published, and the fee in force at a moment. *)

From S2P Require Import Prelude F64 Event Parse ParseInfo Db Samples.

#[local] Open Scope Z_scope.

(** The row [insert_version] binds; a NaN fee is stored as NULL. *)
Definition info_row (info : InstanceInfo) : InfoRow := {|
  ir_event_id := info_event_id info;
  ir_pubkey := info_pubkey info;
  ir_created_at := info_created_at info;
  ir_fee := info_fee info ≫= bind_real;
  ir_max_order_amount := info_max_order_amount info;
  ir_min_order_amount := info_min_order_amount info;
  ir_fiat_currencies := info_fiat_currencies info;
  ir_mostro_version := info_mostro_version info;
  ir_protocol_version := info_protocol_version info;
  ir_ln_networks := info_ln_networks info;
  ir_bond_enabled := (λ b : bool, if b then 1 else 0) <$> info_bond_enabled info;
|}.

(** [INSERT OR IGNORE INTO instance_info]. *)
Definition insert_version (db : Db) (info : InstanceInfo) : Sql Db :=
  insert_row (info_event_id info) (Some (info_row info)) db.

Definition oldest_first (r : InfoRow) : Z * string := (ir_created_at r, ir_event_id r).
Definition newest_first (r : InfoRow) : Z * string := (- ir_created_at r, ir_event_id r).

(** [WHERE pubkey = ? AND created_at <= ? AND fee IS NOT NULL]. *)
Definition fees_by (db : Db) (pubkey : string) (at_ts : Z) : list InfoRow :=
  filter (λ r, ir_pubkey r = pubkey ∧ ir_created_at r ≤ at_ts ∧ is_Some (ir_fee r))
    (rows (instance_info db)).

(** [… ORDER BY created_at DESC, event_id ASC LIMIT 1]. *)
Definition fee_in_force (db : Db) (pubkey : string) (at_ts : Z) : option f64 :=
  first_by newest_first (fees_by db pubkey at_ts) ≫= ir_fee.

(** [InfoRow::into_info]. *)
Definition into_info (r : InfoRow) : InstanceInfo := {|
  info_event_id := ir_event_id r;
  info_pubkey := ir_pubkey r;
  info_created_at := ir_created_at r;
  info_fee := ir_fee r;
  info_max_order_amount := ir_max_order_amount r;
  info_min_order_amount := ir_min_order_amount r;
  info_fiat_currencies := ir_fiat_currencies r;
  info_mostro_version := ir_mostro_version r;
  info_protocol_version := ir_protocol_version r;
  info_ln_networks := ir_ln_networks r;
  info_bond_enabled := (λ stored, bool_decide (stored ≠ 0)) <$> ir_bond_enabled r;
|}.

Definition versions_of (db : Db) (pubkey : string) : list InfoRow :=
  filter (λ r, ir_pubkey r = pubkey) (rows (instance_info db)).

(** Every version an instance has published, oldest first; and the latest. *)
Definition versions (db : Db) (pubkey : string) : list InstanceInfo :=
  into_info <$> order_by oldest_first (versions_of db pubkey).
Definition latest (db : Db) (pubkey : string) : option InstanceInfo :=
  into_info <$> first_by newest_first (versions_of db pubkey).

Definition clear : Db → Db := set_instance_info (λ _, ∅).

(** ** The fee in force *)

Lemma elem_of_fees_by db pubkey at_ts r :
  r ∈ fees_by db pubkey at_ts ↔
    (ir_pubkey r = pubkey ∧ ir_created_at r ≤ at_ts ∧ is_Some (ir_fee r)) ∧
    ∃ k, instance_info db !! k = Some r.
Proof. unfold fees_by. by rewrite list_elem_of_filter, elem_of_rows. Qed.

Lemma fee_in_force_Some db pubkey at_ts fee :
  fee_in_force db pubkey at_ts = Some fee →
  ∃ r, r ∈ fees_by db pubkey at_ts ∧ ir_fee r = Some fee ∧
    ∀ r', r' ∈ fees_by db pubkey at_ts → by_key newest_first r r'.
Proof. intros (r & [??]%first_by_Some & ?)%bind_Some. eauto. Qed.

Lemma fee_in_force_None db pubkey at_ts :
  fee_in_force db pubkey at_ts = None → fees_by db pubkey at_ts = [].
Proof.
  unfold fee_in_force. destruct (first_by _ _) as [r|] eqn:E.
  - apply first_by_Some in E as [((_ & _ & [??]) & _)%elem_of_fees_by _]. cbn. congruence.
  - intros _. by apply first_by_None in E.
Qed.

(** a trade is valued at the fee of its own time. The fee in force at a
    moment was stated by a version published no later, and no version
    published since states another (the lower event id deciding a tied
    second); there is none exactly when no version had stated one by then,
    and a version that omits its fee changes nothing. *)
Theorem fee_in_force_spec db pubkey at_ts :
  match fee_in_force db pubkey at_ts with
  | Some fee => ∃ r, r ∈ fees_by db pubkey at_ts ∧ ir_fee r = Some fee ∧
      ∀ r', r' ∈ fees_by db pubkey at_ts →
        ir_created_at r' < ir_created_at r ∨
        (ir_created_at r' = ir_created_at r ∧ String.le (ir_event_id r) (ir_event_id r'))
  | None => ∀ k r, instance_info db !! k = Some r → ir_pubkey r = pubkey →
      ir_created_at r ≤ at_ts → ir_fee r = None
  end.
Proof.
  destruct (fee_in_force _ _ _) as [fee|] eqn:E.
  - apply fee_in_force_Some in E as (r & ? & ? & Hle). exists r. split_and!; [done..|].
    intros r' Hr'. destruct (Hle r' Hr') as [?|[??]]; cbn in *; [left; lia|right; split; [lia|done]].
  - intros k r Hk Hp Hat. apply fee_in_force_None in E.
    destruct (ir_fee r) eqn:Hfee; [|done]. assert (r ∈ fees_by db pubkey at_ts) as Hr.
    { apply elem_of_fees_by. split; [split_and!; [done..|by rewrite Hfee]|eauto]. }
    rewrite E in Hr. by apply elem_of_nil in Hr.
Qed.

(** A profile reads back as it was stored, but for a NaN fee. *)
Lemma info_row_round_trip info :
  is_none_or (λ x, negb (is_nan x)) (info_fee info) = true → into_info (info_row info) = info.
Proof.
  destruct info as [? ? ? fee ? ? ? ? ? ? bond]. unfold into_info, info_row. cbn.
  intros Hfee. f_equal; [|by destruct bond as [[]|]].
  destruct fee as [x|]; [|done]. cbn in *. unfold bind_real. by destruct (is_nan x).
Qed.

(** A later version that states no fee, or one published after the moment,
    does not change the fee in force. *)
Lemma fee_in_force_insert db k r pubkey at_ts :
  (∀ k r, instance_info db !! k = Some r → ir_event_id r = k) →
  instance_info db !! k = None → ir_event_id r = k →
  ir_fee r = None ∨ at_ts < ir_created_at r →
  fee_in_force (set_instance_info (insert k r) db) pubkey at_ts = fee_in_force db pubkey at_ts.
Proof.
  intros Hkeyed Hnone Hid Hskip. unfold fee_in_force. f_equal. symmetry. apply first_by_canonical.
  - intros x y (_ & kx & Hx)%elem_of_fees_by (_ & ky & Hy)%elem_of_fees_by [= _ He].
    rewrite (Hkeyed _ _ Hx), (Hkeyed _ _ Hy) in He. naive_solver.
  - unfold fees_by. cbn. rewrite rows_insert by done. rewrite filter_cons, decide_False; [done|].
    intros (_ & ? & [? ?]). destruct Hskip; [congruence|lia].
Qed.

(** A fee stated, then a version that states none. *)
Definition sample_infos : Db :=
  set_instance_info (λ _, list_to_map ((λ r, (ir_event_id r, r)) <$>
    [mkInfoRow "i1" "a11ce" 100 (Some (f64_of_Z 1)) None None None None None None None;
     mkInfoRow "i2" "a11ce" 200 None None None None None None None None])) empty_db.

