(* ===== verification/RepoRates.v ===== *)
(** * Rate snapshots

    [src/db/repo/rates.rs]: one row per kind-30078 event, the rates as a JSON
    object; the printer and the reader of that text are [serde_json]'s. *)

From S2P Require Import Prelude F64 Event Parse ParseRates Db.

#[local] Open Scope Z_scope.

Section repository.
Context `{External}.

(** [serde_json::to_string(&rates)]: a [BTreeMap] in key order. *)
Definition rates_json (table : gmap string f64) : string :=
  json_print (JObject ((λ '(code, x), (code, JNumber x)) <$> btree_iter table)).

(** [serde_json::from_str::<BTreeMap<String, f64>>]: an object of numbers, the
    last of two members with one name. *)
Fixpoint number_members (members : list (string * Json)) (table : gmap string f64) :
    option (gmap string f64) :=
  match members with
  | [] => Some table
  | (code, JNumber x) :: members => number_members members (<[code := x]> table)
  | _ => None
  end.

Definition read_rates (text : string) : option (gmap string f64) :=
  match json_parse text with
  | Ok (JObject members) => number_members members ∅
  | _ => None
  end.

(** The row [insert] binds. *)
Definition rate_row (snapshot : RateSnapshot) : RateRow := {|
  rr_event_id := rs_event_id snapshot;
  rr_pubkey := rs_pubkey snapshot;
  rr_published_at := rs_published_at snapshot;
  rr_source := rs_source snapshot;
  rr_rates_json := rates_json (rs_rates snapshot);
|}.

(** [INSERT OR IGNORE INTO rates]. *)
Definition insert (db : Db) (snapshot : RateSnapshot) : Sql Db :=
  insert_row (rs_event_id snapshot) (Some (rate_row snapshot)) db.

(** [Row::into_snapshot]. *)
Definition into_snapshot (r : RateRow) : Sql RateSnapshot :=
  table ← ok_or (read_rates (rr_rates_json r)) (ColumnDecode "rates_json");
  Ok {|
    rs_event_id := rr_event_id r;
    rs_pubkey := rr_pubkey r;
    rs_published_at := rr_published_at r;
    rs_source := rr_source r;
    rs_rates := table;
  |}.

Definition oldest_first (r : RateRow) : Z * string := (rr_published_at r, rr_event_id r).

(** Every snapshot stored, oldest first; those published inside
    [from, until); and the latest of every publisher. *)
Definition all (db : Db) : Sql (list RateSnapshot) :=
  collect (into_snapshot <$> order_by oldest_first (rows (rates db))).

Definition published_between (db : Db) (from until : Z) : Sql (list RateSnapshot) :=
  collect (into_snapshot <$> order_by oldest_first
    (filter (λ r, from ≤ rr_published_at r ∧ rr_published_at r < until) (rows (rates db)))).

(** [rates JOIN events ON events.id = rates.event_id], with the rank's key:
    [ORDER BY events.created_at DESC, rates.event_id ASC]. *)
Definition joined (db : Db) (pubkey : option string) : list (RateRow * EventRecord) :=
  r ← filter (λ r, is_none_or (λ p, bool_decide (rr_pubkey r = p)) pubkey = true) (rows (rates db));
  match events db !! rr_event_id r with Some e => [(r, e)] | None => [] end.

Definition latest_rank (re : RateRow * EventRecord) : Z * string :=
  (- er_created_at re.2, rr_event_id re.1).

Definition latest_per_instance (db : Db) (pubkey : option string) : Sql (list RateSnapshot) :=
  let candidates := joined db pubkey in
  let ranked := omap (λ p, first_by latest_rank (filter (λ re, rr_pubkey re.1 = p) candidates))
    (distinct ((λ re, rr_pubkey re.1) <$> candidates)) in
  collect ((λ re, into_snapshot re.1) <$> ranked).

Definition clear : Db → Db := set_rates (λ _, ∅).
End repository.
