(* ===== verification/RepoRelays.v ===== *)
(** * Known relays, cursors and requested kinds

    [src/db/repo/relays.rs], [src/db/repo/sync_state.rs] and
    [src/db/repo/indexed_kinds.rs]: the tables a sync keeps for itself. *)

From S2P Require Import Prelude Event Db.

#[local] Open Scope Z_scope.

(** ** [relays.rs] *)
Module Relays.

(** Where a relay URL came from. *)
Inductive Source : Type := Config | Nip65 (pubkey : string).
#[export] Instance Source_eq_dec : EqDecision Source.
Proof. solve_decision. Defined.

Record Relay : Type := mkRelay {
  relay_url : string;
  relay_source : Source;
  relay_first_seen_at : Z;
}.

Definition as_stored (source : Source) : string :=
  match source with Config => "config" | Nip65 pubkey => "nip65:" +:+ pubkey end.

Definition parse (stored : string) : Source :=
  match strip_prefix "nip65:" stored with Some pubkey => Nip65 pubkey | None => Config end.

(** [ON CONFLICT(url) DO NOTHING]. *)
Definition upsert (db : Db) (url : string) (source : Source) (first_seen_at : Z) : Db :=
  set_relays (insert_or_ignore url (mkRelayRow url (as_stored source) first_seen_at)) db.

Definition into_relay (r : RelayRow) : Relay :=
  mkRelay (rly_url r) (parse (rly_source r)) (rly_first_seen_at r).

(** Every relay known, first seen first; and those a NIP-65 list named. *)
Definition all (db : Db) : list Relay :=
  into_relay <$> order_by (λ r, (rly_first_seen_at r, rly_url r)) (rows (relays db)).
Definition discovered (db : Db) : list Relay :=
  filter (λ relay, relay_source relay ≠ Config) (all db).

Lemma strip_prefix_app p s : strip_prefix p (p +:+ s) = Some s.
Proof. induction p as [|a p IH]; [done|]. rewrite string_app_cons. cbn. by rewrite decide_True. Qed.

Lemma source_round_trip source : parse (as_stored source) = source.
Proof.
  destruct source as [|pubkey]; [done|]. unfold parse, as_stored. by rewrite strip_prefix_app.
Qed.

(** Naming relays one after the other. *)
Definition name_relay (db : Db) (named : string * Source * Z) : Db :=
  let '(url, source, at_ts) := named in upsert db url source at_ts.

Lemma name_relay_known db l url r :
  relays db !! url = Some r → relays (foldl name_relay db l) !! url = Some r.
Proof.
  revert db. induction l as [|[[u s] t] l IH]; intros db Hr; [done|]. cbn.
  apply IH. cbn. by rewrite insert_or_ignore_lookup, Hr.
Qed.

(** a relay is credited to whoever named it first, forever: however many
    instances advertise it afterwards, its source and first sighting stand,
    and the text the column holds reads back as that source. *)
Theorem first_source_wins db url source at_ts l :
  relays db !! url = None →
  into_relay <$> relays (foldl name_relay (upsert db url source at_ts) l) !! url
    = Some (mkRelay url source at_ts).
Proof.
  intros Hn. rewrite (name_relay_known _ _ url (mkRelayRow url (as_stored source) at_ts)).
  - unfold into_relay. cbn. by rewrite source_round_trip.
  - cbn. rewrite insert_or_ignore_lookup, Hn. by rewrite decide_True.
Qed.

End Relays.

(** ** [sync_state.rs] *)
Module SyncState.

(** [ON CONFLICT(relay_url, kind) DO UPDATE]: both clocks take the later. *)
Definition advance (db : Db) (relay_url : string) (kind : Z) (created_at now : Z) : Db :=
  set_sync_state (λ t,
    <[(relay_url, kind) := match t !! (relay_url, kind) with
      | Some c => mkCursor relay_url kind (Z.max (cur_last_created_at c) created_at)
                    (Z.max (cur_updated_at c) now)
      | None => mkCursor relay_url kind created_at now
      end]> t) db.

Definition get (db : Db) (relay_url : string) (kind : Z) : option Cursor :=
  sync_state db !! (relay_url, kind).

(** Every cursor, [ORDER BY relay_url, kind]. *)
Definition cursor_le (a b : Cursor) : Prop :=
  (cur_relay_url a ≠ cur_relay_url b ∧ String.le (cur_relay_url a) (cur_relay_url b)) ∨
  (cur_relay_url a = cur_relay_url b ∧ cur_kind a ≤ cur_kind b).
#[export] Instance cursor_le_dec : RelDecision cursor_le.
Proof. unfold RelDecision, cursor_le. intros a b. apply _. Defined.
Definition all (db : Db) : list Cursor := merge_sort cursor_le (rows (sync_state db)).

(** One delivery: relay, kind, the event's clock and ours. *)
Definition Delivery : Type := string * Z * Z * Z.
Definition deliver (db : Db) (d : Delivery) : Db :=
  let '(url, kind, created_at, now) := d in advance db url kind created_at now.

Lemma advance_lookup db url kind at_ts now url' kind' :
  get (advance db url kind at_ts now) url' kind' =
    if decide ((url, kind) = (url', kind')) then
      Some (match get db url kind with
            | Some c => mkCursor url kind (Z.max (cur_last_created_at c) at_ts) (Z.max (cur_updated_at c) now)
            | None => mkCursor url kind at_ts now
            end)
    else get db url' kind'.
Proof. unfold get. cbn. rewrite lookup_insert. by repeat case_decide. Qed.

Lemma deliver_comm db a b : deliver (deliver db a) b = deliver (deliver db b) a.
Proof.
  destruct a as [[[ua ka] ca] na], b as [[[ub kb] cb] nb]. cbn. unfold advance, set_sync_state. cbn.
  f_equal. destruct (decide ((ua, ka) = (ub, kb))) as [[= <- <-]|Hne].
  - rewrite !lookup_insert_eq, !insert_insert_eq. f_equal.
    destruct (sync_state db !! (ua, ka)); cbn; f_equal; lia.
  - rewrite !lookup_insert_ne by done. by apply insert_insert_ne.
Qed.

Lemma advance_monotone db d url kind c :
  get db url kind = Some c →
  ∃ c', get (deliver db d) url kind = Some c' ∧ cur_last_created_at c ≤ cur_last_created_at c' ∧
    cur_updated_at c ≤ cur_updated_at c'.
Proof.
  destruct d as [[[u k] at_ts] now]. intros Hc. cbn [deliver]. rewrite advance_lookup.
  case_decide as He; [|exists c; split; [done|lia]]. injection He as -> ->. rewrite Hc.
  eexists. split; [done|]. cbn. lia.
Qed.

(** a cursor never moves backwards, in either clock, whatever a backfill
    or a replaying relay delivers; and since deliveries commute, a backfill
    and a sync writing at once leave the cursors either alone would reach. *)
Theorem cursor_never_regresses db l l' url kind c :
  get db url kind = Some c → l ≡ₚ l' →
  (∃ c', get (foldl deliver db l) url kind = Some c' ∧
    cur_last_created_at c ≤ cur_last_created_at c' ∧ cur_updated_at c ≤ cur_updated_at c') ∧
  foldl deliver db l = foldl deliver db l'.
Proof.
  intros Hc Hp. split.
  - clear Hp. revert db c Hc. induction l as [|d l IH]; intros db c Hc; [exists c; split; [done|lia]|].
    destruct (advance_monotone db d url kind c Hc) as (c1 & H1 & ? & ?).
    destruct (IH _ _ H1) as (c2 & H2 & ? & ?). exists c2. split; [done|]. lia.
  - apply (foldl_perm (λ _, True)); [done| |done..]. intros. apply deliver_comm.
Qed.

End SyncState.

(** ** [indexed_kinds.rs] *)
Module IndexedKinds.

(** [ON CONFLICT(kind) DO UPDATE]: the floor only deepens. *)
Definition record (db : Db) (kind indexed_from now : Z) : Db :=
  let from := Z.max indexed_from 0 in
  set_indexed_kinds (λ t,
    <[kind := match t !! kind with
              | Some r => mkKindRow kind (Z.min (kr_indexed_from r) from) (Z.max (kr_updated_at r) now)
              | None => mkKindRow kind from now
              end]> t) db.

Definition indexed_from (db : Db) (kind : Z) : option Z := kr_indexed_from <$> indexed_kinds db !! kind.

Lemma record_lookup db kind from now kind' :
  indexed_from (record db kind from now) kind' =
    if decide (kind = kind') then Some (match indexed_from db kind with
                                        | Some f => Z.min f (Z.max from 0)
                                        | None => Z.max from 0
                                        end)
    else indexed_from db kind'.
Proof.
  unfold indexed_from. cbn. rewrite lookup_insert. case_decide; [|done].
  cbn. by destruct (indexed_kinds db !! kind).
Qed.
End IndexedKinds.
