(* ===== verification/RepoEvents.v ===== *)
(** * The archive's dedup gate and its floors

    [src/db/repo/events.rs] with the [Scope] of [src/db/load/mod.rs]: storing
    an event once, and how far back the archive can speak for a report. *)

From S2P Require Import Prelude Network Event Parse Db.
From S2P Require Import RepoRelays.
From S2P Require Text ParseOrder ParseDevFee ParseDispute ParseInfo ParseRelayList ParseRates.

#[local] Open Scope Z_scope.

(** ** [db::load::Scope] *)

(** What every loader narrows its read to: one instance or all of them, and
    some networks (none listed is no filter). *)
Record Scope : Type := mkScope {
  scope_pubkey : option string;
  scope_networks : list Network;
}.

(** The clause [AND pubkey = ?], and the clause [AND network IN (…)], which a
    NULL network never satisfies. *)
Definition apply_instance (scope : Scope) (pubkey : string) : bool :=
  is_none_or (λ p, bool_decide (pubkey = p)) (scope_pubkey scope).
Definition apply_scope (scope : Scope) (pubkey : string) (network : option string) : bool :=
  apply_instance scope pubkey &&
  match scope_networks scope with
  | [] => true
  | networks => is_some_and (λ n, bool_decide (n ∈ as_str <$> networks)) network
  end.

(** [instance_label]: a name is never an identity, so the pubkey is part. *)
Definition SHORT_PUBKEY_LEN : nat := 8.
Definition instance_label (pubkey : string) (name : option string) : string :=
  match name with
  | Some name => name +:+ " (" +:+ Text.take_chars SHORT_PUBKEY_LEN pubkey +:+ ")"
  | None => pubkey
  end.

(** ** [EventRecord::new] *)

(** The first value of the [d] tag, if the tag is there once. *)
Definition d_tag (event : Event) : option string :=
  match tag_values event "d" with
  | Ok (Some values) => head values
  | _ => None
  end.

Definition record_of `{External} (event : Event) (relay_url : string) (seen_at : Z) : EventRecord := {|
  er_id := ev_id event;
  er_pubkey := ev_pubkey event;
  er_kind := ev_kind event;
  er_created_at := as_i64 (ev_created_at event);
  er_d_tag := d_tag event;
  er_raw_json := as_json event;
  er_relay_url := relay_url;
  er_seen_at := seen_at;
|}.

(** [INSERT OR IGNORE INTO events]; whether a row was added. *)
Definition insert_if_new (db : Db) (record : EventRecord) : bool * Db :=
  match events db !! er_id record with
  | Some _ => (false, db)
  | None => (true, set_events (insert (er_id record) record) db)
  end.

Definition event_exists (db : Db) (id : string) : bool := option_is_some (events db !! id).
Definition is_empty (db : Db) : bool := bool_decide (length (rows (events db)) = 0%nat).
Definition count (db : Db) : Z := Z.of_nat (length (rows (events db))).

(** Every archived event, [ORDER BY created_at, id]. *)
Definition all (db : Db) : list EventRecord :=
  order_by (λ r, (er_created_at r, er_id r)) (rows (events db)).

(** ** Floors *)

(** [nostr::filters::SINGLE_COPY_KINDS]. *)
Definition SINGLE_COPY_KINDS : list Z := [ParseInfo.KIND; ParseRates.KIND; ParseRelayList.KIND].

(** The events of a kind (or of every kind) inside the scope. *)
Definition scoped (db : Db) (kind : option Z) (scope : Scope) : list EventRecord :=
  filter (λ r, is_none_or (λ k, bool_decide (er_kind r = k)) kind && apply_instance scope (er_pubkey r) = true)
    (rows (events db)).

Definition scoped_min (db : Db) (kind : option Z) (scope : Scope) : option Z :=
  sql_min ((λ r, Some (er_created_at r)) <$> scoped db kind scope).

Definition latest_created_at (db : Db) (scope : Scope) : option Z :=
  sql_max ((λ r, Some (er_created_at r)) <$> scoped db None scope).

Definition kind_floor (db : Db) (kind : Z) (scope : Scope) : option Z :=
  if decide (kind ∈ SINGLE_COPY_KINDS) then
    match IndexedKinds.indexed_from db kind with
    | Some from => Some from
    | None => scoped_min db (Some kind) scope
    end
  else
    match scoped_min db (Some kind) scope with
    | Some first => Some first
    | None => IndexedKinds.indexed_from db kind
    end.

(** The loop of [earliest_created_at] over the kinds. *)
Fixpoint floor_over (db : Db) (scope : Scope) (floor : Z) (kinds : list Z) : option Z :=
  match kinds with
  | [] => Some floor
  | kind :: kinds =>
      match kind_floor db kind scope with
      | None => None
      | Some known => floor_over db scope (Z.max floor known) kinds
      end
  end.

Definition earliest_created_at (db : Db) (kinds : list Z) (scope : Scope) : option Z :=
  match scoped_min db None scope with
  | None => None
  | Some archive => floor_over db scope archive kinds
  end.

(** ** The dedup gate *)

Lemma insert_if_new_lookup db record k :
  events (insert_if_new db record).2 !! k =
    match events db !! k with
    | Some r => Some r
    | None => if decide (er_id record = k) then Some record else None
    end.
Proof.
  unfold insert_if_new. destruct (events db !! er_id record) eqn:E; cbn.
  - destruct (events db !! k) eqn:Hk; [done|]. case_decide; congruence.
  - destruct (decide (er_id record = k)) as [<-|?]; [by rewrite E, lookup_insert_eq|].
    rewrite lookup_insert_ne by done. by destruct (events db !! k).
Qed.

Lemma insert_if_new_spec db record :
  (insert_if_new db record).1 = negb (event_exists db (er_id record)).
Proof. unfold insert_if_new, event_exists. by destruct (events db !! _). Qed.

(** an event is archived once, by the relay that delivered it first: a
    second copy answers that it was known and changes nothing at all, however
    many other events were stored in between. *)
Theorem archived_once db record record' records :
  er_id record = er_id record' → (insert_if_new db record).1 = true →
  let db' := foldl (λ db r, (insert_if_new db r).2) (insert_if_new db record).2 records in
  insert_if_new db' record' = (false, db') ∧ events db' !! er_id record = Some record.
Proof.
  intros Hid Hnew db'.
  assert (events db' !! er_id record = Some record) as Hin.
  { unfold db'. generalize (insert_if_new_lookup db record (er_id record)).
    rewrite insert_if_new_spec in Hnew. unfold event_exists in Hnew.
    destruct (events db !! er_id record); [done|]. rewrite decide_True by done.
    generalize (insert_if_new db record).2 as d. clear -records.
    induction records as [|r rs IH]; intros d Hd; [done|]. cbn. apply IH.
    by rewrite insert_if_new_lookup, Hd. }
  split; [|done]. unfold insert_if_new. by rewrite <- Hid, Hin.
Qed.

(** ** What a floor says *)

Lemma elem_of_scoped db kind scope r :
  r ∈ scoped db kind scope ↔
    (∀ k, kind = Some k → er_kind r = k) ∧ apply_instance scope (er_pubkey r) = true ∧
    ∃ id, events db !! id = Some r.
Proof.
  unfold scoped. rewrite list_elem_of_filter, elem_of_rows, andb_true_iff.
  destruct kind as [k|]; cbn; rewrite ?bool_decide_eq_true; naive_solver.
Qed.

Lemma scoped_min_Some db kind scope t :
  scoped_min db kind scope = Some t ↔
    (∃ r, r ∈ scoped db kind scope ∧ er_created_at r = t) ∧
    ∀ r, r ∈ scoped db kind scope → t ≤ er_created_at r.
Proof.
  unfold scoped_min. rewrite sql_min_Some. setoid_rewrite list_elem_of_fmap. naive_solver.
Qed.

Lemma scoped_min_None db kind scope : scoped_min db kind scope = None ↔ scoped db kind scope = [].
Proof.
  unfold scoped_min. split; [|by intros ->]. destruct (scoped db kind scope) as [|r l]; [done|].
  intros Hn. destruct (sql_min_le ((λ r, Some (er_created_at r)) <$> r :: l) (er_created_at r))
    as (? & ? & _); [by constructor|congruence].
Qed.

Lemma floor_over_Some db scope floor kinds f :
  floor_over db scope floor kinds = Some f →
  floor ≤ f ∧ (∀ kind, kind ∈ kinds → ∃ k, kind_floor db kind scope = Some k ∧ k ≤ f) ∧
  (f = floor ∨ ∃ kind, kind ∈ kinds ∧ kind_floor db kind scope = Some f).
Proof.
  revert floor. induction kinds as [|kind kinds IH]; intros floor; cbn.
  { intros [= <-]. split_and!; [lia|by intros ? ?%elem_of_nil|by left]. }
  destruct (kind_floor db kind scope) as [k|] eqn:E; [|done].
  intros (Hle & Hall & Hsrc)%IH. split_and!; [lia| |].
  - intros kind' [->|Hin]%elem_of_cons; [exists k; split; [done|lia]|by apply Hall].
  - destruct Hsrc as [->|(k' & ? & ?)]; [|right; exists k'; split; [by right|done]].
    destruct (Z.max_spec floor k) as [[_ ->]|[_ ->]]; [right; exists kind; split; [by left|done]|by left].
Qed.

Lemma floor_over_None db scope floor kinds :
  floor_over db scope floor kinds = None → ∃ kind, kind ∈ kinds ∧ kind_floor db kind scope = None.
Proof.
  revert floor. induction kinds as [|kind kinds IH]; intros floor; cbn; [done|].
  destruct (kind_floor db kind scope) as [k|] eqn:E.
  - intros (k' & ? & ?)%IH. exists k'. split; [by right|done].
  - exists kind. split; [by left|done].
Qed.

Lemma kind_floor_None db kind scope :
  kind_floor db kind scope = None ↔
    scoped db (Some kind) scope = [] ∧ IndexedKinds.indexed_from db kind = None.
Proof.
  unfold kind_floor. rewrite <- scoped_min_None.
  case_decide; destruct (IndexedKinds.indexed_from db kind), (scoped_min db (Some kind) scope);
    naive_solver.
Qed.


Definition sample_record (id relay : string) : EventRecord :=
  mkEventRecord id "a11ce" 38383 100 None "{}" relay 0.

(** An order of August beside a fee of January: the orders set the floor. *)
Definition two_kinds : Db := set_events (λ _, list_to_map
  [("f1", mkEventRecord "f1" "a11ce" 8383 100 None "{}" "wss://a" 0);
   ("e1", mkEventRecord "e1" "a11ce" 38383 700 None "{}" "wss://a" 0)]) empty_db.

