(* ===== verification/Heartbeats.v ===== *)
(** * Redundant heartbeats

    [src/db/repo/heartbeats.rs], step 6a: whether a republication says
    anything the archive does not already hold. *)

From S2P Require Import Prelude Event Parse Db RepoEvents.

#[local] Open Scope Z_scope.

Definition RATES_BUCKET_SECS : Z := 3600.

(** What the redundancy rule needs from a parsed event. *)
Inductive Heartbeat : Type :=
| Announcement
| Rates (published_at : Z)
| NoHeartbeat.

(** [Vec<String>]'s order: lexicographic on the byte order of its strings. *)
Fixpoint tag_le (a b : list string) : Prop :=
  match a, b with
  | [], _ => True
  | _ :: _, [] => False
  | x :: a, y :: b => (x ≠ y ∧ String.le x y) ∨ (x = y ∧ tag_le a b)
  end.
#[export] Instance tag_le_dec : RelDecision tag_le.
Proof.
  unfold RelDecision. induction x as [|x a IH]; intros [|y b]; cbn; apply _.
Defined.

(** Whether two events carry the same tags, in any order. *)
Definition same_tags (a b : Event) : bool :=
  bool_decide (merge_sort tag_le (ev_tags a) = merge_sort tag_le (ev_tags b)).

(** The hour a moment falls in. [i64] addition wraps in a release build. *)
Definition i64_wrap (z : Z) : Z := (z - i64_min) mod 2 ^ 64 + i64_min.
Definition bucket_of (published_at : Z) : Z := published_at - published_at mod RATES_BUCKET_SECS.

Section rule.
Context `{External}.

(** The version archived immediately before the event, for its publisher and
    address: [ORDER BY created_at DESC, id ASC LIMIT 1]. *)
Definition preceding (db : Db) (event : Event) : list EventRecord :=
  filter (λ r, er_pubkey r = ev_pubkey event ∧ er_kind r = ev_kind event ∧ er_d_tag r = d_tag event ∧
    er_created_at r ≤ as_i64 (ev_created_at event) ∧ er_id r ≠ ev_id event) (rows (events db)).
Definition record_newest (r : EventRecord) : Z * string := (- er_created_at r, er_id r).
Definition previous (db : Db) (event : Event) : option string :=
  er_raw_json <$> first_by record_newest (preceding db event).

Definition is_redundant (db : Db) (event : Event) (heartbeat : Heartbeat) : bool :=
  match heartbeat with
  | NoHeartbeat => false
  | Rates published_at =>
      let bucket := bucket_of published_at in
      bool_decide (Exists (λ r, rr_pubkey r = ev_pubkey event ∧ bucket ≤ rr_published_at r ∧
        rr_published_at r < i64_wrap (bucket + RATES_BUCKET_SECS) ∧ rr_event_id r ≠ ev_id event)
        (rows (rates db)))
  | Announcement =>
      is_some_and (λ previous, bool_decide (ev_content previous = ev_content event) && same_tags previous event)
        (previous db event ≫= from_json)
  end.
End rule.

(** ** Tags are compared as multisets *)

#[export] Instance tag_le_total : Total tag_le.
Proof.
  intros a. induction a as [|x a IH]; intros [|y b]; cbn; [by left|by left|by right|].
  destruct (decide (x = y)) as [<-|Hne].
  - destruct (IH b); [left|right]; by right.
  - destruct (total String.le x y); [left|right]; left; by split.
Qed.
#[export] Instance tag_le_antisymm : AntiSymm (=) tag_le.
Proof.
  intros a. induction a as [|x a IH]; intros [|y b]; cbn; [done|done|done|].
  intros [[? ?]|[-> ?]] [[? ?]|[? ?]]; try congruence.
  - exfalso. by apply H, (anti_symm String.le).
  - f_equal. by apply IH.
Qed.
#[export] Instance tag_le_trans : Transitive tag_le.
Proof.
  intros a. induction a as [|x a IH]; intros [|y b] [|z c]; cbn; try done.
  intros [[Hxy ?]|[-> ?]] [[Hyz ?]|[-> ?]].
  - left. split; [|by etrans]. intros ->. by apply Hxy, (anti_symm String.le).
  - by left.
  - by left.
  - right. split; [done|]. by apply (IH b).
Qed.

(** two announcements are compared as the sets their publisher keeps: the
    same tags in another order are the same, and a repeated, missing or
    changed tag is a change. *)
Theorem same_tags_spec a b : same_tags a b = true ↔ ev_tags a ≡ₚ ev_tags b.
Proof.
  unfold same_tags. rewrite bool_decide_eq_true. split.
  - intros Heq. by rewrite <- (merge_sort_Permutation tag_le (ev_tags a)), Heq, merge_sort_Permutation.
  - intros Hp. apply (StronglySorted_unique tag_le).
    + apply StronglySorted_merge_sort; apply _.
    + apply StronglySorted_merge_sort; apply _.
    + by rewrite !merge_sort_Permutation.
Qed.

(** ** One snapshot an hour *)

Lemma i64_wrap_id z : is_i64 z → i64_wrap z = z.
Proof. unfold is_i64, i64_wrap, i64_min, i64_max. intros. rewrite Z.mod_small; lia. Qed.

Lemma bucket_spec t t' : bucket_of t ≤ t' < bucket_of t + RATES_BUCKET_SECS ↔ t' / RATES_BUCKET_SECS = t / RATES_BUCKET_SECS.
Proof.
  unfold bucket_of, RATES_BUCKET_SECS.
  pose proof (Z.div_mod t 3600). pose proof (Z.mod_pos_bound t 3600).
  pose proof (Z.div_mod t' 3600). pose proof (Z.mod_pos_bound t' 3600). split; nia.
Qed.

(** a rate snapshot is redundant exactly when its publisher already has
    another one in the same hour. The proviso is the end of the 64-bit clock,
    where the end of the hour does not fit the integer the query binds. *)
Theorem rates_redundant_spec `{External} db event published_at :
  is_i64 (bucket_of published_at + RATES_BUCKET_SECS) →
  is_redundant db event (Rates published_at) = true ↔
    ∃ k r, rates db !! k = Some r ∧ rr_pubkey r = ev_pubkey event ∧ rr_event_id r ≠ ev_id event ∧
      rr_published_at r / RATES_BUCKET_SECS = published_at / RATES_BUCKET_SECS.
Proof.
  intros Hi. unfold is_redundant. rewrite bool_decide_eq_true, Exists_exists, i64_wrap_id by done.
  setoid_rewrite elem_of_rows. setoid_rewrite <- bucket_spec. split.
  - intros (r & [k ?] & ? & ? & ? & ?). by exists k, r.
  - intros (k & r & ? & ? & ? & ? & ?). exists r. split_and!; [by exists k|done..].
Qed.

(** an announcement is redundant exactly when the version archived
    immediately before it, for its publisher and address, reads back as an
    event with the same content and the same tags. *)
Theorem announcement_redundant_spec `{External} db event :
  (∀ k r, events db !! k = Some r → er_id r = k) →
  is_redundant db event Announcement = true ↔
    ∃ r e, r ∈ preceding db event ∧
      (∀ r', r' ∈ preceding db event → by_key record_newest r r') ∧
      from_json (er_raw_json r) = Some e ∧ ev_content e = ev_content event ∧ ev_tags e ≡ₚ ev_tags event.
Proof.
  intros Hkeyed. unfold is_redundant, previous. split.
  - destruct (first_by record_newest (preceding db event)) as [r|] eqn:Hf; [|done]. cbn.
    destruct (from_json (er_raw_json r)) as [e|] eqn:He; [|done]. cbn.
    rewrite andb_true_iff, bool_decide_eq_true, same_tags_spec. intros [??].
    apply first_by_Some in Hf as [??]. by exists r, e.
  - intros (r & e & Hr & Hle & He & Hc & Ht).
    rewrite (first_by_intro record_newest (preceding db event) r); [|  |done..].
    + cbn. rewrite He. cbn. rewrite andb_true_iff, bool_decide_eq_true, same_tags_spec. done.
    + intros x y [_ [kx Hx]%elem_of_rows]%list_elem_of_filter [_ [ky Hy]%elem_of_rows]%list_elem_of_filter.
      intros [= _ Hid]. rewrite (Hkeyed _ _ Hx), (Hkeyed _ _ Hy) in Hid. naive_solver.
Qed.

(** ** Witnesses *)
Section witnesses.
#[local] Existing Instance Demo.demo.

Definition list_event (id : string) (at_ts : Z) (tags : list (list string)) : Event := {|
  ev_id := id; ev_pubkey := "a11ce"; ev_created_at := at_ts; ev_kind := 10002;
  ev_tags := tags; ev_content := "" |}.
Definition first_list : Event := list_event "r1" 100 [["r"; "wss://a"]; ["r"; "wss://b"]].
Definition second_list : Event := list_event "r2" 160 [["r"; "wss://b"]; ["r"; "wss://a"]].
Definition after_first : Db := (insert_if_new empty_db (record_of first_list "wss://a" 0)).2.

Lemma after_first_keyed k r : events after_first !! k = Some r → er_id r = k.
Proof.
  unfold after_first. rewrite insert_if_new_lookup. change (events empty_db) with (∅ : gmap string EventRecord).
  rewrite lookup_empty. case_decide; [intros [= <-]|]; done.
Qed.

Definition one_rate : Db := set_rates (λ _, {["x1" := mkRateRow "x1" "a11ce" 7300 None "{}"]}) empty_db.

Lemma one_rate_hour : is_i64 (bucket_of 10700 + RATES_BUCKET_SECS).
Proof. vm_compute. split; discriminate. Qed.

Lemma one_rate_redundant : is_redundant one_rate (list_event "x2" 10700 []) (Rates 10700) = true.
Proof. vm_compute. reflexivity. Qed.

End witnesses.
