(* ===== verification/Pipeline.v ===== *)
(** * The ingest pipeline

    [src/ingest/pipeline.rs]: one event in, one outcome out. Admission and
    parsing read the event, the archive and the policy; everything an
    accepted event writes is one transaction, which an error rolls back. *)

From S2P Require Import Prelude F64 Network Event Parse Db Versioned.
From S2P Require ParseOrder ParseDevFee ParseDispute ParseInfo ParseRelayList ParseRates.
From S2P Require RepoOrders RepoDisputes RepoDevFees RepoInstances RepoInfo RepoRates RepoRelays.
From S2P Require RepoEvents Heartbeats.

#[local] Open Scope Z_scope.

Definition PLATFORM_TAGGED : list Z :=
  [ParseOrder.KIND; ParseDevFee.KIND; ParseDispute.KIND; ParseInfo.KIND].
Definition UNTAGGED_KINDS : list Z := [ParseRates.KIND; ParseRelayList.KIND].
Definition NETWORK_TAGGED : list Z := [ParseOrder.KIND; ParseDevFee.KIND].

(** Why an event was not indexed. *)
Inductive Rejection : Type :=
| InvalidSignature
| UnknownInstance (pubkey : string)
| UnvouchedPublisher (pubkey : string) (kind : Z)
| OtherPlatform (platform : option string)
| OtherNetwork (network : Network)
| UnsupportedKind (kind : Z)
| Malformed (error : ParseError).

(** What became of one event. *)
Inductive IngestOutcome : Type :=
| Stored | Duplicate | Redundant | Rejected (rejection : Rejection).

(** What a run of the pipeline did. *)
Record Counts : Type := mkCounts { stored : Z; duplicate : Z; redundant : Z; rejected : Z }.

Definition record (c : Counts) (outcome : IngestOutcome) : Counts :=
  match outcome with
  | Stored => mkCounts (stored c + 1) (duplicate c) (redundant c) (rejected c)
  | Duplicate => mkCounts (stored c) (duplicate c + 1) (redundant c) (rejected c)
  | Redundant => mkCounts (stored c) (duplicate c) (redundant c + 1) (rejected c)
  | Rejected _ => mkCounts (stored c) (duplicate c) (redundant c) (rejected c + 1)
  end.
Definition total (c : Counts) : Z := stored c + duplicate c + redundant c + rejected c.

(** Which events this indexer wants. *)
Record Policy : Type := mkPolicy {
  pol_instances : gset string;
  pol_accept_unknown_instances : bool;
  pol_networks : list Network;
}.

(** [Policy::new]. *)
Definition policy_new (instances : list string) (accept_unknown_instances : bool)
    (networks : list Network) : Policy :=
  mkPolicy (list_to_set ((λ pubkey, to_lowercase (trim pubkey)) <$> instances))
    accept_unknown_instances networks.

Definition lists_instance (policy : Policy) (pubkey : string) : bool :=
  bool_decide (to_lowercase pubkey ∈ pol_instances policy).
Definition accepts_instance (policy : Policy) (pubkey : string) : bool :=
  pol_accept_unknown_instances policy || lists_instance policy pubkey.
Definition accepts_network (policy : Policy) (network : Network) : bool :=
  bool_decide (network ∈ pol_networks policy).

(** One published version of an event, parsed into whatever its kind means. *)
Inductive Parsed : Type :=
| POrder (version : ParseOrder.OrderVersion)
| PDevFee (fee : ParseDevFee.DevFee)
| PDispute (version : ParseDispute.DisputeVersion)
| PInfo (info : ParseInfo.InstanceInfo)
| PRates (snapshot : ParseRates.RateSnapshot)
| PRelayList (list : ParseRelayList.RelayList).

(** What a transaction leaves: its writes and value, or, after an error, the
    archive it began with. *)
Definition transaction {A} (body : Db → Sql (Db * A)) (db : Db) : Sql A * Db :=
  match body db with
  | Ok (db', a) => (Ok a, db')
  | Err e => (Err e, db)
  end.

Section pipeline.
Context `{External}.

(** Steps 2 to 5: everything the event alone decides. *)
Definition admits (policy : Policy) (event : Event) : option Rejection :=
  let pubkey := ev_pubkey event in
  let kind := ev_kind event in
  if negb (verify event) then Some InvalidSignature
  else if negb (accepts_instance policy pubkey) then Some (UnknownInstance pubkey)
  else if bool_decide (kind ∈ PLATFORM_TAGGED) && negb (is_mostro event) then
    Some (OtherPlatform (platform event))
  else if bool_decide (kind ∈ NETWORK_TAGGED) then
    match optional_network event with
    | Ok (Some network) => if accepts_network policy network then None else Some (OtherNetwork network)
    | Ok None => None
    | Err error => Some (Malformed error)
    end
  else None.

(** Step 4b: the rule the event alone cannot answer. *)
Definition vouched_for (policy : Policy) (db : Db) (event : Event) : option Rejection :=
  let kind := ev_kind event in
  if negb (bool_decide (kind ∈ UNTAGGED_KINDS)) then None
  else
    let pubkey := ev_pubkey event in
    if lists_instance policy pubkey || RepoInstances.is_platform_proven db pubkey then None
    else Some (UnvouchedPublisher pubkey kind).

(** Step 7's first half: the kind decides which parser reads the event. *)
Definition parse (event : Event) : Result Rejection Parsed :=
  let kind := ev_kind event in
  if decide (kind = ParseOrder.KIND) then map_err Malformed (POrder <$> ParseOrder.parse event)
  else if decide (kind = ParseDevFee.KIND) then map_err Malformed (PDevFee <$> ParseDevFee.parse event)
  else if decide (kind = ParseDispute.KIND) then map_err Malformed (PDispute <$> ParseDispute.parse event)
  else if decide (kind = ParseInfo.KIND) then map_err Malformed (PInfo <$> ParseInfo.parse event)
  else if decide (kind = ParseRates.KIND) then map_err Malformed (PRates <$> ParseRates.parse event)
  else if decide (kind = ParseRelayList.KIND) then map_err Malformed (PRelayList <$> ParseRelayList.parse event)
  else Err (UnsupportedKind kind).

(** The loop over a relay list's URLs. *)
Definition upsert_relays (db : Db) (l : ParseRelayList.RelayList) : Db :=
  foldl (λ db url, RepoRelays.Relays.upsert db url
      (RepoRelays.Relays.Nip65 (ParseRelayList.rl_pubkey l)) (ParseRelayList.rl_created_at l))
    db (ParseRelayList.rl_relays l).

(** Step 7's second half, and the bestiary it begins with. *)
Definition persist_instance (db : Db) (event : Event) : Db :=
  let pubkey := ev_pubkey event in
  let created_at := as_i64 (ev_created_at event) in
  let name := instance_name event in
  let db := RepoInstances.upsert db pubkey name created_at in
  match name with Some name => RepoInstances.record_name db pubkey name created_at | None => db end.

Definition persist_parsed (db : Db) (parsed : Parsed) : Sql Db :=
  match parsed with
  | POrder version =>
      db ← RepoOrders.insert_version db version;
      Ok (RepoOrders.refresh_projection db (ParseOrder.ov_order_id version))
  | PDevFee fee => RepoDevFees.insert db fee
  | PDispute version =>
      db ← RepoDisputes.insert_version db version;
      Ok (RepoDisputes.refresh_projection db (ParseDispute.dv_dispute_id version))
  | PInfo info => RepoInfo.insert_version db info
  | PRates snapshot => RepoRates.insert db snapshot
  | PRelayList l => Ok (upsert_relays db l)
  end.

Definition persist (db : Db) (event : Event) (parsed : Parsed) : Sql Db :=
  persist_parsed (persist_instance db event) parsed.

(** What step 6a needs to know about a parsed event. *)
Definition parsed_heartbeat (parsed : Parsed) : Heartbeats.Heartbeat :=
  match parsed with
  | PRates snapshot => Heartbeats.Rates (ParseRates.rs_published_at snapshot)
  | PInfo _ | PRelayList _ => Heartbeats.Announcement
  | POrder _ | PDevFee _ | PDispute _ => Heartbeats.NoHeartbeat
  end.

(** Step 8: this relay has now been read as far as this event. *)
Definition advance (db : Db) (event : Event) (relay_url : string) (now : Z) : Db :=
  RepoRelays.SyncState.advance db relay_url (ev_kind event) (as_i64 (ev_created_at event)) now.

(** The transaction of a parsed event: steps 6a to 8. *)
Definition commit_parsed (event : Event) (parsed : Parsed) (relay_url : string) (now : Z)
    (db : Db) : Sql (Db * IngestOutcome) :=
  if Heartbeats.is_redundant db event (parsed_heartbeat parsed) then
    let db := RepoInstances.upsert db (ev_pubkey event) None (as_i64 (ev_created_at event)) in
    Ok (advance db event relay_url now, Redundant)
  else
    let '(new, db) := RepoEvents.insert_if_new db (RepoEvents.record_of event relay_url now) in
    if new then
      db ← persist db event parsed;
      Ok (advance db event relay_url now, Stored)
    else Ok (advance db event relay_url now, Duplicate).

(** [Pipeline::ingest]. *)
Definition ingest (policy : Policy) (db : Db) (event : Event) (relay_url : string) (now : Z) :
    Sql IngestOutcome * Db :=
  match admits policy event with
  | Some rejection => (Ok (Rejected rejection), db)
  | None =>
      match vouched_for policy db event with
      | Some rejection => (Ok (Rejected rejection), db)
      | None =>
          match parse event with
          | Err rejection =>
              (Ok (Rejected rejection),
               (RepoEvents.insert_if_new db (RepoEvents.record_of event relay_url now)).2)
          | Ok parsed => transaction (commit_parsed event parsed relay_url now) db
          end
      end
  end.

(** [Pipeline::replay]. *)
Definition replay (db : Db) (event : Event) : Sql IngestOutcome * Db :=
  match parse event with
  | Err rejection => (Ok (Rejected rejection), db)
  | Ok parsed => transaction (λ db, db ← persist db event parsed; Ok (db, Stored)) db
  end.
End pipeline.
