(* ===== verification/PipelineFacts.v ===== *)
(** * What the pipeline guarantees

    [ingest] as a step relation ([effect]), the archives it can reach, and
    the invariants of those archives: nothing but wanted events is stored,
    every table is a function of the archived events, an ingest never fails
    on the database, and a second copy of an event adds nothing. *)

From S2P Require Import Prelude F64 Network Event Parse Db Versioned Samples.
From S2P Require ParseOrder ParseDevFee ParseDispute ParseInfo ParseRelayList ParseRates.
From S2P Require RepoOrders RepoDisputes RepoDevFees RepoInstances RepoInfo RepoRates RepoRelays.
From S2P Require RepoEvents Heartbeats.
From S2P Require Import Pipeline.

#[local] Open Scope Z_scope.

#[local] Existing Instances RepoOrders.orders_versioned RepoOrders.orders_versioned_laws.
#[local] Existing Instances RepoDisputes.disputes_versioned RepoDisputes.disputes_versioned_laws.

(** ** Every parser keeps its event's identity *)

Definition parsed_id (p : Parsed) : string :=
  match p with
  | POrder v => ParseOrder.ov_event_id v
  | PDevFee f => ParseDevFee.fee_event_id f
  | PDispute v => ParseDispute.dv_event_id v
  | PInfo i => ParseInfo.info_event_id i
  | PRates s => ParseRates.rs_event_id s
  | PRelayList l => ParseRelayList.rl_event_id l
  end.
Definition parsed_pubkey (p : Parsed) : string :=
  match p with
  | POrder v => ParseOrder.ov_pubkey v
  | PDevFee f => ParseDevFee.fee_pubkey f
  | PDispute v => ParseDispute.dv_pubkey v
  | PInfo i => ParseInfo.info_pubkey i
  | PRates s => ParseRates.rs_pubkey s
  | PRelayList l => ParseRelayList.rl_pubkey l
  end.
Definition parsed_kind (p : Parsed) : Z :=
  match p with
  | POrder _ => ParseOrder.KIND | PDevFee _ => ParseDevFee.KIND | PDispute _ => ParseDispute.KIND
  | PInfo _ => ParseInfo.KIND | PRates _ => ParseRates.KIND | PRelayList _ => ParseRelayList.KIND
  end.

Lemma map_err_Ok {E E' A} (f : E → E') (m : Result E A) a : map_err f m = Ok a ↔ m = Ok a.
Proof. destruct m; naive_solver. Qed.

Section facts.
Context `{External}.
Implicit Types (event : Event) (db : Db) (policy : Policy).

(** The typed parsers, one lemma each: id, pubkey, kind. *)
Ltac identity := intros Hp; inv_ok; repeat (case_match; simplify_eq; inv_ok);
  parsed; repeat split; first [done|congruence].

Lemma order_identity event v :
  ParseOrder.parse event = Ok v → ParseOrder.ov_event_id v = ev_id event ∧
    ParseOrder.ov_pubkey v = ev_pubkey event ∧ ev_kind event = ParseOrder.KIND.
Proof. unfold ParseOrder.parse. identity. Qed.
Lemma fee_identity event v :
  ParseDevFee.parse event = Ok v → ParseDevFee.fee_event_id v = ev_id event ∧
    ParseDevFee.fee_pubkey v = ev_pubkey event ∧ ev_kind event = ParseDevFee.KIND.
Proof. unfold ParseDevFee.parse. identity. Qed.
Lemma dispute_identity event v :
  ParseDispute.parse event = Ok v → ParseDispute.dv_event_id v = ev_id event ∧
    ParseDispute.dv_pubkey v = ev_pubkey event ∧ ev_kind event = ParseDispute.KIND.
Proof. unfold ParseDispute.parse. identity. Qed.
Lemma info_identity event v :
  ParseInfo.parse event = Ok v → ParseInfo.info_event_id v = ev_id event ∧
    ParseInfo.info_pubkey v = ev_pubkey event ∧ ev_kind event = ParseInfo.KIND.
Proof. unfold ParseInfo.parse. identity. Qed.
Lemma rates_identity event v :
  ParseRates.parse event = Ok v → ParseRates.rs_event_id v = ev_id event ∧
    ParseRates.rs_pubkey v = ev_pubkey event ∧ ev_kind event = ParseRates.KIND.
Proof. unfold ParseRates.parse. identity. Qed.
Lemma relay_list_identity event v :
  ParseRelayList.parse event = Ok v → ParseRelayList.rl_event_id v = ev_id event ∧
    ParseRelayList.rl_pubkey v = ev_pubkey event ∧ ev_kind event = ParseRelayList.KIND.
Proof. unfold ParseRelayList.parse. identity. Qed.

(** The dispatch picks the parser of the event's kind, and only that. *)
Lemma parse_Ok event p :
  parse event = Ok p ↔
    match p with
    | POrder v => ParseOrder.parse event = Ok v
    | PDevFee v => ParseDevFee.parse event = Ok v
    | PDispute v => ParseDispute.parse event = Ok v
    | PInfo v => ParseInfo.parse event = Ok v
    | PRates v => ParseRates.parse event = Ok v
    | PRelayList v => ParseRelayList.parse event = Ok v
    end.
Proof.
  unfold parse. split.
  - intros Hp. repeat case_decide; try done; apply map_err_Ok, fmap_Ok in Hp as (v & Hv & ->); done.
  - destruct p as [v|v|v|v|v|v]; intros Hv;
      [pose proof (order_identity _ _ Hv) as (_ & _ & Hk)
      |pose proof (fee_identity _ _ Hv) as (_ & _ & Hk)
      |pose proof (dispute_identity _ _ Hv) as (_ & _ & Hk)
      |pose proof (info_identity _ _ Hv) as (_ & _ & Hk)
      |pose proof (rates_identity _ _ Hv) as (_ & _ & Hk)
      |pose proof (relay_list_identity _ _ Hv) as (_ & _ & Hk)];
      rewrite Hk; cbn; by rewrite Hv.
Qed.

Lemma parse_identity event p :
  parse event = Ok p →
  parsed_id p = ev_id event ∧ parsed_pubkey p = ev_pubkey event ∧ parsed_kind p = ev_kind event.
Proof.
  intros Hp%parse_Ok. destruct p;
    first [apply order_identity in Hp|apply fee_identity in Hp|apply dispute_identity in Hp
          |apply info_identity in Hp|apply rates_identity in Hp|apply relay_list_identity in Hp];
    naive_solver.
Qed.

(** ** What a transaction writes, table by table *)

Lemma refresh_orders_frame db g : ∃ f, RepoOrders.refresh_projection db g = set_orders f db.
Proof.
  unfold RepoOrders.refresh_projection. case_match; [by eexists|].
  exists id. by destruct db.
Qed.
Lemma refresh_disputes_frame db g : ∃ f, RepoDisputes.refresh_projection db g = set_disputes f db.
Proof.
  unfold RepoDisputes.refresh_projection. case_match; [by eexists|].
  exists id. by destruct db.
Qed.
Lemma upsert_relays_frame db l : ∃ f, upsert_relays db l = set_relays f db.
Proof.
  unfold upsert_relays. generalize (ParseRelayList.rl_relays l) as urls. intros urls. revert db.
  induction urls as [|u urls IH]; intros db; cbn [foldl]; [exists id; by destruct db|].
  destruct (IH (RepoRelays.Relays.upsert db u (RepoRelays.Relays.Nip65 (ParseRelayList.rl_pubkey l))
    (ParseRelayList.rl_created_at l))) as [f ->].
  eexists (λ t, f (insert_or_ignore u _ t)). by destruct db.
Qed.
Lemma persist_instance_frame db event :
  ∃ f g, persist_instance db event = set_instances f (set_instance_names g db).
Proof.
  unfold persist_instance. destruct (instance_name event); cbn.
  - eexists _, _. destruct db. reflexivity.
  - eexists _, id. destruct db. reflexivity.
Qed.

(** The writes of [persist_parsed] on the tables of published versions. *)
Inductive writes (db : Db) : Parsed → Db → Prop :=
| writes_order v f :
    writes db (POrder v) (set_orders f
      (set_order_versions (put (ParseOrder.ov_event_id v) (RepoOrders.version_row v)) db))
| writes_fee v : writes db (PDevFee v) (set_dev_fees (λ t, RepoDevFees.insert_fee t v) db)
| writes_dispute v f :
    writes db (PDispute v) (set_disputes f
      (set_dispute_versions (put (ParseDispute.dv_event_id v) (Some (RepoDisputes.version_row v))) db))
| writes_info v :
    writes db (PInfo v)
      (set_instance_info (put (ParseInfo.info_event_id v) (Some (RepoInfo.info_row v))) db)
| writes_rates v :
    writes db (PRates v)
      (set_rates (put (ParseRates.rs_event_id v) (Some (RepoRates.rate_row v))) db)
| writes_relays l f : writes db (PRelayList l) (set_relays f db).

Lemma persist_parsed_writes db p db' : persist_parsed db p = Ok db' → writes db p db'.
Proof.
  destruct p as [v|v|v|v|v|l]; cbn [persist_parsed]; intros Hp.
  - apply bind_Ok in Hp as (d & Hi & [= <-]). unfold RepoOrders.insert_version in Hi.
    apply insert_row_Ok in Hi as [_ ->].
    destruct (refresh_orders_frame (set_order_versions (put (ParseOrder.ov_event_id v) (RepoOrders.version_row v)) db)
      (ParseOrder.ov_order_id v)) as [f Hf]. cbn in *. rewrite Hf. constructor.
  - apply RepoDevFees.insert_Ok in Hp as [_ ->]. constructor.
  - apply bind_Ok in Hp as (d & Hi & [= <-]). unfold RepoDisputes.insert_version in Hi.
    apply insert_row_Ok in Hi as [_ ->].
    destruct (refresh_disputes_frame (set_dispute_versions (put (ParseDispute.dv_event_id v)
      (Some (RepoDisputes.version_row v))) db) (ParseDispute.dv_dispute_id v)) as [f Hf].
    cbn in *. rewrite Hf. constructor.
  - unfold RepoInfo.insert_version in Hp. apply insert_row_Ok in Hp as [_ ->]. constructor.
  - unfold RepoRates.insert in Hp. apply insert_row_Ok in Hp as [_ ->]. constructor.
  - injection Hp as <-. destruct (upsert_relays_frame db l) as [f ->]. constructor.
Qed.

(** The foreign key is the only thing [persist] can fail on. *)
Lemma persist_parsed_total db p :
  is_Some (events db !! parsed_id p) → ∃ db', persist_parsed db p = Ok db'.
Proof.
  intros He. destruct p as [v|v|v|v|v|l]; cbn [persist_parsed parsed_id] in *.
  - unfold RepoOrders.insert_version.
    rewrite (proj2 (insert_row_Ok _ _ db _) (conj (or_intror (or_intror He)) eq_refl)). by eexists.
  - eexists. apply RepoDevFees.insert_Ok. split; [by right; right|done].
  - unfold RepoDisputes.insert_version.
    rewrite (proj2 (insert_row_Ok _ _ db _) (conj (or_intror (or_intror He)) eq_refl)). by eexists.
  - unfold RepoInfo.insert_version. eexists. apply insert_row_Ok. split; [by right; right|done].
  - unfold RepoRates.insert. eexists. apply insert_row_Ok. split; [by right; right|done].
  - by eexists.
Qed.

Lemma persist_total db event p :
  parse event = Ok p → is_Some (events db !! ev_id event) → ∃ db', persist db event p = Ok db'.
Proof.
  intros (Hid & _ & _)%parse_identity He. unfold persist.
  destruct (persist_instance_frame db event) as (f & g & ->). apply persist_parsed_total.
  cbn. by rewrite Hid.
Qed.

(** ** [ingest] as a step *)

Inductive effect (policy : Policy) (db : Db) (event : Event) (relay_url : string) (now : Z) :
    IngestOutcome → Db → Prop :=
| unwanted rejection :
    admits policy event = Some rejection ∨
    (admits policy event = None ∧ vouched_for policy db event = Some rejection) →
    effect policy db event relay_url now (Rejected rejection) db
| unparsed rejection :
    admits policy event = None → vouched_for policy db event = None → parse event = Err rejection →
    effect policy db event relay_url now (Rejected rejection)
      (RepoEvents.insert_if_new db (RepoEvents.record_of event relay_url now)).2
| repeated p :
    admits policy event = None → vouched_for policy db event = None → parse event = Ok p →
    Heartbeats.is_redundant db event (parsed_heartbeat p) = true →
    effect policy db event relay_url now Redundant
      (advance (RepoInstances.upsert db (ev_pubkey event) None (as_i64 (ev_created_at event)))
        event relay_url now)
| known p :
    admits policy event = None → vouched_for policy db event = None → parse event = Ok p →
    Heartbeats.is_redundant db event (parsed_heartbeat p) = false →
    is_Some (events db !! ev_id event) →
    effect policy db event relay_url now Duplicate (advance db event relay_url now)
| fresh p db' :
    admits policy event = None → vouched_for policy db event = None → parse event = Ok p →
    Heartbeats.is_redundant db event (parsed_heartbeat p) = false →
    events db !! ev_id event = None →
    persist (set_events (insert (ev_id event) (RepoEvents.record_of event relay_url now)) db) event p = Ok db' →
    effect policy db event relay_url now Stored (advance db' event relay_url now).

Lemma ingest_total policy db event relay_url now :
  ∃ outcome db', ingest policy db event relay_url now = (Ok outcome, db') ∧
    effect policy db event relay_url now outcome db'.
Proof.
  unfold ingest. destruct (admits policy event) as [r|] eqn:Ha.
  { eexists _, _. split; [done|]. apply unwanted. by left. }
  destruct (vouched_for policy db event) as [r|] eqn:Hv.
  { eexists _, _. split; [done|]. apply unwanted. by right. }
  destruct (parse event) as [p|r] eqn:Hp.
  2: { eexists _, _. split; [done|]. by apply unparsed. }
  unfold transaction, commit_parsed. destruct (Heartbeats.is_redundant _ _ _) eqn:Hr.
  { eexists _, _. split; [done|]. by apply (repeated _ _ _ _ _ p). }
  unfold RepoEvents.insert_if_new. cbn [RepoEvents.record_of er_id].
  destruct (events db !! ev_id event) eqn:He.
  { eexists _, _. split; [done|]. by apply (known _ _ _ _ _ p); rewrite ?He. }
  destruct (persist_total (set_events (insert (ev_id event) (RepoEvents.record_of event relay_url now)) db)
    event p Hp) as [db' Hdb']; [cbn; by rewrite lookup_insert_eq|].
  rewrite Hdb'. cbn. eexists _, _. split; [done|]. by apply (fresh _ _ _ _ _ p).
Qed.

Lemma ingest_effect policy db event relay_url now outcome db' :
  ingest policy db event relay_url now = (outcome, db') →
  ∃ o, outcome = Ok o ∧ effect policy db event relay_url now o db'.
Proof.
  intros Hi. destruct (ingest_total policy db event relay_url now) as (o & d & Hd & He).
  rewrite Hi in Hd. injection Hd as -> ->. eauto.
Qed.
(** ** The archive as a function of its events *)

(** The row an event feeds in each table of published versions. *)
Definition derive_order (event : Event) : option VersionRow :=
  match parse event with Ok (POrder v) => RepoOrders.version_row v | _ => None end.
Definition derive_fee (event : Event) : option FeeRow :=
  match parse event with Ok (PDevFee v) => Some (RepoDevFees.fee_row v) | _ => None end.
Definition derive_dispute (event : Event) : option DisputeVersionRow :=
  match parse event with Ok (PDispute v) => Some (RepoDisputes.version_row v) | _ => None end.
Definition derive_info (event : Event) : option InfoRow :=
  match parse event with Ok (PInfo v) => Some (RepoInfo.info_row v) | _ => None end.
Definition derive_rates (event : Event) : option RateRow :=
  match parse event with Ok (PRates v) => Some (RepoRates.rate_row v) | _ => None end.

(** The event an archive row holds, and the table its events feed. *)
Definition archived_event (t : gmap string EventRecord) (id : string) : option Event :=
  t !! id ≫= λ r, from_json (er_raw_json r).
Definition derived {R} (derive : Event → option R) (evs : gmap string EventRecord) (t : gmap string R) : Prop :=
  ∀ id, t !! id = archived_event evs id ≫= derive.

(** Every archive row is the record of an event, filed under its id. *)
Definition recorded (evs : gmap string EventRecord) : Prop :=
  ∀ k r, evs !! k = Some r → ∃ e relay_url seen_at, r = RepoEvents.record_of e relay_url seen_at ∧ ev_id e = k.

Record archive_ok (db : Db) : Prop := {
  ok_recorded : recorded (events db);
  ok_order_versions : derived derive_order (events db) (order_versions db);
  ok_dispute_versions : derived derive_dispute (events db) (dispute_versions db);
  ok_dev_fees : derived derive_fee (events db) (RepoDevFees.published (dev_fees db));
  ok_instance_info : derived derive_info (events db) (instance_info db);
  ok_rates : derived derive_rates (events db) (rates db);
  ok_orders : projected (V := ParseOrder.OrderVersion) db;
  ok_disputes : projected (V := ParseDispute.DisputeVersion) db;
  ok_flagged : RepoDevFees.flagged (dev_fees db);
}.

(** The archive without the tables a sync keeps for itself and the bestiary. *)
Definition core (db : Db) : Db :=
  set_instances (λ _, ∅) (set_instance_names (λ _, ∅) (set_relays (λ _, ∅)
    (set_sync_state (λ _, ∅) (set_indexed_kinds (λ _, ∅) db)))).

Lemma archive_ok_core db db' : core db = core db' → archive_ok db → archive_ok db'.
Proof.
  destruct db, db'. unfold core, set_instances, set_instance_names, set_relays, set_sync_state,
    set_indexed_kinds. cbn. intros [= -> -> -> -> -> -> -> ->] [? ? ? ? ? ? ? ? ?]. by split.
Qed.

Lemma core_advance db event relay_url now : core (advance db event relay_url now) = core db.
Proof. by destruct db. Qed.
Lemma core_upsert db pubkey name at_ts : core (RepoInstances.upsert db pubkey name at_ts) = core db.
Proof. by destruct db. Qed.
Lemma core_persist_instance db event : core (persist_instance db event) = core db.
Proof. destruct (persist_instance_frame db event) as (f & g & ->). by destruct db. Qed.

Lemma record_raw `{!ExternalLaws} e relay_url seen_at :
  from_json (er_raw_json (RepoEvents.record_of e relay_url seen_at)) = Some e.
Proof. apply from_json_as_json. Qed.

Lemma recorded_insert `{!ExternalLaws} evs event relay_url now :
  recorded evs → recorded (insert (ev_id event) (RepoEvents.record_of event relay_url now) evs).
Proof.
  intros Hr k r. rewrite lookup_insert. case_decide as Hk; [|apply Hr].
  intros [= <-]. by exists event, relay_url, now.
Qed.

(** A new event's row is all that a derived table gains. *)
Lemma derived_insert `{!ExternalLaws} {R} (derive : Event → option R) evs t event relay_url now :
  derived derive evs t → evs !! ev_id event = None →
  derived derive (insert (ev_id event) (RepoEvents.record_of event relay_url now) evs)
    (put (ev_id event) (derive event) t).
Proof.
  intros Hd Hn k. unfold archived_event. rewrite lookup_insert.
  pose proof (Hd k) as Hk. unfold archived_event in Hk.
  unfold put. case_decide as He.
  - subst k. rewrite Hn in Hk. cbn -[RepoEvents.record_of]. rewrite record_raw. cbn.
    destruct (derive event) as [row|]; [|done].
    rewrite insert_or_ignore_lookup, Hk. cbn. by rewrite decide_True.
  - destruct (derive event) as [row|]; [|done].
    rewrite insert_or_ignore_lookup, Hk. destruct (_ ≫= derive); [done|]. by rewrite decide_False.
Qed.

Lemma put_None {R} id (t : gmap string R) : put id None t = t.
Proof. done. Qed.

(** What a fresh event's transaction does to each derived table. *)
Lemma writes_tables db p db' event :
  parse event = Ok p → writes db p db' →
  events db' = events db ∧
  order_versions db' = put (ev_id event) (derive_order event) (order_versions db) ∧
  dispute_versions db' = put (ev_id event) (derive_dispute event) (dispute_versions db) ∧
  RepoDevFees.published (dev_fees db') =
    put (ev_id event) (derive_fee event) (RepoDevFees.published (dev_fees db)) ∧
  instance_info db' = put (ev_id event) (derive_info event) (instance_info db) ∧
  rates db' = put (ev_id event) (derive_rates event) (rates db).
Proof.
  intros Hp Hw. pose proof (parse_identity _ _ Hp) as (Hid & _).
  unfold derive_order, derive_dispute, derive_fee, derive_info, derive_rates. rewrite Hp, <- Hid.
  destruct Hw; cbn [parsed_id]; rewrite ?put_None; split_and!; try reflexivity.
  cbn. apply RepoDevFees.insert_fee_published.
Qed.

(** The projections and the flags survive a write. *)
Lemma projected_same {V R P} `{!EventTable R, !Versioned V R P} db db' :
  table db' = table db → projection db' = projection db →
  projected (V := V) db → projected (V := V) db'.
Proof. unfold projected. by intros -> ->. Qed.

Lemma persist_parsed_orders db p db' :
  persist_parsed db p = Ok db' → projected (V := ParseOrder.OrderVersion) db →
  projected (V := ParseOrder.OrderVersion) db'.
Proof.
  intros Hp Hproj. destruct p as [v|v|v|v|v|l];
    [by apply (store_projected db v)|pose proof (persist_parsed_writes _ _ _ Hp) as Hw..];
    inversion Hw; subst; by eapply projected_same; [| |exact Hproj].
Qed.

Lemma persist_parsed_disputes db p db' :
  persist_parsed db p = Ok db' → projected (V := ParseDispute.DisputeVersion) db →
  projected (V := ParseDispute.DisputeVersion) db'.
Proof.
  intros Hp Hproj. destruct p as [v|v|v|v|v|l];
    [|  |by apply (store_projected db v)| | |]; pose proof (persist_parsed_writes _ _ _ Hp) as Hw;
    inversion Hw; subst; by eapply projected_same; [| |exact Hproj].
Qed.

Lemma persist_parsed_flagged db p db' :
  persist_parsed db p = Ok db' → RepoDevFees.flagged (dev_fees db) → RepoDevFees.flagged (dev_fees db').
Proof.
  intros Hw%persist_parsed_writes Hf. destruct Hw; [done| |done..].
  by apply RepoDevFees.insert_fee_flagged.
Qed.
(** ** The invariant is preserved *)

Lemma archive_ok_events_only `{!ExternalLaws} db event relay_url now rejection :
  parse event = Err rejection → archive_ok db →
  archive_ok (RepoEvents.insert_if_new db (RepoEvents.record_of event relay_url now)).2.
Proof.
  intros Hp Hok. unfold RepoEvents.insert_if_new. cbn [RepoEvents.record_of er_id].
  destruct (events db !! ev_id event) eqn:He; [done|]. destruct Hok.
  assert (∀ {R} (derive : Event → option R) t, derive event = None →
    derived derive (events db) t →
    derived derive (insert (ev_id event) (RepoEvents.record_of event relay_url now) (events db)) t) as Hkeep.
  { intros R derive t Hn Hd. rewrite <- (put_None (ev_id event) t), <- Hn. by apply derived_insert. }
  split; cbn; try (apply Hkeep; [|done]); try done.
  all: try by apply recorded_insert.
  all: unfold derive_order, derive_dispute, derive_fee, derive_info, derive_rates; by rewrite Hp.
Qed.

Lemma persist_ok `{!ExternalLaws} db event p relay_url now db' :
  parse event = Ok p → events db !! ev_id event = None → archive_ok db →
  persist (set_events (insert (ev_id event) (RepoEvents.record_of event relay_url now)) db) event p = Ok db' →
  archive_ok db'.
Proof.
  intros Hp Hn [] Hpersist. unfold persist in Hpersist.
  destruct (persist_instance_frame (set_events (insert (ev_id event) (RepoEvents.record_of event relay_url now)) db)
    event) as (f & g & Hf). rewrite Hf in Hpersist.
  pose proof (writes_tables _ _ _ _ Hp (persist_parsed_writes _ _ _ Hpersist))
    as (Hev & Ho & Hd & Hfee & Hi & Hr). cbn in Hev, Ho, Hd, Hfee, Hi, Hr.
  split; rewrite ?Hev, ?Ho, ?Hd, ?Hfee, ?Hi, ?Hr; try by apply derived_insert.
  - by apply recorded_insert.
  - apply (persist_parsed_orders _ _ _ Hpersist). by eapply projected_same; [| |exact ok_orders0].
  - apply (persist_parsed_disputes _ _ _ Hpersist). by eapply projected_same; [| |exact ok_disputes0].
  - by apply (persist_parsed_flagged _ _ _ Hpersist).
Qed.

Lemma effect_ok `{!ExternalLaws} policy db event relay_url now outcome db' :
  effect policy db event relay_url now outcome db' → archive_ok db → archive_ok db'.
Proof.
  intros He Hok. destruct He as [r _|r _ _ Hp|p _ _ _ _|p _ _ _ _ _|p db' _ _ Hp _ Hn Hpersist].
  - done.
  - by eapply archive_ok_events_only.
  - eapply archive_ok_core; [|exact Hok]. by rewrite core_advance, core_upsert.
  - eapply archive_ok_core; [|exact Hok]. by rewrite core_advance.
  - eapply archive_ok_core; [symmetry; apply core_advance|]. by eapply persist_ok.
Qed.

Lemma archive_ok_empty : archive_ok empty_db.
Proof. by split. Qed.

(** ** Proven publishers stay proven *)

Definition proven (db : Db) (pubkey : string) : Prop :=
  (∃ k r, order_versions db !! k = Some r ∧ vr_pubkey r = pubkey) ∨
  (∃ k r, RepoDevFees.published (dev_fees db) !! k = Some r ∧ fr_pubkey r = pubkey) ∨
  (∃ k r, dispute_versions db !! k = Some r ∧ dvr_pubkey r = pubkey) ∨
  (∃ k r, instance_info db !! k = Some r ∧ ir_pubkey r = pubkey).

Lemma elem_of_column {R} (t : gmap string R) (f : R → string) x :
  x ∈ f <$> rows t ↔ ∃ k r, t !! k = Some r ∧ f r = x.
Proof. rewrite list_elem_of_fmap. setoid_rewrite elem_of_rows. naive_solver. Qed.

Lemma is_platform_proven_spec db pubkey :
  RepoInstances.is_platform_proven db pubkey = true ↔ proven db pubkey.
Proof.
  unfold RepoInstances.is_platform_proven, proven.
  rewrite !orb_true_iff, !bool_decide_eq_true, !elem_of_column.
  assert ((∃ k r, dev_fees db !! k = Some r ∧ fr_pubkey r = pubkey) ↔
    ∃ k r, RepoDevFees.published (dev_fees db) !! k = Some r ∧ fr_pubkey r = pubkey) as ->.
  { unfold RepoDevFees.published. setoid_rewrite lookup_fmap_Some. naive_solver. }
  tauto.
Qed.

Lemma put_mono {R} id (row : option R) t k r : t !! k = Some r → put id row t !! k = Some r.
Proof. intros Hk. destruct row; [|done]. cbn. by rewrite insert_or_ignore_lookup, Hk. Qed.

Lemma proven_core db db' pubkey : core db = core db' → proven db pubkey → proven db' pubkey.
Proof.
  destruct db, db'. unfold core, set_instances, set_instance_names, set_relays, set_sync_state,
    set_indexed_kinds. cbn. by intros [= -> -> -> -> -> -> -> ->].
Qed.

Lemma effect_proven policy db event relay_url now outcome db' pubkey :
  effect policy db event relay_url now outcome db' → proven db pubkey → proven db' pubkey.
Proof.
  intros He. destruct He as [r _|r _ _ Hp|p _ _ _ _|p _ _ _ _ _|p db' _ _ Hp _ Hn Hpersist].
  - done.
  - unfold RepoEvents.insert_if_new. by case_match.
  - apply proven_core. by rewrite core_advance, core_upsert.
  - apply proven_core. by rewrite core_advance.
  - intros Hpr. apply (proven_core db'); [by rewrite core_advance|].
    unfold persist in Hpersist.
    destruct (persist_instance_frame (set_events (insert (ev_id event) (RepoEvents.record_of event relay_url now)) db)
      event) as (f & g & Hf). rewrite Hf in Hpersist.
    pose proof (writes_tables _ _ _ _ Hp (persist_parsed_writes _ _ _ Hpersist))
      as (_ & Ho & Hd & Hfee & Hi & _). cbn in Ho, Hd, Hfee, Hi.
    unfold proven. rewrite Ho, Hd, Hfee, Hi.
    destruct Hpr as [(k&r&?&?)|[(k&r&?&?)|[(k&r&?&?)|(k&r&?&?)]]];
      [left|right; left|do 2 right; left|do 3 right]; exists k, r; split; auto using put_mono.
Qed.

Lemma vouched_for_mono policy db event relay_url now outcome db' event' :
  effect policy db event relay_url now outcome db' →
  vouched_for policy db event' = None → vouched_for policy db' event' = None.
Proof.
  intros He. unfold vouched_for. destruct (negb _); [done|].
  destruct (lists_instance policy (ev_pubkey event')); [done|]. cbn.
  destruct (RepoInstances.is_platform_proven db (ev_pubkey event')) eqn:Hp; [|done].
  apply is_platform_proven_spec, (effect_proven _ _ _ _ _ _ _ _ He), is_platform_proven_spec in Hp.
  by rewrite Hp.
Qed.

(** ** The archives a policy can reach

    By ingesting, and by what a run writes for itself: the relays it dials and
    the kinds it asked for. *)

Inductive reachable (policy : Policy) : Db → Prop :=
| reach_empty : reachable policy empty_db
| reach_step db event relay_url now outcome db' :
    reachable policy db → ingest policy db event relay_url now = (outcome, db') → reachable policy db'
| reach_relay db url source now :
    reachable policy db → reachable policy (RepoRelays.Relays.upsert db url source now)
| reach_requested db kind from now :
    reachable policy db → reachable policy (RepoRelays.IndexedKinds.record db kind from now).

Lemma reachable_ok `{!ExternalLaws} policy db : reachable policy db → archive_ok db.
Proof.
  induction 1 as [|db event relay_url now outcome db' _ IH (o & _ & He)%ingest_effect|db url source now _ IH|
    db kind from now _ IH]; [apply archive_ok_empty|by eapply effect_ok|..]; by eapply archive_ok_core, IH; destruct db.
Qed.

(** An archive row this policy wanted. *)
Definition wanted (policy : Policy) (db : Db) (r : EventRecord) : Prop :=
  ∃ e relay_url seen_at, r = RepoEvents.record_of e relay_url seen_at ∧
    admits policy e = None ∧ vouched_for policy db e = None.

Lemma effect_events policy db event relay_url now outcome db' k r :
  effect policy db event relay_url now outcome db' → events db' !! k = Some r →
  events db !! k = Some r ∨
  (events db !! k = None ∧ k = ev_id event ∧ r = RepoEvents.record_of event relay_url now ∧
   admits policy event = None ∧ vouched_for policy db event = None).
Proof.
  intros He. destruct He as [r' _|r' Ha Hv Hp|p _ _ _ _|p _ _ _ _ _|p db' Ha Hv Hp _ Hn Hpersist].
  - by left.
  - rewrite RepoEvents.insert_if_new_lookup. destruct (events db !! k) eqn:Hk; [by left|].
    case_decide as Hid; [|done]. intros [= <-]. right. by rewrite <- Hid.
  - by left.
  - by left.
  - unfold persist in Hpersist.
    destruct (persist_instance_frame (set_events (insert (ev_id event) (RepoEvents.record_of event relay_url now)) db)
      event) as (f & g & Hf). rewrite Hf in Hpersist.
    pose proof (writes_tables _ _ _ _ Hp (persist_parsed_writes _ _ _ Hpersist)) as (Hev & _).
    cbn. rewrite Hev. cbn. rewrite lookup_insert. case_decide as Hid; [|by left].
    intros [= <-]. right. by rewrite <- Hid.
Qed.
Lemma reachable_wanted policy db :
  reachable policy db → ∀ k r, events db !! k = Some r → wanted policy db r.
Proof.
  induction 1 as [|db event relay_url now outcome db' _ IH (o & _ & He)%ingest_effect|db url source now _ IH|
    db kind from now _ IH]; [done| |by destruct db|by destruct db].
  intros k r Hr. apply (effect_events _ _ _ _ _ _ _ k r He) in Hr as [Hr|(_ & _ & -> & Ha & Hv)].
  - destruct (IH _ _ Hr) as (e & u & t & -> & ? & ?). exists e, u, t. split_and!; [done..|].
    by eapply vouched_for_mono.
  - exists event, relay_url, now. split_and!; [done..|]. by eapply vouched_for_mono.
Qed.

Lemma effect_ingest policy db event relay_url now o db' :
  effect policy db event relay_url now o db' → ingest policy db event relay_url now = (Ok o, db').
Proof.
  unfold ingest, transaction, commit_parsed, RepoEvents.insert_if_new. intros He.
  destruct He as [r [Ha|[Ha Hv]]|r Ha Hv Hp|p Ha Hv Hp Hr|p Ha Hv Hp Hr [x Hx]|p db' Ha Hv Hp Hr Hn Hd].
  - by rewrite Ha.
  - by rewrite Ha, Hv.
  - by rewrite Ha, Hv, Hp.
  - by rewrite Ha, Hv, Hp, Hr.
  - rewrite Ha, Hv, Hp, Hr. cbn [RepoEvents.record_of er_id]. by rewrite Hx.
  - rewrite Ha, Hv, Hp, Hr. cbn [RepoEvents.record_of er_id]. rewrite Hn. by rewrite Hd.
Qed.

(** C1: [ingest] is exactly the step relation of the specification, and its
    [Err] never happens: an event is unwanted (nothing written), unparsed
    (archived alone), a redundant heartbeat, already known, or fresh (the
    archive row, what it feeds and the cursor, together). The foreign key of
    a version is always satisfied, because its event is archived first. *)
Theorem ingest_is_effect policy db event relay_url now outcome db' :
  ingest policy db event relay_url now = (outcome, db') ↔
    ∃ o, outcome = Ok o ∧ effect policy db event relay_url now o db'.
Proof. split; [apply ingest_effect|]. intros (o & -> & He). by apply effect_ingest. Qed.

(** C2: every archive the pipeline can reach is consistent: each table of
    versions is exactly what the archived events feed it (no row is missing,
    none is extra), [orders] and [disputes] are the projections of their
    versions, and the duplicate flags of the fees are right. *)
Theorem reachable_archive_ok `{!ExternalLaws} policy db : reachable policy db → archive_ok db.
Proof. apply reachable_ok. Qed.

(** C12: nothing unwanted is ever archived. Each event stored was verified,
    published by an accepted instance, tagged as Mostro's where its kind is
    tagged and on an accepted network; and one of a kind that carries no tag
    came from a publisher that is listed or has proven itself. *)
Theorem only_wanted_events policy db k r :
  reachable policy db → events db !! k = Some r →
  ∃ e relay_url seen_at, r = RepoEvents.record_of e relay_url seen_at ∧ verify e = true ∧
    accepts_instance policy (ev_pubkey e) = true ∧
    (ev_kind e ∈ PLATFORM_TAGGED → is_mostro e = true) ∧
    (∀ n, ev_kind e ∈ NETWORK_TAGGED → optional_network e = Ok (Some n) → accepts_network policy n = true) ∧
    (ev_kind e ∈ UNTAGGED_KINDS → lists_instance policy (ev_pubkey e) = true ∨ proven db (ev_pubkey e)).
Proof.
  intros Hreach Hr. destruct (reachable_wanted _ _ Hreach _ _ Hr) as (e & u & t & -> & Ha & Hv).
  exists e, u, t. split; [done|]. unfold admits in Ha.
  destruct (verify e); [|done]. destruct (accepts_instance policy _); [|done]. cbn [negb] in Ha.
  split_and!; [done..| | |].
  - intros Hk. rewrite bool_decide_true in Ha by done. by destruct (is_mostro e).
  - intros n Hk Hn. destruct (_ && _); [done|]. rewrite bool_decide_true, Hn in Ha by done.
    by destruct (accepts_network policy n).
  - intros Hk. unfold vouched_for in Hv. rewrite bool_decide_true in Hv by done. cbn in Hv.
    destruct (lists_instance policy (ev_pubkey e)); [by left|]. right. cbn in Hv.
    apply is_platform_proven_spec. by destruct (RepoInstances.is_platform_proven _ _).
Qed.

(** A rejection leaves no trace of an unwanted event, and only the archive
    row of an event no parser could read. *)
Theorem rejection_writes_no_version policy db event relay_url now rejection db' :
  ingest policy db event relay_url now = (Ok (Rejected rejection), db') →
  db' = db ∨
  (parse event = Err rejection ∧ admits policy event = None ∧ vouched_for policy db event = None ∧
   db' = set_events (insert_or_ignore (ev_id event) (RepoEvents.record_of event relay_url now)) db).
Proof.
  intros (o & [= <-] & He)%ingest_effect. inversion He; subst; [by left|].
  unfold RepoEvents.insert_if_new, insert_or_ignore. cbn [RepoEvents.record_of er_id].
  destruct (events db !! ev_id event) eqn:E; [by left|]. right. split_and!; [done..|].
  unfold set_events. by rewrite E.
Qed.

(** a rate or a relay list is only ever taken from a publisher with a
    name to lose: whoever a stored rate snapshot is by is listed in the
    policy or has a Mostro-tagged event in the archive. *)
Theorem rates_are_vouched_for `{!ExternalLaws} policy db k row :
  reachable policy db → rates db !! k = Some row →
  lists_instance policy (rr_pubkey row) = true ∨ proven db (rr_pubkey row).
Proof.
  intros Hreach Hrow. pose proof (reachable_ok _ _ Hreach) as Hok.
  rewrite (ok_rates _ Hok k) in Hrow. unfold archived_event in Hrow.
  apply bind_Some in Hrow as (e & (r & Hr & He)%bind_Some & Hd).
  destruct (reachable_wanted _ _ Hreach _ _ Hr) as (e' & u & t & -> & Ha & Hv).
  rewrite record_raw in He. injection He as ->. unfold derive_rates in Hd.
  destruct (parse e) as [[]|] eqn:Hp; try done. injection Hd as <-.
  pose proof (parse_identity _ _ Hp) as (_ & Hpk & Hk). cbn in Hpk, Hk.
  unfold RepoRates.rate_row. cbn. rewrite Hpk. unfold vouched_for in Hv.
  rewrite bool_decide_true in Hv by (rewrite <- Hk; by left). cbn in Hv.
  destruct (lists_instance policy (ev_pubkey e)); [by left|]. right. cbn in Hv.
  apply is_platform_proven_spec. by destruct (RepoInstances.is_platform_proven _ _).
Qed.
(** ** An ingest only adds to the archive of events *)

Lemma persist_events db event p db' :
  parse event = Ok p → persist db event p = Ok db' → events db' = events db.
Proof.
  intros Hp Hpersist. unfold persist in Hpersist.
  destruct (persist_instance_frame db event) as (f & g & Hf). rewrite Hf in Hpersist.
  destruct (writes_tables _ _ _ _ Hp (persist_parsed_writes _ _ _ Hpersist)) as [Hev _].
  by rewrite Hev.
Qed.

Lemma effect_keeps_events policy db event relay_url now o db' k r :
  effect policy db event relay_url now o db' → events db !! k = Some r → events db' !! k = Some r.
Proof.
  intros He Hk. destruct He as [r' _|r' _ _ _|p _ _ _ _|p _ _ _ _ _|p db' _ _ Hp _ Hn Hpersist]; try done.
  - by rewrite RepoEvents.insert_if_new_lookup, Hk.
  - cbn. rewrite (persist_events _ _ _ _ Hp Hpersist). cbn. rewrite lookup_insert_ne; [done|congruence].
Qed.

(** A wanted event of a kind that is no heartbeat is archived, parsed or not. *)
Lemma effect_archives policy db event relay_url now o db' :
  effect policy db event relay_url now o db' → admits policy event = None →
  ev_kind event ∈ [ParseOrder.KIND; ParseDevFee.KIND; ParseDispute.KIND] →
  is_Some (events db' !! ev_id event).
Proof.
  intros He Ha Hk.
  destruct He as [r [Hr|[_ Hv]]|r _ _ _|p _ _ Hp Hr|p _ _ _ _ Hin|p db' _ _ Hp _ Hn Hpersist].
  - congruence.
  - unfold vouched_for in Hv. rewrite bool_decide_false in Hv; [done|].
    intros [Hx|[Hx|Hx%elem_of_nil]%elem_of_cons]%elem_of_cons; [..|done];
      rewrite Hx in Hk; repeat (apply elem_of_cons in Hk as [Hk|Hk]; [done|]); by apply elem_of_nil in Hk.
  - rewrite RepoEvents.insert_if_new_lookup. destruct (events db !! ev_id event); [done|].
    by rewrite decide_True.
  - destruct (parse_identity _ _ Hp) as (_ & _ & Hid). rewrite <- Hid in Hk.
    destruct p; cbn in Hr; try done; cbn in Hk;
      repeat (apply elem_of_cons in Hk as [Hk|Hk]; [done|]); by apply elem_of_nil in Hk.
  - done.
  - cbn. rewrite (persist_events _ _ _ _ Hp Hpersist). cbn. by rewrite lookup_insert_eq.
Qed.

(** ** What ingesting depends on

    Two archives that differ in cursors, relays and bestiary alone take an
    event alike. *)

Lemma upsert_relays_core db l : core (upsert_relays db l) = core db.
Proof. destruct (upsert_relays_frame db l) as [f ->]. by destruct db. Qed.
Lemma persist_parsed_core db p : core <$> persist_parsed db p = core <$> persist_parsed (core db) p.
Proof.
  destruct p as [v|v|v|v|v|l]; cbn [persist_parsed].
  6: { cbn. by rewrite !upsert_relays_core; destruct db. }
  all: unfold RepoOrders.insert_version, RepoDisputes.insert_version, RepoDevFees.insert, RepoInfo.insert_version, RepoRates.insert, insert_row;
    destruct db; cbn; repeat (case_match; cbn); try done.
  all: unfold RepoOrders.refresh_projection, RepoDisputes.refresh_projection; cbn; repeat case_match; done.
Qed.
Lemma ingest_core policy db db' event relay_url now :
  core db = core db' → ∃ o d d', ingest policy db event relay_url now = (o, d) ∧
    ingest policy db' event relay_url now = (o, d') ∧ core d = core d'.
Proof.
  intros Hcore. destruct (ingest_total policy db event relay_url now) as (o & d & Hi & He). exists (Ok o), d.
  assert (events db = events db') as Eev by exact (f_equal events Hcore).
  assert (∀ e, vouched_for policy db e = vouched_for policy db' e) as Hv
    by (intros e; exact (f_equal (λ d, vouched_for policy d e) Hcore)).
  assert (∀ e h, Heartbeats.is_redundant db e h = Heartbeats.is_redundant db' e h) as Hr
    by (intros e h; exact (f_equal (λ d, Heartbeats.is_redundant d e h) Hcore)).
  assert (∃ d', effect policy db' event relay_url now o d' ∧ core d = core d') as (d' & He' & E).
  2: { exists d'. split_and!; [done|by apply effect_ingest|done]. }
  destruct He as [r Hu|r Ha Hvo Hp|p Ha Hvo Hp Hre|p Ha Hvo Hp Hre Hin|p d Ha Hvo Hp Hre Hn Hpersist]; rewrite ?Hv, ?Hr in *.
  - exists db'. split; [by apply unwanted|done].
  - eexists. split; [by apply unparsed|]. unfold RepoEvents.insert_if_new. rewrite Eev. case_match; [done|].
    exact (f_equal (set_events _) Hcore).
  - eexists. split; [by eapply repeated|]. by rewrite !core_advance, !core_upsert.
  - eexists. split; [eapply known; [done..|by rewrite <- Eev]|]. by rewrite !core_advance.
  - unfold persist in *.
    pose proof (persist_parsed_core (persist_instance (set_events (insert (ev_id event) (RepoEvents.record_of event relay_url now)) db) event) p) as E1.
    pose proof (persist_parsed_core (persist_instance (set_events (insert (ev_id event) (RepoEvents.record_of event relay_url now)) db') event) p) as E2.
    rewrite core_persist_instance in E1, E2.
    change (core (set_events ?f ?x)) with (set_events f (core x)) in E1, E2. rewrite <- Hcore, <- E1, Hpersist in E2.
    destruct (persist_parsed _ p) as [d'|] eqn:Ed in E2; [|done]. assert (core d' = core d) as E3 by (cbn in E2; congruence).
    eexists. split; [eapply fresh; [done..|by rewrite <- Eev|exact Ed]|]. by rewrite !core_advance, E3.
Qed.

(** ** What may happen between two deliveries *)

(** One archive grown into another under one policy. *)
Inductive grows (policy : Policy) (db : Db) : Db → Prop :=
| grows_refl : grows policy db db
| grows_event db1 event relay_url now outcome db2 :
    grows policy db db1 → ingest policy db1 event relay_url now = (outcome, db2) → grows policy db db2
| grows_relay db1 url source now :
    grows policy db db1 → grows policy db (RepoRelays.Relays.upsert db1 url source now)
| grows_requested db1 kind from now :
    grows policy db db1 → grows policy db (RepoRelays.IndexedKinds.record db1 kind from now).

#[export] Instance grows_preorder policy : PreOrder (grows policy).
Proof.
  split; [constructor|]. intros db1 db2 db3 H12 H23. induction H23; [done|by eapply grows_event|by apply grows_relay|by apply grows_requested].
Qed.
Lemma grows_reachable policy db db' : grows policy db db' → reachable policy db → reachable policy db'.
Proof.
  induction 1; intros Hr; [done|by eapply reach_step; [apply IHgrows|]|by apply reach_relay, IHgrows|by apply reach_requested, IHgrows].
Qed.
Lemma grows_events policy db db' k : grows policy db db' → is_Some (events db !! k) → is_Some (events db' !! k).
Proof.
  induction 1 as [|db1 event relay_url now outcome db2 _ IH (o & _ & He)%ingest_effect|db1 url source now _ IH|db1 kind from now _ IH];
    [done|..|done|done]. intros [r Hr]%IH. exists r. by eapply effect_keeps_events.
Qed.
Lemma grows_vouched policy db db' event :
  grows policy db db' → vouched_for policy db event = None → vouched_for policy db' event = None.
Proof.
  induction 1 as [|db1 event' relay_url now outcome db2 _ IH (o & _ & He)%ingest_effect|db1 url source now _ IH|db1 kind from now _ IH];
    [done| |by destruct db1|by destruct db1]. intros Hv. by eapply vouched_for_mono, IH.
Qed.

(** What has been stored is in the archive, and was wanted. *)
Lemma effect_stored policy db event relay_url now db' :
  effect policy db event relay_url now Stored db' →
  admits policy event = None ∧ vouched_for policy db' event = None ∧ (∃ p, parse event = Ok p) ∧
  is_Some (events db' !! ev_id event).
Proof.
  intros He. inversion He as [| | | |p db1 Ha Hv Hp Hr Hn Hpersist]; subst.
  split_and!; [done|by eapply vouched_for_mono|by exists p|].
  cbn. rewrite (persist_events _ _ _ _ Hp Hpersist). cbn. by rewrite lookup_insert_eq.
Qed.

(** C13: a stored event adds nothing when it comes again. Whatever was
    ingested after it under the same policy, and whatever relays and requests
    were noted, a later copy of it from any relay is answered [Duplicate], and
    moves the cursor of that relay and nothing else; or it is a heartbeat that
    says nothing new, is answered [Redundant], and moves that cursor and is
    noted as a sighting of its publisher. No other table changes. *)
Theorem second_copy_adds_nothing policy db event relay_url now db1 db2 relay_url' now' outcome db3 :
  ingest policy db event relay_url now = (Ok Stored, db1) →
  grows policy db1 db2 →
  ingest policy db2 event relay_url' now' = (outcome, db3) →
  (outcome = Ok Duplicate ∧ db3 = advance db2 event relay_url' now' ∨
   outcome = Ok Redundant ∧
     db3 = advance (RepoInstances.upsert db2 (ev_pubkey event) None (as_i64 (ev_created_at event))) event relay_url' now') ∧
  core db3 = core db2.
Proof.
  intros (o1 & [= <-] & (Ha & Hv & [p Hp] & Hin)%effect_stored)%ingest_effect Hgrows (o2 & -> & H2)%ingest_effect.
  apply (grows_vouched _ _ _ _ Hgrows) in Hv. apply (grows_events _ _ _ _ Hgrows) in Hin.
  destruct H2 as [r [Hr|[_ Hr]]|r _ _ Hr|p' _ _ _ _|p' _ _ _ _ _|p' db' _ _ _ _ Hn _]; try congruence.
  - split; [by right|]. by rewrite core_advance, core_upsert.
  - split; [by left|]. by rewrite core_advance.
  - destruct Hin as [? Hin]. congruence.
Qed.
End facts.

(** ** Witnesses *)
Section witnesses.
#[local] Existing Instance Demo.demo.
#[local] Existing Instance Demo.demo_laws.

Definition open_policy : Policy := policy_new [] true [Mainnet].
Definition e_order : Event := order_event "e1" 1700000100 "pending".
Definition e_rates : Event := rates_event "x1" 1700000600 [("EUR", f64_of_Z 60000)].

Definition run (db : Db) (e : Event) : Sql IngestOutcome * Db := ingest open_policy db e "wss://relay" 0.
Definition after_order : Db := (run empty_db e_order).2.
Definition after_rates : Db := (run after_order e_rates).2.

Lemma run_outcome db e o : (run db e).1 = o → ingest open_policy db e "wss://relay" 0 = (o, (run db e).2).
Proof. intros <-. unfold run. by destruct (ingest _ _ _ _ _). Qed.

Lemma order_is_stored : ingest open_policy empty_db e_order "wss://relay" 0 = (Ok Stored, after_order).
Proof. apply run_outcome. vm_compute. reflexivity. Qed.
Lemma rates_are_stored : ingest open_policy after_order e_rates "wss://relay" 0 = (Ok Stored, after_rates).
Proof. apply run_outcome. vm_compute. reflexivity. Qed.

Lemma after_rates_reachable : reachable open_policy after_rates.
Proof.
  eapply reach_step; [|exact rates_are_stored]. eapply reach_step; [|exact order_is_stored]. apply reach_empty.
Qed.

Lemma reachable_archive_ok_witness : archive_ok after_rates.
Proof. exact (reachable_archive_ok open_policy after_rates after_rates_reachable). Defined.

Lemma only_wanted_events_witness :
  ∃ r, events after_rates !! "x1" = Some r ∧
    ∃ e relay_url seen_at, r = RepoEvents.record_of e relay_url seen_at ∧ verify e = true.
Proof.
  destruct (events after_rates !! "x1") as [r|] eqn:E.
  - exists r. split; [reflexivity|].
    destruct (only_wanted_events open_policy after_rates "x1" r after_rates_reachable E)
      as (e & u & t & He & Hv & _). exists e, u, t. split; [exact He|exact Hv].
  - exfalso. assert (option_is_some (events after_rates !! "x1") = true) as H by (vm_compute; reflexivity).
    rewrite E in H. discriminate H.
Defined.

Lemma second_copy_adds_nothing_witness :
  ∃ outcome db3, ingest open_policy after_rates e_order "wss://other" 7 = (outcome, db3) ∧
    outcome = Ok Duplicate ∧ db3 = advance after_rates e_order "wss://other" 7 ∧ core db3 = core after_rates.
Proof.
  destruct (ingest open_policy after_rates e_order "wss://other" 7) as [outcome db3] eqn:E.
  exists outcome, db3. split; [reflexivity|].
  assert (grows open_policy after_order after_rates) as Hgrows
    by (eapply grows_event; [apply grows_refl|exact rates_are_stored]).
  destruct (second_copy_adds_nothing open_policy empty_db e_order "wss://relay" 0 after_order after_rates "wss://other" 7
    outcome db3 order_is_stored Hgrows E) as [[[Ho Hd]|[Ho _]] Hc]; [by split_and!|].
  exfalso. assert ((ingest open_policy after_rates e_order "wss://other" 7).1 = Ok Duplicate) as Hd by (vm_compute; reflexivity).
  rewrite E in Hd. cbn [fst] in Hd. rewrite Ho in Hd. discriminate Hd.
Defined.

(** A rate snapshot before its publisher has proven itself. *)
Lemma rejection_writes_no_version_witness :
  ∃ rejection, ingest open_policy empty_db e_rates "wss://relay" 0 = (Ok (Rejected rejection), empty_db) ∧
    (empty_db = empty_db ∨ (parse e_rates = Err rejection ∧ admits open_policy e_rates = None ∧
      vouched_for open_policy empty_db e_rates = None ∧ empty_db =
      set_events (insert_or_ignore "x1" (RepoEvents.record_of e_rates "wss://relay" 0)) empty_db)).
Proof.
  assert (ingest open_policy empty_db e_rates "wss://relay" 0 =
    (Ok (Rejected (UnvouchedPublisher alice ParseRates.KIND)), empty_db)) as H by (vm_compute; reflexivity).
  exists (UnvouchedPublisher alice ParseRates.KIND). split; [exact H|].
  exact (rejection_writes_no_version open_policy empty_db e_rates "wss://relay" 0 _ empty_db H).
Defined.

(** ** A re-delivered heartbeat can read as redundant

    The comment on [is_redundant] says a second copy of an archived event is
    reported as a duplicate. When an older, identical announcement was
    archived after the newer one, a second copy of the newer is redundant. *)
Definition newer_list : Event := relay_list_event "r2" 1700000800 ["wss://a"].
Definition older_list : Event := relay_list_event "r1" 1700000700 ["wss://a"].
Definition after_newer : Db := (run after_order newer_list).2.
Definition after_both : Db := (run after_newer older_list).2.

(** the sequence of deliveries in which a second copy of an archived
    event is answered [Redundant] and not [Duplicate]. *)
Theorem redelivered_heartbeat_is_redundant :
  (run after_order newer_list).1 = Ok Stored ∧ (run after_newer older_list).1 = Ok Stored ∧
  is_Some (events after_both !! ev_id newer_list) ∧ (run after_both newer_list).1 = Ok Redundant.
Proof.
  split_and!; [vm_compute; reflexivity..| |vm_compute; reflexivity].
  assert (option_is_some (events after_both !! ev_id newer_list) = true) as H by (vm_compute; reflexivity).
  destruct (events after_both !! ev_id newer_list); [by eexists|discriminate H].
Qed.
End witnesses.
