(* ===== verification/Rebuild.v ===== *)
(** * Rebuilding what was derived

    [src/commands/rebuild.rs]: the projections, and with [--from-raw] the
    version tables too, recomputed from [events.raw_json]. *)

From S2P Require Import Prelude F64 Network Event Parse Db Versioned Samples.
From S2P Require ParseOrder ParseDispute.
From S2P Require RepoOrders RepoDisputes RepoDevFees RepoInstances RepoInfo RepoRates.
From S2P Require RepoEvents Heartbeats.
From S2P Require Import Pipeline PipelineFacts.

#[local] Open Scope Z_scope.
#[local] Existing Instances RepoOrders.orders_versioned RepoOrders.orders_versioned_laws.
#[local] Existing Instances RepoDisputes.disputes_versioned RepoDisputes.disputes_versioned_laws.

(** What a rebuild did. *)
Record Rebuilt : Type := mkRebuilt {
  rb_events : Z; rb_unreadable : Z; rb_orders : Z; rb_disputes : Z;
}.

Section rebuild.
Context `{External}.

(** The loop over the archive. Each replay is its own transaction, so an
    error leaves what the earlier ones wrote. *)
Fixpoint replay_all (db : Db) (records : list EventRecord) (rb : Rebuilt) : Sql Rebuilt * Db :=
  let unreadable := mkRebuilt (rb_events rb) (rb_unreadable rb + 1) (rb_orders rb) (rb_disputes rb) in
  match records with
  | [] => (Ok rb, db)
  | record :: records =>
      match from_json (er_raw_json record) with
      | None => replay_all db records unreadable
      | Some event =>
          match replay db event with
          | (Err e, db) => (Err e, db)
          | (Ok (Rejected _), db) => replay_all db records unreadable
          | (Ok _, db) =>
              replay_all db records
                (mkRebuilt (rb_events rb + 1) (rb_unreadable rb) (rb_orders rb) (rb_disputes rb))
          end
      end
  end.

(** The version tables, emptied under [--from-raw]. *)
Definition clear_derived (from_raw : bool) (db : Db) : Db :=
  if from_raw then
    RepoRates.clear (RepoInfo.clear (RepoDevFees.clear (RepoDisputes.clear_versions
      (RepoOrders.clear_versions db))))
  else db.

Definition clear_projections (db : Db) : Db :=
  RepoInstances.clear (RepoDisputes.clear_projection (RepoOrders.clear_projection db)).

(** The sweep over every order, dispute and paid order. *)
Definition sweep_orders (db : Db) : Db := foldl RepoOrders.refresh_projection db (RepoOrders.ids db).
Definition sweep_disputes (db : Db) : Db := foldl RepoDisputes.refresh_projection db (RepoDisputes.ids db).
Definition sweep_fees (db : Db) : Db := foldl RepoDevFees.refresh_duplicates db (RepoDevFees.order_ids db).

Definition rebuild (db : Db) (from_raw : bool) : Sql Rebuilt * Db :=
  let db := clear_projections (clear_derived from_raw db) in
  match replay_all db (RepoEvents.all db) (mkRebuilt 0 0 0 0) with
  | (Err e, db) => (Err e, db)
  | (Ok rb, db) =>
      let db1 := sweep_orders db in
      let db2 := sweep_disputes db1 in
      (Ok (mkRebuilt (rb_events rb) (rb_unreadable rb)
            (rb_orders rb + Z.of_nat (length (RepoOrders.ids db)))
            (rb_disputes rb + Z.of_nat (length (RepoDisputes.ids db1)))),
       sweep_fees db2)
  end.
(** What the archived events tell of their publishers: those that parse, in
    the order they are read, each with its publisher, the name it carries and
    when it was signed; and the bestiary that makes. *)
Definition told (records : list EventRecord) : list RepoInstances.Sighting :=
  omap (λ record, event ← from_json (er_raw_json record);
    match parse event with
    | Ok _ => Some (ev_pubkey event, instance_name event, as_i64 (ev_created_at event))
    | Err _ => None
    end) records.
Definition tell (db : Db) (s : RepoInstances.Sighting) : Db :=
  let '(pubkey, name, at_ts) := s in
  match name with
  | Some name => RepoInstances.record_name (RepoInstances.sight db s) pubkey name at_ts
  | None => RepoInstances.sight db s
  end.
Definition bestiary_told (db : Db) : Db := foldl tell empty_db (told (RepoEvents.all db)).
End rebuild.

(** ** Half-built archives

    A table mid-rebuild holds, for every event, nothing or the row the event
    feeds; a projection mid-rebuild holds, for every group, nothing or what
    its versions project to. *)

Definition partly {R} (D : string → option R) (t : gmap string R) : Prop :=
  ∀ id, t !! id = None ∨ t !! id = D id.

Lemma partly_put {R} (D : string → option R) t id :
  partly D t → partly D (put id (D id) t) ∧ put id (D id) t !! id = D id.
Proof.
  intros Ht. unfold put. destruct (D id) as [row|] eqn:E.
  - split.
    + intros k. rewrite insert_or_ignore_lookup. destruct (Ht k) as [->| ->].
      * case_decide; [right; congruence|by left].
      * destruct (D k) eqn:?; [by right|]. case_decide; [right; congruence|by left].
    + rewrite insert_or_ignore_lookup. destruct (Ht id) as [->| ->]; [by rewrite decide_True|by rewrite E].
  - split; [done|]. destruct (Ht id) as [?|?]; congruence.
Qed.

Lemma partly_put_row {R} (D : string → option R) t id row :
  row = D id → partly D t → partly D (put id row t).
Proof. intros -> Ht. by apply partly_put. Qed.
Lemma put_complete {R} (D : string → option R) t id row :
  row = D id → partly D t → put id row t !! id = D id.
Proof. intros -> Ht. by apply partly_put. Qed.

Lemma put_lookup_mono {R} (D : string → option R) t id row k :
  row = D id → partly D t → t !! k = D k → put id row t !! k = D k.
Proof.
  intros -> Ht Hk. destruct (decide (id = k)) as [<-|?]; [by apply partly_put|].
  unfold put. destruct (D id); [|done]. rewrite insert_or_ignore_lookup, Hk.
  destruct (D k); [done|]. by rewrite decide_False.
Qed.

Section halfway.
Context {V R P : Type} `{!EventTable R, !Versioned V R P, !VersionedLaws V R P}.

Definition half_projected (db : Db) : Prop :=
  keyed (table db) ∧
  ∀ g, projection db !! g = None ∨ projection db !! g = project_rows (group_rows (table db) g).

Lemma half_refresh db g : half_projected db → half_projected (refresh db g).
Proof.
  intros [Hk Hp]. split; [by rewrite refresh_table|]. intros g'.
  rewrite refresh_projection_lookup, refresh_table. case_decide; subst; [|apply Hp].
  destruct (project_rows _) eqn:E; [by right|]. cbn. destruct (Hp g'); [by left|right; congruence].
Qed.

Lemma half_store db v db' : half_projected db → store db v = Ok db' → half_projected db'.
Proof.
  intros [Hk Hp] [_ ->]%store_Ok. split.
  - rewrite refresh_table, table_set. by apply keyed_put.
  - intros g. rewrite refresh_projection_lookup, refresh_table, table_set, projection_set_table.
    case_decide as Hg; subst.
    + destruct (project_rows (group_rows (put _ _ _) _)) eqn:E; [by right|]. left. cbn.
      destruct (Hp (version_group v)) as [?| ->]; [done|].
      by rewrite (group_rows_put _ _ _ E), project_rows_nil.
    + rewrite group_rows_put_other by done. apply Hp.
Qed.

(** Refreshing every group completes the projection. *)
Lemma sweep_projected db gs :
  half_projected db → (∀ g, group_rows (table db) g ≠ [] → g ∈ gs) →
  projected (foldl refresh db gs) ∧ table (foldl refresh db gs) = table db ∧
  frame (foldl refresh db gs) = frame db.
Proof.
  intros Hh Hgs.
  assert (∀ gs db, half_projected db →
    half_projected (foldl refresh db gs) ∧ table (foldl refresh db gs) = table db ∧
    frame (foldl refresh db gs) = frame db ∧
    ∀ g, g ∈ gs ∨ projection db !! g = project_rows (group_rows (table db) g) →
      projection (foldl refresh db gs) !! g = project_rows (group_rows (table db) g)) as Hall.
  { clear gs db Hh Hgs. induction gs as [|g gs IH]; intros db Hh; cbn.
    { split_and!; [done..|]. intros g [H%elem_of_nil|?]; done. }
    destruct (IH (refresh db g)) as (? & Ht & Hf & Hp); [by apply half_refresh|].
    rewrite refresh_table in Ht, Hp. rewrite refresh_frame in Hf. split_and!; [done..|].
    intros g' Hg'. apply Hp. rewrite refresh_projection_lookup.
    destruct (decide (g = g')) as [<-|Hne].
    - right. destruct (project_rows _) eqn:E; [done|]. cbn.
      destruct Hh as [_ Hh]. destruct (Hh g); congruence.
    - destruct Hg' as [[?|?]%elem_of_cons|?]; [congruence|by left|by right]. }
  destruct (Hall gs db Hh) as ([Hk Hp] & Ht & Hf & Hin). split_and!; [|done..].
  split; [done|]. intros g. rewrite Ht.
  destruct (group_rows (table db) g) eqn:E.
  - rewrite project_rows_nil. specialize (Hp g). rewrite Ht, E, project_rows_nil in Hp. by destruct Hp.
  - rewrite <- E. apply Hin. left. apply Hgs. by rewrite E.
Qed.
End halfway.

Section facts.
Context `{External} `{!ExternalLaws}.

(** The row the archived event [id] feeds into a table. *)
Definition feed {R} (evs : gmap string EventRecord) (derive : Event → option R) (id : string) : option R :=
  archived_event evs id ≫= derive.

(** An archive whose version tables are being refilled from [evs]. *)
Record rebuilding (evs : gmap string EventRecord) (db : Db) : Prop := {
  rb_evs : events db = evs;
  rb_order_versions : partly (feed evs derive_order) (order_versions db);
  rb_dispute_versions : partly (feed evs derive_dispute) (dispute_versions db);
  rb_dev_fees : partly (feed evs derive_fee) (RepoDevFees.published (dev_fees db));
  rb_instance_info : partly (feed evs derive_info) (instance_info db);
  rb_rates : partly (feed evs derive_rates) (rates db);
  rb_half_orders : half_projected (V := ParseOrder.OrderVersion) db;
  rb_half_disputes : half_projected (V := ParseDispute.DisputeVersion) db;
  rb_flagged : RepoDevFees.flagged (dev_fees db);
}.

(** Every row the event [id] feeds is there. *)
Definition complete_at (evs : gmap string EventRecord) (db : Db) (id : string) : Prop :=
  order_versions db !! id = feed evs derive_order id ∧
  dispute_versions db !! id = feed evs derive_dispute id ∧
  RepoDevFees.published (dev_fees db) !! id = feed evs derive_fee id ∧
  instance_info db !! id = feed evs derive_info id ∧
  rates db !! id = feed evs derive_rates id.

Lemma half_same {V R P} `{!EventTable R, !Versioned V R P} db db' :
  table db' = table db → projection db' = projection db →
  half_projected (V := V) db → half_projected (V := V) db'.
Proof. unfold half_projected. by intros -> ->. Qed.

Lemma persist_parsed_half_orders db p db' :
  persist_parsed db p = Ok db' → half_projected (V := ParseOrder.OrderVersion) db →
  half_projected (V := ParseOrder.OrderVersion) db'.
Proof.
  intros Hp Hproj. destruct p as [v|v|v|v|v|l];
    [by apply (half_store db v)|pose proof (persist_parsed_writes _ _ _ Hp) as Hw..];
    inversion Hw; subst; by eapply half_same; [| |exact Hproj].
Qed.
Lemma persist_parsed_half_disputes db p db' :
  persist_parsed db p = Ok db' → half_projected (V := ParseDispute.DisputeVersion) db →
  half_projected (V := ParseDispute.DisputeVersion) db'.
Proof.
  intros Hp Hproj. destruct p as [v|v|v|v|v|l];
    [|  |by apply (half_store db v)| | |]; pose proof (persist_parsed_writes _ _ _ Hp) as Hw;
    inversion Hw; subst; by eapply half_same; [| |exact Hproj].
Qed.

(** Replaying a stored event refills its rows and only adds. *)
Lemma replay_step evs db r event :
  recorded evs → rebuilding evs db → evs !! er_id r = Some r → from_json (er_raw_json r) = Some event →
  ∃ o db', replay db event = (Ok o, db') ∧ rebuilding evs db' ∧ complete_at evs db' (er_id r) ∧
    ∀ k, complete_at evs db k → complete_at evs db' k.
Proof.
  intros Hrec Hrb Hr Hjson.
  assert (ev_id event = er_id r) as Hid.
  { destruct (Hrec _ _ Hr) as (e & u & t & He & Hk). rewrite He, record_raw in Hjson. congruence. }
  assert (archived_event evs (ev_id event) = Some event) as Harch.
  { unfold archived_event. rewrite Hid, Hr. done. }
  assert (∀ {R} (derive : Event → option R), feed evs derive (ev_id event) = derive event) as HD.
  { intros R derive. unfold feed. by rewrite Harch. }
  unfold replay, transaction. destruct (parse event) as [p|rejection] eqn:Hp.
  - destruct (persist_total db event p Hp) as [db' Hpersist].
    { rewrite (rb_evs _ _ Hrb), Hid, Hr. done. }
    rewrite Hpersist. cbn. exists Stored, db'. split; [done|]. unfold persist in Hpersist.
    destruct (persist_instance_frame db event) as (f & g & Hf). rewrite Hf in Hpersist.
    pose proof (writes_tables _ _ _ _ Hp (persist_parsed_writes _ _ _ Hpersist))
      as (Hev & Ho & Hd & Hfee & Hi & Hra). cbn in Hev, Ho, Hd, Hfee, Hi, Hra.
    destruct Hrb. split; [|split].
    + split; rewrite ?Hev, ?Ho, ?Hd, ?Hfee, ?Hi, ?Hra; try done;
        try (apply partly_put_row; [by rewrite HD|done]).
      * apply (persist_parsed_half_orders _ _ _ Hpersist). by eapply half_same; [| |exact rb_half_orders0].
      * apply (persist_parsed_half_disputes _ _ _ Hpersist). by eapply half_same; [| |exact rb_half_disputes0].
      * by apply (persist_parsed_flagged _ _ _ Hpersist).
    + rewrite <- Hid. unfold complete_at. rewrite Ho, Hd, Hfee, Hi, Hra.
      split_and!; (eapply put_complete; [|eassumption]; by rewrite HD).
    + intros k (? & ? & ? & ? & ?). unfold complete_at. rewrite Ho, Hd, Hfee, Hi, Hra.
      split_and!; (eapply put_lookup_mono; [|eassumption|eassumption]; by rewrite HD).
  - exists (Rejected rejection), db. split_and!; [done|done| |done].
    assert (∀ {R} (derive : Event → option R) t, derive event = None →
      partly (feed evs derive) t →
      t !! er_id r = feed evs derive (er_id r)) as Hnone.
    { intros R derive t Hn Ht. rewrite <- Hid, HD, Hn. destruct (Ht (ev_id event)) as [?|Hx]; [done|].
      by rewrite Hx, HD. }
    destruct Hrb. split_and!; apply Hnone; try done;
      unfold derive_order, derive_dispute, derive_fee, derive_info, derive_rates; by rewrite Hp.
Qed.

Lemma replay_all_spec evs db records rb :
  recorded evs → rebuilding evs db → Forall (λ r, evs !! er_id r = Some r) records →
  ∃ rb' db', replay_all db records rb = (Ok rb', db') ∧ rebuilding evs db' ∧
    (∀ r, r ∈ records → complete_at evs db' (er_id r)) ∧
    ∀ k, complete_at evs db k → complete_at evs db' k.
Proof.
  intros Hrec. revert db rb. induction records as [|r records IH]; intros db rb Hrb Hall.
  { eexists _, _. split; [done|]. split_and!; [done|by intros ? ?%elem_of_nil|done]. }
  apply Forall_cons in Hall as [Hr Hall]. cbn [replay_all].
  destruct (from_json (er_raw_json r)) as [event|] eqn:Hjson.
  2: { exfalso. destruct (Hrec _ _ Hr) as (e & u & t & He & _). rewrite He, record_raw in Hjson. done. }
  destruct (replay_step evs db r event Hrec Hrb Hr Hjson) as (o & db' & Hrep & Hrb' & Hc & Hmono).
  rewrite Hrep.
  assert (∀ rb1, ∃ rb' db'', replay_all db' records rb1 = (Ok rb', db'') ∧ rebuilding evs db'' ∧
    (∀ r', r' ∈ r :: records → complete_at evs db'' (er_id r')) ∧
    ∀ k, complete_at evs db k → complete_at evs db'' k) as Hgo.
  { intros rb1. destruct (IH db' rb1 Hrb' Hall) as (rb' & db'' & ? & ? & Hin & Hm).
    exists rb', db''. split_and!; [done..| |auto].
    intros r' [->|?]%elem_of_cons; auto. }
  destruct o; apply Hgo.
Qed.
Lemma core_eq db db' :
  events db = events db' → instance_info db = instance_info db' →
  order_versions db = order_versions db' → orders db = orders db' → dev_fees db = dev_fees db' →
  dispute_versions db = dispute_versions db' → disputes db = disputes db' → rates db = rates db' →
  core db = core db'.
Proof.
  destruct db, db'. unfold core, set_instances, set_instance_names, set_relays, set_sync_state,
    set_indexed_kinds. cbn. by intros -> -> -> -> -> -> -> ->.
Qed.

Lemma partly_feed {R} (derive : Event → option R) evs (t : gmap string R) :
  derived derive evs t → partly (feed evs derive) t.
Proof. intros Hd id. right. apply Hd. Qed.
Lemma partly_empty {R} (D : string → option R) : partly D ∅.
Proof. intros id. by left. Qed.

Lemma rebuilding_start from_raw db :
  archive_ok db → rebuilding (events db) (clear_projections (clear_derived from_raw db)).
Proof.
  intros [? ? ? ? ? ? [Hko _] [Hkd _] ?].
  destruct from_raw; split; cbn; try done; try by apply partly_feed.
  all: try apply partly_empty.
  - split; [by intros ? ?|by left].
  - split; [by intros ? ?|by left].
  - split; [done|by left].
  - split; [done|by left].
Qed.
(** [--from-raw] keeps nothing but the events, whatever the tables held. *)
Lemma rebuilding_from_raw db : rebuilding (events db) (clear_projections (clear_derived true db)).
Proof. split; cbn; try done; try apply partly_empty; (split; [by intros ? ?|by left]). Qed.

(** A table complete at every archived event is the whole table. *)
Lemma complete_derived {R} (derive : Event → option R) evs t :
  partly (feed evs derive) t → (∀ id, is_Some (evs !! id) → t !! id = feed evs derive id) → derived derive evs t.
Proof.
  intros Hp Hc id. fold (feed evs derive id). destruct (evs !! id) as [r|] eqn:E; [by apply Hc|].
  destruct (Hp id) as [->|?]; [|done]. unfold feed, archived_event. by rewrite E.
Qed.
Lemma derived_unique {R} (derive : Event → option R) evs t t' : derived derive evs t → derived derive evs t' → t = t'.
Proof. intros Ht Ht'. apply map_eq. intros id. by rewrite (Ht id), (Ht' id). Qed.

(** The events of an archive determine the rest of it. *)
Lemma archive_determined db db' : archive_ok db → archive_ok db' → events db = events db' → core db = core db'.
Proof.
  intros Hok Hok' He. destruct Hok as [_ Ho Hd Hf Hi Hr [_ Hpo] [_ Hpd] Hfl], Hok' as [_ Ho' Hd' Hf' Hi' Hr' [_ Hpo'] [_ Hpd'] Hfl'].
  rewrite He in Ho, Hd, Hf, Hi, Hr. pose proof (derived_unique _ _ _ _ Ho Ho') as Eo. pose proof (derived_unique _ _ _ _ Hd Hd') as Ed.
  apply core_eq; [done|by eapply derived_unique|done| |apply RepoDevFees.flagged_ext; [done..|by eapply derived_unique]|done| |
    by eapply derived_unique].
  - apply map_eq. intros g. cbn in Hpo, Hpo'. by rewrite Hpo, Hpo', Eo.
  - apply map_eq. intros g. cbn in Hpd, Hpd'. by rewrite Hpd, Hpd', Ed.
Qed.

Lemma order_ids_complete db g :
  group_rows (V := ParseOrder.OrderVersion) (order_versions db) g ≠ [] → g ∈ RepoOrders.ids db.
Proof.
  intros Hne. unfold RepoOrders.ids. rewrite elem_of_distinct, list_elem_of_fmap.
  destruct (group_rows (order_versions db) g) as [|r l] eqn:E; [done|].
  assert (r ∈ group_rows (V := ParseOrder.OrderVersion) (order_versions db) g) as Hr by (rewrite E; by left).
  apply list_elem_of_filter in Hr as [<- ?]. by exists r.
Qed.
Lemma dispute_ids_complete db g :
  group_rows (V := ParseDispute.DisputeVersion) (dispute_versions db) g ≠ [] → g ∈ RepoDisputes.ids db.
Proof.
  intros Hne. unfold RepoDisputes.ids. rewrite elem_of_distinct, list_elem_of_fmap.
  destruct (group_rows (dispute_versions db) g) as [|r l] eqn:E; [done|].
  assert (r ∈ group_rows (V := ParseDispute.DisputeVersion) (dispute_versions db) g) as Hr by (rewrite E; by left).
  apply list_elem_of_filter in Hr as [<- ?]. by exists r.
Qed.

Lemma sweep_fees_spec db :
  RepoDevFees.flagged (dev_fees db) → sweep_fees db = db.
Proof.
  unfold sweep_fees. generalize (RepoDevFees.order_ids db) as gs. intros gs Hf.
  assert (∀ oid, RepoDevFees.refresh_duplicates db oid = db) as Hid.
  { intros oid. unfold RepoDevFees.refresh_duplicates. change (set_dev_fees (RepoDevFees.refresh_flags oid) db)
      with (set_table (R := FeeRow) (RepoDevFees.refresh_flags oid) db).
    apply set_table_same. cbn.
    apply RepoDevFees.flagged_ext; [|done|apply RepoDevFees.published_refresh_flags].
    split; [by apply RepoDevFees.refresh_flags_keyed, Hf|]. intros oid'.
    destruct (decide (oid = oid')) as [<-|?]; [by apply RepoDevFees.refresh_flags_order, Hf|].
    apply RepoDevFees.refresh_flags_other; [apply Hf|done|apply Hf]. }
  induction gs as [|g gs IH]; [done|]. cbn. by rewrite Hid.
Qed.

(** The tables a sync keeps for itself, and the bestiary: a sweep touches none. *)
Definition kept (db : Db) := (sync_state db, indexed_kinds db).
Definition bestiary (db : Db) := (instances db, instance_names db).
Definition replayed_as (db db' : Db) : Prop := bestiary db' = bestiary db ∧ kept db' = kept db ∧ relays db' = relays db.

Lemma upsert_relays_keeps db l : relays db ⊆ relays (upsert_relays db l).
Proof.
  unfold upsert_relays. generalize (ParseRelayList.rl_relays l) as urls. intros urls. revert db.
  induction urls as [|url urls IH]; intros db; [done|]. cbn. etransitivity; [|apply IH].
  apply map_subseteq_spec. intros k x Hk. cbn. by rewrite insert_or_ignore_lookup, Hk.
Qed.
Lemma persist_parsed_kept db p db' :
  persist_parsed db p = Ok db' → bestiary db' = bestiary db ∧ kept db' = kept db ∧ relays db ⊆ relays db'.
Proof.
  intros Hp. destruct p as [v|v|v|v|v|l].
  6: { injection Hp as <-. destruct (upsert_relays_frame db l) as [f Hf].
       split_and!; [by rewrite Hf|by rewrite Hf|apply upsert_relays_keeps]. }
  all: apply persist_parsed_writes in Hp; inversion Hp; subst; done.
Qed.
Lemma told_persist db event p db' :
  persist db event p = Ok db' →
  bestiary db' = bestiary (tell db (ev_pubkey event, instance_name event, as_i64 (ev_created_at event))) ∧
  kept db' = kept db ∧ relays db ⊆ relays db'.
Proof.
  unfold persist. intros Hw.
  assert (bestiary db' = bestiary (persist_instance db event) ∧ kept db' = kept (persist_instance db event) ∧
    relays (persist_instance db event) ⊆ relays db') as (-> & -> & Hr) by (by apply persist_parsed_kept in Hw).
  destruct (persist_instance_frame db event) as (f & g & Hf). rewrite Hf in Hr |- *. split_and!; [|done|done].
  rewrite <- Hf. unfold persist_instance, tell. by destruct (instance_name event).
Qed.
Lemma tell_bestiary db db' s : bestiary db = bestiary db' → bestiary (tell db s) = bestiary (tell db' s).
Proof. destruct s as [[p [n|]] t]; unfold bestiary; cbn; intros [= -> ->]; done. Qed.

(** A replay tells the bestiary what the archive does, and no cursor moves. *)
Lemma replay_all_told db records rb rb' db' :
  replay_all db records rb = (Ok rb', db') →
  bestiary db' = bestiary (foldl tell db (told records)) ∧ kept db' = kept db ∧ relays db ⊆ relays db'.
Proof.
  revert db rb. induction records as [|r records IH]; intros db rb Hr; [by injection Hr as <- <-|].
  cbn [replay_all] in Hr. unfold told. cbn [omap list_omap]. fold (told records).
  destruct (from_json (er_raw_json r)) as [event|]; cbn [mbind option_bind]; [|by apply IH in Hr].
  unfold replay, transaction in Hr. destruct (parse event) as [p|rejection]; [|by apply IH in Hr].
  destruct (persist db event p) as [db1|e] eqn:Ep; cbn in Hr; [|done]. apply IH in Hr as (Hb & Hk & Hsub).
  apply told_persist in Ep as (Hb1 & Hk1 & Hsub1). cbn [foldl]. split_and!; [|congruence|by etransitivity].
  rewrite Hb. clear -Hb1. revert Hb1. generalize (tell db (ev_pubkey event, instance_name event, as_i64 (ev_created_at event))) as d.
  revert db1. induction (told records) as [|s l IH]; intros db1 d E; [done|]. cbn. apply IH. by apply tell_bestiary.
Qed.

(** Over any events a rebuild whose tables may be refilled ends, keeps the
    events, leaves a well-formed archive, and the rest as the replay left it. *)
Lemma rebuild_refills db from_raw (db0 := clear_projections (clear_derived from_raw db)) :
  recorded (events db) → rebuilding (events db) db0 →
  ∃ rb db', rebuild db from_raw = (Ok rb, db') ∧ archive_ok db' ∧ events db' = events db ∧
    ∃ db1 rb1, replay_all db0 (RepoEvents.all db0) (mkRebuilt 0 0 0 0) = (Ok rb1, db1) ∧ replayed_as db1 db'.
Proof.
  intros Hrec Hstart. unfold rebuild. fold db0. assert (events db0 = events db) as He0 by apply Hstart.
  destruct (replay_all_spec (events db) db0 (RepoEvents.all db0) (mkRebuilt 0 0 0 0) Hrec Hstart)
    as (rb & db1 & Hrep & Hrb & Hc & _).
  { apply Forall_forall. intros r [k Hk]%elem_of_order_by%elem_of_rows. rewrite He0 in Hk.
    destruct (Hrec _ _ Hk) as (e & u & t & He & Hid). by rewrite He at 1; cbn; rewrite Hid. }
  rewrite Hrep. assert (∀ id, is_Some (events db !! id) → complete_at (events db) db1 id) as Hall.
  { intros id [r Hr]. destruct (Hrec _ _ Hr) as (e & u & t & He & Hid).
    assert (er_id r = id) as <- by (by rewrite He). apply Hc, elem_of_order_by, elem_of_rows.
    exists (er_id r). by rewrite He0. }
  destruct (sweep_projected db1 (RepoOrders.ids db1) (rb_half_orders _ _ Hrb)) as (Hpo & Hto & Hfo);
    [apply order_ids_complete|].
  change (foldl refresh db1 (RepoOrders.ids db1)) with (sweep_orders db1) in Hpo, Hto, Hfo. set (db2 := sweep_orders db1) in *.
  assert (dispute_versions db2 = dispute_versions db1 ∧ disputes db2 = disputes db1) as [Hdt Hdp]
    by (split; [exact (f_equal dispute_versions Hfo)|exact (f_equal disputes Hfo)]).
  destruct (sweep_projected db2 (RepoDisputes.ids db2)) as (Hpd & Htd & Hfd);
    [by eapply half_same; [| |exact (rb_half_disputes _ _ Hrb)]|apply dispute_ids_complete|].
  change (foldl refresh db2 (RepoDisputes.ids db2)) with (sweep_disputes db2) in Hpd, Htd, Hfd. set (db3 := sweep_disputes db2) in *.
  cbn in Hto, Htd. destruct Hrb as [He1 Ho1 Hd1 Hf1 Hi1 Hr1 _ _ Hfl1].
  assert (∀ {A} (f : Db → A), (∀ d, f (frame (V := ParseOrder.OrderVersion) d) = f d) → (∀ d, f (frame (V := ParseDispute.DisputeVersion) d) = f d) →
    f db3 = f db1) as Hsame.
  { intros A f Hfo' Hfd'. rewrite <- (Hfd' db3), Hfd, Hfd', <- (Hfo' db2), Hfo. apply Hfo'. }
  assert (events db3 = events db1) as Ee by (by apply Hsame).
  assert (dev_fees db3 = dev_fees db1) as Ef by (by apply Hsame).
  eexists _, db3. rewrite sweep_fees_spec by (by rewrite Ef). split; [reflexivity|].
  split; [|split; [by rewrite Ee|exists db1, rb; split; [done|split_and!; by apply Hsame]]].
  assert (order_versions db3 = order_versions db1) as Eo by (etransitivity; [exact (f_equal order_versions Hfd)|exact Hto]).
  split; rewrite ?Ee, ?He1, ?Eo, ?Htd, ?Hdt, ?Ef.
  - done.
  - apply complete_derived; [done|]. intros id Hid. by apply (Hall id Hid).
  - apply complete_derived; [done|]. intros id Hid. by apply (Hall id Hid).
  - apply complete_derived; [done|]. intros id Hid. by apply (Hall id Hid).
  - rewrite (Hsame _ instance_info) by done. apply complete_derived; [done|]. intros id Hid. by apply (Hall id Hid).
  - rewrite (Hsame _ rates) by done. apply complete_derived; [done|]. intros id Hid. by apply (Hall id Hid).
  - eapply projected_same; [| |exact Hpo]; [exact (f_equal order_versions Hfd)|exact (f_equal orders Hfd)].
  - exact Hpd.
  - done.
Qed.
Lemma rebuild_core db from_raw :
  archive_ok db → ∃ rb db', rebuild db from_raw = (Ok rb, db') ∧ core db' = core db ∧ kept db' = kept db ∧
    relays db ⊆ relays db' ∧ bestiary db' = bestiary (bestiary_told db) ∧
    ∃ db1 rb1, let db0 := clear_projections (clear_derived from_raw db) in
      replay_all db0 (RepoEvents.all db0) (mkRebuilt 0 0 0 0) = (Ok rb1, db1) ∧ instances db' = instances db1.
Proof.
  intros Hok. destruct (rebuild_refills db from_raw (ok_recorded _ Hok) (rebuilding_start from_raw db Hok))
    as (rb & db' & Hr & Hok' & He & db1 & rb1 & Hrep & Hb & Hk & Hrel).
  pose proof (replay_all_told _ _ _ _ _ Hrep) as (Hb1 & Hk1 & Hrel1).
  exists rb, db'. split_and!; [done|by apply archive_determined| | | |].
  - rewrite Hk, Hk1. by destruct from_raw.
  - rewrite Hrel. etransitivity; [|exact Hrel1]. by destruct from_raw.
  - rewrite Hb, Hb1. unfold bestiary_told.
    assert (RepoEvents.all (clear_projections (clear_derived from_raw db)) = RepoEvents.all db) as -> by (by destruct from_raw).
    assert (∀ l d d', bestiary d = bestiary d' → bestiary (foldl tell d l) = bestiary (foldl tell d' l)) as Hfold.
    { intros l. induction l as [|x l IH]; intros d d' E; [done|]. cbn. apply IH. by apply tell_bestiary. }
    apply Hfold. by destruct from_raw.
  - exists db1, rb1. split; [done|]. by injection Hb.
Qed.

(** C3: a rebuild, plain or [--from-raw], ends on every archive the pipeline
    can reach and restores what is derived. The archive of events, the
    versions and projections of orders and disputes, the dev fees with their
    duplicate flags, the instance profiles and the rates are exactly what they
    were, so a projection rule can be changed without a migration; the sync
    cursors and the kinds asked for are untouched, and no relay is forgotten.
    The bestiary is not restored but rebuilt: it ends as what the archived
    events that parse tell, so what only a redundant heartbeat had told is
    gone. And [--from-raw] repairs: whatever the other tables hold, from
    archived events alone it ends with those events and a well-formed archive,
    every version, projection, flag, profile and rate being what they say. *)
Theorem rebuild_restores policy db :
  (reachable policy db → ∀ from_raw, ∃ rb db', rebuild db from_raw = (Ok rb, db') ∧
    core db' = core db ∧
    sync_state db' = sync_state db ∧ indexed_kinds db' = indexed_kinds db ∧ relays db ⊆ relays db' ∧
    instances db' = instances (bestiary_told db) ∧ instance_names db' = instance_names (bestiary_told db)) ∧
  (recorded (events db) → ∃ rb db', rebuild db true = (Ok rb, db') ∧ events db' = events db ∧ archive_ok db').
Proof.
  split.
  - intros Hok%reachable_ok from_raw.
    destruct (rebuild_core db from_raw Hok) as (rb & db' & Hrb & Hcore & [= Hs Hi] & Hrel & [= Hb Hn] & _).
    exists rb, db'. by split_and!.
  - intros Hrec. destruct (rebuild_refills db true Hrec (rebuilding_from_raw db)) as (rb & db' & Hrb & Hok & He & _). by exists rb, db'.
Qed.
End facts.

(** ** Witnesses *)
Section witnesses.
#[local] Existing Instance Demo.demo.
#[local] Existing Instance Demo.demo_laws.

(** As [after_rates], but with no version left of the order in [orders]. *)
Definition damaged : Db := set_order_versions (λ _, ∅) after_rates.
Theorem rebuild_restores_witness :
  (∃ rb db', rebuild after_rates false = (Ok rb, db') ∧ core db' = core after_rates ∧
    instances db' = instances (bestiary_told after_rates)) ∧
  order_versions damaged = ∅ ∧ ∃ rb db', rebuild damaged true = (Ok rb, db') ∧ archive_ok db'.
Proof.
  split.
  { destruct (proj1 (rebuild_restores open_policy after_rates) after_rates_reachable false)
      as (rb & db' & Hr & Hc & _ & _ & _ & Hi & _). exists rb, db'. split; [exact Hr|]. split; [exact Hc|exact Hi]. }
  split; [reflexivity|].
  destruct (proj2 (rebuild_restores open_policy damaged)) as (rb & db' & Hr & _ & Hok).
  - exact (ok_recorded _ (reachable_ok _ _ after_rates_reachable)).
  - exists rb, db'. split; [exact Hr|exact Hok].
Defined.

(** ** What a rebuild cannot restore

    The comment at the top of [rebuild.rs] says every other table is a
    function of the archive. A redundant heartbeat moves the bestiary's
    [last_seen_at] and is not archived, so a rebuild moves it back. *)
Definition again : Event := relay_list_event "r3" 1700000900 ["wss://a"].
Definition after_again : Db := (run after_newer again).2.
Definition last_seen (db : Db) : option Z := inst_last_seen_at <$> RepoInstances.find db alice.

(** the delivery after which a rebuild changes the bestiary. *)
Theorem rebuild_forgets_redundant_sighting :
  (run after_newer again).1 = Ok Redundant ∧ last_seen after_again = Some 1700000900 ∧
  last_seen (rebuild after_again true).2 = Some 1700000800.
Proof. split_and!; vm_compute; reflexivity. Qed.
End witnesses.
