(* ===== verification/Range.v ===== *)
(** * The reporting window and the instance filter

    [src/commands/range.rs]. *)

From S2P Require Import Prelude Event.

#[local] Open Scope Z_scope.

Definition DEFAULT_WINDOW_DAYS : Z := 30.
Definition MAX_WINDOW_YEARS : Z := 100.
Definition MAX_WINDOW_SECS : Z := MAX_WINDOW_YEARS * 31557600.

(** A half-open interval of unix seconds. *)
Record Range : Type := mkRange { range_from : Z; range_until : Z }.

Inductive RangeError : Type :=
| EmptyRange (from until : Z)
| TooWide (from until : Z).

Definition resolve (from until : option Z) (now : Z) : Result RangeError Range :=
  let until := default now until in
  let from := default (until - DEFAULT_WINDOW_DAYS * 86400) from in
  if decide (until ≤ from) then Err (EmptyRange from until)
  else if decide (MAX_WINDOW_SECS < i64_saturating_sub until from) then Err (TooWide from until)
  else Ok (mkRange from until).

Definition onwards (from : Z) : Range := mkRange from i64_max.
Definition unbounded : Range := mkRange 0 i64_max.

Definition contains (r : Range) (timestamp : Z) : bool :=
  bool_decide (range_from r ≤ timestamp) && bool_decide (timestamp < range_until r).

Definition previous (r : Range) : Range :=
  let length := i64_sub (range_until r) (range_from r) in
  mkRange (i64_sub (range_from r) length) (range_from r).

Lemma resolve_Ok from until now r :
  resolve from until now = Ok r ↔
    range_until r = default now until ∧
    range_from r = default (default now until - DEFAULT_WINDOW_DAYS * 86400) from ∧
    range_from r < range_until r ∧
    i64_saturating_sub (range_until r) (range_from r) ≤ MAX_WINDOW_SECS.
Proof.
  unfold resolve. destruct r as [f u]. cbn. split.
  - repeat case_decide; intros [= <- <-]. split_and!; [done..|lia|lia].
  - intros (<- & <- & ? & ?). rewrite decide_False by lia. by rewrite decide_False by lia.
Qed.

Lemma contains_spec r t : contains r t = true ↔ range_from r ≤ t < range_until r.
Proof. unfold contains. rewrite andb_true_iff, !bool_decide_eq_true. lia. Qed.

(** ** [InstanceFilter] *)

Inductive InstanceFilter : Type := All | One (pubkey : string).
Inductive InstanceError : Type :=
| NotFound (needle : string)
| Ambiguous (needle : string) (pubkeys : list string).

Definition KnownInstance : Type := string * option string.

(** An exact pubkey or an exact name, and the prefix that also matches. *)
Definition exact (needle : string) (known : KnownInstance) : bool :=
  eq_ignore_ascii_case known.1 needle ||
  is_some_and (λ name, eq_ignore_ascii_case name needle) known.2.
Definition matching (needle : string) (known : KnownInstance) : bool :=
  exact needle known || starts_with (to_lowercase needle) (to_lowercase known.1).

Definition resolve_instance (needle : option string) (known : list KnownInstance) :
    Result InstanceError InstanceFilter :=
  match needle with
  | None => Ok All
  | Some needle =>
      let needle := trim needle in
      match filter (λ k, matching needle k = true) known with
      | [] => Err (NotFound needle)
      | [k] => Ok (One k.1)
      | several =>
          match filter (λ k, exact needle k = true) known with
          | k :: _ => Ok (One k.1)
          | [] => Err (Ambiguous needle several.*1)
          end
      end
  end.

Lemma exact_matching needle k : exact needle k = true → matching needle k = true.
Proof. unfold matching. by intros ->. Qed.

(** [--instance] never reports on an instance the needle does not name:
    an instance it resolves to is known and matches by pubkey, prefix or
    name, and when several match it matches exactly; it is refused as unknown
    exactly when nothing matches, and as ambiguous only when several match
    and none exactly. *)
Theorem resolve_instance_spec needle known :
  let n := trim needle in
  match resolve_instance (Some needle) known with
  | Ok All => False
  | Ok (One pubkey) => ∃ k, k ∈ known ∧ k.1 = pubkey ∧ matching n k = true ∧
      ((∀ k', k' ∈ known → matching n k' = true → k' = k) ∨ exact n k = true)
  | Err (NotFound _) => ∀ k, k ∈ known → matching n k = false
  | Err (Ambiguous _ pubkeys) =>
      (∀ k, k ∈ known → exact n k = false) ∧ (2 ≤ length pubkeys)%nat ∧
      ∀ p, p ∈ pubkeys ↔ ∃ k, k ∈ known ∧ k.1 = p ∧ matching n k = true
  end.
Proof.
  intros n. unfold resolve_instance. fold n.
  assert (∀ k, k ∈ filter (λ k, matching n k = true) known ↔ matching n k = true ∧ k ∈ known) as Hm
    by (intros; by rewrite list_elem_of_filter).
  assert (∀ k, k ∈ filter (λ k, exact n k = true) known ↔ exact n k = true ∧ k ∈ known) as He
    by (intros; by rewrite list_elem_of_filter).
  destruct (filter _ known) as [|k [|k2 l]] eqn:E.
  - intros k Hk. apply not_true_is_false. intros Hmk.
    destruct (not_elem_of_nil k). by apply (proj2 (Hm k)).
  - exists k. destruct (proj1 (Hm k)) as [??]; [by left|]. split_and!; [done..|]. left.
    intros k' ??. apply list_elem_of_singleton, (proj2 (Hm k')). done.
  - destruct (filter (λ k, exact n k = true) known) as [|x xs] eqn:Ex.
    + split_and!; [|cbn; lia|].
      * intros k' Hk. apply not_true_is_false. intros Hx.
        destruct (not_elem_of_nil k'). by apply (proj2 (He k')).
      * intros p. rewrite list_elem_of_fmap. setoid_rewrite Hm. naive_solver.
    + exists x. destruct (proj1 (He x)) as [??]; [by left|]. split_and!; [done..| |by right].
      by apply exact_matching.
Qed.

(** Two instances that publish one name: the first of them is reported on,
    without a word. *)
Lemma shared_name_takes_the_first :
  resolve_instance (Some "alpha") [("aa11", Some "Alpha"); ("bb22", Some "Alpha")] = Ok (One "aa11").
Proof. vm_compute. reflexivity. Qed.

