(* ===== verification/Filters.v ===== *)
(** * Relay filters

    [src/nostr/filters.rs]: one filter per kind, its authors and its window.
    [Filter] is the nostr crate's: the fields the code sets, each an [option]
    that is absent until set. *)

From S2P Require Import Prelude Event Parse Range.
From S2P Require ParseOrder ParseDevFee ParseDispute ParseInfo ParseRelayList ParseRates.
From S2P Require Import Pipeline.

#[local] Open Scope Z_scope.

Definition INDEXED_KINDS : list Z :=
  [ParseOrder.KIND; ParseDevFee.KIND; ParseDispute.KIND; ParseInfo.KIND; ParseRates.KIND;
   ParseRelayList.KIND].

Record Filter : Type := mkFilter {
  flt_kind : Z;
  flt_identifier : option string;
  flt_authors : option (list string);
  flt_since : option Z;
  flt_until : option Z;
  flt_limit : option Z;
}.

(** The inclusive pair covering a half-open range; an open end is absent. *)
Definition window (range : Range) : option Z * option Z :=
  (if decide (0 < range_from range) then Some (range_from range) else None,
   if decide (range_until range < i64_max) then Some (Z.max (range_until range - 1) 0) else None).

Definition for_kind (kind : Z) (authors vouched : list string) (range : option Range)
    (limit : option Z) : option Filter :=
  let untagged := bool_decide (kind ∈ UNTAGGED_KINDS) in
  if untagged && bool_decide (vouched = []) then None
  else
    let authors := if untagged then vouched else authors in
    let '(since, until) := match range with Some range => window range | None => (None, None) end in
    Some {|
      flt_kind := kind;
      flt_identifier := if decide (kind = ParseRates.KIND) then Some ParseRates.IDENTIFIER else None;
      flt_authors := if decide (authors = []) then None else Some authors;
      flt_since := since;
      flt_until := until;
      flt_limit := limit;
    |}.

Definition per_kind (authors vouched : list string) (range : option Range) (limit : option Z) : list Filter :=
  omap (λ kind, for_kind kind authors vouched range limit) INDEXED_KINDS.

(** ** What a filter asks for

    NIP-01: every field present has to match; both time bounds are
    inclusive. *)
Definition asks_base (f : Filter) (e : Event) : bool :=
  bool_decide (ev_kind e = flt_kind f) &&
  is_none_or (λ d, bool_decide (["d"; d] ∈ take 2 <$> ev_tags e)) (flt_identifier f) &&
  is_none_or (λ authors, bool_decide (ev_pubkey e ∈ authors)) (flt_authors f).
Definition asks_time (f : Filter) (t : Z) : bool :=
  is_none_or (λ since, bool_decide (since ≤ t)) (flt_since f) &&
  is_none_or (λ until, bool_decide (t ≤ until)) (flt_until f).
Definition asks (f : Filter) (e : Event) : bool := asks_base f e && asks_time f (ev_created_at e).

Lemma window_time range f t :
  0 ≤ t < i64_max → 0 < range_until range →
  flt_since f = (window range).1 → flt_until f = (window range).2 →
  asks_time f t = contains range t.
Proof.
  intros Ht Hu Hs Hn. unfold asks_time, contains. rewrite Hs, Hn. unfold window. cbn.
  f_equal; case_decide; cbn; repeat case_bool_decide; done || lia.
Qed.

(** a relay is asked for exactly the half-open window: consecutive
    windows tile, no event on a boundary is fetched twice, and an open end is
    no bound at all. An untagged kind is only ever asked of vouched
    publishers, never of everyone. *)
Theorem filter_asks_the_window kind authors vouched range limit f t :
  for_kind kind authors vouched (Some range) limit = Some f →
  0 ≤ t < i64_max → 0 < range_until range →
  asks_time f t = contains range t ∧ flt_kind f = kind ∧ flt_limit f = limit ∧
  (kind ∈ UNTAGGED_KINDS → vouched ≠ [] ∧ flt_authors f = Some vouched).
Proof.
  intros Hf Ht Hu. unfold for_kind in Hf.
  destruct (bool_decide (kind ∈ UNTAGGED_KINDS)) eqn:Hk; cbn [andb] in Hf.
  - destruct (bool_decide (vouched = [])) eqn:Hv; [done|]. apply bool_decide_eq_false in Hv.
    unfold window in Hf. injection Hf as <-. split_and!; [|done..|].
    + apply window_time; done.
    + intros _. split; [done|]. cbn. by rewrite decide_False.
  - apply bool_decide_eq_false in Hk. unfold window in Hf. injection Hf as <-.
    split_and!; [|done..]. by apply window_time.
Qed.

(** Untagged kinds come last, after the kinds that vouch for who they are by. *)
Lemma untagged_kinds_last :
  ∃ tagged, INDEXED_KINDS = tagged ++ UNTAGGED_KINDS ∧ ∀ k, k ∈ tagged → k ∈ PLATFORM_TAGGED.
Proof. exists PLATFORM_TAGGED. by split. Qed.

