(* ===== verification/Backfill.v ===== *)
(** * The backwards walk

    [src/commands/backfill.rs]: a relay's history read window by window, from
    the top of a range down to its floor. The relay is a parameter: [fetch]
    answers a filter with events, newest first, or fails. *)

From S2P Require Import Prelude Network Event Parse Db Samples Range Filters.
From S2P Require ParseOrder RepoInstances RepoRelays.
From S2P Require Import Pipeline PipelineFacts.

#[local] Open Scope Z_scope.

Definition WINDOW_LIMIT : Z := 500.
Definition no_counts : Counts := mkCounts 0 0 0 0.

(** [Counts]'s [+=]. *)
Definition add_counts (a b : Counts) : Counts :=
  mkCounts (stored a + stored b) (duplicate a + duplicate b) (redundant a + redundant b)
    (rejected a + rejected b).

(** The [created_at] of the oldest event of a window. *)
Definition oldest (events : list Event) : Z :=
  default 0 (sql_min ((λ e, Some (as_i64 (ev_created_at e))) <$> events)).

(** [PublicKey::parse], to the key's hex. *)
Class PublicKeys := parse_key : string → option string.

Section walk.
Context `{External} `{PublicKeys} (policy : Policy) (fetch : Filter → option (list Event)).
Context (relay_url : string) (now : Z) (kind : Z) (authors : list string) (window_limit : Z).

(** One window fed to the pipeline, oldest first; the first failed write
    ends the run. *)
Fixpoint ingest_list (db : Db) (events : list Event) (counts : Counts) : Sql Counts * Db :=
  match events with
  | [] => (Ok counts, db)
  | event :: events =>
      match ingest policy db event relay_url now with
      | (Err e, db) => (Err e, db)
      | (Ok outcome, db) => ingest_list db events (record counts outcome)
      end
  end.
Definition ingest_all (db : Db) (events : list Event) : Sql Counts * Db :=
  ingest_list db (reverse events) no_counts.

(** The vouched publishers: the listed ones, then the proven ones. *)
Definition vouched (listed : list string) (db : Db) : list string :=
  foldl (λ acc pubkey,
    match parse_key pubkey with
    | Some key => if decide (key ∈ acc) then acc else acc ++ [key]
    | None => acc
    end) listed (RepoInstances.platform_proven db).

(** Where the next window ends. *)
Definition next_until (until : Z) (events : list Event) : Z :=
  let next := oldest events + 1 in if decide (next < until) then next else oldest events.

Section window.
Context (vouched : list string) (floor : Z).

(** What the relay is asked for the window ending at [until], and what it
    answers: [None] ends the walk. *)
Definition page (until : Z) : option (list Event) :=
  match Range.resolve (Some floor) (Some until) now with
  | Err _ => None
  | Ok window =>
      match for_kind kind authors vouched (Some window) (Some window_limit) with
      | None => None
      | Some filter =>
          match fetch filter with
          | None => None
          | Some [] => None
          | Some events => Some events
          end
      end
  end.

(** The loop of [walk]; [None] is out of fuel. *)
Fixpoint walk_from (fuel : nat) (db : Db) (until : Z) (counts : Counts) : option (Sql Counts * Db) :=
  match fuel with
  | O => None
  | S fuel =>
      if decide (until ≤ floor) then Some (Ok counts, db)
      else
        match page until with
        | None => Some (Ok counts, db)
        | Some events =>
            match ingest_all db events with
            | (Err e, db) => Some (Err e, db)
            | (Ok more, db) => walk_from fuel db (next_until until events) (add_counts counts more)
            end
        end
  end.

(** The windows the loop walks, apart from what ingesting them does. *)
Fixpoint pages (fuel : nat) (until : Z) : option (list (list Event)) :=
  match fuel with
  | O => None
  | S fuel =>
      if decide (until ≤ floor) then Some []
      else
        match page until with
        | None => Some []
        | Some events => cons events <$> pages fuel (next_until until events)
        end
  end.
End window.

(** One relay, one kind, from the top of [range] down to its floor. *)
Definition walk (fuel : nat) (listed : list string) (db : Db) (range : Range) : option (Sql Counts * Db) :=
  walk_from (vouched listed db) (range_from range) fuel db (range_until range) no_counts.
End walk.

(** The kinds one invocation walks. *)
Definition requested_kinds (kind : option Z) : option (list Z) :=
  match kind with
  | None => Some INDEXED_KINDS
  | Some kind => if decide (kind ∈ INDEXED_KINDS) then Some [kind] else None
  end.

(** ** The walk is its pages, ingested *)

Section facts.
Context `{External} (policy : Policy) (fetch : Filter → option (list Event)).
Context (relay_url : string) (now : Z) (kind : Z) (authors : list string) (window_limit : Z).
Context (vch : list string) (floor : Z).

#[local] Abbreviation page' := (page fetch now kind authors window_limit vch floor).
#[local] Abbreviation pages' := (pages fetch now kind authors window_limit vch floor).
#[local] Abbreviation walk_from' := (walk_from policy fetch relay_url now kind authors window_limit vch floor).

Lemma ingest_list_total db events counts :
  ∃ counts' db', ingest_list policy relay_url now db events counts = (Ok counts', db').
Proof.
  revert db counts. induction events as [|e es IH]; intros db counts; [by eexists _, _|].
  cbn. destruct (ingest_total policy db e relay_url now) as (o & db' & -> & _). apply IH.
Qed.

Fixpoint ingest_pages (db : Db) (ps : list (list Event)) (counts : Counts) : Sql Counts * Db :=
  match ps with
  | [] => (Ok counts, db)
  | p :: ps =>
      match ingest_all policy relay_url now db p with
      | (Err e, db) => (Err e, db)
      | (Ok more, db) => ingest_pages db ps (add_counts counts more)
      end
  end.

Lemma walk_pages fuel db until counts :
  walk_from' fuel db until counts = (λ ps, ingest_pages db ps counts) <$> pages' fuel until.
Proof.
  revert db until counts. induction fuel as [|fuel IH]; intros db until counts; [done|]. cbn.
  case_decide; [done|]. destruct (page' until) as [events|]; [|done].
  unfold ingest_all. destruct (ingest_list_total db (reverse events) no_counts) as (c & db' & Hi).
  rewrite Hi, IH. destruct (pages' fuel _) as [ps|]; [|done]. cbn. unfold ingest_all. by rewrite Hi.
Qed.

(** What a walk relies on: the relay honours the bounds of the request. *)
Definition honours_bounds : Prop :=
  ∀ f events e, fetch f = Some events → e ∈ events → asks_time f (ev_created_at e) = true ∧ 0 ≤ ev_created_at e.

Lemma oldest_spec events :
  events ≠ [] →
  (∃ e, e ∈ events ∧ oldest events = as_i64 (ev_created_at e)) ∧
  ∀ e, e ∈ events → oldest events ≤ as_i64 (ev_created_at e).
Proof.
  intros Hne. unfold oldest. destruct events as [|e0 es]; [done|].
  destruct (sql_min_le ((λ e, Some (as_i64 (ev_created_at e))) <$> e0 :: es) (as_i64 (ev_created_at e0)))
    as (m & Hm & _); [by constructor|].
  rewrite Hm. cbn [default]. apply sql_min_Some in Hm as [(e & [= ->] & He)%list_elem_of_fmap Hle].
  split; [by exists e|]. intros e' He'. apply Hle, list_elem_of_fmap. by exists e'.
Qed.

(** What a page is, when it is one. *)
Lemma page_Some until events :
  page' until = Some events →
  events ≠ [] ∧ ∃ f, fetch f = Some events ∧ floor < until ∧
    for_kind kind authors vch (Some (mkRange floor until)) (Some window_limit) = Some f.
Proof.
  unfold page. destruct (Range.resolve _ _ _) as [[fl u]|] eqn:Hr; [|done].
  apply resolve_Ok in Hr as (Hu & Hf & Hlt & _). cbn in Hu, Hf, Hlt. subst.
  destruct (for_kind _ _ _ _ _) as [f|] eqn:Hk; [|done].
  destruct (fetch f) as [[|e es]|] eqn:He; try done. intros [= <-]. split; [done|]. by exists f.
Qed.

(** Each event of a page is inside its window. *)
Lemma page_bounds until events e :
  honours_bounds → 0 ≤ floor → until < i64_max → page' until = Some events → e ∈ events →
  floor ≤ ev_created_at e < until ∧ as_i64 (ev_created_at e) = ev_created_at e.
Proof.
  intros Hb Hfl Hu (Hne & f & Hf & Hlt & Hk)%page_Some He.
  destruct (Hb _ _ _ Hf He) as [Ht H0].
  assert (flt_since f = (window (mkRange floor until)).1 ∧ flt_until f = (window (mkRange floor until)).2)
    as [Hs Hn].
  { unfold for_kind in Hk. destruct (_ && _); [done|]. destruct (window _). by injection Hk as <-. }
  unfold asks_time in Ht. rewrite Hs, Hn in Ht. unfold window in Ht. cbn in Ht.
  rewrite (decide_True (P := until < i64_max)) in Ht by done.
  apply andb_true_iff in Ht as [H1 H2]. cbn in H2. apply bool_decide_eq_true in H2.
  assert (floor ≤ ev_created_at e) as Hge.
  { case_decide; cbn in H1; [by apply bool_decide_eq_true in H1|lia]. }
  split; [lia|]. apply as_i64_small. lia.
Qed.

(** Each page moves the bound down, and not below its oldest event. *)
Lemma next_until_decreases until events :
  honours_bounds → 0 ≤ floor → until < i64_max → page' until = Some events →
  floor ≤ next_until until events < until.
Proof.
  intros Hb Hfl Hu Hp. pose proof (page_Some _ _ Hp) as [Hne _].
  destruct (oldest_spec events Hne) as [(e & He & Ho) _].
  destruct (page_bounds _ _ e Hb Hfl Hu Hp He) as [? Hi]. unfold next_until. rewrite Ho, Hi.
  case_decide; lia.
Qed.

Lemma pages_total fuel until :
  honours_bounds → 0 ≤ floor → until < i64_max → Z.max 0 (until - floor) < Z.of_nat fuel →
  is_Some (pages' fuel until).
Proof.
  intros Hb Hfl. revert until. induction fuel as [|fuel IH]; intros u Hu Hfuel.
  - lia.
  - cbn. case_decide; [done|]. destruct (page' u) as [events|] eqn:Hp; [|done].
    pose proof (next_until_decreases _ _ Hb Hfl Hu Hp).
    destruct (IH (next_until u events)) as [ps ->]; [lia|lia|done].
Qed.
End facts.

(** ** Nothing a relay holds is missed *)

Section complete.
Context `{External} (policy : Policy) (fetch : Filter → option (list Event)).
Context (relay_url : string) (now : Z) (kind : Z) (authors : list string) (window_limit : Z).
Context (vch : list string) (floor : Z).
Context (held : list Event) (cap : nat).

#[local] Abbreviation page' := (page fetch now kind authors window_limit vch floor).
#[local] Abbreviation pages' := (pages fetch now kind authors window_limit vch floor).

(** A relay that holds [held] and answers a request with the newest matching
    events, up to a cap of its own that the client is not told. *)
Record honest : Prop := {
  honest_cap : (1 ≤ cap)%nat;
  honest_clock : ∀ e, e ∈ held → 0 ≤ ev_created_at e < i64_max;
  honest_answer : ∀ f, ∃ events, fetch f = Some events ∧ NoDup events ∧
    (∀ e, e ∈ events → e ∈ held ∧ asks f e = true) ∧
    ∀ e, e ∈ held → asks f e = true → e ∈ events ∨
      ((cap ≤ length events)%nat ∧ ∀ e', e' ∈ events → ev_created_at e ≤ ev_created_at e');
}.

(** The events of the requested kind and authors, and how many share one
    second. *)
Definition asked (until : Z) (e : Event) : bool :=
  match for_kind kind authors vch (Some (mkRange floor until)) (Some window_limit) with
  | Some f => asks_base f e
  | None => false
  end.
Definition in_second (until t : Z) : list Event :=
  filter (λ e, asked until e = true ∧ ev_created_at e = t) held.

Lemma honest_bounds : honest → honours_bounds fetch.
Proof.
  intros Hh f events e Hf He. destruct (honest_answer Hh f) as (events' & Hf' & _ & Hin & _).
  rewrite Hf in Hf'. injection Hf' as <-. destruct (Hin e He) as [Hheld Ha].
  apply andb_true_iff in Ha as [_ ?]. split; [done|]. by apply (honest_clock Hh).
Qed.

(** Who is asked, and the kind, do not depend on the bounds. *)
Lemma asked_until u u' e : asked u e = asked u' e.
Proof. unfold asked, for_kind. destruct (_ && _); [done|]. by destruct (window _), (window _). Qed.

Lemma asked_filter u e f :
  for_kind kind authors vch (Some (mkRange floor u)) (Some window_limit) = Some f →
  0 ≤ ev_created_at e < i64_max → 0 ≤ floor < u →
  asks f e = asked u e && contains (mkRange floor u) (ev_created_at e).
Proof.
  intros Hf Ht Hu. unfold asks, asked. rewrite Hf. f_equal. apply window_time; [done|cbn; lia|..];
    unfold for_kind in Hf; (destruct (_ && _); [done|]); destruct (window _); by injection Hf as <-.
Qed.

Lemma page_complete u e :
  honest → 0 ≤ floor → u < i64_max → u - floor ≤ MAX_WINDOW_SECS →
  e ∈ held → asked u e = true → floor ≤ ev_created_at e < u →
  ∃ events, page' u = Some events ∧ NoDup events ∧
    (∀ e', e' ∈ events → e' ∈ held ∧ asked u e' = true) ∧
    (e ∈ events ∨ ((cap ≤ length events)%nat ∧ ∀ e', e' ∈ events → ev_created_at e ≤ ev_created_at e')).
Proof.
  intros Hh Hfl Hu Hwide He Ha Ht.
  assert (Range.resolve (Some floor) (Some u) now = Ok (mkRange floor u)) as Hr.
  { apply resolve_Ok. cbn. split_and!; [done..|lia|].
    unfold i64_saturating_sub, i64_min, i64_max in *. lia. }
  unfold page. rewrite Hr. unfold asked in Ha.
  destruct (for_kind _ _ _ _ _) as [f|] eqn:Hf; [|done].
  assert (asks_base f e = asked u e) as Hbase by (unfold asked; by rewrite Hf).
  destruct (honest_answer Hh f) as (events & Hfetch & Hnd & Hin & Hall).
  assert (asks f e = true) as Hasks.
  { rewrite (asked_filter u e f Hf (honest_clock Hh e He)) by lia.
    rewrite <- Hbase, Ha. cbn. apply contains_spec. cbn. lia. }
  specialize (Hall e He Hasks).
  assert (events ≠ []) as Hne.
  { intros ->. destruct Hall as [?%elem_of_nil|[Hc _]]; [done|]. pose proof (honest_cap Hh). cbn in Hc. lia. }
  rewrite Hfetch. destruct events as [|e1 es]; [done|]. eexists. split; [done|]. split_and!; [done| |done].
  intros e' He'. destruct (Hin e' He') as [? Hx]. split; [done|].
  unfold asks in Hx. apply andb_true_iff in Hx as [Hx _]. unfold asked. by rewrite Hf.
Qed.

(** A full page in one second is the only way to step over an event. *)
Lemma pages_complete fuel u ps e :
  honest → 0 ≤ floor → u < i64_max → u - floor ≤ MAX_WINDOW_SECS →
  pages' fuel u = Some ps → e ∈ held → asked u e = true → floor ≤ ev_created_at e < u →
  (length (in_second u (ev_created_at e)) ≤ cap)%nat → ∃ p, p ∈ ps ∧ e ∈ p.
Proof.
  intros Hh Hfl. revert u ps. induction fuel as [|fuel IH]; intros u ps Hu Hwide Hps He Ha Ht Hsec; [done|].
  cbn in Hps. rewrite decide_False in Hps by lia.
  destruct (page_complete u e Hh Hfl Hu Hwide He Ha Ht) as (events & Hp & Hnd & Hin & Hall).
  rewrite Hp in Hps. destruct (pages' fuel _) as [ps'|] eqn:Hps'; [|done]. injection Hps as <-.
  destruct (decide (e ∈ events)) as [?|Hout]; [exists events; split; [by left|done]|].
  destruct Hall as [?|[Hcap Hle]]; [done|].
  pose proof (next_until_decreases fetch now kind authors window_limit vch floor _ _
    (honest_bounds Hh) Hfl Hu Hp) as Hdec.
  assert (ev_created_at e < next_until u events) as Hnext.
  { pose proof (page_Some _ _ _ _ _ _ _ _ _ Hp) as [Hne _].
    destruct (oldest_spec events Hne) as [(e0 & He0 & Ho) Hmin].
    assert (∀ e', e' ∈ events → floor ≤ ev_created_at e' < u ∧ as_i64 (ev_created_at e') = ev_created_at e') as Hb.
    { intros e' He'. by apply (page_bounds fetch now kind authors window_limit vch floor u events); try apply honest_bounds. }
    destruct (Hb e0 He0) as [Hb0 Hi0]. specialize (Hle e0 He0) as Hle0.
    unfold next_until. rewrite Ho, Hi0. case_decide; [lia|].
    destruct (decide (ev_created_at e = ev_created_at e0)) as [Heq|]; [exfalso|lia].
    assert (length (e :: events) ≤ length (in_second u (ev_created_at e)))%nat; [|cbn in *; lia].
    apply submseteq_length, NoDup_submseteq; [by constructor|].
    intros e' [->|He']%elem_of_cons; [by apply list_elem_of_filter|].
    destruct (Hin e' He') as [? ?]. destruct (Hb e' He') as [Hbe Hie].
    apply list_elem_of_filter. split_and!; [done| |done].
    specialize (Hmin e' He'). rewrite Ho, Hi0, Hie in Hmin. lia. }
  destruct (IH (next_until u events) ps') as (p & ? & ?); [lia|lia|done|done| |lia| |].
  - by rewrite (asked_until _ u).
  - etransitivity; [|exact Hsec]. unfold in_second. apply submseteq_length.
    rewrite (list_filter_iff _ (λ e0, asked u e0 = true ∧ ev_created_at e0 = ev_created_at e)); [done|].
    intros x. by rewrite (asked_until _ u).
  - exists p. split; [by right|done].
Qed.

(** What ingesting the pages leaves in the archive. *)
Lemma ingest_list_archives db events counts counts' db' :
  ingest_list policy relay_url now db events counts = (Ok counts', db') →
  (reachable policy db → reachable policy db') ∧
  (∀ k, is_Some (Db.events db !! k) → is_Some (Db.events db' !! k)) ∧
  ∀ e, e ∈ events → admits policy e = None →
    ev_kind e ∈ [ParseOrder.KIND; ParseDevFee.KIND; ParseDispute.KIND] → is_Some (Db.events db' !! ev_id e).
Proof.
  revert db counts. induction events as [|e es IH]; intros db counts; cbn.
  { intros [= _ <-]. split_and!; [done|done|by intros ? ?%elem_of_nil]. }
  destruct (ingest policy db e relay_url now) as [[o|] db1] eqn:Hi; [|done].
  pose proof (λ Hr, reach_step policy db e relay_url now _ _ Hr Hi) as Hstep.
  apply ingest_effect in Hi as (o' & [= <-] & Heff). intros (Hreach & Hmono & Hin)%IH. split; [by auto|].
  assert (∀ k, is_Some (Db.events db !! k) → is_Some (Db.events db' !! k)) as Hm.
  { intros k [r Hr]. apply Hmono. exists r. by eapply effect_keeps_events. }
  split; [done|]. intros e' [->|He']%elem_of_cons Ha Hk; [|by apply Hin].
  apply Hmono. by eapply effect_archives.
Qed.

Lemma ingest_pages_archives db ps counts counts' db' :
  ingest_pages policy relay_url now db ps counts = (Ok counts', db') →
  (reachable policy db → reachable policy db') ∧
  (∀ k, is_Some (Db.events db !! k) → is_Some (Db.events db' !! k)) ∧
  ∀ p e, p ∈ ps → e ∈ p → admits policy e = None →
    ev_kind e ∈ [ParseOrder.KIND; ParseDevFee.KIND; ParseDispute.KIND] → is_Some (Db.events db' !! ev_id e).
Proof.
  revert db counts. induction ps as [|p ps IH]; intros db counts; cbn.
  { intros [= _ <-]. split_and!; [done|done|by intros ? ? ?%elem_of_nil]. }
  destruct (ingest_all policy relay_url now db p) as [[more|] db1] eqn:Hi; [|done].
  apply ingest_list_archives in Hi as (Hr1 & Hm1 & Hin1). intros (Hr2 & Hm2 & Hin2)%IH.
  split; [auto|]. split; [auto|]. intros p' e [->|Hp']%elem_of_cons He Ha Hk; [|by eapply Hin2].
  apply Hm2, Hin1; [by apply elem_of_reverse|done..].
Qed.
End complete.

(** Each window is shorter than the one before by a second at least. *)
Definition enough (range : Range) : nat := S (Z.to_nat (range_until range - range_from range)).

(** the backwards walk ends, however the relay pages its history, and
    never on a database error; and it misses nothing an honest relay holds.
    Every wanted order, fee or dispute of the range is in the archive
    afterwards, unless a single second holds more of them than one page
    carries. *)
Theorem walk_complete `{External} `{PublicKeys} policy fetch relay_url now kind authors window_limit listed db range held cap :
  let vch := vouched listed db in
  honest fetch held cap → 0 ≤ range_from range → range_until range < i64_max →
  range_until range - range_from range ≤ MAX_WINDOW_SECS →
  ∃ counts db',
    walk policy fetch relay_url now kind authors window_limit (enough range) listed db range = Some (Ok counts, db') ∧
    (reachable policy db → reachable policy db') ∧
    (∀ k, is_Some (events db !! k) → is_Some (events db' !! k)) ∧
    ∀ e, e ∈ held → asked kind authors window_limit vch (range_from range) (range_until range) e = true →
      contains range (ev_created_at e) = true → admits policy e = None →
      ev_kind e ∈ [ParseOrder.KIND; ParseDevFee.KIND; ParseDispute.KIND] →
      (length (in_second kind authors window_limit vch (range_from range) held (range_until range)
        (ev_created_at e)) ≤ cap)%nat →
      is_Some (events db' !! ev_id e).
Proof.
  intros vch Hh Hfl Hu Hwide.
  destruct (pages_total fetch now kind authors window_limit vch (range_from range) (enough range) (range_until range)
    (honest_bounds _ _ _ Hh) Hfl Hu) as [ps Hps]; [unfold enough; lia|].
  unfold walk. fold vch. rewrite walk_pages, Hps. cbn.
  destruct (ingest_pages policy relay_url now db ps no_counts) as [[counts|err] db'] eqn:Hi.
  - exists counts, db'. apply ingest_pages_archives in Hi as (Hr & Hm & Hin). split_and!; [done..|].
    intros e He Ha Ht%contains_spec Hadm Hk Hsec.
    destruct (pages_complete _ _ _ _ _ _ _ _ _ _ _ _ _ Hh Hfl Hu Hwide Hps He Ha Ht Hsec) as (p & Hp & Hep). eauto.
  - exfalso. clear -Hi. revert db Hi. generalize no_counts as c.
    induction ps as [|p ps IH]; intros c db Hi; [done|]. cbn in Hi. unfold ingest_all in Hi.
    destruct (ingest_list_total policy relay_url now db (reverse p) no_counts) as (c1 & db1 & Hl).
    rewrite Hl in Hi. by eapply IH.
Qed.

(** ** What the walk trusts the relay with

    The comment in [walk] says that the oldest event is below the bound,
    always. A relay that ignores the bound keeps the walk where it is: each
    window ends where the last one did, and no fuel is enough. *)
Lemma unbounded_relay_never_ends `{External} e kind authors window_limit vch floor now fuel :
  floor < as_i64 (ev_created_at e) → as_i64 (ev_created_at e) - floor ≤ MAX_WINDOW_SECS →
  (∀ r, for_kind kind authors vch (Some r) (Some window_limit) ≠ None) →
  pages (λ _, Some [e]) now kind authors window_limit vch floor fuel (as_i64 (ev_created_at e)) = None.
Proof.
  intros Hfl Hw Hk. induction fuel as [|fuel IH]; [done|]. cbn. rewrite decide_False by lia.
  unfold page. assert (Range.resolve (Some floor) (Some (as_i64 (ev_created_at e))) now
    = Ok (mkRange floor (as_i64 (ev_created_at e)))) as ->.
  { apply resolve_Ok. cbn. split_and!; [done..|lia|]. unfold i64_saturating_sub, i64_min, i64_max in *.
    unfold MAX_WINDOW_SECS, MAX_WINDOW_YEARS in *. lia. }
  destruct (for_kind _ _ _ _ _) eqn:E; [|by destruct (Hk _ E)].
  assert (next_until (as_i64 (ev_created_at e)) [e] = as_i64 (ev_created_at e)) as ->; [|by rewrite IH].
  unfold next_until. change (oldest [e]) with (as_i64 (ev_created_at e)). by rewrite decide_False by lia.
Qed.

(** ** Witness

    A relay that caps its pages at one event, whatever the client asks. *)
Section witness.
#[local] Existing Instance Demo.demo.
#[local] Instance any_key : PublicKeys := Some.

Definition relay_held : list Event :=
  [order_event "e2" 1700000200 "success"; order_event "e1" 1700000100 "pending"].
Definition one_at_a_time (f : Filter) : option (list Event) :=
  Some (take 1 (filter (λ e, asks f e = true) relay_held)).

Lemma one_at_a_time_honest : honest one_at_a_time relay_held 1.
Proof.
  split; [lia| |].
  - intros e He. unfold relay_held in He.
    repeat (apply elem_of_cons in He as [->|He]; [cbn; unfold i64_max; lia|]). by apply elem_of_nil in He.
  - intros f. eexists. split; [reflexivity|]. unfold relay_held.
    set (e2 := order_event "e2" 1700000200 "success"). set (e1 := order_event "e1" 1700000100 "pending").
    assert (ev_created_at e1 ≤ ev_created_at e2) as Hle by (cbn; lia).
    rewrite !filter_cons, filter_nil.
    repeat case_decide; cbn [take length]; (split; [repeat constructor; set_solver|]);
      (split; [intros e He; set_solver|]); intros e He Ha;
      repeat (apply elem_of_cons in He as [->|He]); try by apply elem_of_nil in He.
    all: try congruence.
    all: try (left; by left).
    right. split; [lia|]. intros e' He'. apply list_elem_of_singleton in He' as ->. exact Hle.
Qed.

Definition sample_range : Range := mkRange 1700000000 1700001000.

End witness.
