(* ===== verification/StatsPrelude.v ===== *)
(** * What the aggregations share

    [PartialOrd] with its laws, the stable sort, counting, and the grouping
    maps ([BTreeMap<String, Vec<_>>]) of [crates/stats]. *)

From Stdlib Require Import SpecFloat.
From S2P Require Import Prelude F64.

#[local] Open Scope Z_scope.

(** ** [PartialOrd] *)

Class PartialOrd (T : Type) := pcmp : T → T → option comparison.

#[export] Instance Z_partial_ord : PartialOrd Z := λ a b, Some (a ?= b).
#[export] Instance f64_partial_ord : PartialOrd f64 := partial_cmp.

Section partial_ord.
Context `{PartialOrd T}.
Definition ple (a b : T) : Prop := pcmp a b = Some Lt ∨ pcmp a b = Some Eq.
Definition plt (a b : T) : Prop := pcmp a b = Some Lt.
(** A value that compares to itself has a rank. *)
Definition ordered (a : T) : Prop := is_Some (pcmp a a).
#[export] Instance ple_dec : RelDecision ple.
Proof. unfold RelDecision, ple. intros. apply _. Defined.
#[export] Instance plt_dec : RelDecision plt.
Proof. unfold RelDecision, plt. intros. apply _. Defined.
#[export] Instance ordered_dec a : Decision (ordered a).
Proof. unfold ordered. apply _. Defined.
End partial_ord.

Class PartialOrdLaws (T : Type) `{PartialOrd T} := {
  pcmp_some : ∀ a b : T, ordered a → ordered b → is_Some (pcmp a b);
  pcmp_ordered : ∀ (a b : T) c, pcmp a b = Some c → ordered a ∧ ordered b;
  pcmp_refl : ∀ a : T, ordered a → pcmp a a = Some Eq;
  pcmp_opp : ∀ a b : T, pcmp b a = CompOpp <$> pcmp a b;
  ple_trans : ∀ a b c : T, ple a b → ple b c → ple a c;
}.

#[export] Instance Z_partial_ord_laws : PartialOrdLaws Z.
Proof.
  split; unfold ordered, ple, pcmp, Z_partial_ord.
  - by eexists.
  - by eexists.
  - intros a _. by rewrite Z.compare_refl.
  - intros a b. cbn. by rewrite Z.compare_antisym.
  - intros a b c Hab Hbc.
    assert (a ≤ b) by (destruct (Z.compare_spec a b); naive_solver lia).
    assert (b ≤ c) by (destruct (Z.compare_spec b c); naive_solver lia).
    destruct (Z.compare_spec a c); [by right|by left|lia].
Qed.

(** ** [sort_by]: stable *)

Section sort.
Context `{PartialOrd T}.

Fixpoint insert_sorted (x : T) (l : list T) : list T :=
  match l with
  | [] => [x]
  | y :: l => if decide (ple x y) then x :: y :: l else y :: insert_sorted x l
  end.
Definition sort_by_cmp (l : list T) : list T := foldr insert_sorted [] l.

Lemma insert_sorted_perm x l : insert_sorted x l ≡ₚ x :: l.
Proof. induction l as [|y l IH]; cbn; [done|]. case_decide; [done|]. rewrite IH. constructor. Qed.

Lemma sort_perm l : sort_by_cmp l ≡ₚ l.
Proof. induction l as [|x l IH]; cbn; [done|]. by rewrite insert_sorted_perm, IH. Qed.

Context `{!PartialOrdLaws T}.

Lemma ple_total a b : ordered a → ordered b → ple a b ∨ plt b a.
Proof.
  intros Ha Hb. destruct (pcmp_some a b Ha Hb) as [c E]. unfold ple, plt.
  rewrite (pcmp_opp a b), E. destruct c; cbn; auto.
Qed.
Lemma plt_not_ple a b : plt a b → ¬ ple b a.
Proof. unfold plt, ple. rewrite (pcmp_opp a b). intros -> [?|?]; done. Qed.
Lemma plt_ple a b : plt a b → ple a b.
Proof. by left. Qed.
Lemma ple_refl a : ordered a → ple a a.
Proof. intros Ha. right. by apply pcmp_refl. Qed.

Lemma insert_sorted_sorted x l :
  ordered x → Forall ordered l → StronglySorted ple l → StronglySorted ple (insert_sorted x l).
Proof.
  intros Hx Hl Hs. induction Hs as [|y l Hs IH Hy]; cbn; [by repeat constructor|].
  inversion Hl as [|?? Hoy Hol]; subst. case_decide as Hd.
  - constructor; [by constructor|]. constructor; [done|].
    eapply Forall_impl; [exact Hy|]. intros z. by apply ple_trans.
  - constructor; [auto|]. rewrite insert_sorted_perm. constructor; [|done].
    destruct (ple_total x y Hx Hoy) as [?|?]; [done|by apply plt_ple].
Qed.

Lemma sort_sorted l : Forall ordered l → StronglySorted ple (sort_by_cmp l).
Proof.
  induction 1 as [|x l Hx Hl IH]; cbn; [constructor|].
  apply insert_sorted_sorted; [done| |done]. by rewrite sort_perm.
Qed.

(** The element at index [k] of a sorted list is its [k]-th order statistic. *)
Lemma sorted_rank l k x :
  Forall ordered l → StronglySorted ple l → l !! k = Some x →
  (length (filter (λ y, plt y x) l) ≤ k < length (filter (λ y, ple y x) l))%nat.
Proof.
  intros Ho Hs. revert k. induction Hs as [|y l Hs IH Hy]; intros k; [done|].
  inversion Ho as [|?? Hoy Hol]; subst. destruct k as [|k]; cbn [lookup list_lookup]; intros Hk.
  - injection Hk as ->. rewrite (filter_cons_True (λ y, ple y x)) by (by apply ple_refl). cbn [length]. split; [|lia].
    rewrite filter_cons_False by (intros Hc; by apply plt_not_ple in Hc; apply Hc, ple_refl).
    destruct (filter _ l) as [|z zs] eqn:E; [done|]. exfalso.
    assert (z ∈ filter (λ y, plt y x) l) as [Hz Hin]%list_elem_of_filter by (rewrite E; constructor).
    rewrite Forall_forall in Hy. by apply (plt_not_ple _ _ Hz), Hy.
  - specialize (IH Hol k Hk). apply list_elem_of_lookup_2 in Hk.
    rewrite Forall_forall in Hy. rewrite (filter_cons_True (λ y, ple y x)) by (by apply Hy).
    rewrite filter_cons. cbn [length]. case_decide; cbn [length]; lia.
Qed.
End sort.

(** ** [f64] orders by sign, exponent and mantissa *)

Definition f64_key (x : f64) : option (Z * Z * Z) :=
  match x with
  | S754_nan => None
  | S754_infinity s => Some (if s then -2 else 2, 0, 0)
  | S754_zero _ => Some (0, 0, 0)
  | S754_finite s m e => Some (if s then (-1, - e, Zneg m) else (1, e, Zpos m))
  end.
Definition lex3 (a b : Z * Z * Z) : comparison :=
  match a.1.1 ?= b.1.1 with
  | Eq => match a.1.2 ?= b.1.2 with Eq => a.2 ?= b.2 | c => c end
  | c => c
  end.

Lemma partial_cmp_key x y :
  partial_cmp x y = a ← f64_key x; b ← f64_key y; Some (lex3 a b).
Proof.
  unfold partial_cmp. destruct x as [s|s| |s m e], y as [t|t| |t n f]; cbn; try done;
    try (destruct s; try destruct t; done); try (destruct t; done).
  destruct s, t; cbn; try done.
  - unfold lex3; cbn. rewrite Z.compare_opp.
    rewrite (Z.compare_antisym e f). destruct (e ?= f); done.
Qed.

Lemma lex3_spec a b :
  match lex3 a b with
  | Lt => a.1.1 < b.1.1 ∨ a.1.1 = b.1.1 ∧ (a.1.2 < b.1.2 ∨ a.1.2 = b.1.2 ∧ a.2 < b.2)
  | Eq => a.1.1 = b.1.1 ∧ a.1.2 = b.1.2 ∧ a.2 = b.2
  | Gt => b.1.1 < a.1.1 ∨ a.1.1 = b.1.1 ∧ (b.1.2 < a.1.2 ∨ a.1.2 = b.1.2 ∧ b.2 < a.2)
  end.
Proof.
  unfold lex3. destruct (Z.compare_spec a.1.1 b.1.1); [|lia|lia].
  destruct (Z.compare_spec a.1.2 b.1.2); [|lia|lia].
  destruct (Z.compare_spec a.2 b.2); lia.
Qed.

#[export] Instance f64_partial_ord_laws : PartialOrdLaws f64.
Proof.
  assert (Hord : ∀ a : f64, ordered a ↔ is_Some (f64_key a)).
  { intros a. unfold ordered, pcmp, f64_partial_ord. rewrite partial_cmp_key.
    destruct (f64_key a); cbn; by rewrite ?is_Some_alt. }
  split.
  - intros a b [x Ha]%Hord [y Hb]%Hord. unfold pcmp, f64_partial_ord.
    rewrite partial_cmp_key, Ha, Hb. by eexists.
  - intros a b c. rewrite !Hord. unfold pcmp, f64_partial_ord. rewrite partial_cmp_key.
    destruct (f64_key a), (f64_key b); cbn; naive_solver.
  - intros a [x Ha]%Hord. unfold pcmp, f64_partial_ord. rewrite partial_cmp_key, Ha. cbn.
    pose proof (lex3_spec x x). destruct (lex3 x x); [done|lia|lia].
  - intros a b. unfold pcmp, f64_partial_ord. rewrite !partial_cmp_key.
    destruct (f64_key a) as [x|], (f64_key b) as [y|]; cbn; try done. f_equal.
    pose proof (lex3_spec x y). pose proof (lex3_spec y x).
    destruct (lex3 x y), (lex3 y x); cbn; done || lia.
  - intros a b c. unfold ple, pcmp, f64_partial_ord. rewrite !partial_cmp_key.
    destruct (f64_key a) as [x|], (f64_key b) as [y|], (f64_key c) as [z|]; cbn; try naive_solver.
    pose proof (lex3_spec x y). pose proof (lex3_spec y z). pose proof (lex3_spec x z).
    intros [?|?] [?|?]; destruct (lex3 x y), (lex3 y z), (lex3 x z);
      first [congruence|by left|by right|exfalso; lia].
Qed.

Lemma f64_ordered x : ordered x ↔ is_nan x = false.
Proof.
  unfold ordered, pcmp, f64_partial_ord. rewrite partial_cmp_key.
  destruct x; cbn; naive_solver.
Qed.

(** ** Counting and grouping *)

(** [iter.filter(p).count()]. *)
Definition count_if {A} (p : A → bool) (l : list A) : Z := Z.of_nat (length (filter p l)).

Lemma count_if_app {A} (p : A → bool) l k : count_if p (l ++ k) = count_if p l + count_if p k.
Proof. unfold count_if. rewrite filter_app, length_app. lia. Qed.
Lemma count_if_nonneg {A} (p : A → bool) l : 0 ≤ count_if p l.
Proof. unfold count_if. lia. Qed.
Lemma count_if_cons {A} (p : A → bool) x l :
  count_if p (x :: l) = (if p x then 1 else 0) + count_if p l.
Proof. unfold count_if. rewrite filter_cons. case_decide as Hp; destruct (p x); cbn in *; (done || lia). Qed.
Lemma count_if_ext {A} (p q : A → bool) l : (∀ x, x ∈ l → p x = q x) → count_if p l = count_if q l.
Proof.
  intros H. induction l as [|x l IH]; [done|]. rewrite !count_if_cons, (H x) by constructor.
  rewrite IH; [done|]. intros y Hy. apply H. by constructor.
Qed.
Lemma count_if_disjoint {A} (p q r : A → bool) l :
  (∀ x, x ∈ l → (if r x then 1 else 0) = (if p x then 1 else 0) + (if q x then 1 else 0)) →
  count_if r l = count_if p l + count_if q l.
Proof.
  intros H. induction l as [|x l IH]; [done|]. rewrite !count_if_cons, (H x) by constructor.
  rewrite IH; [lia|]. intros y Hy. apply H. by constructor.
Qed.
Lemma count_if_le {A} (p q : A → bool) l :
  (∀ x, x ∈ l → p x = true → q x = true) → count_if p l ≤ count_if q l.
Proof.
  intros H. induction l as [|x l IH]; [done|]. rewrite !count_if_cons.
  specialize (IH ltac:(intros y Hy; apply H; by constructor)).
  specialize (H x ltac:(constructor)). destruct (p x); [rewrite H by done|]; destruct (q x); lia.
Qed.
Lemma count_if_zero {A} (p : A → bool) l : count_if p l = 0 ↔ ∀ x, x ∈ l → p x = false.
Proof.
  induction l as [|x l IH]; [by split; [intros _ y ?%elem_of_nil|]|]. rewrite count_if_cons.
  pose proof (count_if_nonneg p l). setoid_rewrite elem_of_cons. destruct (p x) eqn:E.
  - split; [lia|]. intros Hp. rewrite (Hp x) in E by auto. done.
  - split; [intros Hp y [->|?]; [done|apply IH; [lia|done]]|]. intros Hp. rewrite (proj2 IH); [done|auto].
Qed.
#[export] Instance count_if_proper {A} (p : A → bool) : Proper ((≡ₚ) ==> (=)) (count_if p).
Proof. intros l l' Hp. unfold count_if. by rewrite Hp. Qed.

(** [groups.entry(key).or_default().push(item)] for every key of every item. *)
Section groups.
Context {A : Type} (keys : A → list string).

Definition push_group (item : A) (m : gmap string (list A)) (key : string) : gmap string (list A) :=
  <[key := default [] (m !! key) ++ [item]]> m.
Definition group_step (m : gmap string (list A)) (item : A) : gmap string (list A) :=
  foldl (push_group item) m (keys item).
Definition group_by (l : list A) : gmap string (list A) := foldl group_step ∅ l.

(** How often an item lands in the group of [key]. *)
Definition copies (key : string) (item : A) : list A :=
  (λ _, item) <$> filter (λ k, k = key) (keys item).

Lemma push_group_lookup item ks m key :
  default [] (foldl (push_group item) m ks !! key) =
    default [] (m !! key) ++ ((λ _, item) <$> filter (λ k, k = key) ks).
Proof.
  revert m. induction ks as [|k ks IH]; intros m; cbn [foldl]; [by rewrite app_nil_r|].
  rewrite IH, filter_cons. unfold push_group. case_decide as Hk.
  - subst. rewrite lookup_insert_eq. cbn. by rewrite <- app_assoc.
  - by rewrite lookup_insert_ne by done.
Qed.

Lemma push_group_is_Some item ks m key :
  is_Some (foldl (push_group item) m ks !! key) ↔ is_Some (m !! key) ∨ key ∈ ks.
Proof.
  revert m. induction ks as [|k ks IH]; intros m; cbn [foldl].
  - rewrite elem_of_nil. naive_solver.
  - rewrite IH, elem_of_cons. unfold push_group. rewrite lookup_insert_is_Some.
    destruct (decide (k = key)); naive_solver.
Qed.

(** A group holds the items that carry its key, once per mention and in order;
    there is a group exactly where an item carries the key. *)
Lemma group_by_lookup l key :
  group_by l !! key =
    if decide (Exists (λ item, key ∈ keys item) l) then Some (l ≫= copies key) else None.
Proof.
  assert (∀ l m, default [] (foldl group_step m l !! key) = default [] (m !! key) ++ (l ≫= copies key) ∧
    (is_Some (foldl group_step m l !! key) ↔ is_Some (m !! key) ∨ ∃ item, item ∈ l ∧ key ∈ keys item)) as H.
  { clear l. induction l as [|x l IH]; intros m; cbn [foldl].
    - split; [by rewrite app_nil_r|]. split; [by left|]. intros [?|(? & []%elem_of_nil & _)]; done.
    - destruct (IH (group_step m x)) as [E1 E2]. rewrite E1, E2. unfold group_step.
      rewrite push_group_lookup, push_group_is_Some. cbn [mbind list_bind].
      split; [by rewrite <- app_assoc|]. setoid_rewrite elem_of_cons. naive_solver. }
  unfold group_by. destruct (H l ∅) as [E1 E2]. rewrite lookup_empty in E1, E2. cbn in E1.
  case_decide as Hd; rewrite list.Exists_exists in Hd.
  - destruct (proj2 E2 (or_intror Hd)) as [g Hg]. rewrite Hg in E1 |- *. by cbn in E1; subst.
  - destruct (foldl group_step ∅ l !! key) eqn:E; [|done]. exfalso.
    destruct (proj1 E2 ltac:(by eexists)) as [[? ?]|?]; done.
Qed.
End groups.

(** ** Sums *)

Definition sum_Z (l : list Z) : Z := foldr Z.add 0 l.

Lemma sum_Z_app l k : sum_Z (l ++ k) = sum_Z l + sum_Z k.
Proof. unfold sum_Z. induction l as [|x l IH]; cbn; [done|]. rewrite IH. lia. Qed.
Lemma sum_Z_perm l k : l ≡ₚ k → sum_Z l = sum_Z k.
Proof. unfold sum_Z. induction 1; cbn; lia. Qed.
Lemma sum_Z_nonneg l : Forall (λ x, 0 ≤ x) l → 0 ≤ sum_Z l.
Proof. unfold sum_Z. induction 1; cbn; lia. Qed.

Lemma count_if_bind {A B} (p : B → bool) (f : A → list B) l :
  count_if p (l ≫= f) = sum_Z ((λ a, count_if p (f a)) <$> l).
Proof.
  induction l as [|a l IH]; [done|]. by rewrite bind_cons, fmap_cons, count_if_app, IH.
Qed.

(** Under one key each, the groups share the items out. *)
Section partition.
Context {A : Type} (keys : A → list string).

Definition members (m : gmap string (list A)) : list A := map_to_list m ≫= snd.

Lemma members_push m item key : members (push_group item m key) ≡ₚ members m ++ [item].
Proof.
  unfold members, push_group. destruct (m !! key) as [g|] eqn:E; cbn [default from_option].
  - rewrite <- (insert_delete_eq m key (g ++ [item])).
    rewrite <- (insert_id m key g E) at 2. rewrite <- (insert_delete_eq m key g).
    rewrite !map_to_list_insert by apply lookup_delete_eq. rewrite !bind_cons; cbn [snd].
    rewrite <- !app_assoc. apply Permutation_app_head, Permutation_app_comm.
  - rewrite map_to_list_insert by done. rewrite bind_cons. cbn [snd]. by rewrite Permutation_app_comm.
Qed.

Lemma members_push_all m item ks :
  members (foldl (push_group item) m ks) ≡ₚ members m ++ ((λ _, item) <$> ks).
Proof.
  revert m. induction ks as [|k ks IH]; intros m; cbn [foldl fmap list_fmap]; [by rewrite app_nil_r|].
  by rewrite IH, members_push, <- app_assoc.
Qed.
Lemma group_by_members l : members (group_by keys l) ≡ₚ l ≫= λ x, (λ _, x) <$> keys x.
Proof.
  assert (∀ m, members (foldl (group_step keys) m l) ≡ₚ members m ++ (l ≫= λ x, (λ _, x) <$> keys x)) as H.
  { induction l as [|x l IH]; intros m; cbn [foldl]; [by rewrite app_nil_r|].
    rewrite IH. unfold group_step. by rewrite members_push_all, <- app_assoc, bind_cons. }
  unfold group_by. rewrite H. unfold members. by rewrite map_to_list_empty.
Qed.

(** What the groups count together: each item once per key it carries. *)
Lemma group_counts_keys l (p : A → bool) :
  sum_Z ((λ g, count_if p g.2) <$> btree_iter (group_by keys l)) =
    sum_Z ((λ x, if p x then Z.of_nat (length (keys x)) else 0) <$> l).
Proof.
  transitivity (count_if p (members (group_by keys l))).
  { unfold members. rewrite count_if_bind. apply sum_Z_perm. by rewrite btree_iter_Permutation. }
  rewrite group_by_members, count_if_bind. f_equal. apply list_fmap_ext. intros _ x _. unfold count_if.
  induction (keys x) as [|k ks IH]; [by destruct (p x)|]. rewrite fmap_cons, filter_cons.
  destruct (p x) eqn:E; cbn [length].
  - rewrite decide_True by done. cbn [length]. lia.
  - by rewrite decide_False by auto.
Qed.
Lemma group_counts l (p : A → bool) :
  (∀ x, x ∈ l → ∃ key, keys x = [key]) →
  sum_Z ((λ g, count_if p g.2) <$> btree_iter (group_by keys l)) = count_if p l.
Proof.
  intros Hl. rewrite group_counts_keys. induction l as [|x l IH]; [done|].
  rewrite fmap_cons, count_if_cons. cbn [sum_Z foldr]. fold (sum_Z ((λ x, if p x then Z.of_nat (length (keys x)) else 0) <$> l)).
  rewrite IH by (intros y Hy; apply Hl; by right). destruct (Hl x ltac:(left)) as [k ->]. done.
Qed.

Lemma list_eq_nil {B} (l : list B) : (∀ x, x ∉ l) → l = [].
Proof. destruct l as [|x l]; [done|]. intros H. destruct (H x). constructor. Qed.
(** The group of a key is what a filter on it selects. *)
Lemma group_by_filter (f : A → string) l key :
  (∀ x, keys x = [f x]) → default [] (group_by keys l !! key) = filter (λ x, f x = key) l.
Proof.
  intros Hk. assert (l ≫= copies keys key = filter (λ x, f x = key) l) as E.
  { induction l as [|x l IH]; [done|]. rewrite bind_cons, filter_cons, IH.
    unfold copies. rewrite Hk, filter_cons, filter_nil. by case_decide. }
  rewrite group_by_lookup. case_decide as H; [done|]. symmetry. cbn.
  apply list_eq_nil. intros x [Hf Hx]%list_elem_of_filter. apply H, list.Exists_exists. exists x.
  rewrite Hk, Hf. split; [done|constructor].
Qed.
End partition.

(** ** Records of lists, by key

    [groups.entry(key).or_default().field.push(item)], and what adds up over
    the groups. *)

Section entries.
Context {A D : Type} (key : A → string) (push : A → D → D) (fresh : D).

Definition entry_push (m : gmap string D) (x : A) : gmap string D :=
  <[key x := push x (default fresh (m !! key x))]> m.

(** The entry of a key is what its items push, in order. *)
Lemma entry_push_lookup m l k :
  default fresh (foldl entry_push m l !! k) =
    foldl (λ d x, push x d) (default fresh (m !! k)) (filter (λ x, key x = k) l).
Proof.
  revert m. induction l as [|x l IH]; intros m; cbn [foldl]; [done|].
  rewrite IH, filter_cons. unfold entry_push. case_decide as E.
  - subst k. cbn [foldl]. by rewrite lookup_insert_eq.
  - by rewrite lookup_insert_ne by done.
Qed.

(** There is an entry exactly where an item has pushed. *)
Lemma entry_push_is_Some m l k :
  is_Some (foldl entry_push m l !! k) ↔ is_Some (m !! k) ∨ ∃ x, x ∈ l ∧ key x = k.
Proof.
  revert m. induction l as [|x l IH]; intros m; cbn [foldl].
  - setoid_rewrite elem_of_nil. naive_solver.
  - rewrite IH. unfold entry_push. rewrite lookup_insert_is_Some. setoid_rewrite elem_of_cons.
    destruct (decide (key x = k)); naive_solver.
Qed.

Context (f : D → Z) (w : A → Z).
Definition total_of (m : gmap string D) : Z := sum_Z ((λ entry, f entry.2) <$> btree_iter m).

Lemma total_of_map m : total_of m = sum_Z ((λ entry, f entry.2) <$> map_to_list m).
Proof. apply sum_Z_perm. by rewrite btree_iter_Permutation. Qed.
Lemma total_of_empty : total_of ∅ = 0.
Proof. by rewrite total_of_map, map_to_list_empty. Qed.

Hypothesis f_fresh : f fresh = 0.
Hypothesis f_push : ∀ x d, f (push x d) = w x + f d.

Lemma total_of_insert m k d : total_of (<[k := d]> m) = f d + total_of (delete k m).
Proof.
  rewrite !total_of_map. rewrite <- (insert_delete_eq m k d).
  by rewrite (sum_Z_perm _ _ (fmap_Permutation _ _ _ (map_to_list_insert _ _ d (lookup_delete_eq m k)))).
Qed.

Lemma total_of_push m x : total_of (entry_push m x) = w x + total_of m.
Proof.
  unfold entry_push. rewrite total_of_insert, f_push. destruct (m !! key x) as [d|] eqn:E.
  - assert (total_of m = f d + total_of (delete (key x) m)) as -> by (by rewrite <- total_of_insert, insert_id).
    cbn. lia.
  - cbn. rewrite f_fresh, delete_id by done. lia.
Qed.

Lemma total_of_fold m l : total_of (foldl entry_push m l) = sum_Z (w <$> l) + total_of m.
Proof.
  revert m. induction l as [|x l IH]; intros m; cbn [foldl]; [done|].
  rewrite IH, total_of_push, fmap_cons. cbn [sum_Z foldr]. fold (sum_Z (w <$> l)). lia.
Qed.
End entries.

Lemma count_if_sum {A} (p : A → bool) l : count_if p l = sum_Z ((λ x, if p x then 1 else 0) <$> l).
Proof. induction l as [|x l IH]; [done|]. rewrite count_if_cons, fmap_cons, IH. done. Qed.
Lemma sum_Z_zero {A} (l : list A) : sum_Z ((λ _, 0) <$> l) = 0.
Proof. induction l as [|x l IH]; [done|]. rewrite fmap_cons. exact IH. Qed.

(** *** What each owner holds adds up *)
Lemma sum_Z_plus {A} (f g : A → Z) l : sum_Z ((λ x, f x + g x) <$> l) = sum_Z (f <$> l) + sum_Z (g <$> l).
Proof. induction l as [|x l IH]; [done|]. rewrite !fmap_cons. unfold sum_Z in *. cbn [foldr]. lia. Qed.
Lemma sum_Z_ext {A} (f g : A → Z) l : (∀ x, x ∈ l → f x = g x) → sum_Z (f <$> l) = sum_Z (g <$> l).
Proof.
  intros H. f_equal. apply list_fmap_ext. intros i x Hx. apply H. by eapply list_elem_of_lookup_2.
Qed.
Lemma sum_Z_pick {A K} `{EqDecision K} (key : A → K) k v (ps : list A) :
  NoDup (key <$> ps) →
  sum_Z ((λ q, if decide (k = key q) then v else 0) <$> ps) = if decide (k ∈ key <$> ps) then v else 0.
Proof.
  induction ps as [|q ps IH]; [done|]. rewrite !fmap_cons. intros [Hq Hps]%NoDup_cons.
  cbn [sum_Z foldr]. fold (sum_Z ((λ q, if decide (k = key q) then v else 0) <$> ps)). rewrite IH by done.
  destruct (decide (k = key q)) as [-> | E].
  - rewrite decide_False by done. rewrite decide_True by constructor. lia.
  - apply decide_ext. rewrite elem_of_cons. tauto.
Qed.
Lemma sum_by_owner {A P K} `{EqDecision K} (owner : A → K) (key : P → K) (w : A → Z) l (ps : list P) :
  NoDup (key <$> ps) → (∀ x, x ∈ l → owner x ∈ key <$> ps) →
  sum_Z ((λ q, sum_Z (w <$> filter (λ x, owner x = key q) l)) <$> ps) = sum_Z (w <$> l).
Proof.
  intros Hnd. induction l as [|x l IH]; intros Hall; [apply sum_Z_zero|].
  rewrite fmap_cons. cbn [sum_Z foldr]. fold (sum_Z (w <$> l)).
  rewrite <- IH by (intros y Hy; apply Hall; by constructor).
  rewrite <- (decide_True (P := owner x ∈ key <$> ps) (w x) 0) by (apply Hall; constructor).
  rewrite <- sum_Z_pick, <- sum_Z_plus by done. apply sum_Z_ext. intros q _.
  rewrite filter_cons. case_decide; [by rewrite fmap_cons|done].
Qed.
Lemma part_of_sum {A} (w : A → Z) (p : A → Prop) `{∀ x, Decision (p x)} l :
  Forall (λ z, 0 ≤ z) (w <$> l) → 0 ≤ sum_Z (w <$> filter p l) ≤ sum_Z (w <$> l).
Proof.
  induction l as [|x l IH]; [cbn; lia|]. rewrite filter_cons, fmap_cons. intros [Hx Hl]%Forall_cons.
  specialize (IH Hl). case_decide; rewrite ?fmap_cons; unfold sum_Z in *; cbn [foldr]; lia.
Qed.
Lemma count_by_owner {A P K} `{EqDecision K} (owner : A → K) (key : P → K) (p : A → bool) l (ps : list P) :
  NoDup (key <$> ps) → (∀ x, x ∈ l → owner x ∈ key <$> ps) →
  sum_Z ((λ q, count_if p (filter (λ x, owner x = key q) l)) <$> ps) = count_if p l.
Proof.
  intros Hnd Hall. rewrite count_if_sum, <- (sum_by_owner owner key _ l ps Hnd Hall).
  apply sum_Z_ext. intros q _. apply count_if_sum.
Qed.

Lemma count_if_filter {A} (p : A → bool) (q : A → Prop) `{∀ x, Decision (q x)} l :
  count_if p (filter q l) = count_if (λ x, p x && bool_decide (q x)) l.
Proof.
  induction l as [|x l IH]; [done|]. rewrite filter_cons, count_if_cons. case_decide.
  - by rewrite count_if_cons, bool_decide_true, andb_true_r, IH.
  - by rewrite bool_decide_false, andb_false_r, IH.
Qed.

(** ** Iterators *)

Fixpoint take_while {A} (p : A → bool) (l : list A) : list A :=
  match l with [] => [] | x :: l => if p x then x :: take_while p l else [] end.
Fixpoint find_map {A B} (f : A → option B) (l : list A) : option B :=
  match l with [] => None | x :: l => match f x with Some y => Some y | None => find_map f l end end.
(** [partition_point] of a slice its predicate partitions. *)
Definition partition_point {A} (p : A → bool) (l : list A) : nat := length (take_while p l).

Lemma take_partition_point {A} (p : A → bool) l : take (partition_point p l) l = take_while p l.
Proof. unfold partition_point. induction l as [|x l IH]; cbn; [done|]. destruct (p x); cbn; [by rewrite IH|done]. Qed.

(** On a sorted list, a prefix that a downward closed test keeps is what it
    keeps. *)
Lemma elem_of_take_while {A} (R : relation A) (p : A → bool) l x :
  StronglySorted R l → (∀ a b, R a b → p b = true → p a = true) →
  x ∈ take_while p l ↔ x ∈ l ∧ p x = true.
Proof.
  intros Hs Hp. induction Hs as [|y l Hs IH Hy]; cbn; [split; [by intros ?%elem_of_nil|by intros [?%elem_of_nil _]]|].
  rewrite Forall_forall in Hy. destruct (p y) eqn:E; rewrite !elem_of_cons.
  - rewrite IH. naive_solver.
  - rewrite elem_of_nil. split; [done|]. intros [[->|Hx] Hpx]; [congruence|]. rewrite (Hp y x) in E; auto; done.
Qed.

Lemma take_while_sublist {A} (p : A → bool) l : take_while p l `sublist_of` l.
Proof. induction l as [|x l IH]; cbn; [constructor|]. destruct (p x); [by constructor|apply sublist_nil_l]. Qed.

Lemma StronglySorted_sublist {A} (R : relation A) l k : l `sublist_of` k → StronglySorted R k → StronglySorted R l.
Proof.
  induction 1 as [|x l k Hl IH|x l k Hl IH]; intros Hk; [constructor|..]; inversion Hk as [|?? Hk' Hx]; subst; [|auto].
  constructor; [auto|]. rewrite Forall_forall in Hx |- *. intros y Hy. apply Hx. eapply elem_of_submseteq; [done|]. by apply sublist_submseteq.
Qed.

Lemma StronglySorted_rev {A} (R : relation A) l : StronglySorted R l → StronglySorted (flip R) (rev l).
Proof.
  induction 1 as [|x l Hl IH Hx]; cbn; [constructor|]. apply StronglySorted_app_2; [|done|by repeat constructor].
  intros y z Hy Hz. apply list_elem_of_singleton in Hz as ->. cbn. rewrite Forall_forall in Hx. apply Hx.
  apply list_elem_of_In in Hy. apply list_elem_of_In. by apply in_rev.
Qed.

(** Two clocks that sort first by time, then by text. *)
Definition clock_cmp (a b : Z * string) : comparison :=
  match a.1 ?= b.1 with Eq => String.compare a.2 b.2 | c => c end.

Lemma clock_cmp_le a b : (clock_cmp a b = Lt ∨ clock_cmp a b = Eq) ↔ key_le a b.
Proof.
  unfold clock_cmp, key_le, String.le, String.leb. destruct (Z.compare_spec a.1 b.1) as [E|E|E].
  - destruct (String.compare a.2 b.2); cbn; naive_solver lia.
  - naive_solver lia.
  - naive_solver lia.
Qed.
Lemma clock_cmp_opp a b : clock_cmp b a = CompOpp (clock_cmp a b).
Proof.
  unfold clock_cmp. rewrite (Z.compare_antisym a.1 b.1), (String.compare_antisym b.2 a.2).
  by destruct (a.1 ?= b.1).
Qed.

(** [sort_by] on such a clock. *)
Definition clocked {A} (key : A → Z * string) : PartialOrd A := λ a b, Some (clock_cmp (key a) (key b)).
Lemma clocked_laws {A} (key : A → Z * string) : @PartialOrdLaws A (clocked key).
Proof.
  split; unfold ordered, ple, pcmp, clocked.
  - by eexists.
  - intros. split; by eexists.
  - intros a _. f_equal. pose proof (clock_cmp_opp (key a) (key a)). by destruct (clock_cmp _ _).
  - intros a b. cbn. by rewrite clock_cmp_opp.
  - intros a b c Hab Hbc. assert (key_le (key a) (key c)) as [H|H]%clock_cmp_le.
    { trans (key b); apply clock_cmp_le; naive_solver. }
    + left. by rewrite H.
    + right. by rewrite H.
Qed.
Lemma clocked_ple {A} (key : A → Z * string) a b : @ple A (clocked key) a b → key_le (key a) (key b).
Proof. unfold ple, pcmp, clocked. intros H. apply clock_cmp_le. naive_solver. Qed.
Lemma clocked_ordered {A} (key : A → Z * string) a : @ordered A (clocked key) a.
Proof. by eexists. Qed.

(** The stable sort by a clock. *)
Definition sort_by_clock {A} (key : A → Z * string) (l : list A) : list A := @sort_by_cmp A (clocked key) l.
Lemma sort_by_clock_perm {A} (key : A → Z * string) l : sort_by_clock key l ≡ₚ l.
Proof. apply sort_perm. Qed.
Lemma sort_by_clock_sorted {A} (key : A → Z * string) l :
  StronglySorted (λ a b, key_le (key a) (key b)) (sort_by_clock key l).
Proof.
  pose proof (@sort_sorted A (clocked key) (clocked_laws key) l) as H.
  specialize (H ltac:(apply Forall_forall; intros; apply clocked_ordered)).
  unfold sort_by_clock. induction H as [|x k Hk IH Hx]; constructor; [done|].
  eapply Forall_impl; [exact Hx|]. intros y. apply clocked_ple.
Qed.

(** [+] and [sum] on [i64], wrapping likewise. *)
Definition i64_add (a b : Z) : Z := as_i64 ((a + b) mod 2 ^ 64).
Definition i64_sum (l : list Z) : Z := foldl i64_add 0 l.
Lemma i64_add_small a b : is_i64 (a + b) → i64_add a b = a + b.
Proof.
  unfold is_i64, i64_add, as_i64, i64_min, i64_max. change (2 ^ 64) with 18446744073709551616.
  change (2 ^ 63) with 9223372036854775808. intros H.
  case_decide; Z.to_euclidean_division_equations; lia.
Qed.
Lemma i64_sum_small l : Forall (λ x, 0 ≤ x) l → is_i64 (sum_Z l) → i64_sum l = sum_Z l.
Proof.
  intros Hl Hs. unfold i64_sum. enough (∀ a, 0 ≤ a → is_i64 (a + sum_Z l) → foldl i64_add a l = a + sum_Z l) as H
    by (rewrite H; [lia|lia|by rewrite Z.add_0_l]).
  clear Hs. induction Hl as [|x l Hx Hl IH]; intros a Ha Hs; cbn [foldl]; [cbn; lia|].
  pose proof (sum_Z_nonneg l Hl). cbn [sum_Z foldr] in *. fold (sum_Z l) in *.
  unfold is_i64, i64_min, i64_max in *.
  rewrite i64_add_small by (unfold is_i64, i64_min, i64_max; lia). rewrite IH by lia. lia.
Qed.

(** ** Floats to integers and to text *)

Definition saturate_i64 (n : Z) : Z := Z.max i64_min (Z.min i64_max n).
(** [m * 2^e] rounded half away from zero, and rounded up. *)
Definition round_half_away (m e : Z) : Z :=
  if decide (0 ≤ e) then m * 2 ^ e else (2 * m + 2 ^ (- e)) / (2 * 2 ^ (- e)).
Definition round_up (m e : Z) : Z := if decide (0 ≤ e) then m * 2 ^ e else - ((- m) / 2 ^ (- e)).
(** [x.round() as i64] and [x.ceil() as i64]: casts saturate, NaN is zero. *)
Definition round_as_i64 (x : f64) : Z :=
  match x with
  | S754_nan | S754_zero _ => 0
  | S754_infinity s => if s then i64_min else i64_max
  | S754_finite s m e => let n := round_half_away (Zpos m) e in saturate_i64 (if s then - n else n)
  end.
Definition ceil_as_i64 (x : f64) : Z :=
  match x with
  | S754_nan | S754_zero _ => 0
  | S754_infinity s => if s then i64_min else i64_max
  | S754_finite s m e => saturate_i64 (round_up (if s then Zneg m else Zpos m) e)
  end.

(** [f64::total_cmp], of the NaN arithmetic makes. *)
Definition total_key (x : f64) : Z * Z * Z :=
  match x with
  | S754_nan => (3, 0, 0)
  | S754_infinity s => (if s then -2 else 2, 0, 0)
  | S754_zero s => (0, if s then 0 else 1, 0)
  | S754_finite s m e => if s then (-1, - e, Zneg m) else (1, e, Zpos m)
  end.
Definition total_order : PartialOrd f64 := λ a b, Some (lex3 (total_key a) (total_key b)).
Definition sort_total (l : list f64) : list f64 := @sort_by_cmp f64 total_order l.

(** [format!("{x:.digits$}")]: the exact value to [digits] places, ties to
    even. *)
Definition round_half_even (n d : Z) : Z :=
  let q := n / d in
  match 2 * (n mod d) ?= d with Lt => q | Gt => q + 1 | Eq => if Z.even q then q else q + 1 end.
Definition fixed (digits : nat) (x : f64) : string :=
  match x with
  | S754_nan => "NaN"
  | S754_infinity s => if s then "-inf" else "inf"
  | S754_zero s => (if s then "-0" else "0") +:+ (if decide (digits = 0)%nat then "" else "." +:+ pad digits 0)
  | S754_finite s m e =>
      let scale := 10 ^ Z.of_nat digits in
      let n := if decide (0 ≤ e) then Zpos m * scale * 2 ^ e else round_half_even (Zpos m * scale) (2 ^ (- e)) in
      (if s then "-" else "") +:+ pretty (n / scale)
        +:+ (if decide (digits = 0)%nat then "" else "." +:+ pad digits (n mod scale))
  end.
(** [f64]'s [==]: NaN equals nothing, the zeros equal each other. *)
Definition f64_eqb (a b : f64) : bool := match partial_cmp a b with Some Eq => true | _ => false end.
