(* ===== verification/Percentile.v ===== *)
(** * Percentiles by nearest rank

    [crates/stats/src/percentile.rs]. The rank is computed in floating point;
    [half_rank] and [ninety_rank] show that for the two percentiles the
    reports name it is the exact integer rank. *)

From S2P Require Import Prelude F64 Rounding StatsPrelude.

#[local] Open Scope Z_scope.

(** [(p.clamp(0.0, 1.0) * len as f64).ceil() as usize], at least one. *)
Definition rank (p : f64) (len : Z) : Z :=
  Z.max 1 (ceil_as_usize (f64_mul (f64_clamp p (f64_of_Z 0) (f64_of_Z 1)) (f64_of_Z len))).

(** [percentile]. Indexing past the end would panic: [!!] is [None] there,
    and [percentile_p50]/[percentile_p90] show the index is always inside. *)
Definition percentile {T} `{PartialOrd T} (samples : list T) (p : f64) : option T :=
  match samples with
  | [] => None
  | _ =>
      if existsb (λ sample, negb (option_is_some (pcmp sample sample))) samples then None
      else
        let sorted := sort_by_cmp samples in
        sorted !! Z.to_nat (rank p (Z.of_nat (length sorted)) - 1)
  end.

(** The literals [0.5] and [0.9]. *)
Definition half : f64 := Eval vm_compute in default f64_nan (f64_from_str "0.5").
Definition ninety : f64 := Eval vm_compute in default f64_nan (f64_from_str "0.9").

Lemma f64_half : f64_from_str "0.5" = Some half.
Proof. vm_compute. reflexivity. Qed.
Lemma f64_ninety : f64_from_str "0.9" = Some ninety.
Proof. vm_compute. reflexivity. Qed.

(** ** The rank is exact *)

Definition max_samples : Z := 2 ^ 49.

(** [p * n] to the nearest, [p] being [P / 2 ^ 53]. *)
Lemma scaled_spec x P n :
  normal x P (-53) → 0 < n < max_samples →
  ∃ j q, 4 ≤ j ∧ n * 2 ^ j < 2 ^ 54 ∧ 2 * Z.abs (q * 2 ^ 53 - P * n * 2 ^ j) ≤ 2 ^ 53 ∧
    on_grid (f64_mul x (f64_of_Z n)) q (- j).
Proof.
  unfold max_samples. intros Hx Hn. pose proof (normal_of_Z n ltac:(lia)) as Hy.
  assert (Hb : 2 ^ 52 ≤ n * 2 ^ (52 - Z.log2 n) < 2 ^ 53) by (destruct Hy as (? & ? & ? & ? & ?); done).
  assert (0 ≤ Z.log2 n < 49) by (split; [apply Z.log2_nonneg|apply Z.log2_lt_pow2; lia]).
  set (k := 52 - Z.log2 n) in *. replace (Z.log2 n - 52) with (- k) in Hy by lia.
  destruct (mul_spec _ _ _ _ _ _ Hx Hy) as (s & q & [-> | ->] & Hq & Hg); [lia|lia| |].
  - exists (k + 1), q. rewrite (Z.pow_add_r 2 k 1) by lia. split_and!; [lia|lia|lia|].
    by replace (- (k + 1)) with (-53 + - k + 52) by lia.
  - exists k, q. split_and!; [lia|lia|lia|]. by replace (- k) with (-53 + - k + 53) by lia.
Qed.

Lemma ceil_between q X N : 0 < X → (N - 1) * X < q ≤ N * X → - ((- q) / X) = N.
Proof.
  intros HX [H1 H2]. assert ((- q) / X = - N); [|lia].
  symmetry. apply Z.div_unique with (N * X - q); [left; lia|lia].
Qed.

Lemma rank_of_grid x n q j N :
  f64_clamp x (f64_of_Z 0) (f64_of_Z 1) = x → 4 ≤ j → on_grid (f64_mul x (f64_of_Z n)) q (- j) →
  1 ≤ N ≤ u64_max → (N - 1) * 2 ^ j < q ≤ N * 2 ^ j → rank x n = N.
Proof.
  intros Hc Hj Hg HN Hq. unfold rank. rewrite Hc.
  assert (- ((- q) / 2 ^ (- - j)) = N) as E
    by (rewrite Z.opp_involutive; apply ceil_between; [apply Z.pow_pos_nonneg|]; lia).
  rewrite (ceil_on_grid _ q (- j)); [lia|done|lia|lia].
Qed.

Lemma half_rank n : 0 < n < max_samples → rank half n = (n + 1) / 2.
Proof.
  intros Hn. destruct (scaled_spec half (2 ^ 52) n) as (j & q & Hj & Hb & Hq & Hg).
  { eexists. split_and!; [reflexivity|done|lia|lia|lia|lia]. }
  { done. }
  assert (HX : 2 ^ j = 2 * 2 ^ (j - 1)) by (rewrite <- (Z.pow_succ_r 2 (j - 1)) by lia; f_equal; lia).
  assert (2 * q = n * 2 ^ j) as E by (rewrite HX in *; nia).
  unfold max_samples in Hn. pose proof (Z.pow_pos_nonneg 2 (j - 1) ltac:(lia) ltac:(lia)).
  pose proof (Z.div_mod (n + 1) 2 ltac:(lia)). pose proof (Z.mod_pos_bound (n + 1) 2 ltac:(lia)).
  apply (rank_of_grid half n q j); [vm_compute; reflexivity|done|done|unfold u64_max; lia|].
  rewrite HX in *. nia.
Qed.

Lemma ninety_rank n : 0 < n < max_samples → rank ninety n = (9 * n + 9) / 10.
Proof.
  intros Hn. destruct (scaled_spec ninety 8106479329266893 n) as (j & q & Hj & Hb & Hq & Hg).
  { eexists. split_and!; [reflexivity|done|lia|lia|lia|lia]. }
  { done. }
  unfold max_samples in Hn. assert (16 ≤ 2 ^ j) by (change 16 with (2 ^ 4); apply Z.pow_le_mono_r; lia).
  pose proof (Z.div_mod (9 * n + 9) 10 ltac:(lia)). pose proof (Z.mod_pos_bound (9 * n + 9) 10 ltac:(lia)).
  set (N := (9 * n + 9) / 10) in *. set (t := 9 - (9 * n + 9) mod 10) in *.
  assert (9 * n = 10 * N - t) as E by lia.
  assert (-5 ≤ 10 * q - 9 * (n * 2 ^ j) < 9) as Hd by lia.
  apply (rank_of_grid ninety n q j); [vm_compute; reflexivity|done|done|unfold u64_max; lia|].
  assert (9 * (n * 2 ^ j) = 10 * (N * 2 ^ j) - t * 2 ^ j) as E' by nia.
  rewrite E' in Hd. rewrite Z.mul_sub_distr_r. destruct (decide (t = 0)) as [->|]; [lia|]. nia.
Qed.

(** ** What a percentile is *)

Section spec.
Context {T : Type} `{PartialOrdLaws T}.

(** [x] is the [k]-th smallest of [l]. *)
Definition is_rank (l : list T) (k : Z) (x : T) : Prop :=
  x ∈ l ∧ Z.of_nat (length (filter (λ y, plt y x) l)) < k
    ≤ Z.of_nat (length (filter (λ y, ple y x) l)).

Lemma existsb_unordered (l : list T) :
  existsb (λ x, negb (option_is_some (pcmp x x))) l = negb (bool_decide (Forall ordered l)).
Proof.
  induction l as [|x l IH]; [done|]. cbn [existsb].
  rewrite IH, (bool_decide_ext (Forall ordered (x :: l)) (ordered x ∧ Forall ordered l)) by apply list.Forall_cons.
  rewrite bool_decide_and, negb_andb. f_equal.
  assert (bool_decide (ordered x) = option_is_some (pcmp x x)) as ->; [|done].
  clear IH. case_bool_decide as Hc; unfold ordered in Hc; destruct (pcmp x x); try done.
  exfalso. apply Hc. by eexists.
Qed.

Lemma percentile_is_rank (l : list T) p k :
  l ≠ [] → Forall ordered l → rank p (Z.of_nat (length l)) = k → k ≤ Z.of_nat (length l) →
  ∃ x, percentile l p = Some x ∧ is_rank l k x.
Proof.
  intros Hne Hl Hk Hle. unfold percentile.
  assert (1 ≤ k) by (subst k; unfold rank; lia).
  destruct (lookup_lt_is_Some_2 (sort_by_cmp l) (Z.to_nat (k - 1))) as [x Hx].
  { rewrite (Permutation_length (sort_perm l)). lia. }
  exists x. split.
  - destruct l as [|y l]; [done|]. rewrite existsb_unordered, bool_decide_eq_true_2 by done. cbn [negb].
    by rewrite (Permutation_length (sort_perm (y :: l))), Hk.
  - pose proof (sorted_rank (sort_by_cmp l) _ x ltac:(by rewrite sort_perm) (sort_sorted l Hl) Hx) as Hr.
    apply list_elem_of_lookup_2 in Hx.
    assert (∀ (P : T → Prop) `{!∀ y, Decision (P y)},
      length (filter P (sort_by_cmp l)) = length (filter P l)) as E
      by (intros P ?; apply Permutation_length; by rewrite sort_perm).
    rewrite !E in Hr. split; [by rewrite <- (sort_perm l)|lia].
Qed.

(** below 2^49 samples, the percentile of no samples and the percentile of
    samples that do not all order (a NaN among them) are missing; otherwise
    the p50 is the [⌈n/2⌉]-th smallest sample and the p90 the [⌈9n/10⌉]-th,
    whatever floating point does to the rank. *)
Theorem percentile_nearest_rank (l : list T) (n := Z.of_nat (length l)) :
  n < max_samples →
  (l = [] ∨ ¬ Forall ordered l → percentile l half = None ∧ percentile l ninety = None) ∧
  (l ≠ [] → Forall ordered l →
    (∃ x, percentile l half = Some x ∧ is_rank l ((n + 1) / 2) x) ∧
    (∃ x, percentile l ninety = Some x ∧ is_rank l ((9 * n + 9) / 10) x)).
Proof.
  intros Hn. split.
  - intros [->|Hu]; [done|]. unfold percentile. destruct l as [|x l]; [done|].
    by rewrite existsb_unordered, bool_decide_eq_false_2.
  - intros Hne Hl. assert (0 < n) by (unfold n; destruct l; [done|cbn; lia]). split; apply percentile_is_rank.
    1, 2, 5, 6: done.
    + by apply half_rank.
    + apply Z.div_le_upper_bound; lia.
    + by apply ninety_rank.
    + fold n. enough ((9 * n + 9) / 10 < n + 1) by lia. apply Z.div_lt_upper_bound; lia.
Qed.
End spec.

Example nan_has_no_rank : percentile [f64_of_Z 1; f64_nan] half = None.
Proof. vm_compute. reflexivity. Qed.

(** A percentile is one of the samples. *)
Lemma percentile_elem {T} `{PartialOrd T} (l : list T) p x : percentile l p = Some x → x ∈ l.
Proof.
  unfold percentile. destruct l as [|y l]; [done|]. destruct (existsb _ _); [done|].
  intros Hx%list_elem_of_lookup_2. by rewrite (sort_perm (y :: l)) in Hx.
Qed.

(** Samples that all order have their percentiles. *)
Lemma percentiles_present {T} `{PartialOrdLaws T} (l : list T) :
  Z.of_nat (length l) < max_samples → l ≠ [] → Forall ordered l →
  is_Some (percentile l half) ∧ is_Some (percentile l ninety).
Proof.
  intros Hn Hne Hl. assert (0 < Z.of_nat (length l)) by (destruct l; [done|cbn; lia]). split.
  - destruct (percentile_is_rank l half ((Z.of_nat (length l) + 1) / 2) Hne Hl) as (x & -> & _);
      [by apply half_rank|apply Z.div_le_upper_bound; lia|by eexists].
  - destruct (percentile_is_rank l ninety ((9 * Z.of_nat (length l) + 9) / 10) Hne Hl) as (x & -> & _);
      [by apply ninety_rank| |by eexists].
    enough ((9 * Z.of_nat (length l) + 9) / 10 < Z.of_nat (length l) + 1) by lia. apply Z.div_lt_upper_bound; lia.
Qed.
