(* ===== verification/Metric.v ===== *)
(** * Figures

    [crates/stats/src/metric.rs]: what a report is made of. *)

From S2P Require Import Prelude F64.

#[local] Open Scope Z_scope.

Inductive MetricKind : Type := Observed | Inferred.
#[export] Instance metric_kind_eq_dec : EqDecision MetricKind.
Proof. solve_decision. Defined.

Inductive Value : Type :=
| Count (count : Z)
| Sats (sats : Z)
| Ratio (r : f64)
| Seconds (seconds : Z)
| Fiat (amount : f64) (code : string)
| Text (text : string)
| Missing.
#[export] Instance value_eq_dec : EqDecision Value.
Proof. solve_decision. Defined.

(** [Value::ratio], [Value::fiat]. *)
Definition ratio (r : f64) : Value := if is_finite r then Ratio r else Missing.
Definition fiat (amount : f64) (code : string) : Value :=
  if is_finite amount then Fiat amount code else Missing.

Definition normalised (v : Value) : Value :=
  match v with
  | Ratio r => if is_finite r then v else Missing
  | Fiat amount _ => if is_finite amount then v else Missing
  | _ => v
  end.

(** [Wire] and [Value::serialize]: the unit, and the value. *)
Inductive Wire : Type :=
| WireCount (n : Z) | WireSats (n : Z) | WireRatio (r : f64) | WireSeconds (n : Z)
| WireFiat (amount : f64) (code : string) | WireText (s : string) | WireMissing.

Definition wire (v : Value) : Wire :=
  match normalised v with
  | Count n => WireCount n
  | Sats n => WireSats n
  | Ratio r => WireRatio r
  | Seconds n => WireSeconds n
  | Fiat amount code => WireFiat amount code
  | Text s => WireText s
  | Missing => WireMissing
  end.

Record Metric : Type := mkMetric {
  m_name : string;
  m_kind : MetricKind;
  m_value : Value;
  m_error : option string;
}.
#[export] Instance metric_eq_dec : EqDecision Metric.
Proof. solve_decision. Defined.

Definition observed (name : string) (value : Value) : Metric := mkMetric name Observed value None.
Definition inferred (name : string) (value : Value) (error : string) : Metric :=
  mkMetric name Inferred value (Some error).
Definition missing (m : Metric) : Metric := mkMetric (m_name m) (m_kind m) Missing (m_error m).
Definition is_inferred (m : Metric) : bool := bool_decide (m_kind m = Inferred).

(** [kind] and [error] move together: what the private fields protect. *)
Definition well_kinded (m : Metric) : Prop := m_kind m = Inferred ↔ is_Some (m_error m).

(** [value.map_or(Value::Missing, Value::ratio)] and the like. *)
Definition or_missing {A} (f : A → Value) (o : option A) : Value :=
  match o with Some a => f a | None => Missing end.

(** A name under a prefix: [format!("{prefix}.{name}")]. *)
Definition dotted (prefix name : string) : string := prefix +:+ "." +:+ name.

Lemma observed_well_kinded name value : well_kinded (observed name value).
Proof. split; [done|]. by intros [? ?]. Qed.
Lemma inferred_well_kinded name value error : well_kinded (inferred name value error).
Proof. split; [by eexists|done]. Qed.
Lemma missing_well_kinded m : well_kinded m → well_kinded (missing m).
Proof. done. Qed.
Lemma wire_finite v r : wire v = WireRatio r → is_finite r = true.
Proof.
  unfold wire, normalised. destruct v as [| |x| |x| |]; try done;
    destruct (is_finite x) eqn:E; congruence.
Qed.
Lemma normalised_idemp v : normalised (normalised v) = normalised v.
Proof.
  unfold normalised. destruct v as [| |x| |x| |]; try done;
    destruct (is_finite x) eqn:E; by rewrite ?E.
Qed.
