(* ===== verification/Calendar.v ===== *)
(** * The calendar

    What the aggregations use of chrono's UTC calendar: a [DateTime<Utc>]
    with no subsecond part is its unix timestamp. [CalendarLaws] states the
    documented behaviour of those functions; [gregorian] is a concrete
    calendar that has it. *)

From S2P Require Import Prelude.

#[local] Open Scope Z_scope.

Definition DAY : Z := 86400.

Class Calendar := {
  (** [DateTime::from_timestamp(t, 0)] is [Some] exactly on these. *)
  in_calendar : Z → bool;
  (** [Datelike] and [Timelike]. *)
  year : Z → Z;
  month : Z → Z;
  num_days_from_monday : Z → Z;
  hour : Z → Z;
  (** [date_naive().and_hms_opt(0, 0, 0)]. *)
  midnight : Z → Z;
  (** [Utc.with_ymd_and_hms(y, m, d, 0, 0, 0).single()]. *)
  with_ymd : Z → Z → Z → option Z;
  (** [checked_add_days], [checked_sub_days], [checked_sub_months]. *)
  checked_add_days : Z → Z → option Z;
  checked_sub_days : Z → Z → option Z;
  checked_sub_months : Z → Z → option Z;
  (** [at.format(fmt).to_string()] and [to_rfc3339]. *)
  format : Z → string → string;
  to_rfc3339 : Z → string;
  (** The timestamp of [DateTime::parse_from_rfc3339(text)]. *)
  parse_from_rfc3339 : string → option Z;
}.

Definition from_timestamp `{Calendar} (t : Z) : option Z := if in_calendar t then Some t else None.

(** The month of an instant, as a pair that orders lexicographically. *)
Definition ym_le (a b : Z * Z) : Prop := a.1 < b.1 ∨ (a.1 = b.1 ∧ a.2 ≤ b.2).

Class CalendarLaws `{Calendar} := {
  in_calendar_convex : ∀ a b t, in_calendar a = true → in_calendar b = true → a ≤ t ≤ b → in_calendar t = true;
  midnight_spec : ∀ t, midnight t = t - t mod DAY;
  hour_spec : ∀ t, hour t = t mod DAY / 3600;
  midnight_in : ∀ t, in_calendar t = true → in_calendar (midnight t) = true;
  in_calendar_i64 : ∀ t, in_calendar t = true → is_i64 t;
  (** The epoch was a Thursday. *)
  weekday_spec : ∀ t, num_days_from_monday t = (t / DAY + 3) mod 7;
  month_range : ∀ t, in_calendar t = true → 1 ≤ month t ≤ 12;
  with_ymd_midnight : ∀ y m d s, with_ymd y m d = Some s → s mod DAY = 0 ∧ in_calendar s = true;
  with_ymd_first : ∀ y m s, with_ymd y m 1 = Some s →
    year s = y ∧ month s = m ∧ ∀ t, in_calendar t = true → (s ≤ t ↔ ym_le (y, m) (year t, month t));
  with_ymd_own : ∀ t, in_calendar t = true → is_Some (with_ymd (year t) (month t) 1) ∧ is_Some (with_ymd (year t) 1 1);
  (** The calendar reaches past every year four digits spell. *)
  with_ymd_digits : ∀ y m, 0 ≤ y ≤ 10000 → 1 ≤ m ≤ 12 → is_Some (with_ymd y m 1);
  add_days_spec : ∀ t n u, checked_add_days t n = Some u ↔ u = t + n * DAY ∧ in_calendar u = true;
  sub_days_spec : ∀ t n u, checked_sub_days t n = Some u ↔ u = t - n * DAY ∧ in_calendar u = true;
  (** RFC 3339 spells years of four digits, and those read back. *)
  rfc3339_reads_back : ∀ t, in_calendar t = true → 0 ≤ year t ≤ 9999 → parse_from_rfc3339 (to_rfc3339 t) = Some t;
  (** A compact timestamp names one second. *)
  compact_inj : ∀ t u, in_calendar t = true → in_calendar u = true → 0 ≤ year t ≤ 9999 → 0 ≤ year u ≤ 9999 →
    format t "%Y%m%dT%H%M%SZ" = format u "%Y%m%dT%H%M%SZ" → t = u;
}.

(** ** The proleptic Gregorian calendar *)

Module Gregorian.
Definition leap (y : Z) : bool :=
  (y mod 4 =? 0) && (negb (y mod 100 =? 0) || (y mod 400 =? 0)).
(** Days from 1 January 1970 to 1 January of [y]. *)
Definition jan1 (y : Z) : Z :=
  365 * y + (y - 1) / 4 - (y - 1) / 100 + (y - 1) / 400 - 719527.
(** Days of a year before its month [m]. *)
Definition before (leap : bool) (m : Z) : Z :=
  (if decide (m ≤ 1) then 0 else if decide (m = 2) then 31
   else 30 * (m - 1) + (m + m / 8) / 2 - 1 + (if leap then 0 else -1)).
Definition month_len (l : bool) (m : Z) : Z := before l (m + 1) - before l m.

Definition day_of (t : Z) : Z := t / DAY.
Definition year_of_day (d : Z) : Z :=
  let y := ((d + 719527) * 400) / 146097 in
  if decide (jan1 (y + 1) ≤ d) then y + 1 else if decide (d < jan1 y) then y - 1 else y.
Definition month_of_doy (l : bool) (doy : Z) : Z :=
  Z.of_nat (length (filter (λ m, before l m ≤ doy) [1; 2; 3; 4; 5; 6; 7; 8; 9; 10; 11; 12])).
Definition doy (d : Z) : Z := d - jan1 (year_of_day d).
Definition month_of_day (d : Z) : Z := month_of_doy (leap (year_of_day d)) (doy d).
Definition dom (d : Z) : Z := doy d - before (leap (year_of_day d)) (month_of_day d) + 1.

Definition min_year : Z := -262143.
Definition max_year : Z := 262142.
Definition in_range (t : Z) : bool :=
  bool_decide (jan1 min_year * DAY ≤ t) && bool_decide (t < jan1 (max_year + 1) * DAY).
Definition guard (t : Z) : option Z := if in_range t then Some t else None.
Definition ymd (y m d : Z) : option Z :=
  if decide (min_year ≤ y ≤ max_year ∧ 1 ≤ m ≤ 12 ∧ 1 ≤ d ≤ month_len (leap y) m)
  then Some ((jan1 y + before (leap y) m + d - 1) * DAY) else None.

Definition weekday (d : Z) : Z := (d + 3) mod 7.
Definition sub_months (t n : Z) : option Z :=
  let d := day_of t in
  let k := 12 * year_of_day d + month_of_day d - 1 - n in
  let y := k / 12 in
  let m := k mod 12 + 1 in
  (λ s, s + t mod DAY) <$> ymd y m (Z.min (dom d) (month_len (leap y) m)).

Definition iso_thursday (d : Z) : Z := d - weekday d + 3.
Definition format (t : Z) (fmt : string) : string :=
  let d := day_of t in
  let Y := pad 4 (year_of_day d) in
  let M := pad 2 (month_of_day d) in
  if decide (fmt = "%Y-%m-%d") then Y +:+ "-" +:+ M +:+ "-" +:+ pad 2 (dom d)
  else if decide (fmt = "%Y-%m") then Y +:+ "-" +:+ M
  else if decide (fmt = "%G-W%V") then
    let th := iso_thursday d in pad 4 (year_of_day th) +:+ "-W" +:+ pad 2 (doy th / 7 + 1)
  else if decide (fmt = "%Y%m%dT%H%M%SZ") then
    let s := t mod DAY in
    Y +:+ M +:+ pad 2 (dom d) +:+ "T" +:+ pad 2 (s / 3600) +:+ pad 2 (s / 60 mod 60) +:+ pad 2 (s mod 60) +:+ "Z"
  else Y.
Definition rfc3339 (t : Z) : string :=
  let s := t mod DAY in
  format t "%Y-%m-%d" +:+ "T" +:+ pad 2 (s / 3600) +:+ ":" +:+ pad 2 (s / 60 mod 60) +:+ ":"
    +:+ pad 2 (s mod 60) +:+ "+00:00".

(** The instant of six fields. *)
Definition instant (y m d h mi s : Z) : option Z := (λ t, t + 3600 * h + 60 * mi + s) <$> ymd y m d.
Definition parse_rfc3339 (text : string) : option Z :=
  match text with
  | String y1 (String y2 (String y3 (String y4 (String _ (String m1 (String m2 (String _
      (String d1 (String d2 (String _ (String h1 (String h2 (String _ (String i1 (String i2
      (String _ (String s1 (String s2 zone)))))))))))))))))) =>
      if decide (zone ≠ "+00:00") then None else
      y ← digits (String y1 (String y2 (String y3 (String y4 ""))));
      m ← digits (String m1 (String m2 ""));
      d ← digits (String d1 (String d2 ""));
      h ← digits (String h1 (String h2 ""));
      i ← digits (String i1 (String i2 ""));
      s ← digits (String s1 (String s2 ""));
      instant y m d h i s
  | _ => None
  end.

#[export] Instance gregorian : Calendar := {|
  in_calendar := in_range;
  year t := year_of_day (day_of t);
  month t := month_of_day (day_of t);
  num_days_from_monday t := weekday (day_of t);
  hour t := t mod DAY / 3600;
  midnight t := t - t mod DAY;
  with_ymd := ymd;
  checked_add_days t n := guard (t + n * DAY);
  checked_sub_days t n := guard (t - n * DAY);
  checked_sub_months := sub_months;
  Calendar.format := format;
  to_rfc3339 := rfc3339;
  parse_from_rfc3339 := parse_rfc3339;
|}.

Example known_dates :
  with_ymd 1970 1 1 = Some 0 ∧ with_ymd 2024 2 29 = Some 1709164800 ∧ with_ymd 2023 2 29 = None ∧
  Calendar.format 1767225599 "%Y-%m-%d" = "2025-12-31" ∧ Calendar.format 1767225599 "%G-W%V" = "2026-W01" ∧
  to_rfc3339 1700000000 = "2023-11-14T22:13:20+00:00" ∧
  checked_sub_months 1711843200 1 = Some 1709164800.
Proof. vm_compute. repeat split. Qed.

(** *** Years *)

Lemma jan1_step y : jan1 (y + 1) = jan1 y + (if leap y then 366 else 365).
Proof.
  unfold jan1, leap. replace (y + 1 - 1) with y by lia.
  destruct (Z.eqb_spec (y mod 4) 0), (Z.eqb_spec (y mod 100) 0), (Z.eqb_spec (y mod 400) 0);
    cbn [andb negb orb]; Z.to_euclidean_division_equations; lia.
Qed.

Lemma jan1_mono y z : y < z → jan1 y + 365 ≤ jan1 z.
Proof.
  intros Hyz. replace z with (y + 1 + Z.of_nat (Z.to_nat (z - y - 1))) by lia.
  induction (Z.to_nat (z - y - 1)) as [|k IH].
  - rewrite Z.add_0_r, jan1_step. destruct (leap y); lia.
  - rewrite Nat2Z.inj_succ. replace (y + 1 + Z.succ (Z.of_nat k)) with (y + 1 + Z.of_nat k + 1) by lia.
    rewrite (jan1_step (y + 1 + Z.of_nat k)). destruct (leap _); lia.
Qed.

Lemma year_of_day_spec d : jan1 (year_of_day d) ≤ d < jan1 (year_of_day d + 1).
Proof.
  unfold year_of_day. set (y := _ / 146097).
  assert (146097 * y ≤ (d + 719527) * 400 < 146097 * y + 146097) as Hy.
  { subst y. pose proof (Z.div_mod ((d + 719527) * 400) 146097 ltac:(lia)).
    pose proof (Z.mod_pos_bound ((d + 719527) * 400) 146097 ltac:(lia)). lia. }
  clearbody y.
  assert (d < jan1 (y + 2)) by (unfold jan1; Z.to_euclidean_division_equations; lia).
  assert (jan1 (y - 1) ≤ d) by (unfold jan1; Z.to_euclidean_division_equations; lia).
  replace (y + 2) with (y + 1 + 1) in * by lia.
  case_decide; [lia|]. case_decide; [|lia]. replace (y - 1 + 1) with y by lia. lia.
Qed.

Lemma jan1_le_iff y d : jan1 y ≤ d ↔ y ≤ year_of_day d.
Proof.
  pose proof (year_of_day_spec d) as [H1 H2]. split; intros H.
  - destruct (decide (y ≤ year_of_day d)); [done|].
    destruct (decide (y = year_of_day d + 1)) as [->|]; [lia|].
    pose proof (jan1_mono (year_of_day d + 1) y ltac:(lia)). lia.
  - destruct (decide (y = year_of_day d)) as [->|]; [done|].
    pose proof (jan1_mono y (year_of_day d) ltac:(lia)). lia.
Qed.

Lemma year_of_day_unique y d : jan1 y ≤ d < jan1 (y + 1) → year_of_day d = y.
Proof.
  intros [H1 H2]. apply jan1_le_iff in H1.
  destruct (decide (y + 1 ≤ year_of_day d)) as [H%jan1_le_iff|]; lia.
Qed.

Lemma doy_range d : 0 ≤ doy d < if leap (year_of_day d) then 366 else 365.
Proof. unfold doy. pose proof (year_of_day_spec d) as H. rewrite jan1_step in H. lia. Qed.

(** *** Months *)

Definition month_ok (l : bool) (n : nat) : bool :=
  let d := Z.of_nat n in let m := month_of_doy l d in
  (1 <=? m) && (m <=? 12) && (before l m <=? d) && (d <? before l (m + 1)).

Lemma months_ok : forallb (month_ok true) (seq 0 366) && forallb (month_ok false) (seq 0 365) = true.
Proof. vm_compute. reflexivity. Qed.

Lemma month_of_doy_spec (l : bool) d :
  0 ≤ d < (if l then 366 else 365) →
  1 ≤ month_of_doy l d ≤ 12 ∧ before l (month_of_doy l d) ≤ d < before l (month_of_doy l d + 1).
Proof.
  intros Hd. assert (month_ok l (Z.to_nat d) = true) as H.
  { pose proof months_ok as [H1 H2]%andb_prop. rewrite !forallb_forall in H1, H2.
    destruct l; [apply H1|apply H2]; apply in_seq; lia. }
  unfold month_ok in H. rewrite Z2Nat.id in H by lia.
  rewrite !andb_true_iff, !Z.leb_le, Z.ltb_lt in H. lia.
Qed.

Definition before_ok (l : bool) (n : nat) : bool :=
  let m := Z.of_nat n in before l m + 28 <=? before l (m + 1).
Lemma befores_ok : forallb (before_ok true) (seq 1 12) && forallb (before_ok false) (seq 1 12) = true.
Proof. vm_compute. reflexivity. Qed.

Lemma before_step l m : 1 ≤ m ≤ 12 → before l m + 28 ≤ before l (m + 1).
Proof.
  intros Hm. assert (before_ok l (Z.to_nat m) = true) as H.
  { pose proof befores_ok as [H1 H2]%andb_prop. rewrite !forallb_forall in H1, H2.
    destruct l; [apply H1|apply H2]; apply in_seq; lia. }
  unfold before_ok in H. rewrite Z2Nat.id, Z.leb_le in H by lia. lia.
Qed.

Lemma before_mono l m n : 1 ≤ m → m < n → n ≤ 13 → before l m < before l n.
Proof.
  intros Hm Hmn Hn. replace n with (m + 1 + Z.of_nat (Z.to_nat (n - m - 1))) in * by lia.
  induction (Z.to_nat (n - m - 1)) as [|k IH]; [pose proof (before_step l m); rewrite Z.add_0_r; lia|].
  pose proof (before_step l (m + 1 + Z.of_nat k) ltac:(lia)). specialize (IH ltac:(lia) ltac:(lia)).
  replace (m + 1 + Z.of_nat (S k)) with (m + 1 + Z.of_nat k + 1) by lia. lia.
Qed.

Lemma before_first l : before l 1 = 0. Proof. done. Qed.
Lemma before_last (l : bool) : before l 13 = if l then 366 else 365. Proof. by destruct l. Qed.
Lemma before_range (l : bool) m : 1 ≤ m ≤ 12 → 0 ≤ before l m ∧ before l m < if l then 366 else 365.
Proof.
  intros Hm. rewrite <- before_last, <- (before_first l). split; [|apply before_mono; lia].
  destruct (decide (m = 1)) as [->|]; [lia|]. pose proof (before_mono l 1 m). lia.
Qed.

(** The first of a month is at or before a day exactly when the month is at
    or before the day's. *)
Lemma first_le_iff y m d :
  1 ≤ m ≤ 12 → jan1 y + before (leap y) m ≤ d ↔ ym_le (y, m) (year_of_day d, month_of_day d).
Proof.
  intros Hm. pose proof (before_range (leap y) m Hm) as Hb.
  pose proof (doy_range d) as Hd. pose proof (month_of_doy_spec (leap (year_of_day d)) (doy d) Hd) as [Hr Hs].
  fold (month_of_day d) in Hr, Hs. unfold ym_le; cbn [fst snd].
  destruct (Z.lt_trichotomy y (year_of_day d)) as [Hy|[Hy|Hy]].
  - split; [by left|]. intros _.
    assert (jan1 (y + 1) ≤ d) as H1 by (apply jan1_le_iff; lia). rewrite jan1_step in H1. lia.
  - assert (d = jan1 y + doy d) as E by (unfold doy; rewrite <- Hy; lia).
    rewrite <- Hy in Hs, Hd. split.
    + intros H. right. split; [done|].
      destruct (decide (m ≤ month_of_day d)) as [|Hn]; [done|]. exfalso.
      destruct (decide (m = month_of_day d + 1)) as [->|]; [lia|].
      pose proof (before_mono (leap y) (month_of_day d + 1) m ltac:(lia) ltac:(lia) ltac:(lia)). lia.
    + intros [H|[_ H]]; [lia|].
      destruct (decide (m = month_of_day d)) as [->|]; [lia|].
      pose proof (before_mono (leap y) m (month_of_day d) ltac:(lia) ltac:(lia) ltac:(lia)). lia.
  - split; [|lia]. intros H. assert (jan1 y ≤ d) as H1%jan1_le_iff by lia. lia.
Qed.

Lemma ymd_Some y m s :
  ymd y m 1 = Some s → min_year ≤ y ≤ max_year ∧ 1 ≤ m ≤ 12 ∧ s = (jan1 y + before (leap y) m) * DAY.
Proof. unfold ymd. case_decide as H; [|done]. intros [= <-]. split_and!; lia. Qed.

Lemma ymd_is_Some y m : min_year ≤ y ≤ max_year → 1 ≤ m ≤ 12 → is_Some (ymd y m 1).
Proof.
  intros Hy Hm. unfold ymd. rewrite decide_True; [by eexists|].
  pose proof (before_step (leap y) m Hm). unfold month_len. lia.
Qed.

Lemma in_range_spec t : in_range t = true ↔ min_year ≤ year_of_day (day_of t) ≤ max_year.
Proof.
  unfold in_range, day_of. rewrite andb_true_iff, !bool_decide_eq_true, <- jan1_le_iff.
  unfold DAY. destruct (decide (jan1 (max_year + 1) ≤ t / 86400)) as [H|H]; pose proof H as H';
    rewrite jan1_le_iff in H'; Z.to_euclidean_division_equations; lia.
Qed.

Lemma guard_Some t u : guard t = Some u ↔ u = t ∧ in_range u = true.
Proof.
  unfold guard. destruct (in_range t) eqn:E; split.
  - by intros [= <-].
  - by intros [-> _].
  - done.
  - intros [-> ?]. congruence.
Qed.

(** *** Rendering *)

Lemma pad_2 n : 0 ≤ n < 100 → ∃ a b, pad 2 n = String a (String b "") ∧ digits (String a (String b "")) = Some n.
Proof.
  intros Hn. destruct (pad_spec 2 n ltac:(lia) ltac:(lia)) as [Hl Hd].
  destruct (pad 2 n) as [|a [|b [|]]]; try done. by exists a, b.
Qed.
Lemma pad_4 n : 0 ≤ n ≤ 9999 →
  ∃ a b c d, pad 4 n = String a (String b (String c (String d ""))) ∧
    digits (String a (String b (String c (String d "")))) = Some n.
Proof.
  intros Hn. destruct (pad_spec 4 n ltac:(lia) ltac:(lia)) as [Hl Hd].
  destruct (pad 4 n) as [|a [|b [|c [|d [|]]]]]; try done. by exists a, b, c, d.
Qed.

Lemma dom_range d : 1 ≤ dom d ≤ month_len (leap (year_of_day d)) (month_of_day d).
Proof.
  unfold dom, month_len. pose proof (month_of_doy_spec _ _ (doy_range d)) as [_ H].
  fold (month_of_day d) in H. lia.
Qed.
Lemma month_of_day_range d : 1 ≤ month_of_day d ≤ 12.
Proof. apply (month_of_doy_spec _ _ (doy_range d)). Qed.

Lemma month_len_le (l : bool) m : 1 ≤ m ≤ 12 → month_len l m ≤ 31.
Proof.
  intros Hm. assert (forallb (λ n, (month_len true (Z.of_nat n) <=? 31) && (month_len false (Z.of_nat n) <=? 31))
    (seq 1 12) = true) as H by (vm_compute; reflexivity).
  rewrite forallb_forall in H. specialize (H (Z.to_nat m) ltac:(apply in_seq; lia)).
  rewrite Z2Nat.id, andb_true_iff, !Z.leb_le in H by lia. destruct l; lia.
Qed.

(** The six fields of an instant name it. *)
Lemma instant_fields t :
  in_range t = true →
  instant (year_of_day (day_of t)) (month_of_day (day_of t)) (dom (day_of t))
    (t mod DAY / 3600) (t mod DAY / 60 mod 60) (t mod DAY mod 60) = Some t.
Proof.
  intros Ht%in_range_spec. set (d := day_of t) in *. unfold instant, ymd.
  pose proof (dom_range d). pose proof (month_of_day_range d).
  rewrite decide_True by lia. cbn. f_equal.
  replace (jan1 (year_of_day d) + before (leap (year_of_day d)) (month_of_day d) + dom d - 1) with d
    by (unfold dom, doy; lia).
  unfold d, day_of, DAY. Z.to_euclidean_division_equations; lia.
Qed.

Lemma fields_range t :
  1 ≤ month_of_day (day_of t) < 100 ∧ 0 ≤ dom (day_of t) < 100 ∧ 0 ≤ t mod DAY / 3600 < 100 ∧
  0 ≤ t mod DAY / 60 mod 60 < 100 ∧ 0 ≤ t mod DAY mod 60 < 100.
Proof.
  pose proof (dom_range (day_of t)). pose proof (month_of_day_range (day_of t)).
  pose proof (month_len_le (leap (year_of_day (day_of t))) (month_of_day (day_of t)) ltac:(lia)).
  unfold DAY. split_and!; Z.to_euclidean_division_equations; lia.
Qed.

Lemma rfc3339_back t :
  in_range t = true → 0 ≤ year_of_day (day_of t) ≤ 9999 → parse_rfc3339 (rfc3339 t) = Some t.
Proof.
  intros Ht Hy. destruct (fields_range t) as (Hm & Hd & Hh & Hi & Hs). unfold rfc3339, format.
  rewrite decide_True by done.
  destruct (pad_4 _ Hy) as (? & ? & ? & ? & -> & Ey).
  destruct (pad_2 (month_of_day (day_of t)) ltac:(lia)) as (? & ? & -> & Em).
  destruct (pad_2 _ Hd) as (? & ? & -> & Ed). destruct (pad_2 _ Hh) as (? & ? & -> & Eh).
  destruct (pad_2 _ Hi) as (? & ? & -> & Ei). destruct (pad_2 _ Hs) as (? & ? & -> & Es).
  rewrite <- (instant_fields t Ht). repeat (rewrite string_app_cons || rewrite string_app_nil_l).
  cbn [parse_rfc3339]. rewrite decide_False by (intros []; done).
  rewrite Ey, Em, Ed, Eh, Ei, Es. done.
Qed.

Lemma compact_injective t u :
  in_range t = true → in_range u = true →
  0 ≤ year_of_day (day_of t) ≤ 9999 → 0 ≤ year_of_day (day_of u) ≤ 9999 →
  format t "%Y%m%dT%H%M%SZ" = format u "%Y%m%dT%H%M%SZ" → t = u.
Proof.
  intros Ht Hu Hy Hy'. destruct (fields_range t) as (Hm & Hd & Hh & Hi & Hs).
  destruct (fields_range u) as (Hm' & Hd' & Hh' & Hi' & Hs'). unfold format.
  rewrite !(decide_False (P := "%Y%m%dT%H%M%SZ" = _)) by done. rewrite !decide_True by done.
  pose proof (instant_fields t Ht) as Et. pose proof (instant_fields u Hu) as Eu.
  destruct (pad_4 _ Hy) as (? & ? & ? & ? & -> & Ey). destruct (pad_4 _ Hy') as (? & ? & ? & ? & -> & Ey').
  destruct (pad_2 (month_of_day (day_of t)) ltac:(lia)) as (? & ? & -> & Em).
  destruct (pad_2 (month_of_day (day_of u)) ltac:(lia)) as (? & ? & -> & Em').
  destruct (pad_2 _ Hd) as (? & ? & -> & Ed). destruct (pad_2 _ Hd') as (? & ? & -> & Ed').
  destruct (pad_2 _ Hh) as (? & ? & -> & Eh). destruct (pad_2 _ Hh') as (? & ? & -> & Eh').
  destruct (pad_2 _ Hi) as (? & ? & -> & Ei). destruct (pad_2 _ Hi') as (? & ? & -> & Ei').
  destruct (pad_2 _ Hs) as (? & ? & -> & Es). destruct (pad_2 _ Hs') as (? & ? & -> & Es').
  repeat (rewrite string_app_cons || rewrite string_app_nil_l). intros H. injection H; clear H; intros; subst.
  rewrite Ey in Ey'. rewrite Em in Em'. rewrite Ed in Ed'. rewrite Eh in Eh'. rewrite Ei in Ei'. rewrite Es in Es'.
  injection Ey' as Ey'. injection Em' as Em'. injection Ed' as Ed'. injection Eh' as Eh'. injection Ei' as Ei'.
  injection Es' as Es'. rewrite Ey', Em', Ed', Eh', Ei', Es' in Et. congruence.
Qed.

#[export] Instance gregorian_laws : CalendarLaws.
Proof.
  split; cbn.
  - intros a b t. unfold in_range. rewrite !andb_true_iff, !bool_decide_eq_true. lia.
  - done.
  - done.
  - intros t. unfold in_range. rewrite !andb_true_iff, !bool_decide_eq_true.
    change (jan1 min_year) with (-96465292). change (jan1 (max_year + 1)) with 95026237.
    unfold DAY. Z.to_euclidean_division_equations; lia.
  - intros t. unfold in_range. rewrite !andb_true_iff, !bool_decide_eq_true.
    change (jan1 min_year) with (-96465292). change (jan1 (max_year + 1)) with 95026237.
    unfold DAY, is_i64, i64_min, i64_max. lia.
  - done.
  - intros t _. unfold month_of_day. pose proof (month_of_doy_spec _ _ (doy_range (day_of t))). lia.
  - intros y m d s H. assert (s mod DAY = 0) as Hs.
    { unfold ymd in H. case_decide; [|done]. injection H as <-. by rewrite Z.mod_mul. }
    split; [done|]. apply in_range_spec. unfold ymd in H. case_decide as Hc; [|done]. injection H as <-.
    destruct Hc as (Hy & Hm & Hd). unfold day_of. rewrite Z.div_mul by done.
    erewrite (year_of_day_unique y); [done|]. rewrite jan1_step.
    unfold month_len in Hd. pose proof (before_range (leap y) m Hm).
    enough (before (leap y) (m + 1) ≤ if leap y then 366 else 365) by (destruct (leap y); lia).
    rewrite <- before_last. destruct (decide (m = 12)) as [->|]; [done|].
    pose proof (before_mono (leap y) (m + 1) 13). lia.
  - intros y m s (Hy & Hm & ->)%ymd_Some. unfold day_of at 1 2. rewrite Z.div_mul by done.
    set (d := jan1 y + before (leap y) m).
    assert (year_of_day d = y) as Ey.
    { apply year_of_day_unique. rewrite jan1_step. pose proof (before_range (leap y) m Hm). lia. }
    split_and!; [done| |].
    + pose proof (proj1 (first_le_iff y m d Hm) ltac:(lia)) as [H|[_ H]]; cbn [fst snd] in H; [lia|].
      destruct (decide (month_of_day d = m)) as [|Hn]; [done|].
      pose proof (month_of_doy_spec _ _ (doy_range d)) as [Hr Hs]. fold (month_of_day d) in Hr, Hs.
      pose proof (proj2 (first_le_iff y (month_of_day d) d Hr)) as H2. rewrite Ey in H2, Hs.
      specialize (H2 ltac:(right; cbn; lia)).
      pose proof (before_mono (leap y) m (month_of_day d)). lia.
    + intros t _. rewrite <- first_le_iff by done. fold d. unfold day_of, DAY. Z.to_euclidean_division_equations; lia.
  - intros t Ht%in_range_spec.
    pose proof (month_of_doy_spec _ _ (doy_range (day_of t))) as [Hr _]. fold (month_of_day (day_of t)) in Hr.
    split; apply ymd_is_Some; lia.
  - intros y m Hy Hm. apply ymd_is_Some; unfold min_year, max_year; lia.
  - intros t n u. apply guard_Some.
  - intros t n u. apply guard_Some.
  - apply rfc3339_back.
  - apply compact_injective.
Qed.
End Gregorian.
