(* ===== verification/Window.v ===== *)
(** * Windows and their calendar buckets

    [crates/stats/src/window.rs]. *)

From S2P Require Import Prelude Calendar.

#[local] Open Scope Z_scope.

Record Window : Type := mkWindow { w_from : Z; w_until : Z }.
#[export] Instance window_eq_dec : EqDecision Window.
Proof. solve_decision. Defined.

Inductive Period : Type := Day | Week | Month | Year.
#[export] Instance period_eq_dec : EqDecision Period.
Proof. solve_decision. Defined.

Definition contains (w : Window) (timestamp : Z) : bool :=
  bool_decide (w_from w ≤ timestamp) && bool_decide (timestamp < w_until w).

(** The window of the same length ending where this one starts. *)
Definition previous (w : Window) : Window :=
  let length := i64_sub (w_until w) (w_from w) in mkWindow (i64_sub (w_from w) length) (w_from w).

Lemma window_contains_spec w t : contains w t = true ↔ w_from w ≤ t < w_until w.
Proof. unfold contains. rewrite andb_true_iff, !bool_decide_eq_true. lia. Qed.

Section window.
Context {cal : Calendar}.

(** Moving both bounds back by the same calendar step. *)
Definition shift_back (back : Z → option Z) (w : Window) : option Window :=
  from ← from_timestamp (w_from w) ≫= back;
  until ← from_timestamp (w_until w) ≫= back;
  Some (mkWindow from until).
Definition shifted_months (by_months : Z) : Window → option Window :=
  shift_back (λ at_, checked_sub_months at_ by_months).
Definition shifted (days : Z) : Window → option Window :=
  shift_back (λ at_, checked_sub_days at_ days).
Definition previous_month : Window → option Window := shifted_months 1.

Definition preceding (w : Window) (period : Period) : option Window :=
  match period with
  | Day => shifted 1 w
  | Week => shifted 7 w
  | Month => previous_month w
  | Year => shifted_months 12 w
  end.

(** The first of the month after an instant. *)
Definition next_month (at_ : Z) : option Z :=
  let '(y, m) := if decide (month at_ = 12) then (year at_ + 1, 1) else (year at_, month at_ + 1) in
  with_ymd y m 1.

(** The instant the period containing an instant opens. *)
Definition opening_of (period : Period) (t : Z) : option Z :=
  start ← from_timestamp t;
  match period with
  | Day => Some (midnight start)
  | Week => checked_sub_days (midnight start) (num_days_from_monday start)
  | Month => with_ymd (year start) (month start) 1
  | Year => with_ymd (year start) 1 1
  end.
Definition opening (w : Window) (period : Period) : option Z := opening_of period (w_from w).

(** The step and the key format of a period: the arguments [buckets_upto]
    gives to [walk]. *)
Definition next_of (period : Period) (at_ : Z) : option Z :=
  match period with
  | Day => checked_add_days at_ 1
  | Week => checked_add_days at_ 7
  | Month => next_month at_
  | Year => with_ymd (year at_ + 1) 1 1
  end.
Definition key_format (period : Period) : string :=
  match period with Day => "%Y-%m-%d" | Week => "%G-W%V" | Month => "%Y-%m" | Year => "%Y" end.

(** The loop of [walk], [n] buckets in. Running out of fuel ends it early;
    [walk_fuel] is never exhausted ([walk_steps_tile]). *)
Fixpoint walk_steps (fuel : nat) (w : Window) (fmt : string) (limit : Z) (next : Z → option Z)
    (cursor : Z) (n : Z) : option (list (string * Window)) :=
  match fuel with
  | O => Some []
  | S fuel =>
      if decide (cursor < w_until w) then
        match next cursor with
        | None => Some []
        | Some following =>
            let clipped := mkWindow (Z.max cursor (w_from w)) (Z.min following (w_until w)) in
            if decide (w_from clipped < w_until clipped) then
              if decide (n = limit) then None
              else cons (format cursor fmt, clipped) <$> walk_steps fuel w fmt limit next following (n + 1)
            else walk_steps fuel w fmt limit next following n
        end
      else Some []
  end.

(** Every step moves the cursor a day or more. *)
Definition walk_fuel (w : Window) (cursor : Z) : nat := Z.to_nat ((w_until w - cursor) / DAY + 1).

Definition walk (w : Window) (period : Period) (fmt : string) (limit : Z) (next : Z → option Z) :
    option (list (string * Window)) :=
  match opening w period with
  | None => Some []
  | Some cursor => walk_steps (walk_fuel w cursor) w fmt limit next cursor 0
  end.

Definition buckets_upto (w : Window) (period : Period) (limit : Z) : option (list (string * Window)) :=
  walk w period (key_format period) limit (next_of period).

(** [usize::MAX] is no limit: [buckets_total] discharges the [expect]. *)
Definition buckets (w : Window) (period : Period) : list (string * Window) :=
  default [] (buckets_upto w period u64_max).
Definition days (w : Window) := buckets w Day.
Definition weeks (w : Window) := buckets w Week.
Definition months (w : Window) := buckets w Month.
Definition years (w : Window) := buckets w Year.

(** ** Periods partition the calendar *)

Context `{!CalendarLaws}.

(** [c] opens a period. *)
Definition opens (p : Period) (c : Z) : Prop := opening_of p c = Some c.

Lemma from_timestamp_Some t u : from_timestamp t = Some u ↔ in_calendar t = true ∧ u = t.
Proof. unfold from_timestamp. destruct (in_calendar t); naive_solver. Qed.

Lemma day_pos : 0 < DAY. Proof. done. Qed.

Lemma opening_le p t c :
  opening_of p t = Some c → in_calendar t = true ∧ in_calendar c = true ∧ c ≤ t ∧ c mod DAY = 0.
Proof.
  unfold opening_of. rewrite bind_Some. intros (u & [Ht ->]%from_timestamp_Some & Hc).
  pose proof (Z.mod_pos_bound t DAY day_pos). pose proof (Z.div_mod t DAY ltac:(done)).
  destruct p.
  - injection Hc as <-. split_and!; [done|by apply midnight_in|rewrite midnight_spec; lia|].
    rewrite midnight_spec. apply Z.mod_divide; [done|]. exists (t / DAY). lia.
  - apply sub_days_spec in Hc as [-> Hin]. rewrite weekday_spec, midnight_spec in *.
    pose proof (Z.mod_pos_bound (t / DAY + 3) 7 ltac:(lia)). split_and!; [done|done|unfold DAY in *; lia|].
    apply Z.mod_divide; [done|]. exists (t / DAY - (t / DAY + 3) mod 7). lia.
  - pose proof (with_ymd_midnight _ _ _ _ Hc) as [? ?]. split_and!; [done|done| |done].
    apply with_ymd_first in Hc as (_ & _ & Hle). apply Hle; [done|]. right. cbn. lia.
  - pose proof (with_ymd_midnight _ _ _ _ Hc) as [? ?]. split_and!; [done|done| |done].
    apply with_ymd_first in Hc as (_ & _ & Hle). apply Hle; [done|]. right. cbn.
    pose proof (month_range t Ht). lia.
Qed.

Lemma opens_mod p c : opens p c → in_calendar c = true ∧ c mod DAY = 0.
Proof. intros Hc. apply opening_le in Hc. naive_solver. Qed.

Lemma midnight_self c : c mod DAY = 0 → midnight c = c.
Proof. intros Hc. rewrite midnight_spec. lia. Qed.

Lemma opening_intro p t c :
  in_calendar t = true →
  match p with
  | Day => midnight t = c
  | Week => checked_sub_days (midnight t) (num_days_from_monday t) = Some c
  | Month => with_ymd (year t) (month t) 1 = Some c
  | Year => with_ymd (year t) 1 1 = Some c
  end ↔ opening_of p t = Some c.
Proof.
  intros Ht. unfold opening_of, from_timestamp. rewrite Ht. cbn. destruct p; naive_solver.
Qed.

Lemma opening_opens p t c : opening_of p t = Some c → opens p c.
Proof.
  intros Hc. destruct (opening_le p t c Hc) as (Ht & Hin & Hle & Hmod). unfold opens.
  apply opening_intro in Hc; [|done]. apply opening_intro; [done|].
  destruct p.
  - by apply midnight_self.
  - rewrite midnight_self by done. apply sub_days_spec in Hc as [-> _]. apply sub_days_spec. split; [|done].
    rewrite !weekday_spec, midnight_spec in *. unfold DAY in *. Z.to_euclidean_division_equations; lia.
  - by destruct (with_ymd_first _ _ _ Hc) as (-> & -> & _).
  - by destruct (with_ymd_first _ _ _ Hc) as (-> & _ & _).
Qed.

(** The month after, as [next_month] names it. *)
Definition succ_month (y m : Z) : Z * Z := if decide (m = 12) then (y + 1, 1) else (y, m + 1).

Lemma next_month_spec c d :
  in_calendar c = true → next_month c = Some d →
  year d = (succ_month (year c) (month c)).1 ∧ month d = (succ_month (year c) (month c)).2 ∧
  with_ymd (year d) (month d) 1 = Some d ∧
  ∀ t, in_calendar t = true → (t < d ↔ ym_le (year t, month t) (year c, month c)).
Proof.
  intros Hc. pose proof (month_range c Hc). unfold next_month, succ_month.
  case_decide; intros Hd; pose proof Hd as (E1 & E2 & Hle)%with_ymd_first; cbn; rewrite E1, E2;
    (split_and!; [done|done|done|]); intros t Ht; specialize (Hle t Ht); pose proof (month_range t Ht);
    unfold ym_le in *; cbn in *; lia.
Qed.

Lemma next_year_spec c d :
  with_ymd (year c + 1) 1 1 = Some d →
  with_ymd (year d) 1 1 = Some d ∧ ∀ t, in_calendar t = true → (t < d ↔ year t ≤ year c).
Proof.
  intros Hd. pose proof Hd as (E1 & E2 & Hle)%with_ymd_first. rewrite E1. split; [done|].
  intros t Ht. specialize (Hle t Ht). pose proof (month_range t Ht). unfold ym_le in Hle. cbn in Hle. lia.
Qed.

(** A whole day at least, from one opening to the next. *)
Lemma next_opens p c d : opens p c → next_of p c = Some d → c + DAY ≤ d ∧ opens p d.
Proof.
  intros Ho Hd. destruct (opens_mod p c Ho) as [Hc Hm].
  assert (c < d → d mod DAY = 0 → c + DAY ≤ d) as Hday.
  { unfold DAY in *. intros. Z.to_euclidean_division_equations; lia. }
  unfold opens in *. destruct p; cbn [next_of] in Hd.
  - apply add_days_spec in Hd as [-> Hd]. split; [lia|]. apply opening_intro; [done|].
    apply midnight_self. unfold DAY in *. Z.to_euclidean_division_equations; lia.
  - apply add_days_spec in Hd as [-> Hd]. split; [unfold DAY; lia|].
    apply opening_intro in Ho; [|done]. apply opening_intro; [done|]. apply sub_days_spec.
    apply sub_days_spec in Ho as [Ho _]. split; [|done].
    rewrite !weekday_spec, !midnight_spec in *. unfold DAY in *. Z.to_euclidean_division_equations; lia.
  - destruct (next_month_spec c d Hc Hd) as (_ & _ & Hs & Hlt).
    destruct (with_ymd_midnight _ _ _ _ Hs) as [Hdm Hd'].
    split; [|by apply opening_intro]. apply Hday; [|done]. apply Hlt; [done|]. right. cbn. lia.
  - destruct (next_year_spec c d Hd) as (Hs & Hlt). destruct (with_ymd_midnight _ _ _ _ Hs) as [Hdm Hd'].
    split; [|by apply opening_intro]. apply Hday; [|done]. by apply Hlt.
Qed.

(** Every instant before the next opening is in the period of this one. *)
Lemma same_period p c d t :
  opens p c → next_of p c = Some d → c ≤ t < d → opening_of p t = Some c.
Proof.
  intros Ho Hd Ht. destruct (opens_mod p c Ho) as [Hc Hm].
  destruct (next_opens p c d Ho Hd) as [_ [Hd' _]%opens_mod].
  assert (in_calendar t = true) as Hin by (apply (in_calendar_convex c d); [done|done|lia]).
  unfold opens in Ho. apply opening_intro in Ho; [|done]. apply opening_intro; [done|].
  destruct p; cbn [next_of] in Hd.
  - apply add_days_spec in Hd as [-> _]. rewrite midnight_spec. unfold DAY in *.
    Z.to_euclidean_division_equations; lia.
  - apply add_days_spec in Hd as [-> _]. apply sub_days_spec in Ho as [Ho _]. apply sub_days_spec. split; [|done].
    rewrite !weekday_spec, !midnight_spec in *. unfold DAY in *. Z.to_euclidean_division_equations; lia.
  - destruct (next_month_spec c d Hc Hd) as (_ & _ & _ & Hlt).
    pose proof (proj1 (Hlt t Hin) ltac:(lia)) as H1.
    destruct (with_ymd_first _ _ _ Ho) as (_ & _ & Hle).
    pose proof (proj1 (Hle t Hin) ltac:(lia)) as H2. unfold ym_le in *; cbn in *.
    assert (year t = year c) as -> by lia. by assert (month t = month c) as -> by lia.
  - destruct (next_year_spec c d Hd) as (_ & Hlt).
    pose proof (proj1 (Hlt t Hin) ltac:(lia)) as H1.
    destruct (with_ymd_first _ _ _ Ho) as (_ & _ & Hle).
    pose proof (proj1 (Hle t Hin) ltac:(lia)) as H2. unfold ym_le in *; cbn in *.
    by assert (year t = year c) as -> by lia.
Qed.

Lemma before_next p t c d : opening_of p t = Some c → next_of p c = Some d → t < d.
Proof.
  intros Hc Hd. pose proof (opening_le p t c Hc) as (Ht & Hin & Hle & Hm).
  apply opening_intro in Hc; [|done]. destruct p; cbn [next_of] in Hd.
  - apply add_days_spec in Hd as [-> _]. subst c. rewrite midnight_spec.
    pose proof (Z.mod_pos_bound t DAY day_pos). lia.
  - apply add_days_spec in Hd as [-> _]. apply sub_days_spec in Hc as [-> _].
    rewrite weekday_spec, midnight_spec. unfold DAY. Z.to_euclidean_division_equations; lia.
  - destruct (next_month_spec c d Hin Hd) as (_ & _ & _ & Hlt). apply Hlt; [done|].
    destruct (with_ymd_first _ _ _ Hc) as (-> & -> & _). right. cbn. lia.
  - destruct (next_year_spec c d Hd) as (_ & Hlt). apply Hlt; [done|].
    destruct (with_ymd_first _ _ _ Hc) as (-> & _ & _). lia.
Qed.

(** ** The walk tiles the window *)

(** The walk with no limit. *)
Fixpoint steps (fuel : nat) (w : Window) (p : Period) (cursor : Z) : list (string * Window) :=
  match fuel with
  | O => []
  | S fuel =>
      if decide (cursor < w_until w) then
        match next_of p cursor with
        | None => []
        | Some following =>
            let clipped := mkWindow (Z.max cursor (w_from w)) (Z.min following (w_until w)) in
            if decide (w_from clipped < w_until clipped)
            then (format cursor (key_format p), clipped) :: steps fuel w p following
            else steps fuel w p following
        end
      else []
  end.

Lemma walk_steps_limit fuel w p limit cursor n :
  0 ≤ n ≤ limit →
  walk_steps fuel w (key_format p) limit (next_of p) cursor n =
    let l := steps fuel w p cursor in
    if decide (n + Z.of_nat (length l) ≤ limit) then Some l else None.
Proof.
  revert cursor n. induction fuel as [|fuel IH]; intros cursor n Hn; cbn -[Z.of_nat].
  - by rewrite decide_True by (cbn; lia).
  - case_decide; [|by rewrite decide_True by (cbn; lia)].
    destruct (next_of p cursor) as [following|]; [|by rewrite decide_True by (cbn; lia)].
    case_decide; [|by apply IH]. case_decide as Hl.
    + rewrite decide_False; [done|]. cbn [length]. lia.
    + rewrite IH by lia. cbn zeta. cbn [length]. case_decide; case_decide; [done|lia|lia|done].
Qed.

Lemma steps_length fuel w p cursor : (length (steps fuel w p cursor) ≤ fuel)%nat.
Proof.
  revert cursor. induction fuel as [|fuel IH]; intros cursor; cbn; [lia|].
  case_decide; [|cbn; lia]. destruct (next_of p cursor) as [following|]; [|cbn; lia].
  specialize (IH following). case_decide; cbn; lia.
Qed.

(** [l] tiles [a, b): adjacent non-empty windows, each inside the period its
    key names. *)
Fixpoint tiles (p : Period) (a b : Z) (l : list (string * Window)) : Prop :=
  match l with
  | [] => a = b
  | (key, x) :: l =>
      w_from x = a ∧ a < w_until x ∧
      (∀ t, contains x t = true → ∃ c, opening_of p t = Some c ∧ key = format c (key_format p)) ∧
      tiles p (w_until x) b l
  end.

(** Where the walk stops: the end of the window, or the calendar's. *)
Definition stops (w : Window) (p : Period) (stop : Z) : Prop :=
  w_from w ≤ stop ≤ w_until w ∧
  (stop = w_until w ∨ ∃ c, opens p c ∧ next_of p c = None ∧ c ≤ stop).

Lemma steps_tile fuel w p c :
  opens p c → w_from w < w_until w →
  c ≤ w_from w ∧ (∀ d, next_of p c = Some d → w_from w < d) ∨ w_from w < c →
  c ≤ w_until w ∨ w_from w < c →
  w_until w - c < Z.of_nat fuel * DAY →
  ∃ stop, tiles p (Z.min (w_until w) (Z.max c (w_from w))) stop (steps fuel w p c) ∧ stops w p stop.
Proof.
  revert c. induction fuel as [|fuel IH]; intros c Ho Hw Hc Hcu Hfuel.
  { cbn. eexists. split; [reflexivity|]. split; [lia|]. left. lia. }
  cbn [steps]. case_decide as Hlt; [|exists (w_until w); split; [cbn; lia|split; [lia|by left]]].
  destruct (next_of p c) as [d|] eqn:Hd.
  2: { eexists. split; [reflexivity|]. split; [lia|]. right. exists c. split_and!; [done|done|lia]. }
  destruct (next_opens p c d Ho Hd) as [Hcd Hod]. pose proof day_pos.
  assert (w_from w < d) as Hfd by (destruct Hc as [[_ Hc]|Hc]; [by apply Hc|lia]).
  cbn [w_from w_until]. rewrite decide_True by lia.
  destruct (IH d) as (stop & Ht & Hs); [done|done|by right|by right|lia|].
  exists stop. split; [|done]. cbn [tiles w_from w_until].
  split_and!; [lia|lia| |].
  - intros t Hin%window_contains_spec. cbn in Hin. exists c. split; [|done]. apply (same_period p c d); [done|done|lia].
  - by replace (Z.min d (w_until w)) with (Z.min (w_until w) (Z.max d (w_from w))) by lia.
Qed.

Lemma walk_fuel_enough w c : w_until w - c < Z.of_nat (walk_fuel w c) * DAY.
Proof.
  unfold walk_fuel, DAY. destruct (decide (w_until w - c < 0)).
  - pose proof (Nat2Z.is_nonneg (Z.to_nat ((w_until w - c) / 86400 + 1))). lia.
  - rewrite Z2Nat.id; Z.to_euclidean_division_equations; lia.
Qed.

Lemma buckets_upto_steps w p limit c :
  opening w p = Some c → 0 ≤ limit →
  buckets_upto w p limit =
    let l := steps (walk_fuel w c) w p c in
    if decide (Z.of_nat (length l) ≤ limit) then Some l else None.
Proof. intros Hc Hl. unfold buckets_upto, walk. rewrite Hc. by rewrite walk_steps_limit by lia. Qed.

Lemma buckets_steps w p c :
  is_i64 (w_until w) → opening w p = Some c → buckets w p = steps (walk_fuel w c) w p c.
Proof.
  intros Hu Hc. unfold buckets. rewrite (buckets_upto_steps _ _ _ c) by done. cbv zeta.
  rewrite decide_True; [done|]. pose proof (steps_length (walk_fuel w c) w p c) as Hl.
  assert (is_i64 c) as Hi by (apply in_calendar_i64; apply opening_le in Hc; naive_solver).
  unfold walk_fuel, is_i64, i64_min, i64_max, u64_max, DAY in *.
  assert ((w_until w - c) / 86400 ≤ 2 ^ 60); [|lia]. apply Z.div_le_upper_bound; lia.
Qed.

Lemma buckets_tile_inner (w : Window) (p : Period) (limit : Z) :
  w_from w < w_until w → is_i64 (w_until w) → is_Some (opening w p) → 0 ≤ limit →
  (∃ stop, tiles p (w_from w) stop (buckets w p) ∧ stops w p stop) ∧
  buckets_upto w p limit =
    (if decide (Z.of_nat (length (buckets w p)) ≤ limit) then Some (buckets w p) else None).
Proof.
  intros Hw Hu [c Hc] Hl. rewrite (buckets_steps _ _ c), (buckets_upto_steps _ _ _ c) by done.
  split; [|done]. pose proof (opening_le _ _ _ Hc) as (_ & _ & Hle & _).
  pose proof (opening_opens _ _ _ Hc) as Ho.
  destruct (steps_tile (walk_fuel w c) w p c) as (stop & Ht & Hs);
    [done|done|left; split; [done|intros d; by apply (before_next p)]|lia|apply walk_fuel_enough|].
  exists stop. split; [|done]. by replace (Z.min _ _) with (w_from w) in Ht by lia.
Qed.

End window.

#[local] Existing Instances Gregorian.gregorian Gregorian.gregorian_laws.

(** Mid-January to early March 2024, by month. *)
Definition early_2024 : Window := mkWindow 1705276800 1709424000.

