(* ===== verification/Address.v ===== *)
(** * Document addresses: the [d] tag

    [crates/stats/src/publish/address.rs]: the grammar, its parser and its
    rendering. A type the source builds through a checking constructor alone
    is its representation here, with the check as a predicate ([year_ok],
    [address_ok], ...) every constructor and the parser establish. *)

From S2P Require Import Prelude Calendar.
From S2P Require Window.

#[local] Open Scope Z_scope.

(** ** Vocabulary *)

Inductive Report : Type := Summary | Orders | Volume | Market | Disputes | DevFees | Instances | Compare.
Inductive Window : Type := Hours24 | Days7 | Days30 | Days90 | All.
Inductive Resolution : Type := Daily | Weekly | Monthly.
#[export] Instance report_eq_dec : EqDecision Report.
Proof. solve_decision. Defined.
#[export] Instance addr_window_eq_dec : EqDecision Window.
Proof. solve_decision. Defined.
#[export] Instance resolution_eq_dec : EqDecision Resolution.
Proof. solve_decision. Defined.

Definition report_all : list Report :=
  [Summary; Orders; Volume; Market; Disputes; DevFees; Instances; Compare].
Definition report_as_str (r : Report) : string :=
  match r with
  | Summary => "summary" | Orders => "orders" | Volume => "volume" | Market => "market"
  | Disputes => "disputes" | DevFees => "dev-fees" | Instances => "instances" | Compare => "compare"
  end.
Definition report_parse (text : string) : option Report :=
  snd <$> list_find (λ r, report_as_str r = text) report_all.

Definition window_all : list Window := [Hours24; Days7; Days30; Days90; All].
Definition window_as_str (w : Window) : string :=
  match w with Hours24 => "24h" | Days7 => "7d" | Days30 => "30d" | Days90 => "90d" | All => "all" end.
Definition window_parse (text : string) : option Window :=
  snd <$> list_find (λ w, window_as_str w = text) window_all.

Definition resolution_all : list Resolution := [Daily; Weekly; Monthly].
Definition resolution_as_str (r : Resolution) : string :=
  match r with Daily => "daily" | Weekly => "weekly" | Monthly => "monthly" end.
Definition resolution_parse (text : string) : option Resolution :=
  snd <$> list_find (λ r, resolution_as_str r = text) resolution_all.

(** ** Years, months, buckets *)

(** [Year::new] and [Month::new]; [Display] pads. *)
Definition year_new (year : Z) : option Z := if decide (0 ≤ year ≤ 9999) then Some year else None.
Definition month_new (month : Z) : option Z := if decide (1 ≤ month ≤ 12) then Some month else None.
Definition show_year (year : Z) : string := pad 4 year.
Definition show_month (month : Z) : string := pad 2 month.

Inductive Bucket : Type := BMonth (year month : Z) | BYear (year : Z).
#[export] Instance bucket_eq_dec : EqDecision Bucket.
Proof. solve_decision. Defined.

(** Exactly [n] ASCII digits, as a number ([u32] holds any of four). *)
Definition fixed_digits (text : string) (n : nat) : option Z :=
  if bool_decide (String.length text = n) && forall_char is_ascii_digit text then digits text else None.
Definition parse_year (text : string) : option Z := fixed_digits text 4 ≫= year_new.

Definition bucket_parse (text : string) : option Bucket :=
  match split_once "-" text with
  | None => BYear <$> parse_year text
  | Some (year_text, month_text) =>
      year ← parse_year year_text;
      month ← fixed_digits month_text 2 ≫= month_new;
      Some (BMonth year month)
  end.
Definition show_bucket (b : Bucket) : string :=
  match b with
  | BMonth year month => show_year year +:+ "-" +:+ show_month month
  | BYear year => show_year year
  end.

Definition fits (b : Bucket) (r : Resolution) : bool :=
  match b, r with
  | BMonth _ _, (Daily | Weekly) => true
  | BYear _, Monthly => true
  | _, _ => false
  end.

Section bucket_window.
Context {cal : Calendar}.

(** [Bucket::for_week_starting]: [monday] at its midnight. *)
Definition for_week_starting (monday : Z) : option Bucket :=
  year ← year_new (year monday);
  month ← month_new (month monday);
  Some (BMonth year month).

(** The instant a month opens, [i64::MAX] past the calendar. *)
Definition first_of (year month : Z) : Z := default i64_max (with_ymd year month 1).
Definition bucket_window (b : Bucket) : Window.Window :=
  match b with
  | BMonth year month =>
      if decide (month = 12) then Window.mkWindow (first_of year 12) (first_of (year + 1) 1)
      else Window.mkWindow (first_of year month) (first_of year (month + 1))
  | BYear year => Window.mkWindow (first_of year 1) (first_of (year + 1) 1)
  end.
End bucket_window.

Record Partition : Type := mkPartition { pt_resolution : Resolution; pt_bucket : Bucket }.
#[export] Instance partition_eq_dec : EqDecision Partition.
Proof. solve_decision. Defined.
Definition partition_new (resolution : Resolution) (bucket : Bucket) : option Partition :=
  if fits bucket resolution then Some (mkPartition resolution bucket) else None.

(** ** Scopes *)

Inductive Scope : Type := ScopeInstance (pubkey : string) | ScopeNetwork (network : string).
#[export] Instance scope_eq_dec : EqDecision Scope.
Proof. solve_decision. Defined.

Definition NETWORKS : list string := ["mainnet"; "testnet"; "signet"; "regtest"].
Definition is_lower_hex (a : ascii) : bool :=
  is_ascii_digit a || bool_decide (97 ≤ N_of_ascii a ≤ 102)%N.

Definition scope_instance (pubkey : string) : option Scope :=
  if bool_decide (String.length pubkey = 64%nat) && forall_char is_lower_hex pubkey
  then Some (ScopeInstance pubkey) else None.
Definition scope_network (network : string) : option Scope :=
  if decide (network ∈ NETWORKS) then Some (ScopeNetwork network) else None.
Definition scope_parse (kind value : string) : option Scope :=
  if decide (kind = "i") then scope_instance value
  else if decide (kind = "n") then scope_network value
  else None.
Definition show_scope (s : Scope) : string :=
  match s with ScopeInstance pubkey => ":i:" +:+ pubkey | ScopeNetwork network => ":n:" +:+ network end.

(** ** Addresses *)

Inductive Address : Type :=
| AIndex (year : option Z)
| AWindow (report : Report) (window : Window) (scope : option Scope)
| ASeries (report : Report) (partition : Partition) (scope : option Scope).
#[export] Instance address_eq_dec : EqDecision Address.
Proof. solve_decision. Defined.

Inductive ParseError : Type :=
| EmptyAddress
| ReportError (input found : string)
| WindowError (input found : string)
| ResolutionError (input found : string)
| BucketError (input found resolution : string)
| YearError (input found : string)
| ScopeError (input found : string)
| ShapeError (input : string) (found : Z) (expected : string).

(** The optional trailing scope, from what followed the fixed segments. *)
Definition parse_scope (input : string) (rest : list string) (expected : string) :
    Result ParseError (option Scope) :=
  match rest with
  | [] => Ok None
  | [kind; value] => Some <$> ok_or (scope_parse kind value) (ScopeError input (kind +:+ ":" +:+ value))
  | _ => Err (ShapeError input (Z.of_nat (length (split_char ":" input))) expected)
  end.

Definition parse_series (input report resolution bucket : string) (rest : list string) :
    Result ParseError Address :=
  report ← ok_or (report_parse report) (ReportError input report);
  resolution ← ok_or (resolution_parse resolution) (ResolutionError input resolution);
  partition ← ok_or (bucket_parse bucket ≫= partition_new resolution)
                (BucketError input bucket (resolution_as_str resolution));
  scope ← parse_scope input rest "4 or 6";
  Ok (ASeries report partition scope).

Definition parse_window (input report window : string) (rest : list string) :
    Result ParseError Address :=
  report ← ok_or (report_parse report) (ReportError input report);
  window ← ok_or (window_parse window) (WindowError input window);
  scope ← parse_scope input rest "2 or 4";
  Ok (AWindow report window scope).

Definition parse (text : string) : Result ParseError Address :=
  if decide (text = "") then Err EmptyAddress
  else
    match split_char ":" text with
    | [] => Err (ReportError text text)
    | [one] => if decide (one = "index") then Ok (AIndex None) else Err (ReportError text text)
    | first :: second :: rest =>
        if decide (first = "index" ∧ rest = []) then
          match parse_year second with
          | Some year => Ok (AIndex (Some year))
          | None => Err (YearError text second)
          end
        else
          match rest with
          | resolution :: bucket :: rest' =>
              if decide (first = "series") then parse_series text second resolution bucket rest'
              else parse_window text first second rest
          | _ => parse_window text first second rest
          end
    end.

Definition rendered (scope : option Scope) : string :=
  match scope with Some scope => show_scope scope | None => "" end.

(** [Display]. *)
Definition show (a : Address) : string :=
  match a with
  | AIndex None => "index"
  | AIndex (Some year) => "index:" +:+ show_year year
  | AWindow report window scope =>
      report_as_str report +:+ ":" +:+ window_as_str window +:+ rendered scope
  | ASeries report partition scope =>
      "series:" +:+ report_as_str report +:+ ":" +:+ resolution_as_str (pt_resolution partition)
        +:+ ":" +:+ show_bucket (pt_bucket partition) +:+ rendered scope
  end.

(** ** What the checked constructors build *)

Definition year_ok (year : Z) : Prop := 0 ≤ year ≤ 9999.
Definition month_ok (month : Z) : Prop := 1 ≤ month ≤ 12.
Definition bucket_ok (b : Bucket) : Prop :=
  match b with BMonth year month => year_ok year ∧ month_ok month | BYear year => year_ok year end.
Definition scope_ok (s : Scope) : Prop :=
  match s with
  | ScopeInstance pubkey => scope_instance pubkey = Some s
  | ScopeNetwork network => scope_network network = Some s
  end.
Definition address_ok (a : Address) : Prop :=
  match a with
  | AIndex year => ∀ y, year = Some y → year_ok y
  | AWindow _ _ scope => ∀ s, scope = Some s → scope_ok s
  | ASeries _ partition scope =>
      fits (pt_bucket partition) (pt_resolution partition) = true ∧ bucket_ok (pt_bucket partition) ∧
      ∀ s, scope = Some s → scope_ok s
  end.

(** *** Digits *)

Lemma year_new_Some y z : year_new y = Some z ↔ z = y ∧ year_ok y.
Proof. unfold year_new, year_ok. case_decide; naive_solver. Qed.
Lemma month_new_Some m z : month_new m = Some z ↔ z = m ∧ month_ok m.
Proof. unfold month_new, month_ok. case_decide; naive_solver. Qed.

Lemma pad_back width n :
  (0 < width)%nat → 0 ≤ n < 10 ^ Z.of_nat width →
  String.length (pad width n) = width ∧ fixed_digits (pad width n) width = Some n.
Proof.
  intros Hw Hn. destruct (pad_spec width n Hw Hn) as [Hl Hd]. split; [done|].
  unfold fixed_digits. by rewrite bool_decide_true, (digits_all _ _ Hd).
Qed.

Lemma fixed_digits_Some text n d :
  fixed_digits text n = Some d → String.length text = n ∧ digits text = Some d.
Proof.
  unfold fixed_digits. destruct (bool_decide _) eqn:E; [|done]. apply bool_decide_eq_true in E.
  destruct (forall_char _ _); cbn; [done|done].
Qed.

Lemma fixed_digits_pad width text d :
  (0 < width)%nat → fixed_digits text width = Some d → 0 ≤ d < 10 ^ Z.of_nat width → text = pad width d.
Proof.
  intros Hb [Hlen Hd]%fixed_digits_Some Hr.
  destruct (pad_back width d Hb Hr) as [Hl [_ Hp]%fixed_digits_Some].
  apply (digits_inj _ _ d); congruence.
Qed.

Lemma year_text text y : parse_year text = Some y ↔ year_ok y ∧ text = show_year y.
Proof.
  unfold parse_year, show_year, year_ok. rewrite bind_Some. setoid_rewrite year_new_Some. split.
  - intros (d & Hd & -> & Hr). split; [done|].
    apply (fixed_digits_pad 4); [lia|done|unfold year_ok in Hr; lia].
  - intros [Hr ->]. exists y. split; [|done]. apply (pad_back 4); lia.
Qed.

Lemma month_text text m : fixed_digits text 2 ≫= month_new = Some m ↔ month_ok m ∧ text = show_month m.
Proof.
  unfold show_month, month_ok. rewrite bind_Some. setoid_rewrite month_new_Some. split.
  - intros (d & Hd & -> & Hr). split; [done|].
    apply (fixed_digits_pad 2); [lia|done|unfold month_ok in Hr; lia].
  - intros [Hr ->]. exists m. split; [|done]. apply (pad_back 2); lia.
Qed.

Lemma show_year_plain c y : year_ok y → is_ascii_digit c = false → contains_char c (show_year y) = false.
Proof.
  intros Hy Hc. destruct (pad_back 4 y ltac:(lia) ltac:(unfold year_ok in Hy; lia))
    as [_ [_ Hd]%fixed_digits_Some]. exact (digits_no_char c _ y Hd Hc).
Qed.
Lemma show_month_plain c m : month_ok m → is_ascii_digit c = false → contains_char c (show_month m) = false.
Proof.
  intros Hm Hc. destruct (pad_back 2 m ltac:(lia) ltac:(unfold month_ok in Hm; lia))
    as [_ [_ Hd]%fixed_digits_Some]. exact (digits_no_char c _ m Hd Hc).
Qed.

(** *** Buckets *)

Lemma split_once_none c s : split_once c s = None ↔ contains_char c s = false.
Proof.
  induction s as [|a s IH]; cbn; [done|]. case_decide as Ha.
  - subst. by rewrite bool_decide_eq_true_2.
  - rewrite bool_decide_eq_false_2 by done. cbn. rewrite <- IH. by destruct (split_once c s) as [[]|].
Qed.

Lemma split_once_some c s l r :
  split_once c s = Some (l, r) ↔ s = l +:+ String c r ∧ contains_char c l = false.
Proof.
  revert l. induction s as [|a s IH]; intros l; cbn [split_once].
  - split; [done|]. intros [H _]. destruct l; discriminate.
  - case_decide as Ha.
    + subst a. split; [by intros [= <- <-]|]. intros [H Hl]. destruct l as [|b l].
      * injection H as ->. done.
      * change (String b l +:+ String c r) with (String b (l +:+ String c r)) in H. injection H as <- _.
        cbn in Hl. by rewrite bool_decide_eq_true_2 in Hl.
    + split.
      * destruct (split_once c s) as [[l' r']|] eqn:E; [|done]. intros [= <- <-].
        destruct (proj1 (IH l') eq_refl) as [-> Hl]. split; [done|]. cbn. by rewrite bool_decide_eq_false_2.
      * intros [H Hl]. destruct l as [|b l]; [injection H as -> _; done|].
        change (String b l +:+ String c r) with (String b (l +:+ String c r)) in H. injection H as -> Hs.
        cbn in Hl. apply orb_false_iff in Hl as [_ Hl]. by rewrite (proj2 (IH l) (conj Hs Hl)).
Qed.

Lemma bucket_text text b : bucket_parse text = Some b ↔ bucket_ok b ∧ text = show_bucket b.
Proof.
  unfold bucket_parse. destruct (split_once "-" text) as [[y m]|] eqn:E.
  - apply split_once_some in E as [-> Hy]. split.
    + intros (y' & [Hy' ->]%year_text & (m' & [Hm' ->]%month_text & [= <-])%bind_Some)%bind_Some. done.
    + destruct b as [y' m'|y']; intros [Hok H]; cbn in Hok, H.
      * destruct Hok as [Hy' Hm'].
        assert (Some (y, m) = Some (show_year y', show_month m')) as [= -> ->].
        { transitivity (split_once "-" (y +:+ String "-" m)); [symmetry; by apply split_once_some|].
          apply split_once_some. split; [done|]. by apply show_year_plain. }
        apply bind_Some. exists y'. split; [by apply year_text|].
        apply bind_Some. exists m'. split; [by apply month_text|done].
      * exfalso. pose proof (show_year_plain "-" y' Hok eq_refl) as Hc. rewrite <- H, contains_char_app in Hc.
        cbn in Hc. by rewrite orb_true_r in Hc.
  - apply split_once_none in E. split.
    + intros (y & [Hy ->]%year_text & ->)%fmap_Some. done.
    + destruct b as [y m|y]; intros [Hok ->];
        [|apply fmap_Some; exists y; split; [by apply year_text|done]]. exfalso.
      cbn in E. rewrite contains_char_app in E. cbn in E. by rewrite orb_true_r in E.
Qed.

(** *** Words *)

Lemma report_text text r : report_parse text = Some r ↔ text = report_as_str r.
Proof.
  split; [|by intros ->; destruct r]. unfold report_parse.
  intros ([i x] & (_ & H & _)%list_find_Some & ->)%fmap_Some. done.
Qed.
Lemma window_text text w : window_parse text = Some w ↔ text = window_as_str w.
Proof.
  split; [|by intros ->; destruct w]. unfold window_parse.
  intros ([i x] & (_ & H & _)%list_find_Some & ->)%fmap_Some. done.
Qed.
Lemma resolution_text text r : resolution_parse text = Some r ↔ text = resolution_as_str r.
Proof.
  split; [|by intros ->; destruct r]. unfold resolution_parse.
  intros ([i x] & (_ & H & _)%list_find_Some & ->)%fmap_Some. done.
Qed.

Definition scope_segments (scope : option Scope) : list string :=
  match scope with
  | None => []
  | Some (ScopeInstance pubkey) => ["i"; pubkey]
  | Some (ScopeNetwork network) => ["n"; network]
  end.
Definition scope_good (scope : option Scope) : Prop := ∀ s, scope = Some s → scope_ok s.

Lemma scope_instance_Some p s : scope_instance p = Some s → s = ScopeInstance p.
Proof. unfold scope_instance. destruct (_ && _); congruence. Qed.
Lemma scope_network_Some p s : scope_network p = Some s → s = ScopeNetwork p.
Proof. unfold scope_network. case_decide; congruence. Qed.

Lemma parse_scope_Ok input rest expected scope :
  parse_scope input rest expected = Ok scope ↔ rest = scope_segments scope ∧ scope_good scope.
Proof.
  unfold scope_good. split.
  - destruct rest as [|kind [|value [|]]]; cbn; try done; [by intros [= <-]|].
    intros (s & Hs%ok_or_Ok & ->)%fmap_Ok. unfold scope_parse in Hs. case_decide as Hi; [|case_decide as Hn; [|done]].
    + subst. pose proof (scope_instance_Some _ _ Hs) as ->. split; [done|]. by intros ? [= <-].
    + subst. pose proof (scope_network_Some _ _ Hs) as ->. split; [done|]. by intros ? [= <-].
  - intros [-> Hok]. destruct scope as [[p|p]|]; cbn [scope_segments parse_scope]; [| |done];
      specialize (Hok _ eq_refl); unfold scope_ok in Hok; unfold scope_parse.
    + rewrite decide_True by done. by rewrite Hok.
    + rewrite decide_False, decide_True by done. by rewrite Hok.
Qed.

Lemma hex_plain c p : forall_char is_lower_hex p = true → is_lower_hex c = false → contains_char c p = false.
Proof.
  intros Hp Hc. induction p as [|a p IH]; cbn in *; [done|]. apply andb_prop in Hp as [Ha Hp].
  rewrite IH by done. rewrite orb_false_r. apply bool_decide_eq_false. congruence.
Qed.

Lemma scope_segments_plain scope :
  scope_good scope → Forall (λ s, contains_char ":" s = false) (scope_segments scope).
Proof.
  intros Hok. destruct scope as [[p|p]|]; [| |constructor]; specialize (Hok _ eq_refl); cbn in Hok |- *;
    (repeat constructor).
  - unfold scope_instance in Hok. destruct (bool_decide _); [|done]. cbn [andb] in Hok.
    destruct (forall_char _ p) eqn:E; [|done]. by apply (hex_plain ":" p).
  - unfold scope_network in Hok. case_decide as Hn; [|done]. unfold NETWORKS in Hn.
    by repeat (apply elem_of_cons in Hn as [->|Hn]; [reflexivity|]); apply elem_of_nil in Hn.
Qed.

(** *** Parsing and rendering are inverses *)

Definition segments (a : Address) : list string :=
  match a with
  | AIndex None => ["index"]
  | AIndex (Some year) => ["index"; show_year year]
  | AWindow report window scope => report_as_str report :: window_as_str window :: scope_segments scope
  | ASeries report partition scope =>
      "series" :: report_as_str report :: resolution_as_str (pt_resolution partition)
        :: show_bucket (pt_bucket partition) :: scope_segments scope
  end.

Lemma join_cons2 sep s t l : join sep (s :: t :: l) = s +:+ sep +:+ join sep (t :: l).
Proof. done. Qed.
Lemma join_scope s scope : join ":" (s :: scope_segments scope) = s +:+ rendered scope.
Proof. destruct scope as [[p|p]|]; cbn [scope_segments rendered show_scope]; [done|done|by rewrite string_app_nil_r]. Qed.

Lemma show_join a : show a = join ":" (segments a).
Proof.
  destruct a as [[y|]|r w scope|r p scope]; cbn [segments show]; [done|done| |];
    by rewrite !join_cons2, join_scope.
Qed.

Lemma plain_bucket b : bucket_ok b → contains_char ":" (show_bucket b) = false.
Proof.
  destruct b as [y m|y]; cbn [show_bucket bucket_ok].
  - intros [Hy Hm]. rewrite !contains_char_app, show_year_plain, show_month_plain; done.
  - intros Hy. by apply show_year_plain.
Qed.

Lemma segments_plain a : address_ok a → Forall (λ s, contains_char ":" s = false) (segments a).
Proof.
  destruct a as [[y|]|r w scope|r p scope]; cbn [segments address_ok].
  - intros H. repeat constructor. by apply show_year_plain; [apply H|].
  - repeat constructor.
  - intros H. constructor; [by destruct r|]. constructor; [by destruct w|]. by apply scope_segments_plain.
  - intros (_ & Hb & H). constructor; [done|]. constructor; [by destruct r|].
    constructor; [by destruct (pt_resolution p)|]. constructor; [by apply plain_bucket|].
    by apply scope_segments_plain.
Qed.

Lemma partition_text resolution text p :
  bucket_parse text ≫= partition_new resolution = Some p ↔
    pt_resolution p = resolution ∧ text = show_bucket (pt_bucket p) ∧
    fits (pt_bucket p) (pt_resolution p) = true ∧ bucket_ok (pt_bucket p).
Proof.
  rewrite bind_Some. setoid_rewrite bucket_text. unfold partition_new. split.
  - intros (b & [Hb ->] & H). destruct (fits b resolution) eqn:E; [|done]. injection H as <-. done.
  - destruct p as [r b]; cbn. intros (-> & -> & Hf & Hb). exists b. by rewrite Hf.
Qed.

Lemma parse_series_Ok input report resolution bucket rest a :
  parse_series input report resolution bucket rest = Ok a ↔
    ∃ r p scope, a = ASeries r p scope ∧ address_ok a ∧
      segments a = "series" :: report :: resolution :: bucket :: rest.
Proof.
  unfold parse_series. split.
  - intros (r & ->%ok_or_Ok%report_text & H)%bind_Ok.
    apply bind_Ok in H as (res & ->%ok_or_Ok%resolution_text & H).
    apply bind_Ok in H as (p & (<- & -> & Hf & Hb)%ok_or_Ok%partition_text & H).
    apply bind_Ok in H as (scope & [-> Hs]%parse_scope_Ok & [= <-]). by exists r, p, scope.
  - intros (r & p & scope & -> & (Hf & Hb & Hs) & [= <- <- <- <-]).
    apply bind_Ok. exists r. split; [by apply ok_or_Ok, report_text|].
    apply bind_Ok. exists (pt_resolution p). split; [by apply ok_or_Ok, resolution_text|].
    apply bind_Ok. exists p. split; [by apply ok_or_Ok, partition_text|].
    apply bind_Ok. exists scope. split; [by apply parse_scope_Ok|done].
Qed.

Lemma parse_window_Ok input report window rest a :
  parse_window input report window rest = Ok a ↔
    ∃ r w scope, a = AWindow r w scope ∧ address_ok a ∧ segments a = report :: window :: rest.
Proof.
  unfold parse_window. split.
  - intros (r & ->%ok_or_Ok%report_text & H)%bind_Ok.
    apply bind_Ok in H as (w & ->%ok_or_Ok%window_text & H).
    apply bind_Ok in H as (scope & [-> Hs]%parse_scope_Ok & [= <-]). by exists r, w, scope.
  - intros (r & w & scope & -> & Hs & [= <- <- <-]).
    apply bind_Ok. exists r. split; [by apply ok_or_Ok, report_text|].
    apply bind_Ok. exists w. split; [by apply ok_or_Ok, window_text|].
    apply bind_Ok. exists scope. split; [by apply parse_scope_Ok|done].
Qed.

(** What the segments of a string name. *)
Lemma address_parse_Ok text a :
  text ≠ "" → parse text = Ok a ↔ address_ok a ∧ segments a = split_char ":" text.
Proof.
  intros Hne. unfold parse. rewrite decide_False by done.
  assert (Hrep : ∀ r, report_as_str r ≠ "index" ∧ report_as_str r ≠ "series") by (by intros []).
  destruct (split_char ":" text) as [|first [|second rest]] eqn:E.
  - by destruct (split_char_cons ":" text) as (? & ? & ?); congruence.
  - split.
    + case_decide; [|done]. intros [= <-]. by subst.
    + intros [Hok H]. destruct a as [[y|]|r w scope|r p scope]; try done. cbn in H. injection H as <-. done.
  - case_decide as Hi.
    { destruct Hi as [-> ->]. split.
      - destruct (parse_year second) as [y|] eqn:Hy; [|done]. intros [= <-].
        apply year_text in Hy as [Hy ->]. split; [by intros ? [= <-]|done].
      - intros [Hok H]. destruct a as [[y|]|r w scope|r p scope]; try done.
        + injection H as <-. rewrite (proj2 (year_text _ y)); [done|]. split; [by apply Hok|done].
        + injection H as H _. by destruct (Hrep r). }
    assert (Hwin : (∀ res b rest', rest = res :: b :: rest' → first ≠ "series") →
      (parse_window text first second rest = Ok a ↔ address_ok a ∧ segments a = first :: second :: rest)).
    { intros Hns. rewrite parse_window_Ok. split; [naive_solver|]. intros [Hok H].
      destruct a as [[y|]|r w scope|r p scope]; [| |by exists r, w, scope|].
      - injection H as <- <- <-. by destruct Hi.
      - done.
      - injection H as <- <- <-. by edestruct Hns. }
    destruct rest as [|res [|b rest]]; [by apply Hwin|by apply Hwin|].
    case_decide as Hs; [|by apply Hwin; naive_solver]. subst first. rewrite parse_series_Ok.
    split; [naive_solver|]. intros [Hok H].
    destruct a as [[y|]|r w scope|r p scope]; [done|done| |by exists r, p, scope].
    injection H as H _. by destruct (Hrep r).
Qed.

Lemma show_parses a : address_ok a → parse (show a) = Ok a.
Proof.
  intros Hok. assert (show a ≠ "") as Hne.
  { destruct a as [[y|]|r w scope|r p scope]; try done; cbn [show]; by destruct r. }
  apply address_parse_Ok; [done|]. split; [done|]. rewrite show_join. symmetry. apply split_char_join.
  - by destruct a as [[y|]|r w scope|r p scope].
  - by apply segments_plain.
Qed.

(** C27: rendering and parsing an address are inverses: what parses renders to
    the very string it came from, and whatever the checked constructors can
    build parses back to itself. *)
Theorem address_round_trip :
  (∀ text a, parse text = Ok a → show a = text ∧ address_ok a) ∧
  (∀ a, address_ok a → parse (show a) = Ok a).
Proof.
  split.
  - intros text a H. assert (text ≠ "") as Hne by (intros ->; done).
    apply address_parse_Ok in H as [Hok Hs]; [|done]. split; [|done]. rewrite show_join, Hs. apply join_split_char.
  - apply show_parses.
Qed.

Example addresses :
  parse "series:dev-fees:daily:2026-07:n:mainnet" =
    Ok (ASeries DevFees (mkPartition Daily (BMonth 2026 7)) (Some (ScopeNetwork "mainnet"))) ∧
  parse "Summary:30d" = Err (ReportError "Summary:30d" "Summary") ∧
  parse "summary:30d:" = Err (ShapeError "summary:30d:" 3 "2 or 4") ∧
  parse "series:orders:monthly:2026-07" =
    Err (BucketError "series:orders:monthly:2026-07" "2026-07" "monthly").
Proof. vm_compute. repeat split. Qed.
