(* ===== verification/Bucket.v ===== *)
(** * Coverage and period reports

    [crates/stats/src/bucket.rs]: what the archive can speak for, and the walk
    that computes one block of figures per covered period. *)

From S2P Require Import Prelude Calendar Window Metric.
From S2P Require Address.

#[local] Open Scope Z_scope.

Record Coverage : Type := mkCoverage { earliest : option Z; latest : option Z }.
Definition since (e : Z) : Coverage := mkCoverage (Some e) None.
Definition between (e l : Z) : Coverage := mkCoverage (Some e) (Some l).
Definition from_earliest (e : option Z) : Coverage := mkCoverage e None.
Definition from_extent (e l : option Z) : Coverage := mkCoverage e l.

(** Overlap, not containment. *)
Definition covers (c : Coverage) (w : Window) : bool :=
  is_some_and (λ e, bool_decide (e < w_until w)) (earliest c)
  && is_none_or (λ l, bool_decide (w_from w ≤ l)) (latest c).

Section bucket.
Context {cal : Calendar}.

(** The loop over months, each pushed when the grammar can spell it. *)
Fixpoint months_from (fuel : nat) (y m last_y last_m : Z) : list Address.Bucket :=
  match fuel with
  | O => []
  | S fuel =>
      if decide (y < last_y ∨ y = last_y ∧ m ≤ last_m) then
        let bucket := year ← Address.year_new y; month ← Address.month_new m; Some (Address.BMonth year month) in
        let '(y', m') := if decide (m = 12) then (y + 1, 1) else (y, m + 1) in
        match bucket with
        | Some bucket => bucket :: months_from fuel y' m' last_y last_m
        | None => months_from fuel y' m' last_y last_m
        end
      else []
  end.

(** One more than the months between, the loop's bound. *)
Definition months_fuel (y m last_y last_m : Z) : nat := Z.to_nat (12 * (last_y - y) + (last_m - m) + 1).

Definition partitions (c : Coverage) (resolution : Address.Resolution) (now : Z) : list Address.Bucket :=
  match earliest c with
  | Some e =>
      if decide (e ≤ now) then
        let until := match latest c with Some l => Z.min l now | None => now end in
        match from_timestamp e, from_timestamp until with
        | Some first, Some last =>
            match resolution with
            | Address.Monthly =>
                Address.BYear <$> omap Address.year_new (seqZ (year first) (year last - year first + 1))
            | Address.Daily | Address.Weekly =>
                months_from (months_fuel (year first) (month first) (year last) (month last))
                  (year first) (month first) (year last) (month last)
            end
        | _, _ => []
        end
      else []
  | None => []
  end.

(** [walk]: the figures of the periods the archive can speak for; the same
    rows with no value for the rest. *)
Definition walk_bucket (period : Period) (coverage : Coverage)
    (block : string → Window → option Window → list Metric) (entry : string * Window) : list Metric :=
  let '(key, bucket) := entry in
  let previous := preceding bucket period ≫= λ p, if covers coverage p then Some p else None in
  if covers coverage bucket then block key bucket previous
  else missing <$> block key (mkWindow (w_from bucket) (w_from bucket)) None.
Definition walk (window : Window) (period : Period) (coverage : Coverage)
    (block : string → Window → option Window → list Metric) : list Metric :=
  buckets window period ≫= walk_bucket period coverage block.
End bucket.

Lemma covers_spec e l w : covers (between e l) w = true ↔ e < w_until w ∧ w_from w ≤ l.
Proof. unfold covers; cbn. by rewrite andb_true_iff, !bool_decide_eq_true. Qed.

(** ** The partitions a run has to compute *)

(** Months counted from year 0. *)
Definition month_index (y m : Z) : Z := 12 * y + m.
Definition bucket_index (b : Address.Bucket) : Z :=
  match b with Address.BMonth y m => month_index y m | Address.BYear y => month_index y 1 end.

Lemma ym_le_index y m y' m' :
  1 ≤ m ≤ 12 → 1 ≤ m' ≤ 12 → ym_le (y, m) (y', m') ↔ month_index y m ≤ month_index y' m'.
Proof. unfold ym_le, month_index. cbn. lia. Qed.

Lemma months_from_spec fuel y m ly lm :
  1 ≤ m ≤ 12 → 1 ≤ lm ≤ 12 → month_index ly lm - month_index y m < Z.of_nat fuel →
  (∀ b, b ∈ months_from fuel y m ly lm ↔
    ∃ y' m', b = Address.BMonth y' m' ∧ Address.bucket_ok b ∧
      month_index y m ≤ month_index y' m' ≤ month_index ly lm) ∧
  StronglySorted (λ a b, bucket_index a < bucket_index b) (months_from fuel y m ly lm).
Proof.
  revert y m. induction fuel as [|fuel IH]; intros y m Hm Hlm Hf; cbn [months_from].
  { split; [|constructor]. intros b. rewrite elem_of_nil. split; [done|].
    intros (y' & m' & _ & _ & ?). lia. }
  case_decide as Hle.
  2: { split; [|constructor]. intros b. rewrite elem_of_nil. split; [done|].
    intros (y' & m' & _ & _ & ?). unfold month_index in *. lia. }
  set (next := if decide (m = 12) then (y + 1, 1) else (y, m + 1)).
  assert (1 ≤ next.2 ≤ 12 ∧ month_index next.1 next.2 = month_index y m + 1) as [Hn1 Hn2]
    by (unfold next, month_index; case_decide; cbn; lia).
  destruct (IH next.1 next.2 Hn1 Hlm ltac:(lia)) as [He Hs]. rewrite Hn2 in He. clear IH.
  rewrite (surjective_pairing next).
  assert (Hsplit : ∀ b, (∃ y' m', b = Address.BMonth y' m' ∧ Address.bucket_ok b ∧
      month_index y m ≤ month_index y' m' ≤ month_index ly lm) ↔
    (b = Address.BMonth y m ∧ Address.year_ok y) ∨ b ∈ months_from fuel next.1 next.2 ly lm).
  { intros b. rewrite He. split.
    - intros (y' & m' & -> & [Hy' Hm'] & Hr). destruct (decide (month_index y' m' = month_index y m)) as [E|E].
      + left. unfold Address.month_ok, month_index in *. assert (y' = y) as -> by lia.
        by assert (m' = m) as -> by lia.
      + right. exists y', m'. split_and!; [done|done|lia|lia].
    - intros [[-> Hy]|(y' & m' & -> & Hok & Hr)].
      + exists y, m. split_and!; [done|done|lia|unfold month_index; lia].
      + exists y', m'. split_and!; [done|done|lia|lia]. }
  destruct (decide (Address.year_ok y)) as [Hy|Hy].
  - rewrite (proj2 (Address.year_new_Some y y)) by done. rewrite (proj2 (Address.month_new_Some m m)) by done.
    cbn [mbind option_bind]. split.
    + intros b. rewrite Hsplit, elem_of_cons. naive_solver.
    + constructor; [done|]. apply Forall_forall. intros b (y' & m' & -> & _ & Hr)%He. cbn. lia.
  - destruct (Address.year_new y) eqn:E; [apply Address.year_new_Some in E; naive_solver|].
    cbn [mbind option_bind]. split; [|done]. intros b. rewrite Hsplit. naive_solver.
Qed.

Section partitions.
Context {cal : Calendar} {laws : CalendarLaws}.

Lemma first_of_spec y m :
  0 ≤ y ≤ 10000 → 1 ≤ m ≤ 12 →
  ∀ t, in_calendar t = true → (Address.first_of y m ≤ t ↔ month_index y m ≤ month_index (year t) (month t)).
Proof.
  intros Hy Hm t Ht. unfold Address.first_of. destruct (with_ymd_digits y m Hy Hm) as [s Hs]. rewrite Hs.
  destruct (with_ymd_first _ _ _ Hs) as (_ & _ & Hle). cbn. rewrite Hle by done.
  apply ym_le_index; [done|by apply month_range].
Qed.

(** When a bucket overlaps [e, u], by months. *)
Lemma bucket_window_covered b e u :
  Address.bucket_ok b → in_calendar e = true → in_calendar u = true →
  covers (between e u) (Address.bucket_window b) = true ↔
    match b with
    | Address.BMonth y m => month_index (year e) (month e) ≤ month_index y m ≤ month_index (year u) (month u)
    | Address.BYear y => year e ≤ y ≤ year u
    end.
Proof.
  intros Hb He Hu. rewrite covers_spec. pose proof (month_range e He). pose proof (month_range u Hu).
  unfold Address.bucket_ok, Address.month_ok, Address.year_ok in Hb. destruct b as [y m|y]; cbn.
  - case_decide; cbn; rewrite first_of_spec by (done || lia); rewrite Z.lt_nge, first_of_spec by (done || lia);
      unfold month_index; lia.
  - rewrite first_of_spec by (done || lia). rewrite Z.lt_nge, first_of_spec by (done || lia).
    unfold month_index; lia.
Qed.

Lemma seqZ_sorted a n : StronglySorted Z.lt (seqZ a n).
Proof.
  unfold seqZ. generalize 0%nat. induction (Z.to_nat n) as [|k IH]; intros i; cbn; constructor; [apply IH|].
  apply Forall_forall. intros x (j & -> & Hj)%list_elem_of_fmap. apply elem_of_seq in Hj. lia.
Qed.

Lemma omap_year_sorted l :
  StronglySorted Z.lt l →
  StronglySorted (λ a b, bucket_index a < bucket_index b) (Address.BYear <$> omap Address.year_new l).
Proof.
  induction 1 as [|y l Hs IH Hy]; cbn; [constructor|].
  destruct (Address.year_new y) as [z|] eqn:E; [|done]. apply Address.year_new_Some in E as [-> Hok].
  cbn. constructor; [done|]. apply Forall_forall. intros b (z & -> & Hz)%list_elem_of_fmap.
  apply list_elem_of_omap in Hz as (x & Hx & [-> _]%Address.year_new_Some).
  rewrite Forall_forall in Hy. specialize (Hy x Hx). unfold bucket_index, month_index. lia.
Qed.

(** The months and the years of [e, u]. *)
Lemma months_of_spec e u
    (l := months_from (months_fuel (year e) (month e) (year u) (month u)) (year e) (month e) (year u) (month u)) :
  in_calendar e = true → in_calendar u = true →
  (∀ b, b ∈ l ↔ Address.bucket_ok b ∧ Address.fits b Address.Daily = true ∧
    covers (between e u) (Address.bucket_window b) = true) ∧
  StronglySorted (λ a b, bucket_index a < bucket_index b) l.
Proof.
  intros He Hu. pose proof (month_range e He). pose proof (month_range u Hu).
  destruct (months_from_spec (months_fuel (year e) (month e) (year u) (month u))
    (year e) (month e) (year u) (month u)) as [M1 M2]; [done|done|unfold months_fuel, month_index; lia|].
  split; [|done]. intros b. subst l. rewrite M1. split.
  - intros (y & m & -> & Hok & Hr). split_and!; [done|done|]. by apply bucket_window_covered.
  - intros (Hok & Hf & Hcov). destruct b as [y m|y]; [|done]. apply bucket_window_covered in Hcov; [|done..].
    by exists y, m.
Qed.
Lemma years_of_spec e u (l := Address.BYear <$> omap Address.year_new (seqZ (year e) (year u - year e + 1))) :
  in_calendar e = true → in_calendar u = true →
  (∀ b, b ∈ l ↔ Address.bucket_ok b ∧ Address.fits b Address.Monthly = true ∧
    covers (between e u) (Address.bucket_window b) = true) ∧
  StronglySorted (λ a b, bucket_index a < bucket_index b) l.
Proof.
  intros He Hu. split; [|apply omap_year_sorted, seqZ_sorted]. intros b. subst l. rewrite list_elem_of_fmap. split.
  - intros (y & -> & Hy). apply list_elem_of_omap in Hy as (x & Hx%elem_of_seqZ & [-> Hok]%Address.year_new_Some).
    split_and!; [done|done|]. apply bucket_window_covered; [done..|lia].
  - intros (Hok & Hf & Hcov). destruct b as [y m|y]; [done|].
    apply bucket_window_covered in Hcov; [|done..]. exists y. split; [done|].
    apply list_elem_of_omap. exists y. split; [apply elem_of_seqZ; lia|by apply Address.year_new_Some].
Qed.

(** Whatever the coverage, a partition has the resolution's shape, and none
    comes twice. *)
Lemma partitions_shape c resolution now :
  (∀ b, b ∈ partitions c resolution now → Address.bucket_ok b ∧ Address.fits b resolution = true) ∧
  StronglySorted (λ a b, bucket_index a < bucket_index b) (partitions c resolution now).
Proof.
  assert (∀ b : Address.Bucket, b ∈ [] → Address.bucket_ok b ∧ Address.fits b resolution = true) as Hnil
    by (by intros b ?%elem_of_nil).
  unfold partitions. destruct (earliest c) as [e|]; [|by split; [|constructor]].
  case_decide; [|by split; [|constructor]].
  destruct (from_timestamp e) as [x|] eqn:He; [|by split; [|constructor]]. apply from_timestamp_Some in He as [He ->].
  set (u := match latest c with Some l => Z.min l now | None => now end).
  destruct (from_timestamp u) as [x|] eqn:Hu; [|by split; [|constructor]]. apply from_timestamp_Some in Hu as [Hu ->].
  destruct (months_of_spec e u He Hu) as [M1 M2]. destruct (years_of_spec e u He Hu) as [Y1 Y2].
  destruct resolution; (split; [|done]); intros b Hb; [apply M1 in Hb|apply M1 in Hb|apply Y1 in Hb];
    destruct Hb as (Hok & Hf & _); (split; [done|]); by destruct b.
Qed.

(** a publication run computes exactly the buckets of the grammar that
    have the resolution's shape and overlap what the archive holds up to
    [now], oldest first and each once. *)
Theorem partitions_spec (c : Coverage) (resolution : Address.Resolution) (now e : Z)
    (u := match latest c with Some l => Z.min l now | None => now end) :
  earliest c = Some e → e ≤ now → in_calendar e = true → in_calendar u = true →
  (∀ b, b ∈ partitions c resolution now ↔
    Address.bucket_ok b ∧ Address.fits b resolution = true ∧
    covers (between e u) (Address.bucket_window b) = true) ∧
  StronglySorted (λ a b, bucket_index a < bucket_index b) (partitions c resolution now).
Proof.
  intros Hc Hn He Hu. unfold partitions. rewrite Hc, decide_True by done. fold u.
  unfold from_timestamp. rewrite He, Hu.
  destruct resolution; [apply (months_of_spec e u)|apply (months_of_spec e u)|apply (years_of_spec e u)]; done.
Qed.
End partitions.

#[local] Existing Instances Gregorian.gregorian Gregorian.gregorian_laws.

Definition extent : Coverage := between 1764547200 1769904000.

