(* ===== verification/Activity.v ===== *)
(** * Activity figures

    [crates/stats/src/activity.rs]: the order as the figures see it, the
    counts of a window, the rates, the slices, the histograms and the report. *)

From S2P Require Import Prelude F64 Rounding StatsPrelude Calendar Window Metric Bucket.

#[local] Open Scope Z_scope.

Inductive Status : Type := Pending | InProgress | Success | Canceled.
#[export] Instance activity_status_eq_dec : EqDecision Status.
Proof. solve_decision. Defined.
Definition status_as_str (s : Status) : string :=
  match s with
  | Pending => "pending" | InProgress => "in-progress" | Success => "success" | Canceled => "canceled"
  end.

Inductive Direction : Type := Buy | Sell.
#[export] Instance activity_direction_eq_dec : EqDecision Direction.
Proof. solve_decision. Defined.
Definition direction_as_str (d : Direction) : string := match d with Buy => "buy" | Sell => "sell" end.

Record Origin : Type := mkOrigin {
  og_fiat_code : string;
  og_payment_methods : list string;
  og_direction : Direction;
}.

Record Order : Type := mkOrder {
  o_order_id : string;
  o_pubkey : string;
  o_instance : string;
  o_created_at : Z;
  o_status : Status;
  o_direction : Direction;
  o_fiat_code : string;
  o_payment_methods : list string;
  o_amount_sats : Z;
  o_fiat_amount : option f64;
  o_premium : f64;
  o_is_market_price : bool;
  o_fiat_range : option (f64 * f64);
  o_pending_at : option Z;
  o_origin : Origin;
  o_taken_at : option Z;
  o_success_at : option Z;
  o_canceled_at : option Z;
  o_expires_at : option Z;
}.

Inductive Dimension : Type :=
| ByStatus | ByKind | ByFiat | ByMethod | ByInstance | ByMonth | ByDay | ByHour | ByWeekday.

Record Activity : Type := mkActivity {
  created : Z;
  completed : Z;
  canceled : Z;
  completion_rate : option f64;
  abandonment_rate : option f64;
  open_now : Z;
  in_progress_now : Z;
  created_delta : option f64;
  completed_delta : option f64;
}.

(** ** The counts of a window *)

(** [Counts]: created, completed, canceled. *)
Record Counts : Type := mkCounts { c_created : Z; c_completed : Z; c_canceled : Z }.
Definition NONE : Counts := mkCounts 0 0 0.

Definition dated (pick : Order → option Z) (orders : list Order) (window : Window) : Z :=
  count_if (λ order, is_some_and (contains window) (pick order)) orders.
Definition pick_created (o : Order) : option Z := Some (o_created_at o).
Definition pick_completed (o : Order) : option Z :=
  if decide (o_status o = Success) then o_success_at o else None.
Definition pick_canceled (o : Order) : option Z :=
  if decide (o_status o = Canceled) then o_canceled_at o else None.
Definition over (orders : list Order) (window : Window) : Counts :=
  mkCounts (dated pick_created orders window) (dated pick_completed orders window)
    (dated pick_canceled orders window).

Definition ratio (numerator denominator : Z) : option f64 :=
  if decide (0 < denominator) then Some (f64_div (f64_of_Z numerator) (f64_of_Z denominator)) else None.
Definition growth (current previous : Z) : option f64 :=
  if decide (0 < previous) then
    Some (f64_div (f64_sub (f64_of_Z current) (f64_of_Z previous)) (f64_of_Z previous))
  else None.

(** Created in the window, now canceled, and never taken. *)
Definition abandoned (window : Window) (o : Order) : bool :=
  contains window (o_created_at o) && (bool_decide (o_status o = Canceled) && bool_decide (o_taken_at o = None)).
Definition is_open (now : Z) (o : Order) : bool :=
  bool_decide (o_status o = Pending) && is_some_and (λ expires, bool_decide (now < expires)) (o_expires_at o).

Definition summarise_against (orders : list Order) (window : Window) (previous : option Window)
    (now : Z) : Activity :=
  let current := over orders window in
  let previous := match previous with Some previous => over orders previous | None => NONE end in
  let abandoned := count_if (abandoned window) orders in
  {|
    created := c_created current;
    completed := c_completed current;
    canceled := c_canceled current;
    completion_rate := ratio (c_completed current) (c_completed current + c_canceled current);
    abandonment_rate := ratio abandoned (c_created current);
    open_now := count_if (is_open now) orders;
    in_progress_now := count_if (λ o, bool_decide (o_status o = InProgress)) orders;
    created_delta := growth (c_created current) (c_created previous);
    completed_delta := growth (c_completed current) (c_completed previous);
  |}.
Definition summarise (orders : list Order) (window : Window) (now : Z) : Activity :=
  summarise_against orders window (Some (previous window)) now.

(** ** Slices and histograms *)

Definition slice_keys (dimension : Dimension) (o : Order) : list string :=
  match dimension with
  | ByStatus => [status_as_str (o_status o)]
  | ByKind => [direction_as_str (o_direction o)]
  | ByFiat => [o_fiat_code o]
  | ByMethod => o_payment_methods o
  | ByInstance => [o_instance o]
  | ByMonth | ByDay | ByHour | ByWeekday => []
  end.
Definition slice (orders : list Order) (dimension : Dimension) : gmap string (list Order) :=
  group_by (slice_keys dimension) orders.

Record Histogram : Type := mkHistogram { h_labels : list string; h_created : list Z; h_completed : list Z }.

Section report.
Context {cal : Calendar}.

(** [created[bucket] += 1]: an index past the end would panic, where [alter]
    does nothing; [histogram_fold] takes indices that are inside. *)
Definition bump (bucket : option nat) (counts : list Z) : list Z :=
  match bucket with Some i => alter (Z.add 1) i counts | None => counts end.

(** What one order adds: [pick] its date when it counts. *)
Definition histogram_step (window : Window) (bucket_of : Z → nat) (pick : Order → option Z)
    (counts : list Z) (o : Order) : list Z :=
  match pick o with
  | Some at_ => if contains window at_ then bump (bucket_of <$> from_timestamp at_) counts else counts
  | None => counts
  end.

Definition histogram (orders : list Order) (window : Window) (buckets : nat)
    (bucket_of : Z → nat) (label_of : nat → string) : Histogram :=
  let fold pick := foldl (histogram_step window bucket_of pick) (replicate buckets 0) orders in
  mkHistogram (label_of <$> seq 0 buckets) (fold pick_created) (fold pick_completed).

Definition by_hour (orders : list Order) (window : Window) : Histogram :=
  histogram orders window 24 (λ at_, Z.to_nat (hour at_)) (λ hour, pad 2 (Z.of_nat hour)).

Definition DAYS : list string := ["mon"; "tue"; "wed"; "thu"; "fri"; "sat"; "sun"].
Definition by_weekday (orders : list Order) (window : Window) : Histogram :=
  histogram orders window 7 (λ at_, Z.to_nat (num_days_from_monday at_))
    (λ day, default "" (DAYS !! day)).

(** ** The report *)

Definition count (prefix name : string) (value : Z) : Metric :=
  observed (dotted prefix name) (Count value).
Definition ratio_metric (prefix name : string) (value : option f64) : Metric :=
  observed (dotted prefix name) (or_missing Metric.ratio value).

Definition dated_metrics (prefix : string) (a : Activity) : list Metric :=
  [ count prefix "created" (created a);
    count prefix "completed" (completed a);
    count prefix "canceled" (canceled a);
    ratio_metric prefix "completion_rate" (completion_rate a);
    ratio_metric prefix "abandonment_rate" (abandonment_rate a);
    ratio_metric prefix "created_delta" (created_delta a);
    ratio_metric prefix "completed_delta" (completed_delta a) ].
Definition metrics (prefix : string) (a : Activity) : list Metric :=
  dated_metrics prefix a ++
  [ count prefix "open_now" (open_now a); count prefix "in_progress_now" (in_progress_now a) ].

Definition histogram_metrics (prefix : string) (h : Histogram) : list Metric :=
  zip (h_labels h) (zip (h_created h) (h_completed h)) ≫= λ '(label, (created, completed)),
    [ observed (dotted (dotted prefix label) "created") (Count created);
      observed (dotted (dotted prefix label) "completed") (Count completed) ].

Definition periodic (orders : list Order) (window : Window) (now : Z) (coverage : Coverage)
    (period : Period) : list Metric :=
  walk window period coverage (λ key bucket previous,
    dated_metrics (dotted "orders" key) (summarise_against orders bucket previous now)).

Definition report (orders : list Order) (window : Window) (now : Z) (dimension : option Dimension)
    (coverage : Coverage) : list Metric :=
  match dimension with
  | None => metrics "orders" (summarise orders window now)
  | Some ByMonth => periodic orders window now coverage Month
  | Some ByDay => periodic orders window now coverage Day
  | Some ByHour => histogram_metrics "orders.hour" (by_hour orders window)
  | Some ByWeekday => histogram_metrics "orders.weekday" (by_weekday orders window)
  | Some dimension =>
      btree_iter (slice orders dimension) ≫= λ '(key, group),
        metrics (dotted "orders" key) (summarise group window now)
  end.
End report.

(** ** What a slice and a histogram should hold *)

(** How often an order is filed under a key of a dimension: once under its
    own, and under a payment method as often as the order names it. *)
Definition mentions (dimension : Dimension) (key : string) (o : Order) : nat :=
  let once (b : bool) := if b then 1%nat else 0%nat in
  match dimension with
  | ByStatus => once (bool_decide (key = match o_status o with
      | Pending => "pending" | InProgress => "in-progress" | Success => "success" | Canceled => "canceled" end))
  | ByKind => once (bool_decide (key = match o_direction o with Buy => "buy" | Sell => "sell" end))
  | ByFiat => once (bool_decide (key = o_fiat_code o))
  | ByInstance => once (bool_decide (key = o_instance o))
  | ByMethod => length (filter (λ method, method = key) (o_payment_methods o))
  | ByMonth | ByDay | ByHour | ByWeekday => 0%nat
  end.
(** The orders counted at the place [i] of the clock or of the week. *)
Definition dated_at (place : Z → Z) (pick : Order → option Z) (orders : list Order) (window : Window) (i : nat) : Z :=
  count_if (λ o, is_some_and (λ t, contains window t && bool_decide (place t = Z.of_nat i)) (pick o)) orders.
Definition HOURS : list string :=
  ["00"; "01"; "02"; "03"; "04"; "05"; "06"; "07"; "08"; "09"; "10"; "11";
   "12"; "13"; "14"; "15"; "16"; "17"; "18"; "19"; "20"; "21"; "22"; "23"].
(** Each label once, in order, with the orders of its place created and
    completed in the window. *)
Definition counts_places (h : Histogram) (labels : list string) (place : Z → Z) (orders : list Order) (window : Window) : Prop :=
  h_labels h = labels ∧
  h_created h = dated_at place pick_created orders window <$> seq 0 (length labels) ∧
  h_completed h = dated_at place pick_completed orders window <$> seq 0 (length labels).

(** ** Counts are conserved *)

Lemma contains_split a b c t :
  a ≤ b ≤ c →
  (if contains (mkWindow a c) t then 1 else 0) =
  (if contains (mkWindow a b) t then 1 else 0) + (if contains (mkWindow b c) t then 1 else 0).
Proof.
  intros H. unfold contains; cbn. repeat case_bool_decide; cbn; lia.
Qed.

(** Two adjacent windows count what their union counts. *)
Lemma dated_split pick orders a b c :
  a ≤ b ≤ c →
  dated pick orders (mkWindow a c) = dated pick orders (mkWindow a b) + dated pick orders (mkWindow b c).
Proof.
  intros H. apply count_if_disjoint. intros o _. destruct (pick o) as [t|]; [|done].
  by apply contains_split.
Qed.

Lemma dated_empty pick orders a : dated pick orders (mkWindow a a) = 0.
Proof.
  unfold dated. rewrite (count_if_ext _ (λ _, false)).
  - unfold count_if. induction orders as [|o orders IH]; [done|]. rewrite filter_cons_False; [done|auto].
  - intros o _. destruct (pick o) as [t|]; [|done]. cbn. unfold contains; cbn.
    repeat case_bool_decide; cbn; lia || done.
Qed.

Section conserved.
Context {cal : Calendar} {laws : CalendarLaws}.

Lemma tiles_le p a b l : tiles p a b l → a ≤ b.
Proof.
  revert a. induction l as [|[key x] l IH]; intros a; cbn; [lia|].
  intros (<- & Hlt & _ & Ht). specialize (IH _ Ht). lia.
Qed.

Lemma tiles_dated p pick orders a b l :
  tiles p a b l →
  sum_Z ((λ entry, dated pick orders entry.2) <$> l) = dated pick orders (mkWindow a b).
Proof.
  revert a. induction l as [|[key x] l IH]; intros a; cbn [tiles].
  - intros ->. by rewrite dated_empty.
  - intros (Ha & Hlt & _ & Ht). rewrite fmap_cons. cbn [sum_Z foldr snd].
    pose proof (tiles_le _ _ _ _ Ht). fold (sum_Z ((λ entry, dated pick orders entry.2) <$> l)).
    rewrite (IH _ Ht), (dated_split pick orders a (w_until x) b) by lia.
    destruct x as [f u]; cbn in *; subst. done.
Qed.

(** *** Histograms *)

Lemma bump_length i counts : length (bump i counts) = length counts.
Proof. destruct i; [apply length_alter|done]. Qed.

Lemma slice_keys_mentions dimension key o :
  length (filter (λ k : string, k = key) (slice_keys dimension o)) = mentions dimension key o.
Proof.
  assert (∀ own : string, length (filter (λ k, k = key) [own]) = if bool_decide (key = own) then 1%nat else 0%nat) as Hone.
  { intros own. rewrite filter_cons, filter_nil. case_decide; case_bool_decide; congruence || done. }
  destruct dimension; cbn [slice_keys mentions]; rewrite ?Hone; try reflexivity.
Qed.
Lemma copies_replicate dimension key o :
  copies (slice_keys dimension) key o = replicate (mentions dimension key o) o.
Proof. rewrite <- slice_keys_mentions. unfold copies. by induction (filter _ _) as [|k ks IH]; [|cbn; rewrite IH]. Qed.
Lemma slice_lookup orders dimension key :
  let group := orders ≫= λ o, replicate (mentions dimension key o) o in
  slice orders dimension !! key = if decide (group = []) then None else Some group.
Proof.
  cbv zeta. unfold slice. rewrite group_by_lookup.
  rewrite (list_bind_ext _ (λ o, replicate (mentions dimension key o) o) orders orders)
    by (done || intros; apply copies_replicate).
  assert (Exists (λ o, key ∈ slice_keys dimension o) orders ↔
    (orders ≫= λ o, replicate (mentions dimension key o) o) ≠ []) as Hiff.
  { induction orders as [|o orders IH]; [by rewrite Exists_nil|]. rewrite Exists_cons, IH, bind_cons.
    rewrite <- slice_keys_mentions. destruct (filter (λ k, k = key) (slice_keys dimension o)) as [|k ks] eqn:E; cbn [length replicate app].
    - split; [|by right]. intros [Hin|?]; [|done]. exfalso. apply (not_elem_of_nil key). rewrite <- E.
      by apply list_elem_of_filter.
    - split; [done|]. intros _. left. assert (k ∈ filter (λ k, k = key) (slice_keys dimension o)) as Hk by (rewrite E; left).
      apply list_elem_of_filter in Hk as [-> Hk]. done. }
  destruct (decide (Exists _ _)), (decide (_ = [])); tauto.
Qed.

Lemma histogram_fold window buckets bucket_of place pick orders counts :
  length counts = buckets → (∀ t, in_calendar t = true → (bucket_of t < buckets)%nat ∧ place t = Z.of_nat (bucket_of t)) →
  (∀ o t, o ∈ orders → pick o = Some t → contains window t = true → in_calendar t = true) →
  foldl (histogram_step window bucket_of pick) counts orders =
    imap (λ i c, c + dated_at place pick orders window i) counts.
Proof.
  intros Hlen Hb. revert counts Hlen. induction orders as [|o orders IH]; intros counts Hlen Hcal; cbn [foldl].
  { apply list_eq. intros i. rewrite list_lookup_imap. destruct (counts !! i) as [c|]; [|done]. cbn.
    unfold dated_at, count_if. cbn. f_equal. lia. }
  rewrite IH; [| |by intros x t Hx; apply Hcal; right].
  2:{ unfold histogram_step. destruct (pick o); [|done]. destruct (contains _ _); [|done]. by rewrite bump_length. }
  apply list_eq. intros i. rewrite !list_lookup_imap. unfold dated_at at 2. rewrite count_if_cons.
  fold (dated_at place pick orders window i). unfold histogram_step.
  destruct (pick o) as [t|] eqn:E; cbn [is_some_and]; [|done].
  destruct (contains window t) eqn:Hc; cbn [andb]; [|done].
  unfold from_timestamp. rewrite (Hcal o t ltac:(left) E Hc). cbn [fmap option_fmap option_map bump].
  destruct (Hb t (Hcal o t ltac:(left) E Hc)) as [_ ->]. destruct (decide (bucket_of t = i)) as [<-|Hne].
  - rewrite list_lookup_alter_eq, bool_decide_true by done. destruct (counts !! _); [|done]. cbn. f_equal. lia.
  - rewrite list_lookup_alter_ne by done. rewrite bool_decide_false by lia. by destruct (counts !! i).
Qed.
Lemma histogram_places window buckets bucket_of place label_of labels orders :
  (∀ t, in_calendar t = true → (bucket_of t < buckets)%nat ∧ place t = Z.of_nat (bucket_of t)) →
  (∀ o t, o ∈ orders → o_created_at o = t ∨ o_success_at o = Some t → in_calendar t = true) →
  label_of <$> seq 0 buckets = labels →
  counts_places (histogram orders window buckets bucket_of label_of) labels place orders window.
Proof.
  intros Hb Hcal Hl. unfold counts_places, histogram. cbn [h_labels h_created h_completed].
  split; [done|]. rewrite <- Hl, length_fmap, length_seq.
  assert (∀ pick, (∀ o t, o ∈ orders → pick o = Some t → in_calendar t = true) →
    foldl (histogram_step window bucket_of pick) (replicate buckets 0) orders =
      dated_at place pick orders window <$> seq 0 buckets) as E.
  { intros pick Hpick. rewrite (histogram_fold window buckets bucket_of place);
      [|apply length_replicate|done|by intros o t Ho Hp _; apply (Hpick o)].
    apply list_eq. intros i. rewrite list_lookup_imap, list_lookup_fmap.
    destruct (decide (i < buckets)%nat) as [Hi|Hi].
    - rewrite lookup_replicate_2, lookup_seq_lt by done. cbn. f_equal; lia.
    - rewrite !lookup_ge_None_2 by (rewrite ?length_replicate, ?length_seq; lia). done. }
  split; apply E; intros o t Ho.
  - intros [= <-]. apply (Hcal o _ Ho). by left.
  - unfold pick_completed. case_decide; [|done]. intros Hp. apply (Hcal o t Ho). by right.
Qed.
(** Over all the places, the orders of the window. *)
Lemma places_sum place n pick orders window :
  (∀ t, 0 ≤ place t < Z.of_nat n) →
  sum_Z (dated_at place pick orders window <$> seq 0 n) = dated pick orders window.
Proof.
  intros Hp. pose (owner := λ o, place (default 0 (pick o))).
  unfold dated. rewrite <- (count_by_owner owner Z.of_nat _ orders (seq 0 n)).
  - apply sum_Z_ext. intros i _. rewrite count_if_filter. apply count_if_ext. intros o _. unfold owner.
    by destruct (pick o).
  - apply NoDup_fmap; [intros i j; lia|apply NoDup_seq].
  - intros o _. apply list_elem_of_fmap. exists (Z.to_nat (owner o)). specialize (Hp (default 0 (pick o))).
    rewrite elem_of_seq. unfold owner. lia.
Qed.

Lemma hour_place t : 0 ≤ t mod 86400 / 3600 < Z.of_nat 24.
Proof. Z.to_euclidean_division_equations; lia. Qed.
Lemma weekday_place t : 0 ≤ (t / 86400 + 3) mod 7 < Z.of_nat 7.
Proof. apply (Z.mod_pos_bound (t / 86400 + 3) 7). lia. Qed.

(** Every date the counts look at is one a calendar has. *)
Definition dates_in_calendar (orders : list Order) : Prop :=
  ∀ o t, o ∈ orders → o_created_at o = t ∨ o_success_at o = Some t → in_calendar t = true.

Lemma by_hour_places orders window :
  dates_in_calendar orders → counts_places (by_hour orders window) HOURS (λ t, t mod 86400 / 3600) orders window.
Proof.
  intros Hcal. apply histogram_places; [|exact Hcal|vm_compute; reflexivity].
  intros t _. rewrite hour_spec. change DAY with 86400. pose proof (hour_place t). lia.
Qed.
Lemma by_weekday_places orders window :
  dates_in_calendar orders → counts_places (by_weekday orders window) DAYS (λ t, (t / 86400 + 3) mod 7) orders window.
Proof.
  intros Hcal. apply histogram_places; [|exact Hcal|vm_compute; reflexivity].
  intros t _. rewrite weekday_spec. change DAY with 86400. pose proof (weekday_place t). lia.
Qed.

(** C29: what the counts of a report are counts of. Those of the calendar
    periods of a window, whatever date is counted, add up to the count of the
    span the periods tile. A slice has a group for exactly the keys some order
    is filed under, holding those orders in the order they came in: by status,
    kind, currency or instance each once, so that the groups' counts add up to
    the window's; by payment method as often as it names the method, so that
    the sum counts an order once per method it names. A histogram has the
    twenty-four hours or the seven days as its labels, each with the orders
    created and completed in the window at that place of the clock or week,
    and over all places they add up to the window's counts. *)
Theorem counts_conserved (orders : list Order) (window : Window) (period : Period) :
  w_from window < w_until window → is_i64 (w_until window) → is_Some (opening window period) →
  dates_in_calendar orders →
  (∃ stop, stops window period stop ∧
    ∀ pick, sum_Z ((λ entry, dated pick orders entry.2) <$> buckets window period) =
      dated pick orders (mkWindow (w_from window) stop)) ∧
  (∀ dimension key,
    let group := orders ≫= λ o, replicate (mentions dimension key o) o in
    slice orders dimension !! key = if decide (group = []) then None else Some group) ∧
  (∀ dimension pick, dimension ∈ [ByStatus; ByKind; ByFiat; ByInstance] →
    sum_Z ((λ group, dated pick group.2 window) <$> btree_iter (slice orders dimension)) =
      dated pick orders window) ∧
  (∀ pick, sum_Z ((λ group, dated pick group.2 window) <$> btree_iter (slice orders ByMethod)) =
    sum_Z ((λ o, if is_some_and (contains window) (pick o) then Z.of_nat (length (o_payment_methods o)) else 0) <$> orders)) ∧
  counts_places (by_hour orders window) HOURS (λ t, t mod 86400 / 3600) orders window ∧
  counts_places (by_weekday orders window) DAYS (λ t, (t / 86400 + 3) mod 7) orders window ∧
  sum_Z (h_created (by_hour orders window)) = c_created (over orders window) ∧
  sum_Z (h_completed (by_hour orders window)) = c_completed (over orders window) ∧
  sum_Z (h_created (by_weekday orders window)) = c_created (over orders window) ∧
  sum_Z (h_completed (by_weekday orders window)) = c_completed (over orders window).
Proof.
  intros Hw Hu Ho Hcal.
  pose proof (by_hour_places orders window Hcal) as Hhour. pose proof (by_weekday_places orders window Hcal) as Hday.
  split_and!; [..|exact Hhour|exact Hday| | | |].
  - destruct (proj1 (buckets_tile_inner window period u64_max Hw Hu Ho ltac:(done))) as (stop & Ht & Hs).
    exists stop. split; [done|]. intros pick. by apply (tiles_dated period).
  - intros dimension key. apply slice_lookup.
  - intros dimension pick Hd. apply group_counts. intros o _.
    repeat (apply elem_of_cons in Hd as [->|Hd]; [by eexists|]). by apply elem_of_nil in Hd.
  - intros pick. apply group_counts_keys.
  - destruct Hhour as (_ & -> & _). apply (places_sum _ 24), hour_place.
  - destruct Hhour as (_ & _ & ->). apply (places_sum _ 24), hour_place.
  - destruct Hday as (_ & -> & _). apply (places_sum _ 7), weekday_place.
  - destruct Hday as (_ & _ & ->). apply (places_sum _ 7), weekday_place.
Qed.
End conserved.

(** ** Rates *)

Lemma ratio_share a b r :
  0 ≤ a ≤ b → b < 2 ^ 53 → ratio a b = Some r → is_share r.
Proof.
  intros Ha Hb. unfold ratio. case_decide; [|done]. intros [= <-]. apply share_bounds; lia.
Qed.

Lemma dated_le_length pick orders window : dated pick orders window ≤ Z.of_nat (length orders).
Proof. unfold dated, count_if. pose proof (length_filter (λ o, is_some_and (contains window) (pick o)) orders). lia. Qed.

Lemma completed_canceled orders window :
  0 ≤ c_completed (over orders window) ∧ 0 ≤ c_canceled (over orders window) ∧
  c_completed (over orders window) + c_canceled (over orders window) ≤ Z.of_nat (length orders).
Proof.
  cbn. unfold dated. split_and!; [apply count_if_nonneg..|].
  induction orders as [|o orders IH]; [done|]. rewrite !count_if_cons. cbn [length].
  unfold pick_completed, pick_canceled in *.
  repeat case_decide; try congruence; cbn [is_some_and] in *;
    repeat match goal with |- context [is_some_and ?f ?x] => destruct (is_some_and f x) end; lia.
Qed.

Lemma abandoned_le_created orders window :
  0 ≤ count_if (abandoned window) orders ≤ c_created (over orders window).
Proof.
  split; [apply count_if_nonneg|]. apply count_if_le. intros o _ H. unfold abandoned in H.
  by apply andb_prop in H as [H _].
Qed.

(** C30: the completion and abandonment rates of any window are missing exactly
    when there is nothing to divide by, and otherwise finite numbers between
    0 and 1; a growth figure is missing exactly when the previous period
    counted nothing. *)
Theorem rates_bounded (orders : list Order) (window : Window) (previous : option Window) (now : Z)
    (a := summarise_against orders window previous now) :
  Z.of_nat (length orders) < 2 ^ 53 →
  (completion_rate a = None ↔ completed a = 0 ∧ canceled a = 0) ∧
  (abandonment_rate a = None ↔ created a = 0) ∧
  (∀ r, completion_rate a = Some r ∨ abandonment_rate a = Some r → is_share r) ∧
  (created_delta a = None ↔ ∀ p, previous = Some p → c_created (over orders p) = 0).
Proof.
  intros Hlen. pose proof (completed_canceled orders window) as (H1 & H2 & H3).
  pose proof (abandoned_le_created orders window) as [H4 H5].
  assert (c_created (over orders window) ≤ Z.of_nat (length orders)) by apply dated_le_length.
  subst a. cbn [completion_rate abandonment_rate completed canceled created created_delta summarise_against].
  split_and!.
  - unfold ratio. case_decide; (split; [done || lia|lia || done]).
  - unfold ratio. case_decide; (split; [done || lia|lia || done]).
  - intros r [Hr|Hr]; eapply ratio_share; [| |exact Hr| | |exact Hr]; lia.
  - unfold growth. destruct previous as [p|]; cbn [c_created NONE].
    + assert (0 ≤ c_created (over orders p)) by apply count_if_nonneg.
      case_decide; (split; [intros; simplify_eq; lia || done|]).
      * intros Hp. specialize (Hp p eq_refl). lia.
      * done.
    + split; [by intros _ ? [=]|done].
Qed.

(** ** A concrete week *)

Module sample.
#[export] Existing Instances Gregorian.gregorian Gregorian.gregorian_laws.

(** 1 to 8 January 2026. *)
Definition week : Window := mkWindow 1767225600 1767830400.
Definition coverage : Coverage := since 1767312000.

Definition order (id : string) (created_at : Z) (status : Status) (taken success canceled : option Z)
    (fiat : string) : Order := {|
  o_order_id := id; o_pubkey := "ab"; o_instance := "alice (ab)"; o_created_at := created_at;
  o_status := status; o_direction := Sell; o_fiat_code := fiat; o_payment_methods := ["SEPA"; "cash"];
  o_amount_sats := 1000; o_fiat_amount := Some (f64_of_Z 50); o_premium := f64_of_Z 2;
  o_is_market_price := false; o_fiat_range := None; o_pending_at := Some created_at;
  o_origin := mkOrigin fiat ["SEPA"] Sell; o_taken_at := taken; o_success_at := success;
  o_canceled_at := canceled; o_expires_at := Some (created_at + 86400);
|}.
Definition done_order : Order :=
  order "o1" 1767230000 Success (Some 1767231000) (Some 1767320000) None "EUR".
Definition dead_order : Order := order "o2" 1767400000 Canceled None None (Some 1767486400) "ARS".
Definition live_order : Order := order "o3" 1767800000 Pending None None None "EUR".
Definition orders : list Order := [done_order; dead_order; live_order].

Example summary_of_the_week :
  let a := summarise orders week 1767830000 in
  (created a, completed a, canceled a, open_now a) = (3, 1, 1, 1) ∧
  completion_rate a = f64_from_str "0.5" ∧ created_delta a = None.
Proof. vm_compute. repeat split. Qed.

Example daily_report_hides_the_uncovered_day :
  m_value <$> head (report orders week 1767830000 (Some ByDay) coverage) = Some Missing ∧
  length (report orders week 1767830000 (Some ByDay) coverage) = 49%nat.
Proof. vm_compute. repeat split. Qed.
End sample.

Theorem counts_conserved_witness :
  (λ group, dated pick_created group.2 sample.week) <$> btree_iter (slice sample.orders ByFiat) = [1; 2] ∧
  sum_Z [1; 2] = dated pick_created sample.orders sample.week ∧
  slice sample.orders ByFiat !! "EUR" = Some [sample.done_order; sample.live_order] ∧
  sum_Z ((λ group, dated pick_created group.2 sample.week) <$> btree_iter (slice sample.orders ByMethod)) = 6 ∧
  h_created (by_weekday (cal := Gregorian.gregorian) sample.orders sample.week) = [0; 0; 1; 1; 0; 1; 0] ∧
  sum_Z (h_created (by_hour (cal := Gregorian.gregorian) sample.orders sample.week)) = 3.
Proof.
  destruct (counts_conserved (cal := Gregorian.gregorian) (laws := Gregorian.gregorian_laws)
    sample.orders sample.week Day
    ltac:(vm_compute; reflexivity) ltac:(split; vm_compute; discriminate) ltac:(eexists; vm_compute; reflexivity)
    ltac:(intros o t Ho Ht; unfold sample.orders in Ho;
      repeat (apply elem_of_cons in Ho as [->|Ho]; [destruct Ht as [<-|[= <-]]; vm_compute; reflexivity|]);
      by apply elem_of_nil in Ho)) as (_ & Hkeys & H1 & Hmethod & _ & (_ & Hday & _) & H2 & _).
  assert (E : (λ group, dated pick_created group.2 sample.week) <$> btree_iter (slice sample.orders ByFiat) = [1; 2])
    by (vm_compute; reflexivity).
  split_and!; [exact E| | | | |].
  - rewrite <- E. apply H1. do 2 right. left.
  - rewrite Hkeys, decide_False; [reflexivity|]. vm_compute. discriminate.
  - rewrite Hmethod. vm_compute. reflexivity.
  - rewrite Hday. vm_compute. reflexivity.
  - rewrite H2. vm_compute. reflexivity.
Defined.

Theorem rates_bounded_witness :
  ∃ r, completion_rate (summarise_against sample.orders sample.week None 0) = Some r ∧ is_share r.
Proof.
  destruct (completion_rate (summarise_against sample.orders sample.week None 0)) as [r|] eqn:E;
    [|vm_compute in E; discriminate].
  exists r. split; [done|].
  apply (rates_bounded sample.orders sample.week None 0 ltac:(vm_compute; reflexivity)). by left.
Defined.
