(* ===== verification/Timing.v ===== *)
(** * Timing and the funnel

    [crates/stats/src/timing.rs]: how long each stage of an order takes, how
    old the book is, and what became of the orders that entered it. *)

From S2P Require Import Prelude F64 Rounding StatsPrelude Percentile Window Metric Activity.

#[local] Open Scope Z_scope.

Inductive Dimension : Type := ByFiat | ByMethod | ByKind | ByInstance.

Inductive Terminal : Type := TSuccess (at_ : Z) | TCanceled (at_ : Z).

(** The earlier of the first success and the first cancellation. *)
Definition terminal (o : Order) : option Terminal :=
  match o_success_at o, o_canceled_at o with
  | Some success, Some canceled => if decide (canceled < success) then Some (TCanceled canceled) else Some (TSuccess success)
  | Some success, None => Some (TSuccess success)
  | None, Some canceled => Some (TCanceled canceled)
  | None, None => None
  end.

(** [i64::checked_sub]. *)
Definition checked_sub (a b : Z) : option Z := in_i64 (a - b).

(** The age of an order on the book at [now]. *)
Definition book_age (o : Order) (now : Z) : option Z :=
  let on_book := negb (option_is_some (o_taken_at o)) && negb (option_is_some (terminal o))
    && is_some_and (λ expires, bool_decide (now < expires)) (o_expires_at o) in
  if on_book then
    match o_pending_at o with
    | Some pending => if decide (pending ≤ now) then checked_sub now pending else None
    | None => None
    end
  else None.

Record Funnel : Type := mkFunnel {
  fn_created : Z;
  fn_taken : Z;
  fn_completed : Z;
  fn_canceled_taken : Z;
  fn_canceled_untaken : Z;
  fn_expired_untaken : Z;
  fn_open : Z;
}.
Definition empty_funnel : Funnel := mkFunnel 0 0 0 0 0 0 0.

Definition share (f : Funnel) (count : Z) : option f64 := Activity.ratio count (fn_created f).
Definition taken_share (f : Funnel) : option f64 := share f (fn_taken f).
Definition canceled_untaken_share (f : Funnel) : option f64 := share f (fn_canceled_untaken f).

Record Timing : Type := mkTiming {
  time_to_fill_samples : Z;
  time_to_fill_p50 : option Z;
  time_to_fill_p90 : option Z;
  time_to_complete_samples : Z;
  time_to_complete_p50 : option Z;
  time_to_complete_p90 : option Z;
  full_cycle_samples : Z;
  full_cycle_p50 : option Z;
  full_cycle_p90 : option Z;
  time_to_cancel_samples : Z;
  time_to_cancel_p50 : option Z;
  time_to_cancel_p90 : option Z;
  book_size : Z;
  book_age_avg : option Z;
  funnel : Funnel;
  unknown_origin : Z;
  regressed : Z;
}.

(** A gap counts when its end is in the window and strictly later. *)
Definition gap (window : Window) (from to : Order → option Z) (o : Order) : option Z :=
  '(f, t) ← option_zip (from o) (to o);
  if contains window t then
    g ← checked_sub t f;
    if decide (0 < g) then Some g else None
  else None.
Definition gaps (orders : list Order) (window : Window) (from to : Order → option Z) : list Z :=
  omap (gap window from to) orders.

Definition success_of (o : Order) : option Z :=
  match terminal o with Some (TSuccess at_) => Some at_ | _ => None end.
Definition canceled_of (o : Order) : option Z :=
  match terminal o with Some (TCanceled at_) => Some at_ | _ => None end.

(** The mean, in [i128] and truncated, when it fits. *)
Definition mean_age (ages : list Z) : option Z :=
  if decide (ages = []) then None else in_i64 (Z.quot (sum_Z ages) (Z.of_nat (length ages))).

Definition found_taker (o : Order) : bool :=
  option_is_some (o_taken_at o) || match terminal o with Some (TSuccess _) => true | _ => false end.

(** What one order of the cohort adds. *)
Definition funnel_step (now : Z) (f : Funnel) (o : Order) : Funnel :=
  let taken := found_taker o in
  let f := mkFunnel (fn_created f + 1) (if taken then fn_taken f + 1 else fn_taken f) (fn_completed f)
    (fn_canceled_taken f) (fn_canceled_untaken f) (fn_expired_untaken f) (fn_open f) in
  let '(mkFunnel created tk completed ct cu eu open) := f in
  match terminal o with
  | Some (TSuccess _) => mkFunnel created tk (completed + 1) ct cu eu open
  | Some (TCanceled _) =>
      if option_is_some (o_taken_at o) then mkFunnel created tk completed (ct + 1) cu eu open
      else mkFunnel created tk completed ct (cu + 1) eu open
  | None =>
      if negb taken && is_some_and (λ expires, bool_decide (expires ≤ now)) (o_expires_at o)
      then mkFunnel created tk completed ct cu (eu + 1) open
      else mkFunnel created tk completed ct cu eu (open + 1)
  end.

(** Whether the book entry of an order was seen in the window. *)
Definition entered (window : Window) (o : Order) : bool := is_some_and (contains window) (o_pending_at o).
Definition funnel_over (orders : list Order) (window : Window) (now : Z) : Funnel :=
  foldl (funnel_step now) empty_funnel (filter (λ o, entered window o) orders).

Definition summarise (orders : list Order) (window : Window) (now : Z) : Timing :=
  let fills := gaps orders window o_pending_at o_taken_at in
  let completes := gaps orders window o_taken_at success_of in
  let cycles := gaps orders window o_pending_at success_of in
  let cancels := gaps orders window o_pending_at canceled_of in
  let ages := omap (λ o, book_age o now) orders in
  let len l := Z.of_nat (length l) in
  {|
    time_to_fill_samples := len fills;
    time_to_fill_p50 := percentile fills half;
    time_to_fill_p90 := percentile fills ninety;
    time_to_complete_samples := len completes;
    time_to_complete_p50 := percentile completes half;
    time_to_complete_p90 := percentile completes ninety;
    full_cycle_samples := len cycles;
    full_cycle_p50 := percentile cycles half;
    full_cycle_p90 := percentile cycles ninety;
    time_to_cancel_samples := len cancels;
    time_to_cancel_p50 := percentile cancels half;
    time_to_cancel_p90 := percentile cancels ninety;
    book_size := len ages;
    book_age_avg := mean_age ages;
    funnel := funnel_over orders window now;
    unknown_origin := count_if (λ o, negb (option_is_some (o_pending_at o)) && contains window (o_created_at o)) orders;
    regressed := count_if (λ o, option_is_some (o_success_at o) && option_is_some (o_canceled_at o)) orders;
  |}.

Definition slice_keys (dimension : Dimension) (o : Order) : list string :=
  match dimension with
  | ByFiat => [og_fiat_code (o_origin o)]
  | ByMethod => og_payment_methods (o_origin o)
  | ByKind => [direction_as_str (og_direction (o_origin o))]
  | ByInstance => [o_instance o]
  end.
Definition slice (orders : list Order) (dimension : Dimension) : gmap string (list Order) :=
  group_by (slice_keys dimension) orders.

Definition seconds (prefix name : string) (value : option Z) : Metric :=
  observed (dotted prefix name) (or_missing Seconds value).
Definition metrics (prefix : string) (t : Timing) : list Metric :=
  let count := Activity.count prefix in
  let seconds := seconds prefix in
  let ratio := Activity.ratio_metric prefix in
  let f := funnel t in
  [ count "time_to_fill_samples" (time_to_fill_samples t);
    seconds "time_to_fill_p50" (time_to_fill_p50 t);
    seconds "time_to_fill_p90" (time_to_fill_p90 t);
    count "time_to_complete_samples" (time_to_complete_samples t);
    seconds "time_to_complete_p50" (time_to_complete_p50 t);
    seconds "time_to_complete_p90" (time_to_complete_p90 t);
    count "full_cycle_samples" (full_cycle_samples t);
    seconds "full_cycle_p50" (full_cycle_p50 t);
    seconds "full_cycle_p90" (full_cycle_p90 t);
    count "time_to_cancel_samples" (time_to_cancel_samples t);
    seconds "time_to_cancel_p50" (time_to_cancel_p50 t);
    seconds "time_to_cancel_p90" (time_to_cancel_p90 t);
    count "book_size" (book_size t);
    seconds "book_age_avg" (book_age_avg t);
    count "funnel.created" (fn_created f);
    count "funnel.taken" (fn_taken f);
    ratio "funnel.taken_share" (taken_share f);
    count "funnel.completed" (fn_completed f);
    count "funnel.canceled_taken" (fn_canceled_taken f);
    count "funnel.canceled_untaken" (fn_canceled_untaken f);
    ratio "funnel.canceled_untaken_share" (canceled_untaken_share f);
    count "funnel.expired_untaken" (fn_expired_untaken f);
    count "funnel.open" (fn_open f);
    count "unknown_origin" (unknown_origin t);
    count "regressed" (regressed t) ].

Definition report (orders : list Order) (window : Window) (dimension : option Dimension) (now : Z) : list Metric :=
  match dimension with
  | None => metrics "timing" (summarise orders window now)
  | Some dimension =>
      btree_iter (slice orders dimension) ≫= λ '(key, group),
        metrics (dotted "timing" key) (summarise group window now)
  end.

(** ** The funnel accounts for every order of its cohort *)

(** What each order that entered the book became. *)
Lemma funnel_over_counts orders window now :
  let cohort := filter (λ o, entered window o) orders in
  let f := funnel_over orders window now in
  fn_created f = Z.of_nat (length cohort) ∧
  fn_taken f = count_if found_taker cohort ∧
  fn_completed f = count_if (λ o, option_is_some (success_of o)) cohort ∧
  fn_canceled_taken f = count_if (λ o, option_is_some (canceled_of o) && option_is_some (o_taken_at o)) cohort ∧
  fn_canceled_untaken f =
    count_if (λ o, option_is_some (canceled_of o) && negb (option_is_some (o_taken_at o))) cohort ∧
  fn_created f = fn_completed f + fn_canceled_taken f + fn_canceled_untaken f + fn_expired_untaken f + fn_open f ∧
  0 ≤ fn_expired_untaken f ∧ 0 ≤ fn_open f.
Proof.
  cbv zeta. unfold funnel_over. set (cohort := filter _ orders). clearbody cohort.
  assert (∀ f : Funnel,
    let g := foldl (funnel_step now) f cohort in
    fn_created g = fn_created f + Z.of_nat (length cohort) ∧
    fn_taken g = fn_taken f + count_if found_taker cohort ∧
    fn_completed g = fn_completed f + count_if (λ o, option_is_some (success_of o)) cohort ∧
    fn_canceled_taken g = fn_canceled_taken f
      + count_if (λ o, option_is_some (canceled_of o) && option_is_some (o_taken_at o)) cohort ∧
    fn_canceled_untaken g = fn_canceled_untaken f
      + count_if (λ o, option_is_some (canceled_of o) && negb (option_is_some (o_taken_at o))) cohort ∧
    fn_created g - (fn_completed g + fn_canceled_taken g + fn_canceled_untaken g + fn_expired_untaken g + fn_open g)
      = fn_created f - (fn_completed f + fn_canceled_taken f + fn_canceled_untaken f + fn_expired_untaken f + fn_open f) ∧
    fn_expired_untaken f ≤ fn_expired_untaken g ∧ fn_open f ≤ fn_open g) as H.
  { induction cohort as [|o cohort IH]; intros f; cbn [foldl].
    - unfold count_if; cbn. lia.
    - specialize (IH (funnel_step now f o)). cbv zeta in IH |- *. rewrite !count_if_cons. cbn [length].
      unfold funnel_step, success_of, canceled_of, found_taker in *. destruct f.
      destruct (terminal o) as [[?|?]|], (o_taken_at o); cbn in IH |- *;
        try (destruct (is_some_and _ (o_expires_at o)); cbn in IH |- * ); lia. }
  specialize (H empty_funnel). cbn [empty_funnel fn_created fn_taken fn_completed fn_canceled_taken
    fn_canceled_untaken fn_expired_untaken fn_open] in H. lia.
Qed.

(** Those taken are the completed, the canceled after a taker, and some of
    those still open. *)
Lemma funnel_taken orders window now :
  let f := funnel_over orders window now in
  fn_completed f + fn_canceled_taken f ≤ fn_taken f ≤ fn_completed f + fn_canceled_taken f + fn_open f.
Proof.
  cbv zeta. unfold funnel_over. generalize (filter (λ o, entered window o) orders). intros cohort.
  assert (∀ f, fn_completed f + fn_canceled_taken f ≤ fn_taken f ≤ fn_completed f + fn_canceled_taken f + fn_open f →
    let g := foldl (funnel_step now) f cohort in
    fn_completed g + fn_canceled_taken g ≤ fn_taken g ≤ fn_completed g + fn_canceled_taken g + fn_open g) as H.
  { induction cohort as [|o cohort IH]; intros f Hf; cbn [foldl]; [done|]. apply IH.
    unfold funnel_step, found_taker. destruct f; cbn in Hf.
    destruct (terminal o) as [[?|?]|], (o_taken_at o); cbn;
      try (destruct (is_some_and _ (o_expires_at o)); cbn); lia. }
  by apply H.
Qed.

Lemma gaps_positive orders window from to g : g ∈ gaps orders window from to → 0 < g.
Proof.
  unfold gaps. intros (o & _ & H)%list_elem_of_omap. unfold gap in H.
  apply bind_Some in H as ([f t] & _ & H). destruct (contains window t); [|done].
  apply bind_Some in H as (h & _ & H). case_decide; congruence.
Qed.

Lemma book_age_nonneg o now age : book_age o now = Some age → 0 ≤ age.
Proof.
  unfold book_age. destruct (_ && _ && _); [|done]. destruct (o_pending_at o) as [p|]; [|done].
  case_decide; [|done]. unfold checked_sub, in_i64. case_decide; [|done]. intros [= <-]. lia.
Qed.

Lemma mean_nonneg ages a : Forall (λ x, 0 ≤ x) ages → mean_age ages = Some a → 0 ≤ a.
Proof.
  intros Hl. unfold mean_age. case_decide; [done|]. unfold in_i64. case_decide; [|done]. intros [= <-].
  apply sum_Z_nonneg in Hl. apply Z.quot_pos; [done|]. destruct ages; [done|cbn; lia].
Qed.

(** the funnel accounts for every order whose book entry was seen in the
    window: completed, canceled after or without a taker, expired or open,
    each exactly once, and those taken are the completed, the canceled after a
    taker and some of the open. Its shares are numbers between 0 and 1; every
    duration reported is positive and the mean age of the book is not negative. *)
Theorem timing_sound (orders : list Order) (window : Window) (now : Z)
    (t := summarise orders window now) (f := funnel t) :
  Z.of_nat (length orders) < 2 ^ 53 →
  fn_created f = count_if (entered window) orders ∧
  fn_created f = fn_completed f + fn_canceled_taken f + fn_canceled_untaken f + fn_expired_untaken f + fn_open f ∧
  fn_completed f + fn_canceled_taken f ≤ fn_taken f ≤ fn_completed f + fn_canceled_taken f + fn_open f ∧
  (∀ r, taken_share f = Some r ∨ canceled_untaken_share f = Some r → is_share r) ∧
  (∀ d, d ∈ omap id [time_to_fill_p50 t; time_to_fill_p90 t; time_to_complete_p50 t; time_to_complete_p90 t;
      full_cycle_p50 t; full_cycle_p90 t; time_to_cancel_p50 t; time_to_cancel_p90 t] → 0 < d) ∧
  (∀ a, book_age_avg t = Some a → 0 ≤ a).
Proof.
  intros Hlen. subst f t. cbn [funnel summarise].
  pose proof (funnel_over_counts orders window now) as H. cbv zeta in H.
  set (cohort := filter (λ o, entered window o) orders) in *. set (f := funnel_over orders window now) in *.
  destruct H as (H1 & H2 & H3 & H4 & H5 & H6 & H7 & H8).
  assert (Hcohort : Z.of_nat (length cohort) ≤ Z.of_nat (length orders))
    by (unfold cohort; pose proof (length_filter (λ o, entered window o) orders); lia).
  assert (Htaken : fn_completed f + fn_canceled_taken f ≤ fn_taken f ≤ fn_completed f + fn_canceled_taken f + fn_open f).
  { exact (funnel_taken orders window now). }
  assert (0 ≤ fn_completed f ∧ 0 ≤ fn_canceled_taken f ∧ 0 ≤ fn_canceled_untaken f) as (?&?&?)
    by (rewrite H3, H4, H5; split_and!; apply count_if_nonneg).
  split_and!; [exact H1|done|lia|lia| | |].
  - intros r [Hr|Hr]; refine (ratio_share _ _ r _ _ Hr); lia.
  - intros d Hd. apply list_elem_of_omap in Hd as (x & Hx & E). cbn in E. subst x.
    repeat (apply elem_of_cons in Hx as [Hx|Hx]; [symmetry in Hx; by apply percentile_elem, gaps_positive in Hx|]).
    by apply elem_of_nil in Hx.
  - intros a. apply mean_nonneg. apply Forall_forall. intros age (o & _ & Ho)%list_elem_of_omap.
    by apply book_age_nonneg in Ho.
Qed.

