(* ===== verification/Document.v ===== *)
(** * Published documents

    [crates/stats/src/publish/document.rs] and the data of [snapshot.rs]: the
    payloads, the envelope around them, the tags of an event and the documents
    of a run. JSON and SHA-256 are libraries: [Serialize] and [Digest] stand
    for them. *)

From S2P Require Import Prelude F64 Metric Calendar Window Bucket.
From S2P Require Address.

#[local] Open Scope Z_scope.

(** [serde_json::to_string(&x)], the bytes of [to_vec]. *)
Class Serialize (T : Type) := to_json : T → string.
(** The bytes of [Sha256::digest]. *)
Class Digest := sha256 : string → list Z.

Definition KIND : Z := 30666.
Definition SCHEMA_VERSION : Z := 1.
Definition TOPIC : string := "bestiario".

Record Run : Type := mkRun { snapshot_id : string; generated_at : Z }.
Record Tag : Type := mkTag { t_name : string; t_values : list string }.
Definition single (name value : string) : Tag := mkTag name [value].
(** [Tag::value]: the first of the values. *)
Definition value (t : Tag) : string := default "" (head (t_values t)).

(** ** Payloads *)

Record Range : Type := mkRange { r_from : string; r_until : string }.
Record WindowPayload : Type := mkWindowPayload { wp_range : Range; wp_metrics : list Metric }.
Record Column : Type := mkColumn {
  c_name : string; c_kind : option MetricKind; c_unit : string; c_error : option string;
}.
(** What a row holds: the numbers and texts of [serde_json::Value] that
    [cell] makes. *)
Inductive Cell : Type := Null | Int (n : Z) | Float (x : f64) | Str (s : string).
Record SeriesPayload : Type := mkSeriesPayload {
  sp_period : Range; sp_resolution : string; sp_columns : list Column; sp_rows : list (list Cell);
}.
(** The figures of either shape ([serde_json::to_value] of one of them). *)
Inductive Payload : Type := PWindow (p : WindowPayload) | PSeries (p : SeriesPayload).

(** ** Clocks *)

Section clocks.
Context {cal : Calendar}.

Definition rfc3339 (timestamp : Z) : string :=
  match from_timestamp timestamp with Some at_ => to_rfc3339 at_ | None => pretty timestamp end.
Definition parse_rfc3339 (text : string) : option Z := parse_from_rfc3339 text.

(** The seconds RFC 3339 can spell. *)
Definition spelled (t : Z) : Prop := in_calendar t = true ∧ 0 ≤ year t ≤ 9999.

Lemma rfc3339_back_of {laws : CalendarLaws} t : spelled t → parse_rfc3339 (rfc3339 t) = Some t.
Proof.
  intros [Ht Hy]. unfold parse_rfc3339, rfc3339, from_timestamp. rewrite Ht. by apply rfc3339_reads_back.
Qed.

Definition range_of (w : Window) : Range := mkRange (rfc3339 (w_from w)) (rfc3339 (w_until w)).

(** ** The envelope *)

Record Restatement : Type := mkRestatement { at_ : Z; because : string }.

Record Envelope : Type := mkEnvelope {
  e_schema_version : Z;
  e_snapshot_id : string;
  e_generated_at : string;
  e_revision : Z;
  e_restated_at : option string;
  e_restated_because : option string;
  e_payload : Payload;
}.

Definition first (run : Run) (payload : Payload) : Envelope := {|
  e_schema_version := SCHEMA_VERSION;
  e_snapshot_id := snapshot_id run;
  e_generated_at := rfc3339 (generated_at run);
  e_revision := 1;
  e_restated_at := None;
  e_restated_because := None;
  e_payload := payload;
|}.

Definition restated (run : Run) (revision : Z) (restatement : Restatement) (payload : Payload) : option Envelope :=
  if decide (1 < revision) then
    let e := first run payload in
    Some (mkEnvelope (e_schema_version e) (e_snapshot_id e) (e_generated_at e) revision
      (Some (rfc3339 (at_ restatement))) (Some (because restatement)) (e_payload e))
  else None.

(** [Envelope::restatement]. *)
Definition restatement (e : Envelope) : option Restatement :=
  at_ ← e_restated_at e ≫= parse_rfc3339;
  because ← e_restated_because e;
  Some (mkRestatement at_ because).

(** The two states of an envelope. *)
Definition well_stated (e : Envelope) : Prop :=
  (e_revision e = 1 ∧ e_restated_at e = None ∧ e_restated_because e = None) ∨
  (1 < e_revision e ∧ is_Some (e_restated_at e) ∧ is_Some (e_restated_because e)).

Lemma first_well_stated run payload : well_stated (first run payload).
Proof. by left. Qed.
Lemma restated_well_stated run revision r payload e :
  restated run revision r payload = Some e → well_stated e.
Proof. unfold restated. case_decide; [|done]. intros [= <-]. right. cbn. split_and!; [done|by eexists..]. Qed.

(** ** The tags *)

Definition describe (report : Address.Report) : string :=
  match report with
  | Address.Summary => "network summary"
  | Address.Orders => "orders"
  | Address.Volume => "volume"
  | Address.Market => "market structure"
  | Address.Disputes => "disputes"
  | Address.DevFees => "dev fees"
  | Address.Instances => "instances"
  | Address.Compare => "instance comparison"
  end.
Definition span (window : Address.Window) : string :=
  match window with
  | Address.Hours24 => "24 hours"
  | Address.Days7 => "7 days"
  | Address.Days30 => "30 days"
  | Address.Days90 => "90 days"
  | Address.All => "whole archive"
  end.
Definition spanned (b : Address.Bucket) : string :=
  match b with
  | Address.BMonth _ _ => "month " +:+ Address.show_bucket b
  | Address.BYear _ => "year " +:+ Address.show_bucket b
  end.
Definition scoped (scope : option Address.Scope) : string :=
  match scope with
  | None => ""
  | Some (Address.ScopeInstance pubkey) => " for instance " +:+ pubkey
  | Some (Address.ScopeNetwork network) => " on " +:+ network
  end.

Definition alt (address : Address.Address) : string :=
  match address with
  | Address.AIndex None => "bestiario index: the documents of the current snapshot"
  | Address.AIndex (Some year) =>
      "bestiario index for " +:+ Address.show_year year +:+ ": the documents of that year"
  | Address.AWindow report window scope =>
      "bestiario " +:+ describe report +:+ " report over the last " +:+ span window +:+ scoped scope
  | Address.ASeries report partition scope =>
      "bestiario " +:+ describe report +:+ " series, "
        +:+ Address.resolution_as_str (Address.pt_resolution partition) +:+ " buckets, "
        +:+ spanned (Address.pt_bucket partition) +:+ scoped scope
  end.

Definition tags (address : Address.Address) (run : Run) (revision : Z) : list Tag :=
  [ single "d" (Address.show address); single "s" (snapshot_id run); single "t" TOPIC; single "alt" (alt address) ]
  ++ match address with
     | Address.ASeries _ partition _ =>
         let w := Address.bucket_window (Address.pt_bucket partition) in
         [ single "resolution" (Address.resolution_as_str (Address.pt_resolution partition));
           mkTag "period" [rfc3339 (w_from w); rfc3339 (w_until w)] ]
     | _ => []
     end
  ++ [ single "revision" (pretty revision); single "schema_version" (pretty SCHEMA_VERSION) ].

(** ** Documents and snapshots *)

(** Lowercase hex, two digits a byte. *)
Definition hex_digit (n : Z) : ascii := ascii_of_N (Z.to_N (if decide (n < 10) then 48 + n else 87 + n)).
Definition hex_byte (b : Z) : string := String (hex_digit (b / 16)) (String (hex_digit (b mod 16)) "").
Definition hash_of `{Digest} `{Serialize Payload} (payload : Payload) : string :=
  foldr (λ b s, hex_byte b +:+ s) "" (sha256 (to_json payload)).

Record Document : Type := mkDocument {
  d_address : Address.Address;
  d_envelope : Envelope;
  d_hash : string;
  d_updated_at : Z;
  d_period : option Window;
}.
Record Snapshot : Type := mkSnapshot {
  s_run : Run;
  s_coverage : Coverage;
  s_documents : list Document;
}.

Definition content `{Serialize Envelope} (d : Document) : string := to_json (d_envelope d).
(** The [d] a document is published under. *)
Definition d_of (d : Document) : string := Address.show (d_address d).
End clocks.
