(* ===== verification/Restatement.v ===== *)
(** * Revisions, and the documents a run does not send

    [crates/stats/src/publish/restatement.rs]: what was published under each
    address meets what a run computed, and the result is the revision every
    document carries and whether it is sent. *)

From S2P Require Import Prelude F64 Metric Calendar Window Bucket Document.
From S2P Require Address.

#[local] Open Scope Z_scope.

(** ** What the last publication concluded *)

Inductive Previous : Type :=
| First (hash : string) (updated_at : Z)
| Restated (hash : string) (revision : Z) (updated_at : Z) (restatement : Restatement).

Definition previous_restated (hash : string) (revision updated_at : Z) (r : Restatement) : option Previous :=
  if decide (1 < revision) then Some (Restated hash revision updated_at r) else None.

Definition hash (p : Previous) : string := match p with First hash _ | Restated hash _ _ _ => hash end.
Definition revision (p : Previous) : Z := match p with First _ _ => 1 | Restated _ revision _ _ => revision end.
Definition updated_at (p : Previous) : Z :=
  match p with First _ updated_at | Restated _ _ updated_at _ => updated_at end.
Definition restatement (p : Previous) : option Restatement :=
  match p with First _ _ => None | Restated _ _ _ r => Some r end.

(** ** Why the figures moved *)

Inductive Because : Type := Backfill | Rebuild | Schema | Correction.
#[export] Instance because_eq_dec : EqDecision Because.
Proof. solve_decision. Defined.
Definition because_as_str (b : Because) : string :=
  match b with Backfill => "backfill" | Rebuild => "rebuild" | Schema => "schema" | Correction => "correction" end.

(** What one run read out of the archive. *)
Record Read : Type := mkRead { rd_schema_version : Z; rd_covered_from : option Z; rd_events : Z }.

Definition deepened (previous current : Read) : bool :=
  match rd_covered_from previous, rd_covered_from current with
  | Some before, Some now => bool_decide (now < before)
  | None, Some _ => true
  | _, None => false
  end.
Definition inferred (previous current : Read) : Because :=
  if decide (rd_schema_version previous ≠ SCHEMA_VERSION) then Schema
  else if deepened previous current || bool_decide (rd_events previous < rd_events current) then Backfill
  else Rebuild.

(** ** What is sent beyond what changed *)

Inductive Republish : Type := RepublishNo | RepublishAll | RepublishRange (range : Window).

Definition sends_unchanged (r : Republish) (d : Document) : bool :=
  match r with
  | RepublishNo => false
  | RepublishAll => true
  | RepublishRange range =>
      match d_address d, d_period d with
      | Address.ASeries _ _ _, Some period =>
          bool_decide (w_from period < w_until range) && bool_decide (w_from range < w_until period)
      | _, _ => false
      end
  end.

Section restatement.
Context {cal : Calendar}.

(** An envelope at [revision], restated or not. *)
Definition envelope (run : Run) (revision : Z) (r : option Restatement) (payload : Payload) : Envelope :=
  match r ≫= λ r, Document.restated run revision r payload with
  | Some e => e
  | None => Document.first run payload
  end.

(** What a document leaves behind. *)
Definition recorded (d : Document) : Previous :=
  match Document.restatement (d_envelope d) ≫=
    previous_restated (d_hash d) (e_revision (d_envelope d)) (d_updated_at d) with
  | Some p => p
  | None => First (d_hash d) (d_updated_at d)
  end.

(** [Document { envelope, updated_at, ..document }]. *)
Definition placed (d : Document) (e : Envelope) (updated_at : Z) : Document :=
  mkDocument (d_address d) e (d_hash d) updated_at (d_period d).

(** One document against its own history, and whether its payload is the one
    already published. *)
Definition against (run : Run) (d : Document) (previous : option Previous) (b : Because) : Document * bool :=
  let payload := e_payload (d_envelope d) in
  match previous with
  | None => (placed d (Document.first run payload) (generated_at run), false)
  | Some previous =>
      if decide (hash previous = d_hash d) then
        (placed d (envelope run (revision previous) (restatement previous) payload) (updated_at previous), true)
      else
        let r := mkRestatement (generated_at run) (because_as_str b) in
        (placed d (envelope run (u32_saturating_add (revision previous) 1) (Some r) payload) (generated_at run), false)
  end.

(** [Restated]. *)
Record Outcome : Type := mkOutcome {
  o_snapshot : Snapshot;
  o_not_sent : gset string;
  o_state : gmap string Previous;
}.

(** The body of the loop over the documents. *)
Definition restated_step (run : Run) (history : gmap string Previous) (b : Because) (republish : Republish)
    (acc : gset string * gmap string Previous * list Document) (d : Document) :
    gset string * gmap string Previous * list Document :=
  let '(not_sent, state, documents) := acc in
  let address := d_of d in
  let '(restated, is_unchanged) := against run d (history !! address) b in
  ( if is_unchanged && negb (sends_unchanged republish restated) then {[address]} ∪ not_sent else not_sent,
    <[address := recorded restated]> state,
    documents ++ [restated] ).
Definition restated (s : Snapshot) (history : gmap string Previous) (b : Because) (republish : Republish) : Outcome :=
  let '(not_sent, state, documents) :=
    foldl (restated_step (s_run s) history b republish) (∅, ∅, []) (s_documents s) in
  mkOutcome (mkSnapshot (s_run s) (s_coverage s) documents) not_sent state.

(** ** Histories that can be read back *)

(** A record [Previous::restated] makes, whose clock RFC 3339 can spell. *)
Definition previous_ok (p : Previous) : Prop :=
  match p with
  | First _ _ => True
  | Restated _ revision _ r => 1 < revision ≤ u32_max ∧ spelled (at_ r)
  end.
Definition history_ok (history : gmap string Previous) : Prop := map_Forall (λ _, previous_ok) history.

(** What [restated] concludes about one document. *)
Definition conclusion (s : Snapshot) (history : gmap string Previous) (b : Because) (d : Document) : Document :=
  (against (s_run s) d (history !! d_of d) b).1.
Definition unchanged (history : gmap string Previous) (d : Document) : bool :=
  is_some_and (λ p, bool_decide (hash p = d_hash d)) (history !! d_of d).

Lemma against_unchanged run d p b :
  (against run d p b).2 = is_some_and (λ p, bool_decide (hash p = d_hash d)) p.
Proof. destruct p as [p|]; [|done]. cbn. by case_bool_decide; case_decide. Qed.

Lemma against_keeps run d p b :
  let d' := (against run d p b).1 in
  d_address d' = d_address d ∧ d_hash d' = d_hash d ∧ d_period d' = d_period d ∧
  e_payload (d_envelope d') = e_payload (d_envelope d).
Proof.
  assert (∀ revision r payload, e_payload (envelope run revision r payload) = payload) as He.
  { intros revision [r|] payload; [|done]. unfold envelope; cbn. unfold Document.restated. by case_decide. }
  destruct p as [p|]; cbn; [|done]. case_decide; cbn; by rewrite He.
Qed.

Lemma d_of_conclusion s history b d : d_of (conclusion s history b d) = d_of d.
Proof.
  unfold conclusion, d_of. pose proof (against_keeps (s_run s) d (history !! Address.show (d_address d)) b) as (E & _).
  by f_equal.
Qed.
Lemma conclusion_hash s history b d : d_hash (conclusion s history b d) = d_hash d.
Proof. apply (against_keeps (s_run s) d (history !! d_of d) b). Qed.

(** The rule: what [previous] and this run's figures leave behind. *)
Definition next (run : Run) (previous : option Previous) (h : string) (b : Because) : Previous :=
  match previous with
  | None => First h (generated_at run)
  | Some p =>
      if decide (hash p = h) then p
      else Restated h (u32_saturating_add (revision p) 1) (generated_at run)
             (mkRestatement (generated_at run) (because_as_str b))
  end.

(** A document that says what a record says. *)
Definition says (d : Document) (p : Previous) : Prop :=
  d_hash d = hash p ∧ d_updated_at d = updated_at p ∧ e_revision (d_envelope d) = revision p ∧
  e_restated_at (d_envelope d) = (λ r, rfc3339 (at_ r)) <$> restatement p ∧
  e_restated_because (d_envelope d) = because <$> restatement p.

Lemma revision_positive p : previous_ok p → 1 ≤ revision p ≤ u32_max.
Proof. destruct p; cbn; unfold u32_max; lia. Qed.
Lemma saturating_above r : 1 ≤ r ≤ u32_max → 1 < u32_saturating_add r 1 ≤ u32_max.
Proof. unfold u32_saturating_add, u32_max. lia. Qed.

Lemma next_ok run p h b :
  spelled (generated_at run) → (∀ q, p = Some q → previous_ok q) → previous_ok (next run p h b).
Proof.
  intros Hs Hp. destruct p as [p|]; [|done]. cbn. specialize (Hp p eq_refl). case_decide; [done|].
  cbn. split; [|done]. by apply saturating_above, revision_positive.
Qed.
Lemma next_hash run p h b : hash (next run p h b) = h.
Proof. destruct p; cbn; [|done]. by case_decide. Qed.

Lemma against_says run d p b :
  (∀ q, p = Some q → previous_ok q) → says (against run d p b).1 (next run p (d_hash d) b).
Proof.
  intros Hp. destruct p as [p|]; cbn; [|by split_and!]. specialize (Hp p eq_refl).
  case_decide as Hh.
  - destruct p as [h u|h r u rs]; cbn in *; [by split_and!|]. unfold envelope; cbn. unfold Document.restated.
    rewrite decide_True by lia. by split_and!.
  - pose proof (saturating_above (revision p) (revision_positive p Hp)).
    unfold envelope; cbn. unfold Document.restated. rewrite decide_True by lia. by split_and!.
Qed.

(** Recording a document loses nothing of what it says. *)
Lemma recorded_says {laws : CalendarLaws} d p : says d p → previous_ok p → recorded d = p.
Proof.
  intros (Hh & Hu & Hr & Ha & Hb) Hok. unfold recorded, Document.restatement. rewrite Ha, Hb, Hr, Hh, Hu.
  destruct p as [h u|h r u [a bc]]; cbn; [done|]. destruct Hok as [H1 H2]. cbn in H2.
  rewrite rfc3339_back_of by done. cbn. unfold previous_restated. by rewrite decide_True by lia.
Qed.

(** The loop, at once. *)
Lemma restated_unfold s history b republish :
  restated s history b republish =
    mkOutcome (mkSnapshot (s_run s) (s_coverage s) (conclusion s history b <$> s_documents s))
      (list_to_set (d_of <$> filter (λ d, unchanged history d ∧ ¬ sends_unchanged republish (conclusion s history b d))
        (s_documents s)))
      (foldl (λ m d, <[d_of d := recorded (conclusion s history b d)]> m) ∅ (s_documents s)).
Proof.
  assert (∀ l not_sent state documents,
    foldl (restated_step (s_run s) history b republish) (not_sent, state, documents) l =
    ( list_to_set (d_of <$> filter (λ d, unchanged history d ∧ ¬ sends_unchanged republish (conclusion s history b d)) l)
        ∪ not_sent,
      foldl (λ m d, <[d_of d := recorded (conclusion s history b d)]> m) state l,
      documents ++ (conclusion s history b <$> l))) as H.
  { induction l as [|d l IH]; intros not_sent state documents; cbn [foldl].
    - cbn. rewrite app_nil_r. by rewrite (left_id_L ∅ union).
    - unfold restated_step at 2. rewrite (surjective_pairing (against _ _ _ _)), IH. fold (conclusion s history b d).
      rewrite against_unchanged. fold (unchanged history d). f_equal; [f_equal|].
      + rewrite filter_cons. unfold unchanged, conclusion. case_decide as Hc.
        * destruct (is_some_and _ _), (sends_unchanged _ _); cbn; try (exfalso; naive_solver). set_solver.
        * destruct (is_some_and _ _), (sends_unchanged _ _); cbn; try set_solver.
      + by rewrite <- app_assoc. }
  unfold restated. rewrite H. by rewrite (right_id_L ∅ union).
Qed.

Lemma lookup_recorded (f : Document → Previous) l (m : gmap string Previous) a :
  NoDup (d_of <$> l) →
  foldl (λ m d, <[d_of d := f d]> m) m l !! a =
    match list_find (λ d, d_of d = a) l with Some (_, d) => Some (f d) | None => m !! a end.
Proof.
  revert m. induction l as [|d l IH]; intros m Hnd; [done|]. inversion Hnd as [|?? Hd Hl]; subst.
  cbn [foldl list_find]. rewrite IH by done. case_decide as Ha.
  - destruct (list_find (λ d, d_of d = a) l) as [[i x]|] eqn:E; cbn; [|by rewrite Ha, lookup_insert_eq].
    apply list_find_Some in E as (Hx & <- & _). exfalso. apply Hd. rewrite Ha.
    apply list_elem_of_fmap. exists x. split; [done|]. by eapply list_elem_of_lookup_2.
  - destruct (list_find (λ d, d_of d = a) l) as [[i x]|]; cbn; [done|]. by rewrite lookup_insert_ne.
Qed.

Lemma list_find_address l d :
  NoDup (d_of <$> l) → d ∈ l → ∃ i, list_find (λ x, d_of x = d_of d) l = Some (i, d).
Proof.
  intros Hnd Hd. destruct (list_find_elem_of (λ x, d_of x = d_of d) l d Hd eq_refl) as [[i x] E].
  exists i. rewrite E. apply list_find_Some in E as (Hx & Ea & _). apply list_elem_of_lookup_2 in Hx.
  by rewrite (NoDup_fmap_inj d_of l x d).
Qed.

(** Every address of a run is recorded, and no other. *)
Lemma state_lookup {laws : CalendarLaws} s history b republish a :
  NoDup (d_of <$> s_documents s) → history_ok history → spelled (generated_at (s_run s)) →
  o_state (restated s history b republish) !! a =
    (λ '(_, d), next (s_run s) (history !! a) (d_hash d) b) <$> list_find (λ d, d_of d = a) (s_documents s).
Proof.
  intros Hnd Hh Hs. rewrite restated_unfold. cbn [o_state]. rewrite lookup_recorded by done.
  destruct (list_find (λ d, d_of d = a) (s_documents s)) as [[i d]|] eqn:E; cbn; [|by rewrite lookup_empty].
  apply list_find_Some in E as (_ & <- & _). f_equal. unfold conclusion.
  assert (Hp : ∀ q, history !! d_of d = Some q → previous_ok q) by (intros q Hq; by apply (Hh _ _ Hq)).
  apply recorded_says; [by apply against_says|by apply next_ok].
Qed.

Lemma elem_of_not_sent s history b republish a :
  a ∈ o_not_sent (restated s history b republish) ↔
    ∃ d, d ∈ s_documents s ∧ d_of d = a ∧ unchanged history d ∧
      ¬ sends_unchanged republish (conclusion s history b d).
Proof.
  rewrite restated_unfold. cbn [o_not_sent]. rewrite elem_of_list_to_set, list_elem_of_fmap.
  setoid_rewrite list_elem_of_filter. naive_solver.
Qed.

Lemma unchanged_spec history d :
  unchanged history d ↔ ∃ p, history !! d_of d = Some p ∧ hash p = d_hash d.
Proof.
  unfold unchanged. destruct (history !! d_of d) as [p|]; cbn.
  - rewrite bool_decide_spec. naive_solver.
  - naive_solver.
Qed.

(** C31: the revision rule. The documents of a run keep their address, payload
    and hash, and each says what its history and its figures dictate: revision
    1 when the address is new, the recorded revision, clock and reason when
    the hash is the recorded one, and otherwise the next revision (saturating
    at the top of the width) restated at the run's clock for the run's
    reason. The record left behind is exactly that, for every address of the
    run and no other; and a document is not sent exactly when its hash is the
    recorded one and no republication asks for it. *)
Theorem revision_rule {laws : CalendarLaws} (s : Snapshot) (history : gmap string Previous) (b : Because)
    (republish : Republish) (r := restated s history b republish) :
  NoDup (d_of <$> s_documents s) → history_ok history → spelled (generated_at (s_run s)) →
  s_run (o_snapshot r) = s_run s ∧ s_coverage (o_snapshot r) = s_coverage s ∧
  Forall2 (λ d d', d_address d' = d_address d ∧ d_period d' = d_period d ∧ d_hash d' = d_hash d ∧
      e_payload (d_envelope d') = e_payload (d_envelope d) ∧
      says d' (next (s_run s) (history !! d_of d) (d_hash d) b) ∧
      o_state r !! d_of d = Some (next (s_run s) (history !! d_of d) (d_hash d) b) ∧
      (d_of d ∈ o_not_sent r ↔
        (hash <$> history !! d_of d) = Some (d_hash d) ∧ sends_unchanged republish d' = false))
    (s_documents s) (s_documents (o_snapshot r)) ∧
  dom (o_state r) = list_to_set (d_of <$> s_documents s).
Proof.
  intros Hnd Hh Hs. assert (E : o_snapshot r = mkSnapshot (s_run s) (s_coverage s) (conclusion s history b <$> s_documents s))
    by (unfold r; by rewrite restated_unfold). rewrite E. cbn [s_run s_coverage s_documents].
  split_and!; [done|done| |].
  - rewrite Forall2_fmap_r. apply Forall_Forall2_diag, Forall_forall. intros d Hd.
    pose proof (against_keeps (s_run s) d (history !! d_of d) b) as (E1 & E2 & E3 & E4).
    assert (Hp : ∀ q, history !! d_of d = Some q → previous_ok q) by (intros q Hq; by apply (Hh _ _ Hq)).
    split_and!; [done..| | |].
    + by apply against_says.
    + unfold r. rewrite state_lookup by done. by destruct (list_find_address _ d Hnd Hd) as [i ->].
    + unfold r. rewrite elem_of_not_sent. split.
      * intros (x & Hx & Ex & Hun & Hsend). rewrite <- (NoDup_fmap_inj d_of _ x d Hnd Hx Hd Ex).
        apply unchanged_spec in Hun as (p & -> & <-). split; [done|]. by destruct (sends_unchanged _ _).
      * intros [Hun Hsend]. exists d. split_and!; [done|done| |unfold conclusion in *; rewrite Hsend; auto].
        apply unchanged_spec. destruct (history !! d_of d) as [p|]; [|done]. cbn in Hun. eexists. split; [done|congruence].
  - apply set_eq. intros a. unfold r. rewrite elem_of_dom, state_lookup by done.
    rewrite elem_of_list_to_set, list_elem_of_fmap. split.
    + destruct (list_find _ _) as [[i d]|] eqn:F; [|by intros [? ?]]. intros _.
      apply list_find_Some in F as (Hd & <- & _). exists d. split; [done|]. by eapply list_elem_of_lookup_2.
    + intros (d & -> & Hd). by destruct (list_find_address _ d Hnd Hd) as [i ->].
Qed.

(** a run over an archive that has not moved re-sends nothing and changes
    no record. When the documents of a run carry the hashes an earlier run
    recorded, none is sent, whatever the reason inferred, and the state it
    leaves is the state it found. *)
Theorem settled_run {laws : CalendarLaws} (s s' : Snapshot) (history : gmap string Previous) (b b' : Because)
    (republish : Republish) (r := restated s history b republish)
    (r' := restated s' (o_state r ∪ history) b' RepublishNo) :
  NoDup (d_of <$> s_documents s) → history_ok history → spelled (generated_at (s_run s)) →
  spelled (generated_at (s_run s')) →
  (λ d, (d_of d, d_hash d)) <$> s_documents s' = (λ d, (d_of d, d_hash d)) <$> s_documents s →
  o_not_sent r' = list_to_set (d_of <$> s_documents s') ∧ o_state r' = o_state r.
Proof.
  intros Hnd Hh Hs Hs' Hsame.
  assert (Hof : d_of <$> s_documents s' = d_of <$> s_documents s).
  { pose proof (f_equal (fmap fst) Hsame) as H. by rewrite <- !list_fmap_compose in H. }
  assert (Hnd' : NoDup (d_of <$> s_documents s')) by (by rewrite Hof).
  assert (Hst : ∀ a, o_state r !! a = (λ '(_, d), next (s_run s) (history !! a) (d_hash d) b) <$>
    list_find (λ d, d_of d = a) (s_documents s)) by (intros a; by apply state_lookup).
  assert (Hpart : ∀ d', d' ∈ s_documents s' → ∃ d, d ∈ s_documents s ∧ d_of d = d_of d' ∧ d_hash d = d_hash d').
  { intros d' Hd'. assert (H : (d_of d', d_hash d') ∈ (λ d, (d_of d, d_hash d)) <$> s_documents s)
      by (rewrite <- Hsame; apply list_elem_of_fmap; eauto).
    apply list_elem_of_fmap in H as (d & [= -> ->] & Hd). eauto. }
  assert (Hold : ∀ d', d' ∈ s_documents s' → ∃ p, o_state r !! d_of d' = Some p ∧ hash p = d_hash d').
  { intros d' Hd'. destruct (Hpart d' Hd') as (d & Hd & <- & <-). rewrite Hst.
    destruct (list_find_address _ d Hnd Hd) as [i ->]. eexists. split; [done|]. apply next_hash. }
  assert (Hok : history_ok (o_state r ∪ history)).
  { intros a p [Ha|[_ Ha]]%lookup_union_Some_raw; [|by apply (Hh _ _ Ha)]. rewrite Hst in Ha.
    destruct (list_find _ _) as [[i d]|]; [|done]. injection Ha as <-. apply next_ok; [done|].
    intros q Hq. by apply (Hh _ _ Hq). }
  split.
  - apply set_eq. intros a. unfold r'. rewrite elem_of_not_sent, elem_of_list_to_set, list_elem_of_fmap. split.
    + intros (d & Hd & <- & _). eauto.
    + intros (d & -> & Hd). exists d. split_and!; [done|done| |by intros []]. apply unchanged_spec.
      destruct (Hold d Hd) as (p & Hp & ?). exists p. split; [|done]. by apply lookup_union_Some_l.
  - apply map_eq. intros a. unfold r'. rewrite state_lookup by done.
    destruct (list_find (λ d, d_of d = a) (s_documents s')) as [[i d']|] eqn:F; cbn.
    + apply list_find_Some in F as (Hd' & <- & _). apply list_elem_of_lookup_2 in Hd'.
      destruct (Hold d' Hd') as (p & Hp & Hh'). rewrite (lookup_union_Some_l _ _ _ _ Hp), Hp. cbn.
      by rewrite decide_True.
    + apply list_find_None in F. rewrite Hst. destruct (list_find _ (s_documents s)) as [[i d]|] eqn:G; [|done].
      exfalso. apply list_find_Some in G as (Hd & <- & _). apply list_elem_of_lookup_2 in Hd.
      assert (H : d_of d ∈ d_of <$> s_documents s') by (rewrite Hof; apply list_elem_of_fmap; eauto).
      apply list_elem_of_fmap in H as (d' & E & Hd'). rewrite Forall_forall in F. by apply (F d').
Qed.

(** Revisions only grow, and only when the figures moved. *)
Lemma next_revision run p h b :
  previous_ok p →
  revision p ≤ revision (next run (Some p) h b) ∧
  (revision (next run (Some p) h b) = revision p ↔ hash p = h ∨ revision p = u32_max).
Proof.
  intros Hp%revision_positive. cbn. case_decide; cbn; [naive_solver lia|].
  unfold u32_saturating_add, u32_max in *. split; [lia|]. split; [intros; right; lia|intros [?|?]; [done|lia]].
Qed.
End restatement.

(** ** Two concrete runs *)

Module sample.
#[export] Existing Instances Gregorian.gregorian Gregorian.gregorian_laws.

Definition at_noon : Run := mkRun "20260101T120000Z" 1767268800.
Definition at_one : Run := mkRun "20260101T130000Z" 1767272400.
Definition figures (n : Z) : Payload :=
  PWindow (mkWindowPayload (range_of (mkWindow 1767182400 1767268800)) [observed "orders.created" (Count n)]).
Definition document (run : Run) (window : Address.Window) (h : string) (n : Z) : Document :=
  mkDocument (Address.AWindow Address.Orders window None) (Document.first run (figures n)) h (generated_at run) None.
(** The first run publishes two documents; the day's figures moved since the
    history was written. *)
Definition noon : Snapshot := mkSnapshot at_noon (since 1767182400)
  [document at_noon Address.Hours24 "h2" 2; document at_noon Address.Days7 "h7" 9].
Definition one : Snapshot := mkSnapshot at_one (since 1767182400)
  [document at_one Address.Hours24 "h2" 2; document at_one Address.Days7 "h7" 9].
Definition history : gmap string Previous := {["orders:24h" := First "h1" 1767200000]}.

Example noon_restates_the_day :
  let r := restated noon history Backfill RepublishNo in
  o_state r !! "orders:24h" = Some (Restated "h2" 2 1767268800 (mkRestatement 1767268800 "backfill")) ∧
  o_state r !! "orders:7d" = Some (First "h7" 1767268800) ∧ o_not_sent r = ∅.
Proof. vm_compute. repeat split. Qed.

Lemma noon_distinct : NoDup (d_of <$> s_documents noon).
Proof. apply (bool_decide_unpack _). vm_compute. exact I. Qed.
Lemma history_is_ok : history_ok history.
Proof. unfold history. intros a p [_ <-]%lookup_singleton_Some. exact I. Qed.
Lemma clocks_spelled : spelled (generated_at at_noon) ∧ spelled (generated_at at_one).
Proof. unfold spelled. split_and!; vm_compute; (reflexivity || discriminate). Qed.
End sample.

Theorem revision_rule_witness :
  dom (o_state (restated (cal := Gregorian.gregorian) sample.noon sample.history Backfill RepublishNo))
    = {["orders:24h"; "orders:7d"]}.
Proof.
  destruct (revision_rule (cal := Gregorian.gregorian) (laws := Gregorian.gregorian_laws) sample.noon sample.history Backfill RepublishNo
    sample.noon_distinct sample.history_is_ok (proj1 sample.clocks_spelled)) as (_ & _ & _ & ->).
  vm_compute. reflexivity.
Defined.

