(* ===== verification/Index.v ===== *)
(** * The index

    [crates/stats/src/publish/index.rs] and [size.rs]: what the index of a
    snapshot lists, and the size every document is weighed against. *)

From S2P Require Import Prelude F64 Metric Calendar Window Bucket Document.
From S2P Require Address.

#[local] Open Scope Z_scope.

#[local] Existing Instance Address.resolution_eq_dec.

Record Publisher : Type := mkPublisher { p_name : string; p_version : string }.
Record Extent : Type := mkExtent { first_event_at : option string; last_event_at : option string }.
Record Available : Type := mkAvailable { a_from : string; a_until : string }.
Record Entry : Type := mkEntry {
  en_d : string;
  en_hash : string;
  en_revision : Z;
  en_updated_at : string;
  en_restated_at : option string;
  en_restated_because : option string;
}.
Record Index : Type := mkIndex {
  i_schema_version : Z;
  i_snapshot_id : string;
  i_generated_at : string;
  i_publisher : Publisher;
  i_coverage : Extent;
  i_resolutions : gmap string Available;
  i_documents : list Entry;
}.

Definition address (i : Index) : Address.Address := Address.AIndex None.

(** [Ord::min] and [Ord::max] on strings. *)
Definition str_min (a b : string) : string := if decide (String.le a b) then a else b.
Definition str_max (a b : string) : string := if decide (String.le a b) then b else a.

(** The resolution and bucket key of a series partition. *)
Definition series_key (d : Document) : option (string * string) :=
  match d_address d with
  | Address.ASeries _ partition _ =>
      Some (Address.resolution_as_str (Address.pt_resolution partition), Address.show_bucket (Address.pt_bucket partition))
  | _ => None
  end.

Definition resolutions_step (spans : gmap string Available) (d : Document) : gmap string Available :=
  match series_key d with
  | None => spans
  | Some (resolution, key) =>
      match spans !! resolution with
      | Some span => <[resolution := mkAvailable (str_min (a_from span) key) (str_max (a_until span) key)]> spans
      | None => <[resolution := mkAvailable key key]> spans
      end
  end.
Definition resolutions (documents : list Document) : gmap string Available :=
  foldl resolutions_step ∅ documents.

Section index.
Context {cal : Calendar}.

Definition entry (d : Document) : Entry := {|
  en_d := d_of d;
  en_hash := d_hash d;
  en_revision := e_revision (d_envelope d);
  en_updated_at := rfc3339 (d_updated_at d);
  en_restated_at := e_restated_at (d_envelope d);
  en_restated_because := e_restated_because (d_envelope d);
|}.

(** [Snapshot::index]. *)
Definition index (s : Snapshot) (publisher : Publisher) : Index := {|
  i_schema_version := SCHEMA_VERSION;
  i_snapshot_id := snapshot_id (s_run s);
  i_generated_at := rfc3339 (generated_at (s_run s));
  i_publisher := publisher;
  i_coverage := mkExtent (rfc3339 <$> earliest (s_coverage s)) (rfc3339 <$> latest (s_coverage s));
  i_resolutions := resolutions (s_documents s);
  i_documents := entry <$> s_documents s;
|}.
End index.

Definition index_content `{Serialize Index} (i : Index) : string := to_json i.

(** ** The size gate *)

Definition DEFAULT_MAX_CONTENT_BYTES : Z := 64 * 1024.
Record Ceiling : Type := mkCeiling { bytes : Z; relay : option string }.
Definition configured (bytes : Z) : Ceiling := mkCeiling bytes None.
Definition and_relay (c : Ceiling) (relay : string) (advertised : Z) : Ceiling :=
  if decide (advertised < bytes c) then mkCeiling advertised (Some relay) else c.

Record Measured : Type := mkMeasured { ms_address : Address.Address; ms_bytes : Z; ms_hash : option string }.
(** [str::len]: bytes. *)
Definition byte_len (s : string) : Z := Z.of_nat (String.length s).
Definition measure `{Serialize Envelope} (documents : list Document) : list Measured :=
  (λ d, mkMeasured (d_address d) (byte_len (content d)) (Some (d_hash d))) <$> documents.
Definition measure_index `{Serialize Index} (i : Index) : Measured :=
  mkMeasured (address i) (byte_len (index_content i)) None.
Definition over (measured : list Measured) (ceiling : Ceiling) : list Measured :=
  filter (λ m, bytes ceiling < ms_bytes m) measured.

(** What the relays advertise, folded in. *)
Definition fold_limits (limits : list (string * option Z)) (c : Ceiling) : Ceiling :=
  foldl (λ c '(relay, limit), match limit with Some limit => and_relay c relay limit | None => c end) c limits.

(** The ceiling in force is the least of the configured one and those
    advertised, and a relay it names advertised it. *)
Lemma fold_limits_spec limits c :
  let r := fold_limits limits c in
  bytes r ≤ bytes c ∧ (∀ name n, (name, Some n) ∈ limits → bytes r ≤ n) ∧
  (r = c ∨ ∃ name, relay r = Some name ∧ (name, Some (bytes r)) ∈ limits).
Proof.
  cbv zeta. unfold fold_limits. revert c. induction limits as [|[name [n|]] limits IH]; intros c; cbn [foldl].
  - split_and!; [lia|by intros ?? ?%elem_of_nil|by left].
  - destruct (IH (and_relay c name n)) as (H1 & H2 & H3). unfold and_relay in *. case_decide; cbn [bytes] in *.
    + split_and!; [lia| |].
      * intros name' n' [[= -> ->]|Hin]%elem_of_cons; [lia|by eapply H2].
      * right. destruct H3 as [->|(name' & E & Hin)]; [by exists name; split; [|left]|exists name'; by split; [|right]].
    + split_and!; [done| |].
      * intros name' n' [[= -> ->]|Hin]%elem_of_cons; [lia|by eapply H2].
      * destruct H3 as [->|(name' & E & Hin)]; [by left|right; exists name'; by split; [|right]].
  - destruct (IH c) as (H1 & H2 & H3). split_and!; [done| |].
    + intros name' n' [?|Hin]%elem_of_cons; [done|by eapply H2].
    + destruct H3 as [->|(name' & E & Hin)]; [by left|right; exists name'; by split; [|right]].
Qed.

(** ** The spans of the resolutions *)

Lemma str_min_le a b : String.le (str_min a b) a ∧ String.le (str_min a b) b.
Proof. unfold str_min. case_decide as H; [done|]. destruct (total String.le a b); done. Qed.
Lemma str_max_ge a b : String.le a (str_max a b) ∧ String.le b (str_max a b).
Proof. unfold str_max. case_decide as H; [done|]. destruct (total String.le a b); done. Qed.

(** The keys published at one resolution. *)
Definition keys_at (resolution : string) (documents : list Document) : list string :=
  omap (λ d, '(r, key) ← series_key d; if decide (r = resolution) then Some key else None) documents.

Definition spans_keys (o : option Available) (keys : list string) : Prop :=
  match o with
  | None => keys = []
  | Some span => a_from span ∈ keys ∧ a_until span ∈ keys ∧
      Forall (λ k, String.le (a_from span) k ∧ String.le k (a_until span)) keys
  end.

Lemma resolutions_lookup documents resolution :
  spans_keys (resolutions documents !! resolution) (keys_at resolution documents).
Proof.
  unfold resolutions. induction documents as [|d documents IH] using rev_ind; [cbn [foldl]; by rewrite lookup_empty|].
  rewrite foldl_snoc. unfold keys_at in *. rewrite omap_app. set (spans := foldl _ _ _) in *. clearbody spans.
  set (keys := omap _ documents) in *. clearbody keys. cbn [omap list_omap].
  unfold resolutions_step. destruct (series_key d) as [[r key]|]; cbn [mbind option_bind]; [|by rewrite app_nil_r].
  destruct (decide (r = resolution)) as [->|Hr].
  2: { rewrite app_nil_r. destruct (spans !! r); by rewrite lookup_insert_ne by done. }
  destruct (spans !! resolution) as [span|] eqn:E; rewrite lookup_insert_eq; cbn in IH |- *.
  - destruct IH as (H1 & H2 & H3). destruct (str_min_le (a_from span) key) as [M _], (str_max_ge (a_until span) key) as [N _].
    split_and!.
    + rewrite elem_of_app, list_elem_of_singleton. unfold str_min. case_decide; auto.
    + rewrite elem_of_app, list_elem_of_singleton. unfold str_max. case_decide; auto.
    + apply Forall_app. split.
      2: { constructor; [|done]. split; [apply str_min_le|apply str_max_ge]. }
      eapply Forall_impl; [exact H3|].
      intros k [? ?]. split; [by etrans; [exact M|]|by etrans; [|exact N]].
  - rewrite IH. cbn. split_and!; [by apply list_elem_of_singleton..|]. by repeat constructor.
Qed.

(** Keys of one resolution sort as text the way their buckets sort in time. *)
Lemma ascii_compare_digits a b :
  is_ascii_digit a = true → is_ascii_digit b = true → Ascii.compare a b = (digit_value a ?= digit_value b).
Proof.
  intros Ha Hb. unfold Ascii.compare, digit_value.
  pose proof (digit_value_range a Ha). pose proof (digit_value_range b Hb). unfold digit_value in *.
  destruct (N.compare_spec (N_of_ascii a) (N_of_ascii b)) as [E|E|E].
  - rewrite E. by rewrite Z.compare_refl.
  - symmetry. apply Z.compare_lt_iff. lia.
  - symmetry. apply Z.compare_gt_iff. lia.
Qed.

Lemma digits_from_lt s t acc acc' n m :
  String.length s = String.length t → digits_from acc s = Some n → digits_from acc' t = Some m →
  acc < acc' → n < m.
Proof.
  revert t acc acc'. induction s as [|a s IH]; intros [|b t] acc acc'; cbn [digits_from String.length]; try done.
  - intros _ [= <-] [= <-]. done.
  - intros [= Hlen]. destruct (is_ascii_digit a) eqn:Ha; [|done]. destruct (is_ascii_digit b) eqn:Hb; [|done].
    intros H1 H2 Hacc. apply (IH t _ _ Hlen H1 H2).
    pose proof (digit_value_range a Ha). pose proof (digit_value_range b Hb). lia.
Qed.

Lemma digits_from_compare s t acc n m :
  String.length s = String.length t → digits_from acc s = Some n → digits_from acc t = Some m →
  String.compare s t = (n ?= m).
Proof.
  revert t acc. induction s as [|a s IH]; intros [|b t] acc; cbn [digits_from String.length]; try done.
  - intros _ [= <-] [= <-]. by rewrite Z.compare_refl.
  - intros [= Hlen]. destruct (is_ascii_digit a) eqn:Ha; [|done]. destruct (is_ascii_digit b) eqn:Hb; [|done].
    intros H1 H2. cbn [String.compare]. rewrite ascii_compare_digits by done.
    destruct (Z.compare_spec (digit_value a) (digit_value b)) as [E|E|E].
    + rewrite E in H1. by apply (IH t _ Hlen H1).
    + symmetry. apply Z.compare_lt_iff, (digits_from_lt s t _ _ n m Hlen H1 H2). lia.
    + symmetry. apply Z.compare_gt_iff, (digits_from_lt t s _ _ m n ltac:(done) H2 H1). lia.
Qed.

Lemma compare_app s t x y :
  String.length s = String.length t →
  String.compare (s +:+ x) (t +:+ y) = match String.compare s t with Eq => String.compare x y | c => c end.
Proof.
  revert t. induction s as [|a s IH]; intros [|b t]; cbn [String.length]; try done. intros [= Hlen].
  rewrite !string_app_cons. cbn [String.compare]. destruct (Ascii.compare a b); [by apply IH|done..].
Qed.

Lemma pad_compare width n m :
  (0 < width)%nat → 0 ≤ n < 10 ^ Z.of_nat width → 0 ≤ m < 10 ^ Z.of_nat width →
  String.length (pad width n) = String.length (pad width m) ∧ String.compare (pad width n) (pad width m) = (n ?= m).
Proof.
  intros Hb Hn Hm. destruct (Address.pad_back _ _ Hb Hn) as [L1 [_ D1]%Address.fixed_digits_Some].
  destruct (Address.pad_back _ _ Hb Hm) as [L2 [_ D2]%Address.fixed_digits_Some].
  split; [congruence|]. unfold digits in *.
  destruct (pad width n) as [|a s] eqn:E1, (pad width m) as [|b t] eqn:E2; try done.
  apply (digits_from_compare _ _ 0); [congruence|done..].
Qed.

Lemma show_bucket_compare r a b :
  Address.fits a r = true → Address.fits b r = true → Address.bucket_ok a → Address.bucket_ok b →
  String.compare (Address.show_bucket a) (Address.show_bucket b) = (bucket_index a ?= bucket_index b).
Proof.
  unfold Address.bucket_ok, Address.year_ok, Address.month_ok, bucket_index, month_index.
  destruct a as [y m|y], b as [y' m'|y'], r; try done; intros _ _ Ha Hb; cbn [Address.show_bucket];
    unfold Address.show_year, Address.show_month.
  1, 2: destruct (pad_compare 4 y y' ltac:(lia) ltac:(lia) ltac:(lia)) as [L C];
    destruct (pad_compare 2 m m' ltac:(lia) ltac:(lia) ltac:(lia)) as [L' C'];
    rewrite compare_app, C by done; rewrite compare_app, C' by done; change (String.compare "-" "-") with Eq;
    destruct (Z.compare_spec y y'); subst; [destruct (Z.compare_spec m m')|..]; subst; symmetry;
    rewrite ?Z.compare_eq_iff, ?Z.compare_lt_iff, ?Z.compare_gt_iff; lia.
  destruct (pad_compare 4 y y' ltac:(lia) ltac:(lia) ltac:(lia)) as [L ->].
  destruct (Z.compare_spec y y'); subst; symmetry;
    rewrite ?Z.compare_eq_iff, ?Z.compare_lt_iff, ?Z.compare_gt_iff; lia.
Qed.

(** the index lists what was published. Its entries are the documents in
    order, each under its own address with its hash and revision; it offers a
    resolution exactly when a partition was published at it, with the least
    and greatest of the keys published there, and as text they order as the
    buckets do in time: every partition of the resolution lies between them. *)
Theorem index_spec {cal : Calendar} (s : Snapshot) (publisher : Publisher) (i := index s publisher) :
  Forall (λ d, Address.address_ok (d_address d)) (s_documents s) →
  (λ e, (en_d e, en_hash e, en_revision e)) <$> i_documents i =
    (λ d, (Address.show (d_address d), d_hash d, e_revision (d_envelope d))) <$> s_documents s ∧
  ∀ r, let published := omap (λ d, match d_address d with
         | Address.ASeries _ p _ => if decide (Address.pt_resolution p = r) then Some (Address.pt_bucket p) else None
         | _ => None end) (s_documents s) in
    match i_resolutions i !! Address.resolution_as_str r with
    | None => published = []
    | Some span => ∃ first last, first ∈ published ∧ last ∈ published ∧
        a_from span = Address.show_bucket first ∧ a_until span = Address.show_bucket last ∧
        ∀ b, b ∈ published → bucket_index first ≤ bucket_index b ≤ bucket_index last
    end.
Proof.
  intros Hok. split; [cbn; by rewrite <- list_fmap_compose|]. intros r published.
  assert (E : keys_at (Address.resolution_as_str r) (s_documents s) = Address.show_bucket <$> published).
  { subst published. unfold keys_at. induction (s_documents s) as [|d l IH]; [done|].
    inversion Hok; subst. cbn [omap list_omap]. unfold series_key at 1.
    destruct (d_address d) as [| |report [r' b] scope]; cbn [mbind option_bind Address.pt_resolution Address.pt_bucket];
      [by apply IH..|].
    destruct (decide (r' = r)) as [->|Hr].
    - rewrite decide_True by done. cbn. by rewrite IH.
    - rewrite decide_False by (destruct r, r'; done). by apply IH. }
  assert (Hgood : ∀ b, b ∈ published → Address.fits b r = true ∧ Address.bucket_ok b).
  { intros b Hb. subst published. apply list_elem_of_omap in Hb as (d & Hd & Hb).
    rewrite Forall_forall in Hok. specialize (Hok d Hd). destruct (d_address d) as [| |report [r' b'] scope]; try done.
    cbn in Hb. case_decide; [|done]. injection Hb as ->. subst. by destruct Hok as (? & ? & _). }
  pose proof (resolutions_lookup (s_documents s) (Address.resolution_as_str r)) as H. rewrite E in H.
  cbn [i_resolutions index i]. destruct (resolutions (s_documents s) !! _) as [span|]; cbn in H.
  2: { by apply fmap_nil_inv in H. }
  destruct H as ((first & Ef & Hf)%list_elem_of_fmap & (last & El & Hl)%list_elem_of_fmap & Hall).
  exists first, last. split_and!; [done..|]. intros b Hb. rewrite Forall_fmap, Forall_forall in Hall.
  destruct (Hall b Hb) as [H1 H2]. rewrite Ef in H1. rewrite El in H2. unfold String.le, String.leb in H1, H2.
  destruct (Hgood first Hf), (Hgood last Hl), (Hgood b Hb).
  rewrite (show_bucket_compare r) in H1, H2 by done. unfold Z.le.
  destruct (bucket_index first ?= bucket_index b), (bucket_index b ?= bucket_index last); done.
Qed.

(** ** A concrete index *)

Module sample.
#[export] Existing Instances Gregorian.gregorian Gregorian.gregorian_laws.

Definition run : Run := mkRun "20260301T000000Z" 1772323200.
Definition partition (month n : Z) : Document :=
  mkDocument (Address.ASeries Address.Orders (Address.mkPartition Address.Daily (Address.BMonth 2026 month)) None)
    (Document.first run (PSeries (mkSeriesPayload (range_of (mkWindow 0 n)) "daily" [] []))) "h" n None.
Definition snapshot : Snapshot := mkSnapshot run (between 1767225600 1772323200)
  [partition 2 5; partition 1 7; mkDocument (Address.AWindow Address.Market Address.All None)
     (Document.first run (PWindow (mkWindowPayload (range_of (mkWindow 0 1)) []))) "m" 3 None].
Definition publisher : Publisher := mkPublisher "bestiario" "0.1.0".
Lemma addresses_ok : Forall (λ d, Address.address_ok (d_address d)) (s_documents snapshot).
Proof. repeat constructor; done. Qed.
End sample.

