(* ===== verification/Published.v ===== *)
(** * What has been published

    [src/db/repo/published.rs] and [migrations/0003_publication_state.sql]:
    the two tables that let a later run say what changed. *)

From S2P Require Import Prelude Calendar Window Bucket Document Restatement.

#[local] Open Scope Z_scope.

(** ** The tables *)

Record DocumentRow : Type := mkDocumentRow {
  pd_hash : string; pd_revision : Z; pd_updated_at : Z;
  pd_restated_at : option Z; pd_restated_because : option string;
}.
Record RunRow : Type := mkRunRow {
  pr_snapshot_id : string; pr_generated_at : Z; pr_schema_version : Z;
  pr_first_event_at : option Z; pr_last_event_at : option Z; pr_events : Z;
}.
Record Tables : Type := mkTables {
  published_documents : gmap string DocumentRow;
  publication_runs : gmap string RunRow;
}.
Definition empty_tables : Tables := mkTables ∅ ∅.

(** [published::Run]. *)
Record Run : Type := mkRun {
  run_snapshot_id : string; run_generated_at : Z; run_schema_version : Z;
  run_first_event_at : option Z; run_last_event_at : option Z; run_events : Z;
}.

(** ** Reading and writing *)

(** [value as u32] of an [i64]. *)
Definition as_u32 (n : Z) : Z := n mod 2 ^ 32.

Definition into_previous (row : DocumentRow) : Previous :=
  let r := '(at_, because) ← option_zip (pd_restated_at row) (pd_restated_because row); Some (mkRestatement at_ because) in
  match r ≫= previous_restated (pd_hash row) (as_u32 (Z.max 0 (pd_revision row))) (pd_updated_at row) with
  | Some p => p
  | None => First (pd_hash row) (pd_updated_at row)
  end.
Definition all (t : Tables) : gmap string Previous := into_previous <$> published_documents t.

Definition row_of (p : Previous) : DocumentRow := {|
  pd_hash := hash p; pd_revision := revision p; pd_updated_at := updated_at p;
  pd_restated_at := at_ <$> restatement p; pd_restated_because := because <$> restatement p;
|}.
Definition record (address : string) (p : Previous) (t : Tables) : Tables :=
  mkTables (<[address := row_of p]> (published_documents t)) (publication_runs t).

Definition run_row (r : Run) : RunRow := {|
  pr_snapshot_id := run_snapshot_id r; pr_generated_at := run_generated_at r;
  pr_schema_version := run_schema_version r; pr_first_event_at := run_first_event_at r;
  pr_last_event_at := run_last_event_at r; pr_events := as_i64 (run_events r);
|}.
Definition record_run (r : Run) (t : Tables) : Tables :=
  mkTables (published_documents t) (<[run_snapshot_id r := run_row r]> (publication_runs t)).

Definition into_run (row : RunRow) : Run := {|
  run_snapshot_id := pr_snapshot_id row; run_generated_at := pr_generated_at row;
  run_schema_version := as_u32 (Z.max 0 (pr_schema_version row));
  run_first_event_at := pr_first_event_at row; run_last_event_at := pr_last_event_at row;
  run_events := Z.max 0 (pr_events row);
|}.
(** [ORDER BY generated_at DESC, snapshot_id DESC LIMIT 1]. *)
Definition latest_run (t : Tables) : option Run :=
  into_run <$> last (order_by (λ row, (pr_generated_at row, pr_snapshot_id row)) (rows (publication_runs t))).

(** ** What is written reads back *)

Definition run_ok (r : Run) : Prop :=
  0 ≤ run_schema_version r ≤ u32_max ∧ 0 ≤ run_events r ≤ i64_max.

Lemma as_u32_small n : 0 ≤ n ≤ u32_max → as_u32 (Z.max 0 n) = n.
Proof. unfold as_u32, u32_max. intros H. rewrite Z.max_r by lia. apply Z.mod_small. lia. Qed.

Lemma row_round_trip {cal : Calendar} p : previous_ok p → into_previous (row_of p) = p.
Proof.
  destruct p as [h u|h r u [a b]]; [done|]. intros [Hr _]. unfold into_previous; cbn.
  rewrite as_u32_small by lia. unfold previous_restated. by rewrite decide_True by lia.
Qed.

Lemma into_previous_ok {cal : Calendar} row :
  (∀ a, pd_restated_at row = Some a → spelled a) → previous_ok (into_previous row).
Proof.
  intros Ha. unfold into_previous. destruct (pd_restated_at row) as [a|], (pd_restated_because row) as [b|]; cbn; try done.
  unfold previous_restated. case_decide; [|done]. cbn. split; [|by apply Ha].
  unfold as_u32, u32_max in *. pose proof (Z.mod_pos_bound (Z.max 0 (pd_revision row)) (2 ^ 32)). lia.
Qed.

Lemma run_round_trip r : run_ok r → into_run (run_row r) = r.
Proof.
  intros [Hs He]. unfold into_run, run_row; cbn. rewrite as_u32_small, as_i64_small by (done || lia). rewrite Z.max_r by lia. by destruct r.
Qed.

Lemma latest_run_max t row :
  last (order_by (λ row, (pr_generated_at row, pr_snapshot_id row)) (rows (publication_runs t))) = Some row →
  row ∈ rows (publication_runs t) ∧ ∀ x, x ∈ rows (publication_runs t) → pr_generated_at x ≤ pr_generated_at row.
Proof.
  intros [Hin Hmax]%last_by_Some. split; [done|]. intros x Hx. destruct (Hmax x Hx) as [?|[? _]]; cbn in *; lia.
Qed.
