(* ===== verification/Disputes.v ===== *)
(** * Dispute figures

    [crates/stats/src/disputes.rs]: disputes counted by what their events say
    of themselves, against the orders that found a taker. *)

From S2P Require Import Prelude F64 Rounding StatsPrelude Percentile Calendar Window Metric Bucket Activity.

#[local] Open Scope Z_scope.

Inductive Status : Type :=
| Initiated | InProgress | SellerRefunded | Settled | Released | CooperativelyCanceled.
#[export] Instance disputes_status_eq_dec : EqDecision Status.
Proof. solve_decision. Defined.
Definition status_all : list Status :=
  [Initiated; InProgress; SellerRefunded; Settled; Released; CooperativelyCanceled].
Definition status_terminal : list Status := [SellerRefunded; Settled; Released; CooperativelyCanceled].
Definition as_key (s : Status) : string :=
  match s with
  | Initiated => "initiated" | InProgress => "in_progress" | SellerRefunded => "seller_refunded"
  | Settled => "settled" | Released => "released" | CooperativelyCanceled => "cooperatively_canceled"
  end.

Inductive Initiator : Type := Buyer | Seller.
#[export] Instance disputes_initiator_eq_dec : EqDecision Initiator.
Proof. solve_decision. Defined.

Record Dispute : Type := mkDispute {
  d_dispute_id : string;
  d_instance : string;
  d_opened_at : Z;
  d_status : Status;
  d_initiator : option Initiator;
  d_resolved_at : option Z;
  d_outcome : option Status;
}.
Record OpenDispute : Type := mkOpenDispute { od_dispute_id : string; od_age : Z }.
Record Taken : Type := mkTaken { tk_order_id : string; tk_instance : string; tk_left_pending_at : Z }.
Record DisputeData : Type := mkDisputeData { dd_disputes : list Dispute; dd_taken : list Taken }.
Definition no_data : DisputeData := mkDisputeData [] [].

Inductive Dimension : Type := ByStatus | ByInitiator | ByInstance | ByMonth | ByDay.

Record Disputes : Type := mkDisputes {
  opened : Z;
  by_status : list Z;
  buyer_share : option f64;
  rate : option f64;
  resolved : Z;
  outcome : option (list f64);
  resolution_p50 : option Z;
  resolution_p90 : option Z;
  open : list OpenDispute;
}.
(** [Disputes::default()]. *)
Definition no_disputes : Disputes := mkDisputes 0 (replicate 6 0) None None 0 None None None [].

Definition opened_in (window : Window) (d : Dispute) : bool := contains window (d_opened_at d).
Definition resolved_in (window : Window) (d : Dispute) : bool := is_some_and (contains window) (d_resolved_at d).
Definition is_open (now : Z) (d : Dispute) : bool :=
  bool_decide (d_status d = Initiated) && bool_decide (d_opened_at d ≤ now).

(** The position of a status in [Status::ALL]. *)
Definition status_index (s : Status) : option nat := fst <$> list_find (λ status, status = s) status_all.
Definition tally (counts : list Z) (d : Dispute) : list Z :=
  match status_index (d_status d) with Some index => alter (Z.add 1) index counts | None => counts end.

Definition summarise (data : DisputeData) (window : Window) (now : Z) : Disputes :=
  let opened := filter (λ d, opened_in window d) (dd_disputes data) in
  let with_initiator := count_if (λ d, option_is_some (d_initiator d)) opened in
  let buyers := count_if (λ d, bool_decide (d_initiator d = Some Buyer)) opened in
  let taken := count_if (λ t, contains window (tk_left_pending_at t)) (dd_taken data) in
  let resolved := filter (λ d, resolved_in window d) (dd_disputes data) in
  let len {A} (l : list A) := Z.of_nat (length l) in
  let outcome :=
    if decide (resolved = []) then None
    else Some ((λ status, f64_div (f64_of_Z (count_if (λ d, bool_decide (d_outcome d = Some status)) resolved))
                            (f64_of_Z (len resolved))) <$> status_terminal) in
  let resolution := omap (λ d, (λ at_, i64_sub at_ (d_opened_at d)) <$> d_resolved_at d) resolved in
  let open := order_by (λ d, (d_opened_at d, d_dispute_id d)) (filter (λ d, is_open now d) (dd_disputes data)) in
  {|
    opened := len opened;
    by_status := foldl tally (replicate (length status_all) 0) opened;
    buyer_share := Activity.ratio buyers with_initiator;
    rate := Activity.ratio (len opened) taken;
    resolved := len resolved;
    outcome := outcome;
    resolution_p50 := percentile resolution half;
    resolution_p90 := percentile resolution ninety;
    open := (λ d, mkOpenDispute (d_dispute_id d) (i64_sub now (d_opened_at d))) <$> open;
  |}.

(** [by_instance]. *)
Definition push_dispute (d : Dispute) (data : DisputeData) : DisputeData :=
  mkDisputeData (dd_disputes data ++ [d]) (dd_taken data).
Definition push_taken (t : Taken) (data : DisputeData) : DisputeData :=
  mkDisputeData (dd_disputes data) (dd_taken data ++ [t]).
Definition by_instance (data : DisputeData) : gmap string DisputeData :=
  foldl (entry_push tk_instance push_taken no_data)
    (foldl (entry_push d_instance push_dispute no_data) ∅ (dd_disputes data)) (dd_taken data).

(** ** The report *)

Definition seconds (prefix name : string) (value : option Z) : Metric :=
  observed (dotted prefix name) (or_missing Seconds value).
Definition status_metrics (prefix : string) (d : Disputes) : list Metric :=
  zip_with (λ status n, Activity.count prefix (dotted "status" (as_key status)) n) status_all (by_status d).
Definition initiator_metrics (prefix : string) (d : Disputes) : list Metric :=
  [ Activity.ratio_metric prefix "initiator.buyer" (buyer_share d);
    Activity.ratio_metric prefix "initiator.seller" (f64_sub (f64_of_Z 1) <$> buyer_share d) ].
Definition dated_metrics (prefix : string) (d : Disputes) : list Metric :=
  [Activity.count prefix "opened" (opened d)]
  ++ status_metrics prefix d
  ++ initiator_metrics prefix d
  ++ [Activity.ratio_metric prefix "rate" (rate d); Activity.count prefix "resolved" (resolved d)]
  ++ imap (λ index status,
       Activity.ratio_metric prefix (dotted "outcome" (as_key status)) (outcome d ≫= lookup index)) status_terminal
  ++ [seconds prefix "resolution_p50" (resolution_p50 d); seconds prefix "resolution_p90" (resolution_p90 d)].
Definition metrics (prefix : string) (d : Disputes) : list Metric :=
  dated_metrics prefix d
  ++ [Activity.count prefix "open_now" (Z.of_nat (length (open d)))]
  ++ mjoin (imap (λ index o,
       let n := pretty (Z.of_nat (index + 1)) in
       [ observed (dotted prefix ("open." +:+ n +:+ ".id")) (Text (od_dispute_id o));
         seconds prefix ("open." +:+ n +:+ ".age") (Some (od_age o)) ]) (open d)).
Definition unavailable (prefix : string) : list Metric :=
  (λ m, observed (m_name m) Missing) <$> metrics prefix no_disputes.

Section report.
Context {cal : Calendar}.
Definition report (data : DisputeData) (window : Window) (now : Z) (dimension : option Dimension)
    (coverage : Coverage) : list Metric :=
  let periodic period := walk window period coverage (λ key bucket _,
    dated_metrics (dotted "disputes" key) (summarise data bucket now)) in
  match dimension with
  | None => metrics "disputes" (summarise data window now)
  | Some ByStatus => status_metrics "disputes" (summarise data window now)
  | Some ByInitiator => initiator_metrics "disputes" (summarise data window now)
  | Some ByDay => periodic Day
  | Some ByMonth => periodic Month
  | Some ByInstance =>
      btree_iter (by_instance data) ≫= λ '(key, group), metrics (dotted "disputes" key) (summarise group window now)
  end.
End report.

(** ** What the figures promise *)

Lemma count_if_snoc {A} (p : A → bool) l x : count_if p (l ++ [x]) = count_if p l + if p x then 1 else 0.
Proof. rewrite count_if_app, count_if_cons. change (count_if p []) with 0. lia. Qed.

Lemma tally_counts l :
  foldl tally (replicate (length status_all) 0) l = (λ s, count_if (λ d, bool_decide (d_status d = s)) l) <$> status_all.
Proof.
  induction l as [|d l IH] using rev_ind; [done|]. rewrite foldl_snoc, IH.
  unfold status_all. cbn [fmap list_fmap]. rewrite !count_if_snoc.
  unfold tally. destruct (d_status d) eqn:E; cbn; rewrite ?E; cbn; rewrite ?Z.add_0_r, ?(Z.add_comm _ 1); done.
Qed.

Lemma tally_total l : sum_Z (foldl tally (replicate (length status_all) 0) l) = Z.of_nat (length l).
Proof.
  rewrite tally_counts. induction l as [|d l IH]; [done|]. cbn [length]. rewrite Nat2Z.inj_succ, <- IH.
  unfold status_all. cbn [fmap list_fmap sum_Z foldr]. rewrite !count_if_cons.
  destruct (d_status d); repeat case_bool_decide; congruence || lia.
Qed.

Lemma ratio_None a b : 0 ≤ b → Activity.ratio a b = None ↔ b = 0.
Proof. intros Hb. unfold Activity.ratio. case_decide; split; done || lia. Qed.

Lemma opened_measure window now (data : DisputeData) :
  opened (summarise data window now) = count_if (opened_in window) (dd_disputes data) ∧
  resolved (summarise data window now) = count_if (resolved_in window) (dd_disputes data) ∧
  Z.of_nat (length (open (summarise data window now))) = count_if (is_open now) (dd_disputes data).
Proof.
  split_and!; [done|done|]. cbn [open summarise]. rewrite length_fmap, order_by_Permutation. done.
Qed.

(** What an instance had disputed and taken. *)
Definition own_account (key : string) (data : DisputeData) : DisputeData :=
  mkDisputeData (filter (λ d, d_instance d = key) (dd_disputes data)) (filter (λ t, tk_instance t = key) (dd_taken data)).
Lemma own_disputes data key : default no_data (by_instance data !! key) = own_account key data.
Proof.
  unfold by_instance. rewrite !entry_push_lookup, lookup_empty. cbn [default from_option].
  assert (∀ l d, foldl (λ d x, push_dispute x d) d l = mkDisputeData (dd_disputes d ++ l) (dd_taken d)) as ->.
  { induction l as [|x l IH]; intros [ds ts]; cbn; [by rewrite app_nil_r|]. rewrite IH. cbn. by rewrite <- app_assoc. }
  assert (∀ l d, foldl (λ d x, push_taken x d) d l = mkDisputeData (dd_disputes d) (dd_taken d ++ l)) as ->; [|done].
  induction l as [|x l IH]; intros [ds ts]; cbn; [by rewrite app_nil_r|]. rewrite IH. cbn. by rewrite <- app_assoc.
Qed.
Lemma dispute_groups_lookup data key group :
  by_instance data !! key = Some group ↔
    group = own_account key data ∧ ((∃ d, d ∈ dd_disputes data ∧ d_instance d = key) ∨ ∃ t, t ∈ dd_taken data ∧ tk_instance t = key).
Proof.
  pose proof (own_disputes data key) as Hown.
  assert (is_Some (by_instance data !! key) ↔
    (∃ d, d ∈ dd_disputes data ∧ d_instance d = key) ∨ ∃ t, t ∈ dd_taken data ∧ tk_instance t = key) as Hsome.
  { unfold by_instance. rewrite !entry_push_is_Some, lookup_empty. pose proof (is_Some_None (A := DisputeData)). tauto. }
  split.
  - intros E. rewrite E in Hown. split; [done|]. apply Hsome. by rewrite E.
  - intros [-> Hs]. apply Hsome in Hs as [g E]. rewrite E in Hown |- *. by cbn in Hown; subst.
Qed.

(** A figure counted dispute by dispute adds up over the instances. *)
Lemma by_instance_total (p : Dispute → bool) data :
  total_of (λ d, count_if p (dd_disputes d)) (by_instance data) = count_if p (dd_disputes data).
Proof.
  unfold by_instance.
  rewrite (total_of_fold tk_instance push_taken no_data _ (λ _, 0)) by done.
  rewrite (total_of_fold d_instance push_dispute no_data _ (λ d, if p d then 1 else 0)).
  - by rewrite sum_Z_zero, total_of_empty, count_if_sum, Z.add_0_r.
  - done.
  - intros x d. cbn. rewrite count_if_snoc. lia.
Qed.

Lemma open_sorted (l : list Dispute) now :
  StronglySorted (by_key (λ d, (d_opened_at d, d_dispute_id d))) l →
  Forall (λ d, 0 ≤ d_opened_at d ≤ now) l → is_i64 now →
  let o := (λ d, mkOpenDispute (d_dispute_id d) (i64_sub now (d_opened_at d))) <$> l in
  StronglySorted (λ a b, od_age b ≤ od_age a) o ∧ Forall (λ x, 0 ≤ od_age x) o.
Proof.
  intros Hs Hr Hn. unfold is_i64, i64_min, i64_max in Hn.
  assert (Hage : ∀ d, 0 ≤ d_opened_at d ≤ now → i64_sub now (d_opened_at d) = now - d_opened_at d)
    by (intros d ?; apply i64_sub_small; unfold is_i64, i64_min, i64_max; lia).
  induction Hs as [|d l Hs IH Hd]; cbn; [by split; constructor|]. inversion Hr as [|?? H1 H2]; subst.
  destruct (IH H2) as [I1 I2]. split; constructor; try done; cbn; rewrite Hage by done; [|lia].
  apply Forall_fmap, Forall_forall. intros x Hx. cbn. rewrite Forall_forall in H2, Hd.
  rewrite Hage by (by apply H2). destruct (Hd x Hx) as [H|[H _]]; cbn in H; lia.
Qed.

(** A share of a count, missing exactly when there is nothing to count. *)
Definition share_of (numerator denominator : Z) : option f64 :=
  if decide (denominator = 0) then None else Some (f64_div (f64_of_Z numerator) (f64_of_Z denominator)).
Lemma ratio_share_of a b : 0 ≤ b → Activity.ratio a b = share_of a b.
Proof. intros Hb. unfold Activity.ratio, share_of. repeat case_decide; try done; lia. Qed.
Lemma share_of_part {A} (p : A → Prop) `{∀ x, Decision (p x)} l r :
  Z.of_nat (length l) < 2 ^ 53 → share_of (Z.of_nat (length (filter p l))) (Z.of_nat (length l)) = Some r → is_share r.
Proof.
  intros Hlen. unfold share_of. case_decide; [done|]. intros [= <-]. pose proof (length_filter p l).
  apply share_bounds; lia.
Qed.

(** A time that is known and falls in the window. *)
Definition within (window : Window) (at_ : option Z) : bool :=
  match at_ with Some t => bool_decide (w_from window ≤ t < w_until window) | None => false end.
Lemma within_spec window at_ : within window at_ = is_some_and (contains window) at_.
Proof.
  destruct at_ as [t|]; [|done]. cbn. unfold contains. rewrite <- bool_decide_and. done.
Qed.
Definition size {A} (l : list A) : Z := Z.of_nat (length l).
Lemma count_if_size {A} (p : A → bool) (q : A → Prop) `{∀ x, Decision (q x)} l :
  (∀ x, p x ↔ q x) → count_if p l = size (filter q l).
Proof. intros Hpq. unfold count_if, size. do 2 f_equal. apply list_filter_iff. intros x. apply Hpq. Qed.

Lemma open_exact data window now :
  Forall (λ x, 0 ≤ d_opened_at x) (dd_disputes data) → is_i64 now →
  let standing := order_by (λ x, (d_opened_at x, d_dispute_id x))
    (filter (λ x, d_status x = Initiated ∧ d_opened_at x ≤ now) (dd_disputes data)) in
  open (summarise data window now) = (λ x, mkOpenDispute (d_dispute_id x) (now - d_opened_at x)) <$> standing ∧
  StronglySorted (λ a b, od_age b ≤ od_age a) (open (summarise data window now)) ∧
  Forall (λ o, 0 ≤ od_age o) (open (summarise data window now)).
Proof.
  intros Hpos Hnow. cbv zeta.
  assert (filter (λ x, d_status x = Initiated ∧ d_opened_at x ≤ now) (dd_disputes data) =
    filter (λ x, is_open now x) (dd_disputes data)) as ->.
  { apply list_filter_iff. intros x. unfold is_open. by rewrite andb_True, !bool_decide_spec. }
  assert (Forall (λ x, 0 ≤ d_opened_at x ≤ now) (order_by (λ x, (d_opened_at x, d_dispute_id x))
    (filter (λ x, is_open now x) (dd_disputes data)))) as Hrange.
  { rewrite order_by_Permutation, Forall_forall. intros x [Hx Hin]%list_elem_of_filter.
    rewrite Forall_forall in Hpos. specialize (Hpos x Hin).
    unfold is_open in Hx. rewrite andb_True, !bool_decide_spec in Hx. lia. }
  split; [|apply open_sorted; [apply order_by_sorted|exact Hrange|done]].
  cbn [open summarise]. apply list_fmap_ext. intros i x Hx. f_equal. apply i64_sub_small.
  rewrite Forall_forall in Hrange. specialize (Hrange x ltac:(by eapply list_elem_of_lookup_2)).
  unfold is_i64, i64_min, i64_max in *. lia.
Qed.

Lemma buyers_exact data window now (opens := filter (λ x, opened_in window x) (dd_disputes data)) :
  buyer_share (summarise data window now) =
    share_of (size (filter (λ x, d_initiator x = Some Buyer) opens)) (size (filter (λ x, is_Some (d_initiator x)) opens)).
Proof.
  subst opens. cbn [buyer_share summarise]. rewrite ratio_share_of by apply count_if_nonneg.
  f_equal; apply count_if_size; intros x; [apply bool_decide_spec|].
  destruct (d_initiator x); cbn; split; try done; first [by eexists|by intros []].
Qed.
Lemma outcomes_exact data window now (ends := filter (λ x, resolved_in window x) (dd_disputes data)) :
  outcome (summarise data window now) = (if decide (ends = []) then None
    else Some ((λ s, f64_div (f64_of_Z (size (filter (λ x, d_outcome x = Some s) ends))) (f64_of_Z (size ends))) <$>
      [SellerRefunded; Settled; Released; CooperativelyCanceled])).
Proof.
  subst ends. cbn [outcome summarise]. case_decide; [done|]. f_equal. apply list_fmap_ext. intros i s _.
  do 2 f_equal. apply count_if_size. intros x. apply bool_decide_spec.
Qed.
(** A part of a smaller list is a share of it. *)
Lemma disputes_shares (opens ends : list Dispute) r :
  size opens < 2 ^ 53 → size ends < 2 ^ 53 →
  share_of (size (filter (λ x, d_initiator x = Some Buyer) opens)) (size (filter (λ x, is_Some (d_initiator x)) opens)) = Some r ∨
  (∃ shares, (if decide (ends = []) then None
    else Some ((λ s, f64_div (f64_of_Z (size (filter (λ x, d_outcome x = Some s) ends))) (f64_of_Z (size ends))) <$>
      [SellerRefunded; Settled; Released; CooperativelyCanceled])) = Some shares ∧ r ∈ shares) → is_share r.
Proof.
  intros Ho He [Hr|(shares & Hs & Hr)].
  - assert (filter (λ x, d_initiator x = Some Buyer) opens =
      filter (λ x, d_initiator x = Some Buyer) (filter (λ x, is_Some (d_initiator x)) opens)) as E.
    { rewrite list_filter_filter. apply list_filter_iff. intros x. split; [|tauto]. intros ->. split; [done|by eexists]. }
    rewrite E in Hr. apply (share_of_part (A := Dispute)) in Hr; [done|]. unfold size in Ho.
    pose proof (length_filter (λ x, is_Some (d_initiator x)) opens). lia.
  - case_decide as Hne; [done|]. apply (inj Some) in Hs as <-. apply list_elem_of_fmap in Hr as (s & -> & _).
    unfold size in *. pose proof (length_filter (λ x, d_outcome x = Some s) ends).
    apply share_bounds; [lia|]. split; [|lia]. apply (Nat2Z.inj_lt 0), Nat.neq_0_lt_0. by intros ?%nil_length_inv.
Qed.

(** C34: the dispute figures account for every dispute. The opened and
    resolved ones are those whose time falls in the window. The counts per
    status are exactly the opened ones that stand in each, and add up to
    them. The dispute rate is those opened over the orders taken in the
    window, and the buyer's share those a buyer opened over those whose
    initiator is known: each is missing exactly when it would divide by
    nothing. The shares of the outcomes are of the resolved, missing exactly
    when there are none; they and the buyer's are between 0 and 1. The open
    disputes are the initiated ones opened by now, oldest first, each with its
    age, never negative. An instance's part is its own disputes and taken
    orders, and the opened, resolved and open counts of the parts add up to
    the network's. *)
Theorem disputes_account (data : DisputeData) (window : Window) (now : Z) (d := summarise data window now) :
  Z.of_nat (length (dd_disputes data)) < 2 ^ 53 →
  Forall (λ x, 0 ≤ d_opened_at x) (dd_disputes data) → is_i64 now →
  let opens := filter (λ x, within window (Some (d_opened_at x))) (dd_disputes data) in
  let ends := filter (λ x, within window (d_resolved_at x)) (dd_disputes data) in
  let taken := filter (λ t, within window (Some (tk_left_pending_at t))) (dd_taken data) in
  let standing := order_by (λ x, (d_opened_at x, d_dispute_id x))
    (filter (λ x, d_status x = Initiated ∧ d_opened_at x ≤ now) (dd_disputes data)) in
  opened d = size opens ∧ resolved d = size ends ∧
  by_status d = (λ s, size (filter (λ x, d_status x = s) opens)) <$>
    [Initiated; InProgress; SellerRefunded; Settled; Released; CooperativelyCanceled] ∧
  sum_Z (by_status d) = opened d ∧
  rate d = share_of (size opens) (size taken) ∧
  buyer_share d = share_of (size (filter (λ x, d_initiator x = Some Buyer) opens))
    (size (filter (λ x, is_Some (d_initiator x)) opens)) ∧
  outcome d = (if decide (ends = []) then None
    else Some ((λ s, f64_div (f64_of_Z (size (filter (λ x, d_outcome x = Some s) ends))) (f64_of_Z (size ends))) <$>
      [SellerRefunded; Settled; Released; CooperativelyCanceled])) ∧
  (∀ r, buyer_share d = Some r ∨ (∃ shares, outcome d = Some shares ∧ r ∈ shares) → is_share r) ∧
  open d = (λ x, mkOpenDispute (d_dispute_id x) (now - d_opened_at x)) <$> standing ∧
  StronglySorted (λ a b, od_age b ≤ od_age a) (open d) ∧ Forall (λ o, 0 ≤ od_age o) (open d) ∧
  (∀ key group, by_instance data !! key = Some group ↔
    group = mkDisputeData (filter (λ x, d_instance x = key) (dd_disputes data)) (filter (λ t, tk_instance t = key) (dd_taken data)) ∧
    ((∃ x, x ∈ dd_disputes data ∧ d_instance x = key) ∨ ∃ t, t ∈ dd_taken data ∧ tk_instance t = key)) ∧
  (∀ f, f ∈ [opened; resolved; λ d, Z.of_nat (length (open d))] →
    sum_Z ((λ group, f (summarise group.2 window now)) <$> btree_iter (by_instance data)) = f d).
Proof.
  intros Hlen Hpos Hnow opens ends taken standing. subst d.
  destruct (open_exact data window now Hpos Hnow) as (Hopen & Hsorted & Hages).
  assert (opens = filter (λ x, opened_in window x) (dd_disputes data)) as Eo
    by (apply list_filter_iff; intros x; by rewrite within_spec).
  assert (ends = filter (λ x, resolved_in window x) (dd_disputes data)) as Ee
    by (apply list_filter_iff; intros x; by rewrite within_spec).
  clearbody opens ends. subst opens ends. split_and!; try done.
  - cbn [by_status summarise]. rewrite tally_counts. apply list_fmap_ext. intros i s _.
    apply count_if_size. intros x. apply bool_decide_spec.
  - apply tally_total.
  - cbn [rate summarise]. rewrite ratio_share_of by apply count_if_nonneg. f_equal.
    apply count_if_size. intros t. by rewrite within_spec.
  - apply buyers_exact.
  - apply outcomes_exact.
  - intros r. rewrite buyers_exact, outcomes_exact. apply disputes_shares; unfold size;
      [pose proof (length_filter (λ x, opened_in window x) (dd_disputes data))
      |pose proof (length_filter (λ x, resolved_in window x) (dd_disputes data))]; lia.
  - intros key group. apply dispute_groups_lookup.
  - intros f Hf.
    repeat (apply elem_of_cons in Hf as [->|Hf]; [|]); [..|by apply elem_of_nil in Hf].
    + exact (by_instance_total (opened_in window) data).
    + exact (by_instance_total (resolved_in window) data).
    + cbv beta. rewrite (proj2 (proj2 (opened_measure window now data))), <- by_instance_total. unfold total_of. f_equal.
      apply list_fmap_ext. intros i x _. apply opened_measure.
Qed.

(** ** A concrete month *)

Module sample.
Definition month : Window := mkWindow 1767225600 1769904000.
Definition data : DisputeData := mkDisputeData
  [ mkDispute "d1" "alice (ab)" 1767230000 Settled (Some Buyer) (Some 1767240000) (Some Settled);
    mkDispute "d2" "bob (cd)" 1767250000 Initiated (Some Seller) None None;
    mkDispute "d3" "alice (ab)" 1767240000 Initiated None None None ]
  [ mkTaken "o1" "alice (ab)" 1767229000 ].
Example three_opened :
  let d := summarise data month 1767300000 in
  (opened d, by_status d, buyer_share d) = (3, [2; 0; 0; 1; 0; 0], f64_from_str "0.5") ∧
  open d = [mkOpenDispute "d3" 60000; mkOpenDispute "d2" 50000] ∧
  outcome d = Some [f64_of_Z 0; f64_of_Z 1; f64_of_Z 0; f64_of_Z 0] ∧ resolution_p50 d = Some 10000.
Proof. vm_compute. repeat split. Qed.
End sample.

Theorem disputes_account_witness :
  sum_Z (by_status (summarise sample.data sample.month 1767300000)) = 3 ∧
  rate (summarise sample.data sample.month 1767300000) = Some (f64_div (f64_of_Z 3) (f64_of_Z 1)) ∧
  rate (summarise sample.data (mkWindow 0 1) 1767300000) = None ∧
  open (summarise sample.data sample.month 1767300000) = [mkOpenDispute "d3" 60000; mkOpenDispute "d2" 50000].
Proof.
  assert (Forall (λ x, 0 ≤ d_opened_at x) (dd_disputes sample.data)) as Hpos by (repeat constructor; vm_compute; discriminate).
  assert (is_i64 1767300000) as Hnow by (split; vm_compute; discriminate).
  destruct (disputes_account sample.data sample.month 1767300000 ltac:(vm_compute; reflexivity) Hpos Hnow)
    as (Ho & _ & _ & Hs & Hr & _ & _ & _ & Hopen & _).
  destruct (disputes_account sample.data (mkWindow 0 1) 1767300000 ltac:(vm_compute; reflexivity) Hpos Hnow)
    as (_ & _ & _ & _ & Hr' & _).
  split_and!.
  - rewrite Hs, Ho. reflexivity.
  - rewrite Hr. reflexivity.
  - rewrite Hr'. reflexivity.
  - rewrite Hopen. reflexivity.
Defined.
