(* ===== verification/Rates.v ===== *)
(** * The rate lookup

    [crates/stats/src/rates.rs]: what a bitcoin was worth in a currency at an
    instant, as far as an instance knew, and what qualifies the answer. *)

From S2P Require Import Prelude F64 StatsPrelude.

#[local] Open Scope Z_scope.

Definition MAX_AGE_SECS : Z := 300.

Record Snapshot : Type := mkSnapshot {
  s_pubkey : string;
  s_published_at : Z;
  s_rates : gmap string f64;
}.
Inductive RateSource : Type := OwnInstance | Fallback (pubkey : string).
Record RateQuote : Type := mkRateQuote { q_rate : f64; q_age_secs : Z; q_source : RateSource }.

(** [convert_sats]. *)
Definition convert_sats (q : RateQuote) (sats : Z) : f64 :=
  f64_mul (f64_div (f64_of_Z sats) (f64_of_Z 100000000)) (q_rate q).

Record RateBook : Type := mkRateBook {
  b_snapshots : list Snapshot;
  b_by_pubkey : gmap string (list nat);
  b_everyone : list nat;
}.

Definition clock (s : Snapshot) : Z * string := (s_published_at s, s_pubkey s).
(** Positions by publisher, ascending. *)
Definition positions (l : list Snapshot) : gmap string (list nat) :=
  (λ entries : list (nat * Snapshot), fst <$> entries) <$> group_by (λ entry, [s_pubkey entry.2]) (imap pair l).
Definition new (snapshots : list Snapshot) : RateBook :=
  let snapshots := sort_by_clock clock snapshots in
  mkRateBook snapshots (positions snapshots) (seq 0 (length snapshots)).
Definition is_empty (b : RateBook) : bool := bool_decide (b_snapshots b = []).

Definition published_by (b : RateBook) (at_ts : Z) (i : nat) : bool :=
  is_some_and (λ s, bool_decide (s_published_at s ≤ at_ts)) (b_snapshots b !! i).
Definition young (at_ts : Z) (s : Snapshot) : bool :=
  bool_decide (i64_sub at_ts (s_published_at s) ≤ MAX_AGE_SECS).
Definition quoting (fiat : string) (s : Snapshot) : option (Snapshot * f64) :=
  (λ rate, (s, rate)) <$> s_rates s !! fiat.

(** [newest]; a position past the end would panic, and [new] makes none. *)
Definition newest (b : RateBook) (positions : list nat) (fiat : string) (at_ts : Z) : option (Snapshot * f64) :=
  let e := partition_point (published_by b at_ts) positions in
  find_map (quoting fiat)
    (take_while (young at_ts) (omap (λ i, b_snapshots b !! i) (rev (take e positions)))).

Definition rate_at (b : RateBook) (pubkey fiat : string) (at_ts : Z) : option RateQuote :=
  match b_by_pubkey b !! pubkey ≫= λ positions, newest b positions fiat at_ts with
  | Some (s, rate) => Some (mkRateQuote rate (i64_sub at_ts (s_published_at s)) OwnInstance)
  | None =>
      (λ '(s, rate), mkRateQuote rate (i64_sub at_ts (s_published_at s)) (Fallback (s_pubkey s)))
        <$> newest b (b_everyone b) fiat at_ts
  end.

(** ** What the positions reach *)

Lemma imap_pair_lookup {A} (l : list A) i x : (i, x) ∈ imap pair l → l !! i = Some x.
Proof.
  intros [j Hj]%list_elem_of_lookup. rewrite list_lookup_imap in Hj.
  destruct (l !! j) eqn:E; [|done]. injection Hj as -> ->. done.
Qed.
Lemma snd_imap_pair {A} (l : list A) : snd <$> imap pair l = l.
Proof.
  apply list_eq. intros i. rewrite list_lookup_fmap, list_lookup_imap. by destruct (l !! i).
Qed.

Lemma reached {A} (l : list A) (k : list (nat * A)) :
  (∀ i x, (i, x) ∈ k → l !! i = Some x) → omap (λ i, l !! i) (fst <$> k) = snd <$> k.
Proof.
  intros H. induction k as [|[i x] k IH]; [done|]. rewrite !fmap_cons. cbn [omap list_omap fst snd].
  rewrite (H i x) by constructor. f_equal. apply IH. intros j y Hy. apply H. by constructor.
Qed.

Lemma positions_reach l pubkey ps :
  positions l !! pubkey = Some ps → omap (λ i, l !! i) ps = filter (λ s, s_pubkey s = pubkey) l.
Proof.
  unfold positions. rewrite lookup_fmap, group_by_lookup. case_decide as Hd; [|done]. cbn. intros [= <-].
  rewrite reached.
  - rewrite <- (snd_imap_pair l) at 2. generalize (imap pair l). intros k.
    induction k as [|[i s] k IH]; [done|]. cbn [mbind list_bind]. rewrite fmap_app, IH, fmap_cons, filter_cons.
    unfold copies at 1. rewrite filter_cons. cbn [snd]. case_decide; done.
  - intros i x Hx. apply imap_pair_lookup. apply list_elem_of_bind in Hx as ([j s] & Hx & Hin).
    unfold copies in Hx. apply list_elem_of_fmap in Hx as (key & [= <- <-] & _). done.
Qed.
Lemma positions_none l pubkey :
  positions l !! pubkey = None → filter (λ s, s_pubkey s = pubkey) l = [].
Proof.
  unfold positions. rewrite lookup_fmap, group_by_lookup. case_decide as Hd; [done|]. intros _.
  destruct (filter _ l) as [|s k] eqn:E; [done|]. exfalso. apply Hd. apply list.Exists_exists.
  assert (Hs : s ∈ filter (λ s, s_pubkey s = pubkey) l) by (rewrite E; constructor).
  apply list_elem_of_filter in Hs as [<- [i Hi]%list_elem_of_lookup]. exists (i, s). split; [|by constructor].
  apply list_elem_of_lookup. exists i. by rewrite list_lookup_imap, Hi.
Qed.
Lemma everyone_reach {A} (l : list A) : omap (λ i, l !! i) (seq 0 (length l)) = l.
Proof.
  assert (E : fst <$> imap pair l = seq 0 (length l)).
  { apply list_eq. intros i. rewrite list_lookup_fmap, list_lookup_imap. symmetry.
    destruct (l !! i) eqn:E; cbn.
    - apply lookup_seq. split; [done|]. by eapply lookup_lt_Some.
    - apply lookup_ge_None. rewrite length_seq. by apply lookup_ge_None. }
  rewrite <- E, reached by apply imap_pair_lookup. apply snd_imap_pair.
Qed.

(** ** The newest usable snapshot *)

(** What prices a trade at [at_ts]. *)
Definition usable (fiat : string) (at_ts : Z) (s : Snapshot) : Prop :=
  s_published_at s ≤ at_ts ≤ s_published_at s + MAX_AGE_SECS ∧ is_Some (s_rates s !! fiat).

(** [o] is the newest usable one of [l]. *)
Definition is_newest (fiat : string) (at_ts : Z) (l : list Snapshot) (o : option (Snapshot * f64)) : Prop :=
  match o with
  | Some (s, rate) => s ∈ l ∧ usable fiat at_ts s ∧ s_rates s !! fiat = Some rate ∧
      ∀ x, x ∈ l → usable fiat at_ts x → s_published_at x ≤ s_published_at s
  | None => ∀ x, x ∈ l → ¬ usable fiat at_ts x
  end.

#[export] Instance is_newest_proper fiat at_ts o : Proper ((≡ₚ) ==> iff) (λ l, is_newest fiat at_ts l o).
Proof. intros l k Hp. unfold is_newest. destruct o as [[s rate]|]; by setoid_rewrite Hp. Qed.

(** Clocks that no subtraction overflows. *)
Definition clocks_ok (at_ts : Z) (l : list Snapshot) : Prop :=
  Forall (λ s, is_i64 (at_ts - s_published_at s)) l.

Lemma take_while_omap (b : RateBook) at_ts ps :
  (∀ i, i ∈ ps → is_Some (b_snapshots b !! i)) →
  omap (λ i, b_snapshots b !! i) (rev (take_while (published_by b at_ts) ps)) =
  rev (take_while (λ s, bool_decide (s_published_at s ≤ at_ts)) (omap (λ i, b_snapshots b !! i) ps)).
Proof.
  intros H. induction ps as [|i ps IH]; [done|]. cbn [take_while omap list_omap].
  destruct (H i ltac:(constructor)) as [s E]. unfold published_by at 1. rewrite E. cbn [is_some_and take_while].
  case_bool_decide; [|done]. cbn [rev]. rewrite omap_app, IH by (intros j Hj; apply H; by constructor).
  cbn. by rewrite E.
Qed.

Lemma find_newest fiat at_ts l :
  StronglySorted (λ a b, s_published_at b ≤ s_published_at a) l →
  Forall (λ s, s_published_at s ≤ at_ts) l → clocks_ok at_ts l →
  is_newest fiat at_ts l (find_map (quoting fiat) (take_while (young at_ts) l)).
Proof.
  intros Hs Hat Hok. induction Hs as [|s l Hs IH Hd]; cbn [take_while]; [by intros ? ?%elem_of_nil|].
  inversion Hat as [|?? Ha Hat']; inversion Hok as [|?? Ho Hok']; subst. rewrite Forall_forall in Hd.
  specialize (IH Hat' Hok'). unfold young at 1. rewrite i64_sub_small by done. case_bool_decide as Hy.
  - cbn [find_map]. unfold quoting at 1. destruct (s_rates s !! fiat) as [rate|] eqn:E; cbn [fmap option_fmap option_map].
    + cbn. split_and!; [constructor|split; [lia|by eexists]|done|].
      intros x [->|Hx]%elem_of_cons _; [lia|by apply Hd].
    + destruct (find_map _ _) as [[x rate]|]; cbn in IH |- *.
      * destruct IH as (H1 & H2 & H3 & H4). split_and!; [by constructor|done|done|].
        intros y [->|Hyl]%elem_of_cons Hu; [|by apply H4]. destruct Hu as [_ [? Hu]]. congruence.
      * intros y [->|Hyl]%elem_of_cons; [|by apply IH]. intros [_ [? Hu]]. congruence.
  - cbn. intros x [->|Hx]%elem_of_cons [Hu _]; [lia|]. specialize (Hd x Hx). lia.
Qed.

Lemma newest_spec b ps fiat at_ts l :
  omap (λ i, b_snapshots b !! i) ps = l → (∀ i, i ∈ ps → is_Some (b_snapshots b !! i)) →
  StronglySorted (λ a b, s_published_at a ≤ s_published_at b) l → clocks_ok at_ts l →
  is_newest fiat at_ts l (newest b ps fiat at_ts).
Proof.
  intros <- Hi Hs Hok. unfold newest. rewrite take_partition_point, take_while_omap by done.
  set (l := omap _ ps) in *. set (past := take_while _ l).
  assert (Hin : ∀ x, x ∈ past ↔ x ∈ l ∧ s_published_at x ≤ at_ts).
  { intros x. unfold past. rewrite (elem_of_take_while _ _ _ _ Hs), bool_decide_eq_true; [done|].
    intros u v Huv. rewrite !bool_decide_eq_true. lia. }
  assert (Hrev : ∀ x, x ∈ rev past ↔ x ∈ past) by (intros x; rewrite !list_elem_of_In; symmetry; apply in_rev).
  pose proof (find_newest fiat at_ts (rev past)) as H. unfold is_newest in *.
  specialize (H ltac:(apply (StronglySorted_rev _ past), (StronglySorted_sublist _ past l); [apply take_while_sublist|done])).
  specialize (H ltac:(apply Forall_forall; intros x Hx%Hrev%Hin; tauto)).
  specialize (H ltac:(unfold clocks_ok in *; rewrite Forall_forall in Hok; apply Forall_forall; intros x Hx%Hrev%Hin; apply Hok; tauto)).
  destruct (find_map _ _) as [[s rate]|].
  - destruct H as (H1 & H2 & H3 & H4). split_and!; [by apply Hrev, Hin in H1 as [? _]|done|done|].
    intros x Hx Hu. apply H4; [|done]. apply Hrev, Hin. split; [done|]. destruct Hu as [? _]. lia.
  - intros x Hx Hu. apply (H x); [|done]. apply Hrev, Hin. split; [done|]. destruct Hu as [? _]. lia.
Qed.

(** ** The book *)

Lemma new_sorted l : StronglySorted (λ a b, s_published_at a ≤ s_published_at b) (b_snapshots (new l)).
Proof.
  cbn. pose proof (sort_by_clock_sorted clock l) as H. induction H as [|x k Hk IH Hx]; constructor; [done|].
  eapply Forall_impl; [exact Hx|]. intros y [?|[? _]]; cbn in *; lia.
Qed.

Lemma own_newest l pubkey fiat at_ts :
  clocks_ok at_ts l →
  is_newest fiat at_ts (filter (λ s, s_pubkey s = pubkey) (b_snapshots (new l)))
    (b_by_pubkey (new l) !! pubkey ≫= λ positions, newest (new l) positions fiat at_ts).
Proof.
  intros Hok. pose proof (new_sorted l) as Hs. cbn [b_by_pubkey b_snapshots new] in *.
  set (k := sort_by_clock clock l) in *.
  assert (Hk : clocks_ok at_ts k) by (unfold clocks_ok, k; by rewrite sort_by_clock_perm).
  destruct (positions k !! pubkey) as [ps|] eqn:E; cbn [mbind option_bind].
  - apply newest_spec; cbn [b_snapshots new]; fold k.
    + by apply positions_reach.
    + intros i Hi. unfold positions in E. rewrite lookup_fmap, group_by_lookup in E. case_decide; [|done].
      cbn in E. injection E as <-. apply list_elem_of_fmap in Hi as ([j s] & -> & Hi).
      apply list_elem_of_bind in Hi as ([j' s'] & Hi & Hin). unfold copies in Hi.
      apply list_elem_of_fmap in Hi as (? & [= <- <-] & _). exists s. by apply imap_pair_lookup.
    + eapply StronglySorted_sublist; [apply sublist_filter|done].
    + unfold clocks_ok in *. rewrite Forall_forall in Hk |- *. intros x [_ Hx]%list_elem_of_filter. by apply Hk.
  - apply positions_none in E. rewrite E. by intros ? ?%elem_of_nil.
Qed.

Lemma all_newest l fiat at_ts :
  clocks_ok at_ts l → is_newest fiat at_ts l (newest (new l) (b_everyone (new l)) fiat at_ts).
Proof.
  intros Hok. assert (Hp : b_snapshots (new l) ≡ₚ l) by apply sort_by_clock_perm.
  apply (is_newest_proper fiat at_ts _ _ _ Hp), newest_spec.
  - apply everyone_reach.
  - intros i Hi. apply elem_of_seq in Hi. apply lookup_lt_is_Some. cbn in *. lia.
  - apply new_sorted.
  - unfold clocks_ok. by rewrite Hp.
Qed.

Lemma usable_age l s fiat at_ts :
  clocks_ok at_ts l → s ∈ l → usable fiat at_ts s →
  i64_sub at_ts (s_published_at s) = at_ts - s_published_at s ∧ 0 ≤ at_ts - s_published_at s ≤ MAX_AGE_SECS.
Proof.
  intros Hok Hs [? _]. unfold clocks_ok in Hok. rewrite Forall_forall in Hok. split; [by apply i64_sub_small, Hok|lia].
Qed.

Lemma own_newest_of l pubkey fiat at_ts :
  clocks_ok at_ts l →
  is_newest fiat at_ts (filter (λ s, s_pubkey s = pubkey) l)
    (b_by_pubkey (new l) !! pubkey ≫= λ positions, newest (new l) positions fiat at_ts).
Proof.
  intros Hok. assert (Hp : b_snapshots (new l) ≡ₚ l) by apply sort_by_clock_perm.
  apply (is_newest_proper fiat at_ts _ _ _ (filter_Permutation _ _ _ Hp)). by apply own_newest.
Qed.

Lemma rate_at_age l pubkey fiat at_ts q :
  clocks_ok at_ts l → rate_at (new l) pubkey fiat at_ts = Some q → 0 ≤ q_age_secs q ≤ MAX_AGE_SECS.
Proof.
  intros Hok. pose proof (own_newest_of l pubkey fiat at_ts Hok) as Ho. pose proof (all_newest l fiat at_ts Hok) as Ha.
  unfold rate_at. destruct (b_by_pubkey (new l) !! pubkey ≫= _) as [[s rate]|].
  - intros [= <-]. destruct Ho as ((_ & Hin)%list_elem_of_filter & Hu & _). destruct (usable_age l s fiat at_ts Hok Hin Hu) as [E ?].
    cbn. by rewrite E.
  - destruct (newest _ _ _ _) as [[s rate]|]; [|done]. intros [= <-].
    destruct Ha as (Hin & Hu & _). destruct (usable_age l s fiat at_ts Hok Hin Hu) as [E ?]. cbn. by rewrite E.
Qed.

(** a rate and what qualifies it. The lookup answers exactly when some
    instance quoted the currency at or up to [MAX_AGE_SECS] before the
    instant: with the newest such quote of the instance asked about when it
    has one, otherwise with the newest of all, named as borrowed. The age is
    that quote's, never negative and never above the bound. *)
Theorem rate_at_spec (l : list Snapshot) (pubkey fiat : string) (at_ts : Z) :
  clocks_ok at_ts l →
  match rate_at (new l) pubkey fiat at_ts with
  | None => ∀ s, s ∈ l → ¬ usable fiat at_ts s
  | Some q => ∃ s, s ∈ l ∧ usable fiat at_ts s ∧ s_rates s !! fiat = Some (q_rate q) ∧
      q_age_secs q = at_ts - s_published_at s ∧ 0 ≤ q_age_secs q ≤ MAX_AGE_SECS ∧
      match q_source q with
      | OwnInstance => s_pubkey s = pubkey ∧
          ∀ x, x ∈ l → s_pubkey x = pubkey → usable fiat at_ts x → s_published_at x ≤ s_published_at s
      | Fallback other => other = s_pubkey s ∧ other ≠ pubkey ∧
          (∀ x, x ∈ l → s_pubkey x = pubkey → ¬ usable fiat at_ts x) ∧
          ∀ x, x ∈ l → usable fiat at_ts x → s_published_at x ≤ s_published_at s
      end
  end.
Proof.
  intros Hok. pose proof (own_newest_of l pubkey fiat at_ts Hok) as Ho. pose proof (all_newest l fiat at_ts Hok) as Ha.
  unfold rate_at. destruct (b_by_pubkey (new l) !! pubkey ≫= _) as [[s rate]|].
  - destruct Ho as ((Hs & Hin)%list_elem_of_filter & Hu & Hr & Hn).
    destruct (usable_age l s fiat at_ts Hok Hin Hu) as [E ?].
    exists s. cbn. rewrite E. split_and!; try done; try lia.
    intros x Hx Hxp. apply Hn. by apply list_elem_of_filter.
  - assert (Hnone : ∀ x, x ∈ l → s_pubkey x = pubkey → ¬ usable fiat at_ts x)
      by (intros x Hx Hxp; apply Ho; by apply list_elem_of_filter).
    destruct (newest _ _ _ _) as [[s rate]|]; cbn [fmap option_fmap option_map]; [|done].
    destruct Ha as (Hs & Hu & Hr & Hn). destruct (usable_age l s fiat at_ts Hok Hs Hu) as [E ?]. exists s. cbn. rewrite E.
    split_and!; try done; try lia. intros Hpk. by apply (Hnone s).
Qed.

Definition morning : list Snapshot :=
  [ mkSnapshot "bb" 1000 {["EUR" := f64_of_Z 60000]}; mkSnapshot "aa" 900 {["EUR" := f64_of_Z 61000]};
    mkSnapshot "aa" 1100 {["USD" := f64_of_Z 70000]} ].

Example quotes :
  rate_at (new morning) "aa" "EUR" 1150 = Some (mkRateQuote (f64_of_Z 61000) 250 OwnInstance) ∧
  rate_at (new morning) "aa" "EUR" 1250 = Some (mkRateQuote (f64_of_Z 60000) 250 (Fallback "bb")) ∧
  rate_at (new morning) "aa" "EUR" 1400 = None.
Proof. vm_compute. repeat split. Qed.

