(* ===== verification/Feeds.v ===== *)
(** * Exchange rate feeds

    [crates/stats/src/rates/feeds.rs]: what each instance quotes now, how
    fresh its feed is, and how far the instances disagree. *)

From S2P Require Import Prelude F64 StatsPrelude Metric Rates.

#[local] Open Scope Z_scope.

Definition DEAD_AFTER_SECS : Z := 600.

Record Feed : Type := mkFeed {
  fd_instance : string;
  fd_published_at : option Z;
  fd_rates : gmap string f64;
}.
Inductive Freshness : Type := Fresh | Stale | Dead | Silent | Skewed.
#[export] Instance freshness_eq_dec : EqDecision Freshness.
Proof. solve_decision. Defined.
Definition freshness_as_str (f : Freshness) : string :=
  match f with Fresh => "fresh" | Stale => "stale" | Dead => "dead" | Silent => "silent" | Skewed => "skewed" end.

(** [i64::checked_sub]. *)
Definition checked_sub (a b : Z) : option Z := in_i64 (a - b).

Definition age (f : Feed) (now : Z) : option Z :=
  published ← fd_published_at f;
  if decide (published ≤ now) then checked_sub now published else None.
Definition freshness (f : Feed) (now : Z) : Freshness :=
  match fd_published_at f with
  | None => Silent
  | Some published =>
      if decide (now < published) then Skewed
      else
        let age := default i64_max (checked_sub now published) in
        if decide (age ≤ MAX_AGE_SECS) then Fresh
        else if decide (age ≤ DEAD_AFTER_SECS) then Stale
        else Dead
  end.
Definition is_price (r : f64) : bool := is_finite r && f64_gt r (f64_of_Z 0).
Definition rate (f : Feed) (fiat : string) : option f64 :=
  r ← fd_rates f !! fiat; if is_price r then Some r else None.
Definition live_rate (f : Feed) (fiat : string) (now : Z) : option f64 :=
  if decide (freshness f now = Fresh) then rate f fiat else None.

(** ** The feeds as a whole *)

Record Summary : Type := mkSummary {
  feeds : Z; fresh : Z; stale : Z; dead : Z; silent : Z; skewed : Z; currencies : Z;
}.

Definition bump (s : Summary) (f : Freshness) (spoke : bool) : Summary :=
  let '(mkSummary feeds fresh stale dead silent skewed currencies) := s in
  let one b := if b : bool then 1 else 0 in
  mkSummary (feeds + one spoke) (fresh + one (bool_decide (f = Fresh))) (stale + one (bool_decide (f = Stale)))
    (dead + one (bool_decide (f = Dead))) (silent + one (bool_decide (f = Silent)))
    (skewed + one (bool_decide (f = Skewed))) currencies.
Definition summarise_step (now : Z) (acc : Summary * gset string) (f : Feed) : Summary * gset string :=
  (bump acc.1 (freshness f now) (option_is_some (fd_published_at f)), acc.2 ∪ dom (fd_rates f)).
Definition summarise (l : list Feed) (now : Z) : Summary :=
  let '(s, codes) := foldl (summarise_step now) (mkSummary 0 0 0 0 0 0 0, ∅) l in
  mkSummary (feeds s) (fresh s) (stale s) (dead s) (silent s) (skewed s) (Z.of_nat (size codes)).

(** ** Disparity *)

Record Disparity : Type := mkDisparity {
  quoted_by : Z; comparable : Z; low : option f64; high : option f64; disparity_ratio : option f64;
}.

(** [f64::min], [f64::max] and [Iterator::reduce]. *)
Definition f64_min (a b : f64) : f64 :=
  if is_nan a then b else if is_nan b then a else if f64_lt b a then b else a.
Definition f64_max (a b : f64) : f64 :=
  if is_nan a then b else if is_nan b then a else if f64_lt a b then b else a.
Definition reduce {A} (f : A → A → A) (l : list A) : option A :=
  match l with [] => None | x :: l => Some (foldl f x l) end.

Definition disparity (l : list Feed) (fiat : string) (now : Z) : option Disparity :=
  let quoted_by := count_if (λ f, option_is_some (rate f fiat)) l in
  if decide (quoted_by = 0) then None
  else
    let comparable := omap (λ f, live_rate f fiat now) l in
    let low := reduce f64_min comparable in
    let high := reduce f64_max comparable in
    Some {|
      quoted_by := quoted_by;
      comparable := Z.of_nat (length comparable);
      low := low;
      high := high;
      disparity_ratio :=
        ratio ← (if decide (1 < Z.of_nat (length comparable)) then
                   high ← high; low ← low; Some (f64_sub (f64_div high low) (f64_of_Z 1))
                 else None);
        if is_finite ratio then Some ratio else None;
    |}.

(** ** The report *)

Definition sorted (l : list Feed) : list Feed := sort_by_clock (λ f, (0, fd_instance f)) l.

Definition fiat_rows (l : list Feed) (fiat : string) (now : Z) : list Metric :=
  let observed name value := observed (dotted "rates" name) value in
  let quoted := disparity l fiat now in
  let amount value := or_missing (λ amount, Metric.fiat amount fiat) value in
  [ observed (dotted fiat "quoted_by") (Count (default 0 (quoted_by <$> quoted)));
    observed (dotted fiat "comparable") (Count (default 0 (comparable <$> quoted)));
    observed (dotted fiat "low") (amount (quoted ≫= low));
    observed (dotted fiat "high") (amount (quoted ≫= high));
    observed (dotted fiat "disparity") (or_missing Metric.ratio (quoted ≫= disparity_ratio)) ]
  ++ omap (λ f, (λ r, observed (dotted fiat (fd_instance f)) (Metric.fiat r fiat)) <$> rate f fiat) (sorted l).

Definition report (l : list Feed) (fiat : option string) (now : Z) : list Metric :=
  let observed name value := observed (dotted "rates" name) value in
  let count name value := observed name (Count value) in
  let s := summarise l now in
  [ count "feeds" (feeds s); count "fresh" (fresh s); count "stale" (stale s); count "dead" (dead s);
    count "silent" (silent s); count "skewed" (skewed s); count "currencies" (currencies s) ]
  ++ match fiat with Some fiat => fiat_rows l fiat now | None => [] end
  ++ (sorted l ≫= λ f,
       [ observed (dotted (fd_instance f) "age") (or_missing Seconds (age f now));
         observed (dotted (fd_instance f) "status") (Text (freshness_as_str (freshness f now)));
         count (dotted (fd_instance f) "currencies") (Z.of_nat (size (fd_rates f))) ]).

(** ** What the report promises *)

Lemma summarise_counts l now :
  let s := summarise l now in
  (feeds s, fresh s, stale s, dead s, silent s, skewed s) =
    (count_if (λ f, option_is_some (fd_published_at f)) l,
     count_if (λ f, bool_decide (freshness f now = Fresh)) l, count_if (λ f, bool_decide (freshness f now = Stale)) l,
     count_if (λ f, bool_decide (freshness f now = Dead)) l, count_if (λ f, bool_decide (freshness f now = Silent)) l,
     count_if (λ f, bool_decide (freshness f now = Skewed)) l).
Proof.
  cbv zeta. unfold summarise.
  assert (∀ acc,
    let s := (foldl (summarise_step now) acc l).1 in
    feeds s = feeds acc.1 + count_if (λ f, option_is_some (fd_published_at f)) l ∧
    fresh s = fresh acc.1 + count_if (λ f, bool_decide (freshness f now = Fresh)) l ∧
    stale s = stale acc.1 + count_if (λ f, bool_decide (freshness f now = Stale)) l ∧
    dead s = dead acc.1 + count_if (λ f, bool_decide (freshness f now = Dead)) l ∧
    silent s = silent acc.1 + count_if (λ f, bool_decide (freshness f now = Silent)) l ∧
    skewed s = skewed acc.1 + count_if (λ f, bool_decide (freshness f now = Skewed)) l) as H.
  { induction l as [|f l IH]; intros acc; cbn [foldl].
    - unfold count_if; cbn. lia.
    - specialize (IH (summarise_step now acc f)). cbv zeta in IH. destruct IH as (->&->&->&->&->&->).
      rewrite !count_if_cons. destruct acc as [[] codes]; cbn. lia. }
  specialize (H (mkSummary 0 0 0 0 0 0 0, ∅)). cbv zeta in H. destruct (foldl _ _ _) as [s codes]. cbn in H |- *.
  destruct H as (->&->&->&->&->&->). done.
Qed.

Lemma freshness_spec f now :
  match freshness f now with
  | Silent => fd_published_at f = None
  | Skewed => ∃ p, fd_published_at f = Some p ∧ now < p
  | Fresh => ∃ p, fd_published_at f = Some p ∧ 0 ≤ now - p ≤ MAX_AGE_SECS
  | Stale => ∃ p, fd_published_at f = Some p ∧ MAX_AGE_SECS < now - p ≤ DEAD_AFTER_SECS
  | Dead => ∃ p, fd_published_at f = Some p ∧ DEAD_AFTER_SECS < now - p
  end.
Proof.
  unfold freshness. destruct (fd_published_at f) as [p|]; [|done]. case_decide; [by exists p|].
  unfold checked_sub, in_i64, is_i64, i64_min, i64_max, MAX_AGE_SECS, DEAD_AFTER_SECS.
  destruct (decide (- 2 ^ 63 ≤ now - p ≤ 2 ^ 63 - 1)); cbn [default from_option]; unfold id;
    repeat case_decide; exists p; split; done || lia.
Qed.

Lemma reduce_spec (pick : f64 → f64 → f64) (better : f64 → f64 → Prop) l x :
  (∀ a b, ordered a → ordered b → (pick a b = a ∨ pick a b = b) ∧ better (pick a b) a ∧ better (pick a b) b) →
  (∀ a b c, better a b → better b c → better a c) → (∀ a, ordered a → better a a) →
  Forall ordered l → reduce pick l = Some x → x ∈ l ∧ ∀ y, y ∈ l → better x y.
Proof.
  intros Hpick Htrans Hrefl Hl. destruct l as [|a l]; [done|]. cbn. intros [= <-]. inversion Hl as [|?? Ha Hl']; subst.
  clear Hl. revert a Ha. induction Hl' as [|b l Hb Hl' IH]; intros a Ha; cbn [foldl].
  - split; [constructor|]. intros y ->%list_elem_of_singleton. by apply Hrefl.
  - destruct (Hpick a b Ha Hb) as (Hor & H1 & H2).
    destruct (IH (pick a b)) as [I1 I2]; [by destruct Hor as [-> | ->] | ]. split.
    + apply elem_of_cons in I1 as [->|I1]; [|by do 2 right]. destruct Hor as [-> | ->]; [by left|by right; left].
    + intros y [->|[->|Hy]%elem_of_cons]%elem_of_cons.
      * eapply Htrans; [apply I2; by left|done].
      * eapply Htrans; [apply I2; by left|done].
      * apply I2. by right.
Qed.

Lemma f64_lt_plt a b : f64_lt a b = true ↔ plt a b.
Proof.
  unfold f64_lt, SpecFloat.SFltb, plt, pcmp, f64_partial_ord, partial_cmp.
  destruct (SpecFloat.SFcompare a b) as [[]|]; naive_solver.
Qed.
Lemma f64_min_spec a b : ordered a → ordered b →
  (f64_min a b = a ∨ f64_min a b = b) ∧ ple (f64_min a b) a ∧ ple (f64_min a b) b.
Proof.
  intros Ha Hb. unfold f64_min. rewrite (proj1 (f64_ordered a) Ha), (proj1 (f64_ordered b) Hb).
  destruct (f64_lt b a) eqn:E.
  - apply f64_lt_plt in E. split_and!; [auto|by apply plt_ple|by apply ple_refl].
  - split_and!; [auto|by apply ple_refl|]. destruct (ple_total a b Ha Hb) as [?|H]; [done|].
    apply f64_lt_plt in H. congruence.
Qed.
Lemma f64_max_spec a b : ordered a → ordered b →
  (f64_max a b = a ∨ f64_max a b = b) ∧ ple a (f64_max a b) ∧ ple b (f64_max a b).
Proof.
  intros Ha Hb. unfold f64_max. rewrite (proj1 (f64_ordered a) Ha), (proj1 (f64_ordered b) Hb).
  destruct (f64_lt a b) eqn:E.
  - apply f64_lt_plt in E. split_and!; [auto|by apply plt_ple|by apply ple_refl].
  - split_and!; [auto|by apply ple_refl|]. destruct (ple_total b a Hb Ha) as [?|H]; [done|].
    apply f64_lt_plt in H. congruence.
Qed.

Lemma live_rate_spec f fiat now r :
  live_rate f fiat now = Some r ↔ freshness f now = Fresh ∧ fd_rates f !! fiat = Some r ∧ is_price r = true.
Proof.
  unfold live_rate, rate. case_decide; [|naive_solver]. rewrite bind_Some. split.
  - intros (x & Hx & E). destruct (is_price x) eqn:Ep; [|done]. naive_solver.
  - intros (_ & Hx & Ep). exists r. by rewrite Ep.
Qed.
Lemma price_ordered r : is_price r = true → ordered r.
Proof. unfold is_price. rewrite andb_true_iff. intros [H _]. apply f64_ordered. by destruct r. Qed.

(** every feed falls in exactly one bucket, the one its last word puts it
    in, and the buckets add up: those that spoke are all but the silent. The
    disagreement over a currency is measured between the quotes that are fresh
    now and only those: the low and the high are two of them, every other lies
    between, and there is a ratio only when there are two. *)
Theorem feeds_account (l : list Feed) (fiat : string) (now : Z) (s := summarise l now) :
  feeds s = fresh s + stale s + dead s + skewed s ∧
  feeds s + silent s = Z.of_nat (length l) ∧
  (disparity l fiat now = None ↔ ∀ f, f ∈ l → rate f fiat = None) ∧
  ∀ d, disparity l fiat now = Some d →
    0 ≤ comparable d ≤ quoted_by d ∧ quoted_by d ≤ Z.of_nat (length l) ∧
    (low d = None ↔ comparable d = 0) ∧ (high d = None ↔ comparable d = 0) ∧
    (∀ r, low d = Some r ∨ high d = Some r → ∃ f, f ∈ l ∧ live_rate f fiat now = Some r) ∧
    (∀ f r, f ∈ l → live_rate f fiat now = Some r →
      (∀ x, low d = Some x → ple x r) ∧ (∀ x, high d = Some x → ple r x)) ∧
    (∀ r, disparity_ratio d = Some r → 1 < comparable d ∧ is_finite r = true).
Proof.
  pose proof (summarise_counts l now) as H. cbv zeta in H. fold s in H. injection H as -> -> -> -> -> ->.
  split_and!.
  - clear s. induction l as [|f l IH]; [done|]. rewrite !count_if_cons. pose proof (freshness_spec f now) as Hf.
    destruct (freshness f now); repeat case_bool_decide; try done;
      [destruct Hf as (p & -> & _)..|rewrite Hf|destruct Hf as (p & -> & _)]; cbn; lia.
  - clear s. induction l as [|f l IH]; [done|]. rewrite !count_if_cons. pose proof (freshness_spec f now) as Hf. cbn [length].
    destruct (freshness f now); repeat case_bool_decide; try done;
      [destruct Hf as (p & -> & _)..|rewrite Hf|destruct Hf as (p & -> & _)]; cbn; lia.
  - unfold disparity. case_decide as E.
    + split; [|done]. intros _ f Hf. rewrite count_if_zero in E. specialize (E f Hf). by destruct (rate f fiat).
    + split; [done|]. intros Hn. exfalso. apply E, count_if_zero. intros f Hf. by rewrite Hn.
  - intros d. unfold disparity. case_decide as E; [done|]. intros [= <-].
    cbn [quoted_by comparable low high disparity_ratio].
    set (c := omap (λ f, live_rate f fiat now) l).
    assert (Hc : ∀ r, r ∈ c ↔ ∃ f, f ∈ l ∧ live_rate f fiat now = Some r) by (intros r; apply list_elem_of_omap).
    assert (Ho : Forall ordered c).
    { apply Forall_forall. intros r (f & _ & (_ & _ & Hp)%live_rate_spec)%Hc. by apply price_ordered. }
    pose proof (count_if_nonneg (λ f, option_is_some (rate f fiat)) l).
    split_and!.
    + lia.
    + unfold c. clear. induction l as [|f l IH]; [done|]. rewrite count_if_cons. cbn [omap list_omap].
      unfold live_rate at 1. case_decide; destruct (rate f fiat); cbn [length]; cbn; lia.
    + unfold count_if. pose proof (length_filter (λ f, option_is_some (rate f fiat)) l). lia.
    + destruct c; cbn; split; done || lia.
    + destruct c; cbn; split; done || lia.
    + intros r [Hr|Hr]; apply Hc.
      * eapply (reduce_spec f64_min ple); [apply f64_min_spec|apply ple_trans|apply ple_refl|exact Ho|exact Hr].
      * eapply (reduce_spec f64_max (flip ple)); [apply f64_max_spec|intros a b x ? ?; by eapply ple_trans|apply ple_refl|exact Ho|exact Hr].
    + intros f r Hf Hr. assert (Hin : r ∈ c) by (apply Hc; eauto). split; intros x Hx.
      * eapply (reduce_spec f64_min ple); [apply f64_min_spec|apply ple_trans|apply ple_refl|exact Ho|exact Hx|done].
      * eapply (reduce_spec f64_max (flip ple)); [apply f64_max_spec|intros a b z ? ?; by eapply ple_trans|apply ple_refl|exact Ho|exact Hx|done].
    + intros r Hr. apply bind_Some in Hr as (x & Hx & Hr). destruct (is_finite x) eqn:Ef; [|done]. injection Hr as <-.
      case_decide; done.
Qed.

Definition two_feeds : list Feed :=
  [ mkFeed "alice (aa)" (Some 900) {["EUR" := f64_of_Z 61000]}; mkFeed "bob (bb)" (Some 1000) {["EUR" := f64_of_Z 60000]};
    mkFeed "carol (cc)" (Some 100) {["EUR" := f64_of_Z 1]}; mkFeed "dan (dd)" None ∅ ].

Example one_is_dead :
  summarise two_feeds 1150 = mkSummary 3 2 0 1 1 0 1 ∧
  (low <$> disparity two_feeds "EUR" 1150) = Some (Some (f64_of_Z 60000)) ∧
  (comparable <$> disparity two_feeds "EUR" 1150) = Some 2 ∧ disparity two_feeds "USD" 1150 = None.
Proof. vm_compute. repeat split. Qed.

