(* ===== verification/Volume.v ===== *)
(** * Volume figures

    [crates/stats/src/volume.rs]: the sats and the fiat of the orders that
    completed in a window, by size, side and currency. *)

From Stdlib Require Import SpecFloat.
From S2P Require Import Prelude F64 Rounding StatsPrelude Percentile Calendar Window Metric Bucket.
From S2P Require Activity.
Import Activity (Order, o_amount_sats, o_direction, o_fiat_amount, o_fiat_code, o_status, o_success_at).

#[local] Open Scope Z_scope.
#[local] Existing Instances Activity.activity_status_eq_dec Activity.activity_direction_eq_dec.

Definition BUCKETS : list (string * option Z) :=
  [ ("lt_10k", Some 9999); ("10k_50k", Some 50000); ("50k_200k", Some 200000); ("200k_1m", Some 1000000); ("gt_1m", None) ].
(** The first bucket whose bound is not below [size]; the last has none. *)
Definition bucket (size : Z) : nat :=
  match list_find (λ b, is_none_or (λ upper, bool_decide (size ≤ upper)) b.2) BUCKETS with
  | Some (i, _) => i
  | None => length BUCKETS
  end.

(** The sum, in [i128], when it fits an [i64]. *)
Definition sum_sats (sats : list Z) : option Z := in_i64 (sum_Z sats).

Inductive Dimension : Type := ByKind | ByFiat | ByInstance | ByMonth | ByDay.
Definition grouping (d : Dimension) : option Activity.Dimension :=
  match d with
  | ByKind => Some Activity.ByKind
  | ByFiat => Some Activity.ByFiat
  | ByInstance => Some Activity.ByInstance
  | ByMonth | ByDay => None
  end.
Definition period (d : Dimension) : Period := match d with ByDay => Day | _ => Month end.

Record FiatFigures : Type := mkFiatFigures {
  ff_total : f64; ff_ticket_avg : f64; ff_ticket_p50 : f64; ff_ticket_p90 : f64;
}.
Record FiatVolume : Type := mkFiatVolume {
  fv_orders : Z; fv_completed : Z; fv_sats : option Z; fv_figures : option FiatFigures;
}.
Record Volume : Type := mkVolume {
  v_completed : Z;
  v_sats : option Z;
  v_ticket_avg : option Z;
  v_ticket_p50 : option Z;
  v_ticket_p90 : option Z;
  v_largest : option Z;
  v_buckets : list Z;
  v_buy_sats : option Z;
  v_sell_sats : option Z;
  v_fiat : gmap string FiatVolume;
}.

Definition is_completed (window : Window) (o : Order) : bool :=
  bool_decide (o_status o = Activity.Success) && is_some_and (contains window) (o_success_at o).
Definition completed (orders : list Order) (window : Window) : list Order :=
  filter (λ o, is_completed window o) orders.
Definition observed_sats (orders : list Order) (window : Window) : option Z :=
  sum_sats (o_amount_sats <$> completed orders window).

(** The nearest sat, halves up, in integers: [(2·sum + n) div (2·n)]. *)
Definition mean_sats (sizes : list Z) : option Z :=
  if decide (sizes = []) then None
  else
    let n := Z.of_nat (length sizes) in
    in_i64 ((2 * sum_Z sizes + n) / (2 * n)).

(** [Iterator::sum] over [f64], whose neutral element is [-0.0]. *)
Definition f64_sum (l : list f64) : f64 := foldl f64_add (S754_zero true) l.

(** One currency. The percentiles are those of finite, non-empty samples; the
    code panics otherwise, and [figures_present] shows it never does. *)
Definition fiat_volume (amounts : list f64) (sats : list Z) : FiatVolume :=
  let total := f64_sum amounts in
  let n := Z.of_nat (length amounts) in
  {|
    fv_orders := n;
    fv_completed := Z.of_nat (length sats);
    fv_sats := sum_sats sats;
    fv_figures :=
      if decide (is_finite total ∧ amounts ≠ []) then
        p50 ← percentile amounts half;
        p90 ← percentile amounts ninety;
        Some (mkFiatFigures total (f64_div total (f64_of_Z n)) p50 p90)
      else None;
  |}.

(** [by_fiat.entry(code).or_default()]. *)
Definition push_fiat (o : Order) (entry : list f64 * list Z) : list f64 * list Z :=
  ( match o_fiat_amount o with Some amount => entry.1 ++ [amount] | None => entry.1 end,
    entry.2 ++ [o_amount_sats o] ).
Definition by_fiat (orders : list Order) : gmap string (list f64 * list Z) :=
  foldl (entry_push o_fiat_code push_fiat ([], [])) ∅ orders.

Definition side (direction : Activity.Direction) (orders : list Order) : option Z :=
  sum_sats (o_amount_sats <$> filter (λ o, o_direction o = direction) orders).
(** [Iterator::max]. *)
Definition largest (l : list Z) : option Z :=
  match l with [] => None | x :: l => Some (foldl Z.max x l) end.

Definition summarise (orders : list Order) (window : Window) : Volume :=
  let completed := completed orders window in
  let sizes := o_amount_sats <$> completed in
  {|
    v_completed := Z.of_nat (length completed);
    v_sats := sum_sats sizes;
    v_ticket_avg := mean_sats sizes;
    v_ticket_p50 := percentile sizes half;
    v_ticket_p90 := percentile sizes ninety;
    v_largest := largest sizes;
    v_buckets := foldl (λ counts size, alter (Z.add 1) (bucket size) counts) (replicate 5 0) sizes;
    v_buy_sats := side Activity.Buy completed;
    v_sell_sats := side Activity.Sell completed;
    v_fiat := (λ entry, fiat_volume entry.1 entry.2) <$> by_fiat completed;
  |}.

(** ** The metrics *)

Definition sats_metric (prefix name : string) (value : option Z) : Metric :=
  observed (dotted prefix name) (or_missing Sats value).
Definition fiat_metrics (prefix code : string) (f : FiatVolume) : list Metric :=
  let name n := dotted prefix (dotted (dotted "fiat" code) n) in
  let figure pick := or_missing (λ figures, fiat (pick figures) code) (fv_figures f) in
  [ observed (name "total") (figure ff_total);
    observed (name "orders") (Count (fv_orders f));
    observed (name "sats") (or_missing Sats (fv_sats f));
    observed (name "completed") (Count (fv_completed f));
    observed (name "ticket_avg") (figure ff_ticket_avg);
    observed (name "ticket_p50") (figure ff_ticket_p50);
    observed (name "ticket_p90") (figure ff_ticket_p90) ].
Definition metrics (prefix : string) (v : Volume) : list Metric :=
  let sats := sats_metric prefix in
  [ sats "sats" (v_sats v);
    observed (dotted prefix "completed") (Count (v_completed v));
    sats "ticket_avg" (v_ticket_avg v);
    sats "ticket_p50" (v_ticket_p50 v);
    sats "ticket_p90" (v_ticket_p90 v);
    sats "largest" (v_largest v) ]
  ++ zip_with (λ entry count, observed (dotted prefix (dotted "size" entry.1)) (Count count)) BUCKETS (v_buckets v)
  ++ [sats "buy_sats" (v_buy_sats v); sats "sell_sats" (v_sell_sats v)]
  ++ (btree_iter (v_fiat v) ≫= λ '(code, f), fiat_metrics prefix code f).

(** ** What the figures promise *)

Lemma bucket_in_range size :
  bucket size =
    if decide (size ≤ 9999) then 0%nat else if decide (size ≤ 50000) then 1%nat
    else if decide (size ≤ 200000) then 2%nat else if decide (size ≤ 1000000) then 3%nat else 4%nat.
Proof.
  unfold bucket, BUCKETS, is_none_or. cbn [list_find snd].
  repeat case_bool_decide; repeat (case_decide; try lia); cbn; try done; exfalso; auto.
Qed.

Lemma bucket_counts l :
  foldl (λ counts size, alter (Z.add 1) (bucket size) counts) (replicate 5 0) l =
    (λ i, count_if (λ size, bool_decide (bucket size = i)) l) <$> seq 0 5.
Proof.
  induction l as [|x l IH] using rev_ind; [done|]. rewrite foldl_snoc, IH. cbn [fmap list_fmap seq].
  rewrite !count_if_app, !count_if_cons. rewrite bucket_in_range. repeat case_decide; cbn;
    unfold count_if at 2 4 6 8 10; cbn; rewrite ?Z.add_0_r, ?(Z.add_comm _ 1); done.
Qed.

Lemma f64_add_nan_l x : f64_add S754_nan x = S754_nan. Proof. by destruct x. Qed.
Lemma f64_sum_finite l : is_finite (f64_sum l) = true → Forall ordered l.
Proof.
  unfold f64_sum. generalize (S754_zero true : f64). induction l as [|x l IH]; intros a; cbn [foldl]; [constructor|].
  intros H. constructor; [|by eapply IH]. apply f64_ordered. destruct x; try done.
  exfalso. replace (f64_add a S754_nan) with (S754_nan : f64) in H by (by destruct a).
  clear IH. induction l as [|y l IH]; cbn [foldl] in H; [done|]. rewrite f64_add_nan_l in H. by apply IH.
Qed.

Lemma figures_present amounts sats :
  Z.of_nat (length amounts) < max_samples →
  is_Some (fv_figures (fiat_volume amounts sats)) ↔ is_finite (f64_sum amounts) = true ∧ amounts ≠ [].
Proof.
  intros Hn. cbn. rewrite <- Is_true_true. case_decide as H.
  - destruct H as [Hf Hne]. apply Is_true_true in Hf.
    destruct (percentiles_present amounts Hn Hne (f64_sum_finite _ Hf)) as [[x ->] [y ->]].
    split; [by rewrite Hf|by eexists].
  - split; [by intros [? ?]|]. intros H'. by destruct H.
Qed.

Lemma mean_sats_nearest sizes a :
  mean_sats sizes = Some a →
  let n := Z.of_nat (length sizes) in
  2 * n * a - n ≤ 2 * sum_Z sizes < 2 * n * a + n.
Proof.
  unfold mean_sats. case_decide as H; [done|]. unfold in_i64. case_decide; [|done]. intros [= <-].
  set (n := Z.of_nat (length sizes)) in *. assert (0 < n) by (unfold n; destruct sizes; [done|cbn; lia]).
  pose proof (Z.div_mod (2 * sum_Z sizes + n) (2 * n) ltac:(lia)).
  pose proof (Z.mod_pos_bound (2 * sum_Z sizes + n) (2 * n) ltac:(lia)). lia.
Qed.

Lemma largest_spec l x : largest l = Some x → x ∈ l ∧ ∀ y, y ∈ l → y ≤ x.
Proof.
  destruct l as [|a l]; [done|]. cbn. intros [= <-]. revert a.
  induction l as [|b l IH]; intros a; cbn [foldl].
  - split; [constructor|]. by intros y ->%list_elem_of_singleton.
  - destruct (IH (Z.max a b)) as [I1 I2]. split.
    + apply elem_of_cons in I1 as [E|I1]; [|by do 2 right]. rewrite E.
      destruct (Z.max_spec a b) as [[_ ->]|[_ ->]]; [by right; left|by left].
    + specialize (I2 (Z.max a b) ltac:(constructor)) as I0. intros y Hy.
      apply elem_of_cons in Hy as [->|Hy]; [lia|]. apply elem_of_cons in Hy as [->|Hy]; [lia|]. apply I2. by right.
Qed.

Lemma sides_total orders :
  sum_Z (o_amount_sats <$> orders) =
    sum_Z (o_amount_sats <$> filter (λ o, o_direction o = Activity.Buy) orders)
    + sum_Z (o_amount_sats <$> filter (λ o, o_direction o = Activity.Sell) orders).
Proof.
  induction orders as [|o k IH]; [done|]. rewrite !filter_cons, fmap_cons.
  destruct (o_direction o) eqn:E; repeat case_decide; try congruence; rewrite ?fmap_cons;
    unfold sum_Z in *; cbn [foldr]; lia.
Qed.

(** A count over the currencies. *)
Lemma by_fiat_total (f : list f64 * list Z → Z) (w : Order → Z) orders :
  f ([], []) = 0 → (∀ o entry, f (push_fiat o entry) = w o + f entry) →
  total_of f (by_fiat orders) = sum_Z (w <$> orders).
Proof. intros H1 H2. unfold by_fiat. by rewrite (total_of_fold _ _ _ _ w), total_of_empty, Z.add_0_r. Qed.

(** the volume accounts for every completed order: each is counted in the
    one bucket its size falls in and in its currency; the sats of the two
    sides and of the currencies add up to the total, which is withheld exactly
    when it does not fit its width; the average ticket is the nearest sat to
    the mean, and the largest is an order no other exceeds. A currency has
    fiat figures exactly when some order states an amount and the amounts add
    up to a finite number. *)
Theorem volume_accounts (orders : list Order) (window : Window)
    (v := summarise orders window) (l := completed orders window) :
  Z.of_nat (length orders) < max_samples →
  v_completed v = Z.of_nat (length l) ∧
  v_buckets v = (λ i, count_if (λ o, bool_decide (bucket (o_amount_sats o) = i)) l) <$> seq 0 5 ∧
  sum_Z (v_buckets v) = v_completed v ∧
  v_sats v = in_i64 (sum_Z (o_amount_sats <$> l)) ∧
  (∀ buy sell, v_buy_sats v = Some buy → v_sell_sats v = Some sell → sum_Z (o_amount_sats <$> l) = buy + sell) ∧
  (∀ a, v_ticket_avg v = Some a → 2 * v_completed v * a - v_completed v ≤ 2 * sum_Z (o_amount_sats <$> l)
    < 2 * v_completed v * a + v_completed v) ∧
  (∀ x, v_largest v = Some x → x ∈ o_amount_sats <$> l ∧ ∀ o, o ∈ l → o_amount_sats o ≤ x) ∧
  sum_Z ((λ entry, fv_completed entry.2) <$> btree_iter (v_fiat v)) = v_completed v ∧
  sum_Z ((λ entry, sum_Z entry.2.2) <$> btree_iter (by_fiat l)) = sum_Z (o_amount_sats <$> l) ∧
  (∀ code amounts sats, by_fiat l !! code = Some (amounts, sats) → Z.of_nat (length amounts) < max_samples →
    ∃ f, v_fiat v !! code = Some f ∧
      (is_Some (fv_figures f) ↔ is_finite (f64_sum amounts) = true ∧ amounts ≠ [])).
Proof.
  intros Hlen. subst v. split_and!.
  - done.
  - cbn [v_buckets summarise]. fold l. rewrite bucket_counts. apply list_fmap_ext. intros _ i _.
    induction l as [|o k IH]; [done|]. by rewrite fmap_cons, !count_if_cons, IH.
  - cbn [v_buckets v_completed summarise]. fold l. rewrite bucket_counts. clear.
    induction l as [|o k IH]; [done|]. rewrite fmap_cons. cbn [length]. rewrite Nat2Z.inj_succ, <- IH.
    cbn [fmap list_fmap seq sum_Z foldr]. rewrite !count_if_cons, bucket_in_range.
    repeat case_decide; cbn; lia.
  - done.
  - cbn [v_buy_sats v_sell_sats summarise]. fold l. unfold side, sum_sats, in_i64. intros buy sell.
    case_decide; [|done]. intros [= <-]. case_decide; [|done]. intros [= <-].
    apply sides_total.
  - intros a Ha. pose proof (mean_sats_nearest _ _ Ha) as H. cbv zeta in H. fold l in H. rewrite length_fmap in H. exact H.
  - intros x Hx. cbn [v_largest summarise] in Hx. fold l in Hx. apply largest_spec in Hx as [H1 H2].
    split; [done|]. intros o Ho. apply H2, list_elem_of_fmap. eauto.
  - cbn [v_fiat v_completed summarise]. fold l.
    change (total_of fv_completed ((λ entry, fiat_volume entry.1 entry.2) <$> by_fiat l) = Z.of_nat (length l)).
    transitivity (total_of (λ entry : list f64 * list Z, Z.of_nat (length entry.2)) (by_fiat l)).
    + rewrite !total_of_map, map_to_list_fmap, <- list_fmap_compose. done.
    + rewrite (by_fiat_total _ (λ _, 1)); [|done|intros o entry; cbn; rewrite length_app; cbn; lia].
      clear. induction l as [|o k IH]; [done|]. rewrite fmap_cons. cbn [length]. unfold sum_Z in *. cbn [foldr]. lia.
  - apply (by_fiat_total (λ entry, sum_Z entry.2) o_amount_sats); [done|].
    intros o entry. cbn. rewrite sum_Z_app. cbn. lia.
  - intros code amounts sats Hc Hn. cbn [v_fiat summarise]. fold l. rewrite lookup_fmap, Hc.
    eexists. split; [done|]. by apply figures_present.
Qed.

(** ** A concrete week *)

Example week_volume :
  let v := summarise Activity.sample.orders Activity.sample.week in
  (v_completed v, v_sats v, v_buckets v, v_sell_sats v, v_largest v) =
    (1, Some 1000, [1; 0; 0; 0; 0], Some 1000, Some 1000).
Proof. vm_compute. reflexivity. Qed.

