(* ===== verification/Converted.v ===== *)
(** * Volume in a reference currency

    [crates/stats/src/volume/converted.rs] and the report of [volume.rs]: every
    completed order at the rate its instance had published by then. *)

From S2P Require Import Prelude F64 StatsPrelude Calendar Window Metric Bucket Rates Volume.
From S2P Require Activity Text.
Import Activity (Order, o_amount_sats, o_pubkey, o_success_at).

#[local] Open Scope Z_scope.

Record Borrowed : Type := mkBorrowed { br_orders : Z; br_sats : option Z }.
(** [Borrowed::default]. *)
Definition nothing : Borrowed := mkBorrowed 0 (Some 0).

Record Converted : Type := mkConverted {
  cv_code : string;
  cv_total : option f64;
  cv_priced : Z;
  cv_unpriced : Z;
  cv_unpriced_sats : option Z;
  cv_unusable : Z;
  cv_unusable_sats : option Z;
  cv_borrowed : gmap string Borrowed;
  cv_rate_age_max_secs : option Z;
}.

(** [fallbacks], [fallback_sources]. *)
Definition fallbacks (c : Converted) : Z := sum_Z ((λ entry, br_orders entry.2) <$> btree_iter (cv_borrowed c)).
Definition fallback_sources (c : Converted) : list (string * Z * Z) :=
  (λ '(pubkey, b), (pubkey, br_orders b, default 0 (br_sats b))) <$> btree_iter (cv_borrowed c).

Definition add_sats (total : option Z) (sats : Z) : option Z :=
  total ≫= λ total, in_i64 (total + sats).
Definition SHORT_PUBKEY : nat := 8.
Definition short (pubkey : string) : string := Text.take_chars SHORT_PUBKEY pubkey.

Definition start (code : string) : Converted := {|
  cv_code := code;
  cv_total := Some (f64_of_Z 0);
  cv_priced := 0;
  cv_unpriced := 0;
  cv_unpriced_sats := Some 0;
  cv_unusable := 0;
  cv_unusable_sats := Some 0;
  cv_borrowed := ∅;
  cv_rate_age_max_secs := None;
|}.

(** The three ends of the loop body. *)
Definition left_unpriced (c : Converted) (sats : Z) : Converted :=
  mkConverted (cv_code c) (cv_total c) (cv_priced c) (cv_unpriced c + 1) (add_sats (cv_unpriced_sats c) sats)
    (cv_unusable c) (cv_unusable_sats c) (cv_borrowed c) (cv_rate_age_max_secs c).
Definition left_unusable (c : Converted) (sats : Z) : Converted :=
  mkConverted (cv_code c) (cv_total c) (cv_priced c) (cv_unpriced c) (cv_unpriced_sats c)
    (cv_unusable c + 1) (add_sats (cv_unusable_sats c) sats) (cv_borrowed c) (cv_rate_age_max_secs c).
Definition priced_at (c : Converted) (sats : Z) (quote : RateQuote) (value : f64) : Converted :=
  let total := total ← cv_total c; let total := f64_add total value in if is_finite total then Some total else None in
  let borrowed :=
    match q_source quote with
    | Fallback pubkey =>
        let b := default nothing (cv_borrowed c !! pubkey) in
        <[pubkey := mkBorrowed (br_orders b + 1) (add_sats (br_sats b) sats)]> (cv_borrowed c)
    | OwnInstance => cv_borrowed c
    end in
  let age := match cv_rate_age_max_secs c with Some age => Z.max age (q_age_secs quote) | None => q_age_secs quote end in
  mkConverted (cv_code c) total (cv_priced c + 1) (cv_unpriced c) (cv_unpriced_sats c)
    (cv_unusable c) (cv_unusable_sats c) borrowed (Some age).

(** One completed order; one without a [success_at] would panic, and
    [completed] yields none. *)
Definition convert_step (book : RateBook) (code : string) (c : Converted) (o : Order) : Converted :=
  match o_success_at o with
  | None => c
  | Some settled_at =>
      match rate_at book (o_pubkey o) code settled_at with
      | None => left_unpriced c (o_amount_sats o)
      | Some quote =>
          let value := convert_sats quote (o_amount_sats o) in
          if is_finite value then priced_at c (o_amount_sats o) quote value
          else left_unusable c (o_amount_sats o)
      end
  end.
Definition convert (orders : list Order) (window : Window) (book : RateBook) (code : string) : Converted :=
  foldl (convert_step book code) (start code) (completed orders window).

(** ** The metrics *)

Definition sats (n : option Z) : string :=
  match n with Some n => pretty n +:+ " sats" | None => "more sats than a number can hold" end.
Definition qualification (c : Converted) : string :=
  join "; " (
    [match cv_rate_age_max_secs c with Some age => "rate_age_secs ≤ " +:+ pretty age | None => "no rate used" end]
    ++ (if decide (cv_borrowed c = ∅) then []
        else [pretty (fallbacks c) +:+ " at another instance's rate: "
          +:+ join ", " ((λ '(pubkey, b), short pubkey +:+ " (" +:+ pretty (br_orders b) +:+ ")") <$> btree_iter (cv_borrowed c))])
    ++ (if decide (0 < cv_unpriced c) then
          [pretty (cv_unpriced c) +:+ " with no usable rate within " +:+ pretty MAX_AGE_SECS +:+ "s ("
            +:+ sats (cv_unpriced_sats c) +:+ " excluded)"]
        else [])
    ++ (if decide (0 < cv_unusable c) then
          [pretty (cv_unusable c) +:+ " unusable: the conversion is not a finite number ("
            +:+ sats (cv_unusable_sats c) +:+ " excluded)"]
        else [])
    ++ match cv_total c with Some _ => [] | None => ["the sum of the priced orders is not a finite number"] end).

Definition metrics (prefix : string) (c : Converted) : list Metric :=
  let inferred name value error := inferred (dotted (dotted (dotted prefix "in") (cv_code c)) name) value error in
  let excluded := cv_unpriced c + cv_unusable c in
  let total :=
    match cv_total c with
    | Some total => if decide (0 < cv_priced c ∨ excluded = 0) then fiat total (cv_code c) else Missing
    | None => Missing
    end in
  [ inferred "total" total (qualification c);
    inferred "orders" (Count (cv_priced c)) "orders with a rate published at or before success_at";
    inferred "unpriced_sats" (or_missing Sats (cv_unpriced_sats c))
      "sats of the orders with no usable rate at success_at; not in the total";
    inferred "rate_age_max" (or_missing Seconds (cv_rate_age_max_secs c)) "age of the oldest snapshot used" ].

(** [volume::report]. *)
Section report.
Context {cal : Calendar}.
Definition block (conversion : option (RateBook * string)) (prefix : string) (orders : list Order) (window : Window) :
    list Metric :=
  Volume.metrics prefix (summarise orders window)
  ++ match conversion with
     | Some (book, code) => metrics prefix (convert orders window book code)
     | None => []
     end.
Definition report (orders : list Order) (window : Window) (dimension : option Dimension)
    (conversion : option (RateBook * string)) (coverage : Coverage) : list Metric :=
  match dimension with
  | None => block conversion "volume" orders window
  | Some dimension =>
      match grouping dimension with
      | Some by_ =>
          btree_iter (Activity.slice orders by_) ≫= λ '(key, group), block conversion (dotted "volume" key) group window
      | None =>
          walk window (period dimension) coverage (λ key bucket _, block conversion (dotted "volume" key) orders bucket)
      end
  end.
End report.

(** ** Every completed order is accounted for *)

(** How the loop ends for one order. *)
Inductive End : Type := Priced (quote : RateQuote) (value : f64) | Unpriced | Unusable.
Definition end_of (book : RateBook) (code : string) (o : Order) : End :=
  match o_success_at o ≫= rate_at book (o_pubkey o) code with
  | None => Unpriced
  | Some quote =>
      let value := convert_sats quote (o_amount_sats o) in
      if is_finite value then Priced quote value else Unusable
  end.
Definition is_priced (e : End) : bool := match e with Priced _ _ => true | _ => false end.
Definition is_unpriced (e : End) : bool := match e with Unpriced => true | _ => false end.
Definition is_unusable (e : End) : bool := match e with Unusable => true | _ => false end.
Definition is_borrowed (e : End) : bool :=
  match e with Priced (mkRateQuote _ _ (Fallback _)) _ => true | _ => false end.
Definition is_borrowed_from (pubkey : string) (e : End) : bool :=
  match e with Priced (mkRateQuote _ _ (Fallback lender)) _ => bool_decide (lender = pubkey) | _ => false end.
(** What the priced orders come to, and how old their rates were. *)
Definition values (book : RateBook) (code : string) (l : list Order) : list f64 :=
  omap (λ o, match end_of book code o with Priced _ value => Some value | _ => None end) l.
Definition ages (book : RateBook) (code : string) (l : list Order) : list Z :=
  omap (λ o, match end_of book code o with Priced q _ => Some (q_age_secs q) | _ => None end) l.

Lemma borrowed_total (m : gmap string Borrowed) k b :
  total_of br_orders (<[k := mkBorrowed (br_orders (default nothing (m !! k)) + 1) b]> m) = 1 + total_of br_orders m.
Proof.
  rewrite total_of_insert. cbn [br_orders]. destruct (m !! k) as [d|] eqn:E; cbn.
  - assert (total_of br_orders m = br_orders d + total_of br_orders (delete k m)) as ->
      by (by rewrite <- total_of_insert, insert_id). lia.
  - rewrite delete_id by done. lia.
Qed.

(** Sats of amounts that are not negative: the running sum is the sum. *)
Lemma add_sats_sum l total :
  0 ≤ total → Forall (λ x, 0 ≤ x) l →
  foldl add_sats (in_i64 total) l = in_i64 (total + sum_Z l).
Proof.
  intros Ht Hl. revert total Ht. induction Hl as [|x l Hx Hl IH]; intros total Ht; cbn [foldl].
  - f_equal. cbn. lia.
  - cbn [sum_Z foldr]. fold (sum_Z l). pose proof (sum_Z_nonneg l Hl).
    destruct (decide (is_i64 total)) as [Hi|Hi].
    + replace (in_i64 total) with (Some total) by (unfold in_i64; by rewrite decide_True).
      cbn [add_sats mbind option_bind]. rewrite IH by lia. f_equal. lia.
    + replace (in_i64 total) with (None (A := Z)) by (unfold in_i64; by rewrite decide_False).
      assert (∀ k, foldl add_sats None k = None) as -> by (intros k; induction k; done).
      unfold in_i64, is_i64, i64_min, i64_max in *. rewrite decide_False by lia. done.
Qed.

Lemma sql_max_step old a rest :
  sql_max (Some (match old with Some x => Z.max x a | None => a end) :: rest) = sql_max (old :: Some a :: rest).
Proof.
  destruct old as [x|]; cbn [sql_max foldr opt_max]; fold (sql_max rest); destruct (sql_max rest); cbn; f_equal; lia.
Qed.

(** A sum that is no longer finite stays so: the running total is the sum. *)
Lemma f64_add_infinite x y : is_finite x = false → is_finite (f64_add x y) = false.
Proof. destruct x as [s|s| |], y as [s0|s0| |]; try done. cbn. by destruct s, s0. Qed.
Definition add_value (total : option f64) (value : f64) : option f64 :=
  total ← total; let total := f64_add total value in if is_finite total then Some total else None.
Definition when_finite (x : f64) : option f64 := if is_finite x then Some x else None.
Lemma add_values l x : foldl add_value (when_finite x) l = when_finite (foldl f64_add x l).
Proof.
  revert x. induction l as [|v l IH]; intros x; [done|]. cbn [foldl]. rewrite <- IH. f_equal.
  unfold when_finite at 1. destruct (is_finite x) eqn:E; [done|]. unfold when_finite. by rewrite (f64_add_infinite x v E).
Qed.

Lemma convert_fold book code l c :
  Forall (λ o, is_Some (o_success_at o)) l →
  let r := foldl (convert_step book code) c l in
  let ends (p : End → bool) := count_if (λ o, p (end_of book code o)) l in
  let sats_of (p : End → bool) := o_amount_sats <$> filter (λ o, p (end_of book code o)) l in
  cv_code r = cv_code c ∧
  cv_priced r = cv_priced c + ends is_priced ∧
  cv_unpriced r = cv_unpriced c + ends is_unpriced ∧
  cv_unusable r = cv_unusable c + ends is_unusable ∧
  cv_unpriced_sats r = foldl add_sats (cv_unpriced_sats c) (sats_of is_unpriced) ∧
  cv_unusable_sats r = foldl add_sats (cv_unusable_sats c) (sats_of is_unusable) ∧
  fallbacks r = fallbacks c + ends is_borrowed ∧
  cv_rate_age_max_secs r = sql_max (cv_rate_age_max_secs c :: (Some <$> ages book code l)) ∧
  cv_total r = foldl add_value (cv_total c) (values book code l).
Proof.
  intros Hl. cbv zeta. revert c. induction Hl as [|o l [t Ho] Hl IH]; intros c; cbn [foldl].
  - unfold count_if; cbn. split_and!; try done; try lia. by destruct (cv_rate_age_max_secs c).
  - destruct (IH (convert_step book code c o)) as (-> & -> & -> & -> & -> & -> & -> & -> & ->). clear IH.
    rewrite !count_if_cons, !filter_cons. unfold ages, values. cbn [omap list_omap]. unfold convert_step in *. rewrite Ho in *.
    assert (He : end_of book code o = match rate_at book (o_pubkey o) code t with
      | None => Unpriced
      | Some quote => let value := convert_sats quote (o_amount_sats o) in
          if is_finite value then Priced quote value else Unusable end) by (unfold end_of; by rewrite Ho).
    rewrite He. destruct (rate_at book (o_pubkey o) code t) as [q|]; [destruct (is_finite _) eqn:Ef|];
      cbn [is_priced is_unpriced is_unusable Is_true] in *; repeat (case_decide; try done).
    all: cbv zeta in *; rewrite ?Ef in *; cbn [is_priced is_unpriced is_unusable is_borrowed].
    all: split_and!.
    all: try done.
    all: try (cbn; lia).
    + destruct q as [r a [|pubkey]]; cbn [q_source]; [unfold fallbacks; cbn; lia|].
      unfold fallbacks. cbn [priced_at cv_borrowed q_source]. pose proof (borrowed_total (cv_borrowed c) pubkey) as Hb.
      unfold total_of in Hb. rewrite Hb. lia.
    + rewrite fmap_cons. apply sql_max_step.
Qed.

(** What each lender's rates priced. *)
Lemma borrowed_fold book code pubkey l c :
  Forall (λ o, is_Some (o_success_at o)) l →
  let own := filter (λ o, is_borrowed_from pubkey (end_of book code o)) l in
  let b := default nothing (cv_borrowed c !! pubkey) in
  cv_borrowed (foldl (convert_step book code) c l) !! pubkey =
    if decide (own = []) then cv_borrowed c !! pubkey
    else Some (mkBorrowed (br_orders b + Z.of_nat (length own)) (foldl add_sats (br_sats b) (o_amount_sats <$> own))).
Proof.
  intros Hl. cbv zeta. revert c. induction Hl as [|o l [t Ho] Hl IH]; intros c; [done|]. cbn [foldl]. rewrite IH. clear IH.
  assert (He : cv_borrowed (convert_step book code c o) !! pubkey =
    if is_borrowed_from pubkey (end_of book code o)
    then let b := default nothing (cv_borrowed c !! pubkey) in Some (mkBorrowed (br_orders b + 1) (add_sats (br_sats b) (o_amount_sats o)))
    else cv_borrowed c !! pubkey).
  { unfold convert_step, end_of. rewrite Ho. cbn [mbind option_bind].
    destruct (rate_at book (o_pubkey o) code t) as [[r a source]|]; [|done]. destruct (is_finite _); [|done].
    destruct source as [|lender]; [done|]. cbn. case_bool_decide; [subst; by rewrite lookup_insert_eq|by rewrite lookup_insert_ne]. }
  rewrite He. destruct (is_borrowed_from pubkey (end_of book code o)) eqn:Eb.
  - rewrite filter_cons_True by (by rewrite Eb). rewrite (decide_False (P := o :: _ = [])) by done.
    cbv zeta. cbn [default from_option br_orders br_sats].
    case_decide as En; [by rewrite En|]. cbn [length fmap list_fmap foldl id br_orders br_sats]. do 2 f_equal. lia.
  - rewrite filter_cons_False; [done|]. rewrite Eb. by intros [].
Qed.

Lemma completed_dated orders window snapshots :
  Forall (λ o, 0 ≤ o_amount_sats o ∧ ∀ t, o_success_at o = Some t → clocks_ok t snapshots) orders →
  ∀ o, o ∈ completed orders window → 0 ≤ o_amount_sats o ∧ ∃ t, o_success_at o = Some t ∧ clocks_ok t snapshots.
Proof.
  intros Hok o [Hc Ho]%list_elem_of_filter. rewrite Forall_forall in Hok. destruct (Hok o Ho) as [H1 H2].
  split; [done|]. unfold is_completed in Hc. rewrite andb_True in Hc. destruct Hc as [_ Hc].
  destruct (o_success_at o) as [t|]; [|done]. exists t. auto.
Qed.
Lemma ends_exhaustive book code l :
  count_if (λ o, is_priced (end_of book code o)) l + count_if (λ o, is_unpriced (end_of book code o)) l +
  count_if (λ o, is_unusable (end_of book code o)) l = Z.of_nat (length l).
Proof.
  induction l as [|o k IH]; [done|]. rewrite !count_if_cons. cbn [length].
  destruct (end_of book code o); cbn [is_priced is_unpriced is_unusable]; lia.
Qed.
Lemma ages_none book code l :
  sql_max (None :: (Some <$> ages book code l)) = None ↔ count_if (λ o, is_priced (end_of book code o)) l = 0.
Proof.
  induction l as [|o k IH]; [done|]. rewrite count_if_cons. unfold ages. cbn [omap list_omap].
  pose proof (count_if_nonneg (λ o, is_priced (end_of book code o)) k).
  destruct (end_of book code o) as [q v| |]; cbn [is_priced] in *; [|exact IH..].
  rewrite fmap_cons. cbn [sql_max foldr opt_max]. destruct (foldr _ _ _); cbn; (split; [done|lia]).
Qed.

(** C32: every completed order is priced, or had no usable rate, or has no
    finite value, and is counted as exactly that one. The total is the sum of
    the values of the priced ones, in the order they were completed in the
    list, and is withheld exactly when that sum is not a finite number. The
    sats without a rate are those of the orders that had none, and the
    unusable sats those of the orders without a finite value, each withheld
    when they do not fit. For each instance whose rates priced another's
    orders it keeps how many those were and their sats, and for no other; all
    together they are the borrowed ones, which are among the priced. The rate
    age is the greatest used, and within the bound. *)
Theorem converted_accounts (orders : list Order) (window : Window) (snapshots : list Snapshot) (code : string)
    (book := Rates.new snapshots) (l := completed orders window) (c := convert orders window book code) :
  Forall (λ o, 0 ≤ o_amount_sats o ∧ ∀ t, o_success_at o = Some t → clocks_ok t snapshots) orders →
  cv_priced c + cv_unpriced c + cv_unusable c = Z.of_nat (length l) ∧
  cv_priced c = count_if (λ o, is_priced (end_of book code o)) l ∧
  cv_unpriced c = count_if (λ o, is_unpriced (end_of book code o)) l ∧
  cv_unusable c = count_if (λ o, is_unusable (end_of book code o)) l ∧
  (let sum := foldl f64_add (f64_of_Z 0) (values book code l) in
    cv_total c = if is_finite sum then Some sum else None) ∧
  cv_unpriced_sats c = in_i64 (sum_Z (o_amount_sats <$> filter (λ o, is_unpriced (end_of book code o)) l)) ∧
  cv_unusable_sats c = in_i64 (sum_Z (o_amount_sats <$> filter (λ o, is_unusable (end_of book code o)) l)) ∧
  (∀ pubkey,
    let own := filter (λ o, is_borrowed_from pubkey (end_of book code o)) l in
    cv_borrowed c !! pubkey = if decide (own = []) then None
      else Some (mkBorrowed (Z.of_nat (length own)) (in_i64 (sum_Z (o_amount_sats <$> own))))) ∧
  fallbacks c = count_if (λ o, is_borrowed (end_of book code o)) l ∧ fallbacks c ≤ cv_priced c ∧
  (∀ a, cv_rate_age_max_secs c = Some a ↔ a ∈ ages book code l ∧ ∀ a', a' ∈ ages book code l → a' ≤ a) ∧
  (cv_rate_age_max_secs c = None ↔ cv_priced c = 0) ∧
  (∀ a, cv_rate_age_max_secs c = Some a → 0 ≤ a ≤ MAX_AGE_SECS).
Proof.
  intros Hok. assert (Hl := completed_dated orders window snapshots Hok). fold l in Hl.
  assert (Hdated : Forall (λ o, is_Some (o_success_at o)) l)
    by (apply Forall_forall; intros o Ho; destruct (Hl o Ho) as (_ & t & -> & _); by eexists).
  pose proof (convert_fold book code l (start code) Hdated) as H.
  cbv zeta in H. change (foldl (convert_step book code) (start code) l) with c in H. cbn [start cv_priced cv_unpriced cv_unusable
    cv_unpriced_sats cv_unusable_sats cv_rate_age_max_secs cv_total] in H.
  destruct H as (_ & Hp & Hu & Hx & Hus & Hxs & Hf & Ha & Ht).
  assert (Hsum : ∀ p : Order → bool, foldl add_sats (Some 0) (o_amount_sats <$> filter p l) =
    in_i64 (sum_Z (o_amount_sats <$> filter p l))).
  { intros p. rewrite <- (Z.add_0_l (sum_Z _)), <- add_sats_sum; [done|done|].
    apply Forall_fmap, Forall_forall. intros o [_ Ho]%list_elem_of_filter. by apply Hl. }
  change (fallbacks (start code)) with 0 in Hf.
  assert (Hage : ∀ a, cv_rate_age_max_secs c = Some a ↔ a ∈ ages book code l ∧ ∀ a', a' ∈ ages book code l → a' ≤ a).
  { intros a. rewrite Ha, sql_max_Some. setoid_rewrite elem_of_cons. setoid_rewrite list_elem_of_fmap. naive_solver. }
  split_and!; [|lia..| |by rewrite Hus; apply Hsum|by rewrite Hxs; apply Hsum| |lia| |exact Hage| |].
  - rewrite Hp, Hu, Hx. apply ends_exhaustive.
  - rewrite Ht. apply (add_values _ (f64_of_Z 0)).
  - intros pubkey. etransitivity; [exact (borrowed_fold book code pubkey l (start code) Hdated)|].
    cbn [start cv_borrowed]. rewrite lookup_empty. cbn [default from_option nothing br_orders br_sats].
    fold own. case_decide; [done|]. do 2 f_equal. apply (Hsum (λ o, is_borrowed_from pubkey (end_of book code o))).
  - rewrite Hf, Hp. apply count_if_le. intros o _. by destruct (end_of book code o) as [[r a []] v| |].
  - rewrite Ha, Hp. apply ages_none.
  - intros a (Hin & _)%Hage. apply list_elem_of_omap in Hin as (o & Ho & E). destruct (Hl o Ho) as (_ & t & Es & Hc).
    unfold end_of in E. rewrite Es in E. cbn [mbind option_bind] in E.
    destruct (rate_at book (o_pubkey o) code t) as [q|] eqn:Hr; [|done].
    destruct (is_finite _); [|done]. injection E as <-. by eapply rate_at_age.
Qed.

(** ** A concrete week *)

Definition snapshots : list Snapshot :=
  [ Rates.mkSnapshot "cd" 1767319900 {["EUR" := f64_of_Z 60000]}; Rates.mkSnapshot "ab" 1767319000 {["EUR" := f64_of_Z 61000]} ].
Example borrowed_rate :
  let c := convert Activity.sample.orders Activity.sample.week (Rates.new snapshots) "EUR" in
  (cv_priced c, cv_unpriced c, fallbacks c, cv_rate_age_max_secs c) = (1, 0, 1, Some 100) ∧
  qualification c = "rate_age_secs ≤ 100; 1 at another instance's rate: cd (1)".
Proof. vm_compute. repeat split. Qed.

Theorem converted_accounts_witness (c := convert Activity.sample.orders Activity.sample.week (Rates.new snapshots) "EUR") :
  fallbacks c ≤ 1 ∧ cv_total c = Some (f64_add (f64_of_Z 0) (f64_mul (f64_div (f64_of_Z 1000) (f64_of_Z 100000000)) (f64_of_Z 60000))) ∧
  cv_borrowed c !! "cd" = Some (mkBorrowed 1 (Some 1000)) ∧ cv_borrowed c !! "ab" = None.
Proof.
  destruct (converted_accounts Activity.sample.orders Activity.sample.week snapshots "EUR")
    as (_ & _ & _ & _ & Ht & _ & _ & Hb & _ & Hf & _).
  - unfold Activity.sample.orders.
    constructor; [|constructor; [|constructor; [|constructor]]]; (split; [vm_compute; discriminate|intros t Ht]);
      [|discriminate Ht..].
    injection Ht as <-. unfold clocks_ok, snapshots.
    constructor; [split; vm_compute; discriminate|]. constructor; [split; vm_compute; discriminate|constructor].
  - split_and!.
    + etrans; [exact Hf|]. vm_compute. discriminate.
    + etransitivity; [exact Ht|]. vm_compute. reflexivity.
    + etransitivity; [exact (Hb "cd")|]. vm_compute. reflexivity.
    + etransitivity; [exact (Hb "ab")|]. vm_compute. reflexivity.
Defined.
