(* ===== verification/DevFees.v ===== *)
(** * Dev fee figures

    [crates/stats/src/dev_fees.rs]: the fees sent, how late, how often twice,
    and how many of the trades that owed one paid it. *)

From S2P Require Import Prelude F64 Rounding StatsPrelude Percentile Calendar Window Metric Bucket.
From S2P Require Activity.

#[local] Open Scope Z_scope.

Record Fee : Type := mkFee {
  f_event_id : string;
  f_order_id : string;
  f_pubkey : string;
  f_instance : string;
  f_created_at : Z;
  f_amount_sats : Z;
  f_is_duplicate : bool;
  f_order_known : bool;
  f_settled_at : option Z;
  f_fee_in_force : option f64;
  f_settled_amount_sats : option Z;
}.
Record Settlement : Type := mkSettlement {
  st_order_id : string;
  st_instance : string;
  st_success_at : Z;
  st_has_fee : bool;
  st_charges_fee : option bool;
}.
Record DevFeeData : Type := mkDevFeeData { df_fees : list Fee; df_settlements : list Settlement }.
Definition no_fees : DevFeeData := mkDevFeeData [] [].

Inductive Dimension : Type := ByInstance | ByMonth | ByDay.

Record DevFees : Type := mkDevFees {
  total_sats : Z;
  paid : Z;
  coverage : option f64;
  latency_p50 : option Z;
  latency_p90 : option Z;
  duplicates : Z;
  orphans : Z;
}.

(** One fee per order, dated by the fee. *)
Definition counts (window : Window) (f : Fee) : bool := negb (f_is_duplicate f) && contains window (f_created_at f).
Definition canonical (data : DevFeeData) (window : Window) : list Fee := filter (λ f, counts window f) (df_fees data).

Definition owes (window : Window) (s : Settlement) : bool :=
  contains window (st_success_at s) && bool_decide (st_charges_fee s = Some true).

Definition summarise (data : DevFeeData) (window : Window) : DevFees :=
  let doubly_paid := list_to_set (C := gset string) (f_order_id <$> filter (λ f, f_is_duplicate f) (df_fees data)) in
  let canonical := canonical data window in
  let latencies := omap (λ f, i64_sub (f_created_at f) <$> f_settled_at f) canonical in
  let owed := filter (λ s, owes window s) (df_settlements data) in
  let covered := count_if st_has_fee owed in
  let n := Z.of_nat (length owed) in
  {|
    total_sats := i64_sum (f_amount_sats <$> canonical);
    paid := Z.of_nat (length canonical);
    coverage := if decide (owed = []) then None else Some (f64_div (f64_of_Z covered) (f64_of_Z n));
    latency_p50 := percentile latencies half;
    latency_p90 := percentile latencies ninety;
    duplicates := count_if (λ f, bool_decide (f_order_id f ∈ doubly_paid)) canonical;
    orphans := count_if (λ f, negb (f_order_known f)) canonical;
  |}.

(** [by_instance]. *)
Definition push_fee (f : Fee) (data : DevFeeData) : DevFeeData :=
  mkDevFeeData (df_fees data ++ [f]) (df_settlements data).
Definition push_settlement (s : Settlement) (data : DevFeeData) : DevFeeData :=
  mkDevFeeData (df_fees data) (df_settlements data ++ [s]).
Definition by_instance (data : DevFeeData) : gmap string DevFeeData :=
  foldl (entry_push st_instance push_settlement no_fees)
    (foldl (entry_push f_instance push_fee no_fees) ∅ (df_fees data)) (df_settlements data).

Definition metrics (prefix : string) (d : DevFees) : list Metric :=
  let observed name value := observed (dotted prefix name) value in
  [ observed "total_sats" (Sats (total_sats d));
    observed "paid" (Count (paid d));
    observed "coverage" (or_missing ratio (coverage d));
    observed "latency_p50" (or_missing Seconds (latency_p50 d));
    observed "latency_p90" (or_missing Seconds (latency_p90 d));
    observed "duplicates" (Count (duplicates d));
    observed "orphans" (Count (orphans d)) ].

(** ** What the figures promise *)

(** What an instance sent and owed. *)
Definition own_account (key : string) (data : DevFeeData) : DevFeeData :=
  mkDevFeeData (filter (λ f, f_instance f = key) (df_fees data)) (filter (λ s, st_instance s = key) (df_settlements data)).

Lemma own_fees data key : default no_fees (by_instance data !! key) = own_account key data.
Proof.
  unfold by_instance. rewrite !entry_push_lookup, lookup_empty. cbn [default from_option].
  assert (∀ l d, foldl (λ d x, push_fee x d) d l = mkDevFeeData (df_fees d ++ l) (df_settlements d)) as ->.
  { induction l as [|x l IH]; intros [fs ss]; cbn; [by rewrite app_nil_r|]. rewrite IH. cbn. by rewrite <- app_assoc. }
  assert (∀ l d, foldl (λ d x, push_settlement x d) d l = mkDevFeeData (df_fees d) (df_settlements d ++ l)) as ->; [|done].
  induction l as [|x l IH]; intros [fs ss]; cbn; [by rewrite app_nil_r|]. rewrite IH. cbn. by rewrite <- app_assoc.
Qed.
Lemma by_instance_lookup data key group :
  by_instance data !! key = Some group ↔
    group = own_account key data ∧ ((∃ f, f ∈ df_fees data ∧ f_instance f = key) ∨ ∃ s, s ∈ df_settlements data ∧ st_instance s = key).
Proof.
  pose proof (own_fees data key) as Hown.
  assert (is_Some (by_instance data !! key) ↔
    (∃ f, f ∈ df_fees data ∧ f_instance f = key) ∨ ∃ s, s ∈ df_settlements data ∧ st_instance s = key) as Hsome.
  { unfold by_instance. rewrite !entry_push_is_Some, lookup_empty. pose proof (is_Some_None (A := DevFeeData)). tauto. }
  split.
  - intros E. rewrite E in Hown. split; [done|]. apply Hsome. by rewrite E.
  - intros [-> Hs]. apply Hsome in Hs as [g E]. rewrite E in Hown |- *. by cbn in Hown; subst.
Qed.

(** What each fee weighs adds up over the instances. *)
Lemma by_instance_fees (weigh : list Fee → Z) (w : Fee → Z) data :
  weigh [] = 0 → (∀ x l, weigh (l ++ [x]) = w x + weigh l) →
  total_of (λ d, weigh (df_fees d)) (by_instance data) = sum_Z (w <$> df_fees data).
Proof.
  intros Hnil Hsnoc. unfold by_instance.
  rewrite (total_of_fold st_instance push_settlement no_fees _ (λ _, 0)) by done.
  rewrite (total_of_fold f_instance push_fee no_fees _ w); [by rewrite sum_Z_zero, total_of_empty, Z.add_0_r|done|].
  intros x d. apply Hsnoc.
Qed.
Lemma by_instance_count (p : Fee → bool) data :
  total_of (λ d, count_if p (df_fees d)) (by_instance data) = count_if p (df_fees data).
Proof.
  rewrite count_if_sum. apply (by_instance_fees (count_if p)); [done|].
  intros x l. rewrite count_if_app, count_if_cons. change (count_if p []) with 0. lia.
Qed.

(** The sats sent by the fees counted in a window. *)
Definition sats_in (window : Window) (fees : list Fee) : Z := sum_Z (f_amount_sats <$> filter (λ f, counts window f) fees).
Lemma by_instance_sats data window :
  total_of (λ d, sats_in window (df_fees d)) (by_instance data) = sats_in window (df_fees data).
Proof.
  rewrite (by_instance_fees _ (λ f, if counts window f then f_amount_sats f else 0)); [|done|].
  - unfold sats_in. induction (df_fees data) as [|f l IH]; [done|]. rewrite filter_cons, fmap_cons. cbn [sum_Z foldr].
    fold (sum_Z ((λ f, if counts window f then f_amount_sats f else 0) <$> l)). rewrite IH.
    by destruct (counts window f).
  - intros x l. unfold sats_in. rewrite filter_app, fmap_app, sum_Z_app, filter_cons, filter_nil.
    case_decide; destruct (counts window x); try done; cbn; lia.
Qed.
Lemma total_sats_in data window :
  Forall (λ f, 0 ≤ f_amount_sats f) (df_fees data) → is_i64 (sats_in window (df_fees data)) →
  total_sats (summarise data window) = sats_in window (df_fees data).
Proof.
  intros Hpos Hfit. apply i64_sum_small; [|done]. apply Forall_fmap, Forall_forall. intros f [_ Hf]%list_elem_of_filter.
  rewrite Forall_forall in Hpos. by apply Hpos.
Qed.
(** A part's sats fit where the whole's do. *)
Lemma own_sats_in data window key :
  Forall (λ f, 0 ≤ f_amount_sats f) (df_fees data) →
  0 ≤ sats_in window (df_fees (own_account key data)) ≤ sats_in window (df_fees data).
Proof.
  intros Hpos. unfold sats_in, own_account. cbn [df_fees]. rewrite list_filter_filter.
  rewrite (list_filter_iff _ (λ f, f_instance f = key ∧ counts window f)) by (intros; tauto).
  rewrite <- (list_filter_filter (λ f, f_instance f = key) (λ f, counts window f)).
  apply part_of_sum, Forall_fmap, Forall_forall. intros f [_ Hf]%list_elem_of_filter.
  rewrite Forall_forall in Hpos. by apply Hpos.
Qed.
Lemma instances_sats data window :
  Forall (λ f, 0 ≤ f_amount_sats f) (df_fees data) → is_i64 (sats_in window (df_fees data)) →
  sum_Z ((λ group, total_sats (summarise group.2 window)) <$> btree_iter (by_instance data)) =
    sats_in window (df_fees data).
Proof.
  intros Hpos Hfit. rewrite <- by_instance_sats. unfold total_of. apply sum_Z_ext. intros [key group] Hin.
  apply elem_of_btree_iter, by_instance_lookup in Hin as [-> _]. cbn [snd].
  pose proof (own_sats_in data window key Hpos). apply total_sats_in.
  - unfold own_account. cbn [df_fees]. apply Forall_forall. intros f [_ Hf]%list_elem_of_filter.
    rewrite Forall_forall in Hpos. by apply Hpos.
  - unfold is_i64, i64_min, i64_max in *. lia.
Qed.

(** The conditions the code computes with, spelt out. *)
Lemma counted_filter window (l : list Fee) :
  filter (λ f, f_is_duplicate f = false ∧ w_from window ≤ f_created_at f < w_until window) l = filter (λ f, counts window f) l.
Proof.
  apply list_filter_iff. intros f. unfold counts, contains. rewrite !andb_True, !bool_decide_spec.
  destruct (f_is_duplicate f); naive_solver.
Qed.
Lemma owed_filter window (l : list Settlement) :
  filter (λ s, st_charges_fee s = Some true ∧ w_from window ≤ st_success_at s < w_until window) l = filter (λ s, owes window s) l.
Proof. apply list_filter_iff. intros s. unfold owes, contains. rewrite !andb_True, !bool_decide_spec. naive_solver. Qed.
Lemma doubly_paid (fees : list Fee) f :
  bool_decide (f_order_id f ∈ list_to_set (C := gset string) (f_order_id <$> filter (λ f, f_is_duplicate f) fees)) ↔
  Exists (λ again, f_is_duplicate again = true ∧ f_order_id again = f_order_id f) fees.
Proof.
  rewrite bool_decide_spec, elem_of_list_to_set, list_elem_of_fmap, list.Exists_exists.
  setoid_rewrite list_elem_of_filter. setoid_rewrite Is_true_true. naive_solver.
Qed.
Lemma coverage_exact data window (owed := filter (λ s, owes window s) (df_settlements data)) :
  coverage (summarise data window) = (if decide (owed = []) then None
    else Some (f64_div (f64_of_Z (Z.of_nat (length (filter (λ s, st_has_fee s = true) owed)))) (f64_of_Z (Z.of_nat (length owed))))).
Proof.
  subst owed. cbn [coverage summarise]. case_decide; [done|]. unfold count_if. do 5 f_equal.
  apply list_filter_iff. intros s. apply Is_true_true.
Qed.

(** C33: the dev fee figures count every fee that is not a duplicate once,
    where its event dates it. The sats are the sum of their amounts, the
    orphans those of an order not known, the duplicates those of an order
    that was paid again. The coverage is the number of settlements of the
    window that owe a fee and have one, over the number that owe one, missing
    exactly when none does, and so between 0 and 1. An instance's part is its
    own fees and settlements, there is one for each instance that has any,
    and the sats, the paid and the orphaned counts of the parts add up to the
    network's. *)
Theorem dev_fees_account (data : DevFeeData) (window : Window) (d := summarise data window) :
  Z.of_nat (length (df_settlements data)) < 2 ^ 53 →
  Forall (λ f, 0 ≤ f_amount_sats f) (df_fees data) →
  let counted := filter (λ f, f_is_duplicate f = false ∧ w_from window ≤ f_created_at f < w_until window) (df_fees data) in
  let owed := filter (λ s, st_charges_fee s = Some true ∧ w_from window ≤ st_success_at s < w_until window) (df_settlements data) in
  is_i64 (sum_Z (f_amount_sats <$> counted)) →
  total_sats d = sum_Z (f_amount_sats <$> counted) ∧
  paid d = Z.of_nat (length counted) ∧
  orphans d = Z.of_nat (length (filter (λ f, f_order_known f = false) counted)) ∧
  duplicates d = Z.of_nat (length (filter (λ f,
    Exists (λ again, f_is_duplicate again = true ∧ f_order_id again = f_order_id f) (df_fees data)) counted)) ∧
  coverage d = (if decide (owed = []) then None
    else Some (f64_div (f64_of_Z (Z.of_nat (length (filter (λ s, st_has_fee s = true) owed)))) (f64_of_Z (Z.of_nat (length owed))))) ∧
  (∀ r, coverage d = Some r → is_share r) ∧
  (∀ key group, by_instance data !! key = Some group ↔
    group = mkDevFeeData (filter (λ f, f_instance f = key) (df_fees data)) (filter (λ s, st_instance s = key) (df_settlements data)) ∧
    ((∃ f, f ∈ df_fees data ∧ f_instance f = key) ∨ ∃ s, s ∈ df_settlements data ∧ st_instance s = key)) ∧
  (∀ f, f ∈ [total_sats; paid; orphans] →
    sum_Z ((λ group, f (summarise group.2 window)) <$> btree_iter (by_instance data)) = f d).
Proof.
  intros Hlen Hpos. rewrite counted_filter, owed_filter. intros counted owed Hfit. subst d counted owed. split_and!.
  - by apply total_sats_in.
  - done.
  - cbn [orphans summarise]. unfold count_if, canonical. do 2 f_equal. apply list_filter_iff. intros f. by destruct (f_order_known f).
  - cbn [duplicates summarise]. unfold count_if, canonical. do 2 f_equal. apply list_filter_iff. intros f. apply doubly_paid.
  - by apply coverage_exact.
  - intros r. rewrite coverage_exact. case_decide as E; [done|]. intros [= <-].
    pose proof (length_filter (λ s, owes window s) (df_settlements data)).
    apply share_bounds; [split; [lia|apply inj_le, length_filter]|].
    split; [|lia]. apply (Nat2Z.inj_lt 0), Nat.neq_0_lt_0. by intros ?%nil_length_inv.
  - intros key group. apply by_instance_lookup.
  - intros f Hf. repeat (apply elem_of_cons in Hf as [->|Hf]; [|]); [..|by apply elem_of_nil in Hf].
    + rewrite total_sats_in by done. by apply instances_sats.
    + exact (by_instance_count (counts window) data).
    + cbn [orphans summarise]. unfold canonical. rewrite count_if_filter, <- by_instance_count.
      unfold total_of. f_equal. apply list_fmap_ext. intros i x _. apply count_if_filter.
Qed.

(** ** A concrete month *)

Definition sample_data : DevFeeData := mkDevFeeData
  [ mkFee "f1" "o1" "ab" "alice (ab)" 1767320600 2 false true (Some 1767320000) (f64_from_str "0.006") (Some 1000);
    mkFee "f2" "o1" "ab" "alice (ab)" 1767320700 2 true true (Some 1767320000) (f64_from_str "0.006") (Some 1000);
    mkFee "f3" "o9" "cd" "bob (cd)" 1767320800 5 false false None None None ]
  [ mkSettlement "o1" "alice (ab)" 1767320000 true (Some true); mkSettlement "o2" "bob (cd)" 1767320000 false None ].

Example two_paid :
  let d := summarise sample_data Activity.sample.week in
  (total_sats d, paid d, duplicates d, orphans d, latency_p50 d) = (7, 2, 1, 1, Some 600) ∧ coverage d = Some (f64_of_Z 1).
Proof. vm_compute. repeat split. Qed.

Theorem dev_fees_account_witness :
  total_sats (summarise sample_data Activity.sample.week) = 7 ∧
  coverage (summarise sample_data Activity.sample.week) = Some (f64_div (f64_of_Z 1) (f64_of_Z 1)) ∧
  sum_Z ((λ group, total_sats (summarise group.2 Activity.sample.week)) <$> btree_iter (by_instance sample_data)) = 7 ∧
  by_instance sample_data !! "nobody" = None.
Proof.
  destruct (dev_fees_account sample_data Activity.sample.week) as (Hs & _ & _ & _ & Hc & _ & Hparts & Hsum).
  - vm_compute. reflexivity.
  - repeat constructor; vm_compute; discriminate.
  - split; vm_compute; discriminate.
  - split_and!.
    + rewrite Hs. vm_compute. reflexivity.
    + rewrite Hc. vm_compute. reflexivity.
    + rewrite Hsum by left. rewrite Hs. vm_compute. reflexivity.
    + destruct (by_instance sample_data !! "nobody") as [group|] eqn:E; [|done].
      apply Hparts in E as [_ [(f & Hf & Hi)|(f & Hf & Hi)]]; exfalso;
        cbn in Hf; repeat (apply elem_of_cons in Hf as [->|Hf]; [discriminate Hi|]); by apply elem_of_nil in Hf.
Defined.
