(* ===== verification/Implied.v ===== *)
(** * Volume implied by dev fees

    [crates/stats/src/dev_fees/implied.rs] and the report of [dev_fees.rs]: the
    inverse of [round(fee × amount × pct)], what qualifies it, and how it
    compares with the orders that settled. *)

From S2P Require Import Prelude F64 StatsPrelude Calendar Window Metric Bucket DevFees.
From S2P Require Activity.

#[local] Open Scope Z_scope.

Definition SHARES_LISTED : nat := 3.

Record Implied : Type := mkImplied {
  volume_sats : option Z;
  error_sats : Z;
  inverted : Z;
  no_fee_in_force : Z;
  zero_fee : Z;
  assumed_pcts : list f64;
  with_fee_volume_sats : option Z;
  with_fee_orders : Z;
  matched : Z;
  matched_implied_sats : Z;
  matched_observed_sats : Z;
  matched_error_sats : Z;
  zero_amount_orders : Z;
}.

Definition not_invertible (i : Implied) : Z := no_fee_in_force i + zero_fee i.
Definition implied_vs_observed (i : Implied) : option f64 :=
  if decide (0 < matched_observed_sats i) then
    Some (f64_sub (f64_div (f64_of_Z (matched_implied_sats i)) (f64_of_Z (matched_observed_sats i))) (f64_of_Z 1))
  else None.
Definition implied_vs_observed_error (i : Implied) : option f64 :=
  if decide (0 < matched_observed_sats i) then
    Some (f64_div (f64_of_Z (matched_error_sats i)) (f64_of_Z (matched_observed_sats i)))
  else None.

(** [fee × pct] when it can be divided by. *)
Definition divisor (f : Fee) (pct : f64) : option f64 :=
  fee ← f_fee_in_force f;
  let divisor := f64_mul fee pct in
  if is_finite divisor && f64_gt divisor (f64_of_Z 0) then Some divisor else None.

(** The variables of the loop: the counters of [implied] and the running sums. *)
Record Running : Type := mkRunning {
  r_inverted : Z; r_no_fee_in_force : Z; r_zero_fee : Z; r_pcts : list f64;
  r_with_fee_orders : Z; r_matched : Z; r_matched_observed_sats : Z; r_zero_amount_orders : Z;
  r_volume : f64; r_error : f64; r_matched_volume : f64; r_matched_error : f64; r_observed : Z;
}.
Definition idle : Running :=
  mkRunning 0 0 0 [] 0 0 0 0 (f64_of_Z 0) (f64_of_Z 0) (f64_of_Z 0) (f64_of_Z 0) 0.

Definition contains_f64 (l : list f64) (x : f64) : bool := existsb (f64_eqb x) l.

Definition invert_step (dev_fee_pct : string → f64) (r : Running) (f : Fee) : Running :=
  let '(mkRunning inverted no_fee zero pcts orders matched matched_observed zero_amount
          volume error matched_volume matched_error observed) := r in
  let '(orders, observed) :=
    match f_settled_amount_sats f with
    | Some amount => (orders + 1, i64_add observed amount)
    | None => (orders, observed)
    end in
  let pct := dev_fee_pct (f_pubkey f) in
  match divisor f pct with
  | None =>
      match f_fee_in_force f with
      | None => mkRunning inverted (no_fee + 1) zero pcts orders matched matched_observed zero_amount
                  volume error matched_volume matched_error observed
      | Some _ => mkRunning inverted no_fee (zero + 1) pcts orders matched matched_observed zero_amount
                  volume error matched_volume matched_error observed
      end
  | Some divisor =>
      let pcts := if contains_f64 pcts pct then pcts else pcts ++ [pct] in
      let inverse := f64_div (f64_of_Z (f_amount_sats f)) divisor in
      let unit := f64_div (f64_of_Z 1) divisor in
      let volume := f64_add volume inverse in
      let error := f64_add error unit in
      match f_settled_amount_sats f with
      | Some amount =>
          if decide (0 < amount) then
            mkRunning (inverted + 1) no_fee zero pcts orders (matched + 1) (i64_add matched_observed amount) zero_amount
              volume error (f64_add matched_volume inverse) (f64_add matched_error unit) observed
          else
            mkRunning (inverted + 1) no_fee zero pcts orders matched matched_observed (zero_amount + 1)
              volume error matched_volume matched_error observed
      | None =>
          mkRunning (inverted + 1) no_fee zero pcts orders matched matched_observed zero_amount
            volume error matched_volume matched_error observed
      end
  end.

Definition summarise (data : DevFeeData) (window : Window) (dev_fee_pct : string → f64) : Implied :=
  let r := foldl (invert_step dev_fee_pct) idle (canonical data window) in
  {|
    volume_sats :=
      if decide (r_inverted r = 0 ∧ 0 < r_no_fee_in_force r + r_zero_fee r) then None
      else Some (round_as_i64 (r_volume r));
    error_sats := ceil_as_i64 (r_error r);
    inverted := r_inverted r;
    no_fee_in_force := r_no_fee_in_force r;
    zero_fee := r_zero_fee r;
    assumed_pcts := sort_total (r_pcts r);
    with_fee_volume_sats := if decide (0 < r_with_fee_orders r) then Some (r_observed r) else None;
    with_fee_orders := r_with_fee_orders r;
    matched := r_matched r;
    matched_implied_sats := round_as_i64 (r_matched_volume r);
    matched_observed_sats := r_matched_observed_sats r;
    matched_error_sats := ceil_as_i64 (r_matched_error r);
    zero_amount_orders := r_zero_amount_orders r;
  |}.

(** ** The metrics and what qualifies them *)

Definition fees (count : Z) : string := if decide (count = 1) then "1 fee" else pretty count +:+ " fees".
Definition shares (pcts : list f64) : string :=
  match head pcts, last pcts with
  | Some low, Some high =>
      if decide (SHARES_LISTED < length pcts)%nat then
        fixed 2 low +:+ "–" +:+ fixed 2 high +:+ " across " +:+ pretty (Z.of_nat (length pcts)) +:+ " instances"
      else join "/" (fixed 2 <$> pcts)
  | _, _ => join "/" (fixed 2 <$> pcts)
  end.
Definition uninvertible (i : Implied) : string :=
  join ", " (
    (if decide (0 < no_fee_in_force i) then [fees (no_fee_in_force i) +:+ " with no fee in force"] else [])
    ++ (if decide (0 < zero_fee i) then [fees (zero_fee i) +:+ " charging a zero fee"] else [])).
Definition qualification (i : Implied) : string :=
  join "; " (
    [if decide (inverted i = 0) then "no fee inverted"
     else "±" +:+ pretty (error_sats i) +:+ " sats (worst case: ±1 sat per fee × 1/(fee×pct))"]
    ++ (if decide (assumed_pcts i = []) then [] else ["pct assumed " +:+ shares (assumed_pcts i)])
    ++ (if decide (0 < not_invertible i) then
          let total := inverted i + not_invertible i in
          let lower_bound :=
            if decide (inverted i = 0) then ""
            else "lower bound: " +:+ pretty (inverted i) +:+ " of " +:+ pretty total +:+ " fees inverted; " in
          [lower_bound +:+ uninvertible i]
        else [])).
Definition comparison (i : Implied) : string :=
  match implied_vs_observed_error i with
  | None =>
      if decide (zero_amount_orders i = 0) then
        if decide (with_fee_orders i = 0) then "no fee names a settled order"
        else "no fee both inverted and naming a settled order"
      else "nothing to compare against: " +:+ fees (zero_amount_orders i)
        +:+ " name a settled order known at amt = 0 (market price, never amended)"
  | Some error =>
      join "; " (
        [ "implied / observed − 1 over the " +:+ fees (matched i)
            +:+ " whose order is known and settled; positive means the real dev fee share is above the assumed";
          "±" +:+ fixed 4 error +:+ " from the rounding of those fees" ]
        ++ (if decide (0 < zero_amount_orders i) then
              [fees (zero_amount_orders i) +:+ " left out at amt = 0 (market price, never amended)"] else []))
  end.

Definition metrics (prefix : string) (i : Implied) : list Metric :=
  [ Metric.inferred (dotted prefix "implied_volume") (or_missing Sats (volume_sats i)) (qualification i);
    observed (dotted prefix "with_fee_volume") (or_missing Sats (with_fee_volume_sats i));
    Metric.inferred (dotted prefix "implied_vs_observed") (or_missing Metric.ratio (implied_vs_observed i)) (comparison i) ].

(** [dev_fees::report]. *)
Section report.
Context {cal : Calendar}.
Definition block (dev_fee_pct : string → f64) (prefix : string) (data : DevFeeData) (window : Window) : list Metric :=
  DevFees.metrics prefix (DevFees.summarise data window) ++ metrics prefix (summarise data window dev_fee_pct).
Definition report (data : DevFeeData) (window : Window) (dimension : option Dimension) (dev_fee_pct : string → f64)
    (coverage : Coverage) : list Metric :=
  let periodic period := walk window period coverage (λ key bucket _,
    block dev_fee_pct (dotted "dev_fees" key) data bucket) in
  match dimension with
  | None => block dev_fee_pct "dev_fees" data window
  | Some ByDay => periodic Day
  | Some ByMonth => periodic Month
  | Some ByInstance =>
      btree_iter (by_instance data) ≫= λ '(key, group), block dev_fee_pct (dotted "dev_fees" key) group window
  end.
End report.

(** ** Every fee is inverted or says why not *)

Definition invertible (dev_fee_pct : string → f64) (f : Fee) : bool :=
  option_is_some (divisor f (dev_fee_pct (f_pubkey f))).
Definition is_matched (dev_fee_pct : string → f64) (f : Fee) : bool :=
  invertible dev_fee_pct f && is_some_and (λ amount, bool_decide (0 < amount)) (f_settled_amount_sats f).

Lemma inverted_counts dev_fee_pct l r :
  let s := foldl (invert_step dev_fee_pct) r l in
  r_inverted s = r_inverted r + count_if (invertible dev_fee_pct) l ∧
  r_no_fee_in_force s = r_no_fee_in_force r + count_if (λ f, negb (option_is_some (f_fee_in_force f))) l ∧
  r_zero_fee s = r_zero_fee r
    + count_if (λ f, option_is_some (f_fee_in_force f) && negb (invertible dev_fee_pct f)) l ∧
  r_with_fee_orders s = r_with_fee_orders r + count_if (λ f, option_is_some (f_settled_amount_sats f)) l ∧
  r_matched s = r_matched r + count_if (is_matched dev_fee_pct) l ∧
  r_zero_amount_orders s = r_zero_amount_orders r
    + count_if (λ f, invertible dev_fee_pct f && option_is_some (f_settled_amount_sats f) && negb (is_matched dev_fee_pct f)) l ∧
  r_observed s = foldl i64_add (r_observed r) (omap f_settled_amount_sats l).
Proof.
  cbv zeta. revert r. induction l as [|f l IH]; intros r; cbn [foldl].
  - unfold count_if; cbn. lia.
  - destruct (IH (invert_step dev_fee_pct r f)) as (-> & -> & -> & -> & -> & -> & ->). rewrite !count_if_cons.
    cbn [omap list_omap]. unfold is_matched, invertible, invert_step, divisor. destruct r.
    destruct (f_fee_in_force f) as [fee|]; cbn [mbind option_bind];
      [destruct (_ && _); cbn|]; destruct (f_settled_amount_sats f) as [amount|]; cbn; try lia.
    + case_bool_decide; case_decide; cbn; try lia; done.
Qed.

(** every fee counted in the window is inverted, or its instance stated no
    fee, or the fee it stated cannot be divided by, and exactly one of these;
    the volume is withheld exactly when there were fees and none was inverted.
    The observed side is the settled orders the fees name, whatever could be
    inverted, and the ratio is over the fees that are in both: they are fewer
    than either, and the rest of the settled ones inverted have no amount. *)
Theorem implied_accounts (data : DevFeeData) (window : Window) (dev_fee_pct : string → f64)
    (i := summarise data window dev_fee_pct) (l := canonical data window) :
  inverted i + no_fee_in_force i + zero_fee i = Z.of_nat (length l) ∧
  (volume_sats i = None ↔ inverted i = 0 ∧ l ≠ []) ∧
  with_fee_volume_sats i =
    (if decide (omap f_settled_amount_sats l = []) then None else Some (i64_sum (omap f_settled_amount_sats l))) ∧
  matched i = count_if (is_matched dev_fee_pct) l ∧
  matched i + zero_amount_orders i
    = count_if (λ f, invertible dev_fee_pct f && option_is_some (f_settled_amount_sats f)) l ∧
  matched i + zero_amount_orders i ≤ inverted i ∧ matched i + zero_amount_orders i ≤ with_fee_orders i.
Proof.
  pose proof (inverted_counts dev_fee_pct l idle) as H. cbv zeta in H. subst i. unfold summarise. fold l.
  cbn [volume_sats inverted no_fee_in_force zero_fee with_fee_volume_sats with_fee_orders matched zero_amount_orders].
  destruct H as (-> & -> & -> & -> & -> & -> & ->).
  cbn [idle r_inverted r_no_fee_in_force r_zero_fee r_with_fee_orders r_matched r_zero_amount_orders r_observed].
  assert (Hnone : ∀ f, f_fee_in_force f = None → invertible dev_fee_pct f = false)
    by (intros f E; unfold invertible, divisor; by rewrite E).
  assert (Hall : count_if (invertible dev_fee_pct) l + count_if (λ f, negb (option_is_some (f_fee_in_force f))) l
    + count_if (λ f, option_is_some (f_fee_in_force f) && negb (invertible dev_fee_pct f)) l = Z.of_nat (length l)).
  { clear -Hnone. induction l as [|f k IH]; [done|]. rewrite !count_if_cons. cbn [length]. specialize (Hnone f).
    destruct (f_fee_in_force f), (invertible dev_fee_pct f); cbn in *; try lia. discriminate Hnone. done. }
  assert (Hboth : count_if (is_matched dev_fee_pct) l
    + count_if (λ f, invertible dev_fee_pct f && option_is_some (f_settled_amount_sats f) && negb (is_matched dev_fee_pct f)) l
    = count_if (λ f, invertible dev_fee_pct f && option_is_some (f_settled_amount_sats f)) l).
  { symmetry. apply count_if_disjoint. intros f _. unfold is_matched.
    destruct (invertible dev_fee_pct f), (f_settled_amount_sats f); cbn; try done. by case_bool_decide. }
  pose proof (count_if_nonneg (invertible dev_fee_pct) l).
  split_and!.
  - lia.
  - case_decide as E.
    + split; [intros _|done]. split; [lia|]. intros ->. unfold count_if in E. cbn in E. lia.
    + split; [done|]. intros [H0 Hne]. exfalso. apply E. split; [lia|]. destruct l; [done|cbn [length] in Hall; lia].
  - assert (Hlen : count_if (λ f, option_is_some (f_settled_amount_sats f)) l = Z.of_nat (length (omap f_settled_amount_sats l))).
    { clear. induction l as [|f k IH]; [done|]. rewrite count_if_cons. cbn [omap list_omap].
      destruct (f_settled_amount_sats f); cbn [length]; cbn; lia. }
    rewrite Hlen. destruct (omap f_settled_amount_sats l) as [|x k]; [done|]. rewrite decide_True by (cbn; lia).
    by rewrite decide_False.
  - lia.
  - lia.
  - enough (count_if (λ f, invertible dev_fee_pct f && option_is_some (f_settled_amount_sats f)) l
      ≤ count_if (invertible dev_fee_pct) l) by lia.
    apply count_if_le. intros f _ [? _]%andb_prop. done.
  - enough (count_if (λ f, invertible dev_fee_pct f && option_is_some (f_settled_amount_sats f)) l
      ≤ count_if (λ f, option_is_some (f_settled_amount_sats f)) l) by lia.
    apply count_if_le. intros f _ [_ ?]%andb_prop. done.
Qed.

Example implied_of_two :
  let pct := λ _, default f64_nan (f64_from_str "0.3") in
  let i := summarise sample_data Activity.sample.week pct in
  (volume_sats i, error_sats i, inverted i, no_fee_in_force i, matched i, with_fee_volume_sats i)
    = (Some 1111, 556, 1, 1, 1, Some 1000) ∧
  qualification i = "±556 sats (worst case: ±1 sat per fee × 1/(fee×pct)); pct assumed 0.30; lower bound: 1 of 2 fees inverted; 1 fee with no fee in force".
Proof. vm_compute. repeat split. Qed.
