(* ===== verification/Ranking.v ===== *)
(** * Rankings and concentration

    [crates/stats/src/market/ranking.rs]: keys by the weight attributed to
    them, heaviest first. Weights are [i128] in the code, wide enough for the
    sum of any [i64] corpus that fits in memory, and plain integers here. *)

From S2P Require Import Prelude F64 StatsPrelude Metric.
From S2P Require Import Volume.

#[local] Open Scope Z_scope.

Record Ranking : Type := mkRanking {
  entries : list (string * Z);
  top3_share : f64;
  hhi : f64;
}.

(** [b.1.cmp(&a.1).then_with(|| a.0.cmp(&b.0))] as a key to sort by. *)
Definition heaviest (entry : string * Z) : Z * string := (- entry.2, entry.1).

Definition new (weights : gmap string Z) : Ranking :=
  let entries := sort_by_clock heaviest (filter (λ entry, 0 < entry.2) (btree_iter weights)) in
  let total := sum_Z entries.*2 in
  let share weight := f64_div (f64_of_Z weight) (f64_of_Z total) in
  if decide (0 < total) then {|
    entries := entries;
    top3_share := f64_sum ((λ entry : string * Z, share entry.2) <$> take 3 entries);
    hhi := f64_sum ((λ entry : string * Z, f64_mul (share entry.2) (share entry.2)) <$> entries);
  |} else mkRanking entries (f64_of_Z 0) (f64_of_Z 0).

Definition is_empty (r : Ranking) : bool := bool_decide (entries r = []).
Definition top3 (unit_ : string) (r : Ranking) : string :=
  join ", " ((λ '(key, weight), key +:+ " " +:+ pretty weight +:+ unit_) <$> take 3 (entries r)).

(** ** The tally *)

Section tally.
Context {A : Type} (keys : A → list string) (weight : A → Z).

(** [*weights.entry(key).or_default() += weight(order)]. *)
Definition credit (w : Z) (m : gmap string Z) (key : string) : gmap string Z :=
  <[key := default 0 (m !! key) + w]> m.
Definition tally_step (m : gmap string Z) (x : A) : gmap string Z := foldl (credit (weight x)) m (keys x).
Definition tally (l : list A) : Ranking := new (foldl tally_step ∅ l).

(** What a key is credited with: the whole weight of each mention. *)
Definition mentions (key : string) (x : A) : Z := count_if (λ k, bool_decide (k = key)) (keys x).
Definition attributed (key : string) (l : list A) : Z := sum_Z ((λ x, weight x * mentions key x) <$> l).

Lemma credit_lookup w ks m key :
  default 0 (foldl (credit w) m ks !! key) = default 0 (m !! key) + w * count_if (λ k, bool_decide (k = key)) ks.
Proof.
  revert m. induction ks as [|k ks IH]; intros m; cbn [foldl]; [change (count_if _ []) with 0; lia|].
  rewrite IH, count_if_cons. unfold credit. destruct (decide (k = key)) as [-> | Hne].
  - rewrite lookup_insert_eq, bool_decide_true by done. cbn [default from_option id]. lia.
  - rewrite lookup_insert_ne, bool_decide_false by done. lia.
Qed.

Lemma tally_lookup l m key :
  default 0 (foldl tally_step m l !! key) = default 0 (m !! key) + attributed key l.
Proof.
  revert m. induction l as [|x l IH]; intros m; cbn [foldl]; [cbn; lia|].
  rewrite IH. unfold tally_step at 1. rewrite credit_lookup.
  unfold attributed, mentions. rewrite fmap_cons. cbn [sum_Z foldr]. fold (sum_Z ((λ x, weight x *
    count_if (λ k, bool_decide (k = key)) (keys x)) <$> l)). lia.
Qed.

Lemma entries_new weights k w : (k, w) ∈ entries (new weights) ↔ weights !! k = Some w ∧ 0 < w.
Proof.
  unfold new. assert ((k, w) ∈ sort_by_clock heaviest (filter (λ entry, 0 < entry.2) (btree_iter weights)) ↔
    weights !! k = Some w ∧ 0 < w) as H
    by (rewrite sort_by_clock_perm, list_elem_of_filter, elem_of_btree_iter; cbn; tauto).
  by case_decide.
Qed.

Lemma entries_ranked weights : StronglySorted (λ a b, key_le (heaviest a) (heaviest b)) (entries (new weights)).
Proof. unfold new. case_decide; apply sort_by_clock_sorted. Qed.

Lemma entries_distinct weights : NoDup (entries (new weights)).*1.
Proof.
  assert (entries (new weights) ≡ₚ filter (λ entry, 0 < entry.2) (btree_iter weights)) as ->
    by (unfold new; case_decide; apply sort_by_clock_perm).
  eapply sublist_NoDup; [|apply fmap_sublist, sublist_filter].
  rewrite btree_iter_Permutation. apply NoDup_fst_map_to_list.
Qed.

Lemma tally_entries l k w : (k, w) ∈ entries (tally l) ↔ w = attributed k l ∧ 0 < w.
Proof.
  unfold tally. rewrite entries_new. pose proof (tally_lookup l ∅ k) as H. rewrite lookup_empty in H.
  cbn in H. destruct (foldl tally_step ∅ l !! k) as [x|]; cbn in H; split.
  - intros [[= ->] Hw]. split; [lia|done].
  - intros [-> Hw]. split; [f_equal; lia|done].
  - by intros [? _].
  - intros [-> Hw]. lia.
Qed.

Lemma credit_total w ks m :
  total_of (λ d, d) (foldl (credit w) m ks) = total_of (λ d, d) m + w * Z.of_nat (length ks).
Proof.
  revert m. induction ks as [|k ks IH]; intros m; cbn [foldl length]; [lia|].
  rewrite IH. unfold credit. rewrite total_of_insert. destruct (m !! k) as [d|] eqn:E; cbn [default from_option id].
  - rewrite <- (insert_id m k d E) at 2. rewrite total_of_insert. lia.
  - rewrite delete_id by done. lia.
Qed.

Lemma attributed_nonneg key l : (∀ x, x ∈ l → 0 ≤ weight x) → 0 ≤ attributed key l.
Proof.
  intros H. apply sum_Z_nonneg, Forall_fmap, Forall_forall. intros x Hx. cbn.
  pose proof (count_if_nonneg (λ k, bool_decide (k = key)) (keys x)). specialize (H x Hx). unfold mentions. nia.
Qed.

(** Nothing is lost and nothing is split: the ranking holds each weight once
    for every key it names. *)
Lemma ranking_total l :
  (∀ x, x ∈ l → 0 ≤ weight x) →
  sum_Z (entries (tally l)).*2 = sum_Z ((λ x, weight x * Z.of_nat (length (keys x))) <$> l).
Proof.
  intros Hw. set (m := foldl tally_step ∅ l).
  assert (sum_Z (entries (new m)).*2 = total_of (λ d, d) m) as E.
  { assert (entries (new m) ≡ₚ filter (λ entry, 0 < entry.2) (btree_iter m)) as HP
      by (unfold new; case_decide; apply sort_by_clock_perm).
    rewrite (sum_Z_perm _ _ (fmap_Permutation _ _ _ HP)). unfold total_of.
    assert (Forall (λ entry : string * Z, 0 ≤ entry.2) (btree_iter m)) as HF.
    { apply Forall_forall. intros [k d] Hin. apply elem_of_btree_iter in Hin. cbn.
      pose proof (tally_lookup l ∅ k) as H. fold m in H. rewrite Hin, lookup_empty in H. cbn in H.
      pose proof (attributed_nonneg k l Hw). lia. }
    clear HP. induction HF as [|[k d] t Hd _ IH]; [done|]. rewrite filter_cons. cbn in Hd.
    destruct (decide _) as [Hlt | Hge]; cbn [fmap list_fmap sum_Z foldr snd] in *; unfold sum_Z in *; cbn in *; lia. }
  unfold tally. fold m. rewrite E. subst m.
  assert (∀ m, total_of (λ d, d) (foldl tally_step m l) =
    total_of (λ d, d) m + sum_Z ((λ x, weight x * Z.of_nat (length (keys x))) <$> l)) as ->.
  { clear. induction l as [|x l IH]; intros m; cbn [foldl]; [cbn; lia|].
    rewrite IH. unfold tally_step at 1. rewrite credit_total, fmap_cons. cbn [sum_Z foldr].
    unfold sum_Z. lia. }
  by rewrite total_of_empty.
Qed.
End tally.
