(* ===== verification/Market.v ===== *)
(** * Market structure

    [crates/stats/src/market.rs]: which way the book leans, what premium it
    clears at, how orders are priced, and how concentrated the currencies and
    the payment methods are. *)

From S2P Require Import Prelude F64 Rounding StatsPrelude Percentile Calendar Window Metric.
From S2P Require Import Activity Volume Ranking.

#[local] Open Scope Z_scope.

Definition LISTED : nat := 8.

Inductive Dimension : Type := ByFiat | ByKind | ByInstance.

Record Market : Type := mkMarket {
  m_orders : Z;
  buy_orders_share : option f64;
  buy_volume_share : option f64;
  premium_avg : option f64;
  premium_p50 : option f64;
  premium_p50_buy : option f64;
  premium_p50_sell : option f64;
  premium_spread : option f64;
  market_price_share : option f64;
  range_share : option f64;
  range_width_avg : option f64;
  range_width_fiat_avg : option f64;
  fiats_by_orders : Ranking;
  fiats_by_volume : Ranking;
  methods_by_orders : Ranking;
  methods_by_volume : Ranking;
  new_fiats : list string;
  new_methods : list string;
}.

(** The orders created in the window. *)
Definition book (orders : list Order) (window : Window) : list Order :=
  filter (λ o, contains window (o_created_at o)) orders.

(** [first_sightings]: the keys of the window's orders that no order before
    the window names, in the order of a [BTreeSet]. *)
Definition seen_before (orders : list Order) (window : Window) (keys : Order → list string) : list string :=
  filter (λ o, o_created_at o < w_from window) orders ≫= keys.
Definition first_sightings (orders : list Order) (window : Window) (keys : Order → list string) : list string :=
  distinct (filter (λ key, key ∉ seen_before orders window keys) (book orders window ≫= keys)).

Definition mean (values : list f64) : option f64 :=
  if decide (values = []) then None
  else Some (f64_div (f64_sum values) (f64_of_Z (Z.of_nat (length values)))).

Definition fiat_of (o : Order) : list string := [o_fiat_code o].
Definition methods_of (o : Order) : list string := og_payment_methods (o_origin o).

Definition summarise (orders : list Order) (window : Window) : Market :=
  let book := book orders window in
  let trades := completed orders window in
  let n := Z.of_nat (length book) in
  let buys := count_if (λ o, bool_decide (o_direction o = Buy)) book in
  let sats := sum_Z (o_amount_sats <$> trades) in
  let buy_sats := sum_Z (o_amount_sats <$> filter (λ o, o_direction o = Buy) trades) in
  let premiums side :=
    o_premium <$> filter (λ o, is_none_or (λ side, bool_decide (o_direction o = side)) side) trades in
  let all := premiums None in
  let p50_buy := percentile (premiums (Some Buy)) half in
  let p50_sell := percentile (premiums (Some Sell)) half in
  let ranges := filter (λ range : f64 * f64, f64_gt range.2 (f64_of_Z 0)) (omap o_fiat_range book) in
  {|
    m_orders := n;
    buy_orders_share := Activity.ratio buys n;
    buy_volume_share := Activity.ratio buy_sats sats;
    premium_avg := mean all;
    premium_p50 := percentile all half;
    premium_p50_buy := p50_buy;
    premium_p50_sell := p50_sell;
    premium_spread := (λ '(sell, buy), f64_sub sell buy) <$> option_zip p50_sell p50_buy;
    market_price_share := Activity.ratio (count_if o_is_market_price book) n;
    range_share := Activity.ratio (count_if (λ o, option_is_some (o_fiat_range o)) book) n;
    range_width_avg := mean ((λ '(min, max), f64_div (f64_sub max min) max) <$> ranges);
    range_width_fiat_avg := mean ((λ '(min, max), f64_sub max min) <$> ranges);
    fiats_by_orders := tally fiat_of (λ _, 1) book;
    fiats_by_volume := tally fiat_of o_amount_sats trades;
    methods_by_orders := tally methods_of (λ _, 1) book;
    methods_by_volume := tally methods_of o_amount_sats trades;
    new_fiats := first_sightings orders window fiat_of;
    new_methods := first_sightings orders window methods_of;
  |}.

(** ** The metrics *)

Definition ratio_value (value : option f64) : Value := or_missing Metric.ratio value.
Definition percent (value : option f64) : Value :=
  ratio_value ((λ premium, f64_div premium (f64_of_Z 100)) <$> value).
Definition text (items : list string) : Value :=
  let n := length items in
  if decide (n = 0)%nat then Missing
  else if decide (n ≤ LISTED)%nat then Text (join ", " items)
  else Text (join ", " (take LISTED items) +:+ ", +" +:+ pretty (Z.of_nat (n - LISTED)) +:+ " more").
Definition ranked (prefix name : string) (r : Ranking) (unit_ : string) : Metric :=
  observed (dotted prefix name) (if Ranking.is_empty r then Missing else Text (top3 unit_ r)).
Definition concentration (prefix name : string) (r : Ranking) (what : string) : list Metric :=
  let present := negb (Ranking.is_empty r) in
  [ observed (dotted prefix (name +:+ "_top3_" +:+ what +:+ "_share"))
      (ratio_value (if present then Some (top3_share r) else None));
    observed (dotted prefix (name +:+ "_hhi_" +:+ what)) (ratio_value (if present then Some (hhi r) else None)) ].

Definition metrics (prefix : string) (m : Market) (fiat : option string) : list Metric :=
  let observed name := observed (dotted prefix name) in
  [ observed "orders" (Count (m_orders m));
    observed "buy_orders_share" (ratio_value (buy_orders_share m));
    observed "buy_volume_share" (ratio_value (buy_volume_share m));
    observed "premium_avg" (percent (premium_avg m));
    observed "premium_p50" (percent (premium_p50 m));
    observed "premium_p50_buy" (percent (premium_p50_buy m));
    observed "premium_p50_sell" (percent (premium_p50_sell m));
    observed "premium_spread" (percent (premium_spread m));
    observed "market_price_share" (ratio_value (market_price_share m));
    observed "range_share" (ratio_value (range_share m));
    observed "range_width_avg" (ratio_value (range_width_avg m)) ]
  ++ match option_zip fiat (range_width_fiat_avg m) with
     | Some (code, width) => [observed "range_width_fiat_avg" (Metric.fiat width code)]
     | None => []
     end
  ++ match fiat with
     | None =>
         ranked prefix "fiat_top3_by_orders" (fiats_by_orders m) ""
         :: concentration prefix "fiat" (fiats_by_orders m) "orders"
         ++ ranked prefix "fiat_top3_by_volume" (fiats_by_volume m) " sats"
         :: concentration prefix "fiat" (fiats_by_volume m) "volume"
     | Some _ => []
     end
  ++ [ ranked prefix "method_top3_by_orders" (methods_by_orders m) "";
       ranked prefix "method_top3_by_volume" (methods_by_volume m) " sats" ]
  ++ match fiat with None => [observed "new_fiats" (text (new_fiats m))] | Some _ => [] end
  ++ [observed "new_methods" (text (new_methods m))].

Definition report (orders : list Order) (window : Window) (dimension : option Dimension) : list Metric :=
  match dimension with
  | None => metrics "market" (summarise orders window) None
  | Some dimension =>
      let by_ := match dimension with
                 | ByFiat => Activity.ByFiat | ByKind => Activity.ByKind | ByInstance => Activity.ByInstance
                 end in
      btree_iter (slice orders by_) ≫= λ '(key, group),
        metrics (dotted "market" key) (summarise group window)
          (match dimension with ByFiat => Some key | _ => None end)
  end.

(** ** What the figures promise *)

Lemma share_None_iff a b : 0 ≤ b → Activity.ratio a b = None ↔ b = 0.
Proof. intros Hb. unfold Activity.ratio. case_decide; split; done || lia. Qed.

(** A ranking of currencies credits each order to its one currency. *)
Lemma attributed_fiat w k l :
  attributed fiat_of w k l = sum_Z (w <$> filter (λ o, o_fiat_code o = k) l).
Proof.
  unfold attributed. induction l as [|o l IH]; [done|]. rewrite fmap_cons, filter_cons.
  assert (mentions fiat_of k o = if decide (o_fiat_code o = k) then 1 else 0) as E
    by (unfold mentions, fiat_of, count_if; cbn; by repeat case_decide).
  rewrite E. case_decide; rewrite ?fmap_cons; unfold sum_Z in *; cbn [foldr]; lia.
Qed.

Lemma elem_of_first_sightings orders window keys k :
  k ∈ first_sightings orders window keys ↔
    (∃ o, o ∈ orders ∧ contains window (o_created_at o) = true ∧ k ∈ keys o) ∧
    ∀ o, o ∈ orders → o_created_at o < w_from window → k ∉ keys o.
Proof.
  unfold first_sightings, seen_before, book.
  rewrite elem_of_distinct, list_elem_of_filter, !list_elem_of_bind. split.
  - intros [Hno (o & Hk & Ho)]. rewrite list_elem_of_filter in Ho. destruct Ho as [Hc Ho].
    split; [exists o; split_and!; [done|by apply Is_true_true|done]|].
    intros o' Ho' Hlt Hk'. apply Hno. exists o'. rewrite list_elem_of_filter. done.
  - intros [(o & Ho & Hc & Hk) Hno]. split.
    + intros (o' & Hk' & Ho'). rewrite list_elem_of_filter in Ho'. by destruct Ho' as [? ?]; eapply Hno.
    + exists o. rewrite list_elem_of_filter. by rewrite Is_true_true.
Qed.

Lemma length_book orders window : Z.of_nat (length (book orders window)) = m_orders (summarise orders window).
Proof. done. Qed.

Lemma shares_of_the_book orders window r (m := summarise orders window) :
  Z.of_nat (length orders) < 2 ^ 53 →
  buy_orders_share m = Some r ∨ market_price_share m = Some r ∨ range_share m = Some r → is_share r.
Proof.
  intros Hn. assert (Z.of_nat (length (book orders window)) < 2 ^ 53)
    by (pose proof (length_filter (λ o, contains window (o_created_at o)) orders) as Hl; unfold book; lia).
  assert (∀ p : Order → bool, 0 ≤ count_if p (book orders window) ≤ Z.of_nat (length (book orders window))) as Hp.
  { intros p. split; [apply count_if_nonneg|]. unfold count_if.
    pose proof (length_filter (λ o, p o) (book orders window)) as Hl. lia. }
  intros Hr. destruct Hr as [Hr | [Hr | Hr]]; (eapply ratio_share; [apply Hp| |exact Hr]; done).
Qed.

Lemma book_slices orders window :
  sum_Z ((λ group, m_orders (summarise group.2 window)) <$> btree_iter (slice orders Activity.ByFiat)) =
    m_orders (summarise orders window).
Proof.
  change (m_orders (summarise orders window)) with (count_if (λ o, contains window (o_created_at o)) orders).
  unfold slice. rewrite <- (group_counts (slice_keys Activity.ByFiat) orders (λ o, contains window (o_created_at o)));
    [done|by intros o _; eexists].
Qed.

(** the market figures describe the book and the trades of the window, and
    nothing else: the shares are missing exactly when there is nothing to
    divide by and otherwise lie between 0 and 1; each currency ranks by the
    orders created and the sats completed in it, heaviest first, and the
    volume ranking adds up to the volume; a payment method is credited with
    every order that named it first, so that ranking adds up to each order's
    sats times its methods; a currency is new exactly when an order of the
    window names it and none before does; and the currency blocks' orders add
    up to the whole book. *)
Theorem market_accounts (orders : list Order) (window : Window)
    (m := summarise orders window) (trades := completed orders window) :
  Z.of_nat (length orders) < 2 ^ 53 →
  (∀ o, o ∈ orders → 0 ≤ o_amount_sats o) →
  sum_Z (o_amount_sats <$> trades) < 2 ^ 53 →
  (∀ s, s ∈ [buy_orders_share m; market_price_share m; range_share m] →
    (s = None ↔ m_orders m = 0) ∧ ∀ r, s = Some r → is_share r) ∧
  (buy_volume_share m = None ↔ sum_Z (o_amount_sats <$> trades) = 0) ∧
  (∀ r, buy_volume_share m = Some r → is_share r) ∧
  (∀ k w, (k, w) ∈ entries (fiats_by_orders m) ↔
    w = count_if (λ o, bool_decide (o_fiat_code o = k)) (book orders window) ∧ 0 < w) ∧
  (∀ k w, (k, w) ∈ entries (fiats_by_volume m) ↔
    w = sum_Z (o_amount_sats <$> filter (λ o, o_fiat_code o = k) trades) ∧ 0 < w) ∧
  sum_Z (entries (fiats_by_volume m)).*2 = sum_Z (o_amount_sats <$> trades) ∧
  sum_Z (entries (methods_by_volume m)).*2 =
    sum_Z ((λ o, o_amount_sats o * Z.of_nat (length (og_payment_methods (o_origin o)))) <$> trades) ∧
  StronglySorted (λ a b, key_le (heaviest a) (heaviest b)) (entries (fiats_by_volume m)) ∧
  (∀ k, k ∈ new_fiats m ↔
    (∃ o, o ∈ orders ∧ contains window (o_created_at o) = true ∧ o_fiat_code o = k) ∧
    ∀ o, o ∈ orders → o_created_at o < w_from window → o_fiat_code o ≠ k) ∧
  sum_Z ((λ group, m_orders (summarise group.2 window)) <$> btree_iter (slice orders Activity.ByFiat)) = m_orders m.
Proof.
  intros Hn Hpos Hsum.
  assert (∀ o, o ∈ trades → 0 ≤ o_amount_sats o) as Htr.
  { intros o Ho. apply Hpos. unfold trades, completed in Ho. rewrite list_elem_of_filter in Ho. by destruct Ho. }
  pose proof (part_of_sum o_amount_sats (λ o, o_direction o = Buy) trades
    (proj2 (Forall_fmap _ _ _) (proj2 (Forall_forall _ _) Htr))) as Hbuy.
  split_and!.
  - intros s Hs. split.
    + repeat (apply elem_of_cons in Hs as [-> | Hs]; [apply share_None_iff; cbn; lia|]). by apply elem_of_nil in Hs.
    + intros r ->. apply (shares_of_the_book orders window); [done|].
      rewrite !elem_of_cons, elem_of_nil in Hs. subst m. destruct Hs as [-> | [-> | [-> | []]]]; tauto.
  - apply share_None_iff. lia.
  - intros r Hr. eapply ratio_share; [exact Hbuy|exact Hsum|exact Hr].
  - intros k w. cbn [m summarise fiats_by_orders]. rewrite tally_entries, attributed_fiat.
    rewrite count_if_sum.
    assert (sum_Z ((λ _, 1) <$> filter (λ o, o_fiat_code o = k) (book orders window)) =
      sum_Z ((λ o, if bool_decide (o_fiat_code o = k) then 1 else 0) <$> book orders window)) as ->; [|done].
    induction (book orders window) as [|o l IH]; [done|]. rewrite filter_cons, fmap_cons.
    case_decide; [rewrite bool_decide_true by done|rewrite bool_decide_false by done];
      rewrite ?fmap_cons; unfold sum_Z in *; cbn [foldr]; lia.
  - intros k w. cbn [m summarise fiats_by_volume]. by rewrite tally_entries, attributed_fiat.
  - cbn [m summarise fiats_by_volume]. rewrite ranking_total by done. apply sum_Z_ext. intros o _. cbn. lia.
  - cbn [m summarise methods_by_volume]. by rewrite ranking_total.
  - apply entries_ranked.
  - intros k. cbn [m summarise new_fiats]. rewrite elem_of_first_sightings. unfold fiat_of.
    setoid_rewrite list_elem_of_singleton. split; intros [(o & Ho & Hc & Hk) Hno]; (split; [by eexists|]);
      intros o' Ho' Hlt E; by eapply (Hno o').
  - apply book_slices.
Qed.

Module sample.
Definition bought : Order :=
  mkOrder "o9" "cd" "bob (cd)" 1767300000 Success Buy "ARS" ["cash"] 3000 None (f64_of_Z 4) true
    (Some (f64_of_Z 10, f64_of_Z 40)) (Some 1767300000) (mkOrigin "ARS" ["cash"] Buy) (Some 1767310000)
    (Some 1767330000) None None.
Definition orders : list Order := bought :: Activity.sample.orders.

Example market_of_the_week :
  let m := summarise orders Activity.sample.week in
  entries (fiats_by_volume m) = [("ARS", 3000); ("EUR", 1000)] ∧
  top3 " sats" (fiats_by_volume m) = "ARS 3000 sats, EUR 1000 sats" ∧
  entries (methods_by_orders m) = [("SEPA", 3); ("cash", 1)] ∧
  new_fiats m = ["ARS"; "EUR"] ∧ premium_avg m = Some (f64_of_Z 3) ∧
  premium_spread m = Some (f64_sub (f64_of_Z 2) (f64_of_Z 4)) ∧
  range_width_avg m = f64_from_str "0.75" ∧ hhi (fiats_by_volume m) = default f64_nan (f64_from_str "0.625").
Proof. vm_compute. repeat split. Qed.
End sample.

