(* ===== verification/MarketFiat.v ===== *)
(** * The market for one currency

    [crates/stats/src/market/fiat.rs]: view 5, composed from the families. *)

From S2P Require Import Prelude F64 StatsPrelude Percentile Calendar Window Metric.
From S2P Require Import Activity Volume Ranking Market.
From S2P Require Timing.

#[local] Open Scope Z_scope.

Definition orders_in (orders : list Order) (fiat : string) : list Order :=
  filter (λ o, o_fiat_code o = fiat) orders.
Definition orders_from (orders : list Order) (fiat : string) : list Order :=
  filter (λ o, og_fiat_code (o_origin o) = fiat) orders.

Definition report (orders : list Order) (fiat : string) (window : Window) (now : Z) : list Metric :=
  let in_market := orders_in orders fiat in
  let from_fiat := orders_from orders fiat in
  let prefix := dotted "market" fiat in
  let observed name := observed (dotted prefix name) in
  let timing := Timing.summarise from_fiat window now in
  let instance o := [o_instance o] in
  let by_orders := tally instance (λ _, 1) (book in_market window) in
  let by_volume := tally instance o_amount_sats (completed in_market window) in
  metrics prefix (summarise in_market window) (Some fiat)
  ++ [ observed "time_to_fill_samples" (Count (Timing.time_to_fill_samples timing));
       observed "time_to_fill_p50" (or_missing Seconds (Timing.time_to_fill_p50 timing));
       observed "time_to_fill_p90" (or_missing Seconds (Timing.time_to_fill_p90 timing));
       observed "book_size" (Count (Timing.book_size timing));
       observed "instances" (Count (Z.of_nat (length (entries by_orders))));
       ranked prefix "instances_top3_by_orders" by_orders "";
       ranked prefix "instances_top3_by_volume" by_volume " sats" ].

(** ** The view agrees with the families it quotes *)

Lemma slice_is_filter orders fiat :
  default [] (slice orders Activity.ByFiat !! fiat) = orders_in orders fiat.
Proof. by apply group_by_filter. Qed.

(** The structure rows are the currency's block of [stats market --by fiat]. *)
Lemma fiat_view_is_slice orders fiat window now :
  is_Some (slice orders Activity.ByFiat !! fiat) →
  metrics (dotted "market" fiat) (summarise (orders_in orders fiat) window) (Some fiat)
    `prefix_of` report orders fiat window now ∧
  (fiat, orders_in orders fiat) ∈ btree_iter (slice orders Activity.ByFiat).
Proof.
  intros [g Hg]. split; [by eexists|].
  rewrite elem_of_btree_iter, <- slice_is_filter, Hg. done.
Qed.
