(* ===== verification/Instances.v ===== *)
(** * The bestiary report, the instance profile and one order's lifecycle

    [crates/stats/src/instances.rs] and, in [Lifecycle],
    [crates/stats/src/lifecycle.rs]. The chrono rendering of a time is the
    [Calendar]'s. *)

From S2P Require Import Prelude F64 StatsPrelude Calendar Window Metric.
From S2P Require Disputes DevFees.
From S2P Require Import Activity Volume.

#[local] Open Scope Z_scope.

Definition SILENT_AFTER_SECS : Z := 7 * 86400.

Record Profile : Type := mkProfile {
  pf_pubkey : string;
  pf_name : option string;
  pf_label : string;
  pf_mostro_version : option string;
  pf_protocol_version : option string;
  pf_fee : option f64;
  pf_min_order_sats : option Z;
  pf_max_order_sats : option Z;
  pf_fiat_currencies : list string;
  pf_ln_networks : list string;
  pf_bond_enabled : option bool;
  pf_first_seen_at : Z;
  pf_last_seen_at : Z;
}.

Definition silent_for (p : Profile) (now : Z) : Z := i64_sub now (pf_last_seen_at p).
Definition is_silent (p : Profile) (now : Z) : bool := bool_decide (SILENT_AFTER_SECS < silent_for p now).

(** [share]: the part of the whole, missing without a whole. *)
Definition share (part whole : f64) : Value :=
  if f64_gt whole (f64_of_Z 0) then Metric.ratio (f64_div part whole) else Missing.

(** The orders of one instance that a window created. *)
Definition created_by (pubkey : string) (window : Window) (o : Order) : bool :=
  bool_decide (o_pubkey o = pubkey) && contains window (o_created_at o).

Section instances.
Context {cal : Calendar}.

Definition rfc3339 (timestamp : Z) : string :=
  match from_timestamp timestamp with Some at_ => to_rfc3339 at_ | None => pretty timestamp end.

Definition profile_metrics (prefix : string) (p : Profile) (now : Z) : list Metric :=
  let observed name := observed (dotted prefix name) in
  let text name value := observed name (or_missing Text value) in
  let list_ name values := text name (if decide (values = []) then None else Some (join "," values)) in
  let sats name value := observed name (or_missing Sats value) in
  [ observed "pubkey" (Text (pf_pubkey p));
    text "name" (pf_name p);
    text "mostro_version" (pf_mostro_version p);
    text "protocol_version" (pf_protocol_version p);
    observed "fee" (or_missing Metric.ratio (pf_fee p));
    sats "min_order" (pf_min_order_sats p);
    sats "max_order" (pf_max_order_sats p);
    list_ "fiat" (pf_fiat_currencies p);
    list_ "ln_networks" (pf_ln_networks p);
    text "bond" ((λ enabled : bool, if enabled then "enabled" else "disabled") <$> pf_bond_enabled p);
    observed "first_seen" (Text (rfc3339 (pf_first_seen_at p)));
    observed "last_seen" (Text (rfc3339 (pf_last_seen_at p)));
    observed "silent_for" (Seconds (silent_for p now));
    text "silent" (Some (if is_silent p now then "yes" else "no")) ].

(** [list]: one block per profile. *)
Definition list_ (profiles : list Profile) (orders : list Order) (window : Window) (now : Z) : list Metric :=
  profiles ≫= λ p,
    let prefix := dotted "instances" (pf_label p) in
    profile_metrics prefix p now
    ++ [observed (dotted prefix "created") (Count (count_if (created_by (pf_pubkey p) window) orders))].

Definition profile (p : Profile) (own network : list Order) (fees : DevFees.DevFeeData)
    (disputes : option Disputes.DisputeData) (window : Window) (now : Z) : list Metric :=
  let activity := Activity.summarise own window now in
  let network_activity := Activity.summarise network window now in
  profile_metrics "instance" p now
  ++ Activity.metrics "orders" activity
  ++ [observed "volume.sats" (or_missing Sats (observed_sats own window))]
  ++ DevFees.metrics "dev_fees" (DevFees.summarise fees window)
  ++ match disputes with
     | Some disputes => Disputes.metrics "disputes" (Disputes.summarise disputes window now)
     | None => Disputes.unavailable "disputes"
     end
  ++ [ observed "share.orders" (share (f64_of_Z (created activity)) (f64_of_Z (created network_activity)));
       observed "share.volume"
         match option_zip (observed_sats own window) (observed_sats network window) with
         | Some (own, network) => share (f64_of_Z own) (f64_of_Z network)
         | None => Missing
         end ].
End instances.

(** ** What the list promises *)

(** Every order of the window is counted by the one instance that published
    it, when the bestiary lists it. *)
Lemma created_partition (profiles : list Profile) orders window :
  NoDup (pf_pubkey <$> profiles) →
  (∀ o, o ∈ orders → o_pubkey o ∈ pf_pubkey <$> profiles) →
  sum_Z ((λ p, count_if (created_by (pf_pubkey p) window) orders) <$> profiles) =
    count_if (λ o, contains window (o_created_at o)) orders.
Proof.
  intros Hnd Hall. rewrite <- (count_by_owner o_pubkey pf_pubkey _ orders profiles Hnd Hall).
  apply sum_Z_ext. intros p _. rewrite count_if_sum, (count_if_sum _ (filter _ _)).
  induction orders as [|o l IH]; [done|]. rewrite filter_cons, fmap_cons. cbn [sum_Z foldr].
  specialize (IH ltac:(intros o' Ho'; apply Hall; by constructor)). unfold sum_Z in *. rewrite IH.
  unfold created_by. case_decide; by case_bool_decide.
Qed.

(** ** The lifecycle of one order

    [crates/stats/src/lifecycle.rs]: every version in order, then every fee
    that names the order. *)

Module Lifecycle.
Inductive Fiat : Type := Fixed (amount : f64) | Range (min max : f64).

Record Version : Type := mkVersion {
  v_at : Z;
  v_status : Status;
  v_direction : Direction;
  v_fiat_code : string;
  v_amount_sats : Z;
  v_fiat : Fiat;
  v_premium : f64;
  v_expires_at : Z;
}.
Record FeeSeen : Type := mkFeeSeen { fs_at : Z; fs_amount_sats : Z; fs_is_duplicate : bool }.

Section lifecycle.
Context {cal : Calendar}.

Definition version_metrics (index : nat) (v : Version) : list Metric :=
  let prefix := dotted "order" (pretty (Z.of_nat (index + 1))) in
  let observed name := observed (dotted prefix name) in
  [ observed "at" (Text (rfc3339 (v_at v)));
    observed "status" (Text (status_as_str (v_status v)));
    observed "kind" (Text (direction_as_str (v_direction v)));
    observed "amount" (Sats (v_amount_sats v));
    observed "fiat"
      match v_fiat v with
      | Fixed amount => Metric.fiat amount (v_fiat_code v)
      | Range min max => Text (fixed 2 min +:+ "–" +:+ fixed 2 max +:+ " " +:+ v_fiat_code v)
      end;
    observed "premium" (Metric.ratio (f64_div (v_premium v) (f64_of_Z 100)));
    observed "expires_at" (Text (rfc3339 (v_expires_at v))) ].
Definition fee_metrics (index : nat) (fee : FeeSeen) : list Metric :=
  let prefix := dotted "dev_fee" (pretty (Z.of_nat (index + 1))) in
  [ observed (dotted prefix "at") (Text (rfc3339 (fs_at fee)));
    observed (dotted prefix "amount") (Sats (fs_amount_sats fee));
    observed (dotted prefix "duplicate") (Text (if fs_is_duplicate fee then "yes" else "no")) ].

Definition report (order_id : string) (versions : list Version) (fees : list FeeSeen) : list Metric :=
  [ observed "order.id" (Text order_id); observed "order.versions" (Count (Z.of_nat (length versions))) ]
  ++ mjoin (imap version_metrics versions) ++ mjoin (imap fee_metrics fees).

(** Every version and every fee is shown. *)
Lemma report_length order_id versions fees :
  length (report order_id versions fees) = (2 + 7 * length versions + 3 * length fees)%nat.
Proof.
  assert (∀ {A} (f : nat → A → list Metric) n (l : list A), (∀ i x, length (f i x) = n) →
    length (mjoin (imap f l)) = (n * length l)%nat) as H.
  { intros A f n l. revert f. induction l as [|x l IH]; intros f Hf; [cbn; lia|].
    rewrite imap_cons. cbn [mjoin list_join length]. rewrite length_app, Hf, IH by (intros; apply Hf). lia. }
  unfold report. rewrite !length_app, (H _ _ 7%nat), (H _ _ 3%nat) by done. cbn [length]. lia.
Qed.
End lifecycle.

Example a_fixed_and_a_range :
  m_value <$> report (cal := Gregorian.gregorian) "o1"
    [mkVersion 0 Pending Sell "EUR" 0 (Range (f64_of_Z 10) (f64_of_Z 50)) (f64_of_Z 2) 86400] [] !! 6%nat
    = Some (Text "10.00–50.00 EUR").
Proof. vm_compute. reflexivity. Qed.
End Lifecycle.
