(* ===== verification/Summary.v ===== *)
(** * The network summary

    [crates/stats/src/summary.rs]: view 1, picked from the families. *)

From S2P Require Import Prelude F64 StatsPrelude Calendar Window Metric.
From S2P Require Disputes.
From S2P Require Import Activity Volume Ranking.

#[local] Open Scope Z_scope.

Definition TOP_N : nat := 3.

(** [ranking]: the most frequent keys with their counts, ties by key. *)
Definition counts (keys : list string) : gmap string Z := foldl (credit 1) ∅ keys.
Definition most_frequent (keys : list string) : list (string * Z) :=
  sort_by_clock heaviest (btree_iter (counts keys)).
Definition ranking (keys : list string) : Value :=
  if decide (counts keys = ∅) then Missing
  else Text (join ", " ((λ '(key, count), key +:+ " (" +:+ pretty count +:+ ")") <$>
    take TOP_N (most_frequent keys))).

Definition report (orders : list Order) (disputes : option Disputes.DisputeData) (window : Window) (now : Z) :
    list Metric :=
  let activity := Activity.summarise orders window now in
  let open_disputes :=
    (λ disputes, Z.of_nat (length (Disputes.open (Disputes.summarise disputes window now)))) <$> disputes in
  let created_ := filter (λ o, contains window (o_created_at o)) orders in
  let active_instances := Z.of_nat (size (list_to_set (C := gset string) (o_pubkey <$> created_))) in
  let observed name := observed (dotted "summary" name) in
  [ observed "created" (Count (created activity));
    observed "completed" (Count (Activity.completed activity));
    observed "completion_rate" (or_missing Metric.ratio (completion_rate activity));
    observed "volume_sats" (or_missing Sats (observed_sats orders window));
    observed "active_instances" (Count active_instances);
    observed "top_fiat" (ranking (o_fiat_code <$> created_));
    observed "top_methods" (ranking (created_ ≫= o_payment_methods));
    observed "open_disputes" (or_missing Count open_disputes) ].

(** ** What the ranking promises *)

Lemma counts_lookup keys k :
  counts keys !! k = if decide (k ∈ keys) then Some (count_if (λ k', bool_decide (k' = k)) keys) else None.
Proof.
  induction keys as [|x keys IH] using rev_ind; [done|]. unfold counts. rewrite foldl_snoc. fold (counts keys).
  unfold credit. rewrite count_if_app, count_if_cons. change (count_if _ []) with 0.
  destruct (decide (x = k)) as [-> | E].
  - rewrite lookup_insert_eq, IH. rewrite (decide_True (P := k ∈ keys ++ [k])) by (rewrite elem_of_app; right; constructor).
    rewrite bool_decide_true by done. f_equal. case_decide as H; cbn [default from_option id]; [lia|].
    enough (count_if (λ k', bool_decide (k' = k)) keys = 0) by lia. apply count_if_zero.
    intros y Hy. apply bool_decide_false. by intros ->.
  - rewrite lookup_insert_ne by done. rewrite IH, bool_decide_false, !Z.add_0_r by done.
    apply decide_ext. rewrite elem_of_app, list_elem_of_singleton. naive_solver.
Qed.

(** The ranked keys are those that occur, each once with how often it does. *)
Lemma most_frequent_spec keys :
  (∀ k n, (k, n) ∈ most_frequent keys ↔ k ∈ keys ∧ n = count_if (λ k', bool_decide (k' = k)) keys) ∧
  NoDup (most_frequent keys).*1 ∧ StronglySorted (λ a b, key_le (heaviest a) (heaviest b)) (most_frequent keys).
Proof.
  unfold most_frequent. split_and!.
  - intros k n. rewrite sort_by_clock_perm, elem_of_btree_iter, counts_lookup. case_decide; naive_solver.
  - rewrite sort_by_clock_perm, btree_iter_Permutation. apply NoDup_fst_map_to_list.
  - apply sort_by_clock_sorted.
Qed.

Example three_of_four :
  ranking ["ARS"; "VES"; "ARS"; "USD"; "EUR"; "VES"; "ARS"] = Text "ARS (3), VES (2), EUR (1)" ∧ ranking [] = Missing.
Proof. vm_compute. split; reflexivity. Qed.
