(* ===== verification/Compare.v ===== *)
(** * The instance comparison

    [crates/stats/src/compare.rs]: view 3, one row per instance, assembled
    from the families. *)

From S2P Require Import Prelude F64 StatsPrelude Calendar Window Metric.
From S2P Require Disputes DevFees.
From S2P Require Import Activity Volume Instances.

#[local] Open Scope Z_scope.

Definition COLUMNS : list string :=
  ["completed"; "volume_sats"; "completion_rate"; "fee"; "dev_fees_sats"; "dispute_rate"; "version"].

(** The figures of one profile's row. *)
Definition own (p : Profile) (orders : list Order) : list Order := filter (λ o, o_instance o = pf_label p) orders.
Definition sent (p : Profile) (fees : DevFees.DevFeeData) (window : Window) : Z :=
  match DevFees.by_instance fees !! pf_label p with
  | Some fees => DevFees.total_sats (DevFees.summarise fees window)
  | None => 0
  end.
Definition dispute_rate (p : Profile) (disputes : option Disputes.DisputeData) (window : Window) (now : Z) : option f64 :=
  disputes ← (Disputes.by_instance <$> disputes) ≫= lookup (pf_label p);
  Disputes.rate (Disputes.summarise disputes window now).

Definition row (p : Profile) (orders : list Order) (fees : DevFees.DevFeeData)
    (disputes : option Disputes.DisputeData) (window : Window) (now : Z) : list Metric :=
  let own := own p orders in
  let activity := Activity.summarise own window now in
  let observed name := observed (dotted (dotted "compare" (pf_label p)) name) in
  [ observed "completed" (Count (Activity.completed activity));
    observed "volume_sats" (or_missing Sats (observed_sats own window));
    observed "completion_rate" (or_missing Metric.ratio (completion_rate activity));
    observed "fee" (or_missing Metric.ratio (pf_fee p));
    observed "dev_fees_sats" (Sats (sent p fees window));
    observed "dispute_rate" (or_missing Metric.ratio (dispute_rate p disputes window now));
    observed "version" (or_missing Text (pf_mostro_version p)) ].

Definition report (profiles : list Profile) (orders : list Order) (fees : DevFees.DevFeeData)
    (disputes : option Disputes.DisputeData) (window : Window) (now : Z) : list Metric :=
  profiles ≫= λ p, row p orders fees disputes window now.

(** ** The rows share the network out *)

Lemma sent_is_own p fees window :
  sent p fees window =
    i64_sum (DevFees.f_amount_sats <$> filter (λ f, DevFees.f_instance f = pf_label p) (DevFees.canonical fees window)).
Proof.
  pose proof (DevFees.own_fees fees (pf_label p)) as H. unfold sent.
  transitivity (DevFees.total_sats (DevFees.summarise (default DevFees.no_fees (DevFees.by_instance fees !! pf_label p)) window));
    [by destruct (_ !! _)|].
  rewrite H. cbn [DevFees.total_sats DevFees.summarise]. unfold DevFees.canonical, DevFees.own_account. cbn [DevFees.df_fees].
  do 2 f_equal. rewrite !list_filter_filter. apply list_filter_iff. intros f. tauto.
Qed.

Lemma completed_own p orders window :
  completed (own p orders) window = filter (λ o, o_instance o = pf_label p) (completed orders window).
Proof. unfold completed, own. rewrite !list_filter_filter. apply list_filter_iff. intros o. tauto. Qed.

(** the comparison shares the network out among its rows: when each
    instance has one label and every order and fee belongs to a listed one,
    the completed orders of the rows add up to the network's, so do their
    volumes whenever the network's fits, each row's then being known, and so
    do the dev fees sent; and each row has one figure per column, named
    [compare.<label>.<column>]. *)
Theorem compare_partitions (profiles : list Profile) (orders : list Order) (fees : DevFees.DevFeeData)
    (disputes : option Disputes.DisputeData) (window : Window) (now : Z)
    (canonical := DevFees.canonical fees window) :
  NoDup (pf_label <$> profiles) →
  (∀ o, o ∈ orders → o_instance o ∈ pf_label <$> profiles ∧ 0 ≤ o_amount_sats o) →
  (∀ f, f ∈ canonical → DevFees.f_instance f ∈ pf_label <$> profiles ∧ 0 ≤ DevFees.f_amount_sats f) →
  is_i64 (sum_Z (DevFees.f_amount_sats <$> canonical)) →
  sum_Z ((λ p, Activity.completed (Activity.summarise (own p orders) window now)) <$> profiles) =
    Activity.completed (Activity.summarise orders window now) ∧
  (∀ total, observed_sats orders window = Some total →
    ∃ sats, (λ p, observed_sats (own p orders) window) <$> profiles = Some <$> sats ∧ sum_Z sats = total) ∧
  sum_Z ((λ p, sent p fees window) <$> profiles) = DevFees.total_sats (DevFees.summarise fees window) ∧
  m_name <$> report profiles orders fees disputes window now =
    profiles ≫= λ p, dotted (dotted "compare" (pf_label p)) <$> COLUMNS.
Proof.
  intros Hnd Ho Hf Hfit. split_and!.
  - apply (count_by_owner o_instance pf_label _ orders profiles Hnd). intros o Hin. by apply Ho.
  - intros total Ht. set (w p := sum_Z (o_amount_sats <$> completed (own p orders) window)).
    assert (∀ o, o ∈ completed orders window → o_instance o ∈ pf_label <$> profiles ∧ 0 ≤ o_amount_sats o) as Hc.
    { intros o Hin. apply Ho. unfold completed in Hin. rewrite list_elem_of_filter in Hin. by destruct Hin. }
    assert (sum_Z (w <$> profiles) = sum_Z (o_amount_sats <$> completed orders window)) as E.
    { rewrite <- (sum_by_owner o_instance pf_label _ (completed orders window) profiles Hnd) by (intros o Hin; by apply Hc).
      apply sum_Z_ext. intros p _. unfold w. by rewrite completed_own. }
    unfold observed_sats, sum_sats, in_i64 in Ht. case_decide as Hi; [|done]. injection Ht as <-.
    exists (w <$> profiles). split; [|done]. rewrite <- list_fmap_compose. apply list_fmap_ext. intros i p Hp. cbn.
    unfold observed_sats, sum_sats, in_i64. rewrite decide_True; [done|]. rewrite completed_own.
    assert (Forall (λ z, 0 ≤ z) (o_amount_sats <$> completed orders window)) as Hpos.
    { apply Forall_fmap, Forall_forall. intros o Hin. by apply Hc. }
    pose proof (part_of_sum o_amount_sats (λ o, o_instance o = pf_label p) (completed orders window) Hpos).
    unfold is_i64 in *. unfold i64_min, i64_max in *. lia.
  - rewrite (sum_Z_ext _ (λ p, sum_Z (DevFees.f_amount_sats <$> filter (λ f, DevFees.f_instance f = pf_label p) canonical))).
    + rewrite (sum_by_owner DevFees.f_instance pf_label _ canonical profiles Hnd) by (intros f Hin; by apply Hf).
      cbn. symmetry. apply i64_sum_small; [|done]. apply Forall_fmap, Forall_forall. intros f Hin. by apply Hf.
    + intros p _. rewrite sent_is_own. fold canonical.
      assert (Forall (λ z, 0 ≤ z) (DevFees.f_amount_sats <$> canonical)) as Hpos.
      { apply Forall_fmap, Forall_forall. intros f Hin. by apply Hf. }
      pose proof (part_of_sum DevFees.f_amount_sats (λ f, DevFees.f_instance f = pf_label p) canonical Hpos).
      apply i64_sum_small; [|unfold is_i64, i64_min, i64_max in *; lia].
      apply Forall_fmap, Forall_forall. intros f Hin. rewrite list_elem_of_filter in Hin. destruct Hin as [_ Hin]. by apply Hf.
  - clear. unfold report. induction profiles as [|p ps IH]; [done|]. by rewrite !bind_cons, fmap_app, IH.
Qed.

Definition two : list Profile :=
  [ mkProfile "ab" (Some "alice") "alice (ab)" (Some "0.14") None (f64_from_str "0.006") None None ["EUR"] [] None 0 0;
    mkProfile "cd" (Some "bob") "bob (cd)" None None None None None [] [] None 0 0 ].

