(* ===== verification/LoadActivity.v ===== *)
(** * Orders for the figures

    [src/db/load/activity.rs]: the [orders] projection joined with the first
    version, the versions that date a stage, and the bestiary's name. *)

From S2P Require Import Prelude F64 Csv Network Event Parse Db Versioned RepoOrders RepoEvents.
From S2P Require Import Pipeline PipelineFacts Samples.
From S2P Require ParseOrder Activity.

#[local] Open Scope Z_scope.

(** Which orders a read returns. *)
Inductive Filter : Type :=
| All
| CompletedIn (from until : Z)
| TouchedIn (from until now : Z).

(** The row of the query: the columns of [Row], in its order. *)
Record Row : Type := mkRow {
  rw_order_id : string; rw_pubkey : string; rw_instance_name : option string; rw_created_at : Z;
  rw_status : string; rw_kind : string; rw_fiat_code : string; rw_payment_methods : string;
  rw_first_payment_methods : option string; rw_amount_sats : Z; rw_fiat_amount : option f64; rw_premium : f64;
  rw_first_amount_sats : option Z; rw_first_fiat_min : option f64; rw_first_fiat_max : option f64;
  rw_first_fiat_code : option string; rw_first_kind : option string; rw_pending_at : option Z;
  rw_success_at : option Z; rw_canceled_at : option Z; rw_taken_at : option Z; rw_expires_at : option Z;
}.

(** The parser's enums as the figures'. *)
Definition status (s : ParseOrder.Status) : Activity.Status :=
  match s with
  | ParseOrder.Pending => Activity.Pending
  | ParseOrder.InProgress => Activity.InProgress
  | ParseOrder.Success => Activity.Success
  | ParseOrder.Canceled => Activity.Canceled
  end.
Definition direction (d : ParseOrder.Direction) : Activity.Direction :=
  match d with ParseOrder.Buy => Activity.Buy | ParseOrder.Sell => Activity.Sell end.

(** [Row::into_order]: the enums decoded, and the order of a row. *)
Definition order_of_row (r : Row) (first_kind : ParseOrder.Direction) (final_status : ParseOrder.Status)
    (kind : ParseOrder.Direction) : Activity.Order :={|
    Activity.o_order_id := rw_order_id r;
    Activity.o_pubkey := rw_pubkey r;
    Activity.o_instance := instance_label (rw_pubkey r) (rw_instance_name r);
    Activity.o_created_at := rw_created_at r;
    Activity.o_status := status final_status;
    Activity.o_direction := direction kind;
    Activity.o_fiat_code := rw_fiat_code r;
    Activity.o_payment_methods := Csv.split (rw_payment_methods r);
    Activity.o_amount_sats := rw_amount_sats r;
    Activity.o_fiat_amount := rw_fiat_amount r;
    Activity.o_premium := rw_premium r;
    Activity.o_is_market_price := bool_decide (rw_first_amount_sats r = Some 0);
    Activity.o_fiat_range := option_zip (rw_first_fiat_min r) (rw_first_fiat_max r);
    Activity.o_pending_at := rw_pending_at r;
    Activity.o_origin := Activity.mkOrigin (default (rw_fiat_code r) (rw_first_fiat_code r))
      (Csv.split (default (rw_payment_methods r) (rw_first_payment_methods r))) (direction first_kind);
    Activity.o_taken_at := rw_taken_at r;
    Activity.o_success_at := rw_success_at r;
    Activity.o_canceled_at := rw_canceled_at r;
    Activity.o_expires_at := rw_expires_at r;
  |}.
Definition into_order (r : Row) : Sql Activity.Order :=
  first_kind ← decode_column "kind" (ParseOrder.direction_parse (default (rw_kind r) (rw_first_kind r)));
  final_status ← decode_column "final_status" (ParseOrder.status_parse (rw_status r));
  kind ← decode_column "kind" (ParseOrder.direction_parse (rw_kind r));
  Ok (order_of_row r first_kind final_status kind).

(** ** The query *)

Section query.
Context (db : Db).

(** [LEFT JOIN instances], and the versions of the order. *)
Definition instance_name (pubkey : string) : option string := instances db !! pubkey ≫= inst_name.
Definition versions_of_order (o : OrderRow) : list VersionRow := versions_of (order_versions db) (or_order_id o).
Definition created_at (o : OrderRow) : Z :=
  Z.min (or_first_seen_at o) (default (or_first_seen_at o) (or_order_created_at o)).
(** [ORDER BY v.created_at DESC, v.event_id ASC LIMIT 1]. *)
Definition expires_at (o : OrderRow) : option Z :=
  vr_expires_at <$> first_by newest_first (versions_of_order o).

Definition row_of_order (o : OrderRow) : Row :=
  let first := first_by oldest_first (versions_of_order o) in
  {|
    rw_order_id := or_order_id o;
    rw_pubkey := or_pubkey o;
    rw_instance_name := instance_name (or_pubkey o);
    rw_created_at := created_at o;
    rw_status := or_final_status o;
    rw_kind := or_kind o;
    rw_fiat_code := or_fiat_code o;
    rw_payment_methods := or_payment_methods o;
    rw_first_payment_methods := vr_payment_methods <$> first;
    rw_amount_sats := or_amount_sats o;
    rw_fiat_amount := or_fiat_amount o;
    rw_premium := or_premium o;
    rw_first_amount_sats := vr_amount_sats <$> first;
    rw_first_fiat_min := first ≫= vr_fiat_min;
    rw_first_fiat_max := first ≫= vr_fiat_max;
    rw_first_fiat_code := vr_fiat_code <$> first;
    rw_first_kind := vr_kind <$> first;
    rw_pending_at := first_reached "pending" (versions_of_order o);
    rw_success_at := or_success_at o;
    rw_canceled_at := or_canceled_at o;
    rw_taken_at := first_reached "in-progress" (versions_of_order o);
    rw_expires_at := expires_at o;
  |}.

(** The clauses of the filter; a comparison with NULL is not true. *)
Definition admits (f : Filter) (o : OrderRow) : bool :=
  match f with
  | All => true
  | CompletedIn from until =>
      bool_decide (or_final_status o = "success") &&
      is_some_and (λ t, bool_decide (from ≤ t) && bool_decide (t < until)) (or_success_at o)
  | TouchedIn from until now =>
      existsb (λ v, bool_decide (from ≤ vr_created_at v) && bool_decide (vr_created_at v < until)) (versions_of_order o)
      || (bool_decide (or_final_status o = "pending") && is_some_and (λ t, bool_decide (now < t)) (expires_at o))
  end.

Definition fetch (scope : Scope) (f : Filter) : Sql (list Activity.Order) :=
  collect (into_order <$> (row_of_order <$> order_by (λ o, (created_at o, or_order_id o))
    (filter (λ o, apply_scope scope (or_pubkey o) (or_network o) && admits f o = true) (rows (Db.orders db))))).

Definition orders (scope : Scope) : Sql (list Activity.Order) := fetch scope All.
Definition lifecycle_in (scope : Scope) (from until now : Z) : Sql (list Activity.Order) :=
  fetch scope (TouchedIn from until now).
Definition completed_in (scope : Scope) (from until : Z) : Sql (list Activity.Order) :=
  fetch scope (CompletedIn from until).
End query.

(** ** What the archive was told *)

Section told.
Context `{External}.

(** Some archived event says [v]. *)
Definition told (db : Db) (v : ParseOrder.OrderVersion) : Prop :=
  ∃ id e, archived_event (events db) id = Some e ∧ ParseOrder.parse e = Ok v.

(** An order as the figures see it, by what its events said: the state of the
    one that supersedes the others, the terms of the first. *)
Record tells (db : Db) (o : Activity.Order) (latest first : ParseOrder.OrderVersion) : Prop := {
  tells_latest : told db latest ∧ ParseOrder.ov_order_id latest = Activity.o_order_id o;
  tells_first : told db first ∧ ParseOrder.ov_order_id first = Activity.o_order_id o;
  tells_span v : told db v → ParseOrder.ov_order_id v = Activity.o_order_id o →
    ParseOrder.ov_created_at first ≤ ParseOrder.ov_created_at v ≤ ParseOrder.ov_created_at latest;
  tells_state : o = {|
    Activity.o_order_id := ParseOrder.ov_order_id latest;
    Activity.o_pubkey := ParseOrder.ov_pubkey latest;
    Activity.o_instance := instance_label (ParseOrder.ov_pubkey latest) (instance_name db (ParseOrder.ov_pubkey latest));
    Activity.o_created_at := Activity.o_created_at o;
    Activity.o_status := status (ParseOrder.ov_status latest);
    Activity.o_direction := direction (ParseOrder.ov_direction latest);
    Activity.o_fiat_code := ParseOrder.ov_fiat_code latest;
    Activity.o_payment_methods := ParseOrder.ov_payment_methods latest;
    Activity.o_amount_sats := ParseOrder.ov_amount_sats latest;
    Activity.o_fiat_amount := ParseOrder.fixed (ParseOrder.ov_fiat latest);
    Activity.o_premium := ParseOrder.ov_premium latest;
    Activity.o_is_market_price := bool_decide (ParseOrder.ov_amount_sats first = 0);
    Activity.o_fiat_range := ParseOrder.bounds (ParseOrder.ov_fiat first);
    Activity.o_pending_at := Activity.o_pending_at o;
    Activity.o_origin := Activity.mkOrigin (ParseOrder.ov_fiat_code first) (ParseOrder.ov_payment_methods first)
      (direction (ParseOrder.ov_direction first));
    Activity.o_taken_at := Activity.o_taken_at o;
    Activity.o_success_at := Activity.o_success_at o;
    Activity.o_canceled_at := Activity.o_canceled_at o;
    Activity.o_expires_at := Some (ParseOrder.ov_expires_at latest);
  |};
  tells_created : Activity.o_created_at o ≤ ParseOrder.ov_created_at first;
  tells_reached s t :
    match s with
    | ParseOrder.Pending => Activity.o_pending_at o | ParseOrder.InProgress => Activity.o_taken_at o
    | ParseOrder.Success => Activity.o_success_at o | ParseOrder.Canceled => Activity.o_canceled_at o
    end = Some t ↔
    (∃ v, told db v ∧ ParseOrder.ov_order_id v = Activity.o_order_id o ∧ ParseOrder.ov_status v = s ∧
      ParseOrder.ov_created_at v = t) ∧
    (∀ v, told db v → ParseOrder.ov_order_id v = Activity.o_order_id o → ParseOrder.ov_status v = s →
      t ≤ ParseOrder.ov_created_at v);
}.

(** ** Rows and what was told *)

Context `{!ExternalLaws}.
Implicit Types (db : Db) (v : ParseOrder.OrderVersion) (r : VersionRow).

Lemma told_row db v : archive_ok db → told db v → ∃ k r, order_versions db !! k = Some r ∧ version_row v = Some r.
Proof.
  intros Hok (k & e & He & Hv). destruct (ParseOrder.parse_wf e v Hv) as [Hwf _].
  destruct (order_version_row_round_trip v Hwf) as (r & Hr & _). exists k, r. split; [|done].
  rewrite (ok_order_versions db Hok k), He. cbn. unfold derive_order.
  by rewrite (proj2 (parse_Ok e (POrder v)) Hv).
Qed.
Lemma row_told db k r :
  archive_ok db → order_versions db !! k = Some r →
  ∃ v, told db v ∧ ParseOrder.well_formed v ∧ version_row v = Some r.
Proof.
  intros Hok. rewrite (ok_order_versions db Hok k). intros (e & He & Hd)%bind_Some. unfold derive_order in Hd.
  destruct (parse e) as [[v|v|v|v|v|v]|] eqn:Ep; try done. apply (parse_Ok e (POrder v)) in Ep.
  exists v. split; [by exists k, e|]. split; [by eapply ParseOrder.parse_wf|done].
Qed.

(** A stored row column by column. *)
Lemma version_row_columns v r :
  ParseOrder.well_formed v → version_row v = Some r →
  (vr_kind r = ParseOrder.direction_as_str (ParseOrder.ov_direction v) ∧
   vr_fiat_code r = ParseOrder.ov_fiat_code v ∧ vr_amount_sats r = ParseOrder.ov_amount_sats v ∧
   Csv.split (vr_payment_methods r) = ParseOrder.ov_payment_methods v) ∧
  vr_fiat_amount r = ParseOrder.fixed (ParseOrder.ov_fiat v) ∧
  option_zip (vr_fiat_min r) (vr_fiat_max r) = ParseOrder.bounds (ParseOrder.ov_fiat v) ∧
  vr_premium r = ParseOrder.ov_premium v ∧ vr_expires_at r = ParseOrder.ov_expires_at v.
Proof.
  intros [_ _ _ Hfiat [_ Hms] Hprem _ _]. unfold version_row. rewrite (bind_real_finite _ Hprem). cbn [mbind option_bind].
  assert (Csv.split (Csv.join (ParseOrder.ov_payment_methods v)) = ParseOrder.ov_payment_methods v) as Hcsv.
  { apply Csv.split_join_all. eapply Forall_impl; [exact Hms|]. intros m. apply blank_empty. }
  destruct (ParseOrder.ov_fiat v) as [a|a b]; cbn in Hfiat.
  - destruct Hfiat as [Ha _]. rewrite (bind_real_finite _ Ha). by intros [= <-].
  - destruct Hfiat as ([Ha _] & [Hb _] & _). rewrite (bind_real_finite _ Ha), (bind_real_finite _ Hb). by intros [= <-].
Qed.

Lemma order_project_of_columns vs row :
  project_of vs = Some row →
  ∃ latest, first_by newest_first vs = Some latest ∧
    (or_order_id row = vr_order_id latest ∧ or_pubkey row = vr_pubkey latest ∧ or_final_status row = vr_status latest ∧
     or_kind row = vr_kind latest ∧ or_fiat_code row = vr_fiat_code latest ∧
     or_amount_sats row = vr_amount_sats latest ∧ or_fiat_amount row = vr_fiat_amount latest ∧
     or_payment_methods row = vr_payment_methods latest ∧ or_premium row = vr_premium latest) ∧
    sql_min ((λ r, Some (vr_created_at r)) <$> vs) = Some (or_first_seen_at row) ∧
    or_success_at row = first_reached "success" vs ∧ or_canceled_at row = first_reached "canceled" vs.
Proof.
  intros (latest & E & (mn & Emn & (mx & Emx & [= <-])%bind_Some)%bind_Some)%bind_Some.
  exists latest. by split_and!.
Qed.

(** The versions of an order, and what was told of it. *)
Lemma elem_of_versions_of t oid r : r ∈ versions_of t oid ↔ vr_order_id r = oid ∧ ∃ k, t !! k = Some r.
Proof. unfold versions_of. by rewrite list_elem_of_filter, elem_of_rows. Qed.
Lemma versions_told db oid r :
  archive_ok db → r ∈ versions_of (order_versions db) oid →
  ∃ v, told db v ∧ ParseOrder.well_formed v ∧ version_row v = Some r ∧ ParseOrder.ov_order_id v = oid.
Proof.
  intros Hok (<- & k & Hk)%elem_of_versions_of. destruct (row_told db k r Hok Hk) as (v & Hv & Hwf & Hr).
  exists v. split_and!; [done..|]. by apply version_row_Some in Hr as (_ & -> & _).
Qed.
Lemma told_versions db v :
  archive_ok db → told db v → ∃ r, r ∈ versions_of (order_versions db) (ParseOrder.ov_order_id v) ∧ version_row v = Some r.
Proof.
  intros Hok Hv. destruct (told_row db v Hok Hv) as (k & r & Hk & Hr). exists r. split; [|done].
  apply elem_of_versions_of. split; [|by exists k]. by apply version_row_Some in Hr as (_ & -> & _).
Qed.

Lemma first_reached_told db oid s t :
  archive_ok db →
  first_reached (ParseOrder.status_as_str s) (versions_of (order_versions db) oid) = Some t ↔
  (∃ v, told db v ∧ ParseOrder.ov_order_id v = oid ∧ ParseOrder.ov_status v = s ∧ ParseOrder.ov_created_at v = t) ∧
  (∀ v, told db v → ParseOrder.ov_order_id v = oid → ParseOrder.ov_status v = s → t ≤ ParseOrder.ov_created_at v).
Proof.
  intros Hok. rewrite first_reached_Some.
  assert (∀ v r, version_row v = Some r → vr_status r = ParseOrder.status_as_str s ↔ ParseOrder.ov_status v = s) as Hst.
  { intros v r (_ & _ & _ & _ & ->)%version_row_Some. split; [apply ParseOrder.status_as_str_inj|by intros ->]. }
  assert (∀ v r, version_row v = Some r → vr_created_at r = ParseOrder.ov_created_at v) as Hat
    by (by intros v r (_ & _ & _ & -> & _)%version_row_Some).
  split; intros [(x & Hx) Hmin]; split.
  - destruct Hx as (Hx & Hs & <-). destruct (versions_told db oid x Hok Hx) as (v & Hv & _ & Hr & Ho).
    exists v. split_and!; [done|done|by apply (Hst v x Hr)|symmetry; by apply Hat].
  - intros v Hv <- Hs. destruct (told_versions db v Hok Hv) as (r & Hin & Hr). rewrite <- (Hat v r Hr).
    apply Hmin; [done|]. by apply (Hst v r Hr).
  - destruct Hx as (Hx & <- & Hs & <-). destruct (told_versions db x Hok Hx) as (r & Hin & Hr).
    exists r. split_and!; [done|by apply (Hst x r Hr)|by apply Hat].
  - intros r Hin Hs. destruct (versions_told db oid r Hok Hin) as (v & Hv & _ & Hr & Ho). rewrite (Hat v r Hr).
    apply Hmin; [done|done|]. by apply (Hst v r Hr).
Qed.

(** The first and the latest version bound every other. *)
Lemma versions_span vs latest first r :
  first_by newest_first vs = Some latest → first_by oldest_first vs = Some first → r ∈ vs →
  vr_created_at first ≤ vr_created_at r ≤ vr_created_at latest.
Proof.
  intros [_ Hl]%first_by_Some [_ Hf]%first_by_Some Hr. specialize (Hl r Hr). specialize (Hf r Hr).
  unfold by_key, key_le, newest_first, oldest_first in *. cbn in *. lia.
Qed.
Lemma first_seen_is_first vs first t :
  first_by oldest_first vs = Some first → sql_min ((λ r, Some (vr_created_at r)) <$> vs) = Some t →
  t = vr_created_at first.
Proof.
  intros [Hin Hf]%first_by_Some [(r & [= ->] & Hr)%list_elem_of_fmap Hmin]%sql_min_Some.
  specialize (Hmin _ (list_elem_of_fmap_2 (λ r, Some (vr_created_at r)) _ _ Hin)). specialize (Hf r Hr).
  unfold by_key, key_le, oldest_first in Hf. cbn in Hf. lia.
Qed.

Lemma row_loads db oid row :
  archive_ok db → Db.orders db !! oid = Some row →
  or_order_id row = oid ∧ ∃ o, into_order (row_of_order db row) = Ok o ∧ Activity.o_order_id o = oid ∧
    Activity.o_created_at o = created_at row ∧ ∃ latest first, tells db o latest first.
Proof.
  intros Hok Hrow. destruct (ok_orders db Hok) as [_ Hp]. rewrite Hp in Hrow.
  change (project_of (versions_of (order_versions db) oid) = Some row) in Hrow.
  pose proof (project_order_id _ _ _ Hrow) as Hoid. split; [done|].
  apply order_project_of_columns in Hrow as (lr & Hl & (_ & Epk & Est & Ekd & Efc & Eam & Efa & Epm & Epr) & Hseen & Esu & Eca).
  destruct (first_by oldest_first (versions_of (order_versions db) oid)) as [fr|] eqn:Hf.
  2: { apply first_by_None in Hf. by rewrite Hf in Hl. }
  pose proof (λ r, versions_span _ lr fr r Hl Hf) as Hspan.
  pose proof (first_seen_is_first _ fr _ Hf Hseen) as Efirst.
  destruct (versions_told db oid lr Hok) as (latest & Hlt & Hlwf & Hlr & Hlo); [by apply first_by_Some in Hl as [? _]|].
  destruct (versions_told db oid fr Hok) as (first & Hft & Hfwf & Hfr & Hfo); [by apply first_by_Some in Hf as [? _]|].
  destruct (version_row_columns latest lr Hlwf Hlr) as ((Lk & Lc & La & Lm) & Lf & _ & Lp & Le).
  destruct (version_row_columns first fr Hfwf Hfr) as ((Fk & Fc & Fa & Fm) & _ & Fr & _ & _).
  pose proof (version_row_Some _ _ Hlr) as (_ & _ & Lpk & Lat & Ls).
  pose proof (version_row_Some _ _ Hfr) as (_ & _ & _ & Fat & _).
  assert (versions_of_order db row = versions_of (order_versions db) oid) as Evs by (unfold versions_of_order; by rewrite Hoid).
  exists (order_of_row (row_of_order db row) (ParseOrder.ov_direction first) (ParseOrder.ov_status latest)
    (ParseOrder.ov_direction latest)). split_and!; [|done|done|].
  { unfold into_order. cbn. rewrite Evs, Hf, Est, Ls, Ekd, Lk. cbn. rewrite Fk.
    by rewrite !ParseOrder.direction_parse_as_str, ParseOrder.status_parse_as_str. }
  exists latest, first. unfold row_of_order, expires_at. rewrite Evs, Hf, Hl, Hoid. split; cbn -[Csv.split].
  - done.
  - done.
  - intros v Hv Hvo. destruct (told_versions db v Hok Hv) as (r & Hr & Hvr). rewrite Hvo in Hr.
    specialize (Hspan r Hr). pose proof (version_row_Some _ _ Hvr) as (_ & _ & _ & Vat & _). lia.
  - unfold order_of_row. cbn -[Csv.split].
    rewrite Epk, Lpk, Hlo, Efc, Lc, Epm, Lm, Eam, La, Efa, Lf, Epr, Lp, Fa, Fr, Fc, Fm, Le.
    f_equal. apply bool_decide_ext. split; [by intros [= ->]|by intros ->].
  - unfold created_at. lia.
  - intros s t. rewrite <- (first_reached_told db oid s t Hok). rewrite ?Esu, ?Eca. by destruct s.
Qed.

Lemma told_order db oid :
  archive_ok db → is_Some (Db.orders db !! oid) ↔ ∃ v, told db v ∧ ParseOrder.ov_order_id v = oid.
Proof.
  intros Hok. destruct (ok_orders db Hok) as [_ Hp]. rewrite Hp.
  change (project_rows _) with (project_of (versions_of (order_versions db) oid)). split.
  - destruct (versions_of (order_versions db) oid) as [|r rs] eqn:E; [by intros [??]|]. intros _.
    destruct (versions_told db oid r Hok) as (v & Hv & _ & _ & Ho); [rewrite E; by left|by exists v].
  - intros (v & Hv & <-). destruct (told_versions db v Hok Hv) as (r & Hr & _). apply order_project_of_Some.
    intros E. rewrite E in Hr. by apply elem_of_nil in Hr.
Qed.

Lemma orders_load db scope f : archive_ok db → ∃ l, fetch db scope f = Ok l.
Proof.
  intros Hok. unfold fetch. rewrite <- list_fmap_compose.
  destruct (collect_total (into_order ∘ row_of_order db) (order_by (λ o, (created_at o, or_order_id o))
    (filter (λ o, apply_scope scope (or_pubkey o) (or_network o) && admits db f o = true) (rows (Db.orders db)))))
    as (l & Hl & _); [|by exists l].
  intros row [_ [oid Hrow]%elem_of_rows]%elem_of_order_by%list_elem_of_filter.
  destruct (row_loads db oid row Hok Hrow) as (_ & o & Ho & _). by exists o.
Qed.

(** C37: what the figures are computed from is what the events said. Loading an
    archive that ingest can have left never fails on a decode, returns each
    order of the scope and filter once, oldest first; every order carries the
    state of its latest version and the terms of its first, its stages are
    dated by the first version that reached them, and it is dated no later
    than its first version. *)
Theorem orders_loaded db scope f :
  archive_ok db →
  ∃ l, fetch db scope f = Ok l ∧ NoDup (Activity.o_order_id <$> l) ∧
    StronglySorted (by_key (λ o, (Activity.o_created_at o, Activity.o_order_id o))) l ∧
    (∀ oid, oid ∈ Activity.o_order_id <$> l ↔
      ∃ row, Db.orders db !! oid = Some row ∧ apply_scope scope (or_pubkey row) (or_network row) && admits db f row = true) ∧
    (∀ oid, is_Some (Db.orders db !! oid) ↔ ∃ v, told db v ∧ ParseOrder.ov_order_id v = oid) ∧
    (∀ o, o ∈ l → ∃ latest first, tells db o latest first).
Proof.
  intros Hok. unfold fetch. set (rs := order_by _ _).
  assert (∀ row, row ∈ rs ↔ (∃ oid, Db.orders db !! oid = Some row) ∧
    apply_scope scope (or_pubkey row) (or_network row) && admits db f row = true) as Hrs.
  { intros row. unfold rs. rewrite elem_of_order_by, list_elem_of_filter, elem_of_rows. naive_solver. }
  assert (∀ row, row ∈ rs → ∃ o, into_order (row_of_order db row) = Ok o ∧ Activity.o_order_id o = or_order_id row ∧
    Activity.o_created_at o = created_at row ∧ ∃ latest first, tells db o latest first) as Hload.
  { intros row [[oid Hrow] _]%Hrs. destruct (row_loads db oid row Hok Hrow) as (Eo & o & Ho & Eid & Ht).
    exists o. by rewrite Eid, Eo. }
  rewrite <- list_fmap_compose.
  destruct (collect_total (into_order ∘ row_of_order db) rs) as (l & Hl & Hall).
  { intros row Hrow. destruct (Hload row Hrow) as (o & Ho & _). by exists o. }
  exists l. split; [exact Hl|].
  assert (Forall2 (λ row o, (Activity.o_order_id o = or_order_id row ∧ Activity.o_created_at o = created_at row) ∧
    ∃ latest first, tells db o latest first) rs l) as Hrel.
  { eapply Forall2_impl_in; [exact Hall|]. intros row o Hrow _ Ho. destruct (Hload row Hrow) as (o' & Ho' & H1 & H2 & H3).
    cbn in Ho. rewrite Ho' in Ho. by injection Ho as ->. }
  assert (Activity.o_order_id <$> l = or_order_id <$> rs) as Eids.
  { clear -Hrel. induction Hrel as [|row o rs l [[Eo _] _] _ IH]; [done|]. by rewrite !fmap_cons, Eo, IH. }
  split_and!; [| | |by intros oid; apply told_order|].
  - rewrite Eids. unfold rs. rewrite order_by_Permutation. apply NoDup_fmap_filter, NoDup_rows.
    intros k k' r r' Hk Hk' E. destruct (row_loads db k r Hok Hk) as [<- _]. by destruct (row_loads db k' r' Hok Hk') as [<- _].
  - pose proof (order_by_sorted (λ o, (created_at o, or_order_id o)) (filter (λ o, apply_scope scope (or_pubkey o) (or_network o)
      && admits db f o = true) (rows (Db.orders db)))) as Hs. fold rs in Hs.
    eapply StronglySorted_Forall2; [|exact Hs|exact Hrel]. intros x x' y y' [[E1 E2] _] [[E3 E4] _].
    unfold by_key. by rewrite E1, E2, E3, E4.
  - intros oid. rewrite Eids, list_elem_of_fmap. setoid_rewrite Hrs. split.
    + intros (row & -> & [k Hrow] & Hf). destruct (row_loads db k row Hok Hrow) as [-> _]. by exists row.
    + intros (row & Hrow & Hf). exists row. destruct (row_loads db oid row Hok Hrow) as [-> _]. split; [done|]. split; [by exists oid|done].
  - intros o Ho. apply list_elem_of_lookup in Ho as [i Hi]. destruct (Forall2_lookup_r _ _ _ _ _ Hrel Hi) as (row & _ & _ & Htells). done.
Qed.
End told.

(** ** An archive and its orders *)

Module sample.
#[export] Existing Instances Demo.demo Demo.demo_laws.
Definition story : list Event :=
  [order_event "e3" 1700000300 "success"; order_event "e1" 1700000100 "pending"; order_event "e2" 1700000200 "in-progress"].
Definition archive : Db := foldl (λ db e, (run db e).2) empty_db story.
Definition everything : Scope := mkScope None [].

Lemma archive_reachable : reachable open_policy archive.
Proof.
  assert (∀ l db, reachable open_policy db → reachable open_policy (foldl (λ db e, (run db e).2) db l)) as Hfold.
  { induction l as [|e l IH]; intros db Hdb; [done|]. apply IH. apply (reach_step open_policy db e "wss://relay" 0 (run db e).1); [done|].
    apply surjective_pairing. }
  apply Hfold. constructor.
Qed.
Lemma archive_is_ok : archive_ok archive.
Proof. apply (reachable_ok open_policy), archive_reachable. Qed.
End sample.

#[local] Existing Instances Demo.demo Demo.demo_laws.

Theorem orders_loaded_witness :
  ∃ o latest first, orders sample.archive sample.everything = Ok [o] ∧ tells sample.archive o latest first ∧
    Activity.o_taken_at o = Some 1700000200.
Proof.
  destruct (orders_loaded sample.archive sample.everything All sample.archive_is_ok) as (l & Hl & _ & _ & _ & _ & Htells).
  change (orders sample.archive sample.everything = Ok l) in Hl.
  destruct (orders sample.archive sample.everything) as [l'|e] eqn:E; [|discriminate Hl]. injection Hl as ->.
  assert ((λ o, Activity.o_taken_at o) <$> l = [Some 1700000200]) as Etaken.
  { revert E. vm_compute. intros [= <-]. reflexivity. }
  destruct l as [|o [|]]; try discriminate Etaken. destruct (Htells o) as (latest & first & Ht); [left|].
  exists o, latest, first. split; [reflexivity|]. split; [exact Ht|]. injection Etaken as Eo. exact Eo.
Defined.
