(* ===== verification/LoadDevFees.v ===== *)
(** * Fees and settlements for the figures

    [src/db/load/dev_fees.rs]: every fee with what the [orders] projection
    knows of its order and the fee in force when it was owed, and every
    completed order with whether a fee names it. *)

From S2P Require Import Prelude F64 Event Parse Db RepoDevFees RepoEvents LoadActivity.
From S2P Require RepoInfo DevFees.

#[local] Open Scope Z_scope.

Section query.
Context (db : Db).

(** [CASE WHEN o.final_status = 'success' THEN column END], over the order a
    fee names, if there is one. *)
Definition settled {A} (column : OrderRow → option A) (order : option OrderRow) : option A :=
  o ← order; if decide (or_final_status o = "success") then column o else None.

(** One row of the query, as [FeeRow::into_fee] reads it. *)
Definition into_fee (f : FeeRow) : DevFees.Fee :=
  let order := Db.orders db !! fr_order_id f in
  let settled_at := settled or_success_at order in
  {|
    DevFees.f_event_id := fr_event_id f;
    DevFees.f_order_id := fr_order_id f;
    DevFees.f_pubkey := fr_pubkey f;
    DevFees.f_instance := instance_label (fr_pubkey f) (instance_name db (fr_pubkey f));
    DevFees.f_created_at := fr_created_at f;
    DevFees.f_amount_sats := fr_amount_sats f;
    DevFees.f_is_duplicate := bool_decide (fr_is_duplicate f ≠ 0);
    DevFees.f_order_known := option_is_some order;
    DevFees.f_settled_at := settled_at;
    DevFees.f_fee_in_force := RepoInfo.fee_in_force db (fr_pubkey f) (default (fr_created_at f) settled_at);
    DevFees.f_settled_amount_sats := settled (λ o, Some (or_amount_sats o)) order;
  |}.

(** Every fee in scope, [ORDER BY f.created_at, f.event_id]. *)
Definition fees (scope : Scope) : list DevFees.Fee :=
  into_fee <$> order_by oldest_first
    (filter (λ f, apply_scope scope (fr_pubkey f) (fr_network f) = true) (rows (dev_fees db))).

(** [SettlementRow::into_settlement], of an order with a settlement time. *)
Definition into_settlement (o : OrderRow) (success_at : Z) : DevFees.Settlement := {|
  DevFees.st_order_id := or_order_id o;
  DevFees.st_instance := instance_label (or_pubkey o) (instance_name db (or_pubkey o));
  DevFees.st_success_at := success_at;
  DevFees.st_has_fee := bool_decide (fees_of (dev_fees db) (or_order_id o) ≠ []);
  DevFees.st_charges_fee := (λ fee, f64_gt fee (f64_of_Z 0)) <$> RepoInfo.fee_in_force db (or_pubkey o) success_at;
|}.

(** [WHERE o.final_status = 'success' AND o.success_at IS NOT NULL]. *)
Definition completed (o : OrderRow) : option (OrderRow * Z) :=
  if decide (or_final_status o = "success") then (λ t, (o, t)) <$> or_success_at o else None.
(** Every completed order in scope, [ORDER BY o.success_at, o.order_id]. *)
Definition settlements (scope : Scope) : list DevFees.Settlement :=
  (λ '(o, t), into_settlement o t) <$> order_by (λ '(o, t), (t, or_order_id o))
    (omap completed (filter (λ o, apply_scope scope (or_pubkey o) (or_network o) = true) (rows (Db.orders db)))).

Definition load (scope : Scope) : DevFees.DevFeeData := DevFees.mkDevFeeData (fees scope) (settlements scope).
End query.

(** ** What is loaded *)

Lemma elem_of_fees db scope f :
  f ∈ fees db scope ↔ ∃ k r, dev_fees db !! k = Some r ∧ apply_scope scope (fr_pubkey r) (fr_network r) = true ∧ f = into_fee db r.
Proof.
  unfold fees. rewrite list_elem_of_fmap. setoid_rewrite elem_of_order_by. setoid_rewrite list_elem_of_filter.
  setoid_rewrite elem_of_rows. naive_solver.
Qed.

(** Of the fees an archive holds for an order, the loaded ones that count are
    the one that came first. *)
Lemma one_fee_counts db oid :
  flagged (dev_fees db) →
  (λ f, DevFees.f_event_id f) <$> filter (λ f, DevFees.f_is_duplicate f = false ∧ DevFees.f_order_id f = oid)
    (fees db (mkScope None [])) =
  match first_by oldest_first (fees_of (dev_fees db) oid) with Some r => [fr_event_id r] | None => [] end.
Proof.
  intros [Hk Hf]. set (t := dev_fees db) in *.
  assert (∀ f, f ∈ filter (λ f, DevFees.f_is_duplicate f = false ∧ DevFees.f_order_id f = oid) (fees db (mkScope None [])) ↔
    ∃ r, first_by oldest_first (fees_of t oid) = Some r ∧ f = into_fee db r) as Hin.
  { intros f. rewrite list_elem_of_filter, elem_of_fees. split.
    - intros ((Hd & Ho) & k & r & Hr & _ & ->). cbn in Hd, Ho. apply bool_decide_eq_false in Hd.
      rewrite (Hf oid k r Hr Ho) in Hd. case_decide as He; [|lia].
      destruct (first_by oldest_first (fees_of t oid)) as [r'|] eqn:E; [|done]. cbn in He. injection He as He.
      apply first_by_Some in E as E'. destruct E' as [(_ & k' & Hr')%elem_of_fees_of _].
      rewrite (Hk _ _ Hr), (Hk _ _ Hr') in He. subst k'. exists r'. split; [done|].
      assert (r = r') as -> by (unfold t in *; congruence). done.
    - intros (r & E & ->). apply first_by_Some in E as E'. destruct E' as [(Ho & k & Hr)%elem_of_fees_of _].
      split; [|by exists k, r]. cbn. split; [|done]. apply bool_decide_eq_false. rewrite (Hf oid k r Hr Ho), E.
      rewrite decide_True by done. lia. }
  assert (NoDup (DevFees.f_event_id <$> fees db (mkScope None []))) as Hnd.
  { unfold fees. rewrite <- list_fmap_compose. rewrite order_by_Permutation. apply NoDup_fmap_filter, NoDup_rows.
    intros k k' r r' Hr Hr' E. cbn in E. by rewrite (Hk _ _ Hr), (Hk _ _ Hr') in E. }
  apply (NoDup_fmap_filter DevFees.f_event_id (λ f, DevFees.f_is_duplicate f = false ∧ DevFees.f_order_id f = oid)) in Hnd.
  destruct (filter _ _) as [|a [|b l]].
  - destruct (first_by _ _) as [r|]; [|done]. exfalso. eapply elem_of_nil, Hin. by exists r.
  - destruct (proj1 (Hin a)) as (r & -> & ->); [by left|]. done.
  - exfalso. destruct (proj1 (Hin a)) as (r & E & ->); [by left|]. destruct (proj1 (Hin b)) as (r' & E' & ->); [right; by left|].
    rewrite E in E'. injection E' as <-. rewrite !fmap_cons in Hnd. apply NoDup_cons in Hnd as [Hnot _]. apply Hnot. by left.
Qed.

(** A settlement is a completed order, and says whether a fee names it. *)
Lemma elem_of_settlements db scope s :
  s ∈ settlements db scope ↔ ∃ k o t, Db.orders db !! k = Some o ∧ apply_scope scope (or_pubkey o) (or_network o) = true ∧
    or_final_status o = "success" ∧ or_success_at o = Some t ∧ s = into_settlement db o t.
Proof.
  unfold settlements. rewrite list_elem_of_fmap. split.
  - intros ([o t] & -> & Ho). apply elem_of_order_by, list_elem_of_omap in Ho as (o' & Ho' & Hc).
    apply list_elem_of_filter in Ho' as [Hs [k Hk]%elem_of_rows]. unfold completed in Hc. case_decide; [|done].
    apply fmap_Some in Hc as (t' & Ht & [= -> ->]). naive_solver.
  - intros (k & o & t & Hk & Hs & Hst & Ht & ->). exists (o, t). split; [done|].
    apply elem_of_order_by, list_elem_of_omap. exists o. split; [|unfold completed; by rewrite decide_True, Ht].
    apply list_elem_of_filter. split; [done|]. apply elem_of_rows. by exists k.
Qed.
