(* ===== verification/LoadDisputes.v ===== *)
(** * Disputes and taken orders for the figures

    [src/db/load/disputes.rs]: every dispute with its opening time and its
    first terminal version, and every order that left [pending]. Neither read
    is narrowed to a network: dispute events carry none. *)

From S2P Require Import Prelude Event Parse Db Versioned RepoDisputes RepoEvents LoadActivity.
From S2P Require Import Pipeline PipelineFacts Samples.
From S2P Require RepoOrders ParseDispute Disputes.

#[local] Open Scope Z_scope.

(** [DisputeRow] and [TakenRow]. *)
Record Row : Type := mkRow {
  rw_dispute_id : string; rw_pubkey : string; rw_instance_name : option string; rw_opened_at : Z;
  rw_status : string; rw_initiator : option string; rw_resolved_at : option Z; rw_outcome : option string;
}.
Record TakenRow : Type := mkTakenRow {
  tr_order_id : string; tr_pubkey : string; tr_instance_name : option string; tr_left_pending_at : option Z;
}.

Definition status (s : ParseDispute.Status) : Disputes.Status :=
  match s with
  | ParseDispute.Initiated => Disputes.Initiated
  | ParseDispute.InProgress => Disputes.InProgress
  | ParseDispute.SellerRefunded => Disputes.SellerRefunded
  | ParseDispute.Settled => Disputes.Settled
  | ParseDispute.Released => Disputes.Released
  | ParseDispute.CooperativelyCanceled => Disputes.CooperativelyCanceled
  end.
Definition initiator (i : ParseDispute.Initiator) : Disputes.Initiator :=
  match i with ParseDispute.Buyer => Disputes.Buyer | ParseDispute.Seller => Disputes.Seller end.

(** [DisputeRow::into_dispute]. *)
Definition into_dispute (r : Row) : Sql Disputes.Dispute :=
  initiator ← transpose ((λ wire, initiator <$> decode_column "initiator" (ParseDispute.initiator_parse wire)) <$> rw_initiator r);
  outcome ← transpose ((λ wire, status <$> decode_column "outcome" (ParseDispute.status_parse wire)) <$> rw_outcome r);
  final_status ← decode_column "final_status" (ParseDispute.status_parse (rw_status r));
  Ok {|
    Disputes.d_dispute_id := rw_dispute_id r;
    Disputes.d_instance := instance_label (rw_pubkey r) (rw_instance_name r);
    Disputes.d_opened_at := rw_opened_at r;
    Disputes.d_status := status final_status;
    Disputes.d_initiator := initiator;
    Disputes.d_resolved_at := rw_resolved_at r;
    Disputes.d_outcome := outcome;
  |}.
(** [TakenRow::into_taken]. *)
Definition into_taken (r : TakenRow) : option Disputes.Taken :=
  Disputes.mkTaken (tr_order_id r) (instance_label (tr_pubkey r) (tr_instance_name r)) <$> tr_left_pending_at r.

(** The literal list of the query. *)
Definition TERMINAL : list string := ["seller-refunded"; "settled"; "released"; "cooperatively-canceled"].

Section query.
Context (db : Db).

Definition versions_of_dispute (d : DisputeRow) : list DisputeVersionRow :=
  versions_of (dispute_versions db) (dr_dispute_id d).
Definition terminal (vs : list DisputeVersionRow) : list DisputeVersionRow := filter (λ v, dvr_status v ∈ TERMINAL) vs.

(** [COALESCE(d.opened_at, (SELECT MIN(v.created_at) …))]. *)
Definition opened_at (d : DisputeRow) : option Z :=
  or_else (dr_opened_at d) (sql_min ((λ v, Some (dvr_created_at v)) <$> versions_of_dispute d)).

(** A row decoded; a NULL opening time does not decode. *)
Definition row_of_dispute (d : DisputeRow) : Sql Row :=
  opened ← ok_or (opened_at d) (ColumnDecode "opened_at");
  let over := terminal (versions_of_dispute d) in
  Ok {|
    rw_dispute_id := dr_dispute_id d;
    rw_pubkey := dr_pubkey d;
    rw_instance_name := instance_name db (dr_pubkey d);
    rw_opened_at := opened;
    rw_status := dr_final_status d;
    rw_initiator := dr_initiator d;
    rw_resolved_at := sql_min ((λ v, Some (dvr_created_at v)) <$> over);
    rw_outcome := dvr_status <$> first_by oldest_first over;
  |}.

(** [ORDER BY opened_at, d.dispute_id], the result's own column; rows are
    fetched, which decodes them, before the first is turned into a dispute. *)
Definition disputes (scope : Scope) : Sql (list Disputes.Dispute) :=
  fetched ← collect (row_of_dispute <$> filter (λ d, apply_instance scope (dr_pubkey d) = true) (rows (Db.disputes db)));
  collect (into_dispute <$> order_by (λ r, (rw_opened_at r, rw_dispute_id r)) fetched).

Definition taken_row (o : OrderRow) : TakenRow := {|
  tr_order_id := or_order_id o;
  tr_pubkey := or_pubkey o;
  tr_instance_name := instance_name db (or_pubkey o);
  tr_left_pending_at := or_else (RepoOrders.first_reached "in-progress" (versions_of_order db o)) (or_success_at o);
|}.

(** [ORDER BY left_pending_at, o.order_id]: the rows that left no trace of a
    taker sort first and are then dropped. *)
Definition taken (scope : Scope) : list Disputes.Taken :=
  let fetched := taken_row <$> filter (λ o, apply_instance scope (or_pubkey o) = true) (rows (Db.orders db)) in
  let '(untaken, others) := (filter (λ r, tr_left_pending_at r = None) fetched, filter (λ r, tr_left_pending_at r ≠ None) fetched) in
  omap into_taken (order_by (λ r, (0, tr_order_id r)) untaken
    ++ order_by (λ r, (default 0 (tr_left_pending_at r), tr_order_id r)) others).

Definition load (scope : Scope) : Sql Disputes.DisputeData :=
  disputes ← disputes scope;
  Ok (Disputes.mkDisputeData disputes (taken scope)).
End query.

(** ** Loading does not fail *)

Section facts.
Context `{External} `{!ExternalLaws}.
Implicit Types (db : Db).

Lemma dispute_row_told db did r :
  archive_ok db → r ∈ versions_of (dispute_versions db) did → ∃ v, r = version_row v.
Proof.
  intros Hok [_ [k Hk]%elem_of_rows]%list_elem_of_filter. rewrite (ok_dispute_versions db Hok k) in Hk.
  apply bind_Some in Hk as (e & _ & Hd). unfold derive_dispute in Hd. destruct (parse e) as [[]|]; try done.
  injection Hd as <-. by eexists.
Qed.

Lemma dispute_projected db did row :
  archive_ok db → Db.disputes db !! did = Some row →
  dr_dispute_id row = did ∧ versions_of (dispute_versions db) did ≠ [] ∧
  (∃ r, r ∈ versions_of (dispute_versions db) did ∧ dr_final_status row = dvr_status r) ∧
  (∀ w, dr_initiator row = Some w → ∃ r, r ∈ versions_of (dispute_versions db) did ∧ dvr_initiator r = Some w).
Proof.
  intros Hok Hrow. destruct (ok_disputes db Hok) as [_ Hp]. rewrite Hp in Hrow.
  change (project (dispute_versions db) did = Some row) in Hrow. split; [by eapply project_dispute_id|].
  apply bind_Some in Hrow as (latest & [Hl _]%first_by_Some & (t & _ & [= <-])%bind_Some). split_and!.
  - intros E. rewrite E in Hl. by apply elem_of_nil in Hl.
  - by exists latest.
  - cbn. intros w (r & Hr & Hw & _)%latest_known_Some. by exists r.
Qed.

Lemma dispute_loads db did row :
  archive_ok db → Db.disputes db !! did = Some row → ∃ r d, row_of_dispute db row = Ok r ∧ into_dispute r = Ok d.
Proof.
  intros Hok Hrow. destruct (dispute_projected db did row Hok Hrow) as (Eid & Hne & (rl & Hrl & Est) & Hin).
  unfold row_of_dispute, versions_of_dispute, opened_at, versions_of_dispute. rewrite Eid.
  set (vs := versions_of (dispute_versions db) did) in *.
  assert (∃ t, or_else (dr_opened_at row) (sql_min ((λ v, Some (dvr_created_at v)) <$> vs)) = Some t) as [t ->].
  { destruct (dr_opened_at row) as [t|]; [by exists t|]. destruct vs as [|v vs']; [done|].
    destruct (sql_min_le ((λ v, Some (dvr_created_at v)) <$> v :: vs') (dvr_created_at v)) as (m & -> & _); [by left|by exists m]. }
  cbn [ok_or mbind Result_bind]. eexists.
  assert (∃ i, transpose ((λ wire, initiator <$> decode_column "initiator" (ParseDispute.initiator_parse wire)) <$> dr_initiator row) = Ok i) as [i Ei].
  { destruct (dr_initiator row) as [w|] eqn:Ew; [|by eexists]. destruct (Hin w eq_refl) as (r & Hr & Hrw).
    destruct (dispute_row_told db did r Hok Hr) as [v ->]. cbn in Hrw. destruct (ParseDispute.dv_initiator v) as [[]|]; [..|done];
      injection Hrw as <-; by eexists. }
  assert (∃ o, transpose ((λ wire, status <$> decode_column "outcome" (ParseDispute.status_parse wire)) <$>
    (dvr_status <$> first_by oldest_first (terminal vs))) = Ok o) as [o Eo].
  { destruct (first_by oldest_first (terminal vs)) as [r|] eqn:Ef; [|by eexists].
    apply first_by_Some in Ef as [[_ Hr]%list_elem_of_filter _]. destruct (dispute_row_told db did r Hok Hr) as [v ->].
    cbn. destruct (ParseDispute.dv_status v); by eexists. }
  destruct (dispute_row_told db did rl Hok Hrl) as [v Ev].
  assert (ParseDispute.status_parse (dr_final_status row) = Ok (ParseDispute.dv_status v)) as Es.
  { rewrite Est, Ev. cbn. by destruct (ParseDispute.dv_status v). }
  eexists. split; [reflexivity|]. unfold into_dispute. cbn [rw_initiator rw_outcome rw_status]. rewrite Ei. cbn [mbind Result_bind].
  rewrite Eo. cbn [mbind Result_bind]. rewrite Es. reflexivity.
Qed.

Lemma disputes_load db scope : archive_ok db → ∃ data, load db scope = Ok data.
Proof.
  intros Hok. unfold load, disputes.
  set (f := λ d, apply_instance scope (dr_pubkey d) = true).
  assert (∀ d, d ∈ filter f (rows (Db.disputes db)) → ∃ r d', row_of_dispute db d = Ok r ∧ into_dispute r = Ok d') as Hall.
  { intros d [_ [k Hk]%elem_of_rows]%list_elem_of_filter. by apply (dispute_loads db k). }
  destruct (collect_total (row_of_dispute db) (filter f (rows (Db.disputes db)))) as (rs & -> & Hrs).
  { intros d Hd. destruct (Hall d Hd) as (r & _ & Hr & _). by exists r. }
  cbn. destruct (collect_total into_dispute (order_by (λ r, (rw_opened_at r, rw_dispute_id r)) rs)) as (ds & -> & _); [|by eexists].
  intros r Hr%elem_of_order_by. apply list_elem_of_lookup in Hr as [i Hi].
  destruct (Forall2_lookup_r _ _ _ _ _ Hrs Hi) as (d & Hd & Hrow). apply list_elem_of_lookup_2 in Hd.
  destruct (Hall d Hd) as (r' & d' & Hr' & Hd'). exists d'. congruence.
Qed.
End facts.
