(* ===== verification/LoadInstances.v ===== *)
(** * Instance profiles

    [src/db/load/instances.rs]: an [instances] row, and each optional field
    from the latest profile that published it. *)

From S2P Require Import Prelude F64 Csv Event Parse Db RepoInfo RepoEvents.
From S2P Require Import Pipeline PipelineFacts Samples.
From S2P Require RepoInstances Instances.

#[local] Open Scope Z_scope.

Section query.
Context (db : Db).

(** [WHERE v.pubkey = i.pubkey AND v.column IS NOT NULL
     ORDER BY v.created_at DESC, v.event_id ASC LIMIT 1]. *)
Definition latest_published {A} (column : InfoRow → option A) (pubkey : string) : option A :=
  first_by newest_first (filter (λ r, ir_pubkey r = pubkey ∧ is_Some (column r)) (rows (instance_info db))) ≫= column.

(** A stored list, or none. *)
Definition split_column (text : option string) : list string := default [] (Csv.split <$> text).

(** One row of the query, as [Row::into_profile] reads it. *)
Definition into_profile (i : Instance) : Instances.Profile :=
  let pubkey := inst_pubkey i in
  {|
    Instances.pf_pubkey := pubkey;
    Instances.pf_name := inst_name i;
    Instances.pf_label := instance_label pubkey (inst_name i);
    Instances.pf_mostro_version := latest_published ir_mostro_version pubkey;
    Instances.pf_protocol_version := latest_published ir_protocol_version pubkey;
    Instances.pf_fee := latest_published ir_fee pubkey;
    Instances.pf_min_order_sats := latest_published ir_min_order_amount pubkey;
    Instances.pf_max_order_sats := latest_published ir_max_order_amount pubkey;
    Instances.pf_fiat_currencies := split_column (latest_published ir_fiat_currencies pubkey);
    Instances.pf_ln_networks := split_column (latest_published ir_ln_networks pubkey);
    Instances.pf_bond_enabled := (λ stored, bool_decide (stored ≠ 0)) <$> latest_published ir_bond_enabled pubkey;
    Instances.pf_first_seen_at := inst_first_seen_at i;
    Instances.pf_last_seen_at := inst_last_seen_at i;
  |}.

(** Every instance in scope, [ORDER BY i.first_seen_at, i.pubkey]. *)
Definition profiles (scope : Scope) : list Instances.Profile :=
  into_profile <$> order_by (λ i, (inst_first_seen_at i, inst_pubkey i))
    (filter (λ i, apply_instance scope (inst_pubkey i) = true) (rows (instances db))).
End query.

(** ** The bestiary *)

(** Every instance is filed under its key, and whoever quoted a rate is one. *)
Record bestiary_ok (db : Db) : Prop := {
  ok_instances k i : instances db !! k = Some i → inst_pubkey i = k;
  ok_quoting k r : rates db !! k = Some r → is_Some (instances db !! rr_pubkey r);
}.

Lemma upsert_keyed db pubkey name at_ts :
  (∀ k i, instances db !! k = Some i → inst_pubkey i = k) →
  ∀ k i, instances (RepoInstances.upsert db pubkey name at_ts) !! k = Some i → inst_pubkey i = k.
Proof.
  intros Hk k i. cbn. intros [[<- <-] | [_ Hi]]%lookup_insert_Some; [|by apply Hk].
  destruct (instances db !! pubkey) eqn:E; [|done]. cbn. by apply Hk.
Qed.
Lemma upsert_mono db pubkey name at_ts k :
  is_Some (instances db !! k) ∨ k = pubkey → is_Some (instances (RepoInstances.upsert db pubkey name at_ts) !! k).
Proof. cbn. rewrite lookup_insert. case_decide; [by eexists|]. naive_solver. Qed.

Lemma bestiary_upsert db pubkey name at_ts : bestiary_ok db → bestiary_ok (RepoInstances.upsert db pubkey name at_ts).
Proof.
  intros [Hk Hq]. split; [by apply upsert_keyed|]. intros k r Hr. apply upsert_mono. left. by eapply Hq.
Qed.

Section facts.
Context `{External}.
Implicit Types (db : Db) (event : Event).

Lemma persist_instance_rows db event :
  instances (persist_instance db event) =
    instances (RepoInstances.upsert db (ev_pubkey event) (instance_name event) (as_i64 (ev_created_at event))) ∧
  rates (persist_instance db event) = rates db.
Proof. unfold persist_instance. by destruct (instance_name event). Qed.

Lemma bestiary_persist db event p db' :
  parse event = Ok p → bestiary_ok db → persist db event p = Ok db' → bestiary_ok db'.
Proof.
  intros (_ & Hpk & _)%parse_identity Hok Hp%persist_parsed_writes.
  destruct (persist_instance_rows db event) as [Ei Er].
  assert (bestiary_ok (persist_instance db event)) as Hok'.
  { destruct (bestiary_upsert db (ev_pubkey event) (instance_name event) (as_i64 (ev_created_at event)) Hok) as [Hk Hq].
    split; rewrite Ei, ?Er; [done|]. intros k r Hr. apply (Hq k r Hr). }
  assert (instances db' = instances (persist_instance db event)) as Ei' by (by inversion Hp).
  split; rewrite Ei'; [apply Hok'|].
  assert (rates db' = rates (persist_instance db event) ∨ ∃ v, p = PRates v ∧ rates db' =
    put (ParseRates.rs_event_id v) (Some (RepoRates.rate_row v)) (rates (persist_instance db event))) as [-> | (v & -> & ->)]
    by (inversion Hp; subst; cbn; eauto).
  - apply Hok'.
  - cbn. intros k r. rewrite insert_or_ignore_lookup. destruct (rates (persist_instance db event) !! k) as [r'|] eqn:E.
    + intros [= <-]. by apply (ok_quoting _ Hok' k).
    + case_decide; [|done]. intros [= <-]. cbn in Hpk |- *. rewrite Hpk, Ei. apply upsert_mono. by right.
Qed.

(** Ingest never archives a rate whose publisher the bestiary does not know. *)
Lemma effect_bestiary policy db event relay_url now outcome db' :
  effect policy db event relay_url now outcome db' → bestiary_ok db → bestiary_ok db'.
Proof.
  intros He IH.
  assert (∀ d, bestiary_ok d → bestiary_ok (advance d event relay_url now)) as Hadv by (by intros d [Hk Hq]).
  destruct He as [rejection _|rejection _ _ _|p _ _ _ _|p _ _ _ _ _|p db' _ _ Hp _ _ Hpers].
  - done.
  - unfold RepoEvents.insert_if_new. destruct (events db !! _); by destruct IH.
  - by apply Hadv, bestiary_upsert.
  - by apply Hadv.
  - apply Hadv. eapply bestiary_persist; [exact Hp| |exact Hpers]. by destruct IH.
Qed.
Lemma reachable_bestiary policy db : reachable policy db → bestiary_ok db.
Proof.
  induction 1 as [|db event relay_url now outcome db' _ IH (o & _ & He)%ingest_effect|db url source now _ [??]|
    db kind from now _ [??]]; [by split|by eapply effect_bestiary|by split|by split].
Qed.

(** A reading lists each instance once. *)
Lemma profiles_NoDup db scope : bestiary_ok db → NoDup (Instances.pf_pubkey <$> profiles db scope).
Proof.
  intros [Hk _]. unfold profiles. rewrite <- list_fmap_compose. rewrite order_by_Permutation.
  apply NoDup_fmap_filter, NoDup_rows. intros k k' r r' Hr Hr' E. cbn in E. by rewrite (Hk _ _ Hr), (Hk _ _ Hr') in E.
Qed.
End facts.
