(* ===== verification/LoadRates.v ===== *)
(** * Rate books and feeds

    [src/db/load/rates.rs]: the snapshots that can price a window, and what
    each instance of the bestiary quotes now. *)

From S2P Require Import Prelude F64 Event Parse Db RepoEvents StatsPrelude.
From S2P Require Import Pipeline PipelineFacts LoadInstances.
From S2P Require ParseRates RepoRates RepoInstances Rates Feeds.

#[local] Open Scope Z_scope.

Section query.
Context `{External}.

Definition snapshot_of (s : ParseRates.RateSnapshot) : Rates.Snapshot :=
  Rates.mkSnapshot (ParseRates.rs_pubkey s) (ParseRates.rs_published_at s) (ParseRates.rs_rates s).

Definition book (db : Db) (from until : Z) : Sql Rates.RateBook :=
  stored ← RepoRates.published_between db (i64_sub from Rates.MAX_AGE_SECS) until;
  Ok (Rates.new (snapshot_of <$> stored)).

(** The publishers of rates that the bestiary does not list. *)
Definition orphans (latest : gmap string (Z * gmap string f64)) (known : list Instance) : list string :=
  filter (λ quoting, quoting ∉ inst_pubkey <$> known) (fst <$> btree_iter latest).

Definition feed (latest : gmap string (Z * gmap string f64)) (i : Instance) : Feeds.Feed :=
  let snapshot := latest !! inst_pubkey i in
  Feeds.mkFeed (instance_label (inst_pubkey i) (inst_name i)) (fst <$> snapshot) (default ∅ (snd <$> snapshot)).

Definition feeds (db : Db) (pubkey : option string) : Sql (list Feeds.Feed) :=
  stored ← RepoRates.latest_per_instance db pubkey;
  let latest : gmap string (Z * gmap string f64) :=
    foldl (λ m s, <[ParseRates.rs_pubkey s := (ParseRates.rs_published_at s, ParseRates.rs_rates s)]> m) ∅ stored in
  let known := RepoInstances.all db in
  if decide (orphans latest known = []) then
    Ok (feed latest <$> filter (λ i, is_none_or (λ wanted, bool_decide (inst_pubkey i = wanted)) pubkey = true) known)
  else Err (Protocol ("rate snapshots from " +:+ pretty (Z.of_nat (length (orphans latest known)))
    +:+ " pubkey(s) with no instance row (" +:+ join ", " (orphans latest known)
    +:+ "): a 30078 event is admitted only from a vouched instance (SPEC §8.1 step 4b), so this is a bypassed admission "
    +:+ "or a torn store — re-ingest rather than report")).
End query.

(** ** Loading what ingest stored *)

(** What is read back of the JSON the repository writes. *)
Class RatesJson `{External} := {
  rates_json_reads_back table :
    map_Forall (λ _ x, is_finite x = true) table → RepoRates.read_rates (RepoRates.rates_json table) = Some table;
}.

Section facts.
Context `{External} `{!ExternalLaws} `{!RatesJson}.
Implicit Types (db : Db).

Lemma rate_row_told db k r :
  archive_ok db → rates db !! k = Some r → ∃ e v, ParseRates.parse e = Ok v ∧ r = RepoRates.rate_row v.
Proof.
  intros Hok. rewrite (ok_rates db Hok k). intros (e & _ & Hd)%bind_Some. unfold derive_rates in Hd.
  destruct (parse e) as [[v|v|v|v|v|v]|] eqn:Ep; try done. apply (parse_Ok e (PRates v)) in Ep. injection Hd as <-. by exists e, v.
Qed.

Lemma rate_entries_finite table entries table' :
  map_Forall (λ _ x, is_finite x = true) table → ParseRates.rate_entries table entries = Ok table' →
  map_Forall (λ _ x, is_finite x = true) table'.
Proof.
  revert table. induction entries as [|[code price] entries IH]; intros table Ht; cbn [ParseRates.rate_entries].
  - by intros [= <-].
  - intros (t & He & Hrest)%bind_Ok. apply (IH t); [|done]. unfold ParseRates.rate_entry in He.
    apply bind_Ok in He as (x & Hx%ok_or_Ok & (c & _ & [= <-])%bind_Ok). apply map_Forall_insert_2; [|done].
    destruct price; try done. case_match eqn:E; [|done]. injection Hx as ->. by apply andb_true_iff in E as [? _].
Qed.
Lemma parse_rates_finite e v : ParseRates.parse e = Ok v → map_Forall (λ _ x, is_finite x = true) (ParseRates.rs_rates v).
Proof.
  unfold ParseRates.parse. intros (? & _ & (d & _ & Hp)%bind_Ok)%bind_Ok. case_decide; [done|].
  repeat (apply bind_Ok in Hp as (? & ? & Hp)). injection Hp as <-. cbn.
  match goal with Hc : ParseRates.parse_content _ = Ok _ |- _ => rename Hc into Hcontent end.
  unfold ParseRates.parse_content in Hcontent. repeat (apply bind_Ok in Hcontent as (? & ? & Hcontent)).
  case_decide; [done|]. injection Hcontent as <-. eapply rate_entries_finite; [|done]. apply map_Forall_empty.
Qed.

Lemma rate_row_loads db k r :
  archive_ok db → rates db !! k = Some r →
  ∃ v, RepoRates.into_snapshot r = Ok v ∧ ParseRates.rs_pubkey v = rr_pubkey r.
Proof.
  intros Hok Hr. destruct (rate_row_told db k r Hok Hr) as (e & v & Hv & ->). exists v. split; [|done].
  unfold RepoRates.into_snapshot. cbn. rewrite rates_json_reads_back by (by eapply parse_rates_finite). by destruct v.
Qed.
Lemma rate_rows_load db l :
  archive_ok db → (∀ r, r ∈ l → ∃ k, rates db !! k = Some r) →
  ∃ vs, collect (RepoRates.into_snapshot <$> l) = Ok vs ∧
    ∀ v, v ∈ vs → ∃ r k, rates db !! k = Some r ∧ ParseRates.rs_pubkey v = rr_pubkey r.
Proof.
  intros Hok Hl. destruct (collect_total RepoRates.into_snapshot l) as (vs & Hvs & Hall).
  { intros r [k Hk]%Hl. destruct (rate_row_loads db k r Hok Hk) as (v & Hv & _). by exists v. }
  exists vs. split; [done|]. intros v [i Hi]%list_elem_of_lookup.
  destruct (Forall2_lookup_r _ _ _ _ _ Hall Hi) as (r & Hr%list_elem_of_lookup_2 & Hv). destruct (Hl r Hr) as [k Hk].
  destruct (rate_row_loads db k r Hok Hk) as (v' & Hv' & E). exists r, k. split; [done|]. congruence.
Qed.

Lemma book_loads db from until : archive_ok db → ∃ b, book db from until = Ok b.
Proof.
  intros Hok. unfold book, RepoRates.published_between. set (l := order_by _ _).
  destruct (rate_rows_load db l Hok) as (vs & -> & _); [|by eexists].
  intros r [_ Hr%elem_of_rows]%elem_of_order_by%list_elem_of_filter. done.
Qed.

(** A report on the feeds of what ingest stored names no orphan: whoever
    quoted is in the bestiary. *)
Lemma feeds_load db pubkey : archive_ok db → bestiary_ok db → ∃ l, feeds db pubkey = Ok l.
Proof.
  intros Hok Hb. unfold feeds, RepoRates.latest_per_instance. set (ranked := omap _ _).
  assert (∀ re, re ∈ ranked → ∃ k, rates db !! k = Some re.1) as Hranked.
  { intros re (p & _ & [Hre _]%first_by_Some)%list_elem_of_omap. apply list_elem_of_filter in Hre as [_ Hre].
    unfold RepoRates.joined in Hre. apply list_elem_of_bind in Hre as (r & Hre & [_ Hr]%list_elem_of_filter).
    destruct (events db !! _); [|by apply elem_of_nil in Hre]. apply list_elem_of_singleton in Hre as ->. by apply elem_of_rows in Hr. }
  assert (∃ vs, collect ((λ re, RepoRates.into_snapshot re.1) <$> ranked) = Ok vs ∧
    ∀ v, v ∈ vs → ∃ r k, rates db !! k = Some r ∧ ParseRates.rs_pubkey v = rr_pubkey r) as (vs & -> & Hvs).
  { destruct (rate_rows_load db (fst <$> ranked) Hok) as (vs & Hc & Hvs).
    - intros r (re & -> & Hre)%list_elem_of_fmap. by apply Hranked.
    - exists vs. split; [|done]. rewrite <- list_fmap_compose in Hc. exact Hc. }
  cbn [mbind Result_bind]. set (latest := foldl _ _ vs).
  rewrite decide_True; [by eexists|]. unfold orphans. apply list_eq_nil. intros q [Hq Hin]%list_elem_of_filter. apply Hq.
  assert (is_Some (latest !! q)) as [snap Hsnap].
  { apply list_elem_of_fmap in Hin as ([q' s] & -> & Hin). apply elem_of_btree_iter in Hin. by exists s. }
  assert (∃ v, v ∈ vs ∧ ParseRates.rs_pubkey v = q) as (v & Hv & <-).
  { revert Hsnap. unfold latest. clear. induction vs as [|v vs IH] using rev_ind; [done|]. rewrite foldl_app. cbn.
    intros [[<- _] | [_ Hs]]%lookup_insert_Some; [exists v; split; [set_solver|done]|].
    destruct (IH Hs) as (v' & ? & ?). exists v'. split; [set_solver|done]. }
  destruct (Hvs v Hv) as (r & k & Hr & ->). destruct (ok_quoting db Hb k r Hr) as [i Hi].
  apply list_elem_of_fmap. exists i. split; [symmetry; by eapply ok_instances|].
  unfold RepoInstances.all. apply elem_of_order_by, elem_of_rows. by eexists.
Qed.
End facts.

(** ** The demo instance reads back *)

Lemma number_members_table l t :
  RepoRates.number_members ((λ '(code, x), (code, JNumber x)) <$> l) t = Some (foldl (λ t '(code, x), <[code := x]> t) t l).
Proof. revert t. induction l as [|[code x] l IH]; intros t; [done|]. cbn. apply IH. Qed.
Lemma btree_iter_insert_all {V} (m : gmap string V) : foldl (λ t '(code, x), <[code := x]> t) ∅ (btree_iter m) = m.
Proof.
  assert (∀ l (t : gmap string V) k, NoDup l.*1 → foldl (λ t '(code, x), <[code := x]> t) t l !! k =
    match (list_to_map l : gmap string V) !! k with Some v => Some v | None => t !! k end) as Hfold.
  { induction l as [|[a v] l IH]; intros t k; [done|]. rewrite fmap_cons. intros [Ha Hl]%NoDup_cons. cbn [foldl].
    rewrite IH by done. rewrite list_to_map_cons. destruct (decide (a = k)) as [-> | Hne].
    - rewrite !lookup_insert_eq. apply not_elem_of_list_to_map_1 in Ha. cbn in Ha. by rewrite Ha.
    - by rewrite !lookup_insert_ne. }
  assert (NoDup (btree_iter m).*1) as Hnd by (rewrite btree_iter_Permutation; apply NoDup_fst_map_to_list).
  apply map_eq. intros k. rewrite Hfold by done.
  rewrite (list_to_map_proper _ _ Hnd (btree_iter_Permutation m)), list_to_map_to_list. by destruct (m !! k).
Qed.

#[export] Instance demo_rates_json : @RatesJson Demo.demo.
Proof.
  constructor. intros table _. unfold RepoRates.read_rates, RepoRates.rates_json. cbn -[btree_iter].
  unfold Demo.demo_json_parse, Demo.demo_json_print, Demo.json_text. rewrite Demo.unbits_bits. cbn -[btree_iter].
  rewrite decode_encode. cbn -[btree_iter]. unfold Demo.json_table.
  assert (Demo.numbers ((λ '(code, x), (code, JNumber x)) <$> btree_iter table) = btree_iter table) as ->.
  { generalize (btree_iter table). intros l. induction l as [|[c x] l IH]; [done|]. cbn. by rewrite IH. }
  rewrite number_members_table. f_equal. apply btree_iter_insert_all.
Qed.
