(* ===== verification/Growth.v ===== *)
(** * How an archive grows

    What a backfill or a sync does to an archive, whatever its policy: events
    ingested, relays and requests noted. An archive is sound when every table
    is what its events say; growing, rebuilding and the cleanup of migration 5
    keep it so, and soundness is what the loaders need. *)

From S2P Require Import Prelude F64 Event Parse Db Pipeline PipelineFacts Rebuild LoadInstances.
From S2P Require RepoEvents RepoInstances RepoRelays ParseInfo ParseRelayList ParseRates RepoRates RepoDevFees Heartbeats.

#[local] Open Scope Z_scope.

Section growth.
Context `{External}.

Lemma grows_upserts policy source now db urls :
  grows policy db (foldl (λ db url, RepoRelays.Relays.upsert db url source now) db urls).
Proof.
  revert db. induction urls as [|url urls IH]; intros db; [constructor|]. cbn. etransitivity; [|apply IH]. apply grows_relay. constructor.
Qed.
Lemma grows_requests policy from now db kinds :
  grows policy db (foldl (λ db kind, RepoRelays.IndexedKinds.record db kind from now) db kinds).
Proof.
  revert db. induction kinds as [|kind kinds IH]; intros db; [constructor|]. cbn. etransitivity; [|apply IH]. apply grows_requested. constructor.
Qed.
End growth.

(** ** Soundness *)

Section sound.
Context `{External} `{!ExternalLaws}.

Record sound (db : Db) : Prop := { so_archive : archive_ok db; so_bestiary : bestiary_ok db }.

Lemma sound_empty : sound empty_db.
Proof. split; [apply archive_ok_empty|by split]. Qed.
Lemma reachable_sound policy db : reachable policy db → sound db.
Proof. intros Hr. split; [by eapply reachable_ok|by eapply reachable_bestiary]. Qed.
Lemma grows_sound policy db db' : grows policy db db' → sound db → sound db'.
Proof.
  induction 1 as [|db1 event relay_url now outcome db2 _ IH (o & _ & He)%ingest_effect|db1 url source now _ IH|db1 kind from now _ IH];
    [done|..]; intros [Ha [Hk Hq]]%IH; split; try by split.
  - by eapply effect_ok.
  - by eapply effect_bestiary.
  - by eapply archive_ok_core, Ha; destruct db1.
  - by eapply archive_ok_core, Ha; destruct db1.
Qed.

(** *** A rebuild *)

Lemma replay_bestiary db event o db' :
  replay db event = (Ok o, db') → (∀ k i, instances db !! k = Some i → inst_pubkey i = k) →
  (∀ k i, instances db' !! k = Some i → inst_pubkey i = k) ∧
  (∀ k, is_Some (instances db !! k) → is_Some (instances db' !! k)) ∧
  ∀ p, parse event = Ok p → is_Some (instances db' !! ev_pubkey event).
Proof.
  unfold replay, transaction. destruct (parse event) as [p|r]; [|by intros [= <- <-]].
  destruct (persist db event p) as [db1|e] eqn:Ep; cbn; [|done]. intros [= <- <-] Hk.
  apply persist_parsed_writes in Ep. destruct (persist_instance_rows db event) as [Ei _].
  assert (instances db1 = instances (persist_instance db event)) as -> by (by inversion Ep). rewrite Ei. split_and!.
  - by apply upsert_keyed.
  - intros k Hs. apply upsert_mono. by left.
  - intros _ _. apply upsert_mono. by right.
Qed.
Lemma replay_all_bestiary db records rb rb' db' :
  replay_all db records rb = (Ok rb', db') → (∀ k i, instances db !! k = Some i → inst_pubkey i = k) →
  (∀ k i, instances db' !! k = Some i → inst_pubkey i = k) ∧
  (∀ k, is_Some (instances db !! k) → is_Some (instances db' !! k)) ∧
  ∀ r e p, r ∈ records → from_json (er_raw_json r) = Some e → parse e = Ok p → is_Some (instances db' !! ev_pubkey e).
Proof.
  revert db rb. induction records as [|r records IH]; intros db rb Hr Hk.
  { injection Hr as <- <-. split_and!; [done|done|]. by intros r e p ?%elem_of_nil. }
  cbn in Hr. destruct (from_json (er_raw_json r)) as [event|] eqn:Ej.
  2: { destruct (IH _ _ Hr Hk) as (Hk' & Hm & Hin). split_and!; [done|done|].
    intros r' e p [-> | Hin']%elem_of_cons He Hp; [congruence|by eapply Hin]. }
  destruct (replay db event) as [[o|e] db1] eqn:Erp; [|done].
  destruct (replay_bestiary _ _ _ _ Erp Hk) as (Hk1 & Hm1 & Hin1).
  assert (∃ rb1, replay_all db1 records rb1 = (Ok rb', db')) as [rb1 Hr1] by (destruct o; by eexists).
  destruct (IH _ _ Hr1 Hk1) as (Hk' & Hm & Hin). split_and!; [done|by auto|].
  intros r' e p [-> | Hin']%elem_of_cons He Hp; [|by eapply Hin]. apply Hm. assert (event = e) as <- by congruence. by eapply Hin1.
Qed.
Lemma rebuild_sound db from_raw :
  sound db → ∃ rb db', rebuild db from_raw = (Ok rb, db') ∧ core db' = core db ∧ sound db'.
Proof.
  intros [Hok Hb]. destruct (rebuild_core db from_raw Hok) as (rb & db' & Hrb & Hcore & _ & _ & _ & db1 & rb1 & Hreplay & Hinst).
  exists rb, db'. split_and!; [done..|]. assert (archive_ok db') as Hok' by (by eapply archive_ok_core).
  split; [done|]. set (db0 := clear_projections (clear_derived from_raw db)) in *.
  destruct (replay_all_bestiary _ _ _ _ _ Hreplay) as (Hk & _ & Hin).
  { intros k i. assert (instances db0 = ∅) as -> by (unfold db0; by destruct from_raw). by rewrite lookup_empty. }
  split; rewrite Hinst; [done|]. intros k r Hr.
  rewrite (ok_rates _ Hok' k) in Hr. apply bind_Some in Hr as (e & He & Hd). unfold archived_event in He.
  apply bind_Some in He as (record & Hrec & Hj). unfold derive_rates in Hd.
  destruct (parse e) as [p|] eqn:Ep; [|done].
  assert (is_Some (instances db1 !! ev_pubkey e)) as Hs.
  { eapply Hin; [|exact Hj|exact Ep]. apply elem_of_order_by, elem_of_rows. exists k. rewrite <- Hrec.
    assert (events db0 = events db) as -> by (unfold db0; by destruct from_raw). by rewrite (f_equal events Hcore : events db' = events db). }
  destruct p as [v|v|v|v|v|v]; try done. injection Hd as <-. cbn. apply (parse_identity e (PRates v)) in Ep as (_ & Hpk & _).
  cbn in Hpk. by rewrite Hpk.
Qed.
End sound.

(** ** What upgrading an archive drops

    [migrations/0005_heartbeat_retention.sql]: the rule ingest now applies to
    heartbeats, applied once to what was archived before there was one. *)

Module Retention.
#[local] Existing Instance Heartbeats.tag_le_dec.
Section retention.
Context `{External}.
Implicit Types (db : Db).

Definition KINDS : list Z := [ParseRelayList.KIND; ParseInfo.KIND].
Definition announcements db : list EventRecord := filter (λ r, er_kind r ∈ KINDS) (rows (events db)).

(** The content, and [group_concat] over the sorted tags: [NULL] when there
    are none, and [NULL] equals nothing. *)
Definition said (r : EventRecord) : option (string * list (list string)) :=
  event ← from_json (er_raw_json r);
  if decide (ev_tags event = []) then None else Some (ev_content event, merge_sort Heartbeats.tag_le (ev_tags event)).

(** [PARTITION BY pubkey, kind, d_tag ORDER BY created_at, id], and [LAG]. *)
Definition partition (r : EventRecord) : string * Z * option string := (er_pubkey r, er_kind r, er_d_tag r).
Definition record_oldest (r : EventRecord) : Z * string := (er_created_at r, er_id r).
Definition before (l : list EventRecord) (r : EventRecord) : list EventRecord :=
  filter (λ r', partition r' = partition r ∧ er_id r' ≠ er_id r ∧ by_key record_oldest r' r) l.
Definition lag (l : list EventRecord) (r : EventRecord) : option EventRecord := last (order_by record_oldest (before l r)).
Definition repeats (l : list EventRecord) (r : EventRecord) : Prop := is_Some (said r) ∧ (lag l r ≫= said) = said r.
#[export] Instance repeats_dec l r : Decision (repeats l r).
Proof. unfold repeats. apply _. Defined.

(** [published_at - (published_at % 3600)], truncating as SQLite does, and a
    [ROW_NUMBER] past the first. *)
Definition hour_of (published_at : Z) : Z := published_at - Z.rem published_at Heartbeats.RATES_BUCKET_SECS.
Definition rate_oldest (r : RateRow) : Z * string := (rr_published_at r, rr_event_id r).
Definition same_hour (r r' : RateRow) : Prop :=
  rr_pubkey r = rr_pubkey r' ∧ hour_of (rr_published_at r) = hour_of (rr_published_at r').
Definition surplus (l : list RateRow) (r : RateRow) : Prop :=
  Exists (λ r', same_hour r' r ∧ rr_event_id r' ≠ rr_event_id r ∧ by_key rate_oldest r' r) l.
#[export] Instance same_hour_dec r r' : Decision (same_hour r r').
Proof. unfold same_hour. apply _. Defined.
#[export] Instance surplus_dec l r : Decision (surplus l r).
Proof. unfold surplus. apply _. Defined.

Definition redundant_heartbeats db : gset string :=
  list_to_set (er_id <$> filter (repeats (announcements db)) (announcements db)) ∪
  list_to_set (rr_event_id <$> filter (surplus (rows (rates db))) (rows (rates db))).

Definition without {R} (ids : gset string) (t : gmap string R) : gmap string R := filter (λ '(id, _), id ∉ ids) t.

(** The three deletions; an event another table refers to cannot go. *)
Definition retain db : Sql Db :=
  let ids := redundant_heartbeats db in
  if decide (∀ id, id ∈ ids → order_versions db !! id = None ∧ dev_fees db !! id = None ∧
      dispute_versions db !! id = None) then
    Ok (set_events (without ids) (set_rates (without ids) (set_instance_info (without ids) db)))
  else Err (ForeignKey "events").
End retention.

(** *** What it keeps *)

Lemma sorted_lookup {A} (R : relation A) l i j x y :
  StronglySorted R l → (i < j)%nat → l !! i = Some x → l !! j = Some y → R x y.
Proof.
  intros Hs. revert i j. induction Hs as [|z l _ IH Hall]; [done|]. intros [|i] [|j] Hij Hi Hj; [lia| |lia|].
  - injection Hi as ->. by eapply Forall_lookup_1.
  - by eapply IH; [apply Nat.succ_lt_mono, Hij|..].
Qed.

Section chains.
Context `{External}.
Context (l : list EventRecord) (Hid : ∀ x y, x ∈ l → y ∈ l → er_id x = er_id y → x = y).
#[local] Notation "x ⪯ y" := (by_key record_oldest x y) (at level 70).

Lemma oldest_antisymm x y : x ∈ l → y ∈ l → x ⪯ y → y ⪯ x → x = y.
Proof. intros Hx Hy Hxy Hyx. pose proof (key_le_antisymm _ _ Hxy Hyx) as [= _ E]. by apply Hid. Qed.
Lemma elem_of_before x r : x ∈ before l r ↔ x ∈ l ∧ partition x = partition r ∧ er_id x ≠ er_id r ∧ x ⪯ r.
Proof. unfold before. rewrite list_elem_of_filter. tauto. Qed.
Lemma lag_Some r p : lag l r = Some p →
  p ∈ l ∧ partition p = partition r ∧ p ≠ r ∧ p ⪯ r ∧
  ∀ x, x ∈ l → r ∈ l → partition x = partition r → x ⪯ r → x = r ∨ x ⪯ p.
Proof.
  intros [Hp Hmax]%last_by_Some. apply elem_of_before in Hp as (Hp & Hpart & Hne & Hle).
  split_and!; [done..|congruence|done|]. intros x Hx Hr Hpx Hxr. destruct (decide (er_id x = er_id r)) as [E|E].
  - left. by apply Hid.
  - right. by apply Hmax, elem_of_before.
Qed.

(** Going back from any announcement, the first to say what it says is one
    that repeats nothing. *)
Lemma said_first r : r ∈ l → ∃ r0, r0 ∈ l ∧ partition r0 = partition r ∧ r0 ⪯ r ∧ ¬ repeats l r0 ∧
  ∀ x, x ∈ l → partition x = partition r → r0 ⪯ x → x ⪯ r → said x = said r.
Proof.
  intros Hr. pose proof Hr as [i Hi]%(elem_of_order_by record_oldest)%list_elem_of_lookup.
  revert r Hr Hi. induction (lt_wf i) as [i _ IH]. intros r Hr Hi.
  destruct (decide (repeats l r)) as [[Hs Hl]|Hn].
  2: { exists r. split_and!; [done|done|by destruct (by_key_total record_oldest r r)|done|].
    intros x Hx _ Hrx Hxr. f_equal. by apply oldest_antisymm. }
  destruct (lag l r) as [p|] eqn:E; [|by rewrite <- Hl in Hs; destruct Hs]. cbn in Hl.
  apply lag_Some in E as (Hp & Hpart & Hne & Hpr & Hmax).
  pose proof Hp as [j Hj]%(elem_of_order_by record_oldest)%list_elem_of_lookup.
  assert (j < i)%nat as Hji.
  { destruct (Nat.lt_trichotomy j i) as [?|[->|Hij]]; [done|by rewrite Hi in Hj; congruence|].
    destruct Hne. apply oldest_antisymm; [done..|].
    eapply sorted_lookup; [apply order_by_sorted|exact Hij|exact Hi|exact Hj]. }
  destruct (IH j Hji p Hp Hj) as (r0 & Hr0 & Hpart0 & Hle0 & Hn0 & Hsame). exists r0.
  split_and!; [done|congruence|by etrans|done|]. intros x Hx Hpx Hr0x Hxr.
  destruct (Hmax x Hx Hr Hpx Hxr) as [->|Hxp]; [done|]. rewrite <- Hl. by apply Hsame; [|congruence|..].
Qed.

(** The announcement in force at a moment. *)
Definition in_force (l : list EventRecord) (s : string * Z * option string) (t : Z) : option EventRecord :=
  last (order_by record_oldest (filter (λ r, partition r = s ∧ er_created_at r ≤ t) l)).

Lemma in_force_kept l' s t :
  (∀ x, x ∈ l' ↔ x ∈ l ∧ ¬ repeats l x) → said <$> in_force l' s t = said <$> in_force l s t.
Proof.
  intros Hl'. unfold in_force at 2. destruct (last _) as [r|] eqn:E.
  - apply last_by_Some in E as [[[<- Ht] Hr]%list_elem_of_filter Hmax].
    destruct (said_first r Hr) as (r0 & Hr0 & Hpart & Hle & Hn & Hsame).
    assert (er_created_at r0 ≤ t) as Ht0 by (destruct Hle as [?|[? _]]; cbn in *; lia).
    destruct (last_by_is_Some record_oldest (filter (λ x, partition x = partition r ∧ er_created_at x ≤ t) l') r0) as [r1 E1].
    { apply list_elem_of_filter. by rewrite Hl'. }
    unfold in_force. rewrite E1. cbn. f_equal. apply last_by_Some in E1 as [[[Hpart1 Ht1] Hr1]%list_elem_of_filter Hmax1].
    apply Hl' in Hr1 as Hr1'. apply Hsame; [tauto|done| |].
    + apply Hmax1, list_elem_of_filter. by rewrite Hl'.
    + apply Hmax, list_elem_of_filter. tauto.
  - unfold in_force. destruct (last (order_by _ (filter _ l'))) as [x|] eqn:E1; [|done].
    apply last_by_Some in E1 as [[Hx Hin%Hl']%list_elem_of_filter _].
    destruct (last_by_is_Some record_oldest (filter (λ r, partition r = s ∧ er_created_at r ≤ t) l) x) as [y Ey].
    { by apply list_elem_of_filter; split; [|apply Hin]. } congruence.
Qed.
End chains.

(** Once is enough: among what is kept nothing repeats. *)
Lemma kept_repeats_nothing `{External} l l' r :
  (∀ x y, x ∈ l → y ∈ l → er_id x = er_id y → x = y) → (∀ x, x ∈ l' ↔ x ∈ l ∧ ¬ repeats l x) → r ∈ l' → ¬ repeats l' r.
Proof.
  intros Hid Hl' [Hr Hn]%Hl' [Hs Hlag]. destruct (lag l' r) as [p'|] eqn:E; [|by rewrite <- Hlag in Hs; destruct Hs].
  assert (∀ x y, x ∈ l' → y ∈ l' → er_id x = er_id y → x = y) as Hid' by (intros x y [? _]%Hl' [? _]%Hl'; by apply Hid).
  apply lag_Some in E as ([Hp' _]%Hl' & Hpart' & Hne' & Hle' & Hmax'); [|done].
  destruct (last_by_is_Some record_oldest (before l r) p') as [p Ep].
  { apply elem_of_before. split_and!; [done..| |done]. intros E. by apply Hne', Hid. }
  pose proof Ep as (Hp & Hpart & Hne & Hle & Hmax)%lag_Some; [|done].
  destruct (said_first l Hid p Hp) as (r0 & Hr0 & Hpart0 & Hle0 & Hn0 & Hsame).
  apply Hn. split; [done|]. unfold lag. rewrite Ep. cbn. rewrite <- Hlag. cbn. symmetry. apply Hsame; [done|congruence| |].
  - destruct (Hmax' r0) as [->|?]; [by apply Hl'|by apply Hl'|congruence|by etrans| |done].
    exfalso. apply Hne. by apply (oldest_antisymm l Hid).
  - destruct (Hmax p' Hp' Hr Hpart' Hle') as [->|?]; done.
Qed.

Lemma lookup_without {R} ids (t : gmap string R) id :
  without ids t !! id = if decide (id ∈ ids) then None else t !! id.
Proof.
  unfold without. rewrite map_lookup_filter. destruct (t !! id) as [x|]; cbn; by repeat (case_decide || case_guard).
Qed.
Lemma elem_of_rows_without {R} ids (t : gmap string R) x :
  x ∈ rows (without ids t) ↔ ∃ id, t !! id = Some x ∧ id ∉ ids.
Proof.
  rewrite elem_of_rows. apply exist_proper. intros id. rewrite lookup_without. case_decide; [|naive_solver]. split; [intros ?; congruence|]. by intros [_ ?].
Qed.

Section upgrade.
Context `{External} `{!ExternalLaws}.
Implicit Types (db : Db).

Lemma archived_without ids evs id :
  archived_event (without ids evs) id = if decide (id ∈ ids) then None else archived_event evs id.
Proof. unfold archived_event. rewrite lookup_without. by case_decide. Qed.
Lemma derived_without {R} (derive : Event → option R) ids evs t :
  derived derive evs t → derived derive (without ids evs) (without ids t).
Proof. intros Hd id. rewrite archived_without, lookup_without. case_decide; [done|apply Hd]. Qed.
Lemma without_absent {R} ids (t : gmap string R) : (∀ id, id ∈ ids → t !! id = None) → without ids t = t.
Proof. intros Hn. apply map_eq. intros id. rewrite lookup_without. case_decide as Hi; [by rewrite Hn|done]. Qed.

Lemma event_of_kind db id (kinds : list Z) :
  archive_ok db → (∃ r, events db !! id = Some r ∧ er_kind r ∈ kinds) →
  ∃ e, archived_event (events db) id = Some e ∧ ev_kind e ∈ kinds.
Proof.
  intros Hok (r & Hr & Hk). destruct (ok_recorded _ Hok _ _ Hr) as (e & url & seen & -> & <-). exists e. split; [|done].
  unfold archived_event. rewrite Hr. apply record_raw.
Qed.
Lemma events_keyed db k r : archive_ok db → events db !! k = Some r → er_id r = k.
Proof. intros Hok Hr. by destruct (ok_recorded _ Hok _ _ Hr) as (e & url & seen & -> & <-). Qed.
Lemma announcements_keyed db x y :
  archive_ok db → x ∈ announcements db → y ∈ announcements db → er_id x = er_id y → x = y.
Proof.
  intros Hok [_ [kx Hx]%elem_of_rows]%list_elem_of_filter [_ [ky Hy]%elem_of_rows]%list_elem_of_filter.
  rewrite (events_keyed _ _ _ Hok Hx), (events_keyed _ _ _ Hok Hy). intros <-. congruence.
Qed.
Lemma rates_event db k r : archive_ok db → rates db !! k = Some r →
  rr_event_id r = k ∧ ∃ e, archived_event (events db) k = Some e ∧ ev_kind e = ParseRates.KIND.
Proof.
  intros Hok Hr. pose proof Hr as Hr'. rewrite (ok_rates _ Hok) in Hr'. apply bind_Some in Hr' as (e & He & Hd).
  unfold derive_rates in Hd. destruct (parse e) as [[]|] eqn:Ep; try done. injection Hd as <-.
  pose proof (parse_identity _ _ Ep) as (Hi & _ & Hk). cbn in Hi, Hk. split; [|by exists e].
  cbn. rewrite Hi. unfold archived_event in He. apply bind_Some in He as (row & Hrow & Hj).
  destruct (ok_recorded _ Hok _ _ Hrow) as (e' & url & seen & -> & <-). rewrite record_raw in Hj. congruence.
Qed.
Lemma rates_keyed db x y : archive_ok db → x ∈ rows (rates db) → y ∈ rows (rates db) → rr_event_id x = rr_event_id y → x = y.
Proof.
  intros Hok [kx Hx]%elem_of_rows [ky Hy]%elem_of_rows.
  destruct (rates_event _ _ _ Hok Hx) as [-> _], (rates_event _ _ _ Hok Hy) as [-> _]. intros <-. congruence.
Qed.

Lemma elem_of_redundant db id : id ∈ redundant_heartbeats db ↔
  (∃ r, id = er_id r ∧ r ∈ announcements db ∧ repeats (announcements db) r) ∨
  (∃ r, id = rr_event_id r ∧ r ∈ rows (rates db) ∧ surplus (rows (rates db)) r).
Proof.
  unfold redundant_heartbeats. rewrite elem_of_union, !elem_of_list_to_set, !list_elem_of_fmap.
  split; (intros [(r & E & Hr) | (r & E & Hr)]; [left|right]; exists r; (split; [exact E|]));
    by (apply list_elem_of_filter in Hr as []; split) || (apply list_elem_of_filter; destruct Hr; by split).
Qed.

(** Only heartbeats are dropped. *)
Lemma redundant_kind db id : archive_ok db → id ∈ redundant_heartbeats db →
  ∃ e, archived_event (events db) id = Some e ∧ ev_kind e ∈ ParseRates.KIND :: KINDS.
Proof.
  intros Hok [(r & -> & [Hk [k Hr]%elem_of_rows]%list_elem_of_filter & _) | (r & -> & [k Hr]%elem_of_rows & _)]%elem_of_redundant.
  - rewrite (events_keyed _ _ _ Hok Hr). apply event_of_kind; [done|]. exists r. split; [done|]. by apply list_elem_of_further.
  - destruct (rates_event _ _ _ Hok Hr) as (-> & e & He & Hk). exists e. split; [done|]. rewrite Hk. apply list_elem_of_here.
Qed.
Lemma not_fed {R} (derive : Event → option R) db t id :
  archive_ok db → derived derive (events db) t → id ∈ redundant_heartbeats db →
  (∀ e, ev_kind e ∈ ParseRates.KIND :: KINDS → derive e = None) → t !! id = None.
Proof.
  intros Hok Hd (e & He & Hk)%redundant_kind Hn; [|done]. rewrite (Hd id), He. by apply Hn.
Qed.
Lemma heartbeat_parses e p : ev_kind e ∈ ParseRates.KIND :: KINDS → parse e = Ok p →
  match p with PInfo _ | PRates _ | PRelayList _ => True | _ => False end.
Proof.
  intros Hk (_ & _ & Hp)%parse_identity. rewrite <- Hp in Hk.
  destruct p; try done; apply (bool_decide_eq_true_2 _) in Hk; vm_compute in Hk; discriminate.
Qed.
Lemma redundant_unreferenced db id : archive_ok db → id ∈ redundant_heartbeats db →
  order_versions db !! id = None ∧ dev_fees db !! id = None ∧ dispute_versions db !! id = None.
Proof.
  intros Hok Hid. split_and!.
  - apply (not_fed _ _ _ _ Hok (ok_order_versions _ Hok) Hid). intros e Hk. unfold derive_order.
    destruct (parse e) as [p|] eqn:Ep; [|done]. apply heartbeat_parses in Ep; [|done]. by destruct p.
  - assert (RepoDevFees.published (dev_fees db) !! id = None) as Hf.
    { apply (not_fed _ _ _ _ Hok (ok_dev_fees _ Hok) Hid). intros e Hk. unfold derive_fee.
      destruct (parse e) as [p|] eqn:Ep; [|done]. apply heartbeat_parses in Ep; [|done]. by destruct p. }
    unfold RepoDevFees.published in Hf. rewrite lookup_fmap in Hf. by destruct (dev_fees db !! id).
  - apply (not_fed _ _ _ _ Hok (ok_dispute_versions _ Hok) Hid). intros e Hk. unfold derive_dispute.
    destruct (parse e) as [p|] eqn:Ep; [|done]. apply heartbeat_parses in Ep; [|done]. by destruct p.
Qed.

Lemma retain_runs db (ids := redundant_heartbeats db) : archive_ok db →
  retain db = Ok (set_events (without ids) (set_rates (without ids) (set_instance_info (without ids) db))).
Proof. intros Hok. unfold retain. rewrite decide_True; [done|]. intros id Hid. by apply redundant_unreferenced. Qed.
Lemma retain_sound db db' : sound db → retain db = Ok db' → sound db'.
Proof.
  intros [Hok [Hk Hq]] Hr. rewrite retain_runs in Hr by done. injection Hr as <-. set (ids := redundant_heartbeats db).
  pose proof (λ id, redundant_unreferenced db id Hok) as Hout. fold ids in Hout.
  assert (∀ R (derive : Event → option R) t, derived derive (events db) t → (∀ id, id ∈ ids → t !! id = None) →
    derived derive (without ids (events db)) t) as Hkeep.
  { intros R derive t Hd Hn. rewrite <- (without_absent ids t Hn). by apply derived_without. }
  split; split; cbn.
  - intros k r. rewrite lookup_without. case_decide; [done|apply (ok_recorded _ Hok)].
  - apply Hkeep; [apply Hok|]. intros id Hid. by apply Hout.
  - apply Hkeep; [apply Hok|]. intros id Hid. by apply Hout.
  - apply Hkeep; [apply Hok|]. intros id Hid. unfold RepoDevFees.published. rewrite lookup_fmap.
    destruct (Hout id Hid) as (_ & -> & _). done.
  - apply derived_without, Hok.
  - apply derived_without, Hok.
  - eapply projected_same; [| |apply (ok_orders _ Hok)]; done.
  - eapply projected_same; [| |apply (ok_disputes _ Hok)]; done.
  - apply Hok.
  - done.
  - intros k r. rewrite lookup_without. case_decide; [done|apply Hq].
Qed.

Lemma announcements_kept db db' x : archive_ok db → retain db = Ok db' →
  x ∈ announcements db' ↔ x ∈ announcements db ∧ ¬ repeats (announcements db) x.
Proof.
  intros Hok Hr. rewrite retain_runs in Hr by done. injection Hr as <-. unfold announcements at 1.
  rewrite list_elem_of_filter. cbn [events set_events set_rates set_instance_info]. rewrite elem_of_rows_without. split.
  - intros (Hk & id & Hx & Hn). assert (x ∈ announcements db) as Hin by (apply list_elem_of_filter; split; [done|]; apply elem_of_rows; by exists id).
    split; [done|]. intros Hrep. apply Hn, elem_of_redundant. left. exists x. by rewrite (events_keyed _ _ _ Hok Hx).
  - intros [[Hk [id Hx]%elem_of_rows]%list_elem_of_filter Hn]. split; [done|]. exists id. split; [done|].
    intros [(r & -> & Hr & Hrep) | (r & -> & [k Hr]%elem_of_rows & _)]%elem_of_redundant.
    + apply Hn. assert (x = r) as ->; [|done]. apply (announcements_keyed db); [done| |done|].
      * apply list_elem_of_filter. split; [done|]. apply elem_of_rows. by eexists.
      * by apply (events_keyed db).
    + destruct (rates_event _ _ _ Hok Hr) as (E & e & He & Hke). rewrite E in Hx.
      destruct (event_of_kind db k KINDS Hok) as (e' & He' & Hke'); [by exists x|].
      rewrite He in He'. injection He' as <-. rewrite Hke in Hke'. by apply (bool_decide_eq_true_2 _) in Hke'.
Qed.
Lemma rates_kept db db' x : archive_ok db → retain db = Ok db' →
  x ∈ rows (rates db') ↔ x ∈ rows (rates db) ∧ ¬ surplus (rows (rates db)) x.
Proof.
  intros Hok Hr. rewrite retain_runs in Hr by done. injection Hr as <-.
  cbn [rates set_events set_rates set_instance_info]. rewrite elem_of_rows_without. split.
  - intros (id & Hx & Hn). assert (x ∈ rows (rates db)) as Hin by (apply elem_of_rows; by exists id).
    split; [done|]. intros Hs. apply Hn, elem_of_redundant. right. exists x.
    by destruct (rates_event _ _ _ Hok Hx) as [-> _].
  - intros [[id Hx]%elem_of_rows Hn]. exists id. split; [done|].
    intros [(r & -> & [Hk [k Hr]%elem_of_rows]%list_elem_of_filter & _) | (r & -> & Hr & Hs)]%elem_of_redundant.
    + rewrite (events_keyed _ _ _ Hok Hr) in Hx. destruct (rates_event _ _ _ Hok Hx) as (_ & e & He & Hke).
      destruct (event_of_kind db k KINDS Hok) as (e' & He' & Hke'); [by exists r|].
      rewrite He in He'. injection He' as <-. rewrite Hke in Hke'. by apply (bool_decide_eq_true_2 _) in Hke'.
    + apply Hn. assert (x = r) as ->; [|done]. apply (rates_keyed db); [done| |done|].
      * apply elem_of_rows. by eexists.
      * by destruct (rates_event _ _ _ Hok Hx) as [-> _].
Qed.

(** A publisher's first snapshot of an hour is never one too many. *)
Lemma first_of_hour db r : r ∈ rows (rates db) → archive_ok db →
  ∃ r', r' ∈ rows (rates db) ∧ ¬ surplus (rows (rates db)) r' ∧ same_hour r' r ∧ by_key rate_oldest r' r.
Proof.
  intros Hr Hok. set (hour := filter (λ x, same_hour x r) (rows (rates db))).
  assert (r ∈ hour) as Hin by (by apply list_elem_of_filter).
  destruct (first_by rate_oldest hour) as [r'|] eqn:E; [|apply first_by_None in E; rewrite E in Hin; by apply elem_of_nil in Hin].
  apply first_by_Some in E as [[[Hp Hh] Hr']%list_elem_of_filter Hmin]. exists r'. split_and!; [done| |done|by apply Hmin].
  intros (x & Hx & [Hpx Hhx] & Hne & Hle)%Exists_exists. assert (by_key rate_oldest r' x) as Hle'.
  { apply Hmin, list_elem_of_filter. split; [|done]. split; congruence. }
  pose proof (key_le_antisymm _ _ Hle Hle') as [= _ Eid]. done.
Qed.

(** C19: upgrading an archive drops repetition and nothing else. The cleanup
    never fails on a sound archive and leaves a sound one. No other table is
    touched and no other kind of event is lost; whatever the publisher,
    address and moment, the announcement in force says what it said before,
    and none that is left repeats the one before it; of a publisher's rates in
    one hour exactly one is left, and it is the first. *)
Theorem upgrade_keeps db : sound db → ∃ db', retain db = Ok db' ∧ sound db' ∧
  (∃ f g h, db' = set_events f (set_rates g (set_instance_info h db))) ∧
  (∀ k r, events db !! k = Some r → er_kind r ∉ ParseRates.KIND :: KINDS → events db' !! k = Some r) ∧
  (∀ stream t, said <$> in_force (announcements db') stream t = said <$> in_force (announcements db) stream t) ∧
  (∀ r, r ∈ announcements db' → ¬ repeats (announcements db') r) ∧
  (∀ r, r ∈ rows (rates db) → ∃ r', r' ∈ rows (rates db') ∧ same_hour r' r ∧ by_key rate_oldest r' r) ∧
  (∀ r r', r ∈ rows (rates db') → r' ∈ rows (rates db') → same_hour r r' → r = r').
Proof.
  intros Hs. pose proof (so_archive _ Hs) as Hok. pose proof (retain_runs db Hok) as Hr.
  eexists. split; [exact Hr|]. split; [by eapply retain_sound|].
  set (db' := set_events _ _) in *.
  pose proof (λ x, announcements_kept _ _ x Hok Hr) as Ha. pose proof (λ x, rates_kept _ _ x Hok Hr) as Hrates.
  split_and!.
  - by do 3 eexists.
  - intros k r Hk Hkind. cbn. rewrite lookup_without, decide_False; [done|].
    intros (e & He & Hke)%redundant_kind; [|done]. apply Hkind. unfold archived_event in He. rewrite Hk in He.
    destruct (ok_recorded _ Hok _ _ Hk) as (e' & url & seen & -> & _). cbn [mbind option_bind] in He.
    rewrite record_raw in He. by injection He as <-.
  - intros stream t. apply in_force_kept; [|done]. intros x y. by apply announcements_keyed.
  - intros r. eapply kept_repeats_nothing, Ha. intros x y. by apply announcements_keyed.
  - intros r (r' & ? & ? & ? & ?)%first_of_hour; [|done]. exists r'. by rewrite Hrates.
  - intros r r' [Hin Hn]%Hrates [Hin' Hn']%Hrates [Hp Hh]. destruct (decide (rr_event_id r = rr_event_id r')) as [E|E].
    { by apply (rates_keyed db). }
    exfalso. destruct (by_key_total rate_oldest r r') as [Hle|Hle].
    + apply Hn', Exists_exists. by exists r.
    + apply Hn, Exists_exists. exists r'. by split_and!; [|split|apply not_eq_sym|].
Qed.
End upgrade.

(** *** An archive from before the rule

    The newer of two like relay lists came first. *)
#[local] Existing Instances Demo.demo Demo.demo_laws.
Lemma both_sound : sound after_both.
Proof.
  assert (∀ db e, (run db e).1 = Ok Stored → reachable open_policy db → reachable open_policy (run db e).2) as Hstep.
  { intros db e He Hr. eapply reach_step; [exact Hr|]. by apply run_outcome. }
  apply (reachable_sound open_policy). unfold after_both, after_newer, after_order.
  repeat (apply Hstep; [vm_compute; reflexivity|]). constructor.
Qed.
Theorem upgrade_keeps_witness :
  length (announcements after_both) = 2%nat ∧
  ∃ db', retain after_both = Ok db' ∧ sound db' ∧ is_Some (events db' !! "e1") ∧ events db' !! "r2" = None.
Proof.
  split; [vm_compute; reflexivity|].
  destruct (upgrade_keeps after_both both_sound) as (db' & Hr & Hs & _ & Hk & _). exists db'. split; [exact Hr|]. split; [exact Hs|].
  assert (match retain after_both with Ok d => bool_decide (events d !! "r2" = None) | _ => false end = true) as Hgone
    by (vm_compute; reflexivity).
  rewrite Hr in Hgone. split; [|by apply bool_decide_eq_true in Hgone].
  assert (match events after_both !! "e1" with
          | Some r => negb (bool_decide (er_kind r ∈ ParseRates.KIND :: KINDS)) | None => false end = true) as Hkind
    by (vm_compute; reflexivity).
  destruct (events after_both !! "e1") as [r|] eqn:E; [|discriminate Hkind].
  exists r. apply Hk; [exact E|]. by apply negb_true_iff, bool_decide_eq_false in Hkind.
Defined.
End Retention.
