(* ===== verification/Series.v ===== *)
(** * One metric over time

    [crates/stats/src/series.rs]: a metric looked up by name in its family's
    block, once per bucket, with the change against the bucket before. *)

From S2P Require Import Prelude F64 StatsPrelude Calendar Window Metric.
From S2P Require Text Activity Volume DevFees Disputes Rates Converted Implied Instances.

#[local] Open Scope Z_scope.

(** ** Text *)

Fixpoint ends_with (p s : string) : bool :=
  bool_decide (s = p) || match s with EmptyString => false | String _ s => ends_with p s end.
(** [str::contains]. *)
Fixpoint contains_str (p s : string) : bool :=
  starts_with p s || match s with EmptyString => false | String _ s => contains_str p s end.

(** ** The data *)

Record Priced : Type := mkPriced { pr_book : Rates.RateBook; pr_code : string }.
Record Assumption : Type := mkAssumption { per_instance : gmap string f64; default_share : f64 }.
Definition share (a : Assumption) (pubkey : string) : f64 := default (default_share a) (per_instance a !! pubkey).

Record Data : Type := mkData {
  sd_orders : list Activity.Order;
  sd_fees : DevFees.DevFeeData;
  sd_disputes : Disputes.DisputeData;
  sd_profiles : list Instances.Profile;
  sd_dev_fee_pct : option Assumption;
  sd_priced : option Priced;
}.
(** [Data::default()]. *)
Definition no_data : Data := mkData [] DevFees.no_fees Disputes.no_data [] None None.

Inductive Family : Type := Activity | Volume | DevFees | Disputes.
#[export] Instance family_eq_dec : EqDecision Family.
Proof. solve_decision. Defined.
Definition families : list Family := [Activity; Volume; DevFees; Disputes].
Definition prefix (f : Family) : string :=
  match f with Activity => "orders" | Volume => "volume" | DevFees => "dev_fees" | Disputes => "disputes" end.

(** [Family::of]. *)
Definition family_of (metric : string) : option Family :=
  snd <$> list_find (λ family, starts_with (prefix family +:+ ".") metric) families.

(** [Family::metrics]: the whole block over a window. *)
Definition metrics (f : Family) (data : Data) (window : Window) (now : Z) : list Metric :=
  match f with
  | Activity => Activity.metrics "orders" (Activity.summarise (sd_orders data) window now)
  | Volume =>
      Volume.metrics "volume" (Volume.summarise (sd_orders data) window)
      ++ match sd_priced data with
         | Some priced =>
             Converted.metrics "volume" (Converted.convert (sd_orders data) window (pr_book priced) (pr_code priced))
         | None => []
         end
  | DevFees =>
      DevFees.metrics "dev_fees" (DevFees.summarise (sd_fees data) window)
      ++ match sd_dev_fee_pct data with
         | Some assumption => Implied.metrics "dev_fees" (Implied.summarise (sd_fees data) window (share assumption))
         | None => []
         end
  | Disputes => Disputes.metrics "disputes" (Disputes.summarise (sd_disputes data) window now)
  end.

Inductive Split : Type := ByInstance | ByKind | ByFiat.
Definition split_as_str (s : Split) : string :=
  match s with ByInstance => "instance" | ByKind => "kind" | ByFiat => "fiat" end.
Definition supports (f : Family) (split : Split) : bool :=
  match split with
  | ByInstance => true
  | ByKind | ByFiat => match f with Activity | Volume => true | DevFees | Disputes => false end
  end.

Inductive SeriesError : Type :=
| UnknownMetric (metric : string)
| AboutNow (metric : string)
| AlreadyADelta (metric : string)
| CannotSplit (metric : string) (split : Split)
| TooManyBuckets.

Definition MAX_BUCKETS : Z := 800.

(** The currency a [volume.in.<CODE>.…] metric is priced in. *)
Definition is_ascii_uppercase (a : ascii) : bool :=
  bool_decide (65 ≤ Z.of_N (N_of_ascii a) ≤ 90).
Definition priced_in (metric : string) : option string :=
  rest ← strip_prefix (prefix Volume +:+ ".in.") metric;
  code ← head (split_char "." rest);
  if bool_decide (String.length code = 3%nat) && forall_char is_ascii_uppercase code then Some code else None.

(** ** What can be plotted *)

Definition plottable (name : string) : Result SeriesError () :=
  if ends_with "_now" name then Err (AboutNow name)
  else if contains_str ".open." name then Err (AboutNow name)
  else if ends_with "_delta" name then Err (AlreadyADelta name)
  else Ok ().
Definition is_plottable (name : string) : bool := match plottable name with Ok _ => true | Err _ => false end.

Definition catalogue_of (f : Family) (data : Data) (window : Window) (now : Z) : list string :=
  filter (λ name, is_plottable name) (m_name <$> metrics f data window now).
Definition catalogue (data : Data) (window : Window) (now : Z) : list string :=
  families ≫= λ f, catalogue_of f data window now.
Definition block_of (f : Family) (data : Data) (window : Window) (now : Z) : list Metric := metrics f data window now.

Definition named (name : string) (l : list Metric) : option Metric := find_map (λ m, if decide (m_name m = name) then Some m else None) l.
Definition measure (data : Data) (window : Window) (now : Z) (metric : string) : option Metric :=
  f ← family_of metric; named metric (metrics f data window now).
Definition value (data : Data) (window : Window) (now : Z) (metric : string) : option Value :=
  m_value <$> measure data window now metric.

(** ** Changes *)

Definition f64_abs (x : f64) : f64 := SpecFloat.SFabs x.

Definition magnitude (v : Value) : option f64 :=
  match v with
  | Count n | Sats n | Seconds n => Some (f64_of_Z n)
  | Ratio r => Some r
  | Fiat amount _ => Some amount
  | Text _ | Missing => None
  end.
Definition delta (previous current : Value) : Value :=
  match magnitude previous, magnitude current with
  | Some before, Some after =>
      match previous, current with
      | Ratio _, Ratio _ => ratio (f64_sub after before)
      | _, _ =>
          if f64_eqb before (f64_of_Z 0) then Missing
          else ratio (f64_div (f64_sub after before) (f64_abs before))
      end
  | _, _ => Missing
  end.

(** [qualified_as]: inferred when a source is, with the first reason given. *)
Definition qualified_as (name : string) (v : Value) (sources : list (option Metric)) : Metric :=
  match find_map (λ source, m ← source; if is_inferred m then m_error m else None) sources with
  | Some error => inferred name v error
  | None => observed name v
  end.

(** ** The report *)

Definition of_orders (data : Data) (orders : list Activity.Order) : Data :=
  mkData orders DevFees.no_fees Disputes.no_data [] None (sd_priced data).
Definition of_fees (data : Data) (fees : DevFees.DevFeeData) : Data :=
  mkData [] fees Disputes.no_data [] (sd_dev_fee_pct data) None.
Definition of_disputes (disputes : Disputes.DisputeData) : Data :=
  mkData [] DevFees.no_fees disputes [] None None.
Definition split_data (data : Data) (f : Family) (split : Split) : gmap string Data :=
  match f with
  | Activity | Volume =>
      let dimension := match split with
                       | ByInstance => Activity.ByInstance | ByKind => Activity.ByKind | ByFiat => Activity.ByFiat
                       end in
      of_orders data <$> Activity.slice (sd_orders data) dimension
  | DevFees => of_fees data <$> DevFees.by_instance (sd_fees data)
  | Disputes => of_disputes <$> Disputes.by_instance (sd_disputes data)
  end.

(** [plot]: two rows per bucket, [previous] carried along. *)
Definition bucket_rows (prefix_ key : string) (found previous : option Metric) : list Metric :=
  let current := default Missing (m_value <$> found) in
  let change := match previous with Some previous => delta (m_value previous) current | None => Missing end in
  [ qualified_as (dotted prefix_ key) current [found];
    qualified_as (dotted (dotted prefix_ key) "delta") change [found; previous] ].
Fixpoint plot (prefix_ : string) (data : Data) (now : Z) (metric : string) (previous : option Metric)
    (buckets : list (string * Window)) : list Metric :=
  match buckets with
  | [] => []
  | (key, bucket) :: buckets =>
      let found := measure data bucket now metric in
      bucket_rows prefix_ key found previous ++ plot prefix_ data now metric found buckets
  end.

Section report.
Context {cal : Calendar}.
Definition report (data : Data) (window : Window) (period : Period) (metric : string) (split : option Split) (now : Z) :
    Result SeriesError (list Metric) :=
  family ← ok_or (family_of metric) (UnknownMetric metric);
  _ ← plottable metric;
  match value data window now metric with
  | None => Err (UnknownMetric metric)
  | Some _ =>
      _ ← match split with
          | Some split => if supports family split then Ok () else Err (CannotSplit metric split)
          | None => Ok ()
          end;
      buckets ← ok_or (buckets_upto window period MAX_BUCKETS) TooManyBuckets;
      Ok match split with
         | None => plot metric data now metric None buckets
         | Some split =>
             btree_iter (split_data data family split) ≫= λ '(key, sliced),
               plot (dotted metric key) sliced now metric None buckets
         end
  end.
End report.

(** ** What the report promises *)

(** A name some family answers for, and that is neither about now nor already
    a change. *)
Definition of_family (metric : string) (f : Family) : Prop := starts_with (prefix f +:+ ".") metric = true.
Definition about_now (metric : string) : Prop := ends_with "_now" metric = true ∨ contains_str ".open." metric = true.
Definition a_change (metric : string) : Prop := ends_with "_delta" metric = true.
Definition reports (data : Data) (window : Window) (now : Z) (metric : string) (f : Family) : Prop :=
  of_family metric f ∧ ∃ m, m ∈ metrics f data window now ∧ m_name m = metric.

(** Why a series is refused: the reasons in the order they are found. *)
Inductive refused {cal : Calendar} (data : Data) (window : Window) (period : Period) (metric : string)
    (split : option Split) (now : Z) : SeriesError → Prop :=
| refused_no_family : (∀ f, ~ of_family metric f) → refused data window period metric split now (UnknownMetric metric)
| refused_now f : of_family metric f → about_now metric → refused data window period metric split now (AboutNow metric)
| refused_delta f : of_family metric f → ~ about_now metric → a_change metric →
    refused data window period metric split now (AlreadyADelta metric)
| refused_no_row f : of_family metric f → ~ about_now metric → ~ a_change metric → ~ reports data window now metric f →
    refused data window period metric split now (UnknownMetric metric)
| refused_split f s : reports data window now metric f → ~ about_now metric → ~ a_change metric →
    split = Some s → s ≠ ByInstance → f = DevFees ∨ f = Disputes →
    refused data window period metric split now (CannotSplit metric s)
| refused_buckets f : reports data window now metric f → ~ about_now metric → ~ a_change metric →
    (split = None ∨ split = Some ByInstance ∨ f = Activity ∨ f = Volume) →
    buckets_upto window period MAX_BUCKETS = None →
    refused data window period metric split now TooManyBuckets.

(** The part of a family's data filed under a name, and when there is one. *)
Definition label_of (split : Split) (o : Activity.Order) : string :=
  match split with
  | ByInstance => Activity.o_instance o
  | ByKind => match Activity.o_direction o with Activity.Buy => "buy" | Activity.Sell => "sell" end
  | ByFiat => Activity.o_fiat_code o
  end.
Definition part_of (data : Data) (f : Family) (split : Split) (key : string) : Data :=
  match f with
  | Activity | Volume =>
      mkData (filter (λ o, label_of split o = key) (sd_orders data)) DevFees.no_fees Disputes.no_data [] None (sd_priced data)
  | DevFees => mkData [] (DevFees.own_account key (sd_fees data)) Disputes.no_data [] (sd_dev_fee_pct data) None
  | Disputes => mkData [] DevFees.no_fees (Disputes.own_account key (sd_disputes data)) [] None None
  end.
Definition has_part (data : Data) (f : Family) (split : Split) (key : string) : Prop :=
  match f with
  | Activity | Volume => ∃ o, o ∈ sd_orders data ∧ label_of split o = key
  | DevFees => (∃ fee, fee ∈ DevFees.df_fees (sd_fees data) ∧ DevFees.f_instance fee = key) ∨
      ∃ s, s ∈ DevFees.df_settlements (sd_fees data) ∧ DevFees.st_instance s = key
  | Disputes => (∃ d, d ∈ Disputes.dd_disputes (sd_disputes data) ∧ Disputes.d_instance d = key) ∨
      ∃ t, t ∈ Disputes.dd_taken (sd_disputes data) ∧ Disputes.tk_instance t = key
  end.

(** The rows of one series: for the [i]-th bucket, at [2 * i] the figure over
    it and at [2 * i + 1] its change against the figure over the one before. *)
Definition marked (sources : list (option Metric)) : Prop :=
  ∃ source, Some source ∈ sources ∧ is_inferred source = true ∧ is_Some (m_error source).
Definition series_rows (prefix_ : string) (data : Data) (now : Z) (metric : string)
    (buckets : list (string * Window)) (rows : list Metric) : Prop :=
  length rows = (2 * length buckets)%nat ∧
  ∀ i key bucket, buckets !! i = Some (key, bucket) →
    let found := measure data bucket now metric in
    let before := match i with O => None | S j => buckets !! j ≫= λ entry, measure data entry.2 now metric end in
    let current := default Missing (m_value <$> found) in
    (∃ m, rows !! (2 * i)%nat = Some m ∧ m_name m = dotted prefix_ key ∧ m_value m = current ∧
      (is_inferred m = true ↔ marked [found])) ∧
    (∃ m, rows !! (2 * i + 1)%nat = Some m ∧ m_name m = dotted (dotted prefix_ key) "delta" ∧
      m_value m = match before with Some before => delta (m_value before) current | None => Missing end ∧
      (is_inferred m = true ↔ marked [found; before])).

(** ** Plottable figures are figures of their window *)

Lemma find_map_app {A B} (f : A → option B) l k :
  find_map f (l ++ k) = match find_map f l with Some b => Some b | None => find_map f k end.
Proof. induction l as [|x l IH]; [done|]. cbn. by destruct (f x). Qed.
Lemma named_app name l k :
  named name (l ++ k) = match named name l with Some m => Some m | None => named name k end.
Proof. apply find_map_app. Qed.
Lemma named_spec name l m : named name l = Some m → m ∈ l ∧ m_name m = name.
Proof.
  induction l as [|x l IH]; [done|]. unfold named in *. cbn. case_decide as E.
  - intros [= <-]. split; [constructor|done].
  - intros H. destruct (IH H). split; [by constructor|done].
Qed.
Lemma named_absent name l : (∀ m, m ∈ l → m_name m ≠ name) → named name l = None.
Proof.
  intros H. destruct (named name l) as [m|] eqn:E; [|done]. apply named_spec in E as [Hin Hn]. by destruct (H m Hin).
Qed.

(** The rows that look at the clock are refused by their names. *)
Lemma open_refused name : contains_str ".open." name = true → is_plottable name = false.
Proof. intros H. unfold is_plottable, plottable. destruct (ends_with _ _); [done|]. by rewrite H. Qed.

Lemma clock_rows_refused data window now f :
  ∃ dated clock, (∀ now', ∃ clock', metrics f data window now' = dated ++ clock' ∧
      ∀ m, m ∈ clock' → is_plottable (m_name m) = false) ∧ metrics f data window now = dated ++ clock.
Proof.
  destruct f.
  - exists (Activity.dated_metrics "orders" (Activity.summarise (sd_orders data) window now)), 
      [Activity.count "orders" "open_now" (Activity.open_now (Activity.summarise (sd_orders data) window now));
       Activity.count "orders" "in_progress_now" (Activity.in_progress_now (Activity.summarise (sd_orders data) window now))].
    split; [|done]. intros now'. eexists. split; [reflexivity|]. intros m Hm.
    repeat (apply elem_of_cons in Hm as [-> | Hm]; [vm_compute; reflexivity|]). by apply elem_of_nil in Hm.
  - exists (metrics Volume data window now), []. rewrite app_nil_r. split; [|done]. intros now'. exists [].
    rewrite app_nil_r. split; [done|]. by intros m ?%elem_of_nil.
  - exists (metrics DevFees data window now), []. rewrite app_nil_r. split; [|done]. intros now'. exists [].
    rewrite app_nil_r. split; [done|]. by intros m ?%elem_of_nil.
  - exists (Disputes.dated_metrics "disputes" (Disputes.summarise (sd_disputes data) window now)). eexists.
    split; [|reflexivity]. intros now'. eexists. split; [reflexivity|]. intros m Hm.
    apply elem_of_app in Hm as [Hm | Hm].
    + apply list_elem_of_singleton in Hm as ->. vm_compute. reflexivity.
    + apply list_elem_of_join in Hm as (l & Hm & Hl). apply elem_of_lookup_imap in Hl as (i & o & -> & _). cbv zeta in Hm.
      repeat (apply elem_of_cons in Hm as [-> | Hm]; [by apply open_refused|]). by apply elem_of_nil in Hm.
Qed.

Lemma metrics_timeless f data window now now' name :
  is_plottable name = true → named name (metrics f data window now) = named name (metrics f data window now').
Proof.
  intros Hn. destruct (clock_rows_refused data window now f) as (dated & clock & H & E).
  destruct (H now) as (c1 & -> & H1). destruct (H now') as (c2 & -> & H2).
  rewrite !named_app. destruct (named name dated); [done|].
  rewrite !named_absent; [done|..]; intros m Hm <-; by rewrite (H1 m Hm) in Hn || rewrite (H2 m Hm) in Hn.
Qed.
Lemma measure_timeless data window now now' name :
  is_plottable name = true → measure data window now name = measure data window now' name.
Proof.
  intros Hn. unfold measure. destruct (family_of name) as [f|]; [|done]. cbn. by apply metrics_timeless.
Qed.
Lemma catalogue_timeless f data window now now' : catalogue_of f data window now = catalogue_of f data window now'.
Proof.
  unfold catalogue_of. destruct (clock_rows_refused data window now f) as (dated & clock & H & _).
  destruct (H now) as (c1 & -> & H1). destruct (H now') as (c2 & -> & H2). rewrite !fmap_app, !filter_app.
  f_equal. assert (∀ c : list Metric, (∀ m, m ∈ c → is_plottable (m_name m) = false) →
    filter (λ name, is_plottable name) (m_name <$> c) = []) as E.
  { intros c Hc. apply list_eq_nil. intros name [Hp Hin]%list_elem_of_filter.
    apply list_elem_of_fmap in Hin as (m & -> & Hm). by rewrite Hc in Hp. }
  by rewrite !E.
Qed.

(** Every name of a family's block carries its prefix, so the family of a
    catalogued name is the one it came from. *)
Lemma measure_named data window now f name :
  family_of name = Some f → measure data window now name = named name (metrics f data window now).
Proof. intros H. unfold measure. by rewrite H. Qed.

(** ** The rows of a series *)

Lemma plot_rows prefix_ data now metric previous buckets i key bucket :
  buckets !! i = Some (key, bucket) →
  let found := measure data bucket now metric in
  let before := match i with O => previous | S j => buckets !! j ≫= λ entry, measure data entry.2 now metric end in
  plot prefix_ data now metric previous buckets !! (2 * i)%nat = head (bucket_rows prefix_ key found before) ∧
  plot prefix_ data now metric previous buckets !! (2 * i + 1)%nat = last (bucket_rows prefix_ key found before).
Proof.
  revert previous i. induction buckets as [|[k b] buckets IH]; intros previous i; [done|]. destruct i as [|i].
  - intros [= <- <-]. done.
  - intros Hi. cbn [lookup list_lookup] in Hi. replace (2 * S i)%nat with (S (S (2 * i))) by lia.
    replace (S (S (2 * i)) + 1)%nat with (S (S (2 * i + 1))) by lia. cbn [plot bucket_rows app lookup list_lookup].
    specialize (IH (measure data b now metric) i Hi). cbv zeta in IH |- *.
    destruct i as [|j]; exact IH.
Qed.

Lemma plot_length prefix_ data now metric previous buckets :
  length (plot prefix_ data now metric previous buckets) = (2 * length buckets)%nat.
Proof.
  revert previous. induction buckets as [|[k b] l IH]; intros previous; [done|]. cbn [plot bucket_rows app length].
  rewrite IH. lia.
Qed.

Lemma qualified_as_spec name v sources :
  m_name (qualified_as name v sources) = name ∧ m_value (qualified_as name v sources) = v ∧
  (is_inferred (qualified_as name v sources) = true ↔ marked sources).
Proof.
  unfold qualified_as. induction sources as [|source sources IH].
  { split_and!; [done..|]. split; [done|]. by intros (? & ?%elem_of_nil & _). }
  cbn [find_map]. assert (marked (source :: sources) ↔ marked [source] ∨ marked sources) as Hsplit.
  { unfold marked. setoid_rewrite elem_of_cons. setoid_rewrite elem_of_nil. naive_solver. }
  rewrite Hsplit. destruct source as [m|]; cbn [mbind option_bind].
  - destruct (is_inferred m) eqn:Ei; [destruct (m_error m) as [e|] eqn:Ee|].
    + split_and!; [done..|]. split; [|done]. intros _. left. exists m. by rewrite Ee; split_and!; [left|..].
    + split_and!; [apply IH..|]. rewrite (proj2 (proj2 IH)). split; [by right|]. intros [(? & Hm & _ & Hs)|?]; [|done].
      apply list_elem_of_singleton in Hm as [= ->]. rewrite Ee in Hs. by destruct Hs.
    + split_and!; [apply IH..|]. rewrite (proj2 (proj2 IH)). split; [by right|]. intros [(? & Hm & Hs & _)|?]; [|done].
      apply list_elem_of_singleton in Hm as [= ->]. by rewrite Ei in Hs.
  - split_and!; [apply IH..|]. rewrite (proj2 (proj2 IH)). split; [by right|]. intros [(? & Hm & _)|?]; [|done].
    by apply list_elem_of_singleton in Hm.
Qed.
Lemma bind_concat {A B} (f : A → list B) l : l ≫= f = concat (f <$> l).
Proof. induction l as [|x l IH]; [done|]. cbn. by rewrite <- IH. Qed.
Lemma plot_series prefix_ data now metric buckets :
  series_rows prefix_ data now metric buckets (plot prefix_ data now metric None buckets).
Proof.
  split; [apply plot_length|]. intros i key bucket Hi. cbv zeta.
  destruct (plot_rows prefix_ data now metric None buckets i key bucket Hi) as [-> ->]. cbn [head last bucket_rows].
  split; (eexists; split; [reflexivity|]); apply qualified_as_spec.
Qed.

(** The families' prefixes tell them apart. *)
Lemma of_family_unique metric f g : of_family metric f → of_family metric g → f = g.
Proof.
  unfold of_family, starts_with. rewrite !bool_decide_eq_true. intros [r Hr%Text.strip_prefix_Some] [r' Hr'%Text.strip_prefix_Some].
  rewrite Hr in Hr'. destruct f, g; first [reflexivity | discriminate].
Qed.
Lemma family_of_spec metric f : family_of metric = Some f ↔ of_family metric f.
Proof.
  assert (∀ g, family_of metric = Some g → of_family metric g) as Hsound.
  { unfold family_of. intros g [[i h] [Hl Hg]]%fmap_Some_1. apply list_find_Some in Hl as (_ & Hp & _).
    cbn in Hg. subst. by apply Is_true_true_1 in Hp. }
  split; [apply Hsound|]. intros Hf. destruct (family_of metric) as [g|] eqn:E.
  - f_equal. apply (of_family_unique metric); [by apply Hsound|done].
  - unfold family_of in E. destruct (list_find _ families) eqn:F; [done|].
    apply list_find_None in F. rewrite Forall_forall in F. exfalso. apply (F f); [by destruct f; repeat constructor|].
    by apply Is_true_true_2.
Qed.
Lemma reports_spec data window now metric f :
  of_family metric f → (is_Some (value data window now metric) ↔ reports data window now metric f).
Proof.
  intros Hf. unfold value, reports. rewrite fmap_is_Some, (measure_named _ _ _ f) by by apply family_of_spec. split.
  - intros [m Hm%named_spec]. split; [done|]. by exists m.
  - intros [_ (m & Hm & Hn)]. destruct (named metric _) eqn:E; [done|]. exfalso. revert Hm Hn E.
    generalize (metrics f data window now) as l. intros l. induction l as [|x l IH]; intros Hm Hn; [by apply elem_of_nil in Hm|].
    unfold named. cbn. case_decide; [done|]. apply elem_of_cons in Hm as [->|Hm]; [done|by apply IH].
Qed.

Section promises.
Context {cal : Calendar}.

Lemma report_timeless data window period metric split now now' :
  report data window period metric split now = report data window period metric split now'.
Proof.
  unfold report. destruct (family_of metric) as [f|] eqn:Ef; [|done]. cbn [ok_or mbind Result_bind].
  destruct (plottable metric) as [[]|e] eqn:Ep; [|done]. cbn [mbind Result_bind].
  assert (is_plottable metric = true) as Hp by (unfold is_plottable; by rewrite Ep).
  assert (∀ prefix_ data previous l, plot prefix_ data now metric previous l = plot prefix_ data now' metric previous l) as Hplot.
  { intros prefix_ data' previous l. revert previous. induction l as [|[k b] l IH]; intros previous; [done|].
    cbn [plot]. rewrite (measure_timeless data' b now now' metric Hp). by rewrite IH. }
  unfold value. rewrite (measure_timeless data window now now' metric Hp).
  destruct (measure data window now' metric); [|done]. cbn [fmap option_fmap option_map].
  destruct (match split with Some _ => _ | None => _ end); [|done]. cbn [mbind Result_bind].
  destruct (ok_or _ _) as [buckets|]; [|done]. cbn [mbind Result_bind]. f_equal.
  destruct split as [s|]; [|apply Hplot].
  apply list_bind_ext; [|done]. intros [k d]. apply Hplot.
Qed.

(** What a split hands each series. *)
Lemma slice_of_orders data split key orders :
  Activity.slice (sd_orders data)
    (match split with ByInstance => Activity.ByInstance | ByKind => Activity.ByKind | ByFiat => Activity.ByFiat end) !! key
    = Some orders ↔
  orders = filter (λ o, label_of split o = key) (sd_orders data) ∧ ∃ o, o ∈ sd_orders data ∧ label_of split o = key.
Proof.
  rewrite Activity.slice_lookup. generalize (sd_orders data) as l. intros l.
  assert (l ≫= (λ o, replicate (Activity.mentions (match split with ByInstance => Activity.ByInstance
    | ByKind => Activity.ByKind | ByFiat => Activity.ByFiat end) key o) o) = filter (λ o, label_of split o = key) l) as ->.
  { induction l as [|o l IH]; [done|]. rewrite bind_cons, filter_cons, IH.
    assert (Activity.mentions (match split with ByInstance => Activity.ByInstance | ByKind => Activity.ByKind
      | ByFiat => Activity.ByFiat end) key o = if bool_decide (key = label_of split o) then 1%nat else 0%nat) as -> by by destruct split.
    case_decide; case_bool_decide; congruence || done. }
  assert (filter (λ o, label_of split o = key) l ≠ [] ↔ ∃ o, o ∈ l ∧ label_of split o = key) as <-.
  { split.
    - intros Hne. destruct (filter (λ o, label_of split o = key) l) as [|o k] eqn:E; [done|]. exists o.
      apply and_comm, (list_elem_of_filter (λ o, label_of split o = key)). rewrite E. left.
    - intros (o & Ho & Hk) E. apply (not_elem_of_nil o). rewrite <- E. by apply list_elem_of_filter. }
  case_decide; naive_solver.
Qed.
Lemma split_data_lookup data f split key part :
  split_data data f split !! key = Some part ↔ part = part_of data f split key ∧ has_part data f split key.
Proof.
  destruct f; cbn [split_data part_of has_part]; rewrite lookup_fmap, fmap_Some.
  1, 2: setoid_rewrite slice_of_orders; unfold of_orders; naive_solver.
  - setoid_rewrite DevFees.by_instance_lookup. unfold of_fees. naive_solver.
  - setoid_rewrite Disputes.dispute_groups_lookup. unfold of_disputes. naive_solver.
Qed.

(** The reasons, told apart: at most one stands, and no report comes with one. *)
Lemma report_refused data window period metric split now e :
  report data window period metric split now = Err e → refused data window period metric split now e.
Proof.
  unfold report. destruct (family_of metric) as [f|] eqn:Ef; cbn [ok_or mbind Result_bind].
  2:{ intros [= <-]. apply refused_no_family. intros f Hf%family_of_spec. congruence. }
  apply family_of_spec in Ef. unfold plottable.
  destruct (ends_with "_now" metric) eqn:E1; [intros [= <-]; eapply refused_now; [done|by left]|].
  destruct (contains_str ".open." metric) eqn:E2; [intros [= <-]; eapply refused_now; [done|by right]|].
  assert (~ about_now metric) as Hnow by (intros [?|?]; congruence).
  destruct (ends_with "_delta" metric) eqn:E3; [intros [= <-]; by eapply refused_delta|].
  assert (~ a_change metric) as Hchange by (unfold a_change; congruence). cbn [mbind Result_bind].
  pose proof (reports_spec data window now metric f Ef) as Hr. destruct (value data window now metric).
  2:{ intros [= <-]. eapply refused_no_row; [done..|]. rewrite <- Hr. by intros []. }
  specialize (proj1 Hr ltac:(by eexists)) as Hrep. destruct split as [s|].
  - destruct (supports f s) eqn:Es; cbn [mbind Result_bind].
    + destruct (buckets_upto window period MAX_BUCKETS) eqn:Eb; [done|]. intros [= <-].
      eapply refused_buckets; [done..| |done]. right. destruct s, f; naive_solver.
    + intros [= <-]. eapply refused_split; [done..|by destruct s|]. destruct s, f; naive_solver.
  - cbn [mbind Result_bind]. destruct (buckets_upto window period MAX_BUCKETS) eqn:Eb; [done|]. intros [= <-].
    eapply refused_buckets; [done..| |done]. by left.
Qed.
Lemma refused_report data window period metric split now e :
  refused data window period metric split now e → report data window period metric split now = Err e.
Proof.
  unfold report. intros Hr. assert (∀ f, of_family metric f → ~ about_now metric → ~ a_change metric →
    family_of metric = Some f ∧ plottable metric = Ok ()) as Hplain.
  { intros f Hf Hn Hc. split; [by apply family_of_spec|]. unfold plottable.
    unfold about_now, a_change in *.
    destruct (ends_with "_now" metric), (contains_str ".open." metric), (ends_with "_delta" metric); naive_solver. }
  destruct Hr as [Hno|f Hf Hn|f Hf Hn Hc|f Hf Hn Hc Hrep|f s Hrep Hn Hc -> Hs Hd|f Hrep Hn Hc Hs Hb].
  - destruct (family_of metric) as [f|] eqn:Ef; [|done]. by apply family_of_spec, Hno in Ef.
  - rewrite (proj2 (family_of_spec metric f) Hf). cbn [ok_or mbind Result_bind]. unfold plottable.
    destruct Hn as [-> | ->]; [done|]. by destruct (ends_with _ _).
  - rewrite (proj2 (family_of_spec metric f) Hf). cbn [ok_or mbind Result_bind]. unfold plottable.
    rewrite Hc. unfold about_now in Hn. destruct (ends_with "_now" metric), (contains_str ".open." metric); naive_solver.
  - destruct (Hplain f Hf Hn Hc) as [-> ->]. cbn [ok_or mbind Result_bind]. rewrite <- (reports_spec _ _ _ _ f Hf) in Hrep.
    destruct (value _ _ _ _); [|done]. by destruct Hrep.
  - destruct (Hplain f (proj1 Hrep) Hn Hc) as [-> ->]. cbn [ok_or mbind Result_bind].
    destruct (proj2 (reports_spec _ _ _ _ f (proj1 Hrep)) Hrep) as [? ->]. by destruct Hd as [-> | ->]; destruct s.
  - destruct (Hplain f (proj1 Hrep) Hn Hc) as [-> ->]. cbn [ok_or mbind Result_bind].
    destruct (proj2 (reports_spec _ _ _ _ f (proj1 Hrep)) Hrep) as [? ->]. rewrite Hb.
    destruct split as [s|]; [|done]. destruct Hs as [?|[[= ->]|[-> | ->]]]; [done|done|..]; by destruct s.
Qed.

(** C35: a series is refused for exactly these reasons, in this order: no
    family's prefix, a figure about now, a change already, no such row in the
    block the family reports over the window, a split by kind or currency of
    fees or disputes, more buckets than the limit; and never otherwise.
    Unsplit it is, for each bucket of the window in order, two rows: the
    value the family's block has over that bucket, missing when it has none,
    and the change against the bucket before, missing in the first; each is
    inferred exactly when a figure it comes from is. Split it is such a
    series over each part of the family's data that holds anything, under the
    part's name, in the order of the names: the orders of that instance, kind
    or currency, or the fees and settlements, or the disputes and taken
    orders, of that instance. And it is the same whenever it is asked for,
    split or not. *)
Theorem series_reports (data : Data) (window : Window) (period : Period) (metric : string) (now : Z) :
  (∀ split e, report data window period metric split now = Err e ↔ refused data window period metric split now e) ∧
  (∀ rows, report data window period metric None now = Ok rows →
    ∃ buckets, buckets_upto window period MAX_BUCKETS = Some buckets ∧ series_rows metric data now metric buckets rows) ∧
  (∀ split rows, report data window period metric (Some split) now = Ok rows →
    ∃ f buckets keys series, reports data window now metric f ∧ buckets_upto window period MAX_BUCKETS = Some buckets ∧
      StronglySorted String.le keys ∧ NoDup keys ∧ (∀ key, key ∈ keys ↔ has_part data f split key) ∧
      rows = concat series ∧
      Forall2 (λ key part_rows, series_rows (dotted metric key) (part_of data f split key) now metric buckets part_rows)
        keys series) ∧
  (∀ split now', report data window period metric split now = report data window period metric split now').
Proof.
  split_and!.
  - intros split e. split; [apply report_refused|apply refused_report].
  - intros rows. unfold report. destruct (family_of metric); [|done]. cbn [ok_or mbind Result_bind].
    destruct (plottable metric); [|done]. cbn [mbind Result_bind]. destruct (value _ _ _ _); [|done].
    destruct (buckets_upto window period MAX_BUCKETS) as [buckets|]; [|done]. cbn [ok_or mbind Result_bind].
    intros [= <-]. exists buckets. split; [done|]. apply plot_series.
  - intros split rows. unfold report. destruct (family_of metric) as [f|] eqn:Ef; [|done]. cbn [ok_or mbind Result_bind].
    apply family_of_spec in Ef. destruct (plottable metric); [|done]. cbn [mbind Result_bind].
    pose proof (reports_spec data window now metric f Ef) as Hr. destruct (value _ _ _ _); [|done].
    destruct (supports f split); [|done]. cbn [mbind Result_bind].
    destruct (buckets_upto window period MAX_BUCKETS) as [buckets|]; [|done]. cbn [ok_or mbind Result_bind].
    intros [= <-]. exists f, buckets, (btree_iter (split_data data f split)).*1,
      ((λ '(key, part), plot (dotted metric key) part now metric None buckets) <$> btree_iter (split_data data f split)).
    split_and!; [by apply Hr|done|apply btree_keys_sorted..| | |].
    + intros key. rewrite list_elem_of_fmap. split.
      * intros ([k part] & -> & Hin%elem_of_btree_iter). by apply split_data_lookup in Hin as [_ ?].
      * intros Hp. exists (key, part_of data f split key). split; [done|].
        by apply elem_of_btree_iter, split_data_lookup.
    + apply bind_concat.
    + apply Forall2_fmap_2, Forall_Forall2_diag, Forall_forall. intros [key part] Hin%elem_of_btree_iter.
      apply split_data_lookup in Hin as [-> _]. apply plot_series.
  - intros split now'. apply report_timeless.
Qed.
End promises.

(** ** A concrete series *)

Definition week_data : Data := mkData Activity.sample.orders DevFees.sample_data Disputes.no_data [] None None.

Example created_by_day :
  match report (cal := Gregorian.gregorian) week_data (mkWindow 1767225600 1767484800) Day "orders.created" None 0 with
  | Ok rows => (λ m, (m_name m, m_value m)) <$> rows =
      [("orders.created.2026-01-01", Count 1); ("orders.created.2026-01-01.delta", Missing);
       ("orders.created.2026-01-02", Count 0); ("orders.created.2026-01-02.delta", Ratio (f64_of_Z (-1)));
       ("orders.created.2026-01-03", Count 1); ("orders.created.2026-01-03.delta", Missing)]
  | Err _ => False
  end.
Proof. vm_compute. reflexivity. Qed.
Example what_is_refused :
  report (cal := Gregorian.gregorian) week_data (mkWindow 0 86400) Day "orders.open_now" None 0 = Err (AboutNow "orders.open_now") ∧
  report (cal := Gregorian.gregorian) week_data (mkWindow 0 86400) Day "orders.typo" None 0 = Err (UnknownMetric "orders.typo") ∧
  report (cal := Gregorian.gregorian) week_data (mkWindow 0 86400) Day "dev_fees.paid" (Some ByFiat) 0 =
    Err (CannotSplit "dev_fees.paid" ByFiat) ∧
  priced_in "volume.in.USD.total" = Some "USD" ∧ priced_in "volume.in.usd.total" = None.
Proof. vm_compute. repeat split; reflexivity. Qed.

Theorem series_reports_witness :
  report (cal := Gregorian.gregorian) week_data (mkWindow 0 864000000) Day "orders.created" None 0 = Err TooManyBuckets ∧
  report (cal := Gregorian.gregorian) week_data (mkWindow 0 86400) Day "dev_fees.paid" (Some ByKind) 0 =
    Err (CannotSplit "dev_fees.paid" ByKind) ∧
  (∀ now', report (cal := Gregorian.gregorian) week_data (mkWindow 0 86400) Day "orders.created" (Some ByKind) now' =
    report (cal := Gregorian.gregorian) week_data (mkWindow 0 86400) Day "orders.created" (Some ByKind) 0).
Proof.
  split_and!.
  - apply (proj1 (series_reports (cal := Gregorian.gregorian) week_data (mkWindow 0 864000000) Day "orders.created" 0)).
    apply (refused_buckets _ _ _ _ _ _ Activity); [|vm_compute; naive_solver|vm_compute; naive_solver|by left|vm_compute; reflexivity].
    apply reports_spec; vm_compute; [reflexivity|by eexists].
  - apply (proj1 (series_reports (cal := Gregorian.gregorian) week_data (mkWindow 0 86400) Day "dev_fees.paid" 0)).
    apply (refused_split _ _ _ _ _ _ DevFees); [|vm_compute; naive_solver|vm_compute; naive_solver|done|done|by left].
    apply reports_spec; vm_compute; [reflexivity|by eexists].
  - intros now'.
    apply (series_reports (cal := Gregorian.gregorian) week_data (mkWindow 0 86400) Day "orders.created" now').
Defined.
