(* ===== verification/Snapshot.v ===== *)
(** * A snapshot in one pass

    [crates/stats/src/publish/snapshot.rs]: every document of a publication
    run, computed from one reading of the archive. *)

From S2P Require Import Prelude F64 StatsPrelude Metric Calendar Window Bucket.
From S2P Require Address Activity Series Summary Market Instances Compare.
From S2P Require Import Document.

#[local] Open Scope Z_scope.

(** [snapshot::Partition]. *)
Record Partition : Type := mkPartition {
  p_address : Address.Address;
  p_period : Window;
  p_payload : SeriesPayload;
  p_hash : string;
}.

(** [traded]: whether any figure of a block is above zero. *)
Definition traded (counts : list Z) : bool := existsb (λ count, bool_decide (0 < count)) counts.

(** [fiat_counts]: four counts per currency. *)
Definition currency_counts (a : Activity.Activity) : list (string * Z) :=
  [ ("created", Activity.created a); ("completed", Activity.completed a);
    ("canceled", Activity.canceled a); ("open_now", Activity.open_now a) ].
Definition fiat_counts (orders : list Activity.Order) (window : Window) (now : Z) : list Metric :=
  btree_iter (Activity.slice orders Activity.ByFiat) ≫= λ '(code, group),
    let counts := currency_counts (Activity.summarise group window now) in
    if traded counts.*2 then
      (λ '(name, count), observed (dotted (dotted "orders" code) name) (Count count)) <$> counts
    else [].

Definition SCOPED_REPORTS : list Address.Report := [Address.Orders].

Definition instance_metrics (own : list Activity.Order) (window : Window) (now : Z) : list Metric :=
  Activity.metrics "orders" (Activity.summarise own window now)
  ++ (btree_iter (Activity.slice own Activity.ByFiat) ≫= λ '(code, group),
        let a := Activity.summarise group window now in
        if traded [Activity.created a; Activity.completed a; Activity.canceled a;
                   Activity.open_now a; Activity.in_progress_now a]
        then Activity.metrics (dotted "orders" code) a else []).

Definition family_of (report : Address.Report) : option Series.Family :=
  match report with
  | Address.Orders => Some Series.Activity
  | Address.Volume => Some Series.Volume
  | Address.DevFees => Some Series.DevFees
  | Address.Disputes => Some Series.Disputes
  | Address.Summary | Address.Market | Address.Instances | Address.Compare => None
  end.

(** The unit of a column and the cell of a row. *)
Definition unit_of (v : Value) : string :=
  match normalised v with
  | Count _ => "count" | Sats _ => "sats" | Ratio _ => "ratio" | Seconds _ => "seconds"
  | Fiat _ _ => "fiat" | Text _ => "text" | Missing => "missing"
  end.
Definition cell (v : Value) : Cell :=
  match normalised v with
  | Count n | Sats n | Seconds n => Int n
  | Ratio r => Float r
  | Fiat amount _ => Float amount
  | Text text => Str text
  | Missing => Null
  end.

Section snapshot.
Context {cal : Calendar}.

Definition window_payload (window : Window) (metrics : list Metric) : WindowPayload :=
  mkWindowPayload (range_of window) metrics.

Definition window_metrics (report : Address.Report) (data : Series.Data) (window : Window) (now : Z) : list Metric :=
  let orders := Series.sd_orders data in
  match report with
  | Address.Orders => Series.block_of Series.Activity data window now ++ fiat_counts orders window now
  | Address.Volume => Series.block_of Series.Volume data window now
  | Address.DevFees => Series.block_of Series.DevFees data window now
  | Address.Disputes => Series.block_of Series.Disputes data window now
  | Address.Summary => Summary.report orders (Some (Series.sd_disputes data)) window now
  | Address.Market => Market.report orders window None
  | Address.Instances => Instances.list_ (Series.sd_profiles data) orders window now
  | Address.Compare =>
      Compare.report (Series.sd_profiles data) orders (Series.sd_fees data) (Some (Series.sd_disputes data)) window now
  end.

(** ** The rows of a partition *)

Definition WEEK : Z := 7 * 86400.
Definition EPOCH_TO_MONDAY : Z := 3 * 86400.
Definition monday_of (at_ : Z) : Z :=
  i64_sub (i64_add at_ EPOCH_TO_MONDAY / WEEK * WEEK) EPOCH_TO_MONDAY.
(** The [while] loop; [weeks_fuel] is never exhausted ([week_steps_enough]). *)
Fixpoint week_steps (fuel : nat) (span : Window) (monday : Z) : list (string * Window) :=
  match fuel with
  | O => []
  | S fuel =>
      if decide (monday < w_until span) then
        let week := mkWindow monday (i64_saturating_add monday WEEK) in
        match head (weeks week) with
        | Some (key, _) => (key, week) :: week_steps fuel span (i64_saturating_add monday WEEK)
        | None => week_steps fuel span (i64_saturating_add monday WEEK)
        end
      else []
  end.
Definition weeks_fuel (span : Window) (monday : Z) : nat := S (Z.to_nat ((w_until span - monday) / WEEK + 1)).
Definition first_monday (span : Window) : Z :=
  let monday := monday_of (w_from span) in
  if decide (monday < w_from span) then i64_add monday WEEK else monday.
Definition weeks_of (span : Window) : list (string * Window) :=
  let monday := first_monday span in week_steps (weeks_fuel span monday) span monday.

Definition rows_of (resolution : Address.Resolution) (span : Window) : list (string * Window) :=
  match resolution with
  | Address.Daily => buckets span Day
  | Address.Monthly => buckets span Month
  | Address.Weekly => weeks_of span
  end.

Definition column (prefix : string) (data : Series.Data) (span : Window) (now : Z) (name : string) : Column :=
  let sample := Series.measure data span now name in {|
    c_name := default name (strip_prefix prefix name);
    c_kind := m_kind <$> sample;
    c_unit := match sample with Some m => unit_of (m_value m) | None => "missing" end;
    c_error := sample ≫= m_error;
  |}.
Definition date_column : Column := mkColumn "date" None "date" None.
Definition row (catalogue : list string) (data : Series.Data) (coverage : Coverage) (now : Z)
    (entry : string * Window) : list Cell :=
  let '(key, slot) := entry in
  Str key :: ((λ name,
    if negb (covers coverage slot) || bool_decide (now ≤ w_from slot) then Null
    else match Series.measure data slot now name with Some m => cell (m_value m) | None => Null end) <$> catalogue).

Context `{Serialize Payload} `{Digest}.

Definition partition (data : Series.Data) (report : Address.Report) (resolution : Address.Resolution)
    (bucket : Address.Bucket) (coverage : Coverage) (now : Z) : option Partition :=
  family ← family_of report;
  slot ← Address.partition_new resolution bucket;
  let span := Address.bucket_window (Address.pt_bucket slot) in
  if covers coverage span then
    let catalogue := Series.catalogue_of family data span now in
    let prefix := Series.prefix family +:+ "." in
    let columns := date_column :: (column prefix data span now <$> catalogue) in
    let payload := mkSeriesPayload (range_of span) (Address.resolution_as_str resolution) columns
      (row catalogue data coverage now <$> rows_of resolution span) in
    Some (mkPartition (Address.ASeries report slot None) span payload (hash_of (PSeries payload)))
  else None.

(** ** The documents of a run *)

Definition DAY_SECS : Z := 86400.
Definition window_of (span : Address.Window) (coverage : Coverage) (now : Z) : Window :=
  let until := match latest coverage with Some latest => Z.min latest now | None => now end in
  let from := match span with
              | Address.Hours24 => i64_sub until DAY_SECS
              | Address.Days7 => i64_sub until (7 * DAY_SECS)
              | Address.Days30 => i64_sub until (30 * DAY_SECS)
              | Address.Days90 => i64_sub until (90 * DAY_SECS)
              | Address.All => Z.min (default until (earliest coverage)) until
              end in
  mkWindow from until.

Definition window_document (run : Run) (report : Address.Report) (span : Address.Window) (scope : option Address.Scope)
    (window : Window) (metrics : list Metric) (now : Z) : Document :=
  let payload := PWindow (window_payload window metrics) in
  mkDocument (Address.AWindow report span scope) (first run payload) (hash_of payload) now None.
Definition series_document (run : Run) (now : Z) (p : Partition) : Document :=
  mkDocument (p_address p) (first run (PSeries (p_payload p))) (p_hash p) now (Some (p_period p)).

Definition report_documents (data : Series.Data) (coverage : Coverage) (run : Run) (now : Z) (report : Address.Report) :
    list Document :=
  ((λ span, let window := window_of span coverage now in
      window_document run report span None window (window_metrics report data window now) now) <$> Address.window_all)
  ++ match family_of report with
     | None => []
     | Some _ =>
         Address.resolution_all ≫= λ resolution,
           omap (λ bucket, series_document run now <$> partition data report resolution bucket coverage now)
             (partitions coverage resolution now)
     end.
Definition profile_documents (data : Series.Data) (coverage : Coverage) (run : Run) (now : Z)
    (profile : Instances.Profile) : list Document :=
  match Address.scope_instance (Instances.pf_pubkey profile) with
  | None => []
  | Some scope =>
      let own := filter (λ o, Activity.o_pubkey o = Instances.pf_pubkey profile) (Series.sd_orders data) in
      SCOPED_REPORTS ≫= λ report,
        (λ span, let window := window_of span coverage now in
           window_document run report span (Some scope) window (instance_metrics own window now) now) <$> Address.window_all
  end.

Definition compute (data : Series.Data) (coverage : Coverage) (snapshot_id : string) (now : Z) : Snapshot :=
  let run := mkRun snapshot_id now in
  mkSnapshot run coverage
    ((Address.report_all ≫= report_documents data coverage run now)
     ++ (Series.sd_profiles data ≫= profile_documents data coverage run now)).
End snapshot.
