(* ===== verification/SnapshotFacts.v ===== *)
(** * What a snapshot promises

    Over [Snapshot]: the documents of a run and their addresses, the rows of a
    partition, and what does not move while the archive does not. *)

From S2P Require Import Prelude F64 StatsPrelude Metric Calendar Window Bucket.
From S2P Require Address Activity Series Instances DevFees Disputes.
From S2P Require Import Document Snapshot.

#[local] Open Scope Z_scope.

Section facts.
Context {cal : Calendar} {laws : CalendarLaws} `{Serialize Payload} `{Digest}.

Lemma partition_spec data report resolution bucket coverage now p :
  partition data report resolution bucket coverage now = Some p →
  ∃ family, family_of report = Some family ∧ Address.fits bucket resolution = true ∧
    covers coverage (Address.bucket_window bucket) = true ∧
    p_address p = Address.ASeries report (Address.mkPartition resolution bucket) None ∧
    p_period p = Address.bucket_window bucket ∧ p_hash p = hash_of (PSeries (p_payload p)) ∧
    p_payload p = (let span := Address.bucket_window bucket in
      let catalogue := Series.catalogue_of family data span now in
      mkSeriesPayload (range_of span) (Address.resolution_as_str resolution)
        (date_column :: (column (Series.prefix family +:+ ".") data span now <$> catalogue))
        (row catalogue data coverage now <$> rows_of resolution span)).
Proof.
  unfold partition. rewrite bind_Some. intros (family & Hf & Hp). exists family. split; [done|].
  unfold Address.partition_new in Hp. destruct (Address.fits bucket resolution); [|done]. cbn [mbind option_bind] in Hp.
  cbn [Address.pt_bucket] in Hp. destruct (covers _ _) eqn:Hc; [|done]. injection Hp as <-. done.
Qed.
Lemma partition_is_Some data report resolution bucket coverage now :
  is_Some (partition data report resolution bucket coverage now) ↔
    is_Some (family_of report) ∧ Address.fits bucket resolution = true ∧
    covers coverage (Address.bucket_window bucket) = true.
Proof.
  split.
  - intros [p (family & ? & ? & ? & _)%partition_spec]. split_and!; [by eexists|done|done].
  - intros ([family Hf] & Hfit & Hc). unfold partition, Address.partition_new. rewrite Hf, Hfit.
    cbn [mbind option_bind Address.pt_bucket]. rewrite Hc. by eexists.
Qed.

(** ** Addresses *)

(** The addresses a run publishes. *)
Definition published (data : Series.Data) (coverage : Coverage) (now : Z) (a : Address.Address) : Prop :=
  match a with
  | Address.AWindow report span None => True
  | Address.AWindow report span (Some (Address.ScopeInstance pubkey)) =>
      report = Address.Orders ∧ pubkey ∈ Instances.pf_pubkey <$> Series.sd_profiles data ∧
      is_Some (Address.scope_instance pubkey)
  | Address.ASeries report (Address.mkPartition resolution bucket) None =>
      is_Some (family_of report) ∧ bucket ∈ partitions coverage resolution now ∧
      covers coverage (Address.bucket_window bucket) = true
  | _ => False
  end.

Definition series_documents (data : Series.Data) (coverage : Coverage) (run : Run) (now : Z) (report : Address.Report)
    (resolution : Address.Resolution) : list Document :=
  omap (λ bucket, series_document run now <$> partition data report resolution bucket coverage now)
    (partitions coverage resolution now).

Lemma elem_of_series_documents data coverage run now report resolution d :
  d ∈ series_documents data coverage run now report resolution ↔
    ∃ bucket p, bucket ∈ partitions coverage resolution now ∧
      partition data report resolution bucket coverage now = Some p ∧ d = series_document run now p.
Proof.
  unfold series_documents. rewrite list_elem_of_omap. split.
  - intros (b & Hb & (p & Hp & ->)%fmap_Some). by exists b, p.
  - intros (b & p & Hb & Hp & ->). exists b. split; [done|]. cbv beta. by rewrite Hp.
Qed.

Lemma elem_of_report_documents data coverage run now report d :
  d ∈ report_documents data coverage run now report ↔
    (∃ span, d = let window := window_of span coverage now in
       window_document run report span None window (window_metrics report data window now) now) ∨
    (∃ resolution, is_Some (family_of report) ∧ d ∈ series_documents data coverage run now report resolution).
Proof.
  unfold report_documents. rewrite elem_of_app, list_elem_of_fmap. apply Morphisms_Prop.or_iff_morphism.
  - split; [intros (span & -> & _); by eexists|]. intros (span & ->). exists span. split; [done|].
    destruct span; repeat (done || constructor).
  - destruct (family_of report) as [f|].
    + rewrite list_elem_of_bind. split; [intros (r & ? & ?); exists r; by split; [eexists|]|].
      intros (r & _ & Hd). exists r. split; [done|]. destruct r; repeat (done || constructor).
    + rewrite elem_of_nil. split; [done|]. by intros (r & [? ?] & _).
Qed.

Lemma elem_of_profile_documents data coverage run now profile d :
  d ∈ profile_documents data coverage run now profile ↔
    is_Some (Address.scope_instance (Instances.pf_pubkey profile)) ∧
    ∃ span, d = let window := window_of span coverage now in
      window_document run Address.Orders span (Some (Address.ScopeInstance (Instances.pf_pubkey profile))) window
        (instance_metrics (filter (λ o, Activity.o_pubkey o = Instances.pf_pubkey profile) (Series.sd_orders data)) window now) now.
Proof.
  unfold profile_documents. destruct (Address.scope_instance _) as [scope|] eqn:Es.
  - assert (scope = Address.ScopeInstance (Instances.pf_pubkey profile)) as ->
      by (unfold Address.scope_instance in Es; by destruct (_ && _); simplify_eq).
    cbn [SCOPED_REPORTS]. rewrite list_elem_of_bind. setoid_rewrite list_elem_of_singleton. split.
    + intros (r & Hd & ->). apply list_elem_of_fmap in Hd as (span & -> & _). split; [by eexists|]. by exists span.
    + intros [_ (span & ->)]. eexists. split; [|reflexivity]. apply list_elem_of_fmap. exists span. split; [done|].
      destruct span; repeat (done || constructor).
  - rewrite elem_of_nil. split; [done|]. by intros [[? ?] _].
Qed.

Lemma elem_of_documents data coverage id now d (run := mkRun id now) :
  d ∈ s_documents (compute data coverage id now) ↔
    (∃ report, d ∈ report_documents data coverage run now report) ∨
    (∃ profile, profile ∈ Series.sd_profiles data ∧ d ∈ profile_documents data coverage run now profile).
Proof.
  cbn [compute s_documents]. rewrite elem_of_app, !list_elem_of_bind. apply Morphisms_Prop.or_iff_morphism.
  - split; [intros (r & ? & _); by exists r|]. intros (r & Hd). exists r. split; [done|]. destruct r; repeat (done || constructor).
  - naive_solver.
Qed.

Lemma series_address run now report resolution bucket data coverage p :
  partition data report resolution bucket coverage now = Some p →
  d_address (series_document run now p) = Address.ASeries report (Address.mkPartition resolution bucket) None.
Proof. intros (f & _ & _ & _ & Ha & _)%partition_spec. done. Qed.

Lemma published_spec data coverage id now a :
  a ∈ d_address <$> s_documents (compute data coverage id now) ↔ published data coverage now a.
Proof.
  rewrite list_elem_of_fmap. setoid_rewrite elem_of_documents. setoid_rewrite elem_of_report_documents.
  setoid_rewrite elem_of_profile_documents. setoid_rewrite elem_of_series_documents. split.
  - intros (d & -> & [(r & [(span & ->) | (res & Hf & b & p & Hb & Hp & ->)]) | (pf & Hpf & Hs & span & ->)]).
    + done.
    + rewrite (series_address _ _ _ _ _ _ _ _ Hp). apply partition_spec in Hp as (? & _ & _ & Hc & _). done.
    + cbn. split; [done|]. split; [by apply list_elem_of_fmap_2|done].
  - destruct a as [y|r w [[pk|n]|]|r [res b] [sc|]]; cbn [published]; try done.
    + intros (-> & (pf & -> & Hpf)%list_elem_of_fmap & Hs). eexists. split; [|right; exists pf; split; [done|split; [done|]]];
        [|by exists w]. done.
    + intros _. eexists. split; [|left; exists r; left; by exists w]. done.
    + intros (Hf & Hb & Hc). assert (Address.fits b res = true) as Hfit by exact (proj2 (proj1 (partitions_shape coverage res now) b Hb)).
      destruct (proj2 (partition_is_Some data r res b coverage now)) as [p Hp]; [done|].
      exists (series_document (mkRun id now) now p). split; [by rewrite (series_address _ _ _ _ _ _ _ _ Hp)|].
      left. exists r. right. exists res. split; [done|]. by exists b, p.
Qed.

Lemma published_ok data coverage now a : published data coverage now a → Address.address_ok a.
Proof.
  destruct a as [y|r w [[pk|n]|]|r [res b] [sc|]]; cbn [published]; try done.
  - intros (_ & _ & [s Hs]). cbn. intros s' [= <-]. cbn. rewrite Hs. f_equal.
    unfold Address.scope_instance in Hs. by destruct (_ && _); simplify_eq.
  - intros (_ & Hb & _). destruct (proj1 (partitions_shape coverage res now) b Hb) as [Hok Hfit]. by split_and!.
Qed.

Lemma fmap_bind {A B C} (f : B → C) (g : A → list B) l : f <$> (l ≫= g) = l ≫= λ x, f <$> g x.
Proof. induction l as [|x l IH]; [done|]. by rewrite !bind_cons, fmap_app, IH. Qed.
Lemma NoDup_omap {A B} (f : A → option B) l :
  (∀ x1 x2 y, f x1 = Some y → f x2 = Some y → x1 = x2) → NoDup l → NoDup (omap f l).
Proof.
  intros Hinj. induction 1 as [|x l Hx Hl IH]; cbn; [constructor|]. destruct (f x) as [y|] eqn:E; [|done].
  constructor; [|done]. intros (x' & Hx' & E')%list_elem_of_omap. by rewrite (Hinj x x' y E E') in Hx.
Qed.

Lemma sorted_NoDup {A} (index : A → Z) l : StronglySorted (λ a b, index a < index b) l → NoDup l.
Proof.
  induction 1 as [|x l _ IH Hx]; constructor; [|done]. intros Hin. rewrite Forall_forall in Hx.
  specialize (Hx x Hin). lia.
Qed.

Lemma NoDup_report_all : NoDup Address.report_all ∧ NoDup Address.window_all ∧ NoDup Address.resolution_all.
Proof. split_and!; repeat constructor; set_solver. Qed.

Lemma addresses_NoDup data coverage id now :
  NoDup (Instances.pf_pubkey <$> Series.sd_profiles data) →
  NoDup (d_address <$> s_documents (compute data coverage id now)).
Proof.
  intros Hpf. destruct NoDup_report_all as (HR & HW & HT). set (run := mkRun id now).
  assert (∀ r, NoDup (d_address <$> report_documents data coverage run now r)) as Hr.
  { intros r. unfold report_documents. rewrite fmap_app. apply NoDup_app. split_and!.
    - rewrite <- list_fmap_compose. apply NoDup_fmap_2; [|done]. by intros x y [=].
    - intros a (d & -> & (span & -> & _)%list_elem_of_fmap)%list_elem_of_fmap (d' & E & Hd')%list_elem_of_fmap.
      destruct (family_of r); [|by apply elem_of_nil in Hd'].
      apply list_elem_of_bind in Hd' as (res & Hd' & _). apply elem_of_series_documents in Hd' as (b & p & _ & Hp & ->).
      rewrite (series_address _ _ _ _ _ _ _ _ Hp) in E. done.
    - destruct (family_of r); [|constructor]. rewrite fmap_bind. apply NoDup_bind; [| |done].
      + intros r1 r2 a _ _ (d & -> & (b & p & _ & Hp & ->)%elem_of_series_documents)%list_elem_of_fmap
          (d' & E & (b' & p' & _ & Hp' & ->)%elem_of_series_documents)%list_elem_of_fmap.
        rewrite (series_address _ _ _ _ _ _ _ _ Hp), (series_address _ _ _ _ _ _ _ _ Hp') in E. by injection E.
      + intros res _. rewrite list_fmap_omap. apply NoDup_omap.
        * intros b b' a E E'. apply fmap_Some in E as (d & (p & Hp & ->)%fmap_Some & ->).
          apply fmap_Some in E' as (d' & (p' & Hp' & ->)%fmap_Some & E).
          rewrite (series_address _ _ _ _ _ _ _ _ Hp), (series_address _ _ _ _ _ _ _ _ Hp') in E. by injection E.
        * eapply sorted_NoDup, partitions_shape. }
  cbn [compute s_documents]. rewrite fmap_app, !fmap_bind. apply NoDup_app. split_and!.
  - apply NoDup_bind; [|by intros; apply Hr|done].
    assert (∀ r a, a ∈ d_address <$> report_documents data coverage run now r →
      (∃ w, a = Address.AWindow r w None) ∨ (∃ p, a = Address.ASeries r p None)) as Ha.
    { intros r a (d & -> & Hd)%list_elem_of_fmap. apply elem_of_report_documents in Hd as [(w & ->) | (res & _ & Hd)].
      - left. by exists w.
      - apply elem_of_series_documents in Hd as (b & p & _ & Hp & ->). rewrite (series_address _ _ _ _ _ _ _ _ Hp).
        right. by eexists. }
    intros r1 r2 a _ _ [[w ->] | [p ->]]%Ha H2%Ha; destruct H2 as [[w' E] | [p' E]]; by inversion E.
  - intros a (r & Hd & _)%list_elem_of_bind (pf & Hd' & _)%list_elem_of_bind.
    apply list_elem_of_fmap in Hd as (d & -> & Hd). apply list_elem_of_fmap in Hd' as (d' & E & Hd').
    apply elem_of_profile_documents in Hd' as (_ & span & ->).
    apply elem_of_report_documents in Hd as [(w & ->) | (res & _ & Hd)]; [done|].
    apply elem_of_series_documents in Hd as (b & p & _ & Hp & ->). by rewrite (series_address _ _ _ _ _ _ _ _ Hp) in E.
  - apply NoDup_bind.
    + intros p1 p2 a Hp1 Hp2 (d1 & -> & (_ & w1 & ->)%elem_of_profile_documents)%list_elem_of_fmap
        (d2 & E & (_ & w2 & ->)%elem_of_profile_documents)%list_elem_of_fmap.
      cbn in E. injection E as _ E. by eapply NoDup_fmap_inj.
    + intros p _. unfold profile_documents. destruct (Address.scope_instance _); [|constructor].
      cbn [SCOPED_REPORTS mbind list_bind]. rewrite app_nil_r, <- list_fmap_compose. apply NoDup_fmap_2; [|done].
      by intros x y [=].
    + by eapply NoDup_fmap_1.
Qed.

Lemma d_of_NoDup data coverage id now :
  NoDup (Instances.pf_pubkey <$> Series.sd_profiles data) →
  NoDup (d_of <$> s_documents (compute data coverage id now)).
Proof.
  intros Hpf. unfold d_of. change (λ d, Address.show (d_address d)) with (Address.show ∘ d_address).
  rewrite list_fmap_compose. apply NoDup_fmap_2_strong; [|by apply addresses_NoDup].
  intros a b Ha Hb E. apply published_spec, published_ok, Address.show_parses in Ha, Hb. rewrite E, Hb in Ha. by injection Ha.
Qed.

Lemma documents_hashed data coverage id now d (s := compute data coverage id now) :
  d ∈ s_documents s →
  d_envelope d = first (s_run s) (e_payload (d_envelope d)) ∧ d_hash d = hash_of (e_payload (d_envelope d)) ∧
  d_updated_at d = now ∧
  d_period d = match d_address d with
               | Address.ASeries _ p _ => Some (Address.bucket_window (Address.pt_bucket p)) | _ => None end.
Proof.
  intros [(r & Hd) | (pf & _ & Hd)]%elem_of_documents.
  - apply elem_of_report_documents in Hd as [(w & ->) | (res & _ & Hd)]; [done|].
    apply elem_of_series_documents in Hd as (b & p & _ & Hp & ->). rewrite (series_address _ _ _ _ _ _ _ _ Hp).
    apply partition_spec in Hp as (f & _ & _ & _ & _ & Hperiod & Hh & _). cbn. rewrite Hh, Hperiod. done.
  - by apply elem_of_profile_documents in Hd as (_ & w & ->).
Qed.

End facts.

(** ** A concrete run *)

Module sample.
#[export] Existing Instances Gregorian.gregorian Gregorian.gregorian_laws.
(** Stand-ins for the libraries: what is not compared need not be told apart. *)
#[export] Instance json : Serialize Payload := λ p, match p with PWindow _ => "window" | PSeries _ => "series" end.
#[export] Instance digest : Digest := λ text, [Z.of_nat (String.length text)].

Definition pubkey : string := "00000000000000000000000000000000000000000000000000000000000000ab".
Definition profile : Instances.Profile :=
  Instances.mkProfile pubkey (Some "alice") "alice (00000000)" None None None None None [] [] None 1767225600 1767830000.
Definition data : Series.Data :=
  Series.mkData Activity.sample.orders DevFees.no_fees Disputes.no_data [profile] None None.
Definition extent : Coverage := between 1767225600 1767830000.

Example daily_partition_of_january :
  match partition data Address.Orders Address.Daily (Address.BMonth 2026 1) extent 1767830001 with
  | Some p => d_of (series_document (mkRun "run" 1767830001) 1767830001 p) = "series:orders:daily:2026-01" ∧
      (c_name <$> sp_columns (p_payload p)) =
        ["date"; "created"; "completed"; "canceled"; "completion_rate"; "abandonment_rate"] ∧
      length (sp_rows (p_payload p)) = 31%nat ∧
      head (sp_rows (p_payload p)) = Some [Str "2026-01-01"; Int 1; Int 0; Int 0; Null; Float (f64_of_Z 0)] ∧
      last (sp_rows (p_payload p)) = Some [Str "2026-01-31"; Null; Null; Null; Null; Null]
  | None => False
  end.
Proof. vm_compute. repeat split. Qed.
End sample.

#[local] Existing Instances Gregorian.gregorian Gregorian.gregorian_laws sample.json sample.digest.

