(* ===== verification/SnapshotRows.v ===== *)
(** * The rows of a series partition

    Over [Snapshot]: which weeks a month's partition lists, what a window
    document covers, and which documents stay the same while the archive
    does. *)

From S2P Require Import Prelude F64 StatsPrelude Metric Calendar Window Bucket.
From S2P Require Address Activity Series Instances Disputes DevFees Compare.
From S2P Require Import Document Snapshot.

#[local] Open Scope Z_scope.

(** ** Weeks *)

Section weeks.
Context {cal : Calendar} {laws : CalendarLaws}.

(** The midnight a week opens at. *)
Definition is_monday (t : Z) : Prop := t mod DAY = 0 ∧ num_days_from_monday t = 0.
Definition week_row (monday : Z) : string * Window := (format monday "%G-W%V", mkWindow monday (monday + WEEK)).

Lemma is_monday_mod t : is_monday t ↔ (t + EPOCH_TO_MONDAY) mod WEEK = 0.
Proof.
  unfold is_monday. rewrite weekday_spec. unfold EPOCH_TO_MONDAY, WEEK, DAY. split.
  - intros [H1 H2]. Z.to_euclidean_division_equations; lia.
  - intros H. split; Z.to_euclidean_division_equations; lia.
Qed.

Lemma one_week m : is_monday m → in_calendar m = true → in_calendar (m + WEEK) = true →
  weeks (mkWindow m (m + WEEK)) = [week_row m].
Proof.
  intros [Hm Hd] H1 H2. assert (opening (mkWindow m (m + WEEK)) Week = Some m) as Ho.
  { unfold opening, opening_of, from_timestamp; cbn [w_from]. rewrite H1. cbn [mbind option_bind].
    rewrite Hd. apply sub_days_spec. rewrite midnight_spec, Hm. split; [lia|].
    by replace (m - 0 - 0 * DAY) with m by lia. }
  unfold weeks. rewrite (buckets_steps _ _ m); [|by apply in_calendar_i64|done].
  unfold walk_fuel; cbn [w_until]. replace (Z.to_nat ((m + WEEK - m) / DAY + 1)) with 8%nat
    by (replace (m + WEEK - m) with WEEK by lia; done).
  cbn [steps w_until w_from]. rewrite decide_True by (unfold WEEK; lia). cbn [next_of].
  assert (checked_add_days m 7 = Some (m + WEEK)) as -> by (apply add_days_spec; split; [unfold WEEK, DAY; lia|done]).
  cbn [w_from w_until]. rewrite Z.max_id, Z.min_id, decide_True by (unfold WEEK; lia).
  by rewrite decide_False by lia.
Qed.

Lemma week_steps_spec fuel span m :
  is_monday m → in_calendar m = true → in_calendar (w_until span + WEEK) = true →
  w_until span - m < Z.of_nat fuel * WEEK →
  (∀ e, e ∈ week_steps fuel span m ↔ ∃ m', is_monday m' ∧ m ≤ m' < w_until span ∧ e = week_row m') ∧
  StronglySorted (λ a b, w_from a.2 < w_from b.2) (week_steps fuel span m).
Proof.
  revert m. induction fuel as [|fuel IH]; intros m Hm Hin Hu Hf; cbn [week_steps].
  { split; [|constructor]. intros e. rewrite elem_of_nil. split; [done|]. intros (m' & _ & ? & _). lia. }
  case_decide as Hlt.
  2: { split; [|constructor]. intros e. rewrite elem_of_nil. split; [done|]. intros (m' & _ & ? & _). lia. }
  assert (in_calendar (m + WEEK) = true) as Hnext
    by (apply (in_calendar_convex m (w_until span + WEEK)); [done|done|unfold WEEK; lia]).
  assert (i64_saturating_add m WEEK = m + WEEK) as ->.
  { apply in_calendar_i64 in Hnext. unfold i64_saturating_add, is_i64, i64_min, i64_max in *. lia. }
  rewrite one_week by done. cbn [head week_row].
  assert (is_monday (m + WEEK)) as Hm'
    by (rewrite is_monday_mod in Hm |- *; unfold WEEK in *; Z.to_euclidean_division_equations; lia).
  destruct (IH (m + WEEK) Hm' Hnext Hu ltac:(lia)) as [IH1 IH2]. split.
  - intros e. change (format m "%G-W%V", mkWindow m (m + WEEK)) with (week_row m). rewrite elem_of_cons, IH1. split.
    + intros [-> | (m' & ? & ? & ->)]; [by exists m|]. exists m'. unfold WEEK in *. split_and!; try done; lia.
    + intros (m' & H1 & H2 & ->). destruct (decide (m' = m)) as [-> | Hne]; [by left|]. right. exists m'.
      split_and!; try done; [|lia]. rewrite is_monday_mod in Hm, H1. unfold WEEK, EPOCH_TO_MONDAY in *.
      Z.to_euclidean_division_equations; lia.
  - constructor; [done|]. apply Forall_forall. intros e (m' & _ & ? & ->)%IH1. cbn. unfold WEEK in *. lia.
Qed.

Lemma first_monday_spec span :
  in_calendar (w_from span - WEEK) = true → in_calendar (w_from span + WEEK) = true →
  is_monday (first_monday span) ∧ w_from span ≤ first_monday span ∧ first_monday span < w_from span + WEEK.
Proof.
  intros Hlo Hhi. apply in_calendar_i64 in Hlo, Hhi. rewrite is_monday_mod. unfold first_monday, monday_of.
  set (a := w_from span) in *. unfold is_i64, i64_min, i64_max in Hlo, Hhi. unfold WEEK, EPOCH_TO_MONDAY in *.
  rewrite i64_add_small by (unfold is_i64, i64_min, i64_max; lia).
  rewrite i64_sub_small by (unfold is_i64, i64_min, i64_max; Z.to_euclidean_division_equations; lia).
  case_decide as Hlt; [rewrite i64_add_small by (unfold is_i64, i64_min, i64_max; Z.to_euclidean_division_equations; lia)|];
    Z.to_euclidean_division_equations; lia.
Qed.

Lemma weeks_of_spec span :
  in_calendar (w_from span - WEEK) = true → w_from span ≤ w_until span → in_calendar (w_until span + WEEK) = true →
  (∀ e, e ∈ weeks_of span ↔ ∃ m, is_monday m ∧ w_from span ≤ m < w_until span ∧ e = week_row m) ∧
  StronglySorted (λ a b, w_from a.2 < w_from b.2) (weeks_of span).
Proof.
  intros Hlo Hle Hhi. assert (∀ t, w_from span - WEEK ≤ t ≤ w_until span + WEEK → in_calendar t = true) as Hin
    by (intros t Ht; by apply (in_calendar_convex _ _ t Hlo Hhi)).
  destruct (first_monday_spec span Hlo) as (Hm & H1 & H2); [apply Hin; unfold WEEK; lia|].
  unfold weeks_of. cbv zeta. destruct (week_steps_spec (weeks_fuel span (first_monday span)) span (first_monday span))
    as [HE HS]; [done|apply Hin; unfold WEEK in *; lia|done| |].
  { unfold weeks_fuel, WEEK in *. rewrite Nat2Z.inj_succ.
    destruct (decide (0 ≤ (w_until span - first_monday span) / (7 * 86400) + 1)).
    - rewrite Z2Nat.id by done. Z.to_euclidean_division_equations; lia.
    - Z.to_euclidean_division_equations; lia. }
  split; [|done]. intros e. rewrite HE. split; intros (m & Hmm & ? & ->); exists m; (split_and!; [done|..]); try done; try lia.
  (* A Monday from the opening on is not before the first. *)
  rewrite is_monday_mod in Hm, Hmm. unfold WEEK, EPOCH_TO_MONDAY in *. Z.to_euclidean_division_equations; lia.
Qed.

(** The instants of a month. *)
Lemma month_contains y mo t :
  Address.bucket_ok (Address.BMonth y mo) → in_calendar t = true →
  (w_from (Address.bucket_window (Address.BMonth y mo)) ≤ t < w_until (Address.bucket_window (Address.BMonth y mo)) ↔
    year t = y ∧ month t = mo).
Proof.
  intros [Hy Hmo] Ht. unfold Address.year_ok, Address.month_ok in *. pose proof (month_range t Ht).
  assert (∀ a b, w_from a ≤ t < w_until b ↔ w_from a ≤ t ∧ ¬ w_until b ≤ t) as E by (intros; lia).
  rewrite (E _ (Address.bucket_window (Address.BMonth y mo))). clear E. cbn [Address.bucket_window].
  case_decide; cbn [w_from w_until]; rewrite !first_of_spec by (done || lia); unfold month_index; lia.
Qed.

Lemma month_nonempty y mo :
  Address.bucket_ok (Address.BMonth y mo) →
  w_from (Address.bucket_window (Address.BMonth y mo)) ≤ w_until (Address.bucket_window (Address.BMonth y mo)) ∧
  in_calendar (w_from (Address.bucket_window (Address.BMonth y mo))) = true.
Proof.
  intros [Hy Hmo]. unfold Address.year_ok, Address.month_ok in *.
  assert (∀ y m, 0 ≤ y ≤ 10000 → 1 ≤ m ≤ 12 →
    in_calendar (Address.first_of y m) = true ∧ year (Address.first_of y m) = y ∧ month (Address.first_of y m) = m) as Hf.
  { intros y' m' Hy' Hm'. unfold Address.first_of. destruct (with_ymd_digits y' m' Hy' Hm') as [s Hs]. rewrite Hs. cbn.
    destruct (with_ymd_midnight _ _ _ _ Hs) as [_ Hin]. by destruct (with_ymd_first _ _ _ Hs) as (? & ? & _). }
  cbn [Address.bucket_window]. case_decide as Em; cbn [w_from w_until]; [subst mo|].
  - destruct (Hf y 12) as (H1 & H2 & H3); [lia|lia|]. destruct (Hf (y + 1) 1) as (H4 & H5 & H6); [lia|lia|]. split; [|done].
    apply first_of_spec; [lia|lia|done|]. rewrite H5, H6. unfold month_index. lia.
  - destruct (Hf y mo) as (H1 & H2 & H3); [lia|lia|]. destruct (Hf y (mo + 1)) as (H4 & H5 & H6); [lia|lia|]. split; [|done].
    apply first_of_spec; [lia|lia|done|]. rewrite H5, H6. unfold month_index. lia.
Qed.

(** a weekly partition lists the whole weeks that open in its month: a row
    for the ISO week of every Monday that [Bucket::for_week_starting] files
    under it, seven days long and never clipped, oldest first, and no other;
    so every week is listed in exactly one month's partition. *)
Theorem weeks_filed_once (y mo : Z) (span := Address.bucket_window (Address.BMonth y mo)) :
  Address.bucket_ok (Address.BMonth y mo) →
  in_calendar (w_from span - WEEK) = true → in_calendar (w_until span + WEEK) = true →
  (∀ key week, (key, week) ∈ rows_of Address.Weekly span ↔
    ∃ monday, is_monday monday ∧ in_calendar monday = true ∧
      Address.for_week_starting monday = Some (Address.BMonth y mo) ∧
      key = format monday "%G-W%V" ∧ week = mkWindow monday (monday + 7 * DAY)) ∧
  StronglySorted (λ a b, w_from a.2 < w_from b.2) (rows_of Address.Weekly span).
Proof.
  intros Hok Hlo Hhi. destruct (month_nonempty y mo Hok) as [Hle _].
  destruct (weeks_of_spec span Hlo Hle Hhi) as [HE HS]. split; [|exact HS]. intros key week. cbn [rows_of]. rewrite HE.
  assert (∀ m, in_calendar m = true →
    (Address.for_week_starting m = Some (Address.BMonth y mo) ↔ w_from span ≤ m < w_until span)) as Hfile.
  { intros m Hm. unfold span. rewrite month_contains by done. unfold Address.for_week_starting.
    destruct Hok as [Hy Hmo]. split.
    - destruct (Address.year_new (year m)) as [y'|] eqn:E1; [|done]. apply Address.year_new_Some in E1 as [-> _].
      destruct (Address.month_new (month m)) as [m'|] eqn:E2; [|done]. apply Address.month_new_Some in E2 as [-> _].
      cbn. intros [= -> ->]. done.
    - intros [-> ->]. rewrite (proj2 (Address.year_new_Some y y)), (proj2 (Address.month_new_Some mo mo)) by done. done. }
  split.
  - intros (m & Hm & Hr & [= -> ->]). assert (in_calendar m = true) as Hin
      by (apply (in_calendar_convex _ _ m Hlo Hhi); unfold WEEK; lia).
    exists m. split_and!; [done|done|by apply Hfile|done|done].
  - intros (m & Hm & Hin & Hf%Hfile & -> & ->); [|done]. by exists m.
Qed.
End weeks.

(** ** What an archive that has not moved publishes *)

Section unmoved.
Context {cal : Calendar} `{Serialize Payload} `{Digest}.

Lemma row_timeless catalogue data coverage now now' l entry :
  latest coverage = Some l → l < now → l < now' →
  Forall (λ name, Series.is_plottable name = true) catalogue →
  row catalogue data coverage now entry = row catalogue data coverage now' entry.
Proof.
  intros Hl Hn Hn' Hc. destruct entry as [key slot]. unfold row. f_equal. apply list_fmap_ext. intros i name Hi.
  rewrite Forall_forall in Hc. specialize (Hc name (list_elem_of_lookup_2 _ _ _ Hi)).
  rewrite (Series.measure_timeless data slot now now' name Hc).
  destruct (covers coverage slot) eqn:E; [|done]. unfold covers in E. rewrite Hl in E. cbn in E.
  apply andb_prop in E as [_ E%bool_decide_eq_true]. rewrite !bool_decide_false by lia. done.
Qed.

Lemma catalogue_plottable f data span now :
  Forall (λ name, Series.is_plottable name = true) (Series.catalogue_of f data span now).
Proof.
  apply Forall_forall. intros name Hin. unfold Series.catalogue_of in Hin. apply list_elem_of_filter in Hin as [Hp _].
  by apply Is_true_true.
Qed.

Lemma column_timeless prefix data span now now' name :
  Series.is_plottable name = true → column prefix data span now name = column prefix data span now' name.
Proof. intros Hp. unfold column. by rewrite (Series.measure_timeless data span now now' name Hp). Qed.

Lemma partition_timeless data report resolution bucket coverage now now' l :
  latest coverage = Some l → l < now → l < now' →
  partition data report resolution bucket coverage now = partition data report resolution bucket coverage now'.
Proof.
  intros Hl Hn Hn'. unfold partition. destruct (family_of report) as [f|]; [|done]. cbn [mbind option_bind].
  destruct (Address.partition_new resolution bucket) as [slot|]; [|done]. cbn [mbind option_bind].
  destruct (covers coverage _); [|done]. rewrite (Series.catalogue_timeless f data _ now now').
  set (span := Address.bucket_window (Address.pt_bucket slot)).
  pose proof (catalogue_plottable f data span now') as Hc.
  set (catalogue := Series.catalogue_of f data span now') in *.
  assert (column (Series.prefix f +:+ ".") data span now <$> catalogue =
    column (Series.prefix f +:+ ".") data span now' <$> catalogue) as ->.
  { apply list_fmap_ext. intros i name Hi. rewrite Forall_forall in Hc. apply column_timeless, Hc.
    by eapply list_elem_of_lookup_2. }
  assert (row catalogue data coverage now <$> rows_of resolution span =
    row catalogue data coverage now' <$> rows_of resolution span) as ->; [|done].
  apply list_fmap_ext. intros i entry _. by eapply row_timeless.
Qed.

Lemma window_of_anchored span coverage now l :
  latest coverage = Some l → l ≤ now → window_of span coverage now = window_of span coverage l.
Proof. intros Hl Hn. unfold window_of. rewrite Hl. by rewrite Z.min_l, Z.min_id by done. Qed.

(** What a document says, apart from the run that says it. *)
Definition said (d : Document) : Address.Address * Payload * string * option Window :=
  (d_address d, e_payload (d_envelope d), d_hash d, d_period d).

(** The reports whose windows do not look at the clock. *)
Definition timeless : list Address.Report := [Address.Volume; Address.DevFees; Address.Market; Address.Compare].

Lemma window_metrics_timeless report data window now now' :
  report ∈ timeless → window_metrics report data window now = window_metrics report data window now'.
Proof. intros Hr. repeat (apply elem_of_cons in Hr as [-> | Hr]; [reflexivity|]). by apply elem_of_nil in Hr. Qed.

Lemma silent_moves p now now' prefix :
  is_i64 (now - Instances.pf_last_seen_at p) → is_i64 (now' - Instances.pf_last_seen_at p) → now ≠ now' →
  Instances.profile_metrics prefix p now ≠ Instances.profile_metrics prefix p now'.
Proof.
  intros Hi Hi' Hne E. apply (f_equal (λ l, l !! 12%nat)) in E. cbn in E. injection E as E.
  unfold Instances.silent_for in E. rewrite !i64_sub_small in E by done. lia.
Qed.

(** C25: publishing an archive that has not moved. Once the clock is past the
    last stored event [l], a later run publishes the same series partitions,
    every figure, hash and period of them, and the same window documents of
    the reports that do not look at the clock, so none of those is restated.
    The [instances] documents are not among them: as soon as an instance is
    listed their figures differ between any two seconds. *)
Theorem unmoved_archive (data : Series.Data) (coverage : Coverage) (id id' : string) (now now' l : Z) :
  latest coverage = Some l → (∀ e, earliest coverage = Some e → e ≤ l) → l < now → l < now' →
  (∀ resolution, partitions coverage resolution now = partitions coverage resolution now') ∧
  (∀ report resolution bucket,
    said <$> (series_document (mkRun id now) now <$> partition data report resolution bucket coverage now) =
    (said <$> (series_document (mkRun id' now') now' <$> partition data report resolution bucket coverage now'))) ∧
  (∀ report span scope, report ∈ timeless →
    said (window_document (mkRun id now) report span scope (window_of span coverage now)
            (window_metrics report data (window_of span coverage now) now) now) =
    said (window_document (mkRun id' now') report span scope (window_of span coverage now')
            (window_metrics report data (window_of span coverage now') now') now')) ∧
  (∀ p span, head (Series.sd_profiles data) = Some p → now ≠ now' →
    is_i64 (now - Instances.pf_last_seen_at p) → is_i64 (now' - Instances.pf_last_seen_at p) →
    window_metrics Address.Instances data (window_of span coverage now) now ≠
    window_metrics Address.Instances data (window_of span coverage now') now').
Proof.
  intros Hl He Hn Hn'. split_and!.
  - intros resolution. unfold partitions. destruct (earliest coverage) as [e|] eqn:Ee; [|done]. specialize (He e eq_refl).
    rewrite !decide_True by lia. rewrite Hl, !Z.min_l by lia. done.
  - intros report resolution bucket. rewrite (partition_timeless data report resolution bucket coverage now now' l) by done.
    by destruct (partition data report resolution bucket coverage now').
  - intros report span scope Hr. rewrite (window_of_anchored span coverage now l), (window_of_anchored span coverage now' l) by (done || lia).
    unfold said, window_document; cbn [d_address d_envelope d_hash d_period e_payload first].
    by rewrite (window_metrics_timeless report data _ now now' Hr).
  - intros p span Hp Hne Hi Hi' E. cbn [window_metrics] in E. unfold Instances.list_ in E.
    destruct (Series.sd_profiles data) as [|p' ps]; [done|]. injection Hp as ->.
    apply (silent_moves p now now' (dotted "instances" (Instances.pf_label p)) Hi Hi' Hne).
    apply (f_equal (take 14)) in E. exact E.
Qed.
End unmoved.

#[local] Instance sample_json : Serialize Payload := λ p, match p with PWindow _ => "window" | PSeries s => pretty (Z.of_nat (length (sp_rows s))) end.
#[local] Instance sample_digest : Digest := λ text, [Z.of_nat (String.length text)].
#[local] Existing Instances Gregorian.gregorian Gregorian.gregorian_laws.

Definition listed : Series.Data :=
  Series.mkData Activity.sample.orders DevFees.sample_data Disputes.no_data Compare.two None None.
Definition extent : Coverage := between 1767225600 1767830000.

Theorem unmoved_archive_witness :
  partitions extent Address.Daily 1767830001 = [Address.BMonth 2026 1] ∧
  partitions extent Address.Daily 1767916400 = [Address.BMonth 2026 1] ∧
  window_metrics Address.Instances listed (window_of Address.Days7 extent 1767830001) 1767830001 ≠
  window_metrics Address.Instances listed (window_of Address.Days7 extent 1767916400) 1767916400.
Proof.
  destruct (unmoved_archive listed extent "a" "b" 1767830001 1767916400 1767830000) as (H1 & _ & _ & H2);
    [reflexivity|intros e [= <-]; lia|lia|lia|].
  rewrite <- (H1 Address.Daily). split_and!; [vm_compute; reflexivity|vm_compute; reflexivity|].
  apply (H2 _ Address.Days7 eq_refl); [lia| |]; (split; vm_compute; discriminate).
Defined.
