(* ===== verification/Signer.v ===== *)
(** * Signing a document

    [src/nostr/signer.rs] and [src/config/secret.rs]: the key an operator
    named, and the event a document becomes. Keys, bech32 and signatures are
    the nostr crate's ([Nostr]); the environment is a function. *)

From S2P Require Import Prelude Event Calendar Window Bucket.
From S2P Require Address.
From S2P Require Import Document Index.

#[local] Open Scope Z_scope.

(** What the repository asks of [nostr_sdk]. *)
Class Nostr := {
  Keys : Type;
  (** [SecretKey::from_bech32] and [from_hex], with [Keys::new]. *)
  from_bech32 : string → option Keys;
  from_hex : string → option Keys;
  public_key : Keys → string;
  (** [EventBuilder::new(kind, content).tags(..).custom_created_at(..).finalize(keys)]. *)
  finalize : Keys → Z → list (list string) → Z → string → Event;
}.
(** An event says what its builder was given, in its signer's name. *)
Class NostrLaws `{Nostr} := {
  finalize_says : ∀ keys kind tags created_at content,
    let e := finalize keys kind tags created_at content in
    ev_kind e = kind ∧ ev_tags e = tags ∧ ev_created_at e = created_at ∧ ev_content e = content ∧
    ev_pubkey e = public_key keys;
}.

(** ** The name of the key *)

Definition ENV_PREFIX : string := "env:".
(** [EnvRef]: a variable's name; [EnvRef::deserialize]. *)
Definition env_ref (raw : string) : option string :=
  name ← strip_prefix ENV_PREFIX raw;
  if blank name then None else Some (trim name).

Inductive KeyError : Type := MissingEnv (name : string) | Malformed (setting : string).

Section signer.
Context `{Nostr} {cal : Calendar} `{Serialize Envelope} `{Serialize Index}.

Definition parse (raw setting : string) : Result KeyError Keys :=
  let value := trim raw in
  ok_or (if starts_with "nsec1" value then from_bech32 value else from_hex value) (Malformed setting).
Definition resolve (env : string → option string) (name : string) : Result KeyError Keys :=
  secret ← ok_or (env name) (MissingEnv name);
  parse secret ("`" +:+ name +:+ "`").

(** ** The events *)

Definition FIRST_REVISION : Z := 1.
Definition signed (tags : list Tag) (content : string) (run : Run) (keys : Keys) : Event :=
  finalize keys KIND ((λ t, t_name t :: t_values t) <$> tags) (Z.max 0 (generated_at run)) content.
Definition sign (d : Document) (run : Run) (keys : Keys) : Event :=
  signed (tags (d_address d) run (e_revision (d_envelope d))) (content d) run keys.
Definition sign_index (i : Index) (run : Run) (keys : Keys) : Event :=
  signed (tags (address i) run FIRST_REVISION) (index_content i) run keys.

(** ** What a reader finds *)

(** The value of a tag, as the accessors of the crate read it. *)
Definition tag_of (name : string) (e : Event) : option string :=
  list_find (λ t, head t = Some name) (ev_tags e) ≫= λ entry, entry.2 !! 1%nat.

Context `{!NostrLaws}.

(** A signed document names itself: its address, its revision, the run's clock
    and its signer. *)
Lemma sign_says d run keys (e := sign d run keys) :
  ev_kind e = KIND ∧ tag_of "d" e = Some (d_of d) ∧ tag_of "revision" e = Some (pretty (e_revision (d_envelope d))) ∧
  tag_of "s" e = Some (snapshot_id run) ∧ ev_created_at e = Z.max 0 (generated_at run) ∧ ev_content e = content d ∧
  ev_pubkey e = public_key keys.
Proof.
  unfold e, sign, signed. destruct (finalize_says keys KIND
    ((λ t, t_name t :: t_values t) <$> tags (d_address d) run (e_revision (d_envelope d)))
    (Z.max 0 (generated_at run)) (content d)) as (E1 & E2 & E3 & E4 & E5).
  unfold tag_of. rewrite E1, E2, E3, E4, E5. split_and!; try done; destruct (d_address d); reflexivity.
Qed.
Lemma sign_index_says i run keys (e := sign_index i run keys) :
  ev_kind e = KIND ∧ tag_of "d" e = Some (Address.show (address i)) ∧ ev_created_at e = Z.max 0 (generated_at run) ∧
  ev_content e = index_content i ∧ ev_pubkey e = public_key keys.
Proof.
  unfold e, sign_index, signed. destruct (finalize_says keys KIND
    ((λ t, t_name t :: t_values t) <$> tags (address i) run FIRST_REVISION)
    (Z.max 0 (generated_at run)) (index_content i)) as (E1 & E2 & E3 & E4 & E5).
  unfold tag_of. rewrite E1, E2, E3, E4, E5. done.
Qed.
End signer.
