(* ===== verification/Client.v ===== *)
(** * The relays a run talks to

    [src/nostr/client.rs] and [nip11.rs]: which of the configured relays are
    in play, what became of a sent event, and what a relay advertises. The
    connections are the nostr crate's: whether a URL parses ([parse_url]) and
    whether a relay answers ([dial]) are given. *)

From S2P Require Import Prelude Event.

#[local] Open Scope Z_scope.

(** ** The relays *)

Record RelayClient : Type := mkRelayClient {
  configured : list string;
  relays : list string;
}.

Inductive ClientError : Type :=
| NoRelayReachable (attempted : Z)
| FetchError (relay source : string)
| TimedOut (relay : string) (seconds : Z)
| SubscribeError (source : string)
| SendError (event source : string).

Section client.
(** [RelayUrl::from_str(url)]: the URL, normalised; and why a relay could not
    be added or did not answer. *)
Context (parse_url : string → option string).

Definition add (dial : string → option string) (url : string) : Result string string :=
  url ← ok_or (parse_url url) "not a relay URL";
  match dial url with None => Ok url | Some reason => Err reason end.

Definition connect_step (dial : string → option string) (connected : list string) (url : string) : list string :=
  match add dial url with
  | Ok url => if decide (url ∈ connected) then connected else connected ++ [url]
  | Err _ => connected
  end.
Definition connect (dial : string → option string) (urls : list string) : Result ClientError RelayClient :=
  let connected := foldl (connect_step dial) [] urls in
  if decide (connected = []) then Err (NoRelayReachable (Z.of_nat (length urls)))
  else Ok (mkRelayClient urls connected).

Definition reattach_step (dial : string → option string) (current attached : list string) (url : string) : list string :=
  match parse_url url with
  | None => attached
  | Some parsed =>
      if decide (parsed ∈ attached) then attached
      else if decide (parsed ∈ current) then attached ++ [parsed]
      else match add dial url with Ok url => attached ++ [url] | Err _ => attached end
  end.
Definition reattach (dial : string → option string) (c : RelayClient) : RelayClient :=
  mkRelayClient (configured c) (foldl (reattach_step dial (relays c)) [] (configured c)).
Definition reconfigure (urls : list string) (c : RelayClient) : RelayClient := mkRelayClient urls (relays c).

Definition unattached_step (current missing : list string) (url : string) : list string :=
  match parse_url url with
  | None => missing
  | Some parsed => if decide (parsed ∈ current ∨ parsed ∈ missing) then missing else missing ++ [parsed]
  end.
Definition unattached (c : RelayClient) : list string := foldl (unattached_step (relays c)) [] (configured c).

(** ** What the lists hold *)

(** Each element of a list once, where it first stands. *)
Fixpoint once (l : list string) : list string :=
  match l with [] => [] | x :: l => x :: filter (λ y, y ≠ x) (once l) end.
(** The relays some URLs name, in the URLs' order: those that [keep] holds of. *)
Definition relays_named (keep : string → Prop) `{∀ r, Decision (keep r)} (urls : list string) : list string :=
  once (filter keep (omap parse_url urls)).

Lemma elem_of_once r l : r ∈ once l ↔ r ∈ l.
Proof.
  induction l as [|x l IH]; [done|]. cbn. rewrite !elem_of_cons, list_elem_of_filter, IH.
  destruct (decide (r = x)); naive_solver.
Qed.
Lemma NoDup_once l : NoDup (once l).
Proof.
  induction l as [|x l IH]; cbn; constructor; [|by apply NoDup_filter].
  rewrite list_elem_of_filter. naive_solver.
Qed.
Lemma once_snoc l x : once (l ++ [x]) = if decide (x ∈ l) then once l else once l ++ [x].
Proof.
  induction l as [|y l IH]; [done|]. cbn [once app]. rewrite IH.
  destruct (decide (x = y)) as [->|Hne].
  - rewrite (decide_True _ _ (list_elem_of_here y l)). case_decide; [done|].
    rewrite filter_app, (filter_cons_False _ y []) by naive_solver. by rewrite app_nil_r.
  - rewrite (decide_ext (x ∈ y :: l) (x ∈ l)) by (rewrite elem_of_cons; naive_solver).
    case_decide; [done|]. by rewrite filter_app, filter_cons_True.
Qed.
Lemma elem_of_relays_named keep `{∀ r, Decision (keep r)} urls r :
  r ∈ relays_named keep urls ↔ keep r ∧ ∃ url, url ∈ urls ∧ parse_url url = Some r.
Proof. unfold relays_named. by rewrite elem_of_once, list_elem_of_filter, list_elem_of_omap. Qed.

(** A loop over the URLs that takes each kept relay it has not yet taken. *)
Lemma foldl_relays_named keep `{∀ r, Decision (keep r)} step urls :
  (∀ taken url, step taken url =
    match parse_url url with
    | Some r => if decide (keep r) then if decide (r ∈ taken) then taken else taken ++ [r] else taken
    | None => taken
    end) →
  foldl step [] urls = relays_named keep urls.
Proof.
  intros Hstep. unfold relays_named. induction urls as [|url urls IH] using rev_ind; [done|].
  rewrite foldl_snoc, omap_app, filter_app, IH, Hstep. cbn.
  destruct (parse_url url) as [r|]; [cbn|by rewrite app_nil_r].
  case_decide; [|by rewrite app_nil_r]. rewrite once_snoc.
  apply decide_ext. by rewrite elem_of_once.
Qed.

Lemma connect_relays dial urls : foldl (connect_step dial) [] urls = relays_named (λ r, dial r = None) urls.
Proof.
  apply foldl_relays_named. intros taken url. unfold connect_step, add.
  destruct (parse_url url) as [r|]; [cbn|done]. by destruct (dial r).
Qed.
Lemma reattach_relays dial c :
  relays (reattach dial c) = relays_named (λ r, r ∈ relays c ∨ dial r = None) (configured c).
Proof.
  apply foldl_relays_named. intros taken url. unfold reattach_step, add.
  destruct (parse_url url) as [r|]; [cbn|done]. repeat case_decide; try naive_solver.
  - by destruct (dial r) as [?|] eqn:E; [naive_solver|].
  - destruct (dial r) as [?|] eqn:E; naive_solver.
Qed.
Lemma unattached_relays c : unattached c = relays_named (λ r, r ∉ relays c) (configured c).
Proof.
  apply foldl_relays_named. intros taken url. unfold unattached_step.
  destruct (parse_url url) as [r|]; [|done]. repeat case_decide; naive_solver.
Qed.

Lemma connect_spec dial urls :
  let l := foldl (connect_step dial) [] urls in
  NoDup l ∧ ∀ r, r ∈ l ↔ ∃ url, url ∈ urls ∧ parse_url url = Some r ∧ dial r = None.
Proof.
  cbv zeta. rewrite connect_relays. split; [apply NoDup_once|]. intros r. rewrite elem_of_relays_named. naive_solver.
Qed.
Lemma reattach_spec dial c :
  NoDup (relays (reattach dial c)) ∧
  ∀ r, r ∈ relays (reattach dial c) ↔
    ∃ url, url ∈ configured c ∧ parse_url url = Some r ∧ (r ∈ relays c ∨ dial r = None).
Proof. rewrite reattach_relays. split; [apply NoDup_once|]. intros r. rewrite elem_of_relays_named. naive_solver. Qed.
Lemma unattached_spec c :
  NoDup (unattached c) ∧
  (∀ r, r ∈ unattached c ↔ (r ∉ relays c) ∧ (∃ url, url ∈ configured c ∧ parse_url url = Some r)).
Proof. rewrite unattached_relays. split; [apply NoDup_once|]. intros r. apply elem_of_relays_named. Qed.

Lemma filter_ext_in (P Q : string → Prop) `{∀ x, Decision (P x)} `{∀ x, Decision (Q x)} (l : list string) :
  (∀ x, x ∈ l → P x ↔ Q x) → filter P l = filter Q l.
Proof.
  induction l as [|x l IH]; intros HPQ; [done|]. rewrite !filter_cons.
  rewrite (IH ltac:(intros y Hy; apply HPQ; by right)).
  apply decide_ext, HPQ. by left.
Qed.
(** What is left after trying again: what was left and still does not answer. *)
Lemma still_unattached dial c :
  unattached (reattach dial c) = relays_named (λ r, (r ∉ relays c) ∧ dial r ≠ None) (configured c).
Proof.
  rewrite unattached_relays. unfold relays_named. cbn [reattach configured]. f_equal.
  apply filter_ext_in. intros r (url & Hu & Hp)%list_elem_of_omap.
  rewrite (proj2 (reattach_spec dial c)). naive_solver.
Qed.

(** C36: the relays in play are what was configured and answers, in the
    order of the configuration. A run starts with the relays its URLs name
    that answered, each where its first spelling stands and once however many
    spellings it has, and refuses to start exactly when there is none, saying
    how many URLs it tried. Reconfiguring keeps what is attached and replaces
    what is to be. Trying again then holds, in the order of the new
    configuration, those it names that were attached already or answer now
    and no other; and what is left to dial is, in that order, what is
    configured and not attached: after trying, what was not attached and
    still does not answer. *)
Theorem relays_in_play (dial : string → option string) (urls : list string) :
  let answering := relays_named (λ r, dial r = None) urls in
  connect dial urls =
    (if decide (answering = []) then Err (NoRelayReachable (Z.of_nat (length urls)))
     else Ok (mkRelayClient urls answering)) ∧
  (∀ c,
    reconfigure urls c = mkRelayClient urls (relays c) ∧
    reattach dial (reconfigure urls c) =
      mkRelayClient urls (relays_named (λ r, r ∈ relays c ∨ dial r = None) urls) ∧
    unattached (reconfigure urls c) = relays_named (λ r, r ∉ relays c) urls ∧
    unattached (reattach dial (reconfigure urls c)) = relays_named (λ r, (r ∉ relays c) ∧ dial r ≠ None) urls) ∧
  (∀ (keep : string → Prop) (kept : ∀ r, Decision (keep r)), NoDup (relays_named keep urls) ∧
    ∀ r, r ∈ relays_named keep urls ↔ keep r ∧ ∃ url, url ∈ urls ∧ parse_url url = Some r).
Proof.
  cbv zeta. split_and!.
  - unfold connect. by rewrite connect_relays.
  - intros c. split_and!; [done| | |by rewrite still_unattached].
    + exact (f_equal (mkRelayClient urls) (reattach_relays dial (reconfigure urls c))).
    + by rewrite unattached_relays.
  - intros keep Hkeep. split; [apply NoDup_once|]. intros r. apply elem_of_relays_named.
Qed.
End client.

(** ** Sending *)

Record Delivery : Type := mkDelivery { accepted : list string; refused : list (string * string) }.
Definition is_published (d : Delivery) : bool := negb (bool_decide (accepted d = [])).

(** [send]: the relays asked, and the answers sorted out of the crate's maps.
    [send_event] is [Client::send_event(event).to(relays)]. *)
Definition send (send_event : Event → list string → Result string (gset string * gmap string string))
    (c : RelayClient) (event : Event) : Result ClientError Delivery :=
  match send_event event (relays c) with
  | Err source => Err (SendError (ev_id event) source)
  | Ok (success, failed) => Ok (mkDelivery (merge_sort String.le (elements success)) (btree_iter failed))
  end.

(** ** Reading *)

Definition FETCH_TIMEOUT : Z := 60.
(** [fetch_window]: what [fetch_events] answered, and how long it took. An
    answer that is empty because nothing came in time is no end of history. *)
Definition fetch_window (relay : string) (answer : Result string (list Event)) (elapsed : Z) :
    Result ClientError (list Event) :=
  events ← map_err (FetchError relay) answer;
  if bool_decide (events = []) && bool_decide (FETCH_TIMEOUT ≤ elapsed) then Err (TimedOut relay FETCH_TIMEOUT)
  else Ok events.

Module Subscription.
Inductive RelayMessage : Type :=
| MessageEvent (subscription_id : string) (event : Event)
| MessageEndOfStored (subscription_id : string)
| MessageOther.
Inductive Notification : Type := Message (relay_url : string) (message : RelayMessage) | NotificationOther.
Inductive Incoming : Type := IncomingEvent (relay : string) (event : Event) | EndOfStored (relay : string).

(** What a notification says to the subscription [id]. *)
Definition says (id : string) (n : Notification) : option Incoming :=
  match n with
  | Message relay (MessageEvent subscription_id event) =>
      if decide (subscription_id = id) then Some (IncomingEvent relay event) else None
  | Message relay (MessageEndOfStored subscription_id) =>
      if decide (subscription_id = id) then Some (EndOfStored relay) else None
  | _ => None
  end.
(** [next_incoming] and [next_event]: what is read, and what is left of the
    stream; [None] is a client that has shut down. *)
Fixpoint next_incoming (id : string) (stream : list Notification) : option (Incoming * list Notification) :=
  match stream with
  | [] => None
  | n :: stream => match says id n with Some incoming => Some (incoming, stream) | None => next_incoming id stream end
  end.
Fixpoint next_event_from (fuel : nat) (id : string) (stream : list Notification) : option (string * Event * list Notification) :=
  match fuel with
  | O => None
  | S fuel =>
      match next_incoming id stream with
      | None => None
      | Some (IncomingEvent relay event, stream) => Some (relay, event, stream)
      | Some (EndOfStored _, stream) => next_event_from fuel id stream
      end
  end.
Definition next_event (id : string) (stream : list Notification) : option (string * Event * list Notification) :=
  next_event_from (S (length stream)) id stream.

Definition event_of (incoming : Incoming) : option (string * Event) :=
  match incoming with IncomingEvent relay event => Some (relay, event) | EndOfStored _ => None end.

(** Reading on, every event sent under the subscription comes, by whichever
    relay sends it and however often, in the order it was sent. *)
Lemma next_incoming_spec id stream :
  match next_incoming id stream with
  | None => omap (says id) stream = []
  | Some (incoming, rest) => omap (says id) stream = incoming :: omap (says id) rest ∧ (length rest < length stream)%nat
  end.
Proof.
  induction stream as [|n stream IH]; [done|]. cbn. destruct (says id n) as [i|]; [split; [done|lia]|].
  destruct (next_incoming id stream) as [[i rest]|]; [|done]. destruct IH as [-> Hl]. split; [done|lia].
Qed.
Lemma next_event_spec id stream :
  match next_event id stream with
  | None => omap event_of (omap (says id) stream) = []
  | Some (relay, event, rest) =>
      omap event_of (omap (says id) stream) = (relay, event) :: omap event_of (omap (says id) rest)
  end.
Proof.
  unfold next_event. assert (length stream < S (length stream))%nat as Hfuel by lia. revert Hfuel.
  generalize (S (length stream)) as fuel. intros fuel. revert stream. induction fuel as [|fuel IH]; intros stream Hf; [lia|].
  cbn. pose proof (next_incoming_spec id stream) as Hs. destruct (next_incoming id stream) as [[i rest]|]; [|by rewrite Hs].
  destruct Hs as [Hs Hl]. destruct i as [relay event|relay]; rewrite Hs; cbn; [done|]. apply IH. lia.
Qed.
End Subscription.

(** ** What a relay advertises: [nip11.rs] *)

Module Nip11.
Record Advertised : Type := mkAdvertised { relay : string; max_content_length : option Z }.

(** [str::split_once] on a text. *)
Fixpoint split_once_str (p s : string) : option (string * string) :=
  match strip_prefix p s with
  | Some rest => Some ("", rest)
  | None => match s with
            | EmptyString => None
            | String a s => (λ '(l, r), (String a l, r)) <$> split_once_str p s
            end
  end.
Definition http_url (relay : string) : string :=
  match split_once_str "://" relay with
  | Some (scheme, rest) =>
      if decide (scheme = "wss") then "https://" +:+ rest
      else if decide (scheme = "ws") then "http://" +:+ rest
      else relay
  | None => relay
  end.

(** [get] is the HTTP request, [advertised] the crate's reading of the
    document's [limitation.max_content_length]. *)
Definition limit_of (get : string → option string) (advertised : string → option Z) (relay : string) : option Z :=
  json ← get (http_url relay);
  limit ← advertised json;
  if decide (0 ≤ limit ≤ u64_max) then Some limit else None.
Definition limits (get : string → option string) (advertised : string → option Z) (relays : list string) : list Advertised :=
  (λ relay, mkAdvertised relay (limit_of get advertised relay)) <$> relays.
End Nip11.

Lemma relays_in_play_witness :
  let parse url := if decide (url = "nonsense") then None else Some (trim url) in
  let dial url := if decide (url = "wss://down") then Some "refused" else None in
  connect parse dial ["wss://b"; "nonsense"; "wss://down"; "wss://a "; "wss://b "] =
    Ok (mkRelayClient ["wss://b"; "nonsense"; "wss://down"; "wss://a "; "wss://b "] ["wss://b"; "wss://a"]) ∧
  connect parse dial ["nonsense"; "wss://down"] = Err (NoRelayReachable 2) ∧
  relays (reattach parse dial (reconfigure ["wss://c"; "wss://down"; "wss://b"] (mkRelayClient [] ["wss://a"; "wss://b"]))) =
    ["wss://c"; "wss://b"].
Proof.
  intros parse dial. split_and!.
  - by rewrite (proj1 (relays_in_play parse dial ["wss://b"; "nonsense"; "wss://down"; "wss://a "; "wss://b "])).
  - by rewrite (proj1 (relays_in_play parse dial ["nonsense"; "wss://down"])).
  - by rewrite (proj1 (proj2 (proj1 (proj2 (relays_in_play parse dial ["wss://c"; "wss://down"; "wss://b"]))
      (mkRelayClient [] ["wss://a"; "wss://b"])))).
Defined.

Example relays_of_a_file :
  let parse url := if decide (url = "nonsense") then None else Some (trim url) in
  let dial url := if decide (url = "wss://down") then Some "refused" else None in
  connect parse dial ["wss://a"; "nonsense"; "wss://down"; "wss://a "; "wss://b"] =
    Ok (mkRelayClient ["wss://a"; "nonsense"; "wss://down"; "wss://a "; "wss://b"] ["wss://a"; "wss://b"]) ∧
  unattached parse (mkRelayClient ["wss://a"; "wss://down"] ["wss://a"]) = ["wss://down"] ∧
  Nip11.http_url "wss://relay.example/path" = "https://relay.example/path".
Proof. vm_compute. repeat split; reflexivity. Qed.
