(* ===== verification/Discovery.v ===== *)
(** * A backfill, from its settings to its report

    [src/commands/backfill.rs] above the walk of one relay ([Backfill]), and
    [src/commands/relays.rs]: the relays dialled, every kind of every relay,
    and the rounds that follow the relays the walk itself found. *)

From S2P Require Import Prelude Network Event Db Samples Range Filters Pipeline PipelineFacts Growth.
From S2P Require Config Cli Client RepoRelays ParseOrder ParseDevFee ParseDispute Text.
From S2P Require Import Backfill.

#[local] Open Scope Z_scope.

(** ** Work on the archive

    A step that reads and writes the archive, ends with a value or an error,
    and may want more fuel than it was given. *)
Definition Job (E A : Type) : Type := Db → option (Result E A * Db).
Definition job_ret {E A} (a : A) : Job E A := λ db, Some (Ok a, db).
Definition job_bind {E A B} (m : Job E A) (f : A → Job E B) : Job E B := λ db,
  match m db with
  | Some (Ok a, db) => f a db
  | Some (Err e, db) => Some (Err e, db)
  | None => None
  end.
Definition job_of {E A} (m : Result E A) : Job E A := λ db, Some (m, db).
Definition job_write {E A} (f : Db → A * Db) : Job E A := λ db, let '(a, db) := f db in Some (Ok a, db).

Declare Scope job_scope.
Notation "x ⇐ m ; k" := (job_bind m (λ x, k)) (at level 20, m at level 100, k at level 200, right associativity,
  format "x  ⇐  m ;  '/' k") : job_scope.
Notation "' x ⇐ m ; k" := (job_bind m (λ x, match x with x => k end))
  (at level 20, x pattern, m at level 100, k at level 200, right associativity) : job_scope.
#[local] Open Scope job_scope.

(** What a backfill can end with instead of a count. *)
Inductive BackfillError : Type :=
| UnknownKind (kind : Z)
| BadRange (e : RangeError)
| BadInstance (pubkey : string)
| Unreachable (e : Client.ClientError)
| Storage (e : SqlError).

(** ** The relays to dial: [relays.rs] *)

Definition connection_set (settings : Config.Settings) (now : Z) (db : Db) : list string * Db :=
  let configured := Config.ns_relays (Config.se_nostr settings) in
  let db := foldl (λ db url, RepoRelays.Relays.upsert db url RepoRelays.Relays.Config now) db configured in
  (if Config.ns_discover_relays (Config.se_nostr settings) then
     foldl (λ set relay, let url := RepoRelays.Relays.relay_url relay in
       if decide (url ∈ set) then set else set ++ [url]) configured (RepoRelays.Relays.discovered db)
   else configured, db).

(** ** Whom to ask about *)

Section backfill.
Context `{External} `{PublicKeys}.

Definition listed_instances (settings : Config.Settings) : Result BackfillError (list string) :=
  collect ((λ pubkey, ok_or (parse_key pubkey) (BadInstance pubkey)) <$>
    Config.is_instances (Config.se_indexer settings)).
Definition authors (settings : Config.Settings) : Result BackfillError (list string) :=
  if Config.is_accept_unknown_instances (Config.se_indexer settings) then Ok [] else listed_instances settings.

(** [Policy::from(&settings.indexer)]. *)
Definition policy_from (indexer : Config.IndexerSettings) : Policy :=
  policy_new (Config.is_instances indexer) (Config.is_accept_unknown_instances indexer) (Config.is_networks indexer).

(** ** The walk *)

(** How a relay answers a request; which URLs parse; and which relays answer
    when they are dialled, each time they are. *)
Context (fetch : string → Filter → option (list Event)).
Context (parse_url : string → option string) (dial : nat → string → option string).
Context (policy : Policy) (now : Z) (asked_authors listed : list string) (fuel : nat).

Definition walk_one (relay : string) (kind : Z) (range : Range) : Job BackfillError Counts := λ db,
  (λ '(counts, db), (map_err Storage counts, db)) <$>
    walk policy (fetch relay) relay now kind asked_authors WINDOW_LIMIT fuel listed db range.
Fixpoint walk_kinds (relay : string) (kinds : list Z) (range : Range) (walked : Counts) : Job BackfillError Counts :=
  match kinds with
  | [] => job_ret walked
  | kind :: kinds =>
      more ⇐ walk_one relay kind range;
      walk_kinds relay kinds range (add_counts walked more)
  end.
Fixpoint walk_relays (relays : list string) (kinds : list Z) (range : Range) (counts : Counts) :
    Job BackfillError Counts :=
  match relays with
  | [] => job_ret counts
  | relay :: relays =>
      walked ⇐ walk_kinds relay kinds range no_counts;
      walk_relays relays kinds range (add_counts counts walked)
  end.

Definition MAX_DISCOVERY_ROUNDS : nat := 3.

(** [round] is how many rounds came before. *)
Fixpoint rounds (remaining round : nat) (settings : Config.Settings) (kinds : list Z) (range : Range)
    (client : Client.RelayClient) (counts : Counts) : Job BackfillError (Counts * Client.RelayClient) :=
  match remaining with
  | O => job_ret (counts, client)
  | S remaining =>
      set ⇐ job_write (connection_set settings now);
      let client := Client.reconfigure set client in
      if decide (Client.unattached parse_url client = []) then job_ret (counts, client)
      else
        let before := Client.relays client in
        let client := Client.reattach parse_url (dial (S round)) client in
        let fresh := filter (λ relay, relay ∉ before) (Client.relays client) in
        if decide (fresh = []) then job_ret (counts, client)
        else
          more ⇐ walk_relays fresh kinds range no_counts;
          rounds remaining (S round) settings kinds range client (add_counts counts more)
  end.
Definition walk_with_discovery (settings : Config.Settings) (kinds : list Z) (range : Range)
    (client : Client.RelayClient) : Job BackfillError (Counts * Client.RelayClient) :=
  counts ⇐ walk_relays (Client.relays client) kinds range no_counts;
  if Config.ns_discover_relays (Config.se_nostr settings) then
    rounds MAX_DISCOVERY_ROUNDS 0 settings kinds range client counts
  else job_ret (counts, client).
End backfill.

(** ** The command *)

Section run.
Context `{External} `{PublicKeys}.
Context (fetch : string → Filter → option (list Event)).
Context (parse_url : string → option string) (dial : nat → string → option string).

Definition kinds_asked (kind : option Z) : Result BackfillError (list Z) :=
  ok_or (requested_kinds kind) (UnknownKind (default 0 kind)).
Definition range_asked (settings : Config.Settings) (cli : Cli.Cli) (now : Z) : Result BackfillError Range :=
  let from := default (Config.is_backfill_from (Config.se_indexer settings)) (Cli.cl_from cli) in
  map_err BadRange (Range.resolve (Some from) (Cli.cl_until cli) now).

(** [run]: what it counted, over which window, and the relays it ended with. *)
Definition run (fuel : nat) (settings : Config.Settings) (cli : Cli.Cli) (kind : option Z) (now : Z) :
    Job BackfillError (Counts * Range * Client.RelayClient) :=
  kinds ⇐ job_of (kinds_asked kind);
  range ⇐ job_of (range_asked settings cli now);
  relays ⇐ job_write (connection_set settings now);
  client ⇐ job_of (map_err Unreachable (Client.connect parse_url (dial 0) relays));
  asked ⇐ job_of (authors settings);
  listed ⇐ job_of (listed_instances settings);
  '(counts, client) ⇐ walk_with_discovery fetch parse_url dial (policy_from (Config.se_indexer settings)) now
    asked listed fuel settings kinds range client;
  job_write (λ db, ((counts, range, client),
    foldl (λ db kind, RepoRelays.IndexedKinds.record db kind (range_from range) now) db kinds)).
End run.

(** ** Whatever the relays answer, the archive only grows *)

Section growing.
Context `{External} `{PublicKeys}.
Context (policy : Policy).

Definition growing {E A} (m : Job E A) : Prop := ∀ db r db', m db = Some (r, db') → grows policy db db'.

Lemma growing_ret {E A} (a : A) : growing (job_ret (E := E) a).
Proof. intros db r db' [= _ <-]. constructor. Qed.
Lemma growing_of {E A} (m : Result E A) : growing (job_of m).
Proof. intros db r db' [= _ <-]. constructor. Qed.
Lemma growing_write {E A} (f : Db → A * Db) : (∀ db, grows policy db (f db).2) → growing (job_write (E := E) f).
Proof. intros Hf db r db'. unfold job_write. specialize (Hf db). destruct (f db). by intros [= _ <-]. Qed.
Lemma growing_bind {E A B} (m : Job E A) (f : A → Job E B) :
  growing m → (∀ a, growing (f a)) → growing (job_bind m f).
Proof.
  intros Hm Hf db r db'. unfold job_bind. destruct (m db) as [[[a|e] db1]|] eqn:Em; [|intros [= _ <-]; by eapply Hm|done].
  intros Hr. etransitivity; [by eapply Hm|by eapply Hf].
Qed.

Lemma ingest_list_grows relay now db events counts :
  grows policy db (ingest_list policy relay now db events counts).2.
Proof.
  revert db counts. induction events as [|e events IH]; intros db counts; [constructor|]. cbn.
  destruct (ingest policy db e relay now) as [[o|err] db1] eqn:Ei.
  - etransitivity; [|apply IH]. eapply grows_event, Ei. constructor.
  - eapply grows_event, Ei. constructor.
Qed.
Lemma walk_from_grows fetch relay now kind authors limit vch floor fuel db until counts r db' :
  walk_from policy fetch relay now kind authors limit vch floor fuel db until counts = Some (r, db') → grows policy db db'.
Proof.
  revert db until counts. induction fuel as [|fuel IH]; intros db until counts; [done|]. cbn.
  case_decide; [intros [= _ <-]; constructor|]. destruct (page _ _ _ _ _ _ _ _) as [events|]; [|intros [= _ <-]; constructor].
  unfold ingest_all. pose proof (ingest_list_grows relay now db (reverse events) no_counts) as Hg.
  destruct (ingest_list _ _ _ _ _ _) as [[more|e] db1]; [|by intros [= _ <-]]. intros Hw. etransitivity; [exact Hg|by eapply IH].
Qed.
Lemma walk_relays_grow fetch now asked listed fuel relays kinds range counts :
  growing (walk_relays fetch policy now asked listed fuel relays kinds range counts).
Proof.
  assert (∀ relay kind, growing (walk_one fetch policy now asked listed fuel relay kind range)) as Hone.
  { intros relay kind db r db'. unfold walk_one, walk. destruct (walk_from _ _ _ _ _ _ _ _ _ _ _ _ _) as [[c db1]|] eqn:Ew; [|done].
    intros [= _ <-]. by eapply walk_from_grows. }
  assert (∀ relay walked, growing (walk_kinds fetch policy now asked listed fuel relay kinds range walked)) as Hkinds.
  { intros relay. induction kinds as [|kind kinds IH]; intros walked; [apply growing_ret|]. cbn. apply growing_bind; auto. }
  revert counts. induction relays as [|relay relays IH]; intros counts; [apply growing_ret|]. cbn. apply growing_bind; auto.
Qed.
Lemma connection_set_grows settings now db : grows policy db (connection_set settings now db).2.
Proof. apply grows_upserts. Qed.
Lemma rounds_grow fetch parse_url dial now asked listed fuel remaining round settings kinds range client counts :
  growing (rounds fetch parse_url dial policy now asked listed fuel remaining round settings kinds range client counts).
Proof.
  revert round client counts. induction remaining as [|remaining IH]; intros round client counts; [apply growing_ret|]. cbn.
  apply growing_bind; [apply growing_write, connection_set_grows|]. intros set.
  case_decide; [apply growing_ret|]. cbv zeta. case_decide; [apply growing_ret|].
  apply growing_bind; [apply walk_relays_grow|]. intros more. apply IH.
Qed.
End growing.
Lemma run_grows `{External} `{PublicKeys} fetch parse_url dial fuel settings cli kind now :
  growing (policy_from (Config.se_indexer settings)) (run fetch parse_url dial fuel settings cli kind now).
Proof.
  unfold run, walk_with_discovery. repeat (apply growing_bind; [|intros ?]); try apply growing_of.
  - apply growing_write, connection_set_grows.
  - apply walk_relays_grow.
  - destruct (Config.ns_discover_relays _); [apply rounds_grow|apply growing_ret].
  - destruct a5. apply growing_write. intros db. apply grows_requests.
Qed.

(** ** A backfill ends

    With relays that send nothing outside the bounds they are asked for,
    whatever else they do, and fuel for the window asked for. *)

Section ending.
Context `{External} `{PublicKeys}.
Definition finishes {E A} (m : Job E A) : Prop := ∀ db, is_Some (m db).

Lemma finishes_ret {E A} (a : A) : finishes (job_ret (E := E) a).
Proof. intros db. by eexists. Qed.
Lemma finishes_write {E A} (f : Db → A * Db) : finishes (job_write (E := E) f).
Proof. intros db. unfold job_write. destruct (f db). by eexists. Qed.
Lemma finishes_bind {E A B} (m : Job E A) (f : A → Job E B) :
  finishes m → (∀ a, finishes (f a)) → finishes (job_bind m f).
Proof. intros Hm Hf db. unfold job_bind. destruct (Hm db) as [[[a|e] db1] ->]; [apply Hf|by eexists]. Qed.
Lemma finishes_of {E A B} (m : Result E A) (f : A → Job E B) :
  (∀ a, m = Ok a → finishes (f a)) → finishes (job_bind (job_of m) f).
Proof. intros Hf db. unfold job_bind, job_of. destruct m as [a|e]; [by apply Hf|by eexists]. Qed.

Context (fetch : string → Filter → option (list Event)).
Context (parse_url : string → option string) (dial : nat → string → option string).
Context (bounded : ∀ relay, honours_bounds (fetch relay)).

Lemma walk_relays_finish policy now asked listed fuel range relays kinds counts :
  0 ≤ range_from range → range_until range < i64_max → (enough range ≤ fuel)%nat →
  finishes (walk_relays fetch policy now asked listed fuel relays kinds range counts).
Proof.
  intros Hfl Hce Hfuel.
  assert (∀ relay kind, finishes (walk_one fetch policy now asked listed fuel relay kind range)) as Hone.
  { intros relay kind db. unfold walk_one, walk. rewrite walk_pages.
    destruct (pages_total (fetch relay) now kind asked WINDOW_LIMIT (vouched listed db) (range_from range) fuel
      (range_until range) (bounded relay) Hfl Hce) as [ps ->]; [unfold enough in Hfuel; lia|].
    cbn. destruct (ingest_pages _ _ _ _ _ _) as [c d]. by eexists. }
  assert (∀ relay walked, finishes (walk_kinds fetch policy now asked listed fuel relay kinds range walked)) as Hkinds.
  { intros relay. induction kinds as [|kind kinds IH]; intros walked; [apply finishes_ret|]. cbn. apply finishes_bind; auto. }
  revert counts. induction relays as [|relay relays IH]; intros counts; [apply finishes_ret|]. cbn. apply finishes_bind; auto.
Qed.
Lemma rounds_finish policy now asked listed fuel remaining round settings kinds range client counts :
  0 ≤ range_from range → range_until range < i64_max → (enough range ≤ fuel)%nat →
  finishes (rounds fetch parse_url dial policy now asked listed fuel remaining round settings kinds range client counts).
Proof.
  intros Hfl Hce Hfuel. revert round client counts.
  induction remaining as [|remaining IH]; intros round client counts; [apply finishes_ret|]. cbn.
  apply finishes_bind; [apply finishes_write|]. intros set.
  case_decide; [apply finishes_ret|]. cbv zeta. case_decide; [apply finishes_ret|].
  apply finishes_bind; [by apply walk_relays_finish|]. intros more. apply IH.
Qed.
Lemma run_finishes fuel settings cli kind now :
  (∀ range, range_asked settings cli now = Ok range →
    0 ≤ range_from range ∧ range_until range < i64_max ∧ (enough range ≤ fuel)%nat) →
  finishes (run fetch parse_url dial fuel settings cli kind now).
Proof.
  intros Hrange. unfold run, walk_with_discovery. apply finishes_of. intros kinds _.
  apply finishes_of. intros range (Hfl & Hce & Hfuel)%Hrange.
  apply finishes_bind; [apply finishes_write|]. intros relays.
  do 3 (apply finishes_of; intros ? _). apply finishes_bind; [|intros []; apply finishes_write].
  apply finishes_bind; [by apply walk_relays_finish|]. intros counts.
  destruct (Config.ns_discover_relays _); [by apply rounds_finish|apply finishes_ret].
Qed.
End ending.

(** ** Nothing a relay in play holds is left behind *)

Section facts.
Context `{External} `{PublicKeys}.
(** [PublicKey::parse] reads hex in either case. *)
Class PublicKeysLaws : Prop := parse_key_hex p : Config.hex_pubkey p → parse_key p = Some (to_lowercase p).
Context `{!PublicKeysLaws}.
Context (fetch : string → Filter → option (list Event)).
Context (parse_url : string → option string) (dial : nat → string → option string).
(** What each relay holds, and how many events it answers at most. *)
Context (held : string → list Event) (cap : nat) (relays_honest : ∀ relay, honest (fetch relay) (held relay) cap).
Context (settings : Config.Settings) (settings_usable : Config.usable settings).
Context (now : Z) (range : Range) (floor_ok : 0 ≤ range_from range) (ceiling_ok : range_until range < i64_max)
  (width_ok : range_until range - range_from range ≤ MAX_WINDOW_SECS).

#[local] Abbreviation policy := (policy_from (Config.se_indexer settings)).
#[local] Abbreviation TAGGED := [ParseOrder.KIND; ParseDevFee.KIND; ParseDispute.KIND].

(** The archive has every wanted order, fee and dispute of the window that
    the relay holds, unless more of a kind share its second than the relay
    answers at once. *)
Definition complete (kinds : list Z) (relay : string) (db : Db) : Prop :=
  ∀ e, e ∈ held relay → ev_kind e ∈ kinds → ev_kind e ∈ TAGGED →
    contains range (ev_created_at e) = true → admits policy e = None → to_lowercase (ev_pubkey e) = ev_pubkey e →
    (length (filter (λ x, ev_kind x = ev_kind e ∧ ev_created_at x = ev_created_at e) (held relay)) ≤ cap)%nat →
    is_Some (events db !! ev_id e).
(** Work goes on from reachable archives to reachable ones and forgets no event. *)
Definition keeps (db db' : Db) : Prop :=
  (reachable policy db → reachable policy db') ∧ ∀ k, is_Some (events db !! k) → is_Some (events db' !! k).
(** A job that ends well, and what it leaves. *)
Definition ends {A} (m : Job BackfillError A) (db : Db) (post : A → Db → Prop) : Prop :=
  ∃ a db', m db = Some (Ok a, db') ∧ keeps db db' ∧ post a db'.

Lemma filter_length_impl {A} (P Q : A → Prop) `{!∀ x, Decision (P x), !∀ x, Decision (Q x)} l :
  (∀ x, P x → Q x) → (length (filter P l) ≤ length (filter Q l))%nat.
Proof.
  intros HPQ. induction l as [|a l IH]; [done|]. rewrite !filter_cons.
  destruct (decide (P a)) as [Hp|]; [rewrite decide_True by auto; cbn; lia|]. case_decide; cbn; lia.
Qed.
#[export] Instance keeps_preorder : PreOrder keeps.
Proof.
  split; [by intros db; split|]. intros db1 db2 db3 [Ha Hb] [Hc Hd]. split; auto.
Qed.
Lemma complete_keeps kinds relay db db' : keeps db db' → complete kinds relay db → complete kinds relay db'.
Proof. intros [_ Hk] Hc e ???????. by apply Hk, Hc. Qed.
Lemma ends_bind {A B} (m : Job BackfillError A) (f : A → Job BackfillError B) db post post' :
  ends m db post → (∀ a db', keeps db db' → post a db' → ends (f a) db' post') → ends (job_bind m f) db post'.
Proof.
  intros (a & db1 & Hm & Hk & Hp) Hf. destruct (Hf a db1 Hk Hp) as (b & db2 & Hb & Hk' & Hp').
  exists b, db2. unfold job_bind. rewrite Hm. split_and!; [done| |done]. by etransitivity.
Qed.
Lemma ends_ret {A} (a : A) db (post : A → Db → Prop) : post a db → ends (job_ret a) db post.
Proof. intros Hp. exists a, db. split_and!; [done| |done]. done. Qed.

(** Everyone wanted is asked about. *)
Lemma listed_ok : listed_instances settings = Ok (to_lowercase <$> Config.is_instances (Config.se_indexer settings)).
Proof.
  unfold listed_instances. apply collect_map_Ok. intros p Hp.
  by rewrite parse_key_hex by (by apply (Config.us_instances _ settings_usable)).
Qed.
Lemma authors_ok : ∃ asked, authors settings = Ok asked ∧
  ∀ e, admits policy e = None → to_lowercase (ev_pubkey e) = ev_pubkey e → asked = [] ∨ ev_pubkey e ∈ asked.
Proof.
  unfold authors. destruct (Config.is_accept_unknown_instances (Config.se_indexer settings)) eqn:Ea.
  - exists []. split; [done|]. by left.
  - eexists. split; [apply listed_ok|]. intros e Hadm Hlow. right. unfold admits in Hadm.
    destruct (verify e); [|done]. cbn in Hadm. destruct (accepts_instance _ _) eqn:Eacc; [|done].
    unfold accepts_instance, policy_from, policy_new in Eacc. cbn in Eacc. rewrite Ea in Eacc. cbn in Eacc.
    unfold lists_instance in Eacc. cbn in Eacc. apply bool_decide_eq_true in Eacc. rewrite Hlow in Eacc.
    apply elem_of_list_to_set, list_elem_of_fmap in Eacc as (p & -> & Hp).
    rewrite Text.trim_plain; [by apply list_elem_of_fmap_2|].
    eapply Text.forall_char_impl; [apply Text.hexdigit_plain|]. by apply (Config.us_instances _ settings_usable).
Qed.
Lemma asked_tagged kind asked limit vch floor until e :
  kind ∈ TAGGED → ev_kind e = kind → asked = [] ∨ ev_pubkey e ∈ asked →
  Backfill.asked kind asked limit vch floor until e = true.
Proof.
  intros Hk He Ha. assert ((kind ∉ UNTAGGED_KINDS) ∧ kind ≠ ParseRates.KIND) as [Hu Hr].
  { by repeat (apply elem_of_cons in Hk as [->|Hk]; [split; [by apply (bool_decide_unpack _)|done]|]); apply elem_of_nil in Hk. }
  unfold Backfill.asked, for_kind. rewrite (bool_decide_eq_false_2 (kind ∈ UNTAGGED_KINDS)) by done.
  destruct (window (mkRange floor until)). unfold asks_base. cbn. rewrite bool_decide_eq_true_2, (decide_False (P := kind = _)) by done. cbn.
  destruct Ha as [-> | Ha]; [by rewrite decide_True|].
  rewrite decide_False by (intros ->; by apply elem_of_nil in Ha). cbn. by apply bool_decide_eq_true.
Qed.

Section walk.
Context (asked : list string) (asked_ok : ∀ e, admits policy e = None → to_lowercase (ev_pubkey e) = ev_pubkey e →
  asked = [] ∨ ev_pubkey e ∈ asked).
Context (listed : list string).

Lemma walk_one_ends relay kind db :
  ends (walk_one fetch policy now asked listed (enough range) relay kind range) db
    (λ _ db', complete [kind] relay db').
Proof.
  destruct (walk_complete policy (fetch relay) relay now kind asked WINDOW_LIMIT listed db range (held relay) cap
    (relays_honest relay) floor_ok ceiling_ok width_ok) as (counts & db' & Hw & Hr & Hm & Hin).
  exists counts, db'. unfold walk_one. rewrite Hw. split_and!; [done|by split|].
  intros e He Hk%list_elem_of_singleton Ht Hc Ha Hlow Hsec. apply Hin; try done.
  - apply asked_tagged; [by rewrite <- Hk|done|]. by apply asked_ok.
  - etransitivity; [|exact Hsec]. unfold in_second. apply filter_length_impl.
    intros x [Hx Hx']. split; [|done]. unfold Backfill.asked in Hx. destruct (for_kind _ _ _ _ _) as [f|] eqn:Ef; [|done].
    assert (flt_kind f = kind) as Hf.
    { unfold for_kind in Ef. destruct (_ && _); [done|]. destruct (window _). by injection Ef as <-. }
    unfold asks_base in Hx. rewrite !andb_true_iff in Hx. destruct Hx as [[Hx _] _]. apply bool_decide_eq_true in Hx.
    congruence.
Qed.

#[local] Abbreviation walk_kinds' := (walk_kinds fetch policy now asked listed (enough range)).
#[local] Abbreviation walk_relays' := (walk_relays fetch policy now asked listed (enough range)).

Lemma walk_kinds_end relay kinds walked db :
  ends (walk_kinds' relay kinds range walked) db (λ _ db', complete kinds relay db').
Proof.
  revert walked db. induction kinds as [|kind kinds IH]; intros walked db.
  { apply ends_ret. intros e _ Hk. by apply elem_of_nil in Hk. }
  cbn [walk_kinds]. eapply ends_bind; [apply walk_one_ends|]. intros more db1 _ Hone.
  destruct (IH (add_counts walked more) db1) as (c & db2 & Hw & Hk & Hrest). exists c, db2. split_and!; [done..|].
  intros e He [Hek | Hin]%elem_of_cons; [|by apply Hrest].
  apply (complete_keeps _ _ _ _ Hk Hone); [done|]. rewrite Hek. by left.
Qed.
Lemma walk_relays_end relays kinds counts db :
  ends (walk_relays' relays kinds range counts) db (λ _ db', ∀ relay, relay ∈ relays → complete kinds relay db').
Proof.
  revert counts db. induction relays as [|relay relays IH]; intros counts db.
  { apply ends_ret. intros relay Hr. by apply elem_of_nil in Hr. }
  cbn [walk_relays]. eapply ends_bind; [apply walk_kinds_end|]. intros walked db1 _ Hone.
  destruct (IH (add_counts counts walked) db1) as (c & db2 & Hw & Hk & Hrest). exists c, db2. split_and!; [done..|].
  intros relay' [-> | Hin]%elem_of_cons; [|by apply Hrest]. by eapply complete_keeps.
Qed.

(** What a run writes for itself. *)
Lemma upserts_keep source db urls :
  keeps db (foldl (λ db url, RepoRelays.Relays.upsert db url source now) db urls).
Proof.
  revert db. induction urls as [|url urls IH]; intros db; [done|]. cbn. etransitivity; [|apply IH].
  split; [apply reach_relay|done].
Qed.
Lemma connection_set_keeps db : keeps db (connection_set settings now db).2.
Proof. unfold connection_set. cbn [snd]. apply upserts_keep. Qed.
Lemma job_write_ends {A} (f : Db → A * Db) db : keeps db (f db).2 → ends (job_write f) db (λ a db', (a, db') = f db).
Proof. intros Hk. unfold ends, job_write. destruct (f db) as [a db'] eqn:E. by exists a, db'. Qed.

(** The relays of the client have been walked, each once. *)
Definition walked (kinds : list Z) (client : Client.RelayClient) (db : Db) : Prop :=
  NoDup (Client.relays client) ∧ ∀ relay, relay ∈ Client.relays client → complete kinds relay db.
Lemma rounds_end remaining round kinds client counts db :
  walked kinds client db →
  ends (rounds fetch parse_url dial policy now asked listed (enough range) remaining round settings kinds range client counts) db
    (λ r db', walked kinds r.2 db').
Proof.
  revert round client counts db. induction remaining as [|remaining IH]; intros round client counts db Hw.
  { by apply ends_ret. }
  cbn [rounds]. eapply ends_bind; [apply job_write_ends, connection_set_keeps|]. intros set db1 Hk1 _.
  destruct Hw as [Hnd Hall].
  assert (∀ relay, relay ∈ Client.relays client → complete kinds relay db1) as Hall1 by eauto using complete_keeps.
  case_decide; [by apply ends_ret|]. set (client' := Client.reattach _ _ _).
  pose proof (Client.reattach_spec parse_url (dial (S round)) (Client.reconfigure set client)) as [Hnd' Hin'].
  fold client' in Hnd', Hin'. change (Client.relays (Client.reconfigure set client)) with (Client.relays client) in *.
  assert (∀ db2, keeps db1 db2 →
    (∀ relay, relay ∈ filter (λ relay, relay ∉ Client.relays client) (Client.relays client') → complete kinds relay db2) →
    walked kinds client' db2) as Hwalked.
  { intros db2 Hk2 Hfresh. split; [done|]. intros relay Hr.
    destruct (decide (relay ∈ Client.relays client)); [by eapply complete_keeps, Hall1|].
    apply Hfresh. by apply list_elem_of_filter. }
  case_decide as Hf.
  - apply ends_ret. apply Hwalked; [done|]. rewrite Hf. intros relay Hr. by apply elem_of_nil in Hr.
  - eapply ends_bind; [apply walk_relays_end|]. intros more db2 Hk2 Hfresh. apply IH. by apply Hwalked.
Qed.
Lemma walk_with_discovery_ends kinds client db :
  NoDup (Client.relays client) →
  ends (walk_with_discovery fetch parse_url dial policy now asked listed (enough range) settings kinds range client) db
    (λ r db', walked kinds r.2 db' ∧ ∀ relay, relay ∈ Client.relays client → complete kinds relay db').
Proof.
  intros Hnd. unfold walk_with_discovery. eapply ends_bind; [apply walk_relays_end|]. intros counts db1 _ Hall.
  destruct (Config.ns_discover_relays _); [|by apply ends_ret].
  destruct (rounds_end MAX_DISCOVERY_ROUNDS 0 kinds client counts db1) as (r & db2 & Hr & Hk & Hw); [done|].
  exists r, db2. split_and!; [done..|]. intros relay Hin. by eapply complete_keeps, Hall.
Qed.
End walk.

Lemma requested_keep db kinds from :
  keeps db (foldl (λ db kind, RepoRelays.IndexedKinds.record db kind from now) db kinds) ∧
  (∀ kind f, RepoRelays.IndexedKinds.indexed_from db kind = Some f → ∃ f',
    RepoRelays.IndexedKinds.indexed_from (foldl (λ db kind, RepoRelays.IndexedKinds.record db kind from now) db kinds) kind = Some f' ∧ f' ≤ f) ∧
  ∀ kind, kind ∈ kinds → ∃ f,
    RepoRelays.IndexedKinds.indexed_from (foldl (λ db kind, RepoRelays.IndexedKinds.record db kind from now) db kinds) kind = Some f ∧
    f ≤ Z.max from 0.
Proof.
  revert db. induction kinds as [|k kinds IH]; intros db.
  { split_and!; [done|intros kind f Hf; by exists f|]. intros kind Hk. by apply elem_of_nil in Hk. }
  cbn [foldl]. destruct (IH (RepoRelays.IndexedKinds.record db k from now)) as (Hk & Hmono & Hin). split_and!.
  - etransitivity; [|exact Hk]. split; [apply reach_requested|done].
  - intros kind f Hf.
    assert (∃ f1, RepoRelays.IndexedKinds.indexed_from (RepoRelays.IndexedKinds.record db k from now) kind = Some f1 ∧ f1 ≤ f)
      as (f1 & Hf1 & Hle1).
    { rewrite RepoRelays.IndexedKinds.record_lookup. case_decide as E; [subst; rewrite Hf; eexists; split; [done|lia]|].
      exists f. by split. }
    destruct (Hmono kind f1 Hf1) as (f2 & Hf2 & Hle2). exists f2. split; [done|lia].
  - intros kind [-> | Hkind]%elem_of_cons; [|by apply Hin].
    destruct (Hmono k (match RepoRelays.IndexedKinds.indexed_from db k with Some f => Z.min f (Z.max from 0) | None => Z.max from 0 end))
      as (f & Hf & Hle); [rewrite RepoRelays.IndexedKinds.record_lookup; by rewrite decide_True|].
    exists f. split; [done|]. destruct (RepoRelays.IndexedKinds.indexed_from db k); lia.
Qed.
End facts.

(** C6: a backfill over honest relays misses none of the orders, fees and
    disputes it asks for. The relays are supposed honest: each always answers,
    honours the bounds of the request, sends only what it holds and matches,
    and leaves out only what is older than a full page of its own cap. Once
    the settings are valid, the window is one and some relay answers the dial,
    the run ends within the fuel its window gives, well and on a reachable
    archive; and every wanted event of a tagged kind among those asked for
    (orders, fees, disputes), signed in the window, with its publisher in
    lowercase, and held by a relay the run started with or found on the way,
    is in the archive, provided that relay holds no more events of that kind
    in that second than its cap. Every kind asked for is on record as asked
    for. Nothing is claimed of a second fuller than the cap, nor of the
    untagged kinds. *)
Theorem backfill_leaves_nothing `{External} `{PublicKeys} `{!PublicKeysLaws} fetch parse_url dial held cap
    (settings : Config.Settings) (cli : Cli.Cli) kind now db kinds range client :
  (∀ relay, honest (fetch relay) (held relay) cap) → Config.usable settings →
  reachable (policy_from (Config.se_indexer settings)) db →
  kinds_asked kind = Ok kinds → range_asked settings cli now = Ok range →
  0 ≤ range_from range → range_until range < i64_max →
  Client.connect parse_url (dial 0%nat) (connection_set settings now db).1 = Ok client →
  ∃ counts client' db',
    run fetch parse_url dial (enough range) settings cli kind now db = Some (Ok (counts, range, client'), db') ∧
    reachable (policy_from (Config.se_indexer settings)) db' ∧ NoDup (Client.relays client') ∧
    (∀ relay, relay ∈ Client.relays client ∨ relay ∈ Client.relays client' →
      complete held cap settings range kinds relay db') ∧
    ∀ k, k ∈ kinds → ∃ f, RepoRelays.IndexedKinds.indexed_from db' k = Some f ∧ f ≤ range_from range.
Proof.
  intros Hh Hu Hr Hk Hrange Hfl Hce Hc.
  assert (range_until range - range_from range ≤ MAX_WINDOW_SECS) as Hwide.
  { unfold range_asked in Hrange. destruct (Range.resolve _ _ _) as [r|] eqn:E; [|done]. injection Hrange as ->.
    apply resolve_Ok in E as (_ & _ & Hlt & Hs). unfold i64_saturating_sub, i64_min, i64_max in *. lia. }
  assert (NoDup (Client.relays client)) as Hnd.
  { unfold Client.connect in Hc. case_decide; [done|]. injection Hc as <-. apply Client.connect_spec. }
  destruct (authors_ok settings Hu) as (asked & Ha & Hasked). pose proof (listed_ok settings Hu) as Hl.
  destruct (walk_with_discovery_ends fetch parse_url dial held cap Hh settings now range Hfl Hce Hwide asked Hasked
    (to_lowercase <$> Config.is_instances (Config.se_indexer settings)) kinds client (connection_set settings now db).2 Hnd)
    as ([counts client'] & db1 & Hw & [Hk1 _] & [Hnd' Hwalked] & Hfirst).
  destruct (requested_keep settings now db1 kinds (range_from range)) as (Hk2 & _ & Hrec).
  eexists counts, client', _. split.
  { unfold run, job_bind, job_of, job_write. rewrite Hk, Hrange. destruct (connection_set settings now db) as [relays db0] eqn:Es.
    cbn in Hc. rewrite Hc. cbn [map_err]. rewrite Ha, Hl. cbn in Hw. rewrite Hw. reflexivity. }
  split_and!.
  - apply Hk2, Hk1, connection_set_keeps, Hr.
  - done.
  - intros relay [Hin | Hin]; (eapply complete_keeps; [exact Hk2|]); auto.
  - intros k Hin. destruct (Hrec k Hin) as (f & Hf & Hle). exists f. split; [done|lia].
Qed.

(** ** A backfill at a concrete input *)

Module sample.
#[export] Existing Instances Demo.demo.
#[export] Instance keys : PublicKeys := λ p, Some (to_lowercase p).
#[export] Instance keys_laws : PublicKeysLaws.
Proof. done. Qed.
Definition settings : Config.Settings := Config.deserialized {|
  Config.wr_relays := Some ["wss://one"]; Config.wr_discover_relays := Some true; Config.wr_resume_overlap_secs := None;
  Config.wr_instances := None; Config.wr_accept_unknown_instances := Some true; Config.wr_networks := None;
  Config.wr_backfill_from := Some 1700000000; Config.wr_dev_fee_percentage_default := None;
  Config.wr_dev_fee_percentage := None; Config.wr_url := None; Config.wr_reference_currency := None;
  Config.wr_publish_relays := Some ["wss://one"]; Config.wr_max_content_bytes := None; Config.wr_nsec := None;
|}.
Definition cli : Cli.Cli := Cli.mkCli None false None (Some 1700001000) None None 0 (Cli.Backfill None).
Lemma settings_usable : Config.usable settings.
Proof.
  pose proof (Config.validate_verdict settings) as Hv. assert (Config.validate settings = Ok ()) as E by (vm_compute; reflexivity).
  by rewrite E in Hv.
Qed.
Definition client : Client.RelayClient := Client.mkRelayClient ["wss://one"] ["wss://one"].
Lemma held_e1 : order_event "e1" 1700000100 "pending" ∈ relay_held.
Proof. right. by left. Qed.
Lemma held_e2 : order_event "e2" 1700000200 "success" ∈ relay_held.
Proof. by left. Qed.
Lemma order_indexed : ParseOrder.KIND ∈ INDEXED_KINDS.
Proof. by left. Qed.
End sample.
#[local] Existing Instances Demo.demo sample.keys sample.keys_laws.
Theorem backfill_leaves_nothing_witness :
  ∃ counts client db',
    run (λ _, one_at_a_time) Some (λ _ _, None) (enough (mkRange 1700000000 1700001000)) sample.settings sample.cli None 0 empty_db =
      Some (Ok (counts, mkRange 1700000000 1700001000, client), db') ∧
    is_Some (events db' !! "e1") ∧ is_Some (events db' !! "e2").
Proof.
  destruct (backfill_leaves_nothing (λ _, one_at_a_time) Some (λ _ _, None) (λ _, relay_held) 1 sample.settings sample.cli
    None 0 empty_db INDEXED_KINDS (mkRange 1700000000 1700001000) sample.client)
    as (counts & client & db' & Hrun & _ & _ & Hin & _).
  - intros relay. exact one_at_a_time_honest.
  - exact sample.settings_usable.
  - constructor.
  - vm_compute. reflexivity.
  - vm_compute. reflexivity.
  - vm_compute. discriminate.
  - vm_compute. reflexivity.
  - vm_compute. reflexivity.
  - exists counts, client, db'. split; [exact Hrun|].
    assert (complete (λ _, relay_held) 1 sample.settings (mkRange 1700000000 1700001000) INDEXED_KINDS "wss://one" db') as Hc
      by (apply Hin; left; by left).
    split; [apply (Hc (order_event "e1" 1700000100 "pending"))|apply (Hc (order_event "e2" 1700000200 "success"))].
    all: first [exact sample.held_e1|exact sample.held_e2|exact sample.order_indexed|by left|vm_compute; reflexivity|vm_compute; lia].
Defined.
