(* ===== verification/Sync.v ===== *)
(** * Following the relays live

    [src/commands/sync.rs] and the subscriptions of [src/nostr/client.rs]: a
    run as a state machine. A state is what the loop of [follow] holds between
    two awaits; a signal is what the await it stands at resolves to, with the
    clock and the relays' answers that follow. *)

From S2P Require Import Prelude Network Event Db Samples Range Filters Pipeline PipelineFacts Growth.
From S2P Require Config Client RepoRelays RepoInstances ParseOrder ParseDevFee ParseDispute ParseRelayList.
From S2P Require Import Backfill Discovery StatsPrelude.

#[local] Open Scope Z_scope.

(** ** Constants and clocks *)

Definition BACKOFF_INITIAL : Z := 1.
Definition BACKOFF_MAX : Z := 60.
(** [Duration::saturating_mul] of whole seconds. *)
Definition duration_saturating_mul (seconds times : Z) : Z := Z.min u64_max (seconds * times).
Definition backoff (attempt : Z) : Z :=
  let doublings := Z.min (Z.max 0 (attempt - 1)) 31 in
  Z.min (duration_saturating_mul BACKOFF_INITIAL (Z.shiftl 1 doublings)) BACKOFF_MAX.
(** [attempt += 1] on a [u32]. *)
Definition next_attempt (attempt : Z) : Z := (attempt + 1) mod 2 ^ 32.

Definition resume_from (cursor : option Z) (overlap : Z) : option Z :=
  (λ cursor, Z.max (i64_sub cursor overlap) 0) <$> cursor.

(** The indexed kinds that carry a [y] tag; the assertion of [tagged_kinds]. *)
Definition TAGGED_KINDS : list Z := filter (λ kind, kind ∉ UNTAGGED_KINDS) INDEXED_KINDS.
Example tagged_kinds_are_four : length TAGGED_KINDS = 4%nat.
Proof. reflexivity. Qed.

(** ** The follower *)

(** What a [Sync] is built with; [None] is discovery off. *)
Record Sync : Type := mkSync {
  sy_authors : list string;
  sy_listed : list string;
  sy_overlap : Z;
  sy_settings : option Config.Settings;
}.
Definition new : Sync := mkSync [] [] 0 None.
Definition with_authors (authors : list string) (y : Sync) : Sync :=
  mkSync authors (sy_listed y) (sy_overlap y) (sy_settings y).
Definition with_listed (listed : list string) (y : Sync) : Sync :=
  mkSync (sy_authors y) listed (sy_overlap y) (sy_settings y).
Definition with_overlap (seconds : Z) (y : Sync) : Sync :=
  mkSync (sy_authors y) (sy_listed y) seconds (sy_settings y).
Definition with_discovery (settings : Config.Settings) (y : Sync) : Sync :=
  mkSync (sy_authors y) (sy_listed y) (sy_overlap y)
    (if Config.ns_discover_relays (Config.se_nostr settings) then Some settings else None).

Definition Targets : Type := list (string * list Filter).

(** Where the loop stands: at its top; reading the tagged kinds until the
    relays waited for have replayed them; about to subscribe to every kind;
    following; waiting to reconnect; stopped; and stopped by the database. *)
Inductive Phase : Type :=
| Top
| Priming (waiting : list string) (named_relays : bool)
| Primed
| Following
| Waiting
| Stopped
| Failed (e : SqlError).
Record State : Type := mkState {
  st_client : Client.RelayClient;
  st_db : Db;
  st_counts : Counts;
  st_attempt : Z;
  st_phase : Phase;
}.

(** What an await resolves to. [Open] and [Subscribe] are the two requests,
    taken or not; the others are what a subscription, a timer or the caller
    says. *)
Inductive Signal : Type :=
| Open (rediscovered_at subscribed_at : Z) (dial : string → option string) (taken : bool)
| Subscribe (subscribed_at : Z) (taken : bool)
| Incoming (relay : string) (event : Event) (now rediscovered_at : Z)
| EndOfStored (relay : string) (rediscovered_at : Z)
| Deadline (rediscovered_at : Z)
| StreamEnded (rediscovered_at : Z)
| Heartbeat
| Slept
| Shutdown.

Section sync.
Context `{External} `{PublicKeys}.
Context (parse_url : string → option string) (policy : Policy) (y : Sync).

(** ** What is asked for *)

Definition filter_for (relay : string) (kind : Z) (vouched : list string) (now : Z) (db : Db) : option Filter * Db :=
  let cursor := cur_last_created_at <$> RepoRelays.SyncState.get db relay kind in
  let from := resume_from cursor (sy_overlap y) in
  match for_kind kind (sy_authors y) vouched (onwards <$> from) None with
  | None => (None, db)
  | Some filter => (Some filter, RepoRelays.IndexedKinds.record db kind (default 0 from) now)
  end.
Fixpoint filters_for (relay : string) (kinds : list Z) (vouched : list string) (now : Z) (db : Db) : list Filter * Db :=
  match kinds with
  | [] => ([], db)
  | kind :: kinds =>
      let '(filter, db) := filter_for relay kind vouched now db in
      let '(filters, db) := filters_for relay kinds vouched now db in
      (option_list filter ++ filters, db)
  end.
Fixpoint targets_for (relays : list string) (kinds : list Z) (vouched : list string) (now : Z) (db : Db) : Targets * Db :=
  match relays with
  | [] => ([], db)
  | relay :: relays =>
      let '(filters, db) := filters_for relay kinds vouched now db in
      let '(targets, db) := targets_for relays kinds vouched now db in
      (match filters with [] => targets | filters => (relay, filters) :: targets end, db)
  end.
Definition targets (kinds : list Z) (now : Z) (s : State) : Targets * Db :=
  targets_for (Client.relays (st_client s)) kinds (vouched (sy_listed y) (st_db s)) now (st_db s).

(** [rediscover]: whether a relay this run is not following was named. *)
Definition rediscover (now : Z) (s : State) : bool * State :=
  match sy_settings y with
  | None => (false, s)
  | Some settings =>
      let '(set, db) := connection_set settings now (st_db s) in
      let client := Client.reconfigure set (st_client s) in
      (negb (bool_decide (Client.unattached parse_url client = [])),
       mkState client db (st_counts s) (st_attempt s) (st_phase s))
  end.

(** ** The steps *)

Definition at_phase (p : Phase) (s : State) : State :=
  mkState (st_client s) (st_db s) (st_counts s) (st_attempt s) p.

(** Storing one event: whether it was a relay list this archive did not have. *)
Definition store (relay : string) (event : Event) (now : Z) (s : State) : Result SqlError bool * State :=
  match ingest policy (st_db s) event relay now with
  | (Err e, db) => (Err e, mkState (st_client s) db (st_counts s) (st_attempt s) (Failed e))
  | (Ok outcome, db) =>
      (Ok (match outcome with Stored => true | _ => false end && bool_decide (ev_kind event = ParseRelayList.KIND)),
       mkState (st_client s) db (record (st_counts s) outcome) (st_attempt s) (st_phase s))
  end.

(** The priming subscription is closed, and what it read is acted on. *)
Definition primed (named_relays : bool) (now : Z) (s : State) : State :=
  if named_relays then
    let '(changed, s) := rediscover now s in at_phase (if changed then Top else Primed) s
  else at_phase Primed s.

(** The end of the outer loop's body. *)
Definition reconnect (s : State) : State :=
  mkState (st_client s) (st_db s) (st_counts s) (next_attempt (st_attempt s)) Waiting.

(** [prime]: where it begins, once its request was taken, and one signal of its
    loop; an event it stores may be what names a relay. *)
Definition begin_priming (asked : Targets) (taken : bool) : Phase :=
  if taken then match asked with [] => Primed | _ => Priming (fst <$> asked) false end else Primed.
Definition prime_step (waiting : list string) (named : bool) (signal : Signal) (s : State) : option (State * list Targets) :=
  match signal with
  | Incoming relay event now _ =>
      let '(named', s) := store relay event now s in
      match named' with
      | Err _ => Some (s, [])
      | Ok named' => Some (at_phase (Priming waiting (named || named')) s, [])
      end
  | EndOfStored relay now =>
      let waiting := filter (λ r, r ≠ relay) waiting in
      Some (if decide (waiting = []) then primed named now s else at_phase (Priming waiting named) s, [])
  | Deadline now | StreamEnded now => Some (primed named now s, [])
  | Shutdown => Some (at_phase Stopped s, [])
  | _ => None
  end.

(** One signal, where the loop is listening for it: the state it leaves, and
    the request that goes out. *)
Definition step (s : State) (signal : Signal) : option (State * list Targets) :=
  match st_phase s, signal with
  | Top, Open rediscovered_at subscribed_at dial taken =>
      let s := (rediscover rediscovered_at s).2 in
      let s := mkState (Client.reattach parse_url dial (st_client s)) (st_db s) (st_counts s) (st_attempt s) Top in
      let '(asked, db) := targets TAGGED_KINDS subscribed_at s in
      let s := mkState (st_client s) db (st_counts s) (st_attempt s) Top in
      Some (at_phase (begin_priming asked taken) s, [asked])
  | Priming waiting named, _ => prime_step waiting named signal s
  | Primed, Subscribe now taken =>
      let '(asked, db) := targets INDEXED_KINDS now s in
      let s := mkState (st_client s) db (st_counts s) (st_attempt s) Primed in
      Some (if taken then mkState (st_client s) (st_db s) (st_counts s) 0 Following else reconnect s, [asked])
  | Following, Incoming relay event now rediscovered_at =>
      let '(named, s) := store relay event now s in
      match named with
      | Err _ => Some (s, [])
      | Ok false => Some (s, [])
      | Ok true =>
          let '(changed, s) := rediscover rediscovered_at s in
          Some (at_phase (if changed then Top else Following) s, [])
      end
  | Following, EndOfStored _ _ | Following, Heartbeat => Some (s, [])
  | Following, StreamEnded _ => Some (reconnect s, [])
  | Waiting, Slept => Some (at_phase Top s, [])
  | Following, Shutdown | Waiting, Shutdown => Some (at_phase Stopped s, [])
  | _, _ => None
  end.

(** A run: the signals in order, each where the loop listens for it. *)
Fixpoint follow (s : State) (signals : list Signal) : option (State * list Targets) :=
  match signals with
  | [] => Some (s, [])
  | signal :: signals =>
      match step s signal with
      | None => None
      | Some (s, sent) => (λ '(s, more), (s, sent ++ more)) <$> follow s signals
      end
  end.
End sync.

(** What the loop listens for where it stands, and signals that come there. *)
Definition listens (p : Phase) (signal : Signal) : bool :=
  match p, signal with
  | Top, Open _ _ _ _ | Primed, Subscribe _ _ | Waiting, Slept | Waiting, Shutdown => true
  | Priming _ _, (Incoming _ _ _ _ | EndOfStored _ _ | Deadline _ | StreamEnded _ | Shutdown) => true
  | Following, (Incoming _ _ _ _ | EndOfStored _ _ | Heartbeat | StreamEnded _ | Shutdown) => true
  | _, _ => false
  end.
Fixpoint heard `{External} `{PublicKeys} (parse_url : string → option string) (policy : Policy) (y : Sync)
    (s : State) (signals : list Signal) : Prop :=
  match signals with
  | [] => True
  | signal :: signals =>
      listens (st_phase s) signal = true ∧
      ∀ s' sent, step parse_url policy y s signal = Some (s', sent) → heard parse_url policy y s' signals
  end.

(** [run] up to the loop: the follower, and the state it starts in. *)
Definition start `{PublicKeys} (parse_url : string → option string) (dial : string → option string)
    (settings : Config.Settings) (now : Z) (db : Db) : Result BackfillError (Sync * State) :=
  let '(relays, db) := connection_set settings now db in
  client ← map_err Unreachable (Client.connect parse_url dial relays);
  asked ← authors settings;
  listed ← listed_instances settings;
  Ok (with_discovery settings (with_overlap (as_i64 (Config.ns_resume_overlap_secs (Config.se_nostr settings)))
        (with_listed listed (with_authors asked new))), mkState client db (mkCounts 0 0 0 0) 0 Top).

(** ** What a run does to the archive *)

Section facts.
Context `{External} `{PublicKeys}.
Context (parse_url : string → option string) (policy : Policy) (y : Sync).

#[local] Abbreviation step' := (step parse_url policy y).
#[local] Abbreviation follow' := (follow parse_url policy y).
#[local] Abbreviation TAGGED := [ParseOrder.KIND; ParseDevFee.KIND; ParseDispute.KIND].

(** What a request writes: the kinds it asks for. *)
Lemma filter_for_keeps relay kind vch now db :
  grows policy db (filter_for y relay kind vch now db).2 ∧
  events (filter_for y relay kind vch now db).2 = events db ∧
  sync_state (filter_for y relay kind vch now db).2 = sync_state db.
Proof. unfold filter_for. destruct (for_kind _ _ _ _ _); [|done]. split_and!; [apply grows_requested; done|done..]. Qed.
Lemma filters_for_keeps relay kinds vch now db :
  grows policy db (filters_for y relay kinds vch now db).2 ∧
  events (filters_for y relay kinds vch now db).2 = events db ∧
  sync_state (filters_for y relay kinds vch now db).2 = sync_state db.
Proof.
  revert db. induction kinds as [|kind kinds IH]; intros db; [done|]. cbn [filters_for].
  pose proof (filter_for_keeps relay kind vch now db) as Hone. destruct (filter_for _ _ _ _ _ _) as [f db1].
  pose proof (IH db1) as Hrest. destruct (filters_for _ _ _ _ _ _) as [fs db2]. cbn in *.
  destruct Hone as (? & ? & ?), Hrest as (? & ? & ?). split_and!; [by etransitivity|congruence..].
Qed.
Lemma targets_for_keeps relays kinds vch now db :
  grows policy db (targets_for y relays kinds vch now db).2 ∧
  events (targets_for y relays kinds vch now db).2 = events db ∧
  sync_state (targets_for y relays kinds vch now db).2 = sync_state db.
Proof.
  revert db. induction relays as [|relay relays IH]; intros db; [done|]. cbn [targets_for].
  pose proof (filters_for_keeps relay kinds vch now db) as Hone. destruct (filters_for _ _ _ _ _ _) as [fs db1].
  pose proof (IH db1) as Hrest. destruct (targets_for _ _ _ _ _ _) as [ts db2]. cbn in *.
  destruct Hone as (? & ? & ?), Hrest as (? & ? & ?). destruct fs; (split_and!; [by etransitivity|congruence..]).
Qed.

(** How one signal moves the archive on: nothing forgotten, the counts kept. *)
Record moves (s s' : State) : Prop := {
  mv_grows : grows policy (st_db s) (st_db s');
  mv_events k : is_Some (events (st_db s) !! k) → is_Some (events (st_db s') !! k);
  mv_total : total (st_counts s') = total (st_counts s);
}.
#[local] Instance moves_preorder : PreOrder moves.
Proof. split; [by split|]. intros s1 s2 s3 [] []. split; [by etransitivity|auto|lia]. Qed.

Lemma upserts_events source now db urls :
  events (foldl (λ db url, RepoRelays.Relays.upsert db url source now) db urls) = events db.
Proof. revert db. induction urls as [|url urls IH]; intros db; [done|]. cbn. by rewrite IH. Qed.
Lemma rediscover_moves now s : moves s (rediscover parse_url y now s).2.
Proof.
  unfold rediscover. destruct (sy_settings y) as [settings|]; [|done]. cbn.
  split; cbn; [apply grows_upserts| |done]. intros k. by rewrite upserts_events.
Qed.
Lemma primed_moves named now s : moves s (primed parse_url y named now s).
Proof.
  unfold primed. destruct named; [|done]. pose proof (rediscover_moves now s) as Hm.
  destruct (rediscover _ _ _ _) as [changed s']. by etransitivity; [exact Hm|].
Qed.
Lemma targets_moves kinds now s client counts attempt p :
  counts = st_counts s → moves s (mkState client (targets y kinds now s).2 counts attempt p).
Proof.
  intros ->. destruct (targets_for_keeps (Client.relays (st_client s)) kinds (vouched (sy_listed y) (st_db s)) now (st_db s))
    as (Hr & He & _). split; cbn; [done| |done]. intros k. unfold targets. by rewrite He.
Qed.

(** Storing one event. *)
Lemma storing_spec relay e now s :
  ∃ named s', store policy relay e now s = (Ok named, s') ∧ st_phase s' = st_phase s ∧
    grows policy (st_db s) (st_db s') ∧
    (∀ k, is_Some (events (st_db s) !! k) → is_Some (events (st_db s') !! k)) ∧
    total (st_counts s') = total (st_counts s) + 1 ∧
    (admits policy e = None → ev_kind e ∈ TAGGED → is_Some (events (st_db s') !! ev_id e)).
Proof.
  unfold store. destruct (ingest policy (st_db s) e relay now) as [r db'] eqn:Ei.
  pose proof (grows_event policy (st_db s) _ _ _ _ _ _ (grows_refl _ _) Ei) as Hgrows.
  pose proof Ei as Heff. apply ingest_effect in Heff as (o & -> & Heff).
  eexists _, _. split; [reflexivity|]. cbn. split_and!; [done|done| | |].
  - intros k [r Hr]. exists r. by eapply effect_keeps_events.
  - unfold total, record. destruct o; cbn; lia.
  - intros Ha Hk. by eapply effect_archives.
Qed.

Definition ok_phase (p : Phase) : Prop := match p with Failed _ => False | _ => True end.
Lemma primed_phase named now s : ok_phase (st_phase (primed parse_url y named now s)).
Proof. unfold primed. destruct named; [|done]. destruct (rediscover _ _ _ _) as [[] ?]; done. Qed.

(** The event a signal delivers. *)
Definition delivered (signal : Signal) : option Event :=
  match signal with Incoming _ e _ _ => Some e | _ => None end.

Lemma step_moves s signal s' sent :
  step' s signal = Some (s', sent) → ok_phase (st_phase s) →
  ok_phase (st_phase s') ∧
  grows policy (st_db s) (st_db s') ∧
  (∀ k, is_Some (events (st_db s) !! k) → is_Some (events (st_db s') !! k)) ∧
  total (st_counts s') = total (st_counts s) + match delivered signal with Some _ => 1 | None => 0 end ∧
  ∀ e, delivered signal = Some e → admits policy e = None → ev_kind e ∈ TAGGED → is_Some (events (st_db s') !! ev_id e).
Proof.
  intros Hstep Hok. set (good := ok_phase _ ∧ _).
  assert (moves s s' → ok_phase (st_phase s') → delivered signal = None → good) as Hquiet.
  { intros [] Ht Hd. unfold good. rewrite Hd. split_and!; [done..|lia|done]. }
  assert (∀ kinds now t p q, moves s t →
    moves s (at_phase q (mkState (st_client t) (targets y kinds now t).2 (st_counts t) (st_attempt t) p))) as Hasks.
  { intros kinds now t p q Ht. etransitivity; [exact Ht|]. by apply targets_moves. }
  unfold step, prime_step, begin_priming in Hstep.
  destruct (st_phase s) as [|waiting named| | | | |err] eqn:Ep,
    signal as [rat sat dial taken|sat taken|relay e now rat|relay rat|rat|rat| | |]; try done.
  - (* the top of the loop *)
    set (t := mkState _ _ _ _ Top) in Hstep. assert (moves s t) as Ht.
    { etransitivity; [apply (rediscover_moves rat)|]. by split. }
    specialize (Hasks TAGGED_KINDS sat t Top). destruct (targets y TAGGED_KINDS sat t) as [asked db].
    destruct taken; injection Hstep as <- <-; (apply Hquiet; [by apply Hasks| |done]); by destruct asked.
  - destruct (storing_spec relay e now s) as (n & t & Es & Et & Hr & He & Hc & Hin). rewrite Es in Hstep.
    injection Hstep as <- <-. split_and!; [done|done|done|done|]. by intros e' [= <-].
  - injection Hstep as <- <-. apply Hquiet; [|case_decide; [apply primed_phase|done]|done].
    case_decide; [apply primed_moves|by split].
  - injection Hstep as <- <-. apply Hquiet; [apply primed_moves|apply primed_phase|done].
  - injection Hstep as <- <-. apply Hquiet; [apply primed_moves|apply primed_phase|done].
  - injection Hstep as <- <-. (apply Hquiet; [by split|done|done]).
  - (* the subscription *)
    pose proof (λ n p, targets_moves INDEXED_KINDS sat s (st_client s) (st_counts s) n p eq_refl) as Hm.
    destruct (targets y INDEXED_KINDS sat s) as [asked db].
    destruct taken; injection Hstep as <- <-; (apply Hquiet; [|done|done]); apply Hm.
  - destruct (storing_spec relay e now s) as (n & t & Es & Et & Hr & He & Hc & Hin). rewrite Es in Hstep.
    assert (moves t s' → ok_phase (st_phase s') → good) as Hafter.
    { intros [Hu1 Hu2 Hu3] Hu. unfold good. cbn [delivered]. split_and!; [done|by etransitivity|by auto|lia|].
      intros e' [= <-] ??. by apply Hu2, Hin. }
    destruct n; [|injection Hstep as <- <-; apply Hafter; [done|by rewrite Et, Ep]].
    pose proof (rediscover_moves rat t) as Hd. destruct (rediscover _ _ _ _) as [changed u]. injection Hstep as <- <-.
    apply Hafter; [by etransitivity; [exact Hd|]|by destruct changed].
  - injection Hstep as <- <-. apply Hquiet; [done|by rewrite Ep|done].
  - injection Hstep as <- <-. (apply Hquiet; [by split|done|done]).
  - injection Hstep as <- <-. apply Hquiet; [done|by rewrite Ep|done].
  - injection Hstep as <- <-. (apply Hquiet; [by split|done|done]).
  - injection Hstep as <- <-. (apply Hquiet; [by split|done|done]).
  - injection Hstep as <- <-. (apply Hquiet; [by split|done|done]).
Qed.

Definition deliveries (signals : list Signal) : list Event := omap delivered signals.

Lemma follow_moves s signals s' sent :
  follow' s signals = Some (s', sent) → ok_phase (st_phase s) →
  grows policy (st_db s) (st_db s') ∧ ok_phase (st_phase s') ∧
  (∀ k, is_Some (events (st_db s) !! k) → is_Some (events (st_db s') !! k)) ∧
  total (st_counts s') = total (st_counts s) + Z.of_nat (length (deliveries signals)) ∧
  ∀ e, e ∈ deliveries signals → admits policy e = None → ev_kind e ∈ TAGGED → is_Some (events (st_db s') !! ev_id e).
Proof.
  revert s sent. induction signals as [|signal signals IH]; intros s sent Hf Hok.
  { injection Hf as <- <-. cbn. split_and!; [done..|lia|]. intros e He. by apply elem_of_nil in He. }
  cbn in Hf. destruct (step' s signal) as [[s1 out]|] eqn:Es; [|done].
  destruct (follow' s1 signals) as [[s2 more]|] eqn:Ef; [|done]. injection Hf as <- <-.
  destruct (step_moves _ _ _ _ Es Hok) as (Hok1 & Hr1 & Hm1 & Hc1 & Hin1).
  destruct (IH s1 more Ef Hok1) as (Hr2 & Hok2 & Hm2 & Hc2 & Hin2).
  assert (deliveries (signal :: signals) = option_list (delivered signal) ++ deliveries signals) as ->
    by (unfold deliveries; cbn; by destruct (delivered signal)).
  rewrite length_app. split_and!; [by etransitivity|done|by auto|destruct (delivered signal); cbn; lia|].
  intros e [He | He]%elem_of_app; [|by auto]. intros Ha Hk. apply Hm2, Hin1; [|done..].
  destruct (delivered signal); [|by apply elem_of_nil in He]. by apply list_elem_of_singleton in He as ->.
Qed.

(** Where the loop listens it takes the signal, and so it takes them all. *)
Lemma step_listens s signal : is_Some (step' s signal) ↔ listens (st_phase s) signal = true.
Proof.
  unfold step, prime_step, begin_priming.
  destruct (st_phase s), signal; cbn [listens]; (split; [intros [? Hs]; first [done|discriminate Hs]|intros Hl]);
    try discriminate Hl; try (by eexists);
    repeat match goal with |- context [match ?x with _ => _ end] => destruct x end; by eexists.
Qed.
Lemma heard_ends s signals : heard parse_url policy y s signals → is_Some (follow' s signals).
Proof.
  revert s. induction signals as [|signal signals IH]; intros s; [by eexists|]. intros [Hl Hrest]. cbn [follow].
  apply step_listens in Hl as [[s' sent] Hs]. rewrite Hs. destruct (IH s' (Hrest s' sent Hs)) as [[t more] ->]. by eexists.
Qed.
Lemma follow_heard s signals : is_Some (follow' s signals) → heard parse_url policy y s signals.
Proof.
  revert s. induction signals as [|signal signals IH]; intros s; [done|]. cbn [follow heard]. intros [r Hr].
  destruct (step' s signal) as [[s' sent]|] eqn:Es; [|done]. split; [by apply step_listens; rewrite Es|].
  intros ? ? [= <- <-]. apply IH. destruct (follow' s' signals); [by eexists|done].
Qed.

(** *** What a run stores is what ingesting its deliveries stores *)

(** The deliveries, and what ingesting one does to the counts and the archive. *)
Definition arrival (signal : Signal) : option (string * Event * Z) :=
  match signal with Incoming relay e now _ => Some (relay, e, now) | _ => None end.
Definition arrive (at_ : Counts * Db) (a : string * Event * Z) : Counts * Db :=
  let '(relay, e, now) := a in
  let '(outcome, db) := ingest policy at_.2 e relay now in
  (match outcome with Ok outcome => record at_.1 outcome | Err _ => at_.1 end, db).
Definition told_of (s : State) : Counts * Db := (st_counts s, core (st_db s)).

Lemma arrive_core c db db' a :
  core db = core db' → (arrive (c, db) a).1 = (arrive (c, db') a).1 ∧ core (arrive (c, db) a).2 = core (arrive (c, db') a).2.
Proof.
  destruct a as [[relay e] now]. intros Hcore. unfold arrive. cbn [fst snd].
  destruct (ingest_core policy db db' e relay now Hcore) as (o & d & d' & -> & -> & E). by split.
Qed.
Lemma arrive_all_core l c db db' :
  core db = core db' → (foldl arrive (c, db) l).1 = (foldl arrive (c, db') l).1 ∧
    core (foldl arrive (c, db) l).2 = core (foldl arrive (c, db') l).2.
Proof.
  revert c db db'. induction l as [|a l IH]; intros c db db' Hcore; [done|]. cbn [foldl].
  destruct (arrive_core c db db' a Hcore) as [Hc Hd]. destruct (arrive (c, db) a) as [c1 d1], (arrive (c, db') a) as [c2 d2].
  cbn in Hc, Hd. subst c2. by apply IH.
Qed.

Lemma upserts_core source now db urls :
  core (foldl (λ db url, RepoRelays.Relays.upsert db url source now) db urls) = core db.
Proof. revert db. induction urls as [|url urls IH]; intros db; [done|]. cbn. rewrite IH. by destruct db. Qed.
Lemma rediscover_core now s : told_of (rediscover parse_url y now s).2 = told_of s.
Proof.
  unfold rediscover, told_of. destruct (sy_settings y); [|done]. cbn. by rewrite upserts_core.
Qed.
Lemma primed_core named now s : told_of (primed parse_url y named now s) = told_of s.
Proof.
  unfold primed. destruct named; [|done]. pose proof (rediscover_core now s) as Hr.
  destruct (rediscover _ _ _ _) as [changed t]. exact Hr.
Qed.
Lemma targets_core kinds now s : core (targets y kinds now s).2 = core (st_db s).
Proof.
  unfold targets. generalize (vouched (sy_listed y) (st_db s)) as vch. generalize (st_db s) as db.
  induction (Client.relays (st_client s)) as [|relay relays IH]; intros db vch; [done|]. cbn [targets_for].
  assert (core (filters_for y relay kinds vch now db).2 = core db) as Hf.
  { clear IH. revert db. induction kinds as [|kind kinds IHk]; intros db; [done|]. cbn [filters_for].
    assert (core (filter_for y relay kind vch now db).2 = core db) as Hone
      by (unfold filter_for; destruct (for_kind _ _ _ _ _); [by destruct db|done]).
    destruct (filter_for _ _ _ _ _ _) as [f db1]. specialize (IHk db1). destruct (filters_for _ _ _ _ _ _) as [fs db2].
    cbn in *. congruence. }
  destruct (filters_for _ _ _ _ _ _) as [fs db1]. specialize (IH db1 vch). destruct (targets_for _ _ _ _ _ _) as [ts db2].
  destruct fs; cbn in *; congruence.
Qed.
Lemma store_core relay e now s :
  told_of (store policy relay e now s).2 =
    (let r := arrive (st_counts s, st_db s) (relay, e, now) in (r.1, core r.2)).
Proof. unfold store, arrive, told_of. cbn [fst snd]. by destruct (ingest policy (st_db s) e relay now) as [[o|err] db]. Qed.

(** One signal does what ingesting its delivery does, if it has one. *)
Lemma step_told s signal s' sent :
  step' s signal = Some (s', sent) →
  told_of s' = match arrival signal with
               | Some a => let r := arrive (st_counts s, st_db s) a in (r.1, core r.2)
               | None => told_of s
               end.
Proof.
  intros Hstep. unfold step, prime_step, begin_priming in Hstep.
  destruct (st_phase s) as [|waiting named| | | | |err] eqn:Ep,
    signal as [rat sat dial taken|sat taken|relay e now rat|relay rat|rat|rat| | |]; try done; cbn [arrival].
  - pose proof (rediscover_core rat s) as Hr. destruct (rediscover _ _ rat s) as [changed u]. cbn [snd] in *.
    set (t := mkState _ _ _ _ Top) in Hstep. pose proof (targets_core TAGGED_KINDS sat t) as Ht.
    destruct (targets y TAGGED_KINDS sat t) as [asked db]. injection Hstep as <- <-.
    rewrite <- Hr. unfold told_of. cbn in Ht |- *. by rewrite Ht.
  - rewrite <- store_core. by destruct (store _ _ _ _ _) as [[n|err] t]; injection Hstep as <- <-.
  - injection Hstep as <- <-. case_decide; [apply primed_core|done].
  - injection Hstep as <- <-. apply primed_core.
  - injection Hstep as <- <-. apply primed_core.
  - by injection Hstep as <- <-.
  - pose proof (targets_core INDEXED_KINDS sat s) as Ht. destruct (targets y INDEXED_KINDS sat s) as [asked db].
    cbn in Ht. destruct taken; injection Hstep as <- <-; unfold told_of; cbn; by rewrite Ht.
  - rewrite <- store_core. destruct (store _ _ _ _ _) as [[[]|err] t]; cbn [snd]; [|by injection Hstep as <- <-..].
    pose proof (rediscover_core rat t) as Hr. destruct (rediscover _ _ rat t) as [changed u]. injection Hstep as <- <-. exact Hr.
  - by injection Hstep as <- <-.
  - by injection Hstep as <- <-.
  - by injection Hstep as <- <-.
  - by injection Hstep as <- <-.
  - by injection Hstep as <- <-.
  - by injection Hstep as <- <-.
Qed.
Lemma follow_told s signals s' sent :
  follow' s signals = Some (s', sent) →
  told_of s' = (let r := foldl arrive (st_counts s, st_db s) (omap arrival signals) in (r.1, core r.2)).
Proof.
  revert s sent. induction signals as [|signal signals IH]; intros s sent Hf; [by injection Hf as <- <-|].
  cbn in Hf. destruct (step' s signal) as [[s1 out]|] eqn:Es; [|done].
  destruct (follow' s1 signals) as [[s2 more]|] eqn:Ef; [|done]. injection Hf as <- <-.
  rewrite (IH s1 more Ef). apply step_told in Es. cbn [omap list_omap]. unfold told_of in Es.
  destruct (arrival signal) as [a|]; cbn [foldl].
  - destruct (arrive (st_counts s, st_db s) a) as [c d]. cbn [fst snd] in Es. apply pair_equal_spec in Es as [-> Hd].
    destruct (arrive_all_core (omap arrival signals) c (st_db s1) d Hd) as [-> ->]. done.
  - apply pair_equal_spec in Es as [-> Hd].
    destruct (arrive_all_core (omap arrival signals) (st_counts s) (st_db s1) (st_db s) Hd) as [-> ->]. done.
Qed.

(** C7: whatever the relays send, in whatever order, and however often the
    run reconnects, a follower that starts on a reachable archive leaves a
    reachable one and is never stopped by the database; it forgets no event,
    and each event delivered is counted once. What it does to the archive and
    to the counts is exactly what ingesting the delivered events one after
    the other, as they came, does: cursors, relays, requested kinds and the
    bestiary aside, nothing else is written and nothing is left out. So every wanted order, fee and
    dispute delivered is in the archive; a heartbeat may not be, as ingesting
    it may find it redundant or its publisher not vouched for. *)
Theorem follower_stores s signals s' sent :
  follow' s signals = Some (s', sent) → reachable policy (st_db s) → ok_phase (st_phase s) →
  reachable policy (st_db s') ∧ ok_phase (st_phase s') ∧
  (∀ k, is_Some (events (st_db s) !! k) → is_Some (events (st_db s') !! k)) ∧
  total (st_counts s') = total (st_counts s) + Z.of_nat (length (deliveries signals)) ∧
  (let r := foldl arrive (st_counts s, st_db s) (omap arrival signals) in
    st_counts s' = r.1 ∧ core (st_db s') = core r.2) ∧
  ∀ e, e ∈ deliveries signals → admits policy e = None → ev_kind e ∈ TAGGED → is_Some (events (st_db s') !! ev_id e).
Proof.
  intros Hf Hr Hok. destruct (follow_moves _ _ _ _ Hf Hok) as (Hg & Hp & Hk & Hc & Hin).
  pose proof (follow_told _ _ _ _ Hf) as [Hcounts Hcore]%pair_equal_spec. split_and!; try done. by eapply grows_reachable.
Qed.

(** ** What the relays are asked *)

(** What the cursors of an archive have a relay asked about a kind. *)
Definition asks_of (vch : list string) (db : Db) (relay : string) (kind : Z) : option Filter :=
  for_kind kind (sy_authors y) vch
    (onwards <$> resume_from (cur_last_created_at <$> RepoRelays.SyncState.get db relay kind) (sy_overlap y)) None.
Definition asks_all (vch : list string) (db : Db) (kinds : list Z) (relay : string) : option (string * list Filter) :=
  match omap (asks_of vch db relay) kinds with [] => None | filters => Some (relay, filters) end.

(** Asking moves no cursor, so every filter reads those of the start. *)
Lemma filter_for_asks relay kind vch now db : (filter_for y relay kind vch now db).1 = asks_of vch db relay kind.
Proof. unfold filter_for, asks_of. by destruct (for_kind _ _ _ _ _). Qed.
Lemma asks_of_cursors vch db db' relay kind :
  sync_state db' = sync_state db → asks_of vch db' relay kind = asks_of vch db relay kind.
Proof. unfold asks_of, RepoRelays.SyncState.get. by intros ->. Qed.
Lemma filters_for_asks relay kinds vch now db : (filters_for y relay kinds vch now db).1 = omap (asks_of vch db relay) kinds.
Proof.
  revert db. induction kinds as [|kind kinds IH]; intros db; [done|]. cbn [filters_for omap list_omap].
  pose proof (filter_for_asks relay kind vch now db) as Hf.
  pose proof (filter_for_keeps relay kind vch now db) as (_ & _ & Hc). destruct (filter_for _ _ _ _ _ _) as [g db1].
  pose proof (IH db1) as Hrest. destruct (filters_for _ _ _ _ _ _) as [fs db2]. cbn in Hf, Hrest, Hc |- *. subst g fs.
  rewrite (list_omap_ext (asks_of vch db1 relay) (asks_of vch db relay) kinds kinds).
  - by destruct (asks_of vch db relay kind).
  - apply Forall2_same_length_lookup. split; [done|]. intros i k k' Hk Hk'. simplify_eq. by apply asks_of_cursors.
Qed.
Lemma targets_for_asks relays kinds vch now db : (targets_for y relays kinds vch now db).1 = omap (asks_all vch db kinds) relays.
Proof.
  revert db. induction relays as [|relay relays IH]; intros db; [done|]. cbn [targets_for omap list_omap].
  pose proof (filters_for_asks relay kinds vch now db) as Hf.
  pose proof (filters_for_keeps relay kinds vch now db) as (_ & _ & Hc). destruct (filters_for _ _ _ _ _ _) as [fs db1].
  pose proof (IH db1) as Hrest. destruct (targets_for _ _ _ _ _ _) as [ts db2]. cbn in Hf, Hrest, Hc |- *. subst fs ts.
  rewrite (list_omap_ext (asks_all vch db1 kinds) (asks_all vch db kinds) relays relays).
  - unfold asks_all. by destruct (omap (asks_of vch db relay) kinds).
  - apply Forall2_same_length_lookup. split; [done|]. intros i r r' Hr Hr'. simplify_eq. unfold asks_all.
    rewrite (list_omap_ext (asks_of vch db1 r) (asks_of vch db r) kinds kinds); [done|].
    apply Forall2_same_length_lookup. split; [done|]. intros j k k' Hk Hk'. simplify_eq. by apply asks_of_cursors.
Qed.

(** The request of a step, by the phase it is made in: the tagged kinds at the
    top of the loop, every kind once they have been read. *)
Definition request_of (s : State) : option (list Z) :=
  match st_phase s with Top => Some TAGGED_KINDS | Primed => Some INDEXED_KINDS | _ => None end.
Lemma step_request s signal s' sent asked :
  step' s signal = Some (s', sent) → asked ∈ sent →
  ∃ kinds db, request_of s = Some kinds ∧ sync_state db = sync_state (st_db s) ∧
    RepoInstances.platform_proven db = RepoInstances.platform_proven (st_db s) ∧
    asked = omap (asks_all (vouched (sy_listed y) db) db kinds) (Client.relays (st_client s')).
Proof.
  intros Hstep Hin. unfold step, prime_step, begin_priming in Hstep.
  destruct (st_phase s) as [|waiting named| | | | |err] eqn:Ep, signal; try done; unfold request_of; rewrite Ep.
  - set (t := mkState _ _ _ _ Top) in Hstep.
    assert (sync_state (st_db t) = sync_state (st_db s) ∧
      RepoInstances.platform_proven (st_db t) = RepoInstances.platform_proven (st_db s)) as [Hc Hp].
    { unfold t, rediscover. destruct (sy_settings y) as [settings|]; [|done]. cbn.
      generalize (st_db s) as d. induction (Config.ns_relays (Config.se_nostr settings)) as [|u us IH]; intros d; [done|].
      cbn. by rewrite !(proj1 (IH _)), !(proj2 (IH _)). }
    pose proof (targets_for_asks (Client.relays (st_client t)) TAGGED_KINDS (vouched (sy_listed y) (st_db t)) subscribed_at (st_db t)) as Ha.
    change (targets_for y _ _ _ _ _) with (targets y TAGGED_KINDS subscribed_at t) in Ha.
    destruct (targets y TAGGED_KINDS subscribed_at t) as [a db]. cbn in Ha.
    exists TAGGED_KINDS, (st_db t). destruct taken; injection Hstep as <- <-; apply list_elem_of_singleton in Hin as ->;
      split_and!; try done; rewrite Ha; f_equal; by destruct (omap _ _).
  - by destruct (store _ _ _ _ _) as [[] ?]; injection Hstep as <- <-; apply elem_of_nil in Hin.
  - by injection Hstep as <- <-; apply elem_of_nil in Hin.
  - by injection Hstep as <- <-; apply elem_of_nil in Hin.
  - by injection Hstep as <- <-; apply elem_of_nil in Hin.
  - by injection Hstep as <- <-; apply elem_of_nil in Hin.
  - pose proof (targets_for_asks (Client.relays (st_client s)) INDEXED_KINDS (vouched (sy_listed y) (st_db s)) subscribed_at (st_db s)) as Ha.
    change (targets_for y _ _ _ _ _) with (targets y INDEXED_KINDS subscribed_at s) in Ha.
    destruct (targets y INDEXED_KINDS subscribed_at s) as [a db]. cbn in Ha.
    exists INDEXED_KINDS, (st_db s). destruct taken; injection Hstep as <- <-; apply list_elem_of_singleton in Hin as ->;
      by split_and!.
  - destruct (store _ _ _ _ _) as [[[]|] t]; try destruct (rediscover _ _ _ t);
      by injection Hstep as <- <-; apply elem_of_nil in Hin.
  - by injection Hstep as <- <-; apply elem_of_nil in Hin.
  - by injection Hstep as <- <-; apply elem_of_nil in Hin.
  - by injection Hstep as <- <-; apply elem_of_nil in Hin.
  - by injection Hstep as <- <-; apply elem_of_nil in Hin.
  - by injection Hstep as <- <-; apply elem_of_nil in Hin.
  - by injection Hstep as <- <-; apply elem_of_nil in Hin.
Qed.

Lemma vouched_in listed db key :
  key ∈ vouched listed db → key ∈ listed ∨ ∃ pubkey, pubkey ∈ RepoInstances.platform_proven db ∧ parse_key pubkey = Some key.
Proof.
  unfold vouched. revert key. induction (RepoInstances.platform_proven db) as [|p ps IH] using rev_ind; intros key; [by left|].
  rewrite foldl_snoc.
  assert (key ∈ foldl (λ acc pubkey, match parse_key pubkey with Some key => if decide (key ∈ acc) then acc else acc ++ [key] | None => acc end)
    listed ps → key ∈ listed ∨ ∃ pubkey, pubkey ∈ ps ++ [p] ∧ parse_key pubkey = Some key) as Hold.
  { intros [?|(q & Hq & Hk)]%IH; [by left|]. right. exists q. split; [apply elem_of_app; by left|done]. }
  destruct (parse_key p) as [k|] eqn:Ek; [|done]. case_decide; [done|].
  intros [Hin | ->%list_elem_of_singleton]%elem_of_app; [by auto|]. right. exists p. split; [apply elem_of_app; right; by left|done].
Qed.

(** Who is asked, from when. *)
Lemma asks_of_spec vch db relay kind f :
  asks_of vch db relay kind = Some f →
  flt_kind f = kind ∧ (kind ∈ UNTAGGED_KINDS → flt_authors f = Some vch ∧ vch ≠ []).
Proof.
  unfold asks_of, for_kind. destruct (bool_decide_reflect (kind ∈ UNTAGGED_KINDS)) as [Hu|Hu]; cbn.
  - destruct (bool_decide_reflect (vch = [])) as [Hv|Hv]; [done|].
    destruct (resume_from _ _); cbn [fmap option_fmap option_map]; destruct_or?; repeat case_match; intros [= <-]; cbn;
      split; try done; by rewrite ?decide_False by done.
  - destruct (resume_from _ _); cbn [fmap option_fmap option_map]; repeat case_match; intros [= <-]; cbn; by split.
Qed.
Lemma asks_of_tagged vch db relay kind e :
  kind ∈ TAGGED_KINDS → ev_kind e = kind → 0 ≤ ev_created_at e < i64_max → sy_authors y = [] ∨ ev_pubkey e ∈ sy_authors y →
  is_none_or (λ from, bool_decide (from ≤ ev_created_at e))
    (resume_from (cur_last_created_at <$> RepoRelays.SyncState.get db relay kind) (sy_overlap y)) = true →
  ∃ f, asks_of vch db relay kind = Some f ∧ asks f e = true.
Proof.
  intros [Hu Hi]%list_elem_of_filter He Ht Ha Hfrom. unfold asks_of.
  assert (kind ≠ ParseRates.KIND) as Hr by (intros ->; apply Hu, (bool_decide_unpack _); exact I).
  set (from := resume_from _ _) in *. unfold for_kind. rewrite (bool_decide_eq_false_2 (kind ∈ UNTAGGED_KINDS)) by done.
  cbn [andb]. destruct (match onwards <$> from with Some range => window range | None => (None, None) end) as [since until] eqn:Ew.
  eexists. split; [reflexivity|]. unfold asks. apply andb_true_iff. split.
  - unfold asks_base. cbn. rewrite bool_decide_eq_true_2, (decide_False (P := kind = _)) by done. cbn.
    destruct Ha as [-> | Ha]; [by rewrite decide_True|].
    rewrite decide_False by (intros E; rewrite E in Ha; by apply elem_of_nil in Ha). cbn. by apply bool_decide_eq_true.
  - destruct from as [from|]; cbn in Ew, Hfrom.
    + unfold window in Ew. cbn in Ew. rewrite (decide_False (P := i64_max < i64_max)) in Ew by lia. injection Ew as <- <-.
      unfold asks_time. cbn. apply bool_decide_eq_true in Hfrom. case_decide; cbn; [|done].
      by rewrite bool_decide_eq_true_2.
    + by injection Ew as <- <-.
Qed.

(** What ends the reading of the tagged kinds. *)
Definition replayed (waiting : list string) (signal : Signal) : Prop :=
  match signal with
  | Deadline _ | StreamEnded _ => True
  | EndOfStored relay _ => ∀ r, r ∈ waiting → r = relay
  | _ => False
  end.
Lemma primed_after s signal s' sent :
  step' s signal = Some (s', sent) → st_phase s' = Primed →
  (∃ rat sat dial taken asked, st_phase s = Top ∧ signal = Open rat sat dial taken ∧ sent = [asked] ∧ (taken = false ∨ asked = [])) ∨
  ∃ waiting named, st_phase s = Priming waiting named ∧ replayed waiting signal.
Proof.
  intros Hstep Hp. unfold step, prime_step, begin_priming in Hstep.
  destruct (st_phase s) as [|waiting named| | | | |err] eqn:Ep,
    signal as [rat sat dial taken|sat taken|relay e now rat|relay rat|rat|rat| | |]; try done.
  - left. destruct (targets _ _ _ _) as [asked db]. exists rat, sat, dial, taken, asked. injection Hstep as <- <-.
    split_and!; [done..|]. destruct taken; [|by left]. destruct asked; [by right|done].
  - destruct (store _ _ _ _ _) as [[]  t] eqn:Es; injection Hstep as <- <-; [done|].
    destruct (storing_spec relay e now s) as (n & u & Eu & _). rewrite Eu in Es. done.
  - right. exists waiting, named. split; [done|]. injection Hstep as <- <-.
    case_decide as Hw; [|done]. intros r Hr. destruct (decide (r = relay)); [done|].
    assert (r ∈ []) as []%elem_of_nil. rewrite <- Hw. by apply list_elem_of_filter.
  - right. by exists waiting, named.
  - right. by exists waiting, named.
  - by injection Hstep as <- <-.
  - destruct (targets _ _ _ _). by destruct taken; injection Hstep as <- <-.
  - destruct (storing_spec relay e now s) as (n & t & Eu & Et & _). rewrite Eu in Hstep. rewrite Ep in Et.
    destruct n; [destruct (rediscover _ _ _ t) as [[] u]|]; injection Hstep as <- <-; [done|done|congruence].
  - injection Hstep as <- <-. congruence.
  - by injection Hstep as <- <-.
  - injection Hstep as <- <-. congruence.
  - by injection Hstep as <- <-.
  - by injection Hstep as <- <-.
  - by injection Hstep as <- <-.
Qed.

(** Priming begins with every relay that was asked, and waits for each. *)
Lemma priming_after s signal s' sent waiting named :
  step' s signal = Some (s', sent) → st_phase s' = Priming waiting named →
  (∃ rat sat dial asked, st_phase s = Top ∧ signal = Open rat sat dial true ∧ sent = [asked] ∧ waiting = fst <$> asked ∧ named = false) ∨
  ∃ before named', st_phase s = Priming before named' ∧
    (waiting = before ∨ ∃ relay now, signal = EndOfStored relay now ∧ waiting = filter (λ r, r ≠ relay) before).
Proof.
  intros Hstep Hp. unfold step, prime_step, begin_priming in Hstep.
  destruct (st_phase s) as [|before named'| | | | |err] eqn:Ep,
    signal as [rat sat dial taken|sat taken|relay e now rat|relay rat|rat|rat| | |]; try done.
  - left. destruct (targets _ _ _ _) as [asked db]. exists rat, sat, dial, asked. injection Hstep as <- <-.
    destruct taken; [|done]. destruct asked as [|a asked]; [done|]. by injection Hp as <- <-.
  - right. exists before, named'. split; [done|]. left.
    destruct (storing_spec relay e now s) as (n & t & Es & Et & _). rewrite Es in Hstep. injection Hstep as <- <-.
    by injection Hp as <- _.
  - right. exists before, named'. split; [done|]. right. exists relay, rat. split; [done|]. injection Hstep as <- <-.
    case_decide; [|by injection Hp as <- _]. exfalso. revert Hp. unfold primed. destruct named'; [|done].
    by destruct (rediscover _ _ _ _) as [[] ?].
  - exfalso. injection Hstep as <- <-. revert Hp. unfold primed. destruct named'; [|done]. by destruct (rediscover _ _ _ _) as [[] ?].
  - exfalso. injection Hstep as <- <-. revert Hp. unfold primed. destruct named'; [|done]. by destruct (rediscover _ _ _ _) as [[] ?].
  - by injection Hstep as <- <-.
  - exfalso. destruct (targets _ _ _ _). by destruct taken; injection Hstep as <- <-.
  - exfalso. destruct (storing_spec relay e now s) as (n & t & Es & Et & _). rewrite Es in Hstep. rewrite Ep in Et.
    destruct n; [destruct (rediscover _ _ _ t) as [[] u]|]; injection Hstep as <- <-; [done|done|congruence].
  - exfalso. injection Hstep as <- <-. congruence.
  - by injection Hstep as <- <-.
  - exfalso. injection Hstep as <- <-. congruence.
  - by injection Hstep as <- <-.
  - by injection Hstep as <- <-.
  - by injection Hstep as <- <-.
Qed.


(** ** Coming back *)

Lemma backoff_spec attempt : backoff attempt = Z.min 60 (2 ^ Z.min (Z.max 0 (attempt - 1)) 31).
Proof.
  unfold backoff, duration_saturating_mul, BACKOFF_INITIAL, BACKOFF_MAX. rewrite Z.shiftl_1_l.
  set (d := Z.min _ 31). assert (2 ^ d ≤ 2 ^ 31) by (apply Z.pow_le_mono_r; lia). unfold u64_max. lia.
Qed.

End facts.

(** ** A run at a concrete input *)

Module sample.
#[export] Existing Instances Demo.demo Discovery.sample.keys.
Definition follower : Sync := with_discovery Discovery.sample.settings (with_overlap 3600 new).
Definition at_first : State :=
  mkState (Client.mkRelayClient ["wss://one"] ["wss://one"]) empty_db (mkCounts 0 0 0 0) 0 Top.
Definition order : Event := order_event "e1" 1700000100 "pending".
Definition relay_list : Event := relay_list_event "l1" 1700000200 ["wss://two"].
(** The order is replayed, then the relay list of the instance it proves; the
    relay it names is dialled and followed. *)
Definition signals : list Signal := [
  Open 0 0 (λ _, None) true; Incoming "wss://one" order 10 10; EndOfStored "wss://one" 11;
  Subscribe 12 true; Heartbeat; Incoming "wss://one" relay_list 13 13;
  Open 14 14 (λ _, None) true].
Definition ran : option (State * list Targets) := follow Some open_policy follower at_first signals.
Definition waiting : State := at_phase Waiting at_first.
End sample.
#[local] Existing Instances Demo.demo Discovery.sample.keys.

Example relays_are_discovered :
  option_map (λ r : State * list Targets,
    (Client.relays (st_client r.1), total (st_counts r.1), st_phase r.1, List.map (List.map fst) r.2)) sample.ran =
    Some (["wss://one"; "wss://two"], 2, Priming ["wss://one"; "wss://two"] false,
      [["wss://one"]; ["wss://one"]; ["wss://one"; "wss://two"]]).
Proof. vm_compute. reflexivity. Qed.
Theorem follower_stores_witness :
  match sample.ran with
  | Some (s', _) => reachable open_policy (st_db s') ∧ total (st_counts s') = 2 ∧ is_Some (events (st_db s') !! "e1")
  | None => False
  end.
Proof.
  unfold sample.ran. pose proof (follower_stores Some open_policy sample.follower sample.at_first sample.signals) as Hf.
  assert (option_is_some (follow Some open_policy sample.follower sample.at_first sample.signals) = true) as E
    by (vm_compute; reflexivity).
  destruct (follow Some open_policy sample.follower sample.at_first sample.signals) as [[s' sent]|]; [|discriminate].
  destruct (Hf s' sent eq_refl) as (Hr & _ & _ & Hc & _ & Hin); [constructor|exact I|].
  split; [exact Hr|]. split; [rewrite Hc; reflexivity|].
  apply (Hin sample.order); [left|vm_compute; reflexivity|left].
Defined.
