(* ===== verification/Report.v ===== *)
(** * Reports

    [src/report/mod.rs], [table.rs] and [json.rs]: what a command computed, in
    the two forms it can be printed. Drawing a table and spelling JSON are
    the libraries'; what goes into them is here. *)

From S2P Require Import Prelude F64 Text Calendar Range Metric.
From S2P Require Address.

#[local] Open Scope Z_scope.

(** ** The report *)

Inductive Format : Type := Table | Json.
Definition from_flag (json : bool) : Format := if json then Json else Table.

Record WindowSpan : Type := mkWindowSpan { ws_from : string; ws_until : string }.
Record Report : Type := mkReport {
  rp_generated_at : string;
  rp_range : WindowSpan;
  rp_metrics : list Metric;
}.

(** [range.rs]: [format_timestamp] and [Range::to_rfc3339]. *)
Definition format_timestamp `{Calendar} (timestamp : Z) : string :=
  match from_timestamp timestamp with Some at_ => to_rfc3339 at_ | None => pretty timestamp end.
Definition range_to_rfc3339 `{Calendar} (r : Range) : string * string :=
  (format_timestamp (range_from r), format_timestamp (range_until r)).

Definition new `{Calendar} (range : Range) (metrics : list Metric) (now : Z) : Report :=
  let '(from, until) := range_to_rfc3339 range in
  mkReport (format_timestamp now) (mkWindowSpan from until) metrics.

(** ** A figure as a person reads it *)

Definition labelled (m : Metric) : string :=
  match m_kind m with Observed => m_name m | Inferred => m_name m +:+ " (inf)" end.

Definition duration (seconds : Z) : string :=
  let MINUTE := 60 in
  let HOUR := 60 * MINUTE in
  let DAY := 24 * HOUR in
  let in_unit unit := format_fixed 1 (f64_div (f64_of_Z seconds) (f64_of_Z unit)) in
  if decide (seconds < MINUTE) then pretty seconds +:+ "s"
  else if decide (seconds < HOUR) then in_unit MINUTE +:+ "m"
  else if decide (seconds < DAY) then in_unit HOUR +:+ "h"
  else in_unit DAY +:+ "d".

Definition display (v : Value) : string :=
  match normalised v with
  | Count count => pretty count
  | Sats sats => pretty sats +:+ " sats"
  | Ratio r => format_fixed 1 (f64_mul r (f64_of_Z 100)) +:+ "%"
  | Seconds seconds => duration seconds
  | Fiat amount code => format_fixed 2 amount +:+ " " +:+ code
  | Text text => text
  | Missing => "—"
  end.

(** ** The two renderings *)

(** [comfy_table] drawing a header and rows, and [serde_json] spelling a
    report. *)
Class Renderer := {
  draw : list string → list (list string) → string;
  to_string_pretty : Report → string;
}.

(** The rows of the plain table; the third column is there when some figure
    has an error to show. *)
Definition has_errors (r : Report) : bool := existsb (λ m, option_is_some (m_error m)) (rp_metrics r).
Definition header (r : Report) : list string := ["metric"; "value"] ++ (if has_errors r then ["error"] else []).
Definition row (r : Report) (m : Metric) : list string :=
  [labelled m; display (m_value m)] ++ (if has_errors r then [default "" (m_error m)] else []).

(** The grid: which key and column a name is, and the cells filled so far. *)
Definition place (prefix : string) (columns : list string) (name : string) : option (string * nat) :=
  rest ← strip_prefix prefix name ≫= strip_prefix ".";
  head (omap (λ '(index, column), (λ key, (key, index)) <$> (strip_suffix column rest ≫= strip_suffix "."))
    (imap pair columns)).
Definition cell (m : Metric) : string :=
  display (m_value m) +:+ (if is_inferred m then " (inf)" else "").
Definition fill (prefix : string) (columns : list string) (rows : list (string * list string)) (m : Metric) :
    list (string * list string) :=
  match place prefix columns (m_name m) with
  | None => rows
  | Some (key, column) =>
      let '(rows, position) :=
        match list_find (λ r, r.1 = key) rows with
        | Some (position, _) => (rows, position)
        | None => (rows ++ [(key, replicate (length columns) "")], length rows)
        end in
      alter (λ '(key, cells), (key, <[column := cell m]> cells)) position rows
  end.
Definition grid (r : Report) (prefix : string) (columns : list string) : list (string * list string) :=
  foldl (fill prefix columns) [] (rp_metrics r).

Section render.
Context `{Renderer}.
Definition heading (r : Report) : string := ws_from (rp_range r) +:+ " — " +:+ ws_until (rp_range r) +:+ String "010" "".
Definition table_render (r : Report) : string :=
  heading r +:+ draw (header r) (row r <$> rp_metrics r) +:+ String "010" "".
Definition table_render_rows (r : Report) (row_label prefix : string) (columns : list string) : string :=
  heading r +:+ draw (row_label :: columns) ((λ '(key, cells), key :: cells) <$> grid r prefix columns) +:+ String "010" "".
Definition json_render (r : Report) : string := to_string_pretty r.

Definition render (r : Report) (format : Format) : string :=
  match format with Table => table_render r | Json => json_render r end.
Definition render_rows (r : Report) (format : Format) (row_label prefix : string) (columns : list string) : string :=
  match format with Table => table_render_rows r row_label prefix columns | Json => json_render r end.
End render.

(** ** The grid says what the figures say *)

(** A name is cut at its last dot. *)
Lemma cut_at_last_dot a b c d :
  contains_char "." c = false → contains_char "." d = false → (a +:+ "." +:+ c) = (b +:+ "." +:+ d) → a = b ∧ c = d.
Proof.
  intros Hc Hd E. apply (f_equal String.rev) in E. rewrite !rev_append in E.
  rewrite !string_app_assoc in E.
  assert (∀ x k, contains_char "." x = false →
    split_once "." (String.rev x +:+ String.rev "." +:+ String.rev k) = Some (String.rev x, String.rev k)) as Hs.
  { intros x k Hx. apply Address.split_once_some. split; [reflexivity|]. by rewrite contains_char_rev. }
  pose proof (Hs c a Hc) as H1. pose proof (Hs d b Hd) as H2. rewrite E, H2 in H1. injection H1 as E1 E2.
  split; [by rewrite <- (rev_involutive a), <- E2, rev_involutive|by rewrite <- (rev_involutive c), <- E1, rev_involutive].
Qed.

Section grid.
Context (prefix : string) (columns : list string).

Definition candidate (rest : string) (c : nat * string) : option (string * nat) :=
  (λ key, (key, c.1)) <$> (strip_suffix c.2 rest ≫= strip_suffix ".").
Lemma candidate_Some rest i c key j :
  candidate rest (i, c) = Some (key, j) ↔ j = i ∧ rest = key +:+ "." +:+ c.
Proof.
  unfold candidate. cbn [fst snd]. split.
  - destruct (strip_suffix c rest) as [k|] eqn:E1; [|done]. cbn [mbind option_bind].
    destruct (strip_suffix "." k) as [k'|] eqn:E2; [|done]. intros [= <- <-].
    apply strip_suffix_Some in E1 as ->, E2 as ->. by rewrite string_app_assoc.
  - intros [-> ->]. rewrite <- string_app_assoc, (proj2 (strip_suffix_Some _ _ _) eq_refl). cbn [mbind option_bind].
    by rewrite (proj2 (strip_suffix_Some _ _ _) eq_refl).
Qed.
Lemma place_eq name :
  place prefix columns name = (strip_prefix prefix name ≫= strip_prefix ".") ≫= λ rest, head (omap (candidate rest) (imap pair columns)).
Proof.
  unfold place. destruct (strip_prefix prefix name ≫= strip_prefix ".") as [rest|]; [|done]. cbn. f_equal.
  apply list_omap_ext, Forall2_same_length_lookup. split; [done|]. intros i [j c] x Hx Hx'. by simplify_eq.
Qed.
Lemma place_column name key i : place prefix columns name = Some (key, i) → (i < length columns)%nat.
Proof.
  rewrite place_eq. destruct (strip_prefix prefix name ≫= strip_prefix ".") as [rest|]; [|done].
  cbn [mbind option_bind]. intros Hh.
  assert ((key, i) ∈ omap (candidate rest) (imap pair columns)) as Hin.
  { destruct (omap _ _); [done|]. injection Hh as ->. by left. }
  apply list_elem_of_omap in Hin as ([j c] & Hj & Hc). apply candidate_Some in Hc as [<- _].
  apply elem_of_lookup_imap in Hj as (k & c' & [= -> ->] & Hk). by apply lookup_lt_Some in Hk.
Qed.
(** A key's figure is placed under that key, whatever the key's own text. *)
Lemma place_dotted key i c :
  NoDup columns → (∀ c, c ∈ columns → contains_char "." c = false) → columns !! i = Some c →
  place prefix columns (dotted (dotted prefix key) c) = Some (key, i).
Proof.
  intros Hnd Hdots Hi. rewrite place_eq. unfold dotted. rewrite !string_app_assoc.
  rewrite (proj2 (strip_prefix_Some prefix _ _) eq_refl). cbn [mbind option_bind].
  rewrite (proj2 (strip_prefix_Some "." _ (key +:+ "." +:+ c)) eq_refl). cbn [mbind option_bind].
  assert (∀ j d, columns !! j = Some d → candidate (key +:+ "." +:+ c) (j, d) = if decide (j = i) then Some (key, i) else None) as Hc.
  { intros j d Hd. destruct (candidate _ _) as [[k j']|] eqn:E.
    - apply candidate_Some in E as [-> E].
      apply cut_at_last_dot in E as [-> ->]; [|by apply Hdots; eapply list_elem_of_lookup_2..].
      assert (j = i) as -> by (by eapply NoDup_lookup). by rewrite decide_True.
    - case_decide; [|done]. subst. rewrite Hi in Hd. injection Hd as <-.
      by rewrite (proj2 (candidate_Some _ _ _ key i)) in E. }
  assert ((key, i) ∈ omap (candidate (key +:+ "." +:+ c)) (imap pair columns)) as Hin.
  { apply list_elem_of_omap. exists (i, c). split; [|rewrite (Hc i c Hi); by rewrite decide_True].
    apply elem_of_lookup_imap. eauto. }
  assert (∀ x, x ∈ omap (candidate (key +:+ "." +:+ c)) (imap pair columns) → x = (key, i)) as Hall.
  { intros x ([j d] & (k & d' & [= -> ->] & Hk)%elem_of_lookup_imap & Hx)%list_elem_of_omap.
    rewrite (Hc _ _ Hk) in Hx. case_decide; [by injection Hx|done]. }
  destruct (omap _ _) as [|x l]; [by apply elem_of_nil in Hin|]. cbn. f_equal. apply Hall. by left.
Qed.

(** The cell of a key and column: the last figure placed there. *)
Definition last_cell (ms : list Metric) (key : string) (i : nat) : string :=
  default "" (cell <$> last (filter (λ m, place prefix columns (m_name m) = Some (key, i)) ms)).
Record filled (ms : list Metric) (rows : list (string * list string)) : Prop := {
  fi_keys : NoDup (fst <$> rows);
  fi_placed key : key ∈ fst <$> rows ↔ ∃ m i, m ∈ ms ∧ place prefix columns (m_name m) = Some (key, i);
  fi_cells key cells : (key, cells) ∈ rows → length cells = length columns ∧
    ∀ i, (i < length columns)%nat → cells !! i = Some (last_cell ms key i);
}.
Lemma last_cell_snoc ms m key i :
  last_cell (ms ++ [m]) key i =
    if decide (place prefix columns (m_name m) = Some (key, i)) then cell m else last_cell ms key i.
Proof.
  unfold last_cell. rewrite filter_app, filter_cons, filter_nil. case_decide; [by rewrite last_snoc|by rewrite app_nil_r].
Qed.
Lemma fill_filled ms rows m : filled ms rows → filled (ms ++ [m]) (fill prefix columns rows m).
Proof.
  intros [Hnd Hkeys Hcells]. unfold fill. destruct (place prefix columns (m_name m)) as [[key column]|] eqn:Ep.
  2:{ split; [done| |].
      - intros key. rewrite Hkeys. setoid_rewrite elem_of_app. setoid_rewrite list_elem_of_singleton. naive_solver congruence.
      - intros key cells Hin. destruct (Hcells key cells Hin) as [Hl Hc]. split; [done|]. intros i Hi. rewrite Hc by done.
        rewrite last_cell_snoc, decide_False; [done|congruence]. }
  pose proof (place_column _ _ _ Ep) as Hcol.
  set (found := match list_find _ rows with Some _ => _ | None => _ end).
  assert (∃ rows' position cells, found = (rows', position) ∧ rows' !! position = Some (key, cells) ∧
    NoDup (fst <$> rows') ∧ (∀ k, k ∈ fst <$> rows' ↔ k ∈ fst <$> rows ∨ k = key) ∧
    ∀ k cells, (k, cells) ∈ rows' → length cells = length columns ∧
      ∀ i, (i < length columns)%nat → cells !! i = Some (last_cell ms k i))
    as (rows' & position & cells & -> & Hpos & Hnd' & Hin' & Hcells').
  { unfold found. destruct (list_find _ rows) as [[position [k cells]]|] eqn:Ef.
    - apply list_find_Some in Ef as (Hp & Hk & _). cbn in Hk. subst k. exists rows, position, cells. split_and!; try done.
      intros k. split; [by left|]. intros [? | ->]; [done|]. apply list_elem_of_lookup_2 in Hp. by apply (list_elem_of_fmap_2 fst) in Hp.
    - assert (key ∉ fst <$> rows) as Hnew.
      { intros ([k cells] & -> & Hin)%list_elem_of_fmap. apply list_find_None in Ef. rewrite Forall_forall in Ef. by apply (Ef _ Hin). }
      eexists _, _, (replicate (length columns) ""). split; [done|]. split; [by rewrite list_lookup_middle|]. split_and!.
      + rewrite fmap_app. apply NoDup_app. split_and!; [done| |by apply NoDup_singleton]. by intros k Hk ->%list_elem_of_singleton.
      + intros k. rewrite fmap_app, elem_of_app. cbn [fmap list_fmap fst]. by rewrite list_elem_of_singleton.
      + intros k cells [Hin | [= -> ->]%list_elem_of_singleton]%elem_of_app; [by apply Hcells|].
        split; [by rewrite length_replicate|]. intros i Hi. rewrite lookup_replicate_2 by done. f_equal. unfold last_cell.
        destruct (filter _ ms) as [|m' ms'] eqn:Em; [done|]. exfalso. apply Hnew, Hkeys. exists m', i.
        assert (m' ∈ filter (λ m, place prefix columns (m_name m) = Some (key, i)) ms) as Hm' by (rewrite Em; by left).
        apply list_elem_of_filter in Hm'. naive_solver. }
  assert (fst <$> alter (λ '(key, cells), (key, <[column := cell m]> cells)) position rows' = fst <$> rows') as Efst.
  { apply list_eq. intros j. rewrite !list_lookup_fmap. destruct (decide (position = j)) as [->|].
    - rewrite list_lookup_alter_eq, Hpos. done.
    - by rewrite list_lookup_alter_ne. }
  split; rewrite ?Efst; [done| |].
  - intros k. rewrite Hin', Hkeys. setoid_rewrite elem_of_app. setoid_rewrite list_elem_of_singleton. naive_solver.
  - intros k cs [j Hj]%list_elem_of_lookup. destruct (decide (position = j)) as [->|Hne].
    + rewrite list_lookup_alter_eq, Hpos in Hj. injection Hj as <- <-.
      destruct (Hcells' key cells (list_elem_of_lookup_2 _ _ _ Hpos)) as [Hl Hc]. split; [by rewrite length_insert|].
      intros i Hi. rewrite last_cell_snoc, Ep. destruct (decide (column = i)) as [->|Hci].
      * rewrite list_lookup_insert_eq by lia. by rewrite decide_True.
      * rewrite list_lookup_insert_ne by done. rewrite decide_False by congruence. by apply Hc.
    + rewrite list_lookup_alter_ne in Hj by done. destruct (Hcells' k cs (list_elem_of_lookup_2 _ _ _ Hj)) as [Hl Hc].
      split; [done|]. intros i Hi. rewrite last_cell_snoc, decide_False; [by apply Hc|]. intros E. rewrite Ep in E.
      injection E as -> ->. apply Hne. eapply NoDup_lookup; [exact Hnd'| |]; rewrite list_lookup_fmap; [by rewrite Hpos|by rewrite Hj].
Qed.
Lemma grid_filled ms : filled ms (foldl (fill prefix columns) [] ms).
Proof.
  induction ms as [|m ms IH] using rev_ind.
  - split; [constructor| |by intros key cells ?%elem_of_nil]. intros key. cbn. rewrite elem_of_nil.
    split; [done|]. by intros (m & i & ?%elem_of_nil & _).
  - rewrite foldl_snoc. by apply fill_filled.
Qed.
End grid.

(** C39: the grid shows what the figures say. Its rows are the keys some figure
    is filed under, each once and as wide as the header, and each cell is the
    last figure of its key and column, or empty; and a figure named after a
    key and a column is filed there whatever the key is spelled with, so no
    figure of a comparison is lost or put in another's place. *)
Theorem grid_spec (r : Report) (prefix : string) (columns : list string) :
  NoDup (fst <$> grid r prefix columns) ∧
  (∀ key, key ∈ fst <$> grid r prefix columns ↔
    ∃ m i, m ∈ rp_metrics r ∧ place prefix columns (m_name m) = Some (key, i)) ∧
  (∀ key cells, (key, cells) ∈ grid r prefix columns → length cells = length columns ∧
    ∀ i, (i < length columns)%nat → cells !! i = Some (last_cell prefix columns (rp_metrics r) key i)) ∧
  (NoDup columns → (∀ c, c ∈ columns → contains_char "." c = false) → ∀ key i c, columns !! i = Some c →
    place prefix columns (dotted (dotted prefix key) c) = Some (key, i)).
Proof.
  destruct (grid_filled prefix columns (rp_metrics r)) as [Hnd Hk Hc]. split_and!; [done..|].
  intros. by apply place_dotted.
Qed.
