(* ===== verification/Reports.v ===== *)
(** * The report commands

    [src/commands/query.rs], [summary.rs], [compare.rs], [market.rs], [instances.rs],
    [order.rs], [series.rs] and [src/commands/stats/]: each resolves its
    flags, loads what its figures need, and prints the report. *)

From S2P Require Import Prelude F64 Network Event Db StatsPrelude Calendar Window Metric.
From S2P Require RepoEvents RepoInstances RepoOrders RepoDevFees LoadActivity LoadDevFees LoadDisputes LoadInstances LoadRates.
From S2P Require ParseOrder ParseDevFee ParseDispute Range Cli Config Text Bucket.
From S2P Require Activity Converted Volume Market Timing DevFees Implied Disputes Feeds Summary Compare MarketFiat.
From S2P Require Instances Series.
From S2P Require Import Report.

#[local] Open Scope Z_scope.
#[local] Existing Instance Series.family_eq_dec.

(** ** What a report covers

    [src/commands/query.rs], and [coverage] of [src/commands/mod.rs]. *)

(** What a report command can end with instead of a report. [doing] is the
    context an error of the database carries. *)
Inductive CommandError : Type :=
| BadRange (e : Range.RangeError)
| EmptyArchive
| BadInstance (e : Range.InstanceError)
| BadCurrency (message : string)
| NetworkScoped (message : string)
| NoInstanceAsked
| UnknownInstance (pubkey : string)
| UnknownOrder (order_id : string)
| BadSeries (e : Series.SeriesError) (plottable : option (list string))
| Database (doing : option string) (e : SqlError).

Definition database {A} (m : Sql A) : Result CommandError A := map_err (Database None) m.

Record Query : Type := mkQuery {
  q_range : Range.Range;
  q_scope : RepoEvents.Scope;
  q_network_narrowed : bool;
}.

(** [Window::new(query.range.from(), query.range.until())]. *)
Definition window_of (q : Query) : Window := mkWindow (Range.range_from (q_range q)) (Range.range_until (q_range q)).

(** The bestiary as [InstanceFilter::resolve] is given it. *)
Definition known_instances (db : Db) : list Range.KnownInstance :=
  (λ instance, (inst_pubkey instance, inst_name instance)) <$> RepoInstances.all db.

Definition resolve_for (db : Db) (settings : Config.Settings) (cli : Cli.Cli) (instance : option string) (now : Z) :
    Result CommandError Query :=
  range ← map_err BadRange (Range.resolve (Cli.cl_from cli) (Cli.cl_until cli) now);
  _ ← if RepoEvents.is_empty db then Err EmptyArchive else Ok ();
  found ← map_err BadInstance (Range.resolve_instance instance (known_instances db));
  let pubkey := match found with Range.All => None | Range.One pubkey => Some pubkey end in
  let networks := match Cli.cl_network cli with
                  | Some network => [network]
                  | None => Config.is_networks (Config.se_indexer settings)
                  end in
  Ok (mkQuery range (RepoEvents.mkScope pubkey networks) (option_is_some (Cli.cl_network cli))).
Definition resolve (db : Db) (settings : Config.Settings) (cli : Cli.Cli) (now : Z) : Result CommandError Query :=
  resolve_for db settings cli (Cli.cl_instance cli) now.

Definition coverage (db : Db) (kinds : list Z) (scope : RepoEvents.Scope) : Bucket.Coverage :=
  Bucket.from_earliest (RepoEvents.earliest_created_at db kinds scope).

(** Three ASCII letters, upper-cased: the check every currency flag gets. *)
Definition currency (message : string) (flag : string) : Result CommandError string :=
  if bool_decide (String.length flag = 3%nat) && forall_char Text.is_ascii_alphabetic flag
  then Ok (Text.to_ascii_uppercase flag) else Err (BadCurrency message).
Definition refuse_network (message : string) (network : option Network) : Result CommandError () :=
  match network with None => Ok () | Some _ => Err (NetworkScoped message) end.

(** [--by]: the flag's word as the aggregation's. *)
Definition order_dimension (by_ : Cli.OrderDimension) : Activity.Dimension :=
  match by_ with
  | Cli.OrderStatus => Activity.ByStatus | Cli.OrderKind => Activity.ByKind | Cli.OrderFiat => Activity.ByFiat
  | Cli.OrderMethod => Activity.ByMethod | Cli.OrderInstance => Activity.ByInstance
  | Cli.OrderPeriod => Activity.ByMonth | Cli.OrderDay => Activity.ByDay | Cli.OrderHour => Activity.ByHour
  | Cli.OrderWeekday => Activity.ByWeekday
  end.
Definition volume_dimension (by_ : Cli.VolumeDimension) : Volume.Dimension :=
  match by_ with
  | Cli.VolumeKind => Volume.ByKind | Cli.VolumeFiat => Volume.ByFiat | Cli.VolumeInstance => Volume.ByInstance
  | Cli.VolumePeriod => Volume.ByMonth | Cli.VolumeDay => Volume.ByDay
  end.
Definition market_dimension (by_ : Cli.MarketDimension) : Market.Dimension :=
  match by_ with
  | Cli.MarketFiat => Market.ByFiat | Cli.MarketKind => Market.ByKind | Cli.MarketInstance => Market.ByInstance
  end.
Definition timing_dimension (by_ : Cli.TimingDimension) : Timing.Dimension :=
  match by_ with
  | Cli.TimingFiat => Timing.ByFiat | Cli.TimingMethod => Timing.ByMethod | Cli.TimingKind => Timing.ByKind
  | Cli.TimingInstance => Timing.ByInstance
  end.
Definition dev_fee_dimension (by_ : Cli.InstanceOrPeriod) : DevFees.Dimension :=
  match by_ with
  | Cli.ByInstance => DevFees.ByInstance | Cli.ByPeriod => DevFees.ByMonth | Cli.ByDay => DevFees.ByDay
  end.
Definition dispute_dimension (by_ : Cli.DisputeDimension) : Disputes.Dimension :=
  match by_ with
  | Cli.DisputeStatus => Disputes.ByStatus | Cli.DisputeInitiator => Disputes.ByInitiator
  | Cli.DisputeInstance => Disputes.ByInstance | Cli.DisputePeriod => Disputes.ByMonth | Cli.DisputeDay => Disputes.ByDay
  end.
Definition series_period (by_ : Cli.Period) : Window.Period :=
  match by_ with Cli.Day => Window.Day | Cli.Week => Window.Week | Cli.Month => Window.Month | Cli.Year => Window.Year end.
Definition series_split (split : Cli.SeriesSplit) : Series.Split :=
  match split with
  | Cli.SplitInstance => Series.ByInstance | Cli.SplitKind => Series.ByKind | Cli.SplitFiat => Series.ByFiat
  end.

(** The dispute figures cannot be narrowed to a network: under [--network]
    the views that combine families go without. *)
Definition disputes_unless_narrowed (db : Db) (q : Query) : Sql (option Disputes.DisputeData) :=
  if q_network_narrowed q then Ok None else Some <$> LoadDisputes.load db (q_scope q).

(** ** The reports *)

Section reports.
Context {cal : Calendar} `{External}.
Context (db : Db).

Definition orders_report (q : Query) (dimension : option Activity.Dimension) (now : Z) : Result CommandError Report :=
  orders ← database (LoadActivity.orders db (q_scope q));
  let metrics := Activity.report orders (window_of q) now dimension (coverage db [ParseOrder.KIND] (q_scope q)) in
  Ok (Report.new (q_range q) metrics now).

Definition volume_report (q : Query) (dimension : option Volume.Dimension) (convert_to : option string) (now : Z) :
    Result CommandError Report :=
  let window := window_of q in
  orders ← database (LoadActivity.completed_in db (q_scope q) (w_from window) (w_until window));
  conversion ← match convert_to with
               | Some code =>
                   (λ book, Some (book, code)) <$>
                     map_err (Database (Some "loading the rate snapshots")) (LoadRates.book db (w_from window) (w_until window))
               | None => Ok None
               end;
  Ok (Report.new (q_range q)
    (Converted.report orders window dimension conversion (coverage db [ParseOrder.KIND] (q_scope q))) now).

Definition market_report (q : Query) (dimension : option Market.Dimension) (now : Z) : Result CommandError Report :=
  orders ← database (LoadActivity.orders db (q_scope q));
  Ok (Report.new (q_range q) (Market.report orders (window_of q) dimension) now).

Definition timing_report (q : Query) (dimension : option Timing.Dimension) (now : Z) : Result CommandError Report :=
  let window := window_of q in
  orders ← database (LoadActivity.lifecycle_in db (q_scope q) (w_from window) (w_until window) now);
  Ok (Report.new (q_range q) (Timing.report orders window dimension now) now).

Definition dev_fees_report `{Text.CaseMapping} (q : Query) (dimension : option DevFees.Dimension)
    (assumptions : Config.AssumptionSettings) (now : Z) : Result CommandError Report :=
  let data := LoadDevFees.load db (q_scope q) in
  let pct := Config.dev_fee_percentage_for assumptions in
  let metrics := Implied.report data (window_of q) dimension pct
    (coverage db [ParseDevFee.KIND; ParseOrder.KIND] (q_scope q)) in
  Ok (Report.new (q_range q) metrics now).

Definition disputes_report (q : Query) (dimension : option Disputes.Dimension) (now : Z) : Result CommandError Report :=
  data ← database (LoadDisputes.load db (q_scope q));
  let metrics := Disputes.report data (window_of q) now dimension
    (coverage db [ParseDispute.KIND; ParseOrder.KIND] (q_scope q)) in
  Ok (Report.new (q_range q) metrics now).

Definition rates_report (q : Query) (fiat : option string) (now : Z) : Result CommandError Report :=
  feeds ← database (LoadRates.feeds db (RepoEvents.scope_pubkey (q_scope q)));
  Ok (Report.new (q_range q) (Feeds.report feeds fiat now) now).

Definition summary_report (q : Query) (now : Z) : Result CommandError Report :=
  orders ← database (LoadActivity.orders db (q_scope q));
  disputes ← database (disputes_unless_narrowed db q);
  Ok (Report.new (q_range q) (Summary.report orders disputes (window_of q) now) now).

Definition market_view (q : Query) (fiat : string) (now : Z) : Result CommandError Report :=
  orders ← database (LoadActivity.orders db (q_scope q));
  Ok (Report.new (q_range q) (MarketFiat.report orders fiat (window_of q) now) now).

(** Under [--network] the comparison is between the instances that traded on
    it. *)
Definition compare_report (q : Query) (now : Z) : Result CommandError Report :=
  orders ← database (LoadActivity.orders db (q_scope q));
  let profiles := LoadInstances.profiles db (q_scope q) in
  let profiles := if q_network_narrowed q then
      filter (λ p, existsb (λ o, bool_decide (Activity.o_pubkey o = Instances.pf_pubkey p)) orders = true) profiles
    else profiles in
  let fees := LoadDevFees.load db (q_scope q) in
  disputes ← database (disputes_unless_narrowed db q);
  Ok (Report.new (q_range q) (Compare.report profiles orders fees disputes (window_of q) now) now).

Definition list_report (q : Query) (now : Z) : Result CommandError Report :=
  let profiles := LoadInstances.profiles db (q_scope q) in
  orders ← database (LoadActivity.orders db (q_scope q));
  Ok (Report.new (q_range q) (Instances.list_ profiles orders (window_of q) now) now).

(** The network's orders are read once, for the share. *)
Definition profile_report (q : Query) (now : Z) : Result CommandError Report :=
  pubkey ← ok_or (RepoEvents.scope_pubkey (q_scope q)) NoInstanceAsked;
  profile ← ok_or (head (LoadInstances.profiles db (q_scope q))) (UnknownInstance pubkey);
  network ← database (LoadActivity.orders db (RepoEvents.mkScope None (RepoEvents.scope_networks (q_scope q))));
  let own := filter (λ o, Activity.o_pubkey o = pubkey) network in
  let fees := LoadDevFees.load db (q_scope q) in
  disputes ← database (disputes_unless_narrowed db q);
  Ok (Report.new (q_range q) (Instances.profile profile own network fees disputes (window_of q) now) now).

(** *** One order *)

Definition version (v : ParseOrder.OrderVersion) : Instances.Lifecycle.Version := {|
  Instances.Lifecycle.v_at := ParseOrder.ov_created_at v;
  Instances.Lifecycle.v_status := match ParseOrder.ov_status v with
    | ParseOrder.Pending => Activity.Pending | ParseOrder.InProgress => Activity.InProgress
    | ParseOrder.Success => Activity.Success | ParseOrder.Canceled => Activity.Canceled
    end;
  Instances.Lifecycle.v_direction := match ParseOrder.ov_direction v with
    | ParseOrder.Buy => Activity.Buy | ParseOrder.Sell => Activity.Sell
    end;
  Instances.Lifecycle.v_fiat_code := ParseOrder.ov_fiat_code v;
  Instances.Lifecycle.v_amount_sats := ParseOrder.ov_amount_sats v;
  Instances.Lifecycle.v_fiat := match ParseOrder.ov_fiat v with
    | ParseOrder.Fixed amount => Instances.Lifecycle.Fixed amount
    | ParseOrder.Range min max => Instances.Lifecycle.Range min max
    end;
  Instances.Lifecycle.v_premium := ParseOrder.ov_premium v;
  Instances.Lifecycle.v_expires_at := ParseOrder.ov_expires_at v;
|}.
Definition fee_seen (stored : RepoDevFees.StoredDevFee) : Instances.Lifecycle.FeeSeen :=
  let fee := RepoDevFees.stored_fee stored in
  Instances.Lifecycle.mkFeeSeen (ParseDevFee.fee_created_at fee) (ParseDevFee.fee_amount_sats fee) (RepoDevFees.stored_is_duplicate stored).

(** The order's own span, first version to last; half-open, so the last is in
    it. *)
Definition span_of (versions : list Instances.Lifecycle.Version) (now : Z) : Result CommandError Range.Range :=
  let first := Instances.Lifecycle.v_at <$> head versions in
  let last := (λ v, i64_add (Instances.Lifecycle.v_at v) 1) <$> last versions in
  map_err BadRange (Range.resolve first last now).
Definition lifecycle_report (order_id : string) (now : Z) : Result CommandError Report :=
  stored ← map_err (Database (Some ("reading the versions of order " +:+ order_id))) (RepoOrders.versions db order_id);
  let versions := version <$> stored in
  _ ← if decide (versions = []) then Err (UnknownOrder order_id) else Ok ();
  fees ← database (RepoDevFees.for_order db order_id);
  span ← span_of versions now;
  Ok (Report.new span (Instances.Lifecycle.report order_id versions (fee_seen <$> fees)) now).

(** *** A series *)

(** Only what the metric's family reads; everything when it has none. *)
Definition reads (metric : string) (family : Series.Family) : bool :=
  match Series.family_of metric with None => true | Some f => bool_decide (f = family) end.
Definition load_for (q : Query) (assumptions : Config.AssumptionSettings) (metric : string) (window : Window) :
    Result CommandError Series.Data :=
  priced ← match Series.priced_in metric with
           | Some code =>
               (λ book, Some (Series.mkPriced book code)) <$>
                 map_err (Database (Some "loading the rate snapshots")) (LoadRates.book db (w_from window) (w_until window))
           | None => Ok None
           end;
  orders ← if reads metric Series.Activity || reads metric Series.Volume
           then database (LoadActivity.orders db (q_scope q)) else Ok [];
  let fees := if reads metric Series.DevFees then LoadDevFees.load db (q_scope q) else DevFees.no_fees in
  disputes ← if reads metric Series.Disputes then database (LoadDisputes.load db (q_scope q)) else Ok Disputes.no_data;
  let share := Series.mkAssumption (Config.as_dev_fee_percentage assumptions)
    (Config.as_dev_fee_percentage_default assumptions) in
  Ok (Series.mkData orders fees disputes [] (Some share) priced).

Definition explain (error : Series.SeriesError) (data : Series.Data) (window : Window) (now : Z) : CommandError :=
  match error with
  | Series.UnknownMetric _ => BadSeries error (Some (Series.catalogue data window now))
  | other => BadSeries other None
  end.
Definition series_report (q : Query) (assumptions : Config.AssumptionSettings) (metric : string)
    (period : Window.Period) (split : option Series.Split) (now : Z) : Result CommandError Report :=
  let window := window_of q in
  data ← load_for q assumptions metric window;
  metrics ← map_err (λ error, explain error data window now) (Series.report data window period metric split now);
  Ok (Report.new (q_range q) metrics now).

End reports.

(** ** The commands *)

Section commands.
Context {cal : Calendar} `{External} `{Text.CaseMapping} `{Renderer}.
Context (db : Db) (settings : Config.Settings) (cli : Cli.Cli) (now : Z).

Definition print (r : Report) : string := render r (from_flag (Cli.cl_json cli)).
Definition orders_run (by_ : option Cli.OrderDimension) : Result CommandError string :=
  query ← resolve db settings cli now;
  report ← orders_report db query (order_dimension <$> by_) now;
  Ok (print report).

Definition option_currency (message : string → string) (flag : option string) : Result CommandError (option string) :=
  match flag with Some flag => Some <$> currency (message flag) flag | None => Ok None end.
Definition in_message (flag : string) : string :=
  "`--in " +:+ flag +:+ "`: a currency is a three-letter code such as USD".
Definition volume_run (by_ : option Cli.VolumeDimension) (convert_to : option string) : Result CommandError string :=
  code ← option_currency in_message convert_to;
  query ← resolve db settings cli now;
  report ← volume_report db query (volume_dimension <$> by_) code now;
  Ok (print report).

Definition market_run (by_ : option Cli.MarketDimension) : Result CommandError string :=
  query ← resolve db settings cli now;
  report ← market_report db query (market_dimension <$> by_) now;
  Ok (print report).

Definition timing_run (by_ : option Cli.TimingDimension) : Result CommandError string :=
  query ← resolve db settings cli now;
  report ← timing_report db query (timing_dimension <$> by_) now;
  Ok (print report).

Definition dev_fees_run (by_ : option Cli.InstanceOrPeriod) : Result CommandError string :=
  query ← resolve db settings cli now;
  report ← dev_fees_report db query (dev_fee_dimension <$> by_) (Config.se_assumptions settings) now;
  Ok (print report).

Definition disputes_scope_message : string :=
  "`stats disputes` cannot be scoped with --network: dispute events (kind 38386) carry no network tag, so disputes are counted across every indexed network".
Definition disputes_run (by_ : option Cli.DisputeDimension) : Result CommandError string :=
  _ ← refuse_network disputes_scope_message (Cli.cl_network cli);
  query ← resolve db settings cli now;
  report ← disputes_report db query (dispute_dimension <$> by_) now;
  Ok (print report).

Definition rates_scope_message : string :=
  "`stats rates` cannot be scoped with --network: rate snapshots (kind 30078) carry no network tag, so a feed belongs to no one network".
Definition fiat_message (flag : string) : string :=
  "`--fiat " +:+ flag +:+ "`: a currency is a three-letter code such as USD".
Definition rates_run (fiat : option string) : Result CommandError string :=
  _ ← refuse_network rates_scope_message (Cli.cl_network cli);
  code ← option_currency fiat_message fiat;
  query ← resolve db settings cli now;
  report ← rates_report db query code now;
  Ok (print report).

Definition summary_run : Result CommandError string :=
  query ← resolve db settings cli now;
  report ← summary_report db query now;
  Ok (print report).

Definition market_message (argument : string) : string :=
  "`" +:+ argument +:+ "` is not a currency: a currency is a three-letter code such as ARS".
Definition market_view_run (fiat : string) : Result CommandError string :=
  code ← currency (market_message fiat) fiat;
  query ← resolve db settings cli now;
  report ← market_view db query code now;
  Ok (print report).

(** A grid, one row per instance. *)
Definition compare_run : Result CommandError string :=
  query ← resolve db settings cli now;
  report ← compare_report db query now;
  Ok (render_rows report (from_flag (Cli.cl_json cli)) "instance" "compare" Compare.COLUMNS).

Definition list_run : Result CommandError string :=
  query ← resolve db settings cli now;
  report ← list_report db query now;
  Ok (print report).

(** The instance is the argument's, not [--instance]'s. *)
Definition profile_run (instance : string) : Result CommandError string :=
  query ← resolve_for db settings cli (Some instance) now;
  report ← profile_report db query now;
  Ok (print report).

(** Not windowed, and no flag is resolved. *)
Definition order_run (order_id : string) : Result CommandError string :=
  report ← lifecycle_report db order_id now;
  Ok (print report).

Definition series_run (metric : string) (by_ : Cli.Period) (split : option Cli.SeriesSplit) :
    Result CommandError string :=
  _ ← if bool_decide (Series.family_of metric = Some Series.Disputes)
      then refuse_network disputes_scope_message (Cli.cl_network cli) else Ok ();
  query ← resolve db settings cli now;
  report ← series_report db query (Config.se_assumptions settings) metric (series_period by_) (series_split <$> split) now;
  Ok (print report).

(** The arms of [dispatch] that print a report; the other commands write. *)
Definition reported : option (Result CommandError string) :=
  match Cli.cl_command cli with
  | Cli.Summary => Some summary_run
  | Cli.InstancesList => Some list_run
  | Cli.InstanceProfile instance => Some (profile_run instance)
  | Cli.Compare => Some compare_run
  | Cli.Series metric by_ split => Some (series_run metric by_ split)
  | Cli.Market fiat => Some (market_view_run fiat)
  | Cli.Orders order_id => Some (order_run order_id)
  | Cli.Stats (Cli.StatsOrders by_) => Some (orders_run by_)
  | Cli.Stats (Cli.StatsVolume by_ convert_to) => Some (volume_run by_ convert_to)
  | Cli.Stats (Cli.StatsMarket by_) => Some (market_run by_)
  | Cli.Stats (Cli.StatsTiming by_) => Some (timing_run by_)
  | Cli.Stats (Cli.StatsDevFees by_) => Some (dev_fees_run by_)
  | Cli.Stats (Cli.StatsDisputes by_) => Some (disputes_run by_)
  | Cli.Stats (Cli.StatsRates fiat) => Some (rates_run fiat)
  | Cli.Backfill _ | Cli.Sync | Cli.Publish _ _ _ | Cli.Rebuild _ => None
  end.
End commands.
