(* ===== verification/ReportsFacts.v ===== *)
(** * What the report commands answer

    When a report is refused, that nothing else stops one, and what
    [--network] keeps out of it. *)

From S2P Require Import Prelude F64 Network Event Parse Db StatsPrelude Calendar Window Metric.
From S2P Require Import Samples RepoEvents LoadActivity LoadDevFees LoadInstances Pipeline PipelineFacts.
From S2P Require RepoOrders RepoDevFees LoadDisputes LoadRates ParseOrder ParseDevFee Range Cli Config Series RepoInstances.
From S2P Require Import Report Reports.

#[local] Open Scope Z_scope.
#[local] Existing Instance Series.family_eq_dec.

(** ** The checks *)

Lemma is_empty_spec db : RepoEvents.is_empty db = true ↔ events db = ∅.
Proof.
  unfold RepoEvents.is_empty. rewrite bool_decide_eq_true. split; [|by intros ->].
  intros E%nil_length_inv. apply map_empty. intros k. destruct (events db !! k) as [r|] eqn:Ek; [|done].
  assert (r ∈ rows (events db)) as Hin by (apply elem_of_rows; by exists k). rewrite E in Hin. by apply elem_of_nil in Hin.
Qed.

(** Why no window and scope could be resolved for an instance asked for. *)
Definition query_refused (db : Db) (cli : Cli.Cli) (instance : option string) (now : Z) (e : CommandError) : Prop :=
  match e with
  | BadRange r => Range.resolve (Cli.cl_from cli) (Cli.cl_until cli) now = Err r
  | EmptyArchive => events db = ∅
  | BadInstance r => Range.resolve_instance instance (known_instances db) = Err r
  | _ => False
  end.
Lemma resolve_for_spec db settings cli instance now :
  match resolve_for db settings cli instance now with
  | Ok q => (∀ e, ¬ query_refused db cli instance now e) ∧
      q_network_narrowed q = option_is_some (Cli.cl_network cli) ∧
      (is_Some instance → ∃ i, scope_pubkey (q_scope q) = Some (inst_pubkey i) ∧ i ∈ RepoInstances.all db)
  | Err e => query_refused db cli instance now e
  end.
Proof.
  unfold resolve_for. destruct (Range.resolve _ _ _) as [range|r] eqn:Er; cbn; [|done].
  destruct (RepoEvents.is_empty db) eqn:Ee; cbn; [by apply is_empty_spec|].
  pose proof (λ needle, Range.resolve_instance_spec needle (known_instances db)) as Hspec.
  destruct (Range.resolve_instance instance _) as [found|r] eqn:Ei; cbn; [|done].
  split_and!; [|done|].
  - intros [] He; cbn in He; try done; [congruence| |congruence]. apply is_empty_spec in He. congruence.
  - intros [needle ->]. specialize (Hspec needle). rewrite Ei in Hspec. destruct found as [|pubkey]; [done|].
    destruct Hspec as (k & Hk & <- & _). apply list_elem_of_fmap in Hk as (i & -> & Hi). by exists i.
Qed.

Definition three_letters (flag : string) : bool :=
  bool_decide (String.length flag = 3%nat) && forall_char Text.is_ascii_alphabetic flag.
Lemma currency_spec message flag :
  match currency message flag with
  | Ok code => three_letters flag = true ∧ code = Text.to_ascii_uppercase flag
  | Err e => three_letters flag = false ∧ e = BadCurrency message
  end.
Proof. unfold currency, three_letters. by destruct (_ && _). Qed.
Lemma option_currency_spec message flag :
  match option_currency message flag with
  | Ok _ => ∀ f, flag = Some f → three_letters f = true
  | Err e => ∃ f, flag = Some f ∧ three_letters f = false ∧ e = BadCurrency (message f)
  end.
Proof.
  destruct flag as [f|]; cbn; [|done]. pose proof (currency_spec (message f) f) as H.
  destruct (currency _ _); cbn; [|naive_solver]. intros f' [= <-]. apply H.
Qed.

(** ** Loading does not stop a report *)

Section total.
Context {cal : Calendar} `{External} `{!ExternalLaws} `{!LoadRates.RatesJson} `{Text.CaseMapping}.
Context (db : Db) (Hok : archive_ok db) (Hb : bestiary_ok db).

Lemma disputes_loadable q : ∃ d, disputes_unless_narrowed db q = Ok d.
Proof.
  unfold disputes_unless_narrowed. destruct (q_network_narrowed q); [by eexists|].
  destruct (LoadDisputes.disputes_load db (q_scope q) Hok) as [d ->]. by eexists.
Qed.
Lemma versions_read order_id :
  ∃ stored, RepoOrders.versions db order_id = Ok stored ∧
    (stored = [] ↔ ∀ v, told db v → ParseOrder.ov_order_id v ≠ order_id).
Proof.
  destruct (collect_total RepoOrders.into_version
    (order_by RepoOrders.oldest_first (RepoOrders.versions_of (order_versions db) order_id))) as (stored & Es & Hs).
  - intros r Hr%elem_of_order_by. destruct (versions_told db order_id r Hok Hr) as (v & _ & Hwf & Hv & _).
    destruct (RepoOrders.order_version_row_round_trip v Hwf) as (r' & Hr' & Hback). exists v. congruence.
  - exists stored. split; [done|]. split.
    + intros -> v Hv <-. destruct (told_versions db v Hok Hv) as (r & Hr & _).
      inversion Hs as [E|]. apply (elem_of_order_by RepoOrders.oldest_first) in Hr. rewrite <- E in Hr. by apply elem_of_nil in Hr.
    + intros Hnone. destruct stored as [|v stored]; [done|]. inversion Hs as [|r v' rs vs Hrv Hrest E]; subst.
      assert (r ∈ RepoOrders.versions_of (order_versions db) order_id) as Hr.
      { apply (elem_of_order_by RepoOrders.oldest_first). rewrite <- E. by left. }
      destruct (versions_told db order_id r Hok Hr) as (w & Hw & _ & _ & Ho). by destruct (Hnone w Hw).
Qed.
Lemma fees_read order_id : ∃ fees, RepoDevFees.for_order db order_id = Ok fees.
Proof.
  destruct (collect_total RepoDevFees.into_stored
    (order_by RepoDevFees.oldest_first (RepoDevFees.fees_of (dev_fees db) order_id))) as (fees & E & _); [|by exists fees].
  intros r [_ [k Hk]]%elem_of_order_by%RepoDevFees.elem_of_fees_of.
  pose proof (ok_dev_fees db Hok k) as Hd. unfold RepoDevFees.published in Hd. rewrite lookup_fmap, Hk in Hd.
  symmetry in Hd. apply bind_Some in Hd as (e & _ & Hd). unfold derive_fee in Hd.
  destruct (parse e) as [[v|v|v|v|v|v]|]; try done.
  assert (fr_network r = as_str <$> ParseDevFee.fee_network v) as En by (by injection Hd).
  unfold RepoDevFees.into_stored. rewrite En. destruct (ParseDevFee.fee_network v) as [n|]; cbn; [|by eexists].
  rewrite from_wire_as_str. by eexists.
Qed.

(** Every load gives rows: what a report needs of the archive is there. *)
Ltac loaded :=
  repeat first
    [ match goal with
      | |- context [LoadActivity.orders db ?s] => destruct (orders_load db s LoadActivity.All Hok) as [? E];
          change (LoadActivity.fetch db s LoadActivity.All) with (LoadActivity.orders db s) in E; rewrite E; clear E
      | |- context [LoadActivity.completed_in db ?s ?f ?u] =>
          destruct (orders_load db s (LoadActivity.CompletedIn f u) Hok) as [? E];
          change (LoadActivity.fetch db s (LoadActivity.CompletedIn f u)) with (LoadActivity.completed_in db s f u) in E;
          rewrite E; clear E
      | |- context [LoadActivity.lifecycle_in db ?s ?f ?u ?n] =>
          destruct (orders_load db s (LoadActivity.TouchedIn f u n) Hok) as [? E];
          change (LoadActivity.fetch db s (LoadActivity.TouchedIn f u n)) with (LoadActivity.lifecycle_in db s f u n) in E;
          rewrite E; clear E
      | |- context [LoadDisputes.load db ?s] => destruct (LoadDisputes.disputes_load db s Hok) as [? ->]
      | |- context [LoadRates.book db ?f ?u] => destruct (LoadRates.book_loads db f u Hok) as [? ->]
      | |- context [LoadRates.feeds db ?p] => destruct (LoadRates.feeds_load db p Hok Hb) as [? ->]
      | |- context [disputes_unless_narrowed db ?q] => destruct (disputes_loadable q) as [? ->]
      end
    | progress cbn [database map_err mbind Result_bind fmap Result_fmap] ];
  try (by eexists).

Lemma plain_reports_given q now :
  (∀ d, ∃ r, orders_report db q d now = Ok r) ∧ (∀ d code, ∃ r, volume_report db q d code now = Ok r) ∧
  (∀ d, ∃ r, market_report db q d now = Ok r) ∧ (∀ d, ∃ r, timing_report db q d now = Ok r) ∧
  (∀ d a, ∃ r, dev_fees_report db q d a now = Ok r) ∧ (∀ d, ∃ r, disputes_report db q d now = Ok r) ∧
  (∀ code, ∃ r, rates_report db q code now = Ok r) ∧ (∃ r, summary_report db q now = Ok r) ∧
  (∀ code, ∃ r, market_view db q code now = Ok r) ∧ (∃ r, compare_report db q now = Ok r) ∧
  (∃ r, list_report db q now = Ok r).
Proof.
  split_and!; intros;
    unfold orders_report, volume_report, market_report, timing_report, dev_fees_report, disputes_report, rates_report,
      summary_report, market_view, compare_report, list_report; cbn zeta; loaded.
  destruct code; loaded.
Qed.
(** The instance a scope names is there to profile. *)
Lemma profile_given q now i :
  scope_pubkey (q_scope q) = Some (inst_pubkey i) → i ∈ RepoInstances.all db → ∃ r, profile_report db q now = Ok r.
Proof.
  intros Hq Hi. unfold profile_report. rewrite Hq. cbn [ok_or mbind Result_bind].
  assert (∃ p ps, LoadInstances.profiles db (q_scope q) = p :: ps) as (p & ps & ->).
  { destruct (LoadInstances.profiles db (q_scope q)) as [|p ps] eqn:E; [|by exists p, ps]. exfalso.
    assert (into_profile db i ∈ LoadInstances.profiles db (q_scope q)) as Hin; [|rewrite E in Hin; by apply elem_of_nil in Hin].
    unfold LoadInstances.profiles. apply list_elem_of_fmap. exists i. split; [done|]. apply elem_of_order_by, list_elem_of_filter.
    split; [|by apply elem_of_order_by in Hi]. unfold apply_instance. rewrite Hq. cbn. by apply bool_decide_eq_true. }
  cbn [head ok_or mbind Result_bind]. loaded.
Qed.
Lemma series_loaded q assumptions metric window : ∃ data, load_for db q assumptions metric window = Ok data.
Proof. unfold load_for. destruct (Series.priced_in metric), (_ || _), (reads metric Series.Disputes); loaded. Qed.
End total.

(** ** When a report is refused *)

Definition asked_instance (cli : Cli.Cli) : option string :=
  match Cli.cl_command cli with Cli.InstanceProfile instance => Some instance | _ => Cli.cl_instance cli end.
Definition currency_flag (cli : Cli.Cli) : option string :=
  match Cli.cl_command cli with
  | Cli.Market fiat => Some fiat
  | Cli.Stats (Cli.StatsVolume _ convert_to) => convert_to
  | Cli.Stats (Cli.StatsRates fiat) => fiat
  | _ => None
  end.
(** The figures of events that carry no network tag. *)
Definition untagged (cli : Cli.Cli) : bool :=
  match Cli.cl_command cli with
  | Cli.Stats (Cli.StatsDisputes _) | Cli.Stats (Cli.StatsRates _) => true
  | Cli.Series metric _ _ => bool_decide (Series.family_of metric = Some Series.Disputes)
  | _ => false
  end.

Section refused.
Context {cal : Calendar} `{External} `{Text.CaseMapping} `{Renderer}.
Context (db : Db) (settings : Config.Settings) (cli : Cli.Cli) (now : Z).

Definition series_refused (r : Series.SeriesError) : Prop :=
  ∃ metric by_ split q data, Cli.cl_command cli = Cli.Series metric by_ split ∧
    resolve db settings cli now = Ok q ∧
    load_for db q (Config.se_assumptions settings) metric (window_of q) = Ok data ∧
    Series.report data (window_of q) (series_period by_) metric (series_split <$> split) now = Err r.

(** One order is asked for by its id, and no flag is resolved; its span is
    from its first version to its last. *)
Definition order_refused (order_id : string) (e : CommandError) : Prop :=
  match e with
  | UnknownOrder id => id = order_id ∧ ∀ v, told db v → ParseOrder.ov_order_id v ≠ order_id
  | BadRange _ => ∃ stored, RepoOrders.versions db order_id = Ok stored ∧ stored ≠ [] ∧
      span_of (version <$> stored) now = Err e
  | _ => False
  end.
Definition flags_refused (e : CommandError) : Prop :=
  match e with
  | BadRange _ | EmptyArchive | BadInstance _ => query_refused db cli (asked_instance cli) now e
  | BadCurrency _ => ∃ flag, currency_flag cli = Some flag ∧ three_letters flag = false
  | NetworkScoped _ => untagged cli = true ∧ is_Some (Cli.cl_network cli)
  | BadSeries r _ => series_refused r
  | UnknownOrder _ | NoInstanceAsked | UnknownInstance _ | Database _ _ => False
  end.
Definition refused (e : CommandError) : Prop :=
  match Cli.cl_command cli with Cli.Orders order_id => order_refused order_id e | _ => flags_refused e end.

(** What [reported] makes of a run of the common shape. *)
Definition answers (m : Result CommandError string) : Prop :=
  match m with Ok _ => ∀ e, ¬ refused e | Err e => refused e end.

Context `{!ExternalLaws} `{!LoadRates.RatesJson}.
Context (Hok : archive_ok db) (Hb : bestiary_ok db).

Definition checked {C} (check : Result CommandError C) : Prop :=
  match check with
  | Ok _ => (∀ flag, currency_flag cli = Some flag → three_letters flag = true) ∧
      (untagged cli = true → Cli.cl_network cli = None)
  | Err e => flags_refused e
  end.
Lemma run_answers {C} (check : Result CommandError C) (report : C → Query → Result CommandError Report)
    (out : Report → string) needle :
  (∀ e, refused e = flags_refused e) → asked_instance cli = needle → checked check →
  (∀ c q, resolve_for db settings cli needle now = Ok q →
     match report c q with Ok _ => ∀ r, ¬ series_refused r | Err e => flags_refused e end) →
  answers (c ← check; q ← resolve_for db settings cli needle now; r ← report c q; Ok (out r)).
Proof.
  intros Er Hneedle Hc Hr. unfold answers. destruct check as [c|e]; cbn; [|by rewrite Er].
  pose proof (resolve_for_spec db settings cli needle now) as Hq.
  destruct (resolve_for _ _ _ _ _) as [q|e] eqn:Eq; cbn.
  2: { rewrite Er. destruct e; cbn in *; rewrite ?Hneedle; done. }
  specialize (Hr c q eq_refl). destruct (report c q) as [r|e]; cbn; [|by rewrite Er].
  destruct Hq as (Hq & _ & _), Hc as [Hcur Hnet]. intros e. rewrite Er. specialize (Hq e). intros He.
  destruct e; cbn in He; rewrite ?Hneedle in He; try done.
  - destruct He as (flag & Hf & Hn). by rewrite (Hcur flag Hf) in Hn.
  - destruct He as [Hu [n Hn]]. by rewrite (Hnet Hu) in Hn.
  - by apply Hr in He.
Qed.

(** A report that cannot fail once its flags are resolved. *)
Lemma plain_answers {C} (check : Result CommandError C) (report : C → Query → Result CommandError Report)
    (out : Report → string) :
  (∀ e, refused e = flags_refused e) → asked_instance cli = Cli.cl_instance cli →
  (∀ m b s, Cli.cl_command cli ≠ Cli.Series m b s) → checked check → (∀ c q, ∃ r, report c q = Ok r) →
  answers (c ← check; q ← resolve db settings cli now; r ← report c q; Ok (out r)).
Proof.
  intros Er Ei Hns Hc Hr. apply run_answers; [done..|]. intros c q _. destruct (Hr c q) as [r ->].
  intros r' (m & b & s & q' & data & Hs & _). by destruct (Hns m b s).
Qed.
Lemma unchecked {C} (c : C) :
  currency_flag cli = None → (untagged cli = true → Cli.cl_network cli = None) → checked (Ok c).
Proof. intros Hc Hu. split; [by rewrite Hc|done]. Qed.
Lemma currency_checked message flag :
  currency_flag cli = flag → (untagged cli = true → Cli.cl_network cli = None) → checked (option_currency message flag).
Proof.
  intros Hc Hu. pose proof (option_currency_spec message flag) as H'. destruct (option_currency _ _); cbn.
  - by rewrite Hc.
  - destruct H' as (f & -> & Hf & ->). by exists f.
Qed.
Lemma scoped_answers message (m : Result CommandError string) :
  (∀ e, refused e = flags_refused e) → untagged cli = true → (Cli.cl_network cli = None → answers m) →
  answers (_ ← refuse_network message (Cli.cl_network cli); m).
Proof.
  intros Er Hu Hm. destruct (Cli.cl_network cli) as [n|] eqn:En; cbn; [|by apply Hm].
  rewrite Er. cbn. rewrite En. by split.
Qed.
Lemma profile_answers instance :
  Cli.cl_command cli = Cli.InstanceProfile instance → answers (profile_run db settings cli now instance).
Proof.
  intros Ec. refine (run_answers (Ok ()) (λ _ q, profile_report db q now) _ (Some instance) _ _ _ _).
  - intros e. unfold refused. by rewrite Ec.
  - unfold asked_instance. by rewrite Ec.
  - by apply unchecked; unfold currency_flag, untagged; rewrite Ec.
  - intros _ q Hq. pose proof (resolve_for_spec db settings cli (Some instance) now) as Hs. rewrite Hq in Hs.
    destruct Hs as (_ & _ & Hs). destruct (Hs (ltac:(by eexists))) as (i & Hi & Hin).
    destruct (profile_given db Hok q now i Hi Hin) as [r ->]. intros r' (m & b & s & q' & data & Hs' & _). congruence.
Qed.
Lemma series_answers metric by_ split :
  Cli.cl_command cli = Cli.Series metric by_ split → answers (series_run db settings cli now metric by_ split).
Proof.
  intros Ec. refine (run_answers _ (λ _ q, series_report db q (Config.se_assumptions settings) metric (series_period by_)
    (series_split <$> split) now) _ (Cli.cl_instance cli) _ _ _ _).
  - intros e. unfold refused. by rewrite Ec.
  - unfold asked_instance. by rewrite Ec.
  - unfold checked, refuse_network. cbn. unfold currency_flag, untagged. rewrite Ec.
    destruct (bool_decide _) eqn:Ef; [|done]. destruct (Cli.cl_network cli) eqn:En; cbn; [|done].
    unfold untagged. rewrite Ec, En. by split.
  - intros _ q Hq. unfold series_report.
    destruct (series_loaded db Hok q (Config.se_assumptions settings) metric (window_of q)) as [data Hd]. rewrite Hd. cbn.
    destruct (Series.report _ _ _ _ _ _) as [ms|r] eqn:Es; cbn.
    + intros r (m & b & s & q' & data' & Hs & Hq' & Hd' & He).
      rewrite Ec in Hs. injection Hs as <- <- <-. unfold resolve in Hq'. rewrite Hq in Hq'. injection Hq' as <-.
      rewrite Hd in Hd'. injection Hd' as <-. congruence.
    + assert (series_refused r) as Hr by (by exists metric, by_, split, q, data). by destruct r.
Qed.
Lemma order_answers order_id :
  Cli.cl_command cli = Cli.Orders order_id → answers (order_run db cli now order_id).
Proof.
  intros Ec. assert (∀ e, refused e = order_refused order_id e) as Er by (intros e; unfold refused; by rewrite Ec).
  destruct (versions_read db Hok order_id) as (stored & Hs & Hnone). destruct (fees_read db Hok order_id) as [fees Hf].
  unfold order_run, lifecycle_report. rewrite Hs, Hf. cbn [map_err mbind Result_bind]. cbv zeta.
  case_decide as Hv; cbn [mbind Result_bind database map_err].
  - cbn [answers]. rewrite Er. split; [done|]. apply Hnone. by apply fmap_nil_inv in Hv.
  - assert (stored ≠ []) as Hne by (by intros ->). destruct (span_of _ _) as [span|e] eqn:Esp; cbn [answers mbind Result_bind].
    + intros e. rewrite Er. intros He. destruct e; cbn in He; try done.
      * destruct He as (stored' & Hs' & _ & He). congruence.
      * destruct He as [_ Hno]. by apply Hne, Hnone.
    + rewrite Er. unfold span_of in Esp. destruct (Range.resolve _ _ _) eqn:Erg; [done|]. injection Esp as <-.
      exists stored. split_and!; [done..|]. unfold span_of. by rewrite Erg.
Qed.

Ltac named Ec := unfold currency_flag, untagged; rewrite Ec.
Ltac plainly report :=
  match goal with Er : ∀ e, _ = flags_refused e, Ei : asked_instance cli = _, Hns : ∀ m b s, _ ≠ _,
      Hgiven : ∀ q : Query, _, Ec : Cli.cl_command cli = _ |- _ =>
    refine (plain_answers (Ok ()) (λ _ q, report q) _ Er Ei Hns _ _);
      [by apply unchecked; named Ec|intros _ q; apply (Hgiven q)] end.

Lemma reported_answers :
  match reported db settings cli now with
  | Some answer => answers answer
  | None => match Cli.cl_command cli with
            | Cli.Backfill _ | Cli.Sync | Cli.Publish _ _ _ | Cli.Rebuild _ => True
            | _ => False
            end
  end.
Proof.
  unfold reported.
  destruct (Cli.cl_command cli) as [k| | | |instance| |metric by_ split|fiat|[b|b c|b|b|b|b|c]|order_id|d o r|f] eqn:Ec; try done.
  all: try (by apply profile_answers || by apply series_answers || by apply order_answers).
  all: assert (∀ e, refused e = flags_refused e) as Er by (intros e; unfold refused; by rewrite Ec).
  all: assert (asked_instance cli = Cli.cl_instance cli) as Ei by (unfold asked_instance; by rewrite Ec).
  all: assert (∀ m b s, Cli.cl_command cli ≠ Cli.Series m b s) as Hns by (rewrite Ec; done).
  all: pose proof (λ q, plain_reports_given db Hok Hb q now) as Hgiven.
  - plainly (λ q, summary_report db q now).
  - plainly (λ q, list_report db q now).
  - plainly (λ q, compare_report db q now).
  - refine (plain_answers _ (λ code q, market_view db q code now) _ Er Ei Hns _ _); [|intros code q; apply (Hgiven q)].
    pose proof (currency_spec (market_message fiat) fiat) as Hf. unfold checked, currency_flag, untagged.
    destruct (currency _ _); cbn; rewrite ?Ec; [by naive_solver|]. destruct Hf as [Hf ->]. cbn. unfold currency_flag. rewrite Ec.
    by exists fiat.
  - plainly (λ q, orders_report db q (order_dimension <$> b) now).
  - refine (plain_answers _ (λ code q, volume_report db q _ code now) _ Er Ei Hns _ _);
      [by apply currency_checked; named Ec|intros code q; apply (Hgiven q)].
  - plainly (λ q, Reports.market_report db q (market_dimension <$> b) now).
  - plainly (λ q, timing_report db q (timing_dimension <$> b) now).
  - plainly (λ q, dev_fees_report db q (dev_fee_dimension <$> b) (Config.se_assumptions settings) now).
  - apply scoped_answers; [done|by named Ec|]. intros En. plainly (λ q, disputes_report db q (dispute_dimension <$> b) now).
  - apply scoped_answers; [done|by named Ec|]. intros En.
    refine (plain_answers _ (λ code q, rates_report db q code now) _ Er Ei Hns _ _);
      [by apply currency_checked; named Ec|intros code q; apply (Hgiven q)].
Qed.
End refused.

(** ** What [--network] keeps out *)

Section narrowed.
Context {cal : Calendar} `{External} `{Text.CaseMapping} `{Renderer}.

(** Two archives that may hold different disputes. *)
Definition same_but_disputes (db db' : Db) : Prop :=
  ∃ f g, db' = set_disputes f (set_dispute_versions g db).

Section agree.
Context (db db' : Db) (Hsame : same_but_disputes db db').

Lemma loads_agree :
  LoadActivity.fetch db' = LoadActivity.fetch db ∧ LoadDevFees.load db' = LoadDevFees.load db ∧
  LoadInstances.profiles db' = LoadInstances.profiles db ∧ LoadRates.book db' = LoadRates.book db ∧
  RepoOrders.versions db' = RepoOrders.versions db ∧ RepoDevFees.for_order db' = RepoDevFees.for_order db ∧
  resolve_for db' = resolve_for db.
Proof. destruct Hsame as (f & g & ->). split_and!; reflexivity. Qed.
Lemma coverage_agrees kinds scope : coverage db' kinds scope = coverage db kinds scope.
Proof.
  destruct Hsame as (f & g & ->). unfold coverage, RepoEvents.earliest_created_at. f_equal.
  change (RepoEvents.scoped_min (set_disputes f (set_dispute_versions g db))) with (RepoEvents.scoped_min db).
  destruct (RepoEvents.scoped_min db None scope) as [archive|]; [|done]. revert archive.
  induction kinds as [|kind kinds IH]; intros archive; [done|]. cbn [RepoEvents.floor_over].
  change (RepoEvents.kind_floor (set_disputes f (set_dispute_versions g db)) kind scope) with (RepoEvents.kind_floor db kind scope).
  destruct (RepoEvents.kind_floor db kind scope); [apply IH|done].
Qed.

(** A narrowed query reads nothing of a dispute. *)
Ltac agreeing :=
  destruct loads_agree as (Ef & Ed & Ep & Eb & Ev & Eo & _);
  unfold LoadActivity.orders, LoadActivity.completed_in, LoadActivity.lifecycle_in, disputes_unless_narrowed;
  rewrite ?Ef, ?Ed, ?Ep, ?Eb, ?Ev, ?Eo, ?coverage_agrees.
Lemma plain_reports_agree q now :
  q_network_narrowed q = true →
  (∀ d, orders_report db' q d now = orders_report db q d now) ∧
  (∀ d code, volume_report db' q d code now = volume_report db q d code now) ∧
  (∀ d, Reports.market_report db' q d now = Reports.market_report db q d now) ∧
  (∀ d, timing_report db' q d now = timing_report db q d now) ∧
  (∀ d a, dev_fees_report db' q d a now = dev_fees_report db q d a now) ∧
  summary_report db' q now = summary_report db q now ∧
  (∀ code, market_view db' q code now = market_view db q code now) ∧
  compare_report db' q now = compare_report db q now ∧
  list_report db' q now = list_report db q now ∧
  profile_report db' q now = profile_report db q now ∧
  (∀ order_id, lifecycle_report db' order_id now = lifecycle_report db order_id now).
Proof.
  intros Hq. split_and!; intros;
    unfold orders_report, volume_report, Reports.market_report, timing_report, dev_fees_report, summary_report,
      market_view, compare_report, list_report, profile_report, lifecycle_report; agreeing; rewrite ?Hq; reflexivity.
Qed.
Lemma series_agree q a metric window :
  Series.family_of metric ≠ None → Series.family_of metric ≠ Some Series.Disputes →
  load_for db' q a metric window = load_for db q a metric window.
Proof.
  intros Hn Hd. unfold load_for. assert (reads metric Series.Disputes = false) as ->.
  { unfold reads. destruct (Series.family_of metric) as [f|]; [|done]. by apply bool_decide_eq_false; intros ->. }
  by agreeing.
Qed.
Lemma run_agrees settings cli now needle (report report' : Query → Result CommandError Report) (out : Report → string) :
  is_Some (Cli.cl_network cli) → (∀ q, q_network_narrowed q = true → report' q = report q) →
  (q ← resolve_for db' settings cli needle now; r ← report' q; Ok (out r)) =
  (q ← resolve_for db settings cli needle now; r ← report q; Ok (out r)).
Proof.
  intros [n Hn] Hr. destruct loads_agree as (_ & _ & _ & _ & _ & _ & ->).
  pose proof (resolve_for_spec db settings cli needle now) as Hs.
  destruct (resolve_for db settings cli needle now) as [q|e]; [|done]. cbn. destruct Hs as (_ & Hq & _).
  rewrite Hr; [done|]. by rewrite Hq, Hn.
Qed.
Lemma series_run_agrees settings cli now metric by_ split text :
  is_Some (Cli.cl_network cli) → series_run db settings cli now metric by_ split = Ok text →
  Series.family_of metric ≠ Some Series.Disputes ∧ series_run db' settings cli now metric by_ split = Ok text.
Proof.
  intros Hn Hrun. assert (Series.family_of metric ≠ None ∧ Series.family_of metric ≠ Some Series.Disputes) as [Hfam Hdis].
  { revert Hrun. unfold series_run. destruct (Series.family_of metric) as [f|] eqn:Ef.
    - case_bool_decide as Hd; [by destruct Hn as [n ->]|]. intros _. by split.
    - cbn. destruct (resolve _ _ _ _); [|done]. unfold series_report. cbn. destruct (load_for _ _ _ _ _); [|done]. cbn.
      unfold Series.report. by rewrite Ef. }
  split; [done|]. rewrite <- Hrun. unfold series_run. rewrite bool_decide_eq_false_2 by done. cbn [mbind Result_bind].
  apply (run_agrees settings cli now (Cli.cl_instance cli)); [done|]. intros q _. unfold series_report.
  by rewrite series_agree.
Qed.
End agree.

Ltac agreeing_run report :=
  match goal with Hsame : same_but_disputes ?db ?db', Hagree : ∀ q : Query, _ |- _ =>
    apply (run_agrees db db' Hsame _ _ _ _ report); [done|intros q Hq; apply (Hagree q _ Hq)] end.

(** C22: no dispute is counted under a network's heading. Dispute events carry
    no network, so under [--network] a command that prints a report prints the
    same text whatever the archive holds of disputes; the commands and the
    metrics that are about disputes print none. *)
Theorem network_excludes_disputes (db db' : Db) (settings : Config.Settings) (cli : Cli.Cli) (now : Z) (text : string) :
  is_Some (Cli.cl_network cli) → same_but_disputes db db' →
  reported db settings cli now = Some (Ok text) →
  reported db' settings cli now = Some (Ok text) ∧
  (∀ by_, Cli.cl_command cli ≠ Cli.Stats (Cli.StatsDisputes by_)) ∧
  (∀ metric by_ split, Cli.cl_command cli = Cli.Series metric by_ split →
     Series.family_of metric ≠ Some Series.Disputes).
Proof.
  intros Hn Hsame. pose proof (plain_reports_agree db db' Hsame) as Hagree.
  pose proof (Hagree (mkQuery (Range.mkRange 0 0) (mkScope None []) true) now eq_refl) as loads. unfold reported.
  destruct (Cli.cl_command cli) as [k| | | |instance| |metric by_ split|fiat|[b|b c|b|b|b|b|c]|order_id|d o r|f]; try done.
  all: try (intros [= <-]; split; [|by split]; f_equal).
  - agreeing_run (λ q, summary_report db q now).
  - agreeing_run (λ q, list_report db q now).
  - agreeing_run (λ q, profile_report db q now).
  - agreeing_run (λ q, compare_report db q now).
  - intros [= Hrun]. destruct (series_run_agrees db db' Hsame settings cli now metric by_ split text Hn Hrun) as [Hd ->].
    split_and!; [done..|]. intros m b s [= <- <- <-]. done.
  - unfold market_view_run. destruct (currency _ _) as [code|]; [|done]. agreeing_run (λ q, market_view db q code now).
  - agreeing_run (λ q, orders_report db q (order_dimension <$> b) now).
  - unfold volume_run. destruct (option_currency _ _) as [code|]; [|done].
    agreeing_run (λ q, volume_report db q (volume_dimension <$> b) code now).
  - agreeing_run (λ q, Reports.market_report db q (market_dimension <$> b) now).
  - agreeing_run (λ q, timing_report db q (timing_dimension <$> b) now).
  - agreeing_run (λ q, dev_fees_report db q (dev_fee_dimension <$> b) (Config.se_assumptions settings) now).
  - unfold disputes_run. by destruct Hn as [n ->].
  - unfold rates_run. by destruct Hn as [n ->].
  - unfold order_run. destruct loads as (_ & _ & _ & _ & _ & _ & _ & _ & _ & _ & Hl). by rewrite Hl.
Qed.
End narrowed.

(** C21: a report is refused only for what was asked, and then always. On an
    archive that ingest left, every report command answers: it prints a report
    when no reason to refuse it holds, and otherwise ends with a reason that
    does. The reasons are a window that is empty or too wide, an archive with no
    event, an instance nobody goes by or that several do, a currency that is not
    three letters, a network for figures whose events carry none, a metric that
    cannot be plotted as asked, and an order nobody published. The database is
    never one, nor is an instance that was found and then has no profile. *)
Theorem report_commands_answer {cal : Calendar} `{External} `{!ExternalLaws} `{!LoadRates.RatesJson}
    `{Text.CaseMapping} `{Renderer} (policy : Policy) (db : Db) (settings : Config.Settings) (cli : Cli.Cli) (now : Z) :
  reachable policy db →
  match reported db settings cli now with
  | Some (Ok text) => ∀ e, ¬ refused db settings cli now e
  | Some (Err e) => refused db settings cli now e
  | None => match Cli.cl_command cli with
            | Cli.Backfill _ | Cli.Sync | Cli.Publish _ _ _ | Cli.Rebuild _ => True
            | _ => False
            end
  end.
Proof.
  intros Hdb. pose proof (reported_answers db settings cli now (reachable_ok _ _ Hdb) (reachable_bestiary _ _ Hdb)) as Ha.
  by destruct (reported db settings cli now) as [[]|].
Qed.

(** ** A report of a small archive *)

Module shown.
#[export] Existing Instances Demo.demo Demo.demo_laws Text.AsciiCase.mapping Gregorian.gregorian LoadRates.demo_rates_json.
#[export] Instance plain : Renderer :=
  { draw header rows := join " | " header +:+ join " " (join " | " <$> rows); to_string_pretty r := rp_generated_at r }.
Definition settings : Config.Settings := Config.deserialized Config.nothing_written.
Definition asked (network : option Network) (command : Cli.Command) : Cli.Cli :=
  Cli.mkCli None false (Some 1699999000) (Some 1700001000) None network 0 command.
(** The archive, and the archive with a dispute nobody else saw. *)
Definition disputed : Db :=
  set_disputes (insert "d1" (mkDisputeRow "d1" "ab" (Some 1700000250) 1700000250 "initiated" None)) 
    (set_dispute_versions (λ t, t) LoadActivity.sample.archive).
End shown.
Import shown.

Theorem report_commands_answer_witness :
  ∃ text, reported LoadActivity.sample.archive settings (asked None Cli.Summary) 1700000400 = Some (Ok text).
Proof.
  pose proof (report_commands_answer open_policy LoadActivity.sample.archive settings (asked None Cli.Summary) 1700000400
    LoadActivity.sample.archive_reachable) as Hanswer.
  destruct (reported _ _ _ _) as [[text|e]|]; [by exists text| |destruct Hanswer]. exfalso.
  destruct e; try exact Hanswer.
  - vm_compute in Hanswer. discriminate.
  - apply (f_equal (λ t, option_is_some (t !! "e1"))) in Hanswer. vm_compute in Hanswer. discriminate.
  - vm_compute in Hanswer. discriminate.
  - destruct Hanswer as (flag & Hf & _). vm_compute in Hf. discriminate.
  - destruct Hanswer as (Hu & _). vm_compute in Hu. discriminate.
  - destruct Hanswer as (m & b & s & q & data & Hs & _). vm_compute in Hs. discriminate.
Defined.

Theorem network_excludes_disputes_witness :
  ∃ text, reported LoadActivity.sample.archive settings (asked (Some Mainnet) Cli.Summary) 1700000400 = Some (Ok text) ∧
    reported disputed settings (asked (Some Mainnet) Cli.Summary) 1700000400 = Some (Ok text).
Proof.
  assert (match reported LoadActivity.sample.archive settings (asked (Some Mainnet) Cli.Summary) 1700000400 with
          | Some (Ok _) => true | _ => false end = true) as Hok by (vm_compute; reflexivity).
  destruct (reported LoadActivity.sample.archive _ _ _) as [[text|e]|] eqn:E; try discriminate Hok.
  exists text. split; [reflexivity|].
  refine (proj1 (network_excludes_disputes LoadActivity.sample.archive disputed settings (asked (Some Mainnet) Cli.Summary)
    1700000400 text _ _ E)); [by exists Mainnet|by eexists _, _].
Defined.

(** An order is asked for by its id and not by a window, but its own span goes
    through the same check: one version stamped a century from the others, and
    none of them is shown. *)
Theorem wide_order_refused :
  let story := [order_event "e1" 0 "pending"; order_event "e2" 4000000000 "success"] in
  let db := foldl (λ db e, (PipelineFacts.run db e).2) empty_db story in
  match order_versions db !! "e1" ≫= λ r, reported db settings (asked None (Cli.Orders (vr_order_id r))) 1700000400 with
  | Some (Err (BadRange (Range.TooWide 0 4000000001))) => True
  | _ => False
  end.
Proof. vm_compute. exact I. Qed.
