(* ===== verification/Publish.v ===== *)
(** * The publish command

    [src/commands/publish.rs]: one run, from the reading of the archive to the
    record of what the relays took. The relays' answers, the environment and
    the clock are what the run is given. *)

From S2P Require Cli Config.
From S2P Require Import Prelude Text Event StatsPrelude Calendar Window Bucket.
From S2P Require Db RepoEvents Filters LoadActivity LoadDevFees LoadDisputes LoadInstances LoadRates.
From S2P Require Address Series.
From S2P Require Import Document Restatement Index Published Snapshot Signer.
From S2P Require Client.

#[local] Open Scope Z_scope.

(** [Ok] and [Err] are those of [Prelude]. *)

(** What one reading of the archive holds: the figures' data, the extent and
    the number of events. *)
Record Reading : Type := mkReading {
  rg_data : Series.Data;
  rg_coverage : Coverage;
  rg_events : Z;
}.

Record Publication : Type := mkPublication {
  pb_snapshot : Snapshot;
  pb_index : Index;
  pb_ceiling : Ceiling;
  pb_relays_asked : Z;
  pb_measured : list Measured;
  pb_not_sent : gset string;
  pb_state : gmap string Previous;
  pb_events : Z;
}.

(** The errors a run ends with. *)
Inductive PublishError : Type :=
| Scoped
| BadKey (e : KeyError)
| Database (e : Db.SqlError)
| NoKey
| StalledClock (snapshot_id : string)
| EmptyRange (from until : Z)
| Oversized (over : list Measured) (ceiling : Ceiling)
| ClientFailed (e : Client.ClientError)
| Refused (addresses : list string)
| IndexRefused.

(** ** What the run is asked *)

Abbreviation Cli := Cli.Cli.
Abbreviation Settings := Config.Settings.
Abbreviation PublishSettings := Config.PublishSettings.

Definition refuse_scoped (cli : Cli) : Result PublishError () :=
  match Cli.cl_instance cli, Cli.cl_network cli with None, None => Ok () | _, _ => Err Scoped end.

Definition requested (from until : option Z) (republish : bool) : Result PublishError Republish :=
  if republish then
    match from, until with
    | None, None => Ok RepublishAll
    | _, _ =>
        let w := mkWindow (default 0 from) (default i64_max until) in
        if decide (w_from w < w_until w) then Ok (RepublishRange w) else Err (EmptyRange (w_from w) (w_until w))
    end
  else Ok RepublishNo.

Definition refuse_stalled_clock (last : option Published.Run) (now : Z) : Result PublishError () :=
  match last with
  | None => Ok ()
  | Some last => if decide (run_generated_at last < now) then Ok () else Err (StalledClock (run_snapshot_id last))
  end.

Definition refuse_oversized (p : Publication) : Result PublishError () :=
  let over := over (pb_measured p) (pb_ceiling p) in
  if decide (over = []) then Ok () else Err (Oversized over (pb_ceiling p)).

(** [record]: both halves in one transaction. *)
Definition record (p : Publication) (t : Tables) : Tables :=
  let t := foldl (λ t '(address, previous), Published.record address previous t) t (btree_iter (pb_state p)) in
  record_run {|
    run_snapshot_id := snapshot_id (s_run (pb_snapshot p));
    run_generated_at := generated_at (s_run (pb_snapshot p));
    run_schema_version := SCHEMA_VERSION;
    run_first_event_at := earliest (s_coverage (pb_snapshot p));
    run_last_event_at := latest (s_coverage (pb_snapshot p));
    run_events := pb_events p;
  |} t.

Definition IN_FLIGHT : nat := 16.

(** What the relays of this run answer to an event. *)
Abbreviation Answer := (Event → Result Client.ClientError Client.Delivery).

Section publish.
Context {cal : Calendar} `{External} `{Nostr} `{Serialize Payload} `{Serialize Envelope} `{Serialize Index} `{Digest}.
(** [env!("CARGO_PKG_NAME")] and [env!("CARGO_PKG_VERSION")]. *)
Context (publisher : Publisher).

Definition snapshot_id_of (now : Z) : string :=
  match from_timestamp now with Some at_ => format at_ "%Y%m%dT%H%M%SZ" | None => pretty now end.

(** [load]: [Scope::default()] is every instance and every network. *)
Definition whole : RepoEvents.Scope := RepoEvents.mkScope None [].
Definition assumption (a : Config.AssumptionSettings) : Series.Assumption :=
  Series.mkAssumption (Config.as_dev_fee_percentage a) (Config.as_dev_fee_percentage_default a).
Definition load (db : Db.Db) (settings : Settings) (coverage : Coverage) (now : Z) : Db.Sql Series.Data :=
  let from := default now (earliest coverage) in
  orders ← LoadActivity.orders db whole;
  let fees := LoadDevFees.load db whole in
  disputes ← LoadDisputes.load db whole;
  let profiles := LoadInstances.profiles db whole in
  book ← LoadRates.book db from now;
  Ok (Series.mkData orders fees disputes profiles (Some (assumption (Config.se_assumptions settings)))
    (Some (Series.mkPriced book (Config.rs_reference_currency (Config.se_report settings))))).

(** The extent is read before the figures, and the count after them. *)
Definition read_archive (db : Db.Db) (settings : Settings) (now : Z) : Db.Sql Reading :=
  let coverage := from_extent (RepoEvents.earliest_created_at db Filters.INDEXED_KINDS whole)
    (RepoEvents.latest_created_at db whole) in
  data ← load db settings coverage now;
  Ok (mkReading data coverage (RepoEvents.count db)).

(** The rest of [compute]: history, revisions, index and sizes. *)
Definition publication_of (reading : Reading) (t : Tables) (settings : PublishSettings)
    (advertised : list Client.Nip11.Advertised) (republish : Republish) (now : Z) : Publication :=
  let coverage := rg_coverage reading in
  let history := all t in
  let current := mkRead SCHEMA_VERSION (earliest coverage) (rg_events reading) in
  let because := inferred
    match latest_run t with
    | Some run => mkRead (run_schema_version run) (run_first_event_at run) (run_events run)
    | None => current
    end current in
  let computed := Snapshot.compute (rg_data reading) coverage (snapshot_id_of now) now in
  let outcome := Restatement.restated computed history because republish in
  let snapshot := o_snapshot outcome in
  let index := Index.index snapshot publisher in
  let ceiling := fold_limits ((λ a, (Client.Nip11.relay a, Client.Nip11.max_content_length a)) <$> advertised)
                   (configured (Config.ps_max_content_bytes settings)) in
  {|
    pb_snapshot := snapshot;
    pb_index := index;
    pb_ceiling := ceiling;
    pb_relays_asked := Z.of_nat (length advertised);
    pb_measured := measure (s_documents snapshot) ++ [measure_index index];
    pb_not_sent := o_not_sent outcome;
    pb_state := o_state outcome;
    pb_events := rg_events reading;
  |}.

Definition compute (db : Db.Db) (t : Tables) (settings : Settings)
    (advertised : list Client.Nip11.Advertised) (republish : Republish) (now : Z) : Result PublishError Publication :=
  reading ← map_err Database (read_archive db settings now);
  Ok (publication_of reading t (Config.se_publish settings) advertised republish now).

(** [Publication::documents]: the index last. *)
Definition documents (p : Publication) : list (string * string) :=
  ((λ d, (d_of d, content d)) <$> s_documents (pb_snapshot p))
  ++ [(Address.show (address (pb_index p)), index_content (pb_index p))].

(** ** Sending *)

Definition to_send (p : Publication) : list Document :=
  filter (λ d, d_of d ∉ pb_not_sent p) (s_documents (pb_snapshot p)).
Definition refusals (deliveries : list (Document * Client.Delivery)) : list string :=
  d_of ∘ fst <$> filter (λ entry, Client.is_published entry.2 = false) deliveries.

(** The events a run hands to the relays, and how it ends. The documents go
    out at most [IN_FLIGHT] at a time: when a send fails, those in flight may
    have gone too. The index follows only when every document was accepted. *)
Definition send_to (p : Publication) (keys : Keys) (answer : Answer) : list Event * Result PublishError () :=
  let run := s_run (pb_snapshot p) in
  let events := (λ d, sign d run keys) <$> to_send p in
  match collect ((λ d, (λ delivery, (d, delivery)) <$> answer (sign d run keys)) <$> to_send p) with
  | Err e =>
      let before := length (take_while (λ e, match answer e with Ok _ => true | Err _ => false end) events) in
      (take (before + IN_FLIGHT) events, Err (ClientFailed e))
  | Ok deliveries =>
      if decide (refusals deliveries = []) then
        let index := sign_index (pb_index p) run keys in
        ( events ++ [index],
          match answer index with
          | Err e => Err (ClientFailed e)
          | Ok delivery => if Client.is_published delivery then Ok () else Err IndexRefused
          end )
      else (events, Err (Refused (refusals deliveries)))
  end.

(** ** The run *)

(** What a run finds outside itself: the archive, the environment, the relays'
    limits, whether any relay can be reached, and their answers. *)
Record World : Type := mkWorld {
  wd_db : Db.Db;
  wd_env : string → option string;
  wd_advertised : list Client.Nip11.Advertised;
  wd_connect : Result Client.ClientError ();
  wd_answer : Answer;
}.
(** What a run leaves: the tables, the events it sent, the files it wrote and
    how it ended. *)
Record Ran : Type := mkRan {
  rn_tables : Tables;
  rn_sent : list Event;
  rn_files : list (string * string);
  rn_result : Result PublishError ();
}.

Definition file_name (address : string) : string := join "-" (split_char ":" address) +:+ ".json".
Definition write (p : Publication) : list (string * string) :=
  (λ '(address, content), (file_name address, content)) <$> documents p.

(** Everything before the first document is sent or written: the refusals, in
    the order the code makes them. *)
Definition prepare (w : World) (t : Tables) (cli : Cli) (settings : Settings)
    (dry_run out republish : bool) (now : Z) : Result PublishError (option Keys * Publication) :=
  _ ← refuse_scoped cli;
  keys ← match Config.ps_nsec (Config.se_publish settings) with
         | Some reference =>
             if dry_run then Ok None else Some <$> map_err BadKey (resolve (wd_env w) reference)
         | None => Ok None
         end;
  if dry_run || out || option_is_some keys then
    _ ← match keys with Some _ => refuse_stalled_clock (latest_run t) now | None => Ok () end;
    asked ← requested (Cli.cl_from cli) (Cli.cl_until cli) republish;
    publication ← compute (wd_db w) t settings (wd_advertised w) asked now;
    _ ← refuse_oversized publication;
    Ok (keys, publication)
  else Err NoKey.

Definition run (w : World) (t : Tables) (cli : Cli) (settings : Settings)
    (dry_run out republish : bool) (now : Z) : Ran :=
  match prepare w t cli settings dry_run out republish now with
  | Err e => mkRan t [] [] (Err e)
  | Ok (keys, publication) =>
      let files := if out then write publication else [] in
      match keys with
      | None => mkRan t [] files (Ok ())
      | Some keys =>
          match wd_connect w with
          | Err e => mkRan t [] files (Err (ClientFailed e))
          | Ok _ =>
              let '(sent, result) := send_to publication keys (wd_answer w) in
              match result with
              | Ok _ => mkRan (record publication t) sent files (Ok ())
              | Err e => mkRan t sent files (Err e)
              end
          end
      end
  end.
End publish.

(** ** What publish prints

    The listing of [--dry-run] and the report of a run that sent. *)

#[local] Abbreviation newline := (String "010" "").

(** [{:<width$}] and [{:>width$}], in characters. *)
Definition spaces (n : nat) : string := foldr String "" (replicate n " "%char).
Definition left_aligned (width : nat) (s : string) : string := s +:+ spaces (width - length (chars s)).
Definition right_aligned (width : nat) (s : string) : string := spaces (width - length (chars s)) +:+ s.

Definition HASH_PREFIX : nat := 16.
Definition abbreviated (hash : string) : string := String.substring 0 (HASH_PREFIX `min` String.length hash) hash +:+ "…".

(** The widest address, in bytes; a listing always has the index in it. *)
Definition width_of (measured : list Measured) : nat :=
  match (λ m, String.length (Address.show (ms_address m))) <$> measured with
  | [] => 1
  | lengths => max_list lengths
  end.
Definition listing_line (width : nat) (m : Measured) : string :=
  left_aligned width (Address.show (ms_address m)) +:+ "  " +:+ right_aligned 7 (pretty (ms_bytes m)) +:+ "  "
  +:+ match ms_hash m with Some hash => abbreviated hash | None => "—" end +:+ newline.

Section listing.
Context {cal : Calendar}.

Definition extent_line (c : Coverage) : string :=
  match earliest c, latest c with
  | Some first, Some last => "archive " +:+ rfc3339 first +:+ " to " +:+ rfc3339 last +:+ newline
  | _, _ => "archive holds nothing" +:+ newline
  end.
Definition listing (p : Publication) : string :=
  let run := s_run (pb_snapshot p) in
  let width := width_of (pb_measured p) in
  "snapshot " +:+ snapshot_id run +:+ " generated at " +:+ rfc3339 (generated_at run) +:+ newline
  +:+ extent_line (s_coverage (pb_snapshot p))
  +:+ "ceiling " +:+ pretty (bytes (pb_ceiling p)) +:+ " bytes ("
  +:+ default "[publish].max_content_bytes" (Index.relay (pb_ceiling p)) +:+ "), "
  +:+ pretty (pb_relays_asked p) +:+ " relay(s) asked" +:+ newline +:+ newline
  +:+ String.concat "" (listing_line width <$> pb_measured p)
  +:+ newline +:+ pretty (Z.of_nat (length (pb_measured p))) +:+ " documents, "
  +:+ pretty (foldr Z.add 0 (ms_bytes <$> pb_measured p)) +:+ " bytes" +:+ newline.
End listing.

(** What [send_to] says once the relays took the run: [npub] is the
    publisher's key in bech32, and the deliveries are in snapshot order. *)
Definition refused_lines (deliveries : list (Document * Client.Delivery)) : string :=
  String.concat "" (deliveries ≫= λ '(d, delivery),
    (λ '(relay, reason), "  " +:+ d_of d +:+ " refused by " +:+ relay +:+ ": " +:+ reason +:+ newline) <$> Client.refused delivery).
Definition sent_report (p : Publication) (relays : Z) (npub : string) (deliveries : list (Document * Client.Delivery)) : string :=
  "publishing to " +:+ pretty relays +:+ " relay(s) as " +:+ npub +:+ newline
  +:+ refused_lines deliveries
  +:+ "snapshot " +:+ snapshot_id (s_run (pb_snapshot p)) +:+ " published: "
  +:+ pretty (Z.of_nat (length (to_send p))) +:+ " document(s) sent, "
  +:+ pretty (Z.of_nat (size (pb_not_sent p))) +:+ " unchanged, index last" +:+ newline.

(** The first column is as wide as the widest address, so the sizes stand
    under each other. *)
Lemma in_width m measured : m ∈ measured → (String.length (Address.show (ms_address m)) ≤ width_of measured)%nat.
Proof.
  intros Hm%(list_elem_of_fmap_2 (λ m, String.length (Address.show (ms_address m)))). unfold width_of.
  destruct ((λ m, String.length (Address.show (ms_address m))) <$> measured); [by apply elem_of_nil in Hm|].
  by apply max_list_elem_of_le.
Qed.
Example abbreviated_hash : abbreviated "0123456789abcdef0123" = "0123456789abcdef…".
Proof. reflexivity. Qed.
