(* ===== verification/PublishFacts.v ===== *)
(** * What the relays are promised

    Over [Publish]: runs as steps of the publication tables and of what the
    relays have accepted, and what holds after any of them. *)

From Stdlib Require Strings.String.
From S2P Require Import Prelude Event StatsPrelude Calendar Window Bucket.
From S2P Require Cli Config Address Series Instances.
From S2P Require Db LoadActivity LoadDisputes LoadInstances LoadRates.
From S2P Require Import Pipeline PipelineFacts Samples Growth.
From S2P Require Import Document Restatement Index Published Snapshot SnapshotFacts Signer Publish.
From S2P Require Client.

#[local] Open Scope Z_scope.

(** ** The tables after a record *)

Lemma foldl_insert_lookup {V W} (f : V → W) (l : list (string * V)) (m : gmap string W) k :
  NoDup l.*1 →
  foldl (λ m '(k, v), <[k := f v]> m) m l !! k =
    match (list_to_map l : gmap string V) !! k with Some v => Some (f v) | None => m !! k end.
Proof.
  revert m. induction l as [|[a v] l IH]; intros m; [cbn; by rewrite lookup_empty|]. rewrite fmap_cons.
  intros [Ha Hl]%NoDup_cons. cbn [foldl]. rewrite IH by done. rewrite list_to_map_cons. destruct (decide (a = k)) as [-> | Hne].
  - rewrite !lookup_insert_eq. apply not_elem_of_list_to_map_1 in Ha. cbn in Ha. by rewrite Ha.
  - by rewrite !lookup_insert_ne by done.
Qed.

Lemma btree_foldl {V W} (f : V → W) (s : gmap string V) (m : gmap string W) :
  foldl (λ m '(k, v), <[k := f v]> m) m (btree_iter s) = (f <$> s) ∪ m.
Proof.
  apply map_eq. intros k. assert (NoDup (btree_iter s).*1) as Hnd
    by (rewrite btree_iter_Permutation; apply NoDup_fst_map_to_list).
  rewrite foldl_insert_lookup by done.
  assert ((list_to_map (btree_iter s) : gmap string V) = s) as ->.
  { rewrite (list_to_map_proper _ _ Hnd (btree_iter_Permutation s)). apply list_to_map_to_list. }
  rewrite lookup_union, lookup_fmap. destruct (s !! k); cbn; [by destruct (m !! k)|by destruct (m !! k)].
Qed.

Lemma record_documents p t :
  published_documents (record p t) = (row_of <$> pb_state p) ∪ published_documents t.
Proof.
  unfold record, record_run. cbn [published_documents]. rewrite <- btree_foldl.
  generalize (btree_iter (pb_state p)). intros l. revert t.
  induction l as [|[a v] l IH]; intros t; [done|]. cbn [foldl]. by rewrite IH.
Qed.

Lemma record_runs p t (r := mkRun (snapshot_id (s_run (pb_snapshot p))) (generated_at (s_run (pb_snapshot p))) SCHEMA_VERSION
    (earliest (s_coverage (pb_snapshot p))) (latest (s_coverage (pb_snapshot p))) (pb_events p)) :
  publication_runs (record p t) = <[snapshot_id (s_run (pb_snapshot p)) := run_row r]> (publication_runs t).
Proof.
  unfold record, record_run. cbn [publication_runs]. f_equal.
  generalize (btree_iter (pb_state p)). intros l. revert t.
  induction l as [|[a v] l IH]; intros t; [done|]. cbn [foldl]. by rewrite IH.
Qed.

Section facts.
Context {cal : Calendar} {laws : CalendarLaws} `{External} `{!ExternalLaws} `{!Nostr} `{!NostrLaws} `{!Serialize Payload} `{!Serialize Envelope}
  `{!Serialize Index} `{!Digest}.
Context (publisher : Publisher).

Lemma record_all p t :
  map_Forall (λ _, previous_ok) (pb_state p) → all (record p t) = pb_state p ∪ all t.
Proof.
  intros Hok. unfold all. rewrite record_documents, map_fmap_union. f_equal.
  rewrite <- map_fmap_compose. rewrite <- (map_fmap_id (pb_state p)) at 2. apply map_fmap_ext. intros a q Hq.
  cbn. by apply row_round_trip, (Hok a q).
Qed.

(** ** Sending *)

(** The events some relay took. *)
Definition took (answer : Answer) (e : Event) : bool :=
  match answer e with Ok d => Client.is_published d | Err _ => false end.
Definition accepted (answer : Answer) (sent : list Event) : list Event := filter (λ e, took answer e) sent.

(** The index is handed over only after every document was accepted, and then
    last; until then only documents are sent. *)
Lemma send_to_spec p keys answer sent result (run := s_run (pb_snapshot p)) (events := (λ d, sign d run keys) <$> to_send p) :
  send_to p keys answer = (sent, result) →
  (sent = events ++ [sign_index (pb_index p) run keys] ∧
    accepted answer sent = events ++ accepted answer [sign_index (pb_index p) run keys] ∧
    (result = Ok () ↔ accepted answer [sign_index (pb_index p) run keys] = [sign_index (pb_index p) run keys])) ∨
  (∃ n, sent = take n events ∧ result ≠ Ok ()).
Proof.
  unfold send_to. fold run. fold events. destruct (collect _) as [deliveries|e] eqn:Ec.
  2: { intros [= <- <-]. right. by eexists. }
  apply collect_Forall2 in Ec. case_decide as Hr; [|intros [= <- <-]; right; exists (length events); by rewrite take_ge].
  intros [= <- <-]. left. split; [done|]. split.
  - unfold accepted. rewrite filter_app. f_equal. unfold events. clear events.
    induction Ec as [|d [d' delivery] l l' Hd Hl IH]; [done|]. rewrite fmap_cons.
    unfold refusals in Hr. rewrite filter_cons in Hr. case_decide as Hp; [done|]. cbn in Hp.
    destruct (answer (sign d run keys)) as [x|] eqn:Ea; [|done]. injection Hd as -> ->.
    rewrite filter_cons. rewrite decide_True
      by (unfold took; rewrite Ea; by destruct (Client.is_published delivery)). f_equal. by apply IH.
  - unfold accepted. rewrite filter_cons, filter_nil. unfold took.
    destruct (answer _) as [x|]; cbn; [destruct (Client.is_published x); cbn|]; by split.
Qed.

(** ** One run *)

Lemma prepare_Ok w t cli settings dry_run out republish now keys p :
  prepare publisher w t cli settings dry_run out republish now = Ok (Some keys, p) →
  refuse_stalled_clock (latest_run t) now = Ok () ∧
  ∃ asked, compute publisher (wd_db w) t settings (wd_advertised w) asked now = Ok p ∧ refuse_oversized p = Ok ().
Proof.
  unfold prepare. intros Hp. apply bind_Ok in Hp as ([] & _ & Hp). apply bind_Ok in Hp as (k & Hk & Hp).
  destruct (_ || _); [|done]. apply bind_Ok in Hp as ([] & Hc & Hp). apply bind_Ok in Hp as (asked & _ & Hp).
  apply bind_Ok in Hp as (p' & Hp' & Hp). apply bind_Ok in Hp as ([] & Ho & Hp). injection Hp as -> <-.
  split; [done|]. by exists asked.
Qed.

(** A reading of an archive ingest left lists each instance once. *)
Lemma compute_Ok db t settings advertised asked now p :
  LoadInstances.bestiary_ok db → compute publisher db t settings advertised asked now = Ok p →
  ∃ reading, p = publication_of publisher reading t (Config.se_publish settings) advertised asked now ∧
    NoDup (Instances.pf_pubkey <$> Series.sd_profiles (rg_data reading)).
Proof.
  intros Hb. unfold compute. intros (reading & Hr%map_err_Ok & [= <-])%bind_Ok. exists reading. split; [done|].
  unfold read_archive in Hr. apply bind_Ok in Hr as (data & Hl & [= <-]). unfold load in Hl.
  repeat (apply bind_Ok in Hl as (? & ? & Hl)). injection Hl as <-. by apply LoadInstances.profiles_NoDup.
Qed.

Lemma run_cases w t cli settings dry_run out republish now
    (r := run publisher w t cli settings dry_run out republish now) :
  LoadInstances.bestiary_ok (wd_db w) →
  (rn_tables r = t ∧ rn_sent r = []) ∨
  (∃ reading keys asked result
     (p := publication_of publisher reading t (Config.se_publish settings) (wd_advertised w) asked now),
    NoDup (Instances.pf_pubkey <$> Series.sd_profiles (rg_data reading)) ∧
    refuse_stalled_clock (latest_run t) now = Ok () ∧
    send_to p keys (wd_answer w) = (rn_sent r, result) ∧ rn_result r = result ∧
    rn_tables r = match result with Ok _ => record p t | Err _ => t end).
Proof.
  intros Hb. unfold r, run. destruct (prepare _ _ _ _ _ _ _ _ _) as [[[keys|] p]|e] eqn:Hp; [|by left|by left].
  apply prepare_Ok in Hp as (Hc & asked & Hp & _). apply compute_Ok in Hp as (reading & -> & Hnd); [|done].
  destruct (wd_connect w); [|by left]. destruct (send_to _ _ _) as [sent result] eqn:Hs. right.
  exists reading, keys, asked, result. destruct result as [[]|e]; cbn; by split_and!.
Qed.

(** ** What the relays hold *)

(** A relay has taken a document under [a] with this hash, over the very
    payload it carries, at this revision. *)
Definition holds (log : list Event) (a h : string) (r : Z) : Prop :=
  ∃ d run keys, sign d run keys ∈ log ∧ d_of d = a ∧ d_hash d = h ∧ e_revision (d_envelope d) = r ∧
    hash_of (e_payload (d_envelope d)) = h.
Definition kept (log : list Event) (i : Index) : Prop :=
  ∀ entry, entry ∈ i_documents i → holds log (en_d entry) (en_hash entry) (en_revision entry).

Lemma holds_mono log log' a h r : log ⊆ log' → holds log a h r → holds log' a h r.
Proof. intros Hl (d & rn & keys & Hin & Hd). exists d, rn, keys. split; [by apply Hl|done]. Qed.

(** The documents of a run, once those to send are taken. *)
Lemma documents_held reading t settings advertised asked now log
    (p := publication_of publisher reading t settings advertised asked now) (run := s_run (pb_snapshot p)) d' :
  NoDup (Instances.pf_pubkey <$> Series.sd_profiles (rg_data reading)) → history_ok (all t) → spelled now →
  (∀ a q, all t !! a = Some q → holds log a (hash q) (revision q)) →
  (∀ d, d ∈ to_send p → ∃ keys, sign d run keys ∈ log) →
  d' ∈ s_documents (pb_snapshot p) →
  holds log (d_of d') (d_hash d') (e_revision (d_envelope d')) ∧
  ∃ q, pb_state p !! d_of d' = Some q ∧ previous_ok q ∧ hash q = d_hash d' ∧ revision q = e_revision (d_envelope d').
Proof.
  intros Hnd Hh Hs Hall Hsend Hd'. pose proof Hd' as Hin'. unfold p, publication_of in Hd'. cbn [pb_snapshot] in Hd'.
  set (b := inferred _ _) in Hd'.
  set (s := Snapshot.compute (rg_data reading) (rg_coverage reading) (snapshot_id_of now) now) in Hd'.
  assert (pb_snapshot p = o_snapshot (Restatement.restated s (all t) b asked)) as Ep by done.
  assert (pb_not_sent p = o_not_sent (Restatement.restated s (all t) b asked)) as En by done.
  assert (pb_state p = o_state (Restatement.restated s (all t) b asked)) as Est by done.
  clearbody p. rewrite restated_unfold in Hd'. cbn [o_snapshot s_documents] in Hd'.
  apply list_elem_of_fmap in Hd' as (d & -> & Hd).
  assert (NoDup (d_of <$> s_documents s)) as Hnds by (by apply d_of_NoDup).
  pose proof (against_keeps (s_run s) d (all t !! d_of d) b) as (_ & E2 & _ & E4).
  fold (conclusion s (all t) b d) in E2, E4.
  assert (∀ q, all t !! d_of d = Some q → previous_ok q) as Hok by (intros q Hq; by apply (Hh _ _ Hq)).
  pose proof (against_says (s_run s) d (all t !! d_of d) b Hok) as (S1 & _ & S3 & _).
  fold (conclusion s (all t) b d) in S1, S3. rewrite d_of_conclusion. split.
  - destruct (decide (d_of d ∈ pb_not_sent p)) as [Hns | Hns].
    + rewrite En, elem_of_not_sent in Hns. destruct Hns as (x & Hx & Ex & Hun & _).
      rewrite (NoDup_fmap_inj d_of _ x d Hnds Hx Hd Ex) in Hun. apply unchanged_spec in Hun as (q & Hq & Hhash).
      rewrite S1, S3, Hq. unfold next. rewrite decide_True by done. by apply Hall.
    + destruct (Hsend (conclusion s (all t) b d)) as [keys Hk].
      { unfold to_send. apply list_elem_of_filter. split; [by rewrite d_of_conclusion|done]. }
      eexists _, _, keys. split; [exact Hk|]. split_and!; [apply d_of_conclusion|done|done|].
      rewrite E2, E4. symmetry. by apply (documents_hashed (rg_data reading) (rg_coverage reading) (snapshot_id_of now) now).
  - exists (next (s_run s) (all t !! d_of d) (d_hash d) b). split_and!.
    + rewrite Est, state_lookup by done. by destruct (list_find_address _ d Hnds Hd) as [i ->].
    + by apply next_ok.
    + by rewrite <- S1.
    + by rewrite <- S3.
Qed.

Lemma state_documents reading t settings advertised asked now
    (p := publication_of publisher reading t settings advertised asked now) a q :
  NoDup (Instances.pf_pubkey <$> Series.sd_profiles (rg_data reading)) → history_ok (all t) → spelled now →
  pb_state p !! a = Some q →
  previous_ok q ∧ ∃ d', d' ∈ s_documents (pb_snapshot p) ∧ d_of d' = a ∧ hash q = d_hash d' ∧
    revision q = e_revision (d_envelope d').
Proof.
  intros Hnd Hh Hs Hq. unfold p, publication_of in Hq |- *. cbn [pb_state pb_snapshot] in Hq |- *. set (b := inferred _ _) in *.
  set (s := Snapshot.compute (rg_data reading) (rg_coverage reading) (snapshot_id_of now) now) in *.
  assert (NoDup (d_of <$> s_documents s)) as Hnds by (by apply d_of_NoDup).
  rewrite state_lookup in Hq by done. destruct (list_find _ _) as [[i d]|] eqn:Ef; [|done].
  apply list_find_Some in Ef as (Hd%list_elem_of_lookup_2 & <- & _). injection Hq as <-.
  assert (∀ q, all t !! d_of d = Some q → previous_ok q) as Hok by (intros q Hq; by apply (Hh _ _ Hq)).
  pose proof (against_says (s_run s) d (all t !! d_of d) b Hok) as (S1 & _ & S3 & _).
  split; [by apply next_ok|]. exists (conclusion s (all t) b d). rewrite restated_unfold. cbn [o_snapshot s_documents].
  split_and!; [by apply list_elem_of_fmap_2|apply d_of_conclusion|symmetry; exact S1|symmetry; exact S3].
Qed.

(** No document is published where the index is. *)
Lemma not_the_index reading t settings advertised asked now
    (p := publication_of publisher reading t settings advertised asked now) d' :
  d' ∈ s_documents (pb_snapshot p) → d_of d' ≠ Address.show (Address.AIndex None).
Proof.
  unfold p, publication_of. cbn [pb_snapshot]. set (b := inferred _ _). rewrite restated_unfold. cbn [o_snapshot s_documents].
  intros (d & -> & Hd)%list_elem_of_fmap. rewrite d_of_conclusion. unfold d_of. intros E.
  apply (list_elem_of_fmap_2 d_address), published_spec in Hd.
  pose proof (published_ok _ _ _ _ Hd) as Hok. apply Address.show_parses in Hok. rewrite E in Hok.
  rewrite Address.show_parses in Hok by done. injection Hok as E'. by rewrite <- E' in Hd.
Qed.

(** ** Every run keeps the promise *)

(** Whatever relay took an index had taken, before it, every document the
    index names. *)
Definition promise (log : list Event) : Prop :=
  ∀ n e, log !! n = Some e → tag_of "d" e = Some (Address.show (Address.AIndex None)) →
    ∃ i run keys, e = sign_index i run keys ∧ kept (take n log) i.
Definition runs_ok (t : Tables) : Prop :=
  ∀ id row, publication_runs t !! id = Some row →
    id = snapshot_id_of (pr_generated_at row) ∧ pr_snapshot_id row = id ∧ spelled (pr_generated_at row).
Definition consistent (t : Tables) (log : list Event) : Prop :=
  history_ok (all t) ∧ (∀ a q, all t !! a = Some q → holds log a (hash q) (revision q)) ∧ promise log ∧ runs_ok t.

Lemma kept_mono log log' i : log ⊆ log' → kept log i → kept log' i.
Proof. intros Hl Hk entry He. eapply holds_mono, Hk, He. done. Qed.

Lemma promise_app log new :
  promise log →
  (∀ n e, new !! n = Some e → tag_of "d" e = Some (Address.show (Address.AIndex None)) →
    ∃ i run keys, e = sign_index i run keys ∧ kept (log ++ take n new) i) →
  promise (log ++ new).
Proof.
  intros Hp Hn n e [He | [Hle He]]%lookup_app_Some Ht.
  - destruct (Hp n e He Ht) as (i & rn & keys & -> & Hk). exists i, rn, keys. split; [done|].
    apply lookup_lt_Some in He. rewrite take_app_le by lia. done.
  - destruct (Hn _ _ He Ht) as (i & rn & keys & -> & Hk). exists i, rn, keys. split; [done|].
    rewrite take_app_ge by lia. done.
Qed.

Lemma events_are_documents reading t settings advertised asked now keys
    (p := publication_of publisher reading t settings advertised asked now) e :
  e ∈ (λ d, sign d (s_run (pb_snapshot p)) keys) <$> to_send p →
  tag_of "d" e ≠ Some (Address.show (Address.AIndex None)).
Proof.
  intros (d & -> & Hd)%list_elem_of_fmap. destruct (sign_says d (s_run (pb_snapshot p)) keys) as (_ & -> & _).
  intros [= E]. apply list_elem_of_filter in Hd as [_ Hd]. by apply not_the_index in Hd.
Qed.

Lemma publication_run reading t settings advertised asked now
    (p := publication_of publisher reading t settings advertised asked now) :
  snapshot_id (s_run (pb_snapshot p)) = snapshot_id_of now ∧ generated_at (s_run (pb_snapshot p)) = now.
Proof. unfold p, publication_of. cbn [pb_snapshot]. by rewrite restated_unfold. Qed.
Lemma record_runs_ok reading t settings advertised asked now :
  spelled now → runs_ok t → runs_ok (record (publication_of publisher reading t settings advertised asked now) t).
Proof.
  intros Hs Hr id row. destruct (publication_run reading t settings advertised asked now) as [E1 E2]. rewrite record_runs, E1, E2.
  by intros [[<- <-] | [_ Hrow]]%lookup_insert_Some; [|apply Hr].
Qed.

(** The record of a run is held by a log that holds its documents and what was
    on record before. *)
Lemma record_consistent reading t settings advertised asked now log
    (p := publication_of publisher reading t settings advertised asked now) :
  NoDup (Instances.pf_pubkey <$> Series.sd_profiles (rg_data reading)) → history_ok (all t) → spelled now → runs_ok t →
  (∀ a q, all t !! a = Some q → holds log a (hash q) (revision q)) →
  (∀ d, d ∈ s_documents (pb_snapshot p) → holds log (d_of d) (d_hash d) (e_revision (d_envelope d))) →
  history_ok (all (record p t)) ∧ (∀ a q, all (record p t) !! a = Some q → holds log a (hash q) (revision q)) ∧
  runs_ok (record p t).
Proof.
  intros Hnd Hh Hs Hruns Hkeep Hheld.
  pose proof (λ a q, state_documents reading t settings advertised asked now a q Hnd Hh Hs) as Hstate.
  fold p in Hstate. assert (map_Forall (λ _, previous_ok) (pb_state p)) as Hok by (intros a q Hq; by apply (Hstate a)).
  assert (∀ a q, all (record p t) !! a = Some q → pb_state p !! a = Some q ∨ all t !! a = Some q) as Hlook.
  { intros a q. rewrite record_all by done. rewrite lookup_union_Some_raw. naive_solver. }
  split_and!.
  - intros a q [Hq | Hq]%Hlook; [by apply (Hstate a)|by apply (Hh a)].
  - intros a q [Hq | Hq]%Hlook; [|by apply Hkeep].
    destruct (Hstate a q Hq) as (_ & d' & Hd' & <- & -> & ->). by apply Hheld.
  - by apply record_runs_ok.
Qed.

Lemma run_consistent t log w cli settings dry_run out republish now
    (r := run publisher w t cli settings dry_run out republish now) :
  LoadInstances.bestiary_ok (wd_db w) → spelled now →
  consistent t log → consistent (rn_tables r) (log ++ accepted (wd_answer w) (rn_sent r)).
Proof.
  intros Hb Hs (Hh & Hall & Hprom & Hruns).
  pose proof (run_cases w t cli settings dry_run out republish now Hb) as Hcases. cbv zeta in Hcases. fold r in Hcases.
  destruct Hcases as [[E1 E2] | (reading & keys & asked & result & Hnd & _ & Hsend & _ & Et)].
  { rewrite E1, E2. unfold accepted. rewrite filter_nil, app_nil_r. done. }
  set (p := publication_of publisher reading t (Config.se_publish settings) (wd_advertised w) asked now) in *.
  assert (∀ new, log ⊆ log ++ new) as Hsub by (intros new x Hx; apply elem_of_app; by left).
  assert (∀ new a q, all t !! a = Some q → holds (log ++ new) a (hash q) (revision q)) as Hkeep
    by (intros new a q Hq; by eapply holds_mono, Hall).
  pose proof (send_to_spec p keys (wd_answer w) _ _ Hsend) as Hsp. cbv zeta in Hsp.
  set (events := (λ d, sign d (s_run (pb_snapshot p)) keys) <$> to_send p) in *.
  destruct Hsp as [(Esent & Eacc & Eok) | (n & Esent & Hne)].
  2: { assert (rn_tables r = t) as -> by (rewrite Et; destruct result as [[]|]; done).
    split_and!; [done|apply Hkeep| |done]. apply promise_app; [done|]. intros m e He Ht. exfalso.
    apply list_elem_of_lookup_2 in He. unfold accepted in He. rewrite Esent in He. apply list_elem_of_filter in He as [_ He].
    assert (e ∈ events) as Hin by (rewrite <- (take_drop n events); apply elem_of_app; by left).
    by eapply events_are_documents. }
  set (index := sign_index (pb_index p) (s_run (pb_snapshot p)) keys) in *.
  assert (∀ d, d ∈ to_send p → ∃ keys, sign d (s_run (pb_snapshot p)) keys ∈ log ++ events) as Hsent.
  { intros d Hd. exists keys. apply elem_of_app. right.
    by apply (list_elem_of_fmap_2 (λ d, sign d (s_run (pb_snapshot p)) keys)). }
  assert (kept (log ++ events) (pb_index p)) as Hindex.
  { intros entry He. change (i_documents (pb_index p)) with (Index.entry <$> s_documents (pb_snapshot p)) in He.
    apply list_elem_of_fmap in He as (d' & -> & Hd'). cbn [en_d en_hash en_revision Index.entry].
    by destruct (documents_held reading t (Config.se_publish settings) (wd_advertised w) asked now (log ++ events) d' Hnd Hh Hs
      (Hkeep events) Hsent Hd'). }
  assert (promise (log ++ events ++ accepted (wd_answer w) [index])) as Hpromise.
  { apply promise_app; [done|]. intros m e [He | [Hle He]]%lookup_app_Some Ht.
    - exfalso. apply list_elem_of_lookup_2 in He. by eapply events_are_documents.
    - unfold accepted in He. apply list_elem_of_lookup_2 in He as He'. apply list_elem_of_filter in He' as [_ He'].
      apply list_elem_of_singleton in He' as ->. exists (pb_index p), (s_run (pb_snapshot p)), keys. split; [done|].
      eapply kept_mono; [|exact Hindex]. intros x Hx. apply elem_of_app in Hx as [Hx | Hx]; apply elem_of_app; [by left|right].
      rewrite take_app_ge by done. apply elem_of_app. by left. }
  rewrite Eacc. destruct result as [[]|e]; cbn in Et; rewrite Et; [|split_and!; [done|apply Hkeep|done|done]].
  destruct (record_consistent reading t (Config.se_publish settings) (wd_advertised w) asked now
    (log ++ events ++ accepted (wd_answer w) [index]) Hnd Hh Hs Hruns) as (? & ? & ?); [apply Hkeep| |by split_and!].
  intros d Hd. eapply holds_mono; [|by destruct (documents_held reading t (Config.se_publish settings) (wd_advertised w) asked now
    (log ++ events) d Hnd Hh Hs (Hkeep events) Hsent Hd)].
  intros x [Hx | Hx]%elem_of_app; apply elem_of_app; [by left|right]. apply elem_of_app. by left.
Qed.

(** ** Any number of runs *)

(** What the tables and the log of accepted events can be, starting from an
    empty record of publications. Each run finds a sound archive, which is what
    ingest and rebuilding leave, and its clock is one RFC 3339 spells. *)
Inductive reachable : Tables → list Event → Prop :=
| reachable_start : reachable empty_tables []
| reachable_run t log w cli settings dry_run out republish now :
    reachable t log →
    sound (wd_db w) → spelled now →
    let r := run publisher w t cli settings dry_run out republish now in
    reachable (rn_tables r) (log ++ accepted (wd_answer w) (rn_sent r)).

Lemma reachable_consistent t log : reachable t log → consistent t log.
Proof.
  induction 1 as [|t log w cli settings dry_run out republish now _ IH Hdb Hs r].
  - assert (all empty_tables = ∅) as Hnone by apply fmap_empty. unfold consistent. rewrite Hnone.
    split_and!; [by intros a q|by intros a q|done|by intros id row].
  - by apply run_consistent; [apply so_bestiary| |].
Qed.

(** C10: whatever runs have been made, whatever the relays answered and however
    the runs ended, an index that some relay accepted names only documents
    that relays had accepted before it: under that address, with that hash,
    over the payload the hash is of, and at that revision. An index is never
    on a relay ahead of its documents, whether they went out in its own run or
    were left alone by it. *)
Theorem index_promise (t : Tables) (log : list Event) (n : nat) (e : Event) :
  reachable t log → log !! n = Some e → tag_of "d" e = Some (Address.show (Address.AIndex None)) →
  ∃ (i : Index) (run : Document.Run) (keys : Keys), e = sign_index i run keys ∧
    ∀ entry, entry ∈ i_documents i → ∃ (d : Document) (run : Document.Run) (keys : Keys),
      sign d run keys ∈ take n log ∧ d_of d = en_d entry ∧ d_hash d = en_hash entry ∧
      e_revision (d_envelope d) = en_revision entry ∧ hash_of (e_payload (d_envelope d)) = en_hash entry.
Proof. intros Hr. apply (reachable_consistent t log Hr). Qed.

(** ** The record *)

Lemma latest_in_runs t row : row ∈ rows (publication_runs t) → ∃ last, latest_run t = Some last ∧
  pr_generated_at row ≤ run_generated_at last.
Proof.
  intros Hin. unfold latest_run. destruct (last _) as [x|] eqn:El.
  - exists (into_run x). split; [done|]. destruct (latest_run_max t x El) as [_ Hmax]. by apply Hmax.
  - apply last_None in El. apply (elem_of_order_by (λ row, (pr_generated_at row, pr_snapshot_id row))) in Hin.
    rewrite El in Hin. by apply elem_of_nil in Hin.
Qed.
Lemma clock_advances t now id row :
  refuse_stalled_clock (latest_run t) now = Ok () → publication_runs t !! id = Some row → pr_generated_at row < now.
Proof.
  intros Hc Hrow. destruct (latest_in_runs t row) as (last & El & Hle); [apply elem_of_rows; by exists id|].
  rewrite El in Hc. cbn in Hc. case_decide; [lia|done].
Qed.

Lemma state_next reading t settings advertised asked now a q
    (p := publication_of publisher reading t settings advertised asked now) :
  NoDup (Instances.pf_pubkey <$> Series.sd_profiles (rg_data reading)) → history_ok (all t) → spelled now →
  pb_state p !! a = Some q → ∃ run h b, q = next run (all t !! a) h b.
Proof.
  intros Hnd Hh Hs. unfold p, publication_of. cbn [pb_state]. rewrite state_lookup by (done || by apply d_of_NoDup).
  destruct (list_find _ _) as [[i d]|]; [|done]. intros [= <-]. by do 3 eexists.
Qed.

Lemma snapshot_id_inj t u : spelled t → spelled u → snapshot_id_of t = snapshot_id_of u → t = u.
Proof.
  intros [Ht Hy] [Hu Hv]. unfold snapshot_id_of, from_timestamp. rewrite Ht, Hu. by apply compact_inj.
Qed.
Lemma record_latest reading t settings advertised asked now
    (p := publication_of publisher reading t settings advertised asked now) :
  (∀ id row, publication_runs t !! id = Some row → pr_generated_at row < now) →
  ∃ row, publication_runs (record p t) = <[snapshot_id_of now := row]> (publication_runs t) ∧
    pr_generated_at row = now ∧ latest_run (record p t) = Some (into_run row).
Proof.
  intros Hlt. destruct (publication_run reading t settings advertised asked now) as [E1 E2]. fold p in E1, E2.
  pose proof (record_runs p t) as Hr. cbv zeta in Hr. rewrite E1, E2 in Hr. eexists. split; [exact Hr|].
  split; [done|]. set (row := run_row _) in Hr |- *.
  assert (row ∈ rows (publication_runs (record p t))) as Hin
    by (apply elem_of_rows; exists (snapshot_id_of now); by rewrite Hr, lookup_insert_eq).
  unfold latest_run. destruct (last _) as [x|] eqn:El.
  - pose proof (latest_run_max _ x El) as [Hx Hmax]. specialize (Hmax _ Hin). apply elem_of_rows in Hx as [id Hx].
    rewrite Hr in Hx. apply lookup_insert_Some in Hx as [[_ <-] | [_ Hx]]; [done|]. specialize (Hlt _ _ Hx). cbn in Hmax. lia.
  - apply last_None in El. apply (elem_of_order_by (λ row, (pr_generated_at row, pr_snapshot_id row))) in Hin.
    rewrite El in Hin. by apply elem_of_nil in Hin.
Qed.
Lemma record_keeps reading t settings advertised asked now a q
    (p := publication_of publisher reading t settings advertised asked now) :
  NoDup (Instances.pf_pubkey <$> Series.sd_profiles (rg_data reading)) → history_ok (all t) → spelled now →
  all t !! a = Some q → ∃ q', all (record p t) !! a = Some q' ∧ revision q ≤ revision q' ∧
    (revision q' = revision q ↔ hash q' = hash q ∨ revision q = u32_max).
Proof.
  intros Hnd Hh Hs Hq. assert (map_Forall (λ _, previous_ok) (pb_state p)) as Hok
    by (intros b x Hx; by apply (state_documents reading t settings advertised asked now b)).
  rewrite record_all by done. rewrite lookup_union, Hq. destruct (pb_state p !! a) as [q'|] eqn:E; cbn.
  - exists q'. split; [done|]. apply state_next in E as (rn & h & b & ->); [|done..]. rewrite Hq, next_hash.
    destruct (next_revision rn q h b (Hh _ _ Hq)) as [Hup Hstay]. split; [done|]. rewrite Hstay. naive_solver.
  - exists q. split; [done|]. split; [lia|]. naive_solver.
Qed.

(** C11: a run leaves the record alone, or its clock is past every run recorded
    before it; then exactly one run is added, under an identity no earlier run
    had; it is the latest; and every address published before is still on
    record, at a revision that has not gone down and stays put exactly while
    the figures do (or at the ceiling of its width). *)
Theorem publication_history (t : Tables) (log : list Event) (w : World) (cli : Cli)
    (settings : Settings) (dry_run out republish : bool) (now : Z)
    (r := run publisher w t cli settings dry_run out republish now) :
  reachable t log → sound (wd_db w) → spelled now →
  rn_tables r = t ∨
  (rn_result r = Ok () ∧ publication_runs t !! snapshot_id_of now = None ∧
    (∀ id row, publication_runs t !! id = Some row → pr_generated_at row < now) ∧
    (∃ row, publication_runs (rn_tables r) = <[snapshot_id_of now := row]> (publication_runs t) ∧
      pr_generated_at row = now ∧ latest_run (rn_tables r) = Some (into_run row)) ∧
    (∀ a q, all t !! a = Some q → ∃ q', all (rn_tables r) !! a = Some q' ∧ revision q ≤ revision q' ∧
      (revision q' = revision q ↔ hash q' = hash q ∨ revision q = u32_max))).
Proof.
  intros Hreach Hdb%so_bestiary Hs. destruct (reachable_consistent t log Hreach) as (Hh & _ & _ & Hruns).
  pose proof (run_cases w t cli settings dry_run out republish now Hdb) as Hcases. cbv zeta in Hcases. fold r in Hcases.
  destruct Hcases as [[E1 _] | (reading & keys & asked & [[]|e] & Hnd & Hc & _ & Er & Et)]; [by left| |by left].
  right. assert (∀ id row, publication_runs t !! id = Some row → pr_generated_at row < now) as Hlt
    by (intros id row; by apply clock_advances).
  split; [done|]. split; [|split; [done|]].
  - apply eq_None_not_Some. intros [row Hrow]. specialize (Hlt _ _ Hrow). apply Hruns in Hrow as (E & _ & Hs').
    apply snapshot_id_inj in E; [lia|done..].
  - rewrite Et. split; [by apply record_latest|]. intros a q Hq. by apply record_keeps.
Qed.
(** ** When nothing stands in the way *)

Lemma send_to_accepted p keys answer :
  (∀ e, took answer e = true) →
  send_to p keys answer =
    (((λ d, sign d (s_run (pb_snapshot p)) keys) <$> to_send p) ++ [sign_index (pb_index p) (s_run (pb_snapshot p)) keys], Ok ()).
Proof.
  intros Ha. assert (∀ e, ∃ delivery, answer e = Ok delivery ∧ Client.is_published delivery = true) as Htook.
  { intros e. specialize (Ha e). unfold took in Ha. destruct (answer e) as [d|]; [by exists d|done]. }
  set (run := s_run (pb_snapshot p)).
  set (g := λ d, (d, match answer (sign d run keys) with Ok x => x | Err _ => Client.mkDelivery [] [] end)).
  unfold send_to. fold run. rewrite (collect_map_Ok _ g).
  2: { intros d _. unfold g. by destruct (Htook (sign d run keys)) as (x & -> & _). }
  rewrite decide_True.
  - destruct (Htook (sign_index (pb_index p) run keys)) as (x & -> & Hx). by rewrite Hx.
  - unfold refusals. generalize (to_send p). intros l. induction l as [|d l IH]; [done|]. rewrite fmap_cons, filter_cons.
    rewrite decide_False; [done|]. unfold g. cbn. destruct (Htook (sign d run keys)) as (x & -> & Hx). by rewrite Hx.
Qed.

(** When everything went out and was taken. *)
Lemma documents_on_record reading t log settings advertised asked now keys
    (p := publication_of publisher reading t settings advertised asked now)
    (events := (λ d, sign d (s_run (pb_snapshot p)) keys) <$> to_send p) index d :
  NoDup (Instances.pf_pubkey <$> Series.sd_profiles (rg_data reading)) → history_ok (all t) → spelled now →
  (∀ a q, all t !! a = Some q → holds log a (hash q) (revision q)) → d ∈ s_documents (pb_snapshot p) →
  holds (log ++ events ++ [index]) (d_of d) (d_hash d) (e_revision (d_envelope d)) ∧
  ∃ q, all (record p t) !! d_of d = Some q ∧ hash q = d_hash d ∧ revision q = e_revision (d_envelope d).
Proof.
  intros Hnd Hh Hs Hall Hd.
  destruct (documents_held reading t settings advertised asked now (log ++ events ++ [index]) d) as [Hheld Hq];
    [done|done|done| | |done|].
  - intros a q Hq. eapply holds_mono, Hall, Hq. intros x Hx. apply elem_of_app. by left.
  - intros d' Hd'. exists keys. apply elem_of_app. right. apply elem_of_app. left.
    by apply (list_elem_of_fmap_2 (λ d, sign d (s_run (pb_snapshot p)) keys)).
  - split; [done|]. destruct Hq as (q & Hq & _ & E1 & E2). exists q. split; [|done].
    rewrite record_all by (intros b x Hx; by apply (state_documents reading t settings advertised asked now b)).
    rewrite lookup_union. fold p in Hq. rewrite Hq. by destruct (all t !! d_of d).
Qed.

(** Reading what ingest stored does not fail. *)
Lemma compute_total `{!LoadRates.RatesJson} db t settings advertised asked now :
  sound db → ∃ p, compute publisher db t settings advertised asked now = Ok p.
Proof.
  intros Hr. pose proof (so_archive db Hr) as Hok. unfold compute, read_archive, load.
  set (coverage := from_extent _ _).
  destruct (LoadActivity.orders_load db whole LoadActivity.All Hok) as (l & Hl).
  change (LoadActivity.fetch db whole LoadActivity.All) with (LoadActivity.orders db whole) in Hl. rewrite Hl.
  destruct (LoadDisputes.disputes_load db whole Hok) as (d & Hd).
  destruct (LoadRates.book_loads db (default now (earliest coverage)) now Hok) as (b & Hb).
  cbn [mbind Result_bind]. rewrite Hd. cbn [mbind Result_bind]. rewrite Hb. by eexists.
Qed.

(** C23: over any sound archive, with a key, a clock past
    the last run, documents within the ceiling and relays that take what they
    are sent, a run ends well: the index goes last, and every document of the
    snapshot, sent or left alone, is then held by a relay as the run has it and
    on record. *)
Theorem publication_succeeds `{!LoadRates.RatesJson} (t : Tables) (log : list Event) (w : World)
    (cli : Cli) (settings : Settings) (out republish : bool) (now : Z) (reference : string) (keys : Keys)
    (asked : Republish) (r := run publisher w t cli settings false out republish now) :
  reachable t log → sound (wd_db w) → spelled now →
  Cli.cl_instance cli = None → Cli.cl_network cli = None → Config.ps_nsec (Config.se_publish settings) = Some reference →
  resolve (wd_env w) reference = Ok keys → (∀ l, latest_run t = Some l → run_generated_at l < now) →
  requested (Cli.cl_from cli) (Cli.cl_until cli) republish = Ok asked →
  (∀ p, compute publisher (wd_db w) t settings (wd_advertised w) asked now = Ok p → over (pb_measured p) (pb_ceiling p) = []) →
  wd_connect w = Ok () → (∀ e, took (wd_answer w) e = true) →
  ∃ p, compute publisher (wd_db w) t settings (wd_advertised w) asked now = Ok p ∧
    rn_result r = Ok () ∧ last (rn_sent r) = Some (sign_index (pb_index p) (s_run (pb_snapshot p)) keys) ∧
    ∀ d, d ∈ s_documents (pb_snapshot p) →
      holds (log ++ accepted (wd_answer w) (rn_sent r)) (d_of d) (d_hash d) (e_revision (d_envelope d)) ∧
      ∃ q, all (rn_tables r) !! d_of d = Some q ∧ hash q = d_hash d ∧ revision q = e_revision (d_envelope d).
Proof.
  intros Hreach Hdb Hs Hi Hn Hk Hkeys Hclock Hask Hover Hconn Hans.
  destruct (compute_total (wd_db w) t settings (wd_advertised w) asked now Hdb) as [p Ep]. exists p. split; [done|].
  specialize (Hover p Ep). apply so_bestiary in Hdb.
  destruct (compute_Ok _ _ _ _ _ _ _ Hdb Ep) as (reading & Epub & Hnd).
  assert (prepare publisher w t cli settings false out republish now = Ok (Some keys, p)) as Hp.
  { unfold prepare, refuse_scoped. rewrite Hi, Hn, Hk. cbn. rewrite Hkeys. cbn. rewrite Bool.orb_true_r.
    assert (refuse_stalled_clock (latest_run t) now = Ok ()) as ->.
    { destruct (latest_run t) as [l|]; [|done]. cbn. by rewrite decide_True by (by apply Hclock). }
    cbn. rewrite Hask. cbn. rewrite Ep. cbn. unfold refuse_oversized. by rewrite Hover. }
  assert (r = mkRan (record p t) (((λ d, sign d (s_run (pb_snapshot p)) keys) <$> to_send p)
    ++ [sign_index (pb_index p) (s_run (pb_snapshot p)) keys]) (if out then write p else []) (Ok ())) as ->.
  { unfold r, run. rewrite Hp, Hconn. by rewrite send_to_accepted. }
  cbn [rn_result rn_sent rn_tables]. split; [done|]. split; [by rewrite last_snoc|].
  assert (∀ l, accepted (wd_answer w) l = l) as ->.
  { intros l. unfold accepted. induction l as [|e l IH]; [done|]. rewrite filter_cons, decide_True by (by rewrite Hans). by rewrite IH. }
  destruct (reachable_consistent t log Hreach) as (Hh & Hall & _). clear Ep Hp Hover. subst p.
  intros d Hd. by apply documents_on_record.
Qed.
End facts.

(** ** A run at a concrete input *)

#[local] Existing Instances Demo.demo Demo.demo_laws LoadRates.demo_rates_json Gregorian.gregorian
  Gregorian.gregorian_laws.

Module runs.
Import SnapshotFacts.sample.
(** Stand-ins for the libraries. *)
#[export] Instance keys : Nostr := {|
  Keys := string; from_bech32 := λ _, None; from_hex := Some; public_key := id;
  finalize := λ keys kind tags created_at content, mkEvent "" keys created_at kind tags content;
|}.
#[export] Instance keys_laws : NostrLaws.
Proof. by constructor. Qed.
#[export] Instance envelopes : Serialize Envelope := λ e, to_json (e_payload e).
#[export] Instance indexes : Serialize Index := λ i, join "," (en_d <$> i_documents i).
Definition publisher : Publisher := mkPublisher "bestiario" "0.1.0".
Definition cli : Cli := Cli.mkCli None false None None None None 0 (Cli.Publish false None false).
Definition settings : Settings := Config.deserialized {|
  Config.wr_relays := Some ["wss://relay"]; Config.wr_discover_relays := None; Config.wr_resume_overlap_secs := None;
  Config.wr_instances := None; Config.wr_accept_unknown_instances := Some true; Config.wr_networks := None;
  Config.wr_backfill_from := None; Config.wr_dev_fee_percentage_default := None; Config.wr_dev_fee_percentage := None;
  Config.wr_url := None; Config.wr_reference_currency := Some "EUR"; Config.wr_publish_relays := Some ["wss://relay"];
  Config.wr_max_content_bytes := None; Config.wr_nsec := Some "KEY";
|}.
Definition archive : Db.Db := LoadActivity.sample.archive.
Definition world (answer : Answer) : World := mkWorld archive (λ _, Some "secret") [] (Ok ()) answer.
Definition accepting : Answer := λ _, Ok (Client.mkDelivery ["wss://relay"] []).
Definition first : Ran := run publisher (world accepting) empty_tables cli settings false false false 1767830001.

(** Figures told apart by when they end. *)
#[local] Instance ended : Serialize Payload := λ p, match p with PWindow p => r_until (wp_range p) | PSeries _ => "series" end.
#[local] Instance ended_envelopes : Serialize Envelope := λ e, to_json (e_payload e).
#[local] Instance codes : Digest := λ text, (λ a, Z.of_nat (nat_of_ascii a)) <$> Strings.String.list_ascii_of_string text.
(** The archive once more orders have come in. *)
Definition later (ids : list string) : Db.Db :=
  foldl (λ db id, (PipelineFacts.run db (order_event id (1700000300 + 3600 * Z.of_nat (String.length id)) "success")).2) archive ids.
Definition asked (db : Db.Db) (answer : Answer) : World := mkWorld db (λ _, Some "secret") [] (Ok ()) answer.
(** Every relay refuses one document. *)
Definition refusing : Answer := λ e,
  Ok (Client.mkDelivery (if decide (tag_of "d" e = Some "orders:7d") then [] else ["wss://relay"]) []).
Definition run1 : Ran := run publisher (asked archive accepting) empty_tables cli settings false false false 1767830001.
Definition run2 : Ran := run publisher (asked (later ["x"]) refusing) (rn_tables run1) cli settings false false false 1767833601.
Definition run3 : Ran := run publisher (asked (later ["x"; "yy"]) accepting) (rn_tables run2) cli settings false false false 1767837201.
Definition copies (e : Event) : bool :=
  bool_decide (tag_of "d" e = Some "volume:7d" ∧ tag_of "revision" e = Some "2").

(** A run that ends refused leaves no record of the documents relays did take,
    so the next run gives other figures the same revision. *)
Example same_revision_twice :
  rn_result run2 = Err (Refused ["orders:7d"]) ∧ rn_result run3 = Ok () ∧
  ev_content <$> filter copies (accepted refusing (rn_sent run2)) = ["2023-11-14T23:18:20+00:00"] ∧
  ev_content <$> filter copies (accepted accepting (rn_sent run3)) = ["2023-11-15T00:18:20+00:00"].
Proof. vm_compute. by split_and!. Qed.
End runs.

#[local] Existing Instances sample.json sample.digest
  runs.keys runs.keys_laws runs.envelopes runs.indexes.

Lemma spelled_at now : in_calendar now = true → bool_decide (0 ≤ year now ≤ 9999) = true → spelled now.
Proof. intros Hi Hy%bool_decide_eq_true. by split. Qed.
Lemma sample_sound : sound runs.archive.
Proof. apply (reachable_sound open_policy), LoadActivity.sample.archive_reachable. Qed.
Lemma sample_reachable : reachable runs.publisher (rn_tables runs.first)
  ([] ++ accepted runs.accepting (rn_sent runs.first)).
Proof.
  apply (reachable_run runs.publisher empty_tables [] (runs.world runs.accepting)); [constructor| |].
  - exact sample_sound.
  - apply spelled_at; vm_compute; reflexivity.
Qed.
Theorem index_promise_witness :
  match rn_sent runs.first !! 40%nat with
  | Some e => ∃ i run keys, e = sign_index i run keys ∧
      ∀ entry, entry ∈ i_documents i → ∃ d run keys, sign d run keys ∈ take 40 (rn_sent runs.first) ∧ d_of d = en_d entry
  | None => False
  end.
Proof.
  assert (accepted runs.accepting (rn_sent runs.first) = rn_sent runs.first) as Eall by (vm_compute; reflexivity).
  pose proof sample_reachable as Hr. rewrite Eall in Hr. cbn [app] in Hr.
  destruct (rn_sent runs.first !! 40%nat) as [e|] eqn:E; [|vm_compute in E; discriminate].
  assert (tag_of "d" e = Some (Address.show (Address.AIndex None))) as Et
    by (revert E; vm_compute; by intros [= <-]).
  destruct (index_promise runs.publisher _ _ _ _ Hr E Et) as (i & rn & keys & He & Hk).
  exists i, rn, keys. split; [exact He|]. intros entry Hin.
  destruct (Hk entry Hin) as (d & rn' & keys' & Hd & Ha & _). exists d, rn', keys'. split; [exact Hd|exact Ha].
Defined.
Theorem publication_history_witness :
  ∃ row, pr_generated_at row = 1767830002 ∧
    latest_run (rn_tables (run runs.publisher (runs.world runs.accepting) (rn_tables runs.first) runs.cli runs.settings
      false false false 1767830002)) = Some (into_run row).
Proof.
  destruct (publication_history runs.publisher _ _ (runs.world runs.accepting) runs.cli runs.settings false
    false false 1767830002 sample_reachable sample_sound)
    as [E | (_ & _ & Hlt & (row & _ & Ea & El) & _)].
  - apply spelled_at; vm_compute; reflexivity.
  - exfalso. apply (f_equal (λ t, size (publication_runs t))) in E. vm_compute in E. discriminate.
  - exists row. split; [exact Ea|exact El].
Defined.
Theorem publication_succeeds_witness :
  let r := run runs.publisher (runs.world runs.accepting) (rn_tables runs.first) runs.cli runs.settings
    false false false 1767830002 in
  rn_result r = Ok () ∧ is_Some (last (rn_sent r)).
Proof.
  destruct (publication_succeeds runs.publisher _ _ (runs.world runs.accepting) runs.cli runs.settings false
    false 1767830002 "KEY" (("secret" : string) : @Keys runs.keys) RepublishNo sample_reachable
    sample_sound) as (p & _ & H1 & H2 & _); try reflexivity.
  - apply spelled_at; vm_compute; reflexivity.
  - intros l E. vm_compute in E. injection E as <-. reflexivity.
  - intros p E. vm_compute in E. injection E as <-. vm_compute. reflexivity.
  - split; [exact H1|]. eexists. exact H2.
Defined.
