(* ===== verification/Commands.v ===== *)
(** * The program

    [src/commands/mod.rs], [src/main.rs], [src/logging.rs] and [src/db/mod.rs]: one invocation,
    from its settings to what it leaves of the archive, and any number of them
    in a row. *)

From S2P Require Import Prelude Event Parse Db Range Calendar Pipeline PipelineFacts LoadInstances Growth.
From S2P Require Text Cli Config Series Filters LoadRates Backfill Discovery Sync Rebuild.
From S2P Require Document Index Published Signer Client Publish Report Reports ReportsFacts.
From S2P Require SnapshotFacts PublishFacts.

#[local] Open Scope Z_scope.

(** ** Opening the database

    [src/db/mod.rs]: the URL checked, the pool shaped for it, the migrations
    applied and free space given back. SQLite and its driver are parameters. *)

Module Pool.
Inductive JournalMode : Type := Wal.
Inductive Synchronous : Type := Normal.
Record ConnectOptions : Type := mkConnectOptions {
  create_if_missing : bool;
  journal_mode : JournalMode;
  synchronous : Synchronous;
  foreign_keys : bool;
  busy_timeout : Z;
}.
(** Seconds; [None] never reaps. *)
Record PoolOptions : Type := mkPoolOptions {
  max_connections : Z;
  min_connections : Z;
  idle_timeout : option Z;
  max_lifetime : option Z;
}.

(** What the driver does: its defaults, the URLs it can read, opening, applying
    the migrations, reading a pragma and running a statement. *)
Class Driver := {
  Connections : Type;
  DriverError : Type;
  defaults : PoolOptions;
  readable : string → Result DriverError ();
  connect_with : PoolOptions → string → ConnectOptions → Result DriverError Connections;
  run_migrations : Connections → Result DriverError Connections;
  query_scalar : Connections → string → Result DriverError Z;
  execute : Connections → string → Result DriverError Connections;
}.

Section pool.
Context `{Driver}.

Inductive DbError : Type :=
| NotSqlite (url : string)
| Url (url : string) (source : DriverError)
| Connect (url : string) (source : DriverError)
| Migrate (source : DriverError)
| Reclaim (source : DriverError).

Definition BUSY_TIMEOUT : Z := 30.
Definition connect_options_for (url : string) : Result DbError ConnectOptions :=
  _ ← map_err (Url url) (readable url);
  Ok (mkConnectOptions true Wal Normal true BUSY_TIMEOUT).

Definition is_in_memory (url : string) : bool :=
  Series.contains_str ":memory:" url || Series.contains_str "mode=memory" url.
Definition pool_options_for (url : string) : PoolOptions :=
  if is_in_memory url then mkPoolOptions 1 1 None None
  else mkPoolOptions 5 (min_connections defaults) (idle_timeout defaults) (max_lifetime defaults).

Definition connect (url : string) : Result DbError Connections :=
  if starts_with "sqlite:" url then
    options ← connect_options_for url;
    map_err (Connect url) (connect_with (pool_options_for url) url options)
  else Err (NotSqlite url).
Definition migrate (pool : Connections) : Result DbError Connections := map_err Migrate (run_migrations pool).

Record Reclaimed : Type := mkReclaimed { before : Z; after : Z }.
Definition RECLAIM_FREE_FRACTION : Z := 4.
(** [*] on [i64], wrapping as release builds do. *)
Definition i64_mul (a b : Z) : Z := as_i64 ((a * b) mod 2 ^ 64).

(** What it found, and the database it leaves. *)
Definition reclaim_space (pool : Connections) : Result DbError (option Reclaimed) * Connections :=
  let pages pool pragma := map_err Reclaim (query_scalar pool pragma) in
  match (page_size ← pages pool "PRAGMA page_size";
         total ← pages pool "PRAGMA page_count";
         free ← pages pool "PRAGMA freelist_count";
         Ok (page_size, total, free)) with
  | Err e => (Err e, pool)
  | Ok (page_size, total, free) =>
      if bool_decide (free = 0) || bool_decide (i64_mul free RECLAIM_FREE_FRACTION < total) then (Ok None, pool)
      else
        match execute pool "VACUUM" with
        | Err e => (Err (Reclaim e), pool)
        | Ok pool =>
            match execute pool "PRAGMA wal_checkpoint(TRUNCATE)" with
            | Err e => (Err (Reclaim e), pool)
            | Ok pool =>
                (after ← pages pool "PRAGMA page_count";
                 Ok (Some (mkReclaimed (i64_mul total page_size) (i64_mul after page_size))), pool)
            end
        end
  end.

(** Space that could not be reclaimed is logged, and no reason to stop. *)
Definition connect_and_migrate (url : string) : Result DbError Connections :=
  pool ← connect url;
  pool ← migrate pool;
  Ok (reclaim_space pool).2.

(** An in-memory database is one connection that is never reaped; and whatever
    the free space, a database that opened and migrated is handed over. *)
Lemma in_memory_is_pinned url :
  is_in_memory url = true → pool_options_for url = mkPoolOptions 1 1 None None.
Proof. intros Hm. unfold pool_options_for. by rewrite Hm. Qed.
Lemma opens_unless url :
  match connect_and_migrate url with
  | Ok _ => ∃ pool, connect url = Ok pool ∧ ∃ pool', migrate pool = Ok pool'
  | Err e => connect url = Err e ∨ ∃ pool, connect url = Ok pool ∧ migrate pool = Err e
  end.
Proof.
  unfold connect_and_migrate. destruct (connect url) as [pool|e]; cbn; [|by left].
  destruct (migrate pool) as [pool'|e] eqn:E; cbn; [eauto|]. right. by exists pool.
Qed.
(** Nothing is rewritten while more than three pages in four are in use. *)
Lemma rewrites_when_sparse pool total free :
  query_scalar pool "PRAGMA page_count" = Ok total → query_scalar pool "PRAGMA freelist_count" = Ok free →
  0 ≤ free < 2 ^ 60 → (reclaim_space pool).2 ≠ pool → 0 < free ∧ total ≤ 4 * free.
Proof.
  intros Ht Hf Hb. unfold reclaim_space. rewrite Ht, Hf. cbn [map_err].
  destruct (query_scalar pool "PRAGMA page_size"); cbn [mbind Result_bind map_err]; [|done].
  assert (i64_mul free RECLAIM_FREE_FRACTION = 4 * free) as ->.
  { unfold i64_mul, RECLAIM_FREE_FRACTION. change (2 ^ 60) with 1152921504606846976 in Hb.
    rewrite Z.mod_small by (change (2 ^ 64) with 18446744073709551616; lia).
    unfold as_i64. change i64_max with 9223372036854775807. case_decide; lia. }
  case_bool_decide; [done|]. case_bool_decide; [done|]. intros _. lia.
Qed.
End pool.
End Pool.

(** ** Set-up *)

(** [BESTIARIO_NOW] overrides the clock when it is a number. *)
Definition now (bestiario_now : option string) (clock : Z) : Z := default clock (bestiario_now ≫= i64_from_str).

(** [logging.rs]: this crate is louder than what it depends on. *)
Definition default_filter (verbose : Z) : string :=
  if decide (verbose = 0) then "bestiario=info,bestiario_stats=info,warn"
  else if decide (verbose = 1) then "bestiario=debug,bestiario_stats=debug,info"
  else "bestiario=trace,bestiario_stats=trace,debug".

(** A missing file is tolerated only when no path was typed. *)
Definition settings_for `{Text.CaseMapping} `{Config.Npub} (build : string → bool → Result string Config.Written)
    (cli : Cli.Cli) : Result (string * Config.ConfigError) Config.Settings :=
  match Cli.cl_config cli with
  | Some path => map_err (pair path) (Config.load build path)
  | None => map_err (pair Config.DEFAULT_CONFIG_PATH) (Config.load_optional build Config.DEFAULT_CONFIG_PATH)
  end.

(** ** One invocation *)

(** What an invocation finds outside itself: the clock, the relays and how
    they answer, what a sync hears, and the environment. *)
Record Outside : Type := mkOutside {
  ou_now : Z;
  ou_fetch : string → Filters.Filter → option (list Event);
  ou_parse_url : string → option string;
  ou_dial : nat → string → option string;
  ou_signals : list Sync.Signal;
  ou_env : string → option string;
  ou_advertised : list Client.Nip11.Advertised;
  ou_connect : Result Client.ClientError ();
  ou_answer : Publish.Answer;
}.

Inductive Ended : Type :=
| Reported (result : Result Reports.CommandError string)
| Backfilled (result : Result Discovery.BackfillError (Counts * Range * Client.RelayClient))
| Followed (result : Result Discovery.BackfillError (Sync.State * list Sync.Targets))
| Published (ran : Publish.Ran)
| Rebuilt (result : Sql Rebuild.Rebuilt).

(** What [main] makes of it: the exit code is a failure's when there is an
    error. *)
Definition succeeded (e : Ended) : bool :=
  match e with
  | Reported (Ok _) | Backfilled (Ok _) | Followed (Ok _) | Rebuilt (Ok _) => true
  | Published ran => match Publish.rn_result ran with Ok _ => true | Err _ => false end
  | _ => false
  end.

#[local] Abbreviation newline := (String "010" "").
(** [Display] for [Counts] and [Rebuilt]. *)
Definition display_counts (c : Counts) : string :=
  pretty (stored c) +:+ " stored, " +:+ pretty (duplicate c) +:+ " already known, " +:+ pretty (redundant c)
  +:+ " unchanged, " +:+ pretty (rejected c) +:+ " rejected".
Definition display_rebuilt (r : Rebuild.Rebuilt) : string :=
  pretty (Rebuild.rb_events r) +:+ " events replayed (" +:+ pretty (Rebuild.rb_unreadable r) +:+ " unreadable), "
  +:+ pretty (Rebuild.rb_orders r) +:+ " orders and " +:+ pretty (Rebuild.rb_disputes r) +:+ " disputes projected".
(** The object [backfill --json] prints: the window, then stored, duplicate,
    rejected and total; [spell] is [serde_json]. *)
Definition backfill_report `{Calendar} (spell : string * string → list (string * Z) → string) (cli : Cli.Cli)
    (counts : Counts) (range : Range) : string :=
  if Cli.cl_json cli then
    spell (Report.range_to_rfc3339 range) [("stored", stored counts); ("duplicate", duplicate counts);
      ("rejected", rejected counts); ("total", total counts)] +:+ newline
  else "backfill: " +:+ display_counts counts +:+ newline.
Definition printed `{Calendar} (spell : string * string → list (string * Z) → string) (cli : Cli.Cli) (e : Ended) : string :=
  match e with
  | Reported (Ok text) => text
  | Backfilled (Ok (counts, range, _)) => backfill_report spell cli counts range
  | Followed (Ok (s, _)) => "sync: " +:+ display_counts (Sync.st_counts s) +:+ newline
  | Rebuilt (Ok rebuilt) => "rebuild: " +:+ display_rebuilt rebuilt +:+ newline
  | _ => ""
  end.

Section program.
Context {cal : Calendar} `{External} `{Backfill.PublicKeys} `{Text.CaseMapping} `{Report.Renderer}.
Context `{Signer.Nostr} `{Document.Serialize Document.Payload} `{Document.Serialize Document.Envelope}
  `{Document.Serialize Index.Index} `{Document.Digest}.
Context (publisher : Index.Publisher).

(** The archive and the publication tables, which are one database. *)
Definition Store : Type := Db * Published.Tables.

(** [dispatch]; [None] is a backfill out of fuel, or a signal that comes where
    a sync does not listen for it. *)
Definition dispatch (fuel : nat) (o : Outside) (settings : Config.Settings) (cli : Cli.Cli) (store : Store) :
    option (Ended * Store) :=
  let '(db, t) := store in
  match Cli.cl_command cli with
  | Cli.Backfill kind =>
      '(result, db) ← Discovery.run (ou_fetch o) (ou_parse_url o) (ou_dial o) fuel settings cli kind (ou_now o) db;
      Some (Backfilled result, (db, t))
  | Cli.Sync =>
      match Sync.start (ou_parse_url o) (ou_dial o 0%nat) settings (ou_now o) db with
      | Err e => Some (Followed (Err e), ((Discovery.connection_set settings (ou_now o) db).2, t))
      | Ok (y, s) =>
          '(s, sent) ← Sync.follow (ou_parse_url o) (Discovery.policy_from (Config.se_indexer settings)) y s (ou_signals o);
          Some (Followed (match Sync.st_phase s with
                          | Sync.Failed e => Err (Discovery.Storage e) | _ => Ok (s, sent) end), (Sync.st_db s, t))
      end
  | Cli.Publish dry_run out republish =>
      let w := Publish.mkWorld db (ou_env o) (ou_advertised o) (ou_connect o) (ou_answer o) in
      let ran := Publish.run publisher w t cli settings dry_run (option_is_some out) republish (ou_now o) in
      Some (Published ran, (db, Publish.rn_tables ran))
  | Cli.Rebuild from_raw =>
      let '(result, db) := Rebuild.rebuild db from_raw in Some (Rebuilt result, (db, t))
  | _ =>
      (λ result, (Reported result, (db, t))) <$> Reports.reported db settings cli (ou_now o)
  end.

(** [run]: the settings, the database they name, then the command. *)
Inductive RunError `{Pool.Driver} : Type :=
| LoadingSettings (path : string) (e : Config.ConfigError)
| OpeningDatabase (url : string) (e : Pool.DbError).
Definition run `{Config.Npub} `{Pool.Driver} (build : string → bool → Result string Config.Written)
    (contents : Pool.Connections → Store) (fuel : nat) (o : Outside) (cli : Cli.Cli) :
    option (Result RunError (Ended * Store)) :=
  match settings_for build cli with
  | Err (path, e) => Some (Err (LoadingSettings path e))
  | Ok settings =>
      let url := Config.ds_url (Config.se_database settings) in
      match Pool.connect_and_migrate url with
      | Err e => Some (Err (OpeningDatabase url e))
      | Ok pool => Ok <$> dispatch fuel o settings cli (contents pool)
      end
  end.

(** ** Many invocations *)

(** One after another over one database, each under settings of its own. *)
Record Invocation : Type := mkInvocation { in_outside : Outside; in_settings : Config.Settings; in_cli : Cli.Cli }.
Fixpoint session (fuel : nat) (store : Store) (invocations : list Invocation) : option (list Ended * Store) :=
  match invocations with
  | [] => Some ([], store)
  | i :: invocations =>
      '(ended, store) ← dispatch fuel (in_outside i) (in_settings i) (in_cli i) store;
      '(rest, store) ← session fuel store invocations;
      Some (ended :: rest, store)
  end.

(** What relays have accepted of an invocation, and of a session in order. *)
Definition accepted_by (i : Invocation) (e : Ended) : list Event :=
  match e with
  | Published ran => PublishFacts.accepted (ou_answer (in_outside i)) (Publish.rn_sent ran)
  | _ => []
  end.
Fixpoint accepted_in (invocations : list Invocation) (ended : list Ended) : list Event :=
  match invocations, ended with
  | i :: invocations, e :: ended => accepted_by i e ++ accepted_in invocations ended
  | _, _ => []
  end.
End program.

(** ** What is printed and published is what the events say *)

Section sources.
Context {cal : Calendar} `{External} `{!ExternalLaws} `{!LoadRates.RatesJson} `{Backfill.PublicKeys} `{Text.CaseMapping}
  `{Report.Renderer}.
Context `{Signer.Nostr} `{Document.Serialize Document.Payload} `{Document.Serialize Document.Envelope}
  `{Document.Serialize Index.Index} `{Document.Digest}.

(** An archive without what tells how its events came by: which relay brought
    each and when, the relays known, the cursors and the names seen. *)
Definition unlabelled (r : EventRecord) : EventRecord :=
  mkEventRecord (er_id r) (er_pubkey r) (er_kind r) (er_created_at r) (er_d_tag r) (er_raw_json r) "" 0.
Definition untraced (db : Db) : Db :=
  set_events (fmap unlabelled) (set_relays (λ _, ∅) (set_sync_state (λ _, ∅) (set_instance_names (λ _, ∅) db))).

Lemma filter_fmap {A B} (P : B → Prop) `{!∀ x, Decision (P x)} (f : A → B) (l : list A) :
  filter P (f <$> l) = f <$> filter (λ x, P (f x)) l.
Proof. induction l as [|x l IH]; [done|]. rewrite fmap_cons, !filter_cons, IH. by case_decide. Qed.
Lemma rows_untraced db : rows (events (untraced db)) ≡ₚ unlabelled <$> rows (events db).
Proof. unfold untraced, rows. cbn [events set_events]. rewrite map_to_list_fmap, <- !list_fmap_compose. done. Qed.

Lemma scoped_untraced db kind scope :
  RepoEvents.scoped (untraced db) kind scope ≡ₚ unlabelled <$> RepoEvents.scoped db kind scope.
Proof. unfold RepoEvents.scoped. rewrite rows_untraced. rewrite filter_fmap. done. Qed.

Lemma is_empty_untraced db : RepoEvents.is_empty (untraced db) = RepoEvents.is_empty db.
Proof. unfold RepoEvents.is_empty. by rewrite (Permutation_length (rows_untraced db)), length_fmap. Qed.
Lemma count_untraced db : RepoEvents.count (untraced db) = RepoEvents.count db.
Proof. unfold RepoEvents.count. by rewrite (Permutation_length (rows_untraced db)), length_fmap. Qed.
Lemma scoped_min_untraced db kind scope : RepoEvents.scoped_min (untraced db) kind scope = RepoEvents.scoped_min db kind scope.
Proof. unfold RepoEvents.scoped_min. by rewrite scoped_untraced, <- list_fmap_compose. Qed.
Lemma latest_untraced db scope : RepoEvents.latest_created_at (untraced db) scope = RepoEvents.latest_created_at db scope.
Proof. unfold RepoEvents.latest_created_at. by rewrite scoped_untraced, <- list_fmap_compose. Qed.
Lemma earliest_untraced db kinds scope :
  RepoEvents.earliest_created_at (untraced db) kinds scope = RepoEvents.earliest_created_at db kinds scope.
Proof.
  unfold RepoEvents.earliest_created_at. rewrite scoped_min_untraced.
  destruct (RepoEvents.scoped_min db None scope) as [floor|]; [|done]. revert floor.
  induction kinds as [|kind kinds IH]; intros floor; [done|]. cbn [RepoEvents.floor_over].
  assert (RepoEvents.kind_floor (untraced db) kind scope = RepoEvents.kind_floor db kind scope) as ->.
  { unfold RepoEvents.kind_floor. by rewrite scoped_min_untraced. }
  destruct (RepoEvents.kind_floor db kind scope); [apply IH|done].
Qed.

(** The latest snapshots are ranked by when their events were signed. *)
Definition unlabel (re : RateRow * EventRecord) : RateRow * EventRecord := (re.1, unlabelled re.2).
Lemma joined_untraced db pubkey : RepoRates.joined (untraced db) pubkey = unlabel <$> RepoRates.joined db pubkey.
Proof.
  unfold RepoRates.joined. change (rates (untraced db)) with (rates db).
  induction (filter _ (rows (rates db))) as [|r l IH]; [done|]. rewrite !bind_cons, fmap_app, IH. apply (f_equal (λ l, l ++ _)).
  change (events (untraced db)) with (unlabelled <$> events db). rewrite lookup_fmap. by destruct (events db !! rr_event_id r).
Qed.
Lemma elem_of_joined db pubkey r e :
  (r, e) ∈ RepoRates.joined db pubkey → r ∈ rows (rates db) ∧ events db !! rr_event_id r = Some e.
Proof.
  unfold RepoRates.joined. intros (r' & Hin & [_ Hr]%list_elem_of_filter)%list_elem_of_bind.
  destruct (events db !! rr_event_id r') as [e'|] eqn:E; [|by apply elem_of_nil in Hin].
  apply list_elem_of_singleton in Hin as [= -> ->]. done.
Qed.
Lemma latest_per_instance_untraced db pubkey :
  archive_ok db → RepoRates.latest_per_instance (untraced db) pubkey = RepoRates.latest_per_instance db pubkey.
Proof.
  intros Hok. unfold RepoRates.latest_per_instance. rewrite joined_untraced.
  rewrite <- list_fmap_compose. change ((λ re, rr_pubkey re.1) ∘ unlabel) with (λ re : RateRow * EventRecord, rr_pubkey re.1).
  f_equal. set (ps := distinct _).
  assert (∀ p, first_by RepoRates.latest_rank (filter (λ re, rr_pubkey re.1 = p) (unlabel <$> RepoRates.joined db pubkey)) =
    unlabel <$> first_by RepoRates.latest_rank (filter (λ re, rr_pubkey re.1 = p) (RepoRates.joined db pubkey))) as Hfirst.
  { intros p. rewrite filter_fmap. change (λ re, rr_pubkey (unlabel re).1 = p) with (λ re : RateRow * EventRecord, rr_pubkey re.1 = p).
    set (l := filter _ _). destruct (first_by RepoRates.latest_rank l) as [x|] eqn:E.
    - apply first_by_Some in E as [Hx Hmin]. apply first_by_intro.
      + intros y z (y' & -> & Hy)%list_elem_of_fmap (z' & -> & Hz)%list_elem_of_fmap [= _ Eid].
        destruct y' as [ry ey], z' as [rz ez]. cbn in Eid.
        apply list_elem_of_filter in Hy as [_ [Hry Hey]%elem_of_joined], Hz as [_ [Hrz Hez]%elem_of_joined].
        assert (ry = rz) as -> by (by apply (Growth.Retention.rates_keyed db)). congruence.
      + by apply list_elem_of_fmap_2.
      + intros y (y' & -> & Hy)%list_elem_of_fmap. exact (Hmin y' Hy).
    - apply first_by_None in E as ->. done. }
  induction ps as [|p ps IH]; [done|]. cbn [omap list_omap]. rewrite Hfirst.
  destruct (first_by RepoRates.latest_rank (filter _ (RepoRates.joined db pubkey))) as [x|]; cbn [fmap option_fmap option_map];
    [rewrite !fmap_cons; by f_equal|done].
Qed.

Lemma coverage_untraced db kinds scope : Reports.coverage (untraced db) kinds scope = Reports.coverage db kinds scope.
Proof. unfold Reports.coverage. by rewrite earliest_untraced. Qed.
Lemma resolve_for_untraced db settings cli instance now :
  Reports.resolve_for (untraced db) settings cli instance now = Reports.resolve_for db settings cli instance now.
Proof. unfold Reports.resolve_for. by rewrite is_empty_untraced. Qed.
Lemma feeds_untraced db pubkey : archive_ok db → LoadRates.feeds (untraced db) pubkey = LoadRates.feeds db pubkey.
Proof. intros Hok. unfold LoadRates.feeds. by rewrite latest_per_instance_untraced. Qed.

(** Step by step through a command: what it reads of the events is rewritten,
    and the rest it reads is the same table. *)
Lemma bind_ext {E A B} (m : Result E A) (f g : A → Result E B) : (∀ x, f x = g x) → m ≫= f = m ≫= g.
Proof. intros Hfg. by destruct m; cbn. Qed.
Ltac follow_events :=
  repeat first
    [ rewrite resolve_for_untraced | rewrite coverage_untraced | rewrite feeds_untraced by done
    | apply bind_ext; intros ? ];
  try reflexivity.

Lemma reported_untraced db settings cli now :
  archive_ok db → Reports.reported (untraced db) settings cli now = Reports.reported db settings cli now.
Proof.
  intros Hok. unfold Reports.reported. case_match; try done; try case_match; apply (f_equal Some).
  all: unfold Reports.summary_run, Reports.list_run, Reports.profile_run, Reports.compare_run,
    Reports.series_run, Reports.market_view_run, Reports.order_run, Reports.orders_run, Reports.volume_run, Reports.market_run,
    Reports.timing_run, Reports.dev_fees_run, Reports.disputes_run, Reports.rates_run, Reports.resolve,
    Reports.orders_report, Reports.volume_report, Reports.dev_fees_report, Reports.disputes_report, Reports.rates_report.
  all: follow_events.
Qed.
Lemma compute_untraced db t settings advertised asked now publisher :
  Publish.compute publisher (untraced db) t settings advertised asked now = Publish.compute publisher db t settings advertised asked now.
Proof. unfold Publish.compute, Publish.read_archive. by rewrite earliest_untraced, latest_untraced, count_untraced. Qed.

Lemma archived_untraced db id : archived_event (events (untraced db)) id = archived_event (events db) id.
Proof.
  change (events (untraced db)) with (unlabelled <$> events db). unfold archived_event. rewrite lookup_fmap.
  by destruct (events db !! id).
Qed.
Lemma archive_ok_untraced db : archive_ok db → archive_ok (untraced db).
Proof.
  intros [Hr Ho Hd Hf Hi Hra Hpo Hpd Hfl]. split; try done; try (intros id; rewrite archived_untraced; by auto).
  intros k r. change (events (untraced db)) with (unlabelled <$> events db). rewrite lookup_fmap.
  intros (x & Hx & ->)%fmap_Some. destruct (Hr _ _ Hx) as (e & url & seen & -> & <-). by exists e, "", 0.
Qed.
(** Nothing else is left of an archive than its events, the bestiary and what
    was asked for. *)
Lemma untraced_determined db db' :
  sound db → sound db' → (∀ id, archived_event (events db) id = archived_event (events db') id) →
  instances db = instances db' → indexed_kinds db = indexed_kinds db' → untraced db = untraced db'.
Proof.
  intros [Hok%archive_ok_untraced _] [Hok'%archive_ok_untraced _] He Hi Hk.
  assert (events (untraced db) = events (untraced db')) as Eev.
  { apply map_eq. intros id. assert (∀ d, archive_ok (untraced d) → events (untraced d) !! id =
      (λ e, RepoEvents.record_of e "" 0) <$> archived_event (events d) id) as Hrow; [|by rewrite !Hrow, He].
    intros d Hd. rewrite <- archived_untraced. unfold archived_event.
    destruct (events (untraced d) !! id) as [r|] eqn:E; [|done].
    destruct (ok_recorded _ Hd _ _ E) as (e & url & seen & -> & _). cbn [mbind option_bind]. rewrite record_raw. cbn.
    change (events (untraced d)) with (unlabelled <$> events d) in E. rewrite lookup_fmap in E.
    apply fmap_Some in E as (x & _ & Ex). unfold unlabelled in Ex. unfold RepoEvents.record_of in *. by injection Ex as -> -> -> -> -> -> -> ->. }
  pose proof (Rebuild.archive_determined _ _ Hok Hok' Eev) as Hcore.
  assert (∀ {A} (f : Db → A), (∀ d, f (core (untraced d)) = f d) → f db = f db') as Hsame
    by (intros A f Hf; by rewrite <- (Hf db), <- (Hf db'), Hcore).
  change (events (untraced db)) with (unlabelled <$> events db) in Eev.
  change (events (untraced db')) with (unlabelled <$> events db') in Eev. unfold untraced, set_events. cbn. rewrite Eev, Hi, Hk.
  by rewrite (Hsame _ instance_info), (Hsame _ order_versions), (Hsame _ orders), (Hsame _ dev_fees), (Hsame _ dispute_versions),
    (Hsame _ disputes), (Hsame _ rates).
Qed.

(** C5: what is printed and what is published depends on the archive only
    through the events it holds, the bestiary and what relays were asked for:
    not on which relay brought an event or when, in what order they came, under
    which policies or by how many runs they were collected. *)
Theorem figures_follow_events publisher db db' :
  sound db → sound db' → (∀ id, archived_event (events db) id = archived_event (events db') id) →
  instances db = instances db' → indexed_kinds db = indexed_kinds db' →
  (∀ settings cli now, Reports.reported db settings cli now = Reports.reported db' settings cli now) ∧
  ∀ env advertised connect answer t cli settings dry_run out republish now,
    Publish.run publisher (Publish.mkWorld db env advertised connect answer) t cli settings dry_run out republish now =
    Publish.run publisher (Publish.mkWorld db' env advertised connect answer) t cli settings dry_run out republish now.
Proof.
  intros Hs Hs' He Hi Hk. pose proof (untraced_determined _ _ Hs Hs' He Hi Hk) as E. split.
  - intros settings cli now. rewrite <- (reported_untraced db), <- (reported_untraced db'), E by (apply so_archive; done). done.
  - intros env advertised connect answer t cli settings dry_run out republish now.
    assert (∀ asked, Publish.compute publisher db t settings advertised asked now = Publish.compute publisher db' t settings advertised asked now)
      as Hc by (intros asked; by rewrite <- (compute_untraced db), <- (compute_untraced db'), E).
    unfold Publish.run. assert (Publish.prepare publisher (Publish.mkWorld db env advertised connect answer) t cli settings dry_run out republish now =
      Publish.prepare publisher (Publish.mkWorld db' env advertised connect answer) t cli settings dry_run out republish now) as ->; [|done].
    unfold Publish.prepare. cbn [Publish.wd_db Publish.wd_advertised Publish.wd_env].
    repeat (apply bind_ext; intros ?). case_match; [|done]. repeat (rewrite ?Hc; apply bind_ext; intros ?). done.
Qed.
End sources.

(** ** What any session leaves *)

Section facts.
Context {cal : Calendar} `{!CalendarLaws} `{External} `{!ExternalLaws} `{!LoadRates.RatesJson} `{Backfill.PublicKeys} `{Text.CaseMapping}
  `{Report.Renderer}.
Context `{Signer.Nostr} `{!Signer.NostrLaws} `{Document.Serialize Document.Payload} `{Document.Serialize Document.Envelope}
  `{Document.Serialize Index.Index} `{Document.Digest}.
Context (publisher : Index.Publisher).

Definition keeps_events (db db' : Db) : Prop := ∀ k, is_Some (events db !! k) → is_Some (events db' !! k).

Lemma dispatch_sound fuel o settings cli db t e db' t' :
  dispatch publisher fuel o settings cli (db, t) = Some (e, (db', t')) → sound db →
  sound db' ∧ keeps_events db db' ∧
  match e with Reported _ | Published _ => db' = db | Rebuilt _ => core db' = core db | _ => True end.
Proof.
  intros Hd Hs. set (policy := Discovery.policy_from (Config.se_indexer settings)).
  assert (grows policy db db' → match e with Backfilled _ | Followed _ => True | _ => False end →
    sound db' ∧ keeps_events db db' ∧
    match e with Reported _ | Published _ => db' = db | Rebuilt _ => core db' = core db | _ => True end) as Hgrown.
  { intros Hg He. split; [by eapply grows_sound|]. split; [intros k; by eapply grows_events|]. by destruct e. }
  unfold dispatch in Hd.
  assert (∀ r, ((λ result, (Reported result, (db, t))) <$> r) = Some (e, (db', t')) → sound db' ∧ keeps_events db db' ∧
    match e with Reported _ | Published _ => db' = db | Rebuilt _ => core db' = core db | _ => True end) as Hreport.
  { intros [r|]; [|done]. intros [= <- <- <-]. by split_and!; [|intros k|]. }
  destruct (Cli.cl_command cli) as [kind| | | | | | | | | |dry_run out republish|from_raw]; try (by eapply Hreport).
  - destruct (Discovery.run _ _ _ _ _ _ _ _ _) as [[r d]|] eqn:Er; [|done]. injection Hd as <- <- <-.
    apply Hgrown; [|done]. by eapply Discovery.run_grows.
  - destruct (Sync.start _ _ _ _ _) as [[y s]|err] eqn:Es.
    + destruct (Sync.follow _ _ _ _ _) as [[s' sent]|] eqn:Ef; [|done]. cbn in Hd. injection Hd as <- <- <-.
      apply Hgrown; [|done]. unfold Sync.start in Es.
      pose proof (Discovery.connection_set_grows policy settings (ou_now o) db) as Hc.
      destruct (Discovery.connection_set _ _ _) as [relays d]. cbn in Hc.
      repeat (match type of Es with (_ ≫= _) = _ => apply bind_Ok in Es as (? & _ & Es) end). injection Es as <- <-.
      etransitivity; [exact Hc|]. by eapply Sync.follow_moves in Ef as (Hg & _).
    + injection Hd as <- <- <-. apply Hgrown; [|done]. apply Discovery.connection_set_grows.
  - injection Hd as <- <- <-. by split_and!; [|intros k|].
  - destruct (rebuild_sound db from_raw Hs) as (rb & d & Hr & Hcore & Hsound). rewrite Hr in Hd. injection Hd as <- <- <-.
    split_and!; [done| |done]. intros k. by rewrite (f_equal events Hcore : events d = events db).
Qed.

(** A publication is a step of the tables and of what relays have accepted. *)
Lemma dispatch_publishes fuel i db t log e db' t' :
  dispatch publisher fuel (in_outside i) (in_settings i) (in_cli i) (db, t) = Some (e, (db', t')) →
  sound db → Document.spelled (ou_now (in_outside i)) → PublishFacts.reachable publisher t log →
  PublishFacts.reachable publisher t' (log ++ accepted_by i e).
Proof.
  intros Hd Hs Hnow Hr. unfold dispatch in Hd.
  destruct (Cli.cl_command (in_cli i)) as [kind| | | | | | | | | |dry_run out republish|from_raw].
  11: { injection Hd as <- <- <-. by apply (PublishFacts.reachable_run publisher t log). }
  all: cbn [accepted_by].
  1: destruct (Discovery.run _ _ _ _ _ _ _ _ _) as [[r d]|]; [|done].
  2: destruct (Sync.start _ _ _ _ _) as [[y s]|err]; [destruct (Sync.follow _ _ _ _ _) as [[s' sent]|]; [|done]|].
  12: destruct (Rebuild.rebuild db from_raw) as [r d].
  all: try (destruct (Reports.reported _ _ _ _) as [r|]; [|done]).
  all: injection Hd as <- <- <-; by rewrite app_nil_r.
Qed.

(** A session is steps of sound archives, publications and what is accepted. *)
Lemma session_moves fuel invocations db t log ended db' t' :
  session publisher fuel (db, t) invocations = Some (ended, (db', t')) →
  sound db → PublishFacts.reachable publisher t log →
  Forall (λ i, Document.spelled (ou_now (in_outside i))) invocations →
  sound db' ∧ keeps_events db db' ∧ PublishFacts.reachable publisher t' (log ++ accepted_in invocations ended).
Proof.
  revert db t log ended. induction invocations as [|i invocations IH]; intros db t log ended Hs Hdb Ht Hnow.
  { injection Hs as <- <- <-. split_and!; [done|by intros k|by rewrite app_nil_r]. }
  cbn [session] in Hs. destruct (dispatch _ _ _ _ _ _) as [[e [db1 t1]]|] eqn:Ed; [|done]. cbn [mbind option_bind] in Hs.
  destruct (session _ _ _ _) as [[rest [db2 t2]]|] eqn:Er; [|done]. injection Hs as <- <- <-.
  apply Forall_cons in Hnow as [Hi Hnow]. pose proof (dispatch_publishes _ _ _ _ log _ _ _ Ed Hdb Hi Ht) as Ht1.
  apply dispatch_sound in Ed as (Hdb1 & Hk1 & _); [|done].
  destruct (IH db1 t1 _ rest Er Hdb1 Ht1 Hnow) as (Hdb2 & Hk2 & Ht2). split_and!; [done| |].
  - intros k Hin. by apply Hk2, Hk1.
  - cbn [accepted_in]. by rewrite app_assoc.
Qed.

(** What an invocation that asks relays needs to end: of a backfill, relays
    that send nothing outside the bounds they are asked for, and fuel for the
    window; of a sync, signals that come where its loop listens. The others
    end by themselves. *)
Definition may_end (fuel : nat) (i : Invocation) (db : Db) : Prop :=
  let o := in_outside i in
  match Cli.cl_command (in_cli i) with
  | Cli.Backfill _ =>
      (∀ relay, Backfill.honours_bounds (ou_fetch o relay)) ∧
      ∀ range, Discovery.range_asked (in_settings i) (in_cli i) (ou_now o) = Ok range →
        0 ≤ range_from range ∧ range_until range < i64_max ∧ (Backfill.enough range ≤ fuel)%nat
  | Cli.Sync =>
      ∀ y s, Sync.start (ou_parse_url o) (ou_dial o 0%nat) (in_settings i) (ou_now o) db = Ok (y, s) →
        Sync.heard (ou_parse_url o) (Discovery.policy_from (Config.se_indexer (in_settings i))) y s (ou_signals o)
  | _ => True
  end.
(** As far as the session gets. *)
Fixpoint may_end_all (fuel : nat) (store : Store) (invocations : list Invocation) : Prop :=
  match invocations with
  | [] => True
  | i :: invocations =>
      may_end fuel i store.1 ∧
      ∀ e store', dispatch publisher fuel (in_outside i) (in_settings i) (in_cli i) store = Some (e, store') →
        may_end_all fuel store' invocations
  end.

Lemma dispatch_ends fuel i store :
  may_end fuel i store.1 → is_Some (dispatch publisher fuel (in_outside i) (in_settings i) (in_cli i) store).
Proof.
  destruct store as [db t]. unfold may_end, dispatch, Reports.reported. cbn [fst]. intros Hi.
  destruct (Cli.cl_command (in_cli i)) as [kind| | | | | | | | | | |]; try (by eexists); try (case_match; by eexists).
  - destruct Hi as [Hb Hrange].
    destruct (Discovery.run_finishes (ou_fetch (in_outside i)) (ou_parse_url (in_outside i)) (ou_dial (in_outside i)) Hb fuel
      (in_settings i) (in_cli i) kind (ou_now (in_outside i)) Hrange db) as [[r d] ->]. by eexists.
  - destruct (Sync.start _ _ _ _ _) as [[y s]|e]; [|by eexists].
    destruct (Sync.heard_ends _ _ _ _ _ (Hi y s eq_refl)) as [[s' sent] ->]. by eexists.
Qed.
Lemma session_ends fuel store invocations :
  may_end_all fuel store invocations → is_Some (session publisher fuel store invocations).
Proof.
  revert store. induction invocations as [|i invocations IH]; intros store; [by eexists|]. intros [Hi Hrest]. cbn [session].
  destruct (dispatch_ends fuel i store Hi) as [[e store'] Hd]. rewrite Hd. cbn [mbind option_bind].
  destruct (IH store' (Hrest e store' Hd)) as [[rest final] ->]. by eexists.
Qed.

(** C4: whatever is run, in whatever order, the archive stays what its events
    say and the publications stay in order. A session of backfills, syncs,
    reports, publications and rebuilds over one database, each under settings
    of its own, ends: a backfill wherever no relay sends anything outside the
    bounds it was asked for, a sync wherever its signals come where its loop
    listens, the rest always. However it went, no archived event is gone; the
    archive is sound; a rebuild ends and leaves the events, versions,
    projections, fees, profiles, rates, cursors and requested kinds as they
    are, forgets no relay, and makes the bestiary what the archived events
    tell; every report command answers, with a report when no reason to refuse
    it holds and otherwise with one that does; and the publication tables are
    as the accepted events left them, so an index any of the publications had
    accepted names only documents accepted before it. *)
Theorem sessions_keep_the_archive fuel invocations db t log :
  sound db → PublishFacts.reachable publisher t log → Forall (λ i, Document.spelled (ou_now (in_outside i))) invocations →
  (may_end_all fuel (db, t) invocations → is_Some (session publisher fuel (db, t) invocations)) ∧
  ∀ ended db' t', session publisher fuel (db, t) invocations = Some (ended, (db', t')) →
    sound db' ∧ keeps_events db db' ∧
    (∀ from_raw, ∃ rebuilt db'', Rebuild.rebuild db' from_raw = (Ok rebuilt, db'') ∧ core db'' = core db' ∧
      sync_state db'' = sync_state db' ∧ indexed_kinds db'' = indexed_kinds db' ∧ relays db' ⊆ relays db'' ∧
      instances db'' = instances (Rebuild.bestiary_told db') ∧
      instance_names db'' = instance_names (Rebuild.bestiary_told db')) ∧
    (∀ settings cli now,
      match Reports.reported db' settings cli now with
      | Some (Ok _) => ∀ e, ¬ ReportsFacts.refused db' settings cli now e
      | Some (Err e) => ReportsFacts.refused db' settings cli now e
      | None => match Cli.cl_command cli with
                | Cli.Backfill _ | Cli.Sync | Cli.Publish _ _ _ | Cli.Rebuild _ => True
                | _ => False
                end
      end) ∧
    PublishFacts.consistent t' (log ++ accepted_in invocations ended).
Proof.
  intros Hdb Ht Hnow. split; [apply session_ends|]. intros ended db' t' Hs.
  destruct (session_moves _ _ _ _ _ _ _ _ Hs Hdb Ht Hnow) as (Hsound & Hk & Ht').
  split_and!; [done|done| | |by apply (PublishFacts.reachable_consistent publisher)].
  - intros from_raw.
    destruct (Rebuild.rebuild_core db' from_raw (so_archive _ Hsound)) as (rb & d & Hr & Hcore & [= Hss Hi] & Hrel & [= Hb Hn] & _).
    exists rb, d. by split_and!.
  - intros settings cli now. pose proof (ReportsFacts.reported_answers db' settings cli now
      (so_archive _ Hsound) (so_bestiary _ Hsound)) as Hans. by destruct (Reports.reported db' settings cli now) as [[]|].
Qed.
End facts.

(** ** A session *)

Module sample.
#[export] Existing Instances Demo.demo Demo.demo_laws Discovery.sample.keys Text.AsciiCase.mapping Gregorian.gregorian
  Gregorian.gregorian_laws LoadRates.demo_rates_json ReportsFacts.shown.plain PublishFacts.runs.keys PublishFacts.runs.keys_laws SnapshotFacts.sample.json SnapshotFacts.sample.digest
  PublishFacts.runs.envelopes PublishFacts.runs.indexes.
Definition outside (signals : list Sync.Signal) : Outside :=
  mkOutside 1700000400 (λ _ _, None) Some (λ _ _, None) signals (λ _, Some "secret") [] (Ok ())
    PublishFacts.runs.accepting.
Definition asks (command : Cli.Command) : Cli.Cli := Cli.mkCli None false (Some 1699999000) (Some 1700001000) None None 0 command.
Definition sync_signals : list Sync.Signal := [Sync.Open 0 0 (λ _, None) false; Sync.Subscribe 0 true;
  Sync.Incoming "wss://one" Sync.sample.order 10 10; Sync.Shutdown].
(** A sync that hears of an order, a rebuild, a publication and a report. *)
Definition invocations : list Invocation := [
  mkInvocation (outside sync_signals) Discovery.sample.settings (asks Cli.Sync);
  mkInvocation (outside []) Discovery.sample.settings (asks (Cli.Rebuild true));
  mkInvocation (outside []) PublishFacts.runs.settings PublishFacts.runs.cli;
  mkInvocation (outside []) Discovery.sample.settings (asks Cli.Summary)].
Definition publisher : Index.Publisher := Index.mkPublisher "bestiario" "0".
Definition after : option (list Ended * Store) := session publisher 0 (empty_db, Published.empty_tables) invocations.
(** Its signals come where its loop listens. *)
Lemma sync_hears y s :
  Sync.start Some (λ _, None) Discovery.sample.settings 1700000400 empty_db = Ok (y, s) →
  Sync.heard Some (Discovery.policy_from (Config.se_indexer Discovery.sample.settings)) y s sync_signals.
Proof.
  intros Hs. apply Sync.follow_heard.
  assert (match Sync.start Some (λ _, None) Discovery.sample.settings 1700000400 empty_db with
          | Ok (y, s) => option_is_some
              (Sync.follow Some (Discovery.policy_from (Config.se_indexer Discovery.sample.settings)) y s sync_signals)
          | Err _ => true
          end = true) as E by (vm_compute; reflexivity).
  rewrite Hs in E. destruct (Sync.follow _ _ _ _ _); [by eexists|discriminate E].
Qed.
End sample.
Import sample.

(** The archive holds the order, and the index is the last event accepted. *)
Theorem sessions_keep_the_archive_witness :
  ∃ ended db t, after = Some (ended, (db, t)) ∧ sound db ∧ is_Some (events db !! "e1") ∧
    (∃ rebuilt db', Rebuild.rebuild db true = (Ok rebuilt, db') ∧ core db' = core db) ∧
    PublishFacts.promise (accepted_in invocations ended) ∧
    (last (accepted_in invocations ended) ≫= Signer.tag_of "d") = Some (Address.show (Address.AIndex None)).
Proof.
  destruct (sessions_keep_the_archive publisher 0 invocations empty_db Published.empty_tables []
    sound_empty (PublishFacts.reachable_start publisher)) as [Hends Hleaves].
  { repeat constructor; vm_compute; intros [=]. }
  assert (match after with
          | Some (ended, (db, _)) => option_is_some (events db !! "e1") && bool_decide
              ((last (accepted_in invocations ended) ≫= Signer.tag_of "d") = Some (Address.show (Address.AIndex None)))
          | None => true end = true) as Hin by (vm_compute; reflexivity).
  destruct Hends as [[ended [db t]] E]; [split; [exact sync_hears|]; intros e store' _; repeat (split; [exact I|]; intros ? ? _); exact I|].
  assert (after = Some (ended, (db, t))) as E' by exact E. rewrite E' in Hin.
  apply andb_prop in Hin as [Hin Hlast%bool_decide_eq_true]. exists ended, db, t. split; [exact E'|].
  destruct (Hleaves ended db t E) as (Hok & _ & Hrebuild & _ & (_ & _ & Hpromise & _)).
  split; [exact Hok|]. split; [destruct (events db !! "e1"); [by eexists|discriminate Hin]|].
  split; [|split; [exact Hpromise|exact Hlast]].
  destruct (Hrebuild true) as (rb & db' & Hr & Hc & _). exists rb, db'. split; [exact Hr|exact Hc].
Defined.

(** The same order heard from two relays at different times. *)
Definition heard (relay : string) (now : Z) : Db := (ingest open_policy empty_db e_order relay now).2.
Lemma heard_sound relay now : sound (heard relay now).
Proof. apply (reachable_sound open_policy). eapply reach_step; [apply reach_empty|apply surjective_pairing]. Qed.
Lemma stored_events policy db event relay now db' :
  effect policy db event relay now Stored db' → events db' = insert (ev_id event) (RepoEvents.record_of event relay now) (events db).
Proof. inversion 1 as [| | | |p d _ _ Hp _ _ Hpersist]; subst. exact (persist_events _ _ _ _ Hp Hpersist). Qed.
Lemma heard_events relay now : (ingest open_policy empty_db e_order relay now).1 = Ok Stored →
  events (heard relay now) = insert (ev_id e_order) (RepoEvents.record_of e_order relay now) ∅.
Proof.
  intros Ho. unfold heard. destruct (ingest_total open_policy empty_db e_order relay now) as (o & db' & Hi & He).
  rewrite Hi in Ho |- *. cbn [fst] in Ho. injection Ho as ->. by apply stored_events in He.
Qed.
Theorem figures_follow_events_witness :
  events (heard "wss://one" 1) ≠ events (heard "wss://two" 2) ∧
  ∀ settings cli now, Reports.reported (heard "wss://one" 1) settings cli now = Reports.reported (heard "wss://two" 2) settings cli now.
Proof.
  assert (events (heard "wss://one" 1) = insert (ev_id e_order) (RepoEvents.record_of e_order "wss://one" 1) ∅) as E1
    by (apply heard_events; vm_compute; reflexivity).
  assert (events (heard "wss://two" 2) = insert (ev_id e_order) (RepoEvents.record_of e_order "wss://two" 2) ∅) as E2
    by (apply heard_events; vm_compute; reflexivity).
  split.
  - rewrite E1, E2. intros E. apply (f_equal (λ t, er_seen_at <$> t !! ev_id e_order)) in E. rewrite !lookup_insert_eq in E. discriminate E.
  - apply (figures_follow_events publisher); [apply heard_sound|apply heard_sound| |vm_compute; reflexivity|vm_compute; reflexivity].
    intros id. unfold archived_event. rewrite E1, E2, !lookup_insert. destruct (decide (ev_id e_order = id)); [|reflexivity].
    cbn [mbind option_bind]. by rewrite !record_raw.
Defined.
